(* ===== verification/_CoqProject ===== *)
-Q . S2P
Prelude.v
GoStrings.v
Numeral.v
Duration.v
IO.v
Route.v
Registry.v
RegistrySpec.v
Balance.v
AgentConn.v
HttpHead.v
AltSvc.v
H3Pool.v
Tunnel.v
Dispatch.v
Config.v
Obs.v
Agent.v
Metrics.v
Edge.v
ServeAgent.v
Http1.v
Quic.v
H3Body.v
Pki.v
H3Start.v
H3Serve.v
Handoff.v
Lifecycle.v
Journal.v
Admin.v
Daemon.v
Proxy.v
Doctor.v
Errpage.v
Isolation.v
WebSocket.v
Drain.v
Reload.v
Process.v
Files.v
DropIn.v
Install.v
Certs.v
Trust.v
Pipes.v
Cli.v
Status.v
SlotWait.v
