(* ===== verification/Prelude.v ===== *)
(** * Coen: a verification library for the tunnel's edge and agent

    Coen publishes services behind a firewall: an _edge_ with a public address
    accepts HTTP requests, and _agents_ next to the services keep an outgoing,
    mutually authenticated tunnel to the edge over which each request travels
    on a stream of its own.  This library models the parts of the Go program
    that carry its own logic and proves what makes them correct.

    ** How a request travels, and which file models what

    - [internal/config] decides what is allowed and where things listen:
      [Config.v] ([Validate], [LoadEdge], [LoadAgent], drop-in files, duplicate
      hosts, listener overlap, the fingerprint sets); [Duration.v] reads its
      durations, with Go's [time.ParseDuration]; [DropIn.v] reads it from disk
      ([dropin.go], [load.go]).
    - An agent connects.  [internal/edge/registry.go] tracks the session while
      it is checked and pools it, one live session per certificate unless the
      certificate is shared: [Registry.v], one definition per critical section,
      with a step relation over their interleavings, and [RegistrySpec.v], what
      the registry promises its callers, which it refines.
      The handler of a tunnel connection, [serveAgent] of
      [internal/edge/edge.go], drives it: [ServeAgent.v], where the other
      goroutines may act on the registry between any two of its calls.
    - A request arrives.  [handleIngress] of [internal/edge/edge.go] takes it
      from its slot of the global cap to its answer, composed of the parts
      below: [Edge.v].  [internal/edge/http.go] and [wire.go] read its head:
      [HttpHead.v].  [internal/route] finds its route: [Route.v].
    - [routeState.pick] of [internal/edge/edge.go] chooses among the route's
      sessions: [Balance.v].  [dispatch], [dispatchOnce] and [tryAgent] try them
      in turn, retry and wait: [Dispatch.v], where what the world answers is the
      input and what the code does is a list of effects.
    - Opening a stream on a session, and taking a session out of the pool when
      its agent drains, are [openUnlessRetired], [retire] and [retireForDrain]:
      [AgentConn.v], again a step relation.  [Drain.v] runs both ends of a drain
      with the session between them ([internal/tunnel/control.go],
      [shutdownSession] of the agent, [retireForDrain] of the edge); the class
      [Session] states what it relies on from yamux.  [Reload.v] runs a whole
      reload: that drain, the two processes of [Handoff.v] and the edge's
      registry in one system.
    - On the wire, [internal/tunnel] frames the preamble, the accept byte and
      the drain handshake: [Tunnel.v].
    - [internal/agent/agent.go] takes the stream, routes it to a local service
      and pipes; it reconnects with backoff and hands off to a replacement on
      shutdown: [Agent.v] (with [progressWriter] of [internal/proxy]).
    - Responses pass through [internal/edge/altsvc.go], which adds the Alt-Svc
      header that announces HTTP/3: [AltSvc.v].
    - HTTP/3 requests ([internal/edge/http3.go], [http3ws.go]) become HTTP/1.1
      on the tunnel: [Http1.v] writes the request (head, framing, body,
      trailers, WebSocket upgrades) and has an HTTP/1.1 reader to compare with;
      [H3Body.v] holds the readers and copy loops around bodies and responses;
      [H3Serve.v] the handler, [serveHTTP3], from the slot to the answer, with
      the second try of a request on a fresh stream; [WebSocket.v] the bytes of
      a WebSocket after its upgrade, a step relation.  Tunnel streams are kept
      for a connection's later requests, within the route's cap ([h3pool.go],
      [limit.go]): [H3Pool.v]; requests that wait for a slot of the cap
      ([routeSlot], [slotFromKept]): [SlotWait.v], on top of it.  Accepting QUIC
      connections and closing idle ones: [Quic.v]; what is set up before, the
      public certificate and the limits: [H3Start.v].
    - Bytes between connections, and the CONNECT exchange when an agent reaches
      its edge through an HTTP proxy ([internal/proxy], [internal/netx]):
      [Proxy.v].  Error pages ([internal/errpage]): [Errpage.v].
    - Building the edge from its configuration, opening and closing its
      listeners, telling agents from clients on a shared port, shutdown, and
      [evict] and [retire] across all the parts they touch (the rest of
      [edge.go], [internal/tunnel/tls.go], [internal/obs/drain.go]):
      [Lifecycle.v].
    - Agents are told apart by certificate fingerprints ([internal/pki]):
      [Pki.v]; the certificate commands that make them ([internal/cli/cert.go]):
      [Certs.v].  The TLS configurations of both ends and what a handshake
      under them accepts ([internal/tunnel/tls.go]): [Trust.v].
    - A reload replaces the agent's process ([internal/handoff],
      [internal/cli/replace.go]): [Handoff.v], a step relation over the running
      agent, its reloads and its replacements; the pipes between the two
      processes, on descriptor tables, and [internal/sdnotify]: [Pipes.v].
    - Everything counts in [internal/obs] ([state.go], [routes.go]): [Obs.v];
      [internal/metrics] prints it and reads it back: [Metrics.v].  Logs go to
      the journal ([log.go], [journal.go]): [Journal.v].
    - Around a daemon: its admin socket ([internal/admin]), with the lock that
      lets daemons share a path, in [Admin.v]; its metrics port, the reload of
      its log level and how [coen status] finds it, on Linux and on macOS
      ([internal/cli], [probe.go]) in [Daemon.v]; daemons that start, run and stop side by side on the same
      ports ([runDaemon], [serveDaemon], [internal/metrics/server.go]) in
      [Process.v]; and the checks of [coen doctor] ([internal/doctor]) in
      [Doctor.v].
    - The commands ([internal/cli]): [Cli.v] has [coen doctor], [coen edge] and
      [coen agent] up to the point where they serve, [Status.v] what
      [coen status] prints, [Install.v] [coen install].  [Files.v] has the paths
      and the file system they work on.

    [Isolation.v] composes dispatch, registry and configuration: the class
    [SessionSource] states what dispatching relies on from whoever keeps the
    sessions, dispatching's promise is proved against it, and the registry is
    its instance.

    [Prelude.v] (this file) holds tactics, the [result] type with its notation,
    machine integers, transition systems and the facts on lists, maps and
    sorting that the components share; [GoStrings.v] Go's string functions on
    byte sequences; [Numeral.v] number texts; [IO.v] errors and readers.

    ** How the code is represented

    A Go string or byte slice is a list of bytes.  Fixed-width integers are [Z]
    with the wrap-around written out ([wrap_u], [wrap_s]); durations and clock
    readings are nanoseconds.  Pointers that only serve as identities are
    numbers.  Maps are [gmap]s; where Go visits a map in arbitrary order, the
    order is an argument.  Errors are values: a sum for a function's own
    errors, the list of sentinels for wrapped ones.  Code under a mutex is one
    definition per critical section; components whose sections interleave have
    an event type, [enabled] and [exec], and are [steps] systems (below), so
    their invariants hold for every schedule.  Code that only acts on other
    components returns its effects in order.

    Loops that Go leaves only on outside input run on fuel or over the list of
    what they meet: [head_loop] and [collect] on [script_size] of the
    connection's script plus one, which every read decreases; [split_rounds] and
    the JSON rounds on the length of the text; [field_loop] on the length of the
    fields; [once_loop] and [dispatch_loop] on any fuel above a bound that
    [dispatch_terminates] gives; [chunk_loop], [copy_loop], [copy_response] and
    [read_full] on [script_size] plus one; [serve_rounds] on the two rounds that
    [h3_two_rounds] shows to be enough; parsers ([parse_fields], [parse_chunks],
    [parse_pairs], [unescape]) and [parse_parts] on the length of their text,
    [template_rounds] on that length plus one.  Theorems about
    results state that the result is reached, or take a run that returned as
    what they are about where the code waits for the outside.

    What is outside the repository comes in as classes: [Unicode] (case and
    space tables, beyond ASCII), [JSON] (texts [Marshal] does not produce),
    [Net] (name service, IPv6 and URL parsing, interfaces), [FloatFormat]
    (how a float that is not a small integer is spelled), [HttpGuts] (the field
    checks of [golang.org/x/net]), [Crypto] (SHA-256, SHA-1, PEM, X.509), [X509]
    (making certificates, with the fields a parsed one has), [Verifier] (building
    chains from a peer's certificates; the comparison of a host with a
    certificate's names and addresses is written out in [Trust.v]), [Session] (a
    yamux session) and [Quoting]
    ([strconv.Quote] and its inverse); every file's witness module instantiates
    them.  The YAML decoder is an argument of what loads a file.

    ** What the theorems show

    - Connections: what the client sends is what the service gets, over the
      edge's handler, the tunnel and the agent's; every public connection is
      answered, once, and leaves no slot, gauge or reservation behind ([Edge]);
      a tunnel connection's handler keeps to the registry's discipline whatever
      runs beside it, and counts one outcome ([ServeAgent]).
    - HTTP/3: what goes to a service is one HTTP/1.1 request that ends where the
      edge stops, so nothing a client sends can be read as a second one
      ([Http1]); a request is settled on every path, runs twice only when that
      is safe, and leaves only clean streams behind ([H3Serve]); bodies and
      responses are passed on whole ([H3Body]); a WebSocket's closing handshake
      can finish and nothing outlives the handler ([WebSocket]); QUIC connections are
      counted, idle ones closed in time and busy ones left alone while the edge
      serves and drains ([Quic]); HTTP/3 starts whole or not at all, with the
      certificate the TCP ingress serves, under limits that are never off
      ([H3Start]).
    - Processes: a reload runs at most one replacement, and one that fails
      changes nothing ([Handoff]); together with the drain of a version 2 session
      and the edge's pool, the old session is out of the replacement's way when it
      is acknowledged, no stream opened before that is lost (nor any in use, unless
      the edge's wait ran out), and the old process exits after it has taken the
      last ([Reload]); each process of a reload learns what became of
      the other, whichever ends first ([Pipes]); a restart keeps the metrics
      endpoint and its port until [Run] returns ([Process]); the edge starts and stops in order and within
      its drain budget, serves what its configuration says, and takes an agent
      out of service everywhere at once ([Lifecycle]); a daemon that exits takes
      no other's admin socket, where the lock works and inodes are not reused too
      early ([Admin]), and none takes another's metrics port ([Daemon]); what the
      doctor passes starts, but for what it does not look at ([Doctor], and as
      commands on a configuration file [Cli]).
    - Isolation: a request only ever acts on sessions whose certificate its
      route names, whatever agents come and go meanwhile ([Isolation]).
    - Requests: a request's head is sent to at most one agent that may have run
      it, every reservation is given back, exactly one failure is counted, and
      the wait ends ([Dispatch]); the balancer picks the right session and is
      fair ([Balance]); the host decides the route by the documented precedence
      ([Route]); the agent dials that route's service and passes exactly the
      bytes after the preamble on ([Agent]).
    - Sessions: the registry's counts match its sessions in every reachable
      state, a live exclusive session is never displaced, certificates are
      bounded, shutdown closes everything ([Registry]), and each operation does
      and answers what the table of sessions and their standing says
      ([RegistrySpec]); a drain waits exactly
      for the opens that may still arrive ([AgentConn]); no stream opened before
      the acknowledgement is lost between an edge and an agent that drains, and
      which may be when the edge's wait ran out first is stated ([Drain]); the agent's handoff
      serves what is queued and drains within its budget ([Agent]).
    - Wire formats: heads are read independently of how they are cut into
      packets, but for those that end just under the limit, and unambiguously
      ([HttpHead]); preambles of ASCII text round-trip and truncation is detected
      ([Tunnel]); Alt-Svc is the only edit made to a
      response ([AltSvc]); a probe reads back from the metrics text the role
      and the draining flag ([Metrics]); a pipe carries and reports exactly its
      bytes, and a tunnel through a proxy is transparent ([Proxy]); a log record
      is one line that reads back ([Journal]); an error page is one response
      without foreign markup ([Errpage]); fingerprints are as faithful as the
      hash ([Pki]).
    - Resources: a kept stream serves one client, slots and gauges are exactly
      those of open streams, caps hold ([H3Pool]); no kept stream withholds its
      slot from a request that waits ([SlotWait]); counters, the high-water
      mark and snapshots are exact under concurrency ([Obs]); reconnects follow
      the capped exponential schedule ([Agent]).
    - Configuration: what validation accepts has the properties the runtime
      relies on ([Config]); durations are read exactly, but for sums of [2^64]
      nanoseconds or more, and stay in range ([Duration]); a configuration is read from its file and drop-ins
      and nothing else ([DropIn]).
    - Commands: the certificate commands fit together with both daemons
      ([Certs]), and what they issue makes a tunnel that trusts only what has a
      chain to its CA for the right side ([Trust]); installing loses nothing and can be repeated ([Install]); the
      status text tells the number of sessions, certificates and draining agents
      ([Status]).

    ** What is not modelled

    Sockets, TLS below what its configurations decide, QUIC and yamux, YAML
    decoding, X.509 encoding and signatures, [net/http]'s server, flag parsing and
    the timing of real clocks are libraries and the world: they appear as what
    they answer.  The file system has no symbolic links: an entry counts as what
    reading it gives.  Within one round of [Dispatch.v] the clock and the sessions'
    loads are read once, where the code reads them a few times.  [log/slog]'s text and JSON handlers, the JSON of
    [coen status --json] and of the admin socket's answer, the error codes of
    Windows, the assembly of the command tree and the test helpers
    ([obstest], [proxytest]) are not modelled: they have no logic or state of the
    program's own.  What [Handoff.v] takes for granted of the messages between the
    two processes (one is read only after it was written, an end only after the
    writer has exited) is shown of the descriptors themselves in [Pipes.v]; the
    two step relations are not run as one. *)

From stdpp Require Export base gmap strings list sorting.
From Stdlib Require Export ZArith Ascii Lia.

#[global] Open Scope Z_scope.
#[global] Set Default Goal Selector "!".

(** ** Tactics of the development *)

(** Turns boolean comparisons in the context and the goal into propositions. *)
Ltac b2p :=
  repeat match goal with
  | H : andb _ _ = true |- _ => apply andb_prop in H; destruct H
  | H : orb _ _ = false |- _ => apply orb_false_elim in H; destruct H
  | H : negb _ = true |- _ => apply negb_true_iff in H
  | H : negb _ = false |- _ => apply negb_false_iff in H
  | H : (_ <? _)%Z = true |- _ => apply Z.ltb_lt in H
  | H : (_ <? _)%Z = false |- _ => apply Z.ltb_ge in H
  | H : (_ <=? _)%Z = true |- _ => apply Z.leb_le in H
  | H : (_ <=? _)%Z = false |- _ => apply Z.leb_gt in H
  | H : (_ =? _)%Z = true |- _ => apply Z.eqb_eq in H
  | H : (_ =? _)%Z = false |- _ => apply Z.eqb_neq in H
  | H : (_ <? _)%nat = true |- _ => apply Nat.ltb_lt in H
  | H : (_ <? _)%nat = false |- _ => apply Nat.ltb_ge in H
  | H : (_ <=? _)%nat = true |- _ => apply Nat.leb_le in H
  | H : (_ <=? _)%nat = false |- _ => apply Nat.leb_gt in H
  | H : (_ =? _)%nat = true |- _ => apply Nat.eqb_eq in H
  | H : (_ =? _)%nat = false |- _ => apply Nat.eqb_neq in H
  | H : bool_decide _ = true |- _ => apply bool_decide_eq_true_1 in H
  | H : bool_decide _ = false |- _ => apply bool_decide_eq_false_1 in H
  end.

(** Case analysis on the scrutinee of the outermost [match]/[if] of the goal,
    keeping the equation and translating boolean tests. *)
Ltac split_match :=
  match goal with
  | |- context [match ?x with _ => _ end] =>
      lazymatch x with
      | context [match _ with _ => _ end] => fail
      | _ => let E := fresh "E" in destruct x eqn:E
      end
  end.

(** The same in a hypothesis. *)
Ltac split_match_in H :=
  match type of H with
  | context [match ?x with _ => _ end] =>
      lazymatch x with
      | context [match _ with _ => _ end] => fail
      | _ => let E := fresh "E" in destruct x eqn:E
      end
  end.

(** Closes a goal by splitting every [match] and finishing with the
    hypotheses. *)
Ltac split_all := repeat (split_match; simplify_eq/=); b2p; try done.

(** ** The development's hint database and scope *)

Create HintDb coen discriminated.
#[export] Hint Constants Opaque : coen.
#[export] Hint Resolve Z.le_refl Z.lt_le_incl : coen.

Declare Scope coen_scope.
Delimit Scope coen_scope with coen.
#[global] Open Scope coen_scope.

(** ** Fallible computations: Go's [(value, error)] results *)

Inductive result (E A : Type) :=
| Ok (a : A)
| Err (e : E).
Arguments Ok {E A} a.
Arguments Err {E A} e.

Definition rbind {E A B} (m : result E A) (k : A -> result E B) : result E B :=
  match m with Ok a => k a | Err e => Err e end.

Notation "'let?' x ':=' c 'in' k" := (rbind c (fun x => k))
  (at level 10, x pattern, c at level 100, k at level 200) : coen_scope.

Definition is_ok {E A} (m : result E A) : bool :=
  match m with Ok _ => true | Err _ => false end.

(** [guard c e k]: the early return [if c { return e }] before [k]. *)
Definition reject_if {E A} (c : bool) (e : E) (k : result E A) : result E A :=
  if c then Err e else k.

Lemma rbind_ok {E A B} (m : result E A) (k : A -> result E B) b :
  rbind m k = Ok b <-> exists a, m = Ok a /\ k a = Ok b.
Proof. destruct m; simpl; naive_solver. Qed.

Lemma reject_if_ok {E A} c (e : E) (k : result E A) a :
  reject_if c e k = Ok a <-> c = false /\ k = Ok a.
Proof. destruct c; simpl; naive_solver. Qed.

(** ** Machine integers *)

(** [wrap_u w z] is [z] reduced to an unsigned [w]-bit integer, [wrap_s w z]
    to a signed (two's complement) one: what Go's fixed-width arithmetic
    leaves of a mathematical result. *)
Definition wrap_u (w : Z) (z : Z) : Z := z mod 2 ^ w.
Definition wrap_s (w : Z) (z : Z) : Z :=
  (z + 2 ^ (w - 1)) mod 2 ^ w - 2 ^ (w - 1).

Abbreviation u64 := (wrap_u 64).
Abbreviation i64 := (wrap_s 64).
Abbreviation u32 := (wrap_u 32).

Definition max_int64 : Z := 2 ^ 63 - 1.

Lemma wrap_u_small w z : 0 <= z < 2 ^ w -> wrap_u w z = z.
Proof. apply Z.mod_small. Qed.

Lemma wrap_u_range w z : 0 <= w -> 0 <= wrap_u w z < 2 ^ w.
Proof. intros. apply Z.mod_pos_bound. lia. Qed.

Lemma i64_small z : - 2 ^ 63 <= z < 2 ^ 63 -> i64 z = z.
Proof.
  intros. unfold wrap_s. change (64 - 1) with 63.
  rewrite Z.mod_small; lia.
Qed.

(** Wrapping an addend before adding changes nothing. *)
Lemma i64_add_l a b : i64 (i64 a + b) = i64 (a + b).
Proof.
  unfold wrap_s. f_equal.
  replace ((a + 2 ^ (64 - 1)) mod 2 ^ 64 - 2 ^ (64 - 1) + b + 2 ^ (64 - 1))
    with ((a + 2 ^ (64 - 1)) mod 2 ^ 64 + b) by lia.
  rewrite Zplus_mod_idemp_l. f_equal. lia.
Qed.

Lemma i64_add_r a b : i64 (a + i64 b) = i64 (a + b).
Proof. rewrite Z.add_comm, i64_add_l. f_equal. lia. Qed.

(** ** Transition systems *)

(** A step relation given by enabled events and what they do.  The components
    whose operations interleave are systems of this kind. *)
Definition steps {E S : Type} (enabled : E -> S -> Prop) (exec : E -> S -> S) (s s' : S) : Prop :=
  exists e, enabled e s /\ s' = exec e s.

(** What every enabled event preserves holds of every reachable state. *)
Lemma steps_invariant {E S : Type} (enabled : E -> S -> Prop) (exec : E -> S -> S) (I : S -> Prop) s s' :
  (forall e s, enabled e s -> I s -> I (exec e s)) ->
  rtc (steps enabled exec) s s' -> I s -> I s'.
Proof. intros HI. induction 1 as [|s1 s2 s3 [e [He ->]] _ IH]; [done|]. intros. by apply IH, HI. Qed.

(** A list of events played in order, each enabled when its turn comes. *)
Fixpoint plays {E S : Type} (enabled : E -> S -> Prop) (exec : E -> S -> S) (l : list E) (s : S) : Prop :=
  match l with [] => True | e :: l => enabled e s /\ plays enabled exec l (exec e s) end.

Lemma plays_reach {E S : Type} (enabled : E -> S -> Prop) (exec : E -> S -> S) l s : plays enabled exec l s ->
  rtc (steps enabled exec) s (foldl (fun s e => exec e s) s l).
Proof.
  revert s; induction l as [|e l IH]; intros s; [intros; apply rtc_refl|]. intros [He Hl].
  eapply rtc_l; [by exists e|by apply IH].
Qed.

(** Takes the step of event [e], whose guard [tac] proves. *)
Ltac rtc_step e tac := eapply rtc_l; [exists e; split; [tac|reflexivity]|].

(** ** Lists *)

(** The first index whose element satisfies [p]: Go's loops that return the
    position of the first match ([-1] is [None]). *)
Fixpoint index_by {A} (p : A -> bool) (l : list A) : option nat :=
  match l with
  | [] => None
  | x :: l => if p x then Some 0%nat else S <$> index_by p l
  end.

Lemma index_by_Some {A} (p : A -> bool) l i :
  index_by p l = Some i <->
  (exists x, l !! i = Some x /\ p x = true) /\
  forall j y, (j < i)%nat -> l !! j = Some y -> p y = false.
Proof.
  revert i; induction l as [|x l IH]; intros i; simpl; [set_solver|].
  destruct (p x) eqn:Hx.
  - split; [intros [= <-]; split; [by eauto|intros; lia]|].
    intros [_ H]. destruct i as [|i]; [done|].
    specialize (H 0%nat x ltac:(lia) eq_refl). congruence.
  - rewrite fmap_Some. split.
    + intros (j & (Hj & Hlt)%IH & ->). split; [done|].
      intros [|k] y ? Hk; simpl in *; [congruence|]. apply (Hlt k); [lia|done].
    + intros [[y [Hy Hpy]] H]. destruct i as [|i]; [simpl in *; congruence|].
      exists i. split; [apply IH|done]. split; [by eauto|].
      intros j z ? Hz. apply (H (S j)); [lia|done].
Qed.

Lemma index_by_None {A} (p : A -> bool) l :
  index_by p l = None <-> Forall (fun x => p x = false) l.
Proof.
  induction l as [|x l IH]; simpl; [by split|].
  rewrite Forall_cons. destruct (p x); [naive_solver|].
  rewrite fmap_None. naive_solver.
Qed.

(** Removes the element at the first position satisfying [p], as Go's
    [append(l[:i:i], l[i+1:]...)] inside a search loop. *)
Fixpoint remove_first {A} (p : A -> bool) (l : list A) : list A :=
  match l with
  | [] => []
  | x :: l => if p x then l else x :: remove_first p l
  end.

Lemma remove_first_sublist {A} (p : A -> bool) l : sublist (remove_first p l) l.
Proof.
  induction l as [|x l IH]; simpl; [constructor|].
  destruct (p x); by constructor.
Qed.

Lemma remove_first_elem {A} (p : A -> bool) l x :
  x ∈ remove_first p l -> x ∈ l.
Proof. intros H. eapply elem_of_sublist; [done|apply remove_first_sublist]. Qed.

Lemma remove_first_none {A} (p : A -> bool) l :
  existsb p l = false -> remove_first p l = l.
Proof.
  induction l as [|x l IH]; simpl; [done|].
  intros [-> Hl]%orb_false_elim. by rewrite IH.
Qed.

(** With a key that is unique in the list, removing the first element with
    key [y] removes the element with key [y]. *)
Lemma remove_first_unique {A B} (p : A -> bool) (f : A -> B) (y : B) (l : list A) x :
  (forall x, p x = true <-> f x = y) -> NoDup (map f l) ->
  x ∈ remove_first p l <-> x ∈ l /\ f x <> y.
Proof.
  intros Hp. induction l as [|z l IH]; simpl; [set_solver|].
  rewrite NoDup_cons. intros [Hz Hl]. destruct (p z) eqn:E.
  - apply Hp in E. rewrite elem_of_cons. split; [|naive_solver].
    intros Hx. split; [by right|]. intros Hy. destruct Hz.
    rewrite E, <- Hy. by apply list_elem_of_fmap_2.
  - assert (f z <> y) by (rewrite <- Hp; congruence).
    rewrite !elem_of_cons, IH by done. naive_solver.
Qed.

Lemma sublist_map {A B} (f : A -> B) l1 l2 :
  sublist l1 l2 -> sublist (map f l1) (map f l2).
Proof. induction 1; simpl; by constructor. Qed.

Lemma filter_sublist {A} (p : A -> bool) l : sublist (List.filter p l) l.
Proof. induction l as [|x l IH]; simpl; [constructor|]. destruct (p x); by constructor. Qed.

Lemma filter_full_length {A} (p : A -> bool) l :
  length (List.filter p l) = length l -> List.filter p l = l.
Proof.
  induction l as [|x l IH]; simpl; [done|].
  pose proof (sublist_length _ _ (filter_sublist p l)).
  destruct (p x); simpl; [|lia]. intros [= H']. by rewrite IH.
Qed.

Lemma elem_of_filter_bool {A} (p : A -> bool) l x :
  x ∈ List.filter p l <-> x ∈ l /\ p x = true.
Proof. rewrite !list_elem_of_In. apply filter_In. Qed.

Lemma forallb_elem {A} (p : A -> bool) l :
  forallb p l = true <-> forall x, x ∈ l -> p x = true.
Proof. rewrite forallb_forall. by setoid_rewrite list_elem_of_In. Qed.

(** A map that has no duplicates is injective on the list's elements. *)
Lemma NoDup_map_inj_in {A B} (f : A -> B) (l : list A) x y :
  NoDup (map f l) -> x ∈ l -> y ∈ l -> f x = f y -> x = y.
Proof.
  induction l as [|z l IH]; simpl; [set_solver|].
  rewrite NoDup_cons. intros [Hz Hl].
  assert (Hmem : forall u, u ∈ l -> f u ∈ map f l)
    by (intros; by apply list_elem_of_fmap_2).
  intros [->|Hx]%elem_of_cons [->|Hy]%elem_of_cons Hf; [done| | |by auto].
  - rewrite Hf in Hz. by destruct Hz; apply Hmem.
  - rewrite <- Hf in Hz. by destruct Hz; apply Hmem.
Qed.

Lemma filter_perm {A} (P : A -> bool) l l' : l ≡ₚ l' -> List.filter P l ≡ₚ List.filter P l'.
Proof.
  induction 1 as [|x l l' _ IH|x y l|l l' l'' _ IH1 _ IH2]; cbn [List.filter]; [done| | |by rewrite IH1].
  - destruct (P x); [by constructor|done].
  - destruct (P x), (P y); try done. apply perm_swap.
Qed.

(** *** Stable sorting ([sort.SliceStable], [sort.Strings], [slices.Sort]) *)

Section stable_sort.
Context {A : Type} (less : A -> A -> bool).

(** Inserts [x] before the first element not less than it. *)
Fixpoint sort_insert (x : A) (l : list A) : list A :=
  match l with
  | [] => [x]
  | y :: l => if less y x then y :: sort_insert x l else x :: y :: l
  end.

Fixpoint stable_sort (l : list A) : list A :=
  match l with
  | [] => []
  | x :: l => sort_insert x (stable_sort l)
  end.

Lemma sort_insert_perm x l : sort_insert x l ≡ₚ x :: l.
Proof.
  induction l as [|y l IH]; simpl; [done|].
  destruct (less y x); [|done]. rewrite IH. apply perm_swap.
Qed.

Lemma stable_sort_perm l : stable_sort l ≡ₚ l.
Proof.
  induction l as [|x l IH]; simpl; [done|].
  by rewrite sort_insert_perm, IH.
Qed.

(** Elements that are pairwise not less than each other keep their order. *)
Lemma stable_sort_filter (P : A -> bool) l :
  (forall x y, P x = true -> P y = true -> less x y = false) ->
  base.filter (fun x => P x = true) (stable_sort l) =
  base.filter (fun x => P x = true) l.
Proof.
  intros HP.
  assert (Hins : forall x l, base.filter (fun x => P x = true) (sort_insert x l)
                      = base.filter (fun x => P x = true) (x :: l)).
  { intros x l'. induction l' as [|y l' IH]; [done|]. simpl sort_insert.
    destruct (less y x) eqn:Hl; [|done].
    rewrite filter_cons. case_decide as Hy.
    - rewrite !filter_cons, IH, !filter_cons. case_decide as Hx; [|by rewrite decide_True].
      rewrite HP in Hl; done.
    - rewrite IH, !filter_cons. by rewrite (decide_False _ _ Hy). }
  induction l as [|x l IH]; [done|]. simpl stable_sort.
  rewrite Hins, !filter_cons, IH. done.
Qed.

Context (less_asym : forall x y, less x y = true -> less y x = false).
Context (less_ntrans : forall x y z,
  less x y = false -> less y z = false -> less x z = false).

Let le x y := less y x = false.

Lemma sort_insert_sorted x l :
  StronglySorted le l -> StronglySorted le (sort_insert x l).
Proof.
  induction 1 as [|y l Hl IH Hy]; simpl; [repeat constructor|].
  destruct (less y x) eqn:Hyx.
  - constructor; [done|]. rewrite sort_insert_perm.
    constructor; [by apply less_asym|done].
  - constructor; [by constructor|]. constructor; [done|].
    eapply Forall_impl; [exact Hy|]. intros z Hz. by eapply less_ntrans.
Qed.

Lemma stable_sort_sorted l : StronglySorted le (stable_sort l).
Proof.
  induction l as [|x l IH]; simpl; [constructor|].
  by apply sort_insert_sorted.
Qed.
End stable_sort.

(** ** Maps *)

(** Go's [m[k]] on a map of integers: an absent key reads as zero. *)
Definition mget `{Countable K} (m : gmap K Z) (k : K) : Z := default 0 (m !! k).

Lemma mget_insert `{Countable K} (m : gmap K Z) k k' v :
  mget (<[k := v]> m) k' = if decide (k = k') then v else mget m k'.
Proof. unfold mget. rewrite lookup_insert. by case_decide. Qed.

Lemma mget_delete `{Countable K} (m : gmap K Z) k k' :
  mget (delete k m) k' = if decide (k = k') then 0 else mget m k'.
Proof. unfold mget. rewrite lookup_delete. by case_decide. Qed.

(** [if m[k]--; m[k] <= 0 { delete(m, k) }]: a counter given back, its entry
    dropped once it is spent. *)
Definition mdec `{Countable K} (k : K) (m : gmap K Z) : gmap K Z :=
  let n := mget m k - 1 in if n <=? 0 then delete k m else <[k := n]> m.

Lemma mget_mdec `{Countable K} (m : gmap K Z) k k' :
  mget (mdec k m) k' = if decide (k = k') then Z.max 0 (mget m k - 1) else mget m k'.
Proof.
  unfold mdec. destruct (_ <=? _) eqn:E; b2p;
    rewrite ?mget_delete, ?mget_insert; case_decide; lia.
Qed.

(** No counter is kept at zero or below. *)
Definition all_pos `{Countable K} (m : gmap K Z) : Prop :=
  forall k n, m !! k = Some n -> 0 < n.

Lemma all_pos_mdec `{Countable K} (m : gmap K Z) k : all_pos m -> all_pos (mdec k m).
Proof.
  unfold mdec. intros Hm k' n. destruct (_ <=? _) eqn:E; b2p.
  - intros [_ H']%lookup_delete_Some. by eapply Hm.
  - intros [[_ <-]|[_ H']]%lookup_insert_Some; [done|by eapply Hm].
Qed.

Lemma all_pos_insert `{Countable K} (m : gmap K Z) k v :
  0 < v -> all_pos m -> all_pos (<[k := v]> m).
Proof. intros Hv Hm k' n [[_ <-]|[_ H']]%lookup_insert_Some; [done|by eapply Hm]. Qed.

(** How many keys of a map hold the value [v]. *)
Definition count_val `{Countable K} {A} `{EqDecision A} (v : A) (m : gmap K A) : nat :=
  size (base.filter (fun kv => kv.2 = v) m).

Section count_val.
Context `{Countable K} {A : Type} `{EqDecision A}.
Implicit Types (m : gmap K A) (v w : A).

Lemma count_val_empty v : count_val v (∅ : gmap K A) = 0%nat.
Proof. unfold count_val. by rewrite map_filter_empty, map_size_empty. Qed.

Lemma count_val_new v w m k :
  m !! k = None ->
  count_val v (<[k := w]> m) = ((if decide (w = v) then 1 else 0) + count_val v m)%nat.
Proof.
  intros Hk. unfold count_val. case_decide as Hw.
  - rewrite map_filter_insert_True by done.
    rewrite map_size_insert_None; [done|]. apply map_lookup_filter_None. by left.
  - rewrite map_filter_insert_False by done. by rewrite delete_id.
Qed.

Lemma count_val_delete v w m k :
  m !! k = Some w ->
  count_val v m = ((if decide (w = v) then 1 else 0) + count_val v (delete k m))%nat.
Proof.
  intros Hk. rewrite <- (insert_delete_id m k w) at 1 by done.
  apply count_val_new, lookup_delete_eq.
Qed.

(** Changing one value moves it from one count to another. *)
Lemma count_val_update v w w' m k :
  m !! k = Some w ->
  (count_val v (<[k := w']> m) + (if decide (w = v) then 1 else 0) =
   count_val v m + (if decide (w' = v) then 1 else 0))%nat.
Proof.
  intros Hk. rewrite (count_val_delete v w m k) by done.
  rewrite <- insert_delete_eq, count_val_new by apply lookup_delete_eq. lia.
Qed.

(** The count of [v] is the size of any filter that singles [v] out. *)
Lemma count_val_filter v m (P : K * A -> Prop) `{!forall kv, Decision (P kv)} :
  (forall k w, m !! k = Some w -> w = v <-> P (k, w)) ->
  count_val v m = size (base.filter P m).
Proof. intros HP. unfold count_val. f_equal. by apply map_filter_strong_ext_1; naive_solver. Qed.

(** A filter splits by a further test. *)
Lemma size_filter_split (p q : K * A -> bool) m :
  size (base.filter (fun kv => p kv = true) m) =
  (size (base.filter (fun kv => p kv && q kv = true) m) +
   size (base.filter (fun kv => p kv && negb (q kv) = true) m))%nat.
Proof.
  induction m as [|k v m Hk IH] using map_ind; [by rewrite !map_filter_empty, map_size_empty|].
  assert (Hsz : forall P `{!forall kv, Decision (P kv)},
    size (base.filter P (<[k:=v]> m)) =
    ((if decide (P (k, v)) then 1 else 0) + size (base.filter P m))%nat).
  { intros P HP. case_decide.
    - rewrite map_filter_insert_True, map_size_insert_None; [done| |done].
      apply map_lookup_filter_None. by left.
    - rewrite map_filter_insert_False by done. by rewrite delete_id. }
  rewrite !Hsz, IH. destruct (p (k, v)), (q (k, v)); simpl; lia.
Qed.
End count_val.

(** How many values of a map satisfy [p]. *)
Definition count_if `{Countable K} {A} (p : A -> bool) (m : gmap K A) : nat :=
  size (base.filter (fun kv => p kv.2 = true) m).

Section count_if.
Context `{Countable K} {A : Type}.
Implicit Types (m : gmap K A) (p : A -> bool).

Lemma count_if_empty p : count_if p (∅ : gmap K A) = 0%nat.
Proof. unfold count_if. by rewrite map_filter_empty, map_size_empty. Qed.

Lemma count_if_new p m k v :
  m !! k = None -> count_if p (<[k := v]> m) = ((if p v then 1 else 0) + count_if p m)%nat.
Proof.
  intros Hk. unfold count_if. destruct (p v) eqn:Hv.
  - rewrite map_filter_insert_True by done.
    rewrite map_size_insert_None; [done|]. apply map_lookup_filter_None. by left.
  - rewrite map_filter_insert_False by (simpl; congruence). by rewrite delete_id.
Qed.

Lemma count_if_update p m k v w :
  m !! k = Some v ->
  (count_if p (<[k := w]> m) + (if p v then 1 else 0) =
   count_if p m + (if p w then 1 else 0))%nat.
Proof.
  intros Hk. rewrite <- (insert_delete_id m k v) at 2 by done. rewrite <- insert_delete_eq.
  rewrite !count_if_new by apply lookup_delete_eq. lia.
Qed.

Lemma count_if_zero p m : count_if p m = 0%nat <-> forall k v, m !! k = Some v -> p v = false.
Proof.
  unfold count_if. rewrite map_size_empty_iff, map_empty. split.
  - intros Hm k v Hk. specialize (Hm k). apply map_lookup_filter_None in Hm as [Hm|Hm]; [congruence|].
    specialize (Hm v Hk). simpl in Hm. by destruct (p v).
  - intros Hm k. apply map_lookup_filter_None. right. intros v Hk. simpl. rewrite (Hm k v Hk). done.
Qed.

Lemma count_if_pos p m k v : m !! k = Some v -> p v = true -> (0 < count_if p m)%nat.
Proof.
  intros Hk Hv. destruct (count_if p m) eqn:E; [|lia].
  rewrite count_if_zero in E. specialize (E k v Hk). congruence.
Qed.

(** The count splits by a further test. *)
Lemma count_if_split p q m :
  count_if p m = (count_if (fun v => p v && q v) m + count_if (fun v => p v && negb (q v)) m)%nat.
Proof.
  induction m as [|k v m Hk IH] using map_ind; [by rewrite !count_if_empty|].
  rewrite !count_if_new, IH by done. destruct (p v), (q v); simpl; lia.
Qed.
End count_if.
