(* ===== verification/GoStrings.v ===== *)
(** * Go strings and byte slices

    The parts of Go's [strings], [bytes] and [net] packages the program uses.
    A Go string or [[]byte] is a sequence of 8-bit bytes, [gostr].  Operations
    whose result depends on the Unicode tables (case folding, white space)
    are exact on ASCII input and go through the class [Unicode] otherwise, as
    Go's own implementations switch from an ASCII fast path to the tables. *)

From S2P Require Import Prelude.
From stdpp Require Import pretty.

Abbreviation gostr := (list ascii).

(** A string literal of the source as its bytes. *)
Definition bs (s : string) : gostr := String.list_ascii_of_string s.
Arguments bs s%_string : simpl never.

(** A byte by its code. *)
Definition byte (n : N) : ascii := ascii_of_N n.
Definition code (c : ascii) : N := N_of_ascii c.

Definition CR : ascii := byte 13.
Definition LF : ascii := byte 10.
Definition CRLF : gostr := [CR; LF].

#[export] Instance ascii_eq_dec : EqDecision ascii := ascii_dec.

Definition beq (a b : gostr) : bool := bool_decide (a = b).
Definition ceq (a b : ascii) : bool := bool_decide (a = b).

Lemma beq_true a b : beq a b = true <-> a = b.
Proof. unfold beq. apply bool_decide_eq_true. Qed.
Lemma beq_false a b : beq a b = false <-> a <> b.
Proof. unfold beq. apply bool_decide_eq_false. Qed.
(** A statement about every byte, by cases. *)
Ltac each_byte c := destruct c as [[] [] [] [] [] [] [] []]; try reflexivity; try done.

Lemma ceq_true a b : ceq a b = true <-> a = b.
Proof. unfold ceq. apply bool_decide_eq_true. Qed.
Lemma ceq_false a b : ceq a b = false <-> a <> b.
Proof. unfold ceq. apply bool_decide_eq_false. Qed.

(** ** Unicode-dependent operations *)

(** What [unicode.IsSpace], [unicode.ToLower] and [unicode.SimpleFold] make
    of a string that is not plain ASCII. *)
Class Unicode := {
  uni_trim_space : gostr -> gostr;
  uni_to_lower : gostr -> gostr;
  uni_fields : gostr -> list gostr;
  uni_equal_fold : gostr -> gostr -> bool;
}.

Definition ascii_byte (c : ascii) : bool := (code c <? 128)%N.
Definition is_ascii (s : gostr) : bool := forallb ascii_byte s.

(** [asciiSpace]: tab, line feed, vertical tab, form feed, carriage return,
    space. *)
Definition space_byte (c : ascii) : bool :=
  ((9 <=? code c) && (code c <=? 13) || (code c =? 32))%N.

Definition lower_byte (c : ascii) : ascii :=
  if ((65 <=? code c) && (code c <=? 90))%N then byte (code c + 32) else c.

Fixpoint trim_left (p : ascii -> bool) (s : gostr) : gostr :=
  match s with
  | [] => []
  | c :: t => if p c then trim_left p t else s
  end.
Definition trim_right (p : ascii -> bool) (s : gostr) : gostr :=
  reverse (trim_left p (reverse s)).

Section unicode.
Context `{Unicode}.

Definition TrimSpace (s : gostr) : gostr :=
  if is_ascii s then trim_right space_byte (trim_left space_byte s)
  else uni_trim_space s.

Definition ToLower (s : gostr) : gostr :=
  if is_ascii s then map lower_byte s else uni_to_lower s.

Definition EqualFold (a b : gostr) : bool :=
  if is_ascii a && is_ascii b then beq (map lower_byte a) (map lower_byte b)
  else uni_equal_fold a b.

(** Splits around runs of white space; [cur] is the field being read. *)
Fixpoint fields_from (cur s : gostr) : list gostr :=
  match s with
  | [] => match cur with [] => [] | _ => [cur] end
  | c :: t =>
      if space_byte c
      then match cur with [] => fields_from [] t | _ => cur :: fields_from [] t end
      else fields_from (cur ++ [c]) t
  end.

Definition Fields (s : gostr) : list gostr :=
  if is_ascii s then fields_from [] s else uni_fields s.
End unicode.

(** An instance for closed examples: strings that are not ASCII are left as
    they are. *)
Definition ascii_only : Unicode := {|
  uni_trim_space := fun s => s;
  uni_to_lower := fun s => s;
  uni_fields := fun s => [s];
  uni_equal_fold := beq;
|}.

(** ** Searching and slicing *)

Fixpoint HasPrefix (s p : gostr) : bool :=
  match p, s with
  | [], _ => true
  | a :: p, b :: s => ceq a b && HasPrefix s p
  | _, [] => false
  end.

Definition HasSuffix (s p : gostr) : bool := HasPrefix (reverse s) (reverse p).

Definition TrimSuffix (s p : gostr) : gostr :=
  if HasSuffix s p then take (length s - length p) s else s.

Definition CutPrefix (s p : gostr) : option gostr :=
  if HasPrefix s p then Some (drop (length p) s) else None.

(** [bytes.Index], [strings.Index]: [None] is [-1]. *)
Fixpoint Index (s sub : gostr) : option nat :=
  if HasPrefix s sub then Some 0%nat
  else match s with [] => None | _ :: t => S <$> Index t sub end.

Definition Contains (s sub : gostr) : bool :=
  match Index s sub with Some _ => true | None => false end.

Definition IndexByte (s : gostr) (c : ascii) : option nat := index_by (ceq c) s.

Definition LastIndexByte (s : gostr) (c : ascii) : option nat :=
  i ← IndexByte (reverse s) c; Some (length s - 1 - i)%nat.

(** [bytes.Cut], [strings.Cut]: what is before and after the first [sep], and
    whether there is one. *)
Definition Cut (s sep : gostr) : gostr * gostr * bool :=
  match Index s sep with
  | Some i => (take i s, drop (i + length sep) s, true)
  | None => (s, [], false)
  end.

(** [bytes.Split] with a separator that is not empty.  Each round consumes
    the separator, so [length s] rounds are enough. *)
Fixpoint split_rounds (fuel : nat) (s sep : gostr) : list gostr :=
  match fuel, Index s sep with
  | S fuel, Some i => take i s :: split_rounds fuel (drop (i + length sep) s) sep
  | _, _ => [s]
  end.
Definition Split (s sep : gostr) : list gostr := split_rounds (length s) s sep.

Fixpoint Join (l : list gostr) (sep : gostr) : gostr :=
  match l with
  | [] => []
  | [x] => x
  | x :: l => x ++ sep ++ Join l sep
  end.

(** [strconv.Itoa] and [%d]. *)
Definition Itoa (n : Z) : gostr := bs (pretty n).

(** Byte-wise lexicographic order, Go's [<] on strings. *)
Fixpoint str_lt (a b : gostr) : bool :=
  match a, b with
  | [], [] => false
  | [], _ => true
  | _, [] => false
  | x :: a, y :: b =>
      if (code x <? code y)%N then true
      else if (code y <? code x)%N then false else str_lt a b
  end.

(** [sort.Strings] and [slices.Sort] on strings. *)
Definition sort_strings : list gostr -> list gostr := stable_sort str_lt.

(** ** [net.SplitHostPort] *)

Inductive addr_error :=
| MissingPort
| TooManyColons
| MissingBracket
| UnexpectedOpen
| UnexpectedClose.

Definition SplitHostPort (hostport : gostr) : result addr_error (gostr * gostr) :=
  match LastIndexByte hostport ":"%char with
  | None => Err MissingPort
  | Some i =>
      let? (host, j, k) :=
        if HasPrefix hostport (bs "[") then
          match IndexByte hostport "]"%char with
          | None => Err MissingBracket
          | Some fin =>
              if (fin + 1 =? length hostport)%nat then Err MissingPort
              else if (fin + 1 =? i)%nat then
                Ok (take (fin - 1) (drop 1 hostport), 1%nat, (fin + 1)%nat)
              else if bool_decide (hostport !! (fin + 1)%nat = Some ":"%char)
              then Err TooManyColons else Err MissingPort
          end
        else
          let host := take i hostport in
          match IndexByte host ":"%char with
          | Some _ => Err TooManyColons
          | None => Ok (host, 0%nat, 0%nat)
          end in
      match IndexByte (drop j hostport) "["%char with
      | Some _ => Err UnexpectedOpen
      | None =>
          match IndexByte (drop k hostport) "]"%char with
          | Some _ => Err UnexpectedClose
          | None => Ok (host, drop (i + 1) hostport)
          end
      end
  end.

(** [net.JoinHostPort]. *)
Definition JoinHostPort (host port : gostr) : gostr :=
  if existsb (ceq ":"%char) host then bs "[" ++ host ++ bs "]:" ++ port else host ++ bs ":" ++ port.

(** ** Facts about searching *)

Lemma HasPrefix_spec s p : HasPrefix s p = true <-> exists t, s = p ++ t.
Proof.
  revert s; induction p as [|a p IH]; intros [|b s]; simpl; try naive_solver.
  rewrite andb_true_iff, ceq_true, IH. naive_solver.
Qed.

Lemma HasPrefix_app p t : HasPrefix (p ++ t) p = true.
Proof. apply HasPrefix_spec. eauto. Qed.

Lemma HasSuffix_spec s p : HasSuffix s p = true <-> exists t, s = t ++ p.
Proof.
  unfold HasSuffix. rewrite HasPrefix_spec. split.
  - intros [t Ht]. exists (reverse t).
    rewrite <- (reverse_involutive s), Ht, reverse_app, reverse_involutive. done.
  - intros [t ->]. rewrite reverse_app. eauto.
Qed.

Lemma HasPrefix_length s p : HasPrefix s p = true -> (length p <= length s)%nat.
Proof. rewrite HasPrefix_spec. intros [t ->]. rewrite length_app. lia. Qed.

Lemma TrimSuffix_hit t p : TrimSuffix (t ++ p) p = t.
Proof.
  unfold TrimSuffix. rewrite (proj2 (HasSuffix_spec _ _)) by eauto.
  rewrite length_app, take_app_le by lia.
  apply take_ge. lia.
Qed.

Lemma TrimSuffix_miss s p : HasSuffix s p = false -> TrimSuffix s p = s.
Proof. unfold TrimSuffix. by intros ->. Qed.

Lemma CutPrefix_Some s p r : CutPrefix s p = Some r <-> s = p ++ r.
Proof.
  unfold CutPrefix. destruct (HasPrefix s p) eqn:E.
  - apply HasPrefix_spec in E as [t ->]. rewrite drop_app_length. naive_solver.
  - split; [done|]. intros ->. by rewrite HasPrefix_app in E.
Qed.

Lemma Index_Some s sub i :
  Index s sub = Some i ->
  exists t, s = take i s ++ sub ++ t /\ length (take i s) = i.
Proof.
  revert i; induction s as [|c s IH]; intros i; cbn [Index].
  - destruct (HasPrefix [] sub) eqn:E; [|done]. intros [= <-].
    apply HasPrefix_spec in E as [t Ht]. exists t. done.
  - destruct (HasPrefix (c :: s) sub) eqn:E.
    + intros [= <-]. apply HasPrefix_spec in E as [t Ht]. exists t. done.
    + intros (j & (t & Ht & Hl)%IH & ->)%fmap_Some. exists t. simpl.
      by rewrite <- Ht, Hl.
Qed.

(** The index is the first one. *)
Lemma Index_first s sub i j :
  Index s sub = Some i -> (j < i)%nat -> HasPrefix (drop j s) sub = false.
Proof.
  revert i j; induction s as [|c s IH]; intros i j; cbn [Index].
  - destruct (HasPrefix [] sub); intros [= <-]; lia.
  - destruct (HasPrefix (c :: s) sub) eqn:E; [intros [= <-]; lia|].
    intros (k & Hk & ->)%fmap_Some Hj. destruct j as [|j]; [done|].
    simpl. apply (IH k); [done|lia].
Qed.

Lemma Index_None s sub :
  Index s sub = None <-> forall a b, s <> a ++ sub ++ b.
Proof.
  induction s as [|c s IH]; cbn [Index].
  - destruct (HasPrefix [] sub) eqn:E; split; try done.
    + apply HasPrefix_spec in E as [t Ht]. intros H. by destruct (H [] t).
    + intros _ a b Hab. destruct a; [|done]. simpl in Hab.
      by rewrite Hab, HasPrefix_app in E.
  - destruct (HasPrefix (c :: s) sub) eqn:E.
    + split; [done|]. apply HasPrefix_spec in E as [t Ht].
      intros H. by destruct (H [] t).
    + rewrite fmap_None, IH. split.
      * intros H [|x a] b Hab; cbn [app] in Hab.
        -- by rewrite Hab, HasPrefix_app in E.
        -- injection Hab as -> Hab. by apply (H a b).
      * intros H a b Hab. apply (H (c :: a) b). by rewrite Hab.
Qed.

Lemma Contains_spec s sub :
  Contains s sub = true <-> exists a b, s = a ++ sub ++ b.
Proof.
  unfold Contains. destruct (Index s sub) eqn:E.
  - split; [|done]. apply Index_Some in E as (t & Ht & _). eauto.
  - split; [done|]. intros (a & b & Hab).
    destruct (proj1 (Index_None _ _) E a b Hab).
Qed.

Lemma fields_word x rest : Forall (fun c => space_byte c = false) x -> forall cur, fields_from cur (x ++ rest) = fields_from (cur ++ x) rest.
Proof.
  induction 1 as [|c x Hc Hx IH]; intros cur; [by rewrite app_nil_r|]. cbn [app fields_from]. rewrite Hc, IH.
  by rewrite <- app_assoc.
Qed.

Lemma Cut_true s sep a b :
  Cut s sep = (a, b, true) -> s = a ++ sep ++ b.
Proof.
  unfold Cut. destruct (Index s sep) as [i|] eqn:E; [|done].
  intros [= <- <-]. apply Index_Some in E as (t & Ht & Hi).
  rewrite Ht at 1. do 2 f_equal.
  rewrite Ht, app_assoc, drop_app_ge, length_app, Hi;
    rewrite ?length_app, ?Hi; [|lia].
  by replace (i + length sep - (i + length sep))%nat with 0%nat by lia.
Qed.

Lemma IndexByte_None s c : IndexByte s c = None <-> c ∉ s.
Proof.
  unfold IndexByte. rewrite index_by_None, Forall_forall. split.
  - intros H Hc. specialize (H c Hc). by apply ceq_false in H.
  - intros H x Hx. apply ceq_false. intros ->. done.
Qed.

(** ** Facts about trimming and host:port splitting *)

Lemma trim_left_id p s :
  (forall c, head s = Some c -> p c = false) -> trim_left p s = s.
Proof. destruct s as [|c s]; simpl; [done|]. intros H. by rewrite H. Qed.

Lemma trim_right_id p s :
  (forall c, last s = Some c -> p c = false) -> trim_right p s = s.
Proof.
  intros H. unfold trim_right. rewrite trim_left_id, reverse_involutive; [done|].
  intros c. rewrite head_reverse. apply H.
Qed.

(** No white space at all: nothing to trim. *)
Lemma TrimSpace_id `{Unicode} s :
  is_ascii s = true -> Forall (fun c => space_byte c = false) s -> TrimSpace s = s.
Proof.
  intros Ha Hs. unfold TrimSpace. rewrite Ha. rewrite Forall_forall in Hs.
  rewrite (trim_left_id _ s), trim_right_id; [done| |].
  - intros c Hc. apply Hs. by apply last_Some_elem_of.
  - intros c Hc. apply Hs. by apply head_Some_elem_of.
Qed.

Lemma is_ascii_app a b : is_ascii (a ++ b) = is_ascii a && is_ascii b.
Proof. apply forallb_app. Qed.

Lemma LastIndexByte_app a c b :
  c ∉ b -> LastIndexByte (a ++ c :: b) c = Some (length a).
Proof.
  intros Hb. unfold LastIndexByte.
  assert (Hi : IndexByte (reverse (a ++ c :: b)) c = Some (length b)).
  { unfold IndexByte. apply index_by_Some. rewrite reverse_app, reverse_cons.
    rewrite <- app_assoc, <- (length_reverse b). split.
    - exists c. split; [by apply list_lookup_middle|by apply ceq_true].
    - intros j y Hj Hy. rewrite lookup_app_l in Hy by done.
      apply list_elem_of_lookup_2 in Hy. apply ceq_false. intros ->.
      by apply Hb, elem_of_reverse. }
  rewrite Hi. simpl. rewrite length_app. simpl. f_equal. lia.
Qed.

Lemma LastIndexByte_None s c : c ∉ s -> LastIndexByte s c = None.
Proof.
  intros Hs. unfold LastIndexByte.
  rewrite (proj2 (IndexByte_None (reverse s) c)); [done|].
  by rewrite elem_of_reverse.
Qed.

Lemma SplitHostPort_no_colon s : ":"%char ∉ s -> SplitHostPort s = Err MissingPort.
Proof. intros Hs. unfold SplitHostPort. by rewrite LastIndexByte_None. Qed.

(** A host and a port without colons and brackets are split at the colon. *)
Lemma SplitHostPort_plain h p :
  (forall c, c ∈ h \/ c ∈ p -> c <> ":"%char /\ c <> "["%char /\ c <> "]"%char) ->
  SplitHostPort (h ++ ":"%char :: p) = Ok (h, p).
Proof.
  intros Hc. unfold SplitHostPort.
  rewrite LastIndexByte_app by (intros ?; naive_solver).
  assert (Hno : forall c, c ∈ h ++ ":"%char :: p -> c <> "["%char /\ c <> "]"%char).
  { intros c. rewrite elem_of_app, elem_of_cons.
    intros [?|[->|?]]; [naive_solver|done|naive_solver]. }
  assert (Hpre : HasPrefix (h ++ ":"%char :: p) (bs "[") = false).
  { apply not_true_is_false. intros [t Ht]%HasPrefix_spec.
    destruct (Hno "["%char) as [[] _]; [|done]. rewrite Ht. apply elem_of_cons. by left. }
  rewrite Hpre, take_app_length.
  rewrite (proj2 (IndexByte_None h _)) by (intros ?; naive_solver). simpl.
  rewrite !drop_0, !(proj2 (IndexByte_None _ _)) by (intros ?; naive_solver).
  rewrite drop_app_ge by lia.
  by replace (length h + 1 - length h)%nat with 1%nat by lia.
Qed.

(** ** Splitting lines *)

(** A line without a line break, followed by one, is what [Index] finds. *)
Lemma Index_CRLF l rest :
  Index l CRLF = None -> Index (l ++ CRLF ++ rest) CRLF = Some (length l).
Proof.
  induction l as [|c l IH]; intros Hl.
  - by destruct rest.
  - cbn [Index] in Hl. destruct (HasPrefix (c :: l) CRLF) eqn:E; [done|]. apply fmap_None in Hl.
    change ((c :: l) ++ CRLF ++ rest) with (c :: (l ++ CRLF ++ rest)). cbn [Index length].
    rewrite IH by done. destruct (HasPrefix (c :: l ++ CRLF ++ rest) CRLF) eqn:E'; [|done].
    exfalso. apply HasPrefix_spec in E' as [t Ht]. destruct l as [|d l]; [done|].
    injection Ht as -> -> _. pose proof (HasPrefix_app CRLF l). simpl in *. congruence.
Qed.

(** [bytes.Split] undoes [Join] on lines. *)
Lemma Split_lines l ls :
  Forall (fun l => Index l CRLF = None) (l :: ls) ->
  Split (Join (l :: ls) CRLF) CRLF = l :: ls.
Proof.
  intros HF. unfold Split.
  assert (Hgen : forall fuel, (length ls <= fuel)%nat ->
    split_rounds fuel (Join (l :: ls) CRLF) CRLF = l :: ls).
  { revert l HF. induction ls as [|m ls IH]; intros l [Hl Hls]%Forall_cons fuel Hf.
    - simpl Join. by destruct fuel; cbn [split_rounds]; rewrite ?Hl.
    - destruct fuel as [|fuel]; [simpl in *; lia|]. cbn [split_rounds].
      change (Join (l :: m :: ls) CRLF) with (l ++ CRLF ++ Join (m :: ls) CRLF).
      rewrite Index_CRLF by done. rewrite take_app_length.
      rewrite app_assoc, <- length_app, drop_app_length, IH; [done|done|simpl in *; lia]. }
  apply Hgen. clear. revert l.
  induction ls as [|m ls IH]; intros l; [simpl; lia|].
  change (Join (l :: m :: ls) CRLF) with (l ++ CRLF ++ Join (m :: ls) CRLF).
  rewrite !length_app. specialize (IH m). change (length CRLF) with 2%nat.
  change (length (m :: ls)) with (S (length ls)). lia.
Qed.

(** The same for a separator of one byte. *)
Lemma Index_byte c l rest : c ∉ l -> Index (l ++ c :: rest) [c] = Some (length l).
Proof.
  induction l as [|d l IH]; intros Hc.
  - cbn [app Index HasPrefix]. rewrite (proj2 (ceq_true c c)) by done. by destruct rest.
  - apply not_elem_of_cons in Hc as [Hne Hc]. cbn [app Index HasPrefix length].
    rewrite (proj2 (ceq_false c d)), IH by done. done.
Qed.

Lemma Index_byte_None c l : c ∉ l -> Index l [c] = None.
Proof. intros Hc. apply Index_None. intros a b ->. apply Hc. set_solver. Qed.

Lemma Split_byte c l ls : Forall (fun l => c ∉ l) (l :: ls) -> Split (Join (l :: ls) [c]) [c] = l :: ls.
Proof.
  intros HF. unfold Split.
  assert (Hgen : forall fuel, (length ls <= fuel)%nat -> split_rounds fuel (Join (l :: ls) [c]) [c] = l :: ls).
  { revert l HF. induction ls as [|m ls IH]; intros l [Hl Hls]%Forall_cons fuel Hf.
    - cbn [Join]. destruct fuel; cbn [split_rounds]; [done|]. by rewrite Index_byte_None.
    - destruct fuel as [|fuel]; [simpl in *; lia|]. cbn [split_rounds].
      change (Join (l :: m :: ls) [c]) with (l ++ c :: Join (m :: ls) [c]).
      rewrite Index_byte by done. rewrite take_app_length. cbn [length].
      rewrite drop_app_ge by lia. replace (length l + 1 - length l)%nat with 1%nat by lia.
      change (drop 1 (c :: Join (m :: ls) [c])) with (Join (m :: ls) [c]). rewrite (IH m Hls fuel) by (simpl in *; lia). done. }
  apply Hgen. clear. revert l. induction ls as [|m ls IH]; intros l; [simpl; lia|].
  change (Join (l :: m :: ls) [c]) with (l ++ c :: Join (m :: ls) [c]).
  rewrite length_app. specialize (IH m). cbn [length] in *. lia.
Qed.

(** ** Searching a growing buffer *)

Lemma HasPrefix_mono s t p : HasPrefix s p = true -> HasPrefix (s ++ t) p = true.
Proof. rewrite !HasPrefix_spec. intros [u ->]. exists (u ++ t). by rewrite app_assoc. Qed.

Lemma Index_mono s t sub i : Index s sub = Some i -> Index (s ++ t) sub = Some i.
Proof.
  revert i; induction s as [|c s IH]; intros i; cbn [Index app].
  - destruct (HasPrefix [] sub) eqn:E; [|done]. intros [= <-].
    destruct sub; [by destruct t|done].
  - destruct (HasPrefix (c :: s) sub) eqn:E.
    + intros [= <-]. change (c :: s ++ t) with ((c :: s) ++ t). by rewrite HasPrefix_mono.
    + intros (j & Hj & ->)%fmap_Some. rewrite (IH j Hj).
      destruct (HasPrefix (c :: s ++ t) sub) eqn:E'; [|done]. exfalso.
      apply HasPrefix_spec in E' as [u Hu]. apply Index_Some in Hj as (v & Hv & Hl).
      assert (Hlen : (length sub <= length (c :: s))%nat).
      { rewrite Hv. simpl. rewrite !length_app. lia. }
      change (c :: s ++ t) with ((c :: s) ++ t) in Hu.
      apply (f_equal (take (length sub))) in Hu.
      rewrite take_app_le, take_app_length in Hu by done.
      enough (HasPrefix (c :: s) sub = true) by congruence.
      apply HasPrefix_spec. exists (drop (length sub) (c :: s)). by rewrite <- Hu at 1; rewrite take_drop.
Qed.

Lemma Index_bound s sub i : Index s sub = Some i -> (i + length sub <= length s)%nat.
Proof.
  intros (t & Ht & Hi)%Index_Some. rewrite Ht, !length_app, Hi. lia.
Qed.

(** What appears with new bytes ends among them. *)
Lemma Index_new s t sub i :
  Index s sub = None -> Index (s ++ t) sub = Some i -> (length s < i + length sub)%nat.
Proof.
  intros Hn Hi. destruct (decide (length s < i + length sub)%nat) as [|Hle]; [done|]. exfalso.
  pose proof Hi as (u & Hu & Hl)%Index_Some.
  apply (proj1 (Index_None _ _) Hn (take i s) (drop (i + length sub) s)).
  rewrite take_app_le in Hu, Hl by lia.
  apply (f_equal (take (i + length sub))) in Hu.
  rewrite take_app_le in Hu by lia.
  rewrite app_assoc, take_app_length' in Hu by (rewrite length_app, Hl; lia).
  by rewrite app_assoc, <- Hu, take_drop.
Qed.

(** ** Byte-wise order *)

Lemma code_inj x y : code x = code y -> x = y.
Proof. intros Hc. rewrite <- (ascii_N_embedding x), <- (ascii_N_embedding y). unfold code in Hc. by rewrite Hc. Qed.

Lemma str_lt_irrefl a : str_lt a a = false.
Proof. induction a as [|x a IH]; simpl; [done|]. by rewrite N.ltb_irrefl. Qed.

Lemma str_lt_asym a b : str_lt a b = true -> str_lt b a = false.
Proof.
  revert b; induction a as [|x a IH]; intros [|y b]; simpl; try done.
  destruct (code x <? code y)%N eqn:E1, (code y <? code x)%N eqn:E2;
    rewrite ?N.ltb_lt, ?N.ltb_ge in *; try done; [lia|apply IH].
Qed.

Lemma str_lt_trans a b c : str_lt a b = true -> str_lt b c = true -> str_lt a c = true.
Proof.
  revert b c; induction a as [|x a IH]; intros [|y b] [|z c]; simpl; try done.
  destruct (code x <? code y)%N eqn:E1, (code y <? code z)%N eqn:E2, (code x <? code z)%N eqn:E3;
    rewrite ?N.ltb_lt, ?N.ltb_ge in *; try done; try lia.
  - destruct (code z <? code y)%N eqn:E4; rewrite ?N.ltb_lt, ?N.ltb_ge in *; [done|lia].
  - destruct (code y <? code x)%N eqn:E4; rewrite ?N.ltb_lt, ?N.ltb_ge in *; [done|lia].
  - destruct (code y <? code x)%N eqn:E4, (code z <? code y)%N eqn:E5, (code z <? code x)%N eqn:E6;
      rewrite ?N.ltb_lt, ?N.ltb_ge in *; try done; try lia. apply IH.
Qed.

(** Two strings neither of which comes first are the same. *)
Lemma str_lt_total a b : str_lt a b = false -> str_lt b a = false -> a = b.
Proof.
  revert b; induction a as [|x a IH]; intros [|y b]; simpl; try done.
  destruct (code x <? code y)%N eqn:E1; [done|]. destruct (code y <? code x)%N eqn:E2; [done|].
  rewrite N.ltb_ge in *. intros H1 H2. f_equal; [apply code_inj; lia|auto].
Qed.

Lemma str_lt_ntrans a b c : str_lt a b = false -> str_lt b c = false -> str_lt a c = false.
Proof.
  intros H1 H2. destruct (str_lt a c) eqn:E; [|done].
  destruct (str_lt b a) eqn:E1.
  - by rewrite (str_lt_trans b a c E1 E) in H2.
  - rewrite (str_lt_total a b H1 E1) in E. congruence.
Qed.
