(* ===== verification/Numeral.v ===== *)
(** * Numbers in text

    What the program prints with [%d] and [%x] and reads with [strconv.Atoi] and
    [strconv.ParseUint], and that the one undoes the other. *)

From S2P Require Import Prelude GoStrings.
From stdpp Require Import pretty.
#[local] Open Scope Z_scope.

(** ** Digits *)

Definition digit_value (c : ascii) : option N :=
  let n := code c in
  if (48 <=? n)%N && (n <=? 57)%N then Some (n - 48)%N
  else if (97 <=? n)%N && (n <=? 102)%N then Some (n - 87)%N
  else if (65 <=? n)%N && (n <=? 70)%N then Some (n - 55)%N
  else None.

(** The digits [s] in [base] after [acc]. *)
Fixpoint digits (base acc : N) (s : gostr) : option N :=
  match s with
  | [] => Some acc
  | c :: s =>
      d ← digit_value c;
      if (d <? base)%N then digits base (acc * base + d)%N s else None
  end.

(** A number without a sign: at least one digit. *)
Definition parse_number (base : N) (s : gostr) : option N :=
  match s with [] => None | _ => digits base 0 s end.

(** ** [strconv.ParseUint] and [strconv.Atoi], base 10 and 64 bits *)

Definition ParseUint (s : gostr) : option Z :=
  n ← parse_number 10 s;
  if (n <? 2 ^ 64)%N then Some (Z.of_N n) else None.

Definition Atoi (s : gostr) : option Z :=
  let '(neg, t) :=
    match s with
    | c :: t => if ceq c "-"%char then (true, t) else if ceq c "+"%char then (false, t) else (false, s)
    | [] => (false, [])
    end in
  n ← parse_number 10 t;
  let z := Z.of_N n in
  if neg then (if z <=? 2 ^ 63 then Some (- z) else None)
  else if z <? 2 ^ 63 then Some z else None.

(** ** [%x] *)

Definition hex_char (n : N) : ascii := if (n <? 10)%N then byte (48 + n) else byte (87 + n).

Fixpoint hex_go (fuel : nat) (n : N) (s : gostr) : gostr :=
  match fuel with
  | O => s
  | S fuel => if (n =? 0)%N then s else hex_go fuel (n / 16)%N (hex_char (n mod 16) :: s)
  end.

Definition FormatHex (n : N) : gostr := if (n =? 0)%N then bs "0" else hex_go (N.size_nat n) n [].

(** ** Reading back what was printed *)

Lemma digit_value_dec (n : N) : (n < 10)%N -> digit_value (pretty_N_char n) = Some n.
Proof.
  intros Hn. assert (Hc : exists k : nat, (k < 10)%nat /\ n = N.of_nat k) by (exists (N.to_nat n); lia).
  destruct Hc as (k & Hk & ->). do 10 (destruct k as [|k]; [reflexivity|]). lia.
Qed.

Lemma digit_value_hex (n : N) : (n < 16)%N -> digit_value (hex_char n) = Some n.
Proof.
  intros Hn. assert (Hc : exists k : nat, (k < 16)%nat /\ n = N.of_nat k) by (exists (N.to_nat n); lia).
  destruct Hc as (k & Hk & ->). do 16 (destruct k as [|k]; [reflexivity|]). lia.
Qed.

Lemma digits_dec_go (n : N) : forall s, digits 10 0 (bs (pretty_N_go n s)) = digits 10 n (bs s).
Proof.
  induction n as [n IH] using (well_founded_induction N.lt_wf_0). intros s.
  destruct (decide (n = 0%N)) as [->|Hn]; [by rewrite pretty_N_go_0|].
  rewrite pretty_N_go_step by lia. rewrite IH by (apply N.div_lt; lia).
  change (bs (String ?c ?s)) with (c :: bs s). cbn [digits].
  assert (Hm : (n mod 10 < 10)%N) by (apply N.mod_lt; lia).
  rewrite digit_value_dec by done. cbn [mbind option_bind].
  rewrite (proj2 (N.ltb_lt _ _)) by done. f_equal. pose proof (N.div_mod' n 10). lia.
Qed.

Lemma digits_hex_go fuel : forall n s, (n < 16 ^ N.of_nat fuel)%N -> digits 16 0 (hex_go fuel n s) = digits 16 n s.
Proof.
  induction fuel as [|fuel IH]; intros n s Hn; cbn [hex_go].
  - change (16 ^ N.of_nat 0)%N with 1%N in Hn. by replace n with 0%N by lia.
  - destruct (n =? 0)%N eqn:E; [apply N.eqb_eq in E; by subst|]. rewrite IH.
    + cbn [digits]. assert (Hm : (n mod 16 < 16)%N) by (apply N.mod_lt; lia).
      rewrite digit_value_hex by done. cbn [mbind option_bind].
      rewrite (proj2 (N.ltb_lt _ _)) by done. f_equal. pose proof (N.div_mod' n 16). lia.
    + apply N.Div0.div_lt_upper_bound. rewrite Nat2N.inj_succ, N.pow_succ_r' in Hn. lia.
Qed.

Lemma hex_go_ne fuel n s : s <> [] -> hex_go fuel n s <> [].
Proof.
  revert n s; induction fuel as [|fuel IH]; intros n s Hs; cbn [hex_go]; [done|].
  destruct (n =? 0)%N; [done|]. by apply IH.
Qed.

Lemma FormatHex_digits n : digits 16 0 (FormatHex n) = Some n.
Proof.
  unfold FormatHex. destruct (n =? 0)%N eqn:E; [apply N.eqb_eq in E; by subst|].
  rewrite digits_hex_go; [done|].
  eapply N.lt_le_trans; [apply (N.size_gt n)|].
  replace (N.of_nat (N.size_nat n)) with (N.size n) by (by destruct n as [|p]; simpl; [|induction p; simpl in *; lia]).
  apply N.pow_le_mono_l. lia.
Qed.

Lemma FormatHex_ne n : FormatHex n <> [].
Proof.
  unfold FormatHex. destruct (n =? 0)%N eqn:E; [done|]. destruct n as [|p]; [done|].
  destruct (N.size_nat (N.pos p)) as [|k] eqn:Hk; [by destruct p|]. cbn [hex_go]. rewrite E.
  by apply hex_go_ne.
Qed.

Lemma parse_hex n : parse_number 16 (FormatHex n) = Some n.
Proof. unfold parse_number. destruct (FormatHex n) eqn:E; [by apply FormatHex_ne in E|]. rewrite <- E. apply FormatHex_digits. Qed.

Lemma digits_pretty_N (n : N) : digits 10 0 (bs (pretty n)) = Some n.
Proof.
  unfold pretty, pretty_N. case_decide as Hn; [by subst|]. by rewrite digits_dec_go.
Qed.

Lemma parse_pretty_N (n : N) : parse_number 10 (bs (pretty n)) = Some n.
Proof.
  pose proof (digits_pretty_N n) as Hd. unfold parse_number. destruct (bs (pretty n)) eqn:E; [|done].
  exfalso. assert (Hs : pretty n = ""%string) by (destruct (pretty n); [done|by simpl in E]).
  revert Hs. unfold pretty, pretty_N. case_decide; [done|]. intros Hs.
  rewrite pretty_N_go_step in Hs by lia.
  assert (Hlen : forall k s, (String.length s <= String.length (pretty_N_go k s))%nat).
  { clear. intros k. induction k as [k IH] using (well_founded_induction N.lt_wf_0). intros s.
    destruct (decide (k = 0%N)) as [->|Hk]; [by rewrite pretty_N_go_0|].
    rewrite pretty_N_go_step by lia. etrans; [|apply IH; apply N.div_lt; lia]. simpl. lia. }
  specialize (Hlen (n / 10)%N (String (pretty_N_char (n mod 10)) "")). rewrite Hs in Hlen. simpl in Hlen. lia.
Qed.

Lemma Itoa_N (n : N) : Itoa (Z.of_N n) = bs (pretty n).
Proof. by destruct n. Qed.

(** [Itoa] of a number that is not negative is read back. *)
Lemma parse_Itoa (z : Z) : 0 <= z -> parse_number 10 (Itoa z) = Some (Z.to_N z).
Proof. intros Hz. rewrite <- (Z2N.id z) at 1 by done. by rewrite Itoa_N, parse_pretty_N. Qed.

(** What a number is made of. *)
Lemma digits_chars base acc s v : digits base acc s = Some v -> Forall (fun c => digit_value c <> None) s.
Proof.
  revert acc; induction s as [|c s IH]; intros acc; cbn [digits]; [constructor|].
  destruct (digit_value c) as [d|] eqn:E; [|done]. cbn [mbind option_bind].
  destruct (d <? base)%N; [|done]. intros Hd. constructor; [by rewrite E|by eapply IH].
Qed.

Lemma digits_avoid base acc s v c : digits base acc s = Some v -> digit_value c = None -> c ∉ s.
Proof. intros Hd%digits_chars Hc Hin. rewrite Forall_forall in Hd. by apply (Hd c Hin). Qed.

Lemma FormatHex_avoid n c : digit_value c = None -> c ∉ FormatHex n.
Proof. apply (digits_avoid 16 0 _ n), FormatHex_digits. Qed.

Lemma Itoa_avoid z c : 0 <= z -> digit_value c = None -> c ∉ Itoa z.
Proof.
  intros Hz. rewrite <- (Z2N.id z) by done. rewrite Itoa_N. apply (digits_avoid 10 0 _ (Z.to_N z)), digits_pretty_N.
Qed.

(** [Atoi] and [ParseUint] read back what [%d] printed, within their range. *)
Lemma Atoi_Itoa z : 0 <= z < 2 ^ 63 -> Atoi (Itoa z) = Some z.
Proof.
  intros Hz. pose proof (parse_Itoa z (proj1 Hz)) as Hp. unfold Atoi. destruct (Itoa z) as [|c t] eqn:E; [done|].
  assert (Hno : forall d, digit_value d = None -> c <> d).
  { intros d Hd ->. apply (Itoa_avoid z d (proj1 Hz) Hd). rewrite E. by left. }
  rewrite (proj2 (ceq_false c "-"%char)) by (by apply Hno). rewrite (proj2 (ceq_false c "+"%char)) by (by apply Hno).
  rewrite Hp. cbn [mbind option_bind]. rewrite Z2N.id by lia. by rewrite (proj2 (Z.ltb_lt _ _)) by lia.
Qed.

Lemma ParseUint_Itoa z : 0 <= z < 2 ^ 64 -> ParseUint (Itoa z) = Some z.
Proof.
  intros Hz. unfold ParseUint. rewrite parse_Itoa by lia. cbn [mbind option_bind].
  rewrite (proj2 (N.ltb_lt _ _)) by lia. by rewrite Z2N.id by lia.
Qed.
