(* ===== verification/Duration.v ===== *)
(** * Durations in a configuration ([Duration.UnmarshalYAML] of
      [internal/config/config.go])

    A duration in a configuration file is text, read with Go's
    [time.ParseDuration]: a sign and a sequence of decimal numbers with a unit,
    added up in [uint64] with checks against overflow.  A fraction is computed in
    [float64], written with the Standard Library's binary64 operations.  The YAML
    node's text comes from the YAML library, which is a parameter. *)

From Stdlib Require Import SpecFloat.
From S2P Require Import Prelude GoStrings Numeral.
#[local] Open Scope Z_scope.

(** ** [float64] *)

Definition float_of (z : Z) : spec_float := binary_normalize 53 1024 z 0 false.
Definition fmul : spec_float -> spec_float -> spec_float := SFmul 53 1024.
Definition fdiv : spec_float -> spec_float -> spec_float := SFdiv 53 1024.

(** [uint64(f)] of a value in range: the fraction is discarded. *)
Definition uint64_of (f : spec_float) : Z :=
  match f with S754_finite false m e => Z.shiftl (Z.pos m) e | _ => 0 end.

(** ** [time.ParseDuration] *)

Definition decimal (c : ascii) : option Z :=
  let n := code c in if (48 <=? n)%N && (n <=? 57)%N then Some (Z.of_N (n - 48)) else None.

Definition is_decimal (c : ascii) : bool := match decimal c with Some _ => true | None => false end.
Definition dot : ascii := byte 46.

(** [leadingInt], with the number read so far; [None] is its error. *)
Fixpoint leadingInt (x : Z) (s : gostr) : option (Z * gostr) :=
  match s with
  | [] => Some (x, [])
  | c :: r =>
      match decimal c with
      | None => Some (x, s)
      | Some n =>
          if 2 ^ 63 / 10 <? x then None
          else let x := u64 (x * 10 + n) in
               if 2 ^ 63 <? x then None else leadingInt x r
      end
  end.

(** [leadingFraction], with its variables. *)
Fixpoint leadingFraction (x : Z) (scale : spec_float) (overflow : bool) (s : gostr) : Z * spec_float * gostr :=
  match s with
  | [] => (x, scale, [])
  | c :: r =>
      match decimal c with
      | None => (x, scale, s)
      | Some n =>
          if overflow then leadingFraction x scale overflow r
          else if (2 ^ 63 - 1) / 10 <? x then leadingFraction x scale true r
          else let y := u64 (x * 10 + n) in
               if 2 ^ 63 <? y then leadingFraction x scale true r
               else leadingFraction y (fmul scale (float_of 10)) false r
      end
  end.

(** [unitMap]; the two spellings of the micro sign are U+00B5 and U+03BC. *)
Definition unit_list : list (gostr * Z) :=
  [(bs "ns", 1); (bs "us", 1000); ([byte 194; byte 181] ++ bs "s", 1000); ([byte 206; byte 188] ++ bs "s", 1000);
   (bs "ms", 1000000); (bs "s", 1000000000); (bs "m", 60 * 1000000000); (bs "h", 3600 * 1000000000)].

Definition unitMap (u : gostr) : option Z := snd <$> List.find (fun p => beq p.1 u) unit_list.

Inductive duration_error := InvalidDuration | MissingUnit | UnknownUnit (u : gostr).

(** The unit's text: up to a period or a digit. *)
Fixpoint span_unit (s : gostr) : gostr * gostr :=
  match s with
  | [] => ([], [])
  | c :: r => if ceq c dot || is_decimal c then ([], s) else let '(u, r) := span_unit r in (c :: u, r)
  end.

(** A period and digits, if they are there: the fraction, its scale, what is left, and whether there were
    digits. *)
Definition fraction_part (s : gostr) : Z * spec_float * gostr * bool :=
  match s with
  | c :: r =>
      if ceq c dot then
        let '(f, scale, r') := leadingFraction 0 (float_of 1) false r in
        (f, scale, r', negb (length r =? length r')%nat)
      else (0, float_of 1, s, false)
  | [] => (0, float_of 1, s, false)
  end.

(** The value of one part, [v] and [f / scale] units. *)
Definition part_value (v f : Z) (scale : spec_float) (unit : Z) : result duration_error Z :=
  if 2 ^ 63 / unit <? v then Err InvalidDuration
  else
    let v := u64 (v * unit) in
    if 0 <? f then
      let v := u64 (v + uint64_of (fmul (float_of f) (fdiv (float_of unit) scale))) in
      if 2 ^ 63 <? v then Err InvalidDuration else Ok v
    else Ok v.

(** One round of the loop: the part's value and what is left. *)
Definition parse_part (s : gostr) : result duration_error (Z * gostr) :=
  match s with
  | [] => Err InvalidDuration
  | c :: _ =>
      if negb (ceq c dot || is_decimal c) then Err InvalidDuration
      else
        match leadingInt 0 s with
        | None => Err InvalidDuration
        | Some (v, s1) =>
            let pre := negb (length s =? length s1)%nat in
            let '(f, scale, s2, post) := fraction_part s1 in
            if negb pre && negb post then Err InvalidDuration
            else
              let '(u, s3) := span_unit s2 in
              if (length u =? 0)%nat then Err MissingUnit
              else
                match unitMap u with
                | None => Err (UnknownUnit u)
                | Some unit => let? v := part_value v f scale unit in Ok (v, s3)
                end
        end
  end.

Fixpoint parse_parts (fuel : nat) (d : Z) (s : gostr) : result duration_error Z :=
  match s, fuel with
  | [], _ => Ok d
  | _, O => Err InvalidDuration
  | _, S fuel =>
      let? p := parse_part s in
      let '(v, r) := p in
      let d := u64 (d + v) in
      if 2 ^ 63 <? d then Err InvalidDuration else parse_parts fuel d r
  end.

Definition take_sign (s : gostr) : bool * gostr :=
  match s with
  | c :: r => if ceq c "-" || ceq c "+" then (ceq c "-", r) else (false, s)
  | [] => (false, s)
  end.

Definition ParseDuration (s : gostr) : result duration_error Z :=
  let '(neg, s) := take_sign s in
  if beq s (bs "0") then Ok 0
  else if beq s [] then Err InvalidDuration
  else
    let? d := parse_parts (length s) 0 s in
    if neg then Ok (i64 (- d)) else if 2 ^ 63 - 1 <? d then Err InvalidDuration else Ok d.

(** [UnmarshalYAML]: the duration after it and the error. *)
Inductive yaml_error (E : Type) := NotText (e : E) | BadDuration (s : gostr) (e : duration_error).
Arguments NotText {E} e.
Arguments BadDuration {E} s e.

Definition UnmarshalYAML {E} (decoded : result E gostr) (d : Z) : Z * option (yaml_error E) :=
  match decoded with
  | Err e => (d, Some (NotText e))
  | Ok s =>
      match ParseDuration s with
      | Err e => (d, Some (BadDuration s e))
      | Ok parsed => (parsed, None)
      end
  end.

(** ** Lemmas *)

Definition stops (s : gostr) : Prop := match s with [] => True | c :: _ => is_decimal c = false end.

Lemma decimal_digit c d : digit_value c = Some d -> (d < 10)%N -> decimal c = Some (Z.of_N d).
Proof.
  unfold digit_value, decimal. destruct ((48 <=? code c)%N && (code c <=? 57)%N); [by intros [= <-]|].
  destruct ((97 <=? code c)%N && _) eqn:E1; [|destruct ((65 <=? code c)%N && _) eqn:E2; [|done]].
  - apply andb_true_iff in E1 as [?%N.leb_le ?%N.leb_le]. intros [= <-] ?. lia.
  - apply andb_true_iff in E2 as [?%N.leb_le ?%N.leb_le]. intros [= <-] ?. lia.
Qed.

Lemma digits_ge s : forall acc v, digits 10 acc s = Some v -> (acc <= v)%N.
Proof.
  induction s as [|c s IH]; intros acc v; cbn [digits]; [by intros [= ->]|].
  destruct (digit_value c) as [d|]; [|done]. simpl. destruct (d <? 10)%N; [|done]. intros ?%IH. lia.
Qed.

(** A number in decimal is read as it is, or refused when it is over [2^63]. *)
Lemma leadingInt_digits rest s : stops rest -> forall acc v, digits 10 acc s = Some v -> Z.of_N acc <= 2 ^ 63 ->
  leadingInt (Z.of_N acc) (s ++ rest) = if Z.of_N v <=? 2 ^ 63 then Some (Z.of_N v, rest) else None.
Proof.
  intros Hr. induction s as [|c s IH]; intros acc v; cbn [digits app].
  - intros [= ->] Ha. rewrite (proj2 (Z.leb_le _ _)) by done. destruct rest as [|c r]; [done|]. simpl in Hr.
    unfold is_decimal in Hr. cbn [leadingInt]. by destruct (decimal c).
  - destruct (digit_value c) as [d|] eqn:Ed; [|done]. simpl. destruct (d <? 10)%N eqn:Eb; [|done]. apply N.ltb_lt in Eb.
    intros Hv Ha. rewrite (decimal_digit c d) by done. pose proof (digits_ge _ _ _ Hv) as Hge.
    destruct (2 ^ 63 / 10 <? Z.of_N acc) eqn:E.
    + b2p. rewrite (proj2 (Z.leb_gt _ _)); [done|]. change (2 ^ 63 / 10) with 922337203685477580 in E. lia.
    + b2p. change (2 ^ 63 / 10) with 922337203685477580 in E.
      assert (Hx : wrap_u 64 (Z.of_N acc * 10 + Z.of_N d) = Z.of_N (acc * 10 + d)%N) by (rewrite wrap_u_small; lia).
      rewrite Hx. destruct (2 ^ 63 <? Z.of_N (acc * 10 + d)) eqn:E2; b2p.
      * rewrite (proj2 (Z.leb_gt _ _)); [done|]. lia.
      * by apply IH.
Qed.

Lemma unit_known u k : unitMap u = Some k -> In (u, k) unit_list.
Proof.
  unfold unitMap. destruct (List.find _ _) as [[u' k']|] eqn:E; [|done]. apply List.find_some in E as [Hin Hb].
  apply beq_true in Hb. simpl in Hb. subst. by intros [= <-].
Qed.

(** What is known of every unit. *)
Definition good_unit (p : gostr * Z) : bool :=
  forallb (fun c => negb (ceq c dot || is_decimal c)) p.1 && negb (length p.1 =? 0)%nat && (0 <? p.2) && (p.2 <=? 3600 * 1000000000).

Lemma unit_good u k : unitMap u = Some k -> good_unit (u, k) = true.
Proof. intros Hu%unit_known. by apply (proj1 (forallb_forall good_unit unit_list)). Qed.

Lemma span_unit_app u r : forallb (fun c => negb (ceq c dot || is_decimal c)) u = true ->
  (forall c r', r = c :: r' -> is_decimal c = true) -> span_unit (u ++ r) = (u, r).
Proof.
  intros Hu Hr. induction u as [|c u IH]; simpl in *.
  - destruct r as [|c r']; [done|]. cbn [span_unit]. by rewrite (Hr c r' eq_refl), orb_true_r.
  - apply andb_true_iff in Hu as [Hc Hu]. apply negb_true_iff in Hc. rewrite Hc. by rewrite (IH Hu).
Qed.

(** ** Whole numbers of units *)

(** A duration as it is written: numbers with their unit. *)
Definition part_text (p : Z * gostr) : gostr := Itoa p.1 ++ p.2.
Definition duration_text (parts : list (Z * gostr)) : gostr := flat_map part_text parts.
Definition part_ns (p : Z * gostr) : Z := p.1 * default 0 (unitMap p.2).
Definition total (parts : list (Z * gostr)) : Z := foldr Z.add 0 (map part_ns parts).
Definition good_part (p : Z * gostr) : Prop := 0 <= p.1 /\ is_Some (unitMap p.2).

Lemma Itoa_digits z : 0 <= z -> digits 10 0 (Itoa z) = Some (Z.to_N z) /\ exists c t, Itoa z = c :: t /\ is_decimal c = true.
Proof.
  intros Hz. pose proof (parse_Itoa z Hz) as Hp. unfold parse_number in Hp. destruct (Itoa z) as [|c t] eqn:E; [done|].
  split; [done|]. exists c, t. split; [done|]. cbn [digits] in Hp. destruct (digit_value c) as [d|] eqn:Ed; [|done]. simpl in Hp.
  destruct (d <? 10)%N eqn:Eb; [|done]. apply N.ltb_lt in Eb. unfold is_decimal. by rewrite (decimal_digit c d).
Qed.

Definition starts_number (s : gostr) : Prop := forall c r, s = c :: r -> is_decimal c = true.

Lemma part_value_whole n k : 0 <= n -> 0 < k -> n <= 2 ^ 63 ->
  part_value n 0 (float_of 1) k = if n * k <=? 2 ^ 63 then Ok (n * k) else Err InvalidDuration.
Proof.
  intros Hn Hk Hn2. unfold part_value. destruct (2 ^ 63 / k <? n) eqn:E; b2p.
  - rewrite (proj2 (Z.leb_gt _ _)); [done|]. apply Z.nle_gt. intros Hle.
    assert (n <= 2 ^ 63 / k) by (apply Z.div_le_lower_bound; lia). lia.
  - assert (Hle : n * k <= 2 ^ 63) by (pose proof (Z.mul_div_le (2 ^ 63) k Hk); nia).
    rewrite (proj2 (Z.leb_le _ _)) by done. cbn [Z.ltb Z.compare]. rewrite wrap_u_small; [done|lia].
Qed.

Lemma parse_part_text p r : good_part p -> starts_number r ->
  parse_part (part_text p ++ r) = if part_ns p <=? 2 ^ 63 then Ok (part_ns p, r) else Err InvalidDuration.
Proof.
  destruct p as [n u]. intros [Hn [k Hk]] Hr. simpl in Hn, Hk. unfold part_ns, part_text. cbn [fst snd]. rewrite Hk. change (default 0 (Some k)) with k.
  pose proof (unit_good u k Hk) as Hg. unfold good_unit in Hg. cbn [fst snd] in Hg. b2p.
  destruct (Itoa_digits n Hn) as (Hd & c & t & Hi & Hc). rewrite <- app_assoc.
  assert (Hst : stops (u ++ r)).
  { destruct u as [|b u]; [done|]. simpl in *. b2p. done. }
  pose proof (leadingInt_digits (u ++ r) (Itoa n) Hst 0 _ Hd ltac:(done)) as Hl. rewrite Z2N.id in Hl by done.
  assert (Hlen : length (Itoa n ++ u ++ r) <> length (u ++ r)).
  { rewrite length_app, Hi. simpl. lia. }
  unfold parse_part. rewrite Hi in *. cbn [app] in *. rewrite Hc, orb_true_r. cbn [negb]. 
  change (Z.of_N 0) with 0 in Hl. rewrite Hl. destruct (n <=? 2 ^ 63) eqn:En; b2p;
    [|rewrite (proj2 (Z.leb_gt _ _)); [done|assert (n * 1 <= n * k) by (apply Z.mul_le_mono_nonneg_l; lia); lia]].
  assert (Hf : fraction_part (u ++ r) = (0, float_of 1, u ++ r, false)).
  { destruct u as [|b u]; [done|]. simpl in *. b2p. unfold fraction_part. cbn [app]. by destruct (ceq b dot). }
  rewrite Hf, (proj2 (Nat.eqb_neq _ _) Hlen). cbn [negb andb]. rewrite span_unit_app by done.
  destruct (length u =? 0)%nat eqn:Eu; [by b2p|]. rewrite Hk, part_value_whole by lia. by destruct (_ <=? _).
Qed.

Lemma duration_text_starts parts : Forall good_part parts -> starts_number (duration_text parts).
Proof.
  intros Hp c r. destruct parts as [|[n u] ps]; [done|]. apply Forall_cons in Hp as [[Hn _] _]. cbn.
  destruct (Itoa_digits n Hn) as (_ & c' & t & Hi & Hc). unfold part_text. cbn [fst snd]. rewrite Hi. cbn. by intros [= <- _].
Qed.

Lemma part_ns_nonneg p : good_part p -> 0 <= part_ns p.
Proof.
  destruct p as [n u]. intros [Hn [k Hk]]. unfold part_ns. cbn [fst snd] in *. rewrite Hk. change (default 0 (Some k)) with k.
  pose proof (unit_good u k Hk) as Hg. unfold good_unit in Hg. cbn [fst snd] in Hg. b2p. nia.
Qed.

Lemma total_nonneg parts : Forall good_part parts -> 0 <= total parts.
Proof.
  unfold total. induction 1 as [|p ps Hp _ IH]; cbn [map foldr]; [done|]. pose proof (part_ns_nonneg p Hp). lia.
Qed.

(** The running sum cannot wrap around: it would take a part of exactly [2^63]
    nanoseconds on top of [2^63]. *)
Definition no_wrap (d : Z) (parts : list (Z * gostr)) : Prop :=
  d + total parts < 2 ^ 64 \/ Forall (fun p => part_ns p <> 2 ^ 63) parts.

Lemma parse_parts_text parts : Forall good_part parts -> forall fuel d,
  (length (duration_text parts) <= fuel)%nat -> 0 <= d <= 2 ^ 63 -> no_wrap d parts ->
  parse_parts fuel d (duration_text parts) = if d + total parts <=? 2 ^ 63 then Ok (d + total parts) else Err InvalidDuration.
Proof.
  induction 1 as [|p ps Hp Hps IH]; intros fuel d Hf Hd Ht.
  - unfold total. cbn [map foldr] in *. rewrite Z.add_0_r, (proj2 (Z.leb_le _ _)) by lia. by destruct fuel.
  - pose proof (total_nonneg ps Hps). pose proof (part_ns_nonneg p Hp).
    change (total (p :: ps)) with (part_ns p + total ps) in *.
    change (duration_text (p :: ps)) with (part_text p ++ duration_text ps) in *.
    pose proof (parse_part_text p (duration_text ps) Hp (duration_text_starts ps Hps)) as Hpt.
    assert (Hne : exists c t, part_text p = c :: t).
    { destruct p as [n u], Hp as [Hn _]. destruct (Itoa_digits n Hn) as (_ & c & t & Hi & _). unfold part_text.
      cbn [fst] in *. rewrite Hi. by do 2 eexists. }
    destruct Hne as (c & t & E). rewrite length_app in Hf. rewrite E in *. cbn [app length] in *.
    destruct fuel as [|fuel]; [lia|]. cbn [parse_parts]. rewrite Hpt.
    destruct (part_ns p <=? 2 ^ 63) eqn:E1; b2p; cbn [rbind].
    + assert (Hw : d + part_ns p < 2 ^ 64 /\ no_wrap (d + part_ns p) ps).
      { destruct Ht as [Ht|Ht]; [change (total (p :: ps)) with (part_ns p + total ps) in Ht; split; [lia|left; lia]|].
        apply Forall_cons in Ht as [Hne Ht]. split; [lia|by right]. }
      destruct Hw as [Hw Hw']. rewrite wrap_u_small by lia. destruct (2 ^ 63 <? d + part_ns p) eqn:E2; b2p.
      * rewrite (proj2 (Z.leb_gt _ _)); [done|]. lia.
      * rewrite IH by (done || lia). by rewrite Z.add_assoc.
    + rewrite (proj2 (Z.leb_gt _ _)); [done|]. lia.
Qed.

(** What the loop returns is at most [2^63]. *)
Lemma parse_parts_bound fuel : forall d s v, 0 <= d <= 2 ^ 63 -> parse_parts fuel d s = Ok v -> 0 <= v <= 2 ^ 63.
Proof.
  induction fuel as [|fuel IH]; intros d s v Hd; [by destruct s; [intros [= <-]|]|].
  destruct s as [|c s]; [by intros [= <-]|]. cbn [parse_parts]. intros Hx. apply rbind_ok in Hx as ([w r] & _ & Hx).
  destruct (2 ^ 63 <? u64 (d + w)) eqn:E; [done|]. b2p. pose proof (wrap_u_range 64 (d + w) ltac:(done)).
  eapply IH; [|exact Hx]. lia.
Qed.

(** The sign and its parts in front. *)
Definition sign_text (neg : bool) : gostr := if neg then bs "-" else [].

Lemma take_sign_text neg parts : Forall good_part parts ->
  take_sign (sign_text neg ++ duration_text parts) = (neg, duration_text parts).
Proof.
  intros Hp. destruct neg; [done|]. pose proof (duration_text_starts parts Hp) as Hs.
  cbn [sign_text app]. destruct (duration_text parts) as [|c t]; [done|]. specialize (Hs c t eq_refl). cbn [take_sign].
  destruct (ceq c "-") eqn:E1; [apply ceq_true in E1; by subst|]. destruct (ceq c "+") eqn:E2; [apply ceq_true in E2; by subst|].
  done.
Qed.

(** At least a digit and a unit. *)
Lemma duration_text_long parts : parts <> [] -> Forall good_part parts -> (2 <= length (duration_text parts))%nat.
Proof.
  destruct parts as [|[n u] ps]; [done|]. intros _ Hp. apply Forall_cons in Hp as [[Hn [k Hk]] _]. cbn [fst snd] in *.
  pose proof (unit_good u k Hk) as Hg. unfold good_unit in Hg. cbn [fst snd] in Hg. b2p.
  destruct (Itoa_digits n Hn) as (_ & c & t & Hi & _). cbn. unfold part_text. cbn [fst snd]. rewrite Hi, !length_app. simpl. lia.
Qed.

Lemma ParseDuration_text neg parts : parts <> [] -> Forall good_part parts -> no_wrap 0 parts ->
  ParseDuration (sign_text neg ++ duration_text parts) =
    if (if neg then total parts <=? 2 ^ 63 else total parts <? 2 ^ 63)
    then Ok (if neg then - total parts else total parts) else Err InvalidDuration.
Proof.
  intros Hne Hp Ht. pose proof (duration_text_long parts Hne Hp) as Hl. pose proof (total_nonneg parts Hp) as Hn.
  unfold ParseDuration. rewrite take_sign_text by done.
  assert (E0 : beq (duration_text parts) (bs "0") = false) by (apply beq_false; intros E; rewrite E in Hl; simpl in Hl; lia).
  assert (E1 : beq (duration_text parts) [] = false) by (apply beq_false; intros E; rewrite E in Hl; simpl in Hl; lia).
  rewrite E0, E1, parse_parts_text by (done || lia). rewrite Z.add_0_l.
  destruct (total parts <=? 2 ^ 63) eqn:E2; cbn [rbind].
  - b2p. destruct neg; [rewrite i64_small by lia; done|].
    destruct (2 ^ 63 - 1 <? total parts) eqn:E3; b2p.
    + by rewrite (proj2 (Z.ltb_ge _ _)) by lia.
    + by rewrite (proj2 (Z.ltb_lt _ _)) by lia.
  - destruct neg; [done|]. b2p. by rewrite (proj2 (Z.ltb_ge _ _)) by lia.
Qed.

Lemma ParseDuration_bound s v : ParseDuration s = Ok v -> - 2 ^ 63 <= v < 2 ^ 63.
Proof.
  unfold ParseDuration. destruct (take_sign s) as [neg t]. destruct (beq t (bs "0")); [by intros [= <-]|].
  destruct (beq t []); [done|]. intros Hx. apply rbind_ok in Hx as (d & Hd & Hx).
  apply parse_parts_bound in Hd; [|done]. destruct neg.
  - injection Hx as <-. rewrite i64_small; lia.
  - destruct (2 ^ 63 - 1 <? d) eqn:E; [done|]. injection Hx as <-. b2p. lia.
Qed.

(** ** Properties *)

(** [C28] A duration in a configuration means what it says and stays within
    [int64].  Whole numbers of units, in any number and order and with a sign, are
    read as their sum when it fits [int64], and refused when it does not, unless
    the sum is [2^64] nanoseconds or more and one of the numbers alone is exactly
    [2^63] nanoseconds (two of those cancel out, [halves_wrap]).  Whatever the
    text, an accepted duration is an [int64]; and an error leaves the setting as it
    was. *)
Theorem duration_exact {E : Type} (neg : bool) (parts : list (Z * gostr)) (d : Z) (decoded : result E gostr)
    (Hne : parts <> []) (Hp : Forall good_part parts)
    (Ht : total parts < 2 ^ 64 \/ Forall (fun p => part_ns p <> 2 ^ 63) parts) :
  let s := sign_text neg ++ duration_text parts in
  UnmarshalYAML (Ok s : result E gostr) d =
    (if (if neg then total parts <=? 2 ^ 63 else total parts <? 2 ^ 63)
     then ((if neg then - total parts else total parts), None)
     else (d, Some (BadDuration s InvalidDuration))) /\
  (let '(d', err) := UnmarshalYAML decoded d in
   match err with None => - 2 ^ 63 <= d' < 2 ^ 63 | Some _ => d' = d end).
Proof.
  cbv zeta. split.
  - unfold UnmarshalYAML. rewrite ParseDuration_text by done. by destruct (if neg then _ else _).
  - unfold UnmarshalYAML. destruct decoded as [t|e]; [|done]. destruct (ParseDuration t) as [v|e] eqn:Ep; [|done].
    by eapply ParseDuration_bound.
Qed.

(** Three digits after the point are exact in [float64]: every number of
    thousandths of a second, a minute and an hour. *)
Definition three_digits (n : Z) : gostr :=
  map (fun k => byte (48 + Z.to_N (n / k mod 10))) [100; 10; 1].

Definition thousandth_ok (n : Z) : bool :=
  forallb (fun u =>
    match ParseDuration (bs "0." ++ three_digits n ++ u.1) with Ok v => v =? n * (u.2 / 1000) | Err _ => false end)
    [(bs "s", 1000000000); (bs "m", 60 * 1000000000); (bs "h", 3600 * 1000000000)].

Lemma thousandths_exact : forallb thousandth_ok (map Z.of_nat (seq 0 1000)) = true.
Proof. vm_compute. reflexivity. Qed.

(** The sum wraps around in the one case in which [2^63] is reached exactly and
    [2^63] is added to it: the parts cancel out. *)
Lemma halves_wrap : ParseDuration (bs "9223372036854775808ns9223372036854775808ns") = Ok 0.
Proof. vm_compute. reflexivity. Qed.

(** ** Witness *)

Module DurationWitness.
Definition parts : list (Z * gostr) := [(2562047, bs "h"); (47, bs "m"); (16, bs "s"); (854775807, bs "ns")].

Lemma duration_exact_witness :
  UnmarshalYAML (Ok (bs "2562047h47m16s854775807ns") : result unit gostr) 0 = (2 ^ 63 - 1, None) /\
  UnmarshalYAML (Ok (bs "-1.5h") : result unit gostr) 0 = (-5400000000000, None).
Proof.
  split; [|vm_compute; reflexivity].
  refine (proj1 (duration_exact (E := unit) false parts 0 (Ok []) ltac:(discriminate) _ _)).
  - repeat (apply Forall_cons; split; [split; [vm_compute; discriminate|eexists; vm_compute; reflexivity]|]). constructor.
  - left. vm_compute. reflexivity.
Defined.
End DurationWitness.
