(* ===== verification/IO.v ===== *)
(** * Errors and readers

    Go errors as the chain of sentinels they wrap ([errors.Is] looks into the
    chain, [==] compares the whole), and the two ways the program reads:
    single [Read] calls on a connection whose arrivals are given as a script,
    and [io.ReadFull] on a stream of bytes ending in an error. *)

From S2P Require Import Prelude GoStrings.

(** ** Errors *)

(** The error values the program compares with. *)
Inductive sentinel :=
| EOF                 (* io.EOF *)
| ErrUnexpectedEOF    (* io.ErrUnexpectedEOF *)
| ErrClosed           (* net.ErrClosed *)
| ErrDeadlineExceeded (* os.ErrDeadlineExceeded *)
| ECONNRESET          (* syscall.ECONNRESET *)
| ErrStreamClosed     (* yamux.ErrStreamClosed *)
| ErrSessionShutdown  (* yamux.ErrSessionShutdown *)
| ErrConnectionReset  (* yamux.ErrConnectionReset *)
| ErrRemoteGoAway     (* yamux.ErrRemoteGoAway *)
| NetTimeout          (* a net.Error that reports a timeout *)
| ErrClosedPipe       (* io.ErrClosedPipe *)
| ErrShortWrite       (* io.ErrShortWrite *)
| OtherError (n : nat).

#[export] Instance sentinel_eq_dec : EqDecision sentinel.
Proof. solve_decision. Defined.

(** An error is the sentinels of its chain; a plain sentinel has itself. *)
Definition error := list sentinel.

Definition errors_is (e : error) (s : sentinel) : bool := bool_decide (s ∈ e).

(** [err == s] on an unwrapped error. *)
Definition error_eq (e : error) (s : sentinel) : bool := bool_decide (e = [s]).

(** ** Connections *)

(** What successive arrivals on a connection deliver: some bytes, with or
    without an error.  An exhausted script is a read that never returns. *)
Definition script := list (gostr * option error).

(** One [Read] into a buffer of [cap] bytes; what does not fit stays for the
    next one. *)
Definition Read (cap : nat) (s : script) : option (gostr * option error * script) :=
  match s with
  | [] => None
  | (c, e) :: s =>
      if (length c <=? cap)%nat then Some (c, e, s)
      else Some (take cap c, None, (drop cap c, e) :: s)
  end.

(** All the bytes a script delivers. *)
Fixpoint script_bytes (s : script) : gostr :=
  match s with
  | [] => []
  | (c, _) :: s => c ++ script_bytes s
  end.

(** A measure every read with a non-empty buffer decreases. *)
Fixpoint script_size (s : script) : nat :=
  match s with
  | [] => 0
  | (c, _) :: s => S (length c + script_size s)
  end.

Lemma Read_bytes cap s c e s' :
  Read cap s = Some (c, e, s') -> script_bytes s = c ++ script_bytes s'.
Proof.
  destruct s as [|[d e'] s]; simpl; [done|]. destruct (_ <=? _)%nat; intros [= <- <- <-]; [done|].
  simpl. by rewrite app_assoc, take_drop.
Qed.

Lemma Read_size cap s c e s' :
  (0 < cap)%nat -> Read cap s = Some (c, e, s') -> (script_size s' < script_size s)%nat.
Proof.
  intros Hcap. destruct s as [|[d e'] s]; simpl; [done|].
  destruct (_ <=? _)%nat eqn:E; b2p; intros [= <- <- <-]; simpl; [lia|].
  rewrite length_drop. lia.
Qed.

Lemma Read_cap cap s c e s' : Read cap s = Some (c, e, s') -> (length c <= cap)%nat.
Proof.
  destruct s as [|[d e'] s]; simpl; [done|].
  destruct (_ <=? _)%nat eqn:E; b2p; intros [= <- <- <-]; [done|]. rewrite length_take. lia.
Qed.

(** No arrival carries an error. *)
Definition no_errors (s : script) : Prop := Forall (fun ce => ce.2 = None) s.

Lemma Read_no_errors cap s c e s' :
  Read cap s = Some (c, e, s') -> no_errors s -> e = None /\ no_errors s'.
Proof.
  destruct s as [|[d e'] s]; simpl; [done|]. unfold no_errors.
  destruct (_ <=? _)%nat; intros [= <- <- <-] [He Hs]%Forall_cons; [done|].
  split; [done|]. by constructor.
Qed.

(** The bytes a script delivers up to its first error, and that error. *)
Fixpoint delivered (s : script) : gostr * option error :=
  match s with
  | [] => ([], None)
  | (c, Some e) :: _ => (c, Some e)
  | (c, None) :: s => let d := delivered s in (c ++ d.1, d.2)
  end.

Lemma Read_delivered cap s c e s' : Read cap s = Some (c, e, s') ->
  delivered s = match e with Some e => (c, Some e) | None => (c ++ (delivered s').1, (delivered s').2) end.
Proof.
  destruct s as [|[d e'] s]; simpl; [done|]. destruct (_ <=? _)%nat; intros [= <- <- <-]; [by destruct e'|].
  simpl. destruct e'; simpl; rewrite ?app_assoc, take_drop; done.
Qed.

(** A peer that does not stay open for ever: some read ends in an error (the
    deadline at the latest). *)
Definition ends (s : script) : Prop := Exists (fun ce => ce.2 <> None) s.

Lemma Read_ends cap s : ends s ->
  exists c e s', Read cap s = Some (c, e, s') /\ (e = None -> ends s').
Proof.
  destruct s as [|[d e] s]; intros Hs; [by apply Exists_nil in Hs|]. simpl.
  destruct (_ <=? _)%nat; do 3 eexists; (split; [done|]); intros He.
  - subst e. by apply Exists_cons in Hs as [?|?].
  - by apply Exists_cons in Hs as [?|?]; [left|right].
Qed.

(** ** Streams read in full *)

(** The bytes a stream delivers and the error after them. *)
Record stream := mkStream { avail : gostr; fin : error }.

(** [io.ReadFull] of [n] bytes: an error before the first byte is returned as
    it is, an [EOF] after it becomes [ErrUnexpectedEOF]. *)
Definition ReadFull (n : nat) (s : stream) : result error (gostr * stream) :=
  if (n <=? length (avail s))%nat
  then Ok (take n (avail s), mkStream (drop n (avail s)) (fin s))
  else match avail s with
       | [] => Err (fin s)
       | _ => Err (if error_eq (fin s) EOF then [ErrUnexpectedEOF] else fin s)
       end.

Lemma ReadFull_app a b e :
  ReadFull (length a) (mkStream (a ++ b) e) = Ok (a, mkStream b e).
Proof.
  unfold ReadFull. simpl. rewrite length_app.
  destruct (_ <=? _)%nat eqn:E; b2p; [|lia]. by rewrite take_app_length, drop_app_length.
Qed.

Lemma ReadFull_short n s :
  (length (avail s) < n)%nat -> exists e, ReadFull n s = Err e.
Proof.
  intros H. unfold ReadFull. destruct (_ <=? _)%nat eqn:E; b2p; [lia|].
  destruct (avail s); eauto.
Qed.

(** ** [tunnel.IsTeardown] ([internal/tunnel/session.go]) *)

Definition teardown_targets : list sentinel :=
  [EOF; ErrClosed; ErrStreamClosed; ErrSessionShutdown; ErrConnectionReset].

Definition IsTeardown (err : error) : bool := existsb (errors_is err) teardown_targets.

Lemma IsTeardown_plain s : IsTeardown [s] = bool_decide (s ∈ teardown_targets).
Proof. destruct s; vm_compute; done. Qed.
