(* ===== verification/Route.v ===== *)
(** * Host routing ([internal/route])

    [Normalize], [ValidatePattern], [Build] and [Match] of route.go, and the
    precedence they promise: exact over the longest wildcard over the
    default. *)

From S2P Require Import Prelude GoStrings.

(** ** Data *)

Record Entry (V : Type) := mkEntry { Pattern : gostr; Value : V }.
Arguments mkEntry {V}.
Arguments Pattern {V}.
Arguments Value {V}.

Record wildcard (V : Type) := mkWildcard { suffix : gostr; val : V }.
Arguments mkWildcard {V}.
Arguments suffix {V}.
Arguments val {V}.

(** [def] is the pair of the source's [def] and [hasDef]. *)
Record Matcher (V : Type) := mkMatcher {
  exact : gmap gostr V;
  wildcards : list (wildcard V);
  def : option V;
}.
Arguments mkMatcher {V}.
Arguments exact {V}.
Arguments wildcards {V}.
Arguments def {V}.

Section route.
Context `{Unicode}.

(** ** Operations *)

Definition Normalize (host : gostr) : gostr :=
  let host := TrimSpace host in
  let host := match SplitHostPort host with Ok (h, _) => h | Err _ => host end in
  let host := TrimSuffix host (bs ".") in
  ToLower host.

Inductive pattern_error :=
| EmptyPattern
| InvalidWildcard (p : gostr)
| InvalidPattern (p : gostr).

Definition ValidatePattern (p : gostr) : result pattern_error unit :=
  if beq p [] then Err EmptyPattern
  else if beq p (bs "*") then Ok tt
  else if HasPrefix p (bs "*.") then
    let rest := drop 2 p in
    if beq rest [] || Contains rest (bs "*") then Err (InvalidWildcard p)
    else Ok tt
  else if Contains p (bs "*") then Err (InvalidPattern p)
  else Ok tt.

(** The body of [Build]'s loop. *)
Definition build_step {V} (m : Matcher V) (e : Entry V) : Matcher V :=
  if beq (Pattern e) (bs "*") then
    mkMatcher (exact m) (wildcards m) (Some (Value e))
  else if HasPrefix (Pattern e) (bs "*.") then
    mkMatcher (exact m)
      (wildcards m ++ [mkWildcard (Normalize (drop 2 (Pattern e))) (Value e)])
      (def m)
  else
    mkMatcher (<[Normalize (Pattern e) := Value e]> (exact m)) (wildcards m) (def m).

Definition longer {V} (a b : wildcard V) : bool :=
  (length (suffix b) <? length (suffix a))%nat.

Definition Build {V} (entries : list (Entry V)) : Matcher V :=
  let m := fold_left build_step entries (mkMatcher ∅ [] None) in
  mkMatcher (exact m) (stable_sort longer (wildcards m)) (def m).

Fixpoint first_wildcard {V} (host : gostr) (ws : list (wildcard V)) : option V :=
  match ws with
  | [] => None
  | w :: ws => if HasSuffix host (bs "." ++ suffix w) then Some (val w)
               else first_wildcard host ws
  end.

Definition Match {V} (m : Matcher V) (host : gostr) : option V :=
  let host := Normalize host in
  match exact m !! host with
  | Some v => Some v
  | None =>
      match first_wildcard host (wildcards m) with
      | Some v => Some v
      | None => def m
      end
  end.

(** ** Specification: what a pattern covers and which pattern wins *)

Inductive pattern_kind :=
| PDefault
| PWild (suffix : gostr)
| PExact (host : gostr).

#[export] Instance pattern_kind_eq_dec : EqDecision pattern_kind.
Proof. solve_decision. Defined.

Definition classify (p : gostr) : pattern_kind :=
  if beq p (bs "*") then PDefault
  else if HasPrefix p (bs "*.") then PWild (Normalize (drop 2 p))
  else PExact (Normalize p).

(** [h] is an already normalized host. *)
Definition covers (k : pattern_kind) (h : gostr) : bool :=
  match k with
  | PDefault => true
  | PWild s => HasSuffix h (bs "." ++ s)
  | PExact x => beq x h
  end.

Definition outranks (a b : pattern_kind) : bool :=
  match a, b with
  | PExact _, PWild _ | PExact _, PDefault | PWild _, PDefault => true
  | PWild s, PWild t => (length t <? length s)%nat
  | _, _ => false
  end.

(** [e] is a best match for [h] among [entries]. *)
Definition best {V} (entries : list (Entry V)) (h : gostr) (e : Entry V) : Prop :=
  e ∈ entries /\ covers (classify (Pattern e)) h = true /\
  forall e', e' ∈ entries -> covers (classify (Pattern e')) h = true ->
    outranks (classify (Pattern e')) (classify (Pattern e)) = false.

(** ** What [Build] stores *)

Definition wild_of {V} (e : Entry V) : option (wildcard V) :=
  match classify (Pattern e) with
  | PWild s => Some (mkWildcard s (Value e))
  | _ => None
  end.

Definition exact_of {V} (k : gostr) (e : Entry V) : option V :=
  match classify (Pattern e) with
  | PExact h => if beq h k then Some (Value e) else None
  | _ => None
  end.

Definition default_of {V} (e : Entry V) : option V :=
  match classify (Pattern e) with PDefault => Some (Value e) | _ => None end.

(** The last value a partial function gives on a list, or [d]. *)
Definition last_or {A B} (f : A -> option B) (d : option B) (l : list A) : option B :=
  fold_left (fun acc x => match f x with Some b => Some b | None => acc end) l d.

Lemma last_or_Some {A B} (f : A -> option B) d l b :
  last_or f d l = Some b ->
  (exists x, x ∈ l /\ f x = Some b) \/ (d = Some b /\ forall x, x ∈ l -> f x = None).
Proof.
  revert d; induction l as [|x l IH]; intros d; simpl; [set_solver|].
  intros [(y & Hy & Hf)|[Hd Hn]]%IH; [set_solver|].
  destruct (f x) eqn:E; set_solver.
Qed.

Lemma last_or_None {A B} (f : A -> option B) d l :
  last_or f d l = None -> d = None /\ forall x, x ∈ l -> f x = None.
Proof.
  revert d; induction l as [|x l IH]; intros d; simpl; [set_solver|].
  intros [Hd Hn]%IH. destruct (f x) eqn:E; set_solver.
Qed.

Lemma build_fold {V} (entries : list (Entry V)) m :
  let m' := fold_left build_step entries m in
  (forall k, exact m' !! k = last_or (exact_of k) (exact m !! k) entries) /\
  wildcards m' = wildcards m ++ omap wild_of entries /\
  def m' = last_or default_of (def m) entries.
Proof.
  revert m; induction entries as [|e es IH]; intros m; simpl; [by rewrite app_nil_r|].
  destruct (IH (build_step m e)) as (He & Hw & Hd).
  rewrite Hw, Hd. clear IH Hw Hd. unfold build_step in *.
  assert (Hx : forall k, exact (build_step m e) !! k =
     match exact_of k e with Some b => Some b | None => exact m !! k end).
  { intros k. unfold build_step, exact_of, classify.
    destruct (beq (Pattern e) _); [done|].
    destruct (HasPrefix (Pattern e) _); [done|]. simpl.
    destruct (beq (Normalize (Pattern e)) k) eqn:Ek.
    - apply beq_true in Ek as <-. by rewrite lookup_insert_eq.
    - apply beq_false in Ek. by rewrite lookup_insert_ne. }
  split_and!.
  - intros k. rewrite He. unfold last_or at 2. simpl. rewrite <- Hx. done.
  - unfold wild_of, classify. repeat case_match; simplify_eq/=; try done.
    by rewrite <- app_assoc.
  - unfold last_or at 2, default_of at 3, classify. simpl.
    repeat case_match; simplify_eq/=; done.
Qed.

(** ** [Match] finds a best match *)

Lemma first_wildcard_None {V} h (ws : list (wildcard V)) :
  first_wildcard h ws = None -> forall w, w ∈ ws -> covers (PWild (suffix w)) h = false.
Proof.
  induction ws as [|w ws IH]; cbn [first_wildcard]; [set_solver|].
  destruct (HasSuffix h (bs "." ++ suffix w)) eqn:E; [done|].
  intros Hn w' [->|Hw]%elem_of_cons; [done|]. by apply IH.
Qed.

Lemma first_wildcard_Some {V} h (ws : list (wildcard V)) v :
  StronglySorted (fun x y => longer y x = false) ws ->
  first_wildcard h ws = Some v ->
  exists w, w ∈ ws /\ val w = v /\ covers (PWild (suffix w)) h = true /\
    forall w', w' ∈ ws -> covers (PWild (suffix w')) h = true -> longer w' w = false.
Proof.
  induction 1 as [|w ws Hs IH Hw]; cbn [first_wildcard]; [done|].
  destruct (HasSuffix h (bs "." ++ suffix w)) eqn:E.
  - intros [= <-]. exists w. split_and!; [set_solver|done|done|].
    intros w' [->|Hw']%elem_of_cons _; [unfold longer; apply Nat.ltb_irrefl|].
    by rewrite Forall_forall in Hw; apply Hw.
  - intros (w0 & Hin & Hv & Hc & Hmax)%IH. exists w0. split_and!; [set_solver|done|done|].
    intros w' [->|Hw']%elem_of_cons Hc'; [by unfold covers in Hc'; rewrite E in Hc'|]. by apply Hmax.
Qed.

Lemma build_wildcards {V} (entries : list (Entry V)) :
  StronglySorted (fun x y => longer y x = false) (wildcards (Build entries)) /\
  forall w, w ∈ wildcards (Build entries) <->
    exists e, e ∈ entries /\ classify (Pattern e) = PWild (suffix w) /\ Value e = val w.
Proof.
  destruct (build_fold entries (mkMatcher ∅ [] None)) as (_ & Hw & _).
  unfold Build. simpl. rewrite Hw. simpl. split.
  - apply stable_sort_sorted; unfold longer; intros *; rewrite ?Nat.ltb_lt, ?Nat.ltb_ge; lia.
  - intros w. rewrite stable_sort_perm, list_elem_of_omap.
    split; intros (e & He & Hk); exists e; (split; [done|]); unfold wild_of in *.
    + destruct (classify (Pattern e)); by simplify_eq/=.
    + destruct Hk as [-> ->]. by destruct w.
Qed.

Lemma build_exact {V} (entries : list (Entry V)) k v :
  exact (Build entries) !! k = Some v ->
  exists e, e ∈ entries /\ classify (Pattern e) = PExact k /\ Value e = v.
Proof.
  destruct (build_fold entries (mkMatcher ∅ [] None)) as (He & _ & _).
  unfold Build. simpl. rewrite He. simpl. rewrite lookup_empty.
  intros [(e & Hin & Hf)|[? _]]%last_or_Some; [|done].
  exists e. split; [done|]. unfold exact_of in Hf.
  destruct (classify (Pattern e)) as [|s|h]; try done.
  destruct (beq h k) eqn:E; [|done]. apply beq_true in E as ->. by simplify_eq.
Qed.

Lemma build_exact_None {V} (entries : list (Entry V)) k e :
  exact (Build entries) !! k = None -> e ∈ entries -> classify (Pattern e) <> PExact k.
Proof.
  destruct (build_fold entries (mkMatcher ∅ [] None)) as (He & _ & _).
  unfold Build. simpl. rewrite He. intros [_ Hn]%last_or_None Hin Hk.
  specialize (Hn e Hin). unfold exact_of in Hn. rewrite Hk in Hn.
  by rewrite (proj2 (beq_true k k)) in Hn.
Qed.

Lemma build_def {V} (entries : list (Entry V)) :
  (forall v, def (Build entries) = Some v ->
    exists e, e ∈ entries /\ classify (Pattern e) = PDefault /\ Value e = v) /\
  (def (Build entries) = None -> forall e, e ∈ entries -> classify (Pattern e) <> PDefault).
Proof.
  destruct (build_fold entries (mkMatcher ∅ [] None)) as (_ & _ & Hd).
  unfold Build. simpl. rewrite Hd. simpl. split.
  - intros v [(e & Hin & Hf)|[? _]]%last_or_Some; [|done].
    exists e. unfold default_of in Hf. destruct (classify (Pattern e)); by simplify_eq.
  - intros [_ Hn]%last_or_None e Hin Hk. specialize (Hn e Hin).
    unfold default_of in Hn. by rewrite Hk in Hn.
Qed.

Lemma match_None {V} (entries : list (Entry V)) host :
  Match (Build entries) host = None ->
  forall e, e ∈ entries -> covers (classify (Pattern e)) (Normalize host) = false.
Proof.
  unfold Match. set (h := Normalize host).
  destruct (exact _ !! h) eqn:Hx; [done|].
  destruct (first_wildcard h _) eqn:Hw; [done|]. intros Hd e Hin.
  destruct (classify (Pattern e)) as [|s|x] eqn:Hk; simpl.
  - by destruct (proj2 (build_def entries) Hd e Hin).
  - apply (first_wildcard_None _ _ Hw (mkWildcard s (Value e))).
    apply build_wildcards. eauto.
  - apply beq_false. intros ->. by eapply build_exact_None.
Qed.

Lemma match_sound {V} (entries : list (Entry V)) host v :
  Match (Build entries) host = Some v ->
  exists e, best entries (Normalize host) e /\ Value e = v.
Proof.
  unfold Match. set (h := Normalize host). unfold best.
  destruct (exact _ !! h) eqn:Hx.
  { intros [= ->]. apply build_exact in Hx as (e & Hin & Hk & Hv).
    exists e. rewrite Hk. split_and!; simpl; [done|by apply beq_true| |done].
    intros e' _ Hc. by destruct (classify (Pattern e')). }
  assert (Hnx : forall e x, e ∈ entries -> classify (Pattern e) = PExact x -> beq x h = false).
  { intros e x Hin Hk. apply beq_false. intros ->. by eapply build_exact_None. }
  destruct (first_wildcard h _) eqn:Hw.
  { intros [= ->]. destruct (build_wildcards entries) as [Hs Hel].
    apply first_wildcard_Some in Hw as (w & (e & Hin & Hk & Hv)%Hel & <- & Hc & Hmax); [|done].
    exists e. rewrite Hk. split_and!; try done.
    intros e' Hin' Hc'. destruct (classify (Pattern e')) as [|s'|x'] eqn:Hk'; [done| |].
    - apply (Hmax (mkWildcard s' (Value e'))); [|done]. apply Hel. eauto.
    - simpl in Hc'. by rewrite (Hnx e') in Hc'. }
  intros (e & Hin & Hk & Hv)%build_def.
  exists e. rewrite Hk. split_and!; try done.
  intros e' Hin' Hc'. destruct (classify (Pattern e')) as [|s'|x'] eqn:Hk'; [done| |].
  - enough (covers (PWild s') h = false) by congruence.
    apply (first_wildcard_None _ _ Hw (mkWildcard s' (Value e'))).
    apply build_wildcards. eauto.
  - simpl in Hc'. by rewrite (Hnx e') in Hc'.
Qed.

(** Two patterns that cover the same host, neither outranking the other, are
    the same pattern. *)
Lemma covers_antisym k k' h :
  covers k h = true -> covers k' h = true ->
  outranks k k' = false -> outranks k' k = false -> k = k'.
Proof.
  destruct k as [|s|x], k' as [|s'|x']; cbn [covers outranks]; try done.
  - intros [t Ht]%HasSuffix_spec [t' Ht']%HasSuffix_spec Hl Hl'. b2p.
    rewrite Ht in Ht'. rewrite !app_assoc in Ht'.
    apply app_inj_2 in Ht' as [_ ->]; [done|]. lia.
  - intros ->%beq_true ->%beq_true. done.
Qed.

(** The best entry is the one that matches. *)
Lemma match_best {V} (entries : list (Entry V)) host e :
  NoDup (map (fun e => classify (Pattern e)) entries) -> best entries (Normalize host) e ->
  Match (Build entries) host = Some (Value e).
Proof.
  intros Huniq (Hin & Hcov & Hmax). destruct (Match (Build entries) host) as [v|] eqn:E.
  - apply match_sound in E as (e' & (Hin' & Hcov' & Hmax') & <-). do 2 f_equal.
    apply (NoDup_map_inj_in (fun e => classify (Pattern e)) entries); auto.
    apply (covers_antisym _ _ (Normalize host)); auto.
  - rewrite (match_None entries host E e Hin) in Hcov. done.
Qed.

(** A host no pattern covers is not matched. *)
Lemma match_uncovered {V} (entries : list (Entry V)) host :
  (forall e, e ∈ entries -> covers (classify (Pattern e)) (Normalize host) = false) ->
  Match (Build entries) host = None.
Proof.
  intros Hn. destruct (Match (Build entries) host) as [v|] eqn:E; [|done].
  apply match_sound in E as (e & (Hin & Hcov & _) & _). by rewrite Hn in Hcov.
Qed.

(** [C5] Routing precedence: with patterns that are distinct once normalized,
    [Match] on the matcher [Build] makes returns [v] exactly when [v] is the
    value of the entry whose pattern covers the normalized host and is not
    outranked by another covering pattern (exact over the longest wildcard
    suffix over the default), and it reports no match exactly when no pattern
    covers the host. *)
Theorem match_build_spec {V} (entries : list (Entry V)) (host : gostr)
    (Huniq : NoDup (map (fun e => classify (Pattern e)) entries)) :
  (forall v, Match (Build entries) host = Some v <->
     exists e, best entries (Normalize host) e /\ Value e = v) /\
  (Match (Build entries) host = None <->
     forall e, e ∈ entries -> covers (classify (Pattern e)) (Normalize host) = false).
Proof.
  split.
  - intros v. split; [apply match_sound|]. intros (e & Hb & <-). by apply match_best.
  - split; [apply match_None|apply match_uncovered].
Qed.

(** ** Canonical spelling *)

(** A plain host name or port: ASCII, without white space, colons and
    brackets. *)
Definition plain_byte (c : ascii) : bool :=
  ascii_byte c && negb (space_byte c) &&
  negb (ceq c ":"%char || ceq c "["%char || ceq c "]"%char).
Definition plain (s : gostr) : bool := forallb plain_byte s.

Lemma plain_facts s :
  plain s = true ->
  is_ascii s = true /\ Forall (fun c => space_byte c = false) s /\
  (forall c, c ∈ s -> c <> ":"%char /\ c <> "["%char /\ c <> "]"%char).
Proof.
  unfold plain, is_ascii. rewrite !forallb_elem, Forall_forall. intros Hp.
  split_and!; intros c Hc%Hp; unfold plain_byte in Hc; b2p; try done.
  rewrite !ceq_false in *. naive_solver.
Qed.

(** Canonical host names: letter case, one trailing dot and a port do not
    matter.  For a plain host [h] that does not end in a dot, [Normalize] maps
    [h], [h.], [h:port] and [h.:port], in any letter case, to the lower-case
    [h]; the host a request names and the pattern of its route therefore meet
    however they are spelled. *)
Theorem normalize_canonical (h port : gostr) (dot hasport : bool)
    (Hh : plain h = true) (Hport : plain port = true)
    (Hdot : HasSuffix h (bs ".") = false) :
  Normalize (h ++ (if dot then bs "." else []) ++
                  (if hasport then bs ":" ++ port else [])) = map lower_byte h.
Proof.
  set (hd := h ++ (if dot then bs "." else [])).
  assert (Hhd : plain hd = true).
  { unfold hd, plain. rewrite forallb_app. apply andb_true_intro.
    split; [done|by destruct dot]. }
  assert (Hstrip : TrimSuffix hd (bs ".") = h).
  { unfold hd. destruct dot; [apply TrimSuffix_hit|].
    rewrite app_nil_r. by apply TrimSuffix_miss. }
  destruct (plain_facts h Hh) as (Ha & _ & _).
  destruct (plain_facts hd Hhd) as (Hda & Hds & Hdc).
  destruct (plain_facts port Hport) as (Hpa & Hps & Hpc).
  assert (Hfin : ToLower (TrimSuffix hd (bs ".")) = map lower_byte h).
  { rewrite Hstrip. unfold ToLower. by rewrite Ha. }
  rewrite app_assoc. fold hd. unfold Normalize. destruct hasport.
  - change (bs ":" ++ port) with (":"%char :: port). rewrite TrimSpace_id.
    + rewrite SplitHostPort_plain; [done|]. naive_solver.
    + rewrite is_ascii_app, Hda. done.
    + apply Forall_app. split; [done|]. apply Forall_cons. by split.
  - rewrite app_nil_r, TrimSpace_id by done.
    rewrite SplitHostPort_no_colon; [done|]. intros [[] _]%Hdc. done.
Qed.

End route.

(** ** Witnesses *)

Module RouteWitness.
#[local] Existing Instance ascii_only.

Definition table : list (Entry nat) :=
  [ mkEntry (bs "*") 0%nat; mkEntry (bs "*.example.com") 1%nat;
    mkEntry (bs "*.api.example.com") 2%nat; mkEntry (bs "www.Example.com.") 3%nat ].

Lemma match_build_spec_witness :
  Match (Build table) (bs "WWW.example.com:443") = Some 3%nat /\
  Match (Build table) (bs "v1.api.example.com") = Some 2%nat /\
  exists e, best table (Normalize (bs "v1.api.example.com")) e /\ Value e = 2%nat.
Proof.
  split; [vm_compute; reflexivity|]. split; [vm_compute; reflexivity|].
  apply (match_build_spec table (bs "v1.api.example.com")).
  - apply (bool_decide_unpack _). vm_compute. exact I.
  - vm_compute. reflexivity.
Defined.

Lemma normalize_canonical_witness :
  Normalize (bs "WWW.Example.com.:8443") = bs "www.example.com".
Proof.
  apply (normalize_canonical (bs "WWW.Example.com") (bs "8443") true true);
    vm_compute; reflexivity.
Defined.
End RouteWitness.
