(* ===== verification/Registry.v ===== *)
(** * The edge's session registry ([internal/edge/registry.go])

    The pool of live agent sessions by certificate fingerprint, the set of
    every open session with what it counts against, and the operations on
    them, each a whole critical section of the source under [registry.mu].
    Sessions ([*yamux.Session]) are their identities; whether a session has
    closed ([IsClosed]) is the state of the tunnel below, passed to the
    operations that read it. *)

From S2P Require Import Prelude GoStrings.

Abbreviation session := nat.

(** ** Data *)

(** The fields of an [agentConn] that never change; [c_id] is the pointer.
    The rest of its state is in AgentConn.v. *)
Record agentConn := mkAgentConn {
  c_id : nat;
  c_fp : gostr;
  c_sess : session;
  c_v2 : bool;
}.

#[export] Instance agentConn_eq_dec : EqDecision agentConn.
Proof. solve_decision. Defined.

Record tracked := mkTracked { t_fp : gostr; t_joined : bool }.

#[export] Instance tracked_eq_dec : EqDecision tracked.
Proof. solve_decision. Defined.

(** [joinedCh] is the channel's generation: each close-and-replace starts the
    next one, and a waiter on an older generation is woken. *)
Record registry := mkRegistry {
  byFP : gmap gostr (list agentConn);
  all : gmap session tracked;
  joined : gmap gostr Z;
  pending : gmap gostr Z;
  shared : gset gostr;
  closing : bool;
  joinedCh : nat;
}.

Definition newRegistry : registry := mkRegistry ∅ ∅ ∅ ∅ ∅ false 0.

Inductive registration := registered | refusedDuplicate | refusedCap | refusedGone.
Inductive trackResult := trackOK | trackClosing | trackCapped.

Definition maxSharedSessions : Z := 256.

(** [r.byFP[fp]]: an absent key reads as the empty pool. *)
Definition pool (r : registry) (fp : gostr) : list agentConn := default [] (byFP r !! fp).

Definition set_byFP (f : gmap gostr (list agentConn) -> gmap gostr (list agentConn))
    (r : registry) : registry :=
  mkRegistry (f (byFP r)) (all r) (joined r) (pending r) (shared r) (closing r) (joinedCh r).

(** ** Operations *)

Section operations.
Context (closed : session -> bool).

Definition joins (r : registry) : nat := joinedCh r.

Definition liveLocked (fp : gostr) (r : registry) : registry * list agentConn :=
  let conns := pool r fp in
  let live := List.filter (fun c => negb (closed (c_sess c))) conns in
  if (length live =? length conns)%nat then (r, conns)
  else if (length live =? 0)%nat then (set_byFP (delete fp) r, live)
  else (set_byFP <[fp := live]> r, live).

Definition duplicateLocked (r : registry) (fp : gostr) (live : list agentConn) : bool :=
  negb (bool_decide (fp ∈ shared r)) && (0 <? length live)%nat.

Definition hasLiveExclusive (fp : gostr) (r : registry) : registry * bool :=
  let '(r, live) := liveLocked fp r in (r, duplicateLocked r fp live).

Definition unpendLocked (fp : gostr) (r : registry) : registry :=
  mkRegistry (byFP r) (all r) (joined r) (mdec fp (pending r))
    (shared r) (closing r) (joinedCh r).

Definition track (fp : gostr) (s : session) (r : registry) : registry * trackResult :=
  if closing r then (r, trackClosing)
  else if maxSharedSessions <=? mget (pending r) fp then (r, trackCapped)
  else (mkRegistry (byFP r) (<[s := mkTracked fp false]> (all r)) (joined r)
          (<[fp := mget (pending r) fp + 1]> (pending r))
          (shared r) (closing r) (joinedCh r), trackOK).

Definition registerConn (fp : gostr) (c : agentConn) (r : registry) :
    registry * registration * nat :=
  let '(r, live) := liveLocked fp r in
  if closing r || closed (c_sess c) then (r, refusedGone, 0%nat)
  else if duplicateLocked r fp live then (r, refusedDuplicate, 0%nat)
  else if maxSharedSessions <=? mget (joined r) fp then (r, refusedCap, 0%nat)
  else
    let r := mkRegistry (<[fp := live ++ [c]]> (byFP r)) (all r) (joined r) (pending r)
               (shared r) (closing r) (S (joinedCh r)) in
    let r := match all r !! c_sess c with
             | Some t =>
                 if negb (t_joined t) then
                   unpendLocked fp
                     (mkRegistry (byFP r) (<[c_sess c := mkTracked (t_fp t) true]> (all r))
                        (<[fp := mget (joined r) fp + 1]> (joined r)) (pending r)
                        (shared r) (closing r) (joinedCh r))
                 else r
             | None => r
             end in
    (r, registered, length (pool r fp)).

Definition removeLocked (fp : gostr) (s : session) (r : registry) : registry :=
  let conns := pool r fp in
  if existsb (fun c => (c_sess c =? s)%nat) conns then
    let conns := remove_first (fun c => (c_sess c =? s)%nat) conns in
    if (length conns =? 0)%nat then set_byFP (delete fp) r
    else set_byFP <[fp := conns]> r
  else r.

Definition take (fp : gostr) (s : session) (r : registry) : registry := removeLocked fp s r.

Definition drop (s : session) (r : registry) : registry :=
  match all r !! s with
  | None => r
  | Some t =>
      let r := removeLocked (t_fp t) s r in
      let r :=
        if t_joined t then
          mkRegistry (byFP r) (all r) (mdec (t_fp t) (joined r))
            (pending r) (shared r) (closing r) (joinedCh r)
        else unpendLocked (t_fp t) r in
      mkRegistry (byFP r) (delete s (all r)) (joined r) (pending r)
        (shared r) (closing r) (joinedCh r)
  end.

Definition candidates (fps : list gostr) (r : registry) : list agentConn * list agentConn :=
  let conns := flat_map (pool r) fps in
  (List.filter (fun c => negb (closed (c_sess c))) conns,
   List.filter (fun c => closed (c_sess c)) conns).

(** The registry after [closeAll]'s critical section, and the sessions it
    then closes. *)
Definition closeAll (r : registry) : registry * gset session :=
  (mkRegistry (byFP r) (all r) (joined r) (pending r) (shared r) true (joinedCh r),
   dom (all r)).
End operations.

(** ** Invariant *)

(** A pooled session is tracked as joined under its pool's fingerprint; the
    two counters are the numbers of tracked sessions; no pool is kept empty
    and no counter is kept at zero; a certificate that may not be shared has
    one pooled session at most; both caps hold. *)
Record reg_inv (r : registry) : Prop := {
  inv_joined : forall fp, mget (joined r) fp = Z.of_nat (count_val (mkTracked fp true) (all r));
  inv_pending : forall fp, mget (pending r) fp = Z.of_nat (count_val (mkTracked fp false) (all r));
  inv_joined_pos : all_pos (joined r);
  inv_pending_pos : all_pos (pending r);
  inv_pool : forall fp l, byFP r !! fp = Some l ->
    l <> [] /\ NoDup (map c_sess l) /\
    forall c, c ∈ l -> c_fp c = fp /\ all r !! c_sess c = Some (mkTracked fp true);
  inv_exclusive : forall fp l, byFP r !! fp = Some l -> fp ∉ shared r -> length l = 1%nat;
  inv_joined_cap : forall fp, mget (joined r) fp <= maxSharedSessions;
  inv_pending_cap : forall fp, mget (pending r) fp <= maxSharedSessions;
}.

Lemma inv_pool_elem r fp c :
  reg_inv r -> c ∈ pool r fp -> c_fp c = fp /\ all r !! c_sess c = Some (mkTracked fp true).
Proof.
  intros Hr. unfold pool. destruct (byFP r !! fp) as [l|] eqn:E; simpl; [|set_solver].
  destruct (inv_pool r Hr fp l E) as (_ & _ & H). apply H.
Qed.

Lemma pool_NoDup r fp : reg_inv r -> NoDup (map c_sess (pool r fp)).
Proof.
  intros Hr. unfold pool. destruct (byFP r !! fp) as [l|] eqn:E; [|constructor].
  by apply (inv_pool r Hr fp l E).
Qed.

Lemma newRegistry_inv : reg_inv newRegistry.
Proof.
  split; intros fp; intros; simpl in *;
    rewrite ?lookup_empty in *; rewrite ?count_val_empty; done.
Qed.

(** Replacing a pool by a part of it keeps the invariant. *)
Lemma shrink_pool_inv r fp l :
  reg_inv r -> sublist l (pool r fp) ->
  reg_inv (set_byFP (if (length l =? 0)%nat then delete fp else <[fp := l]>) r).
Proof.
  intros Hr Hl. destruct Hr as [Hj Hp Hjp Hpp Hpool Hex Hjc Hpc].
  assert (Hb : forall fp' l', (if (length l =? 0)%nat then delete fp else <[fp := l]>) (byFP r) !! fp' = Some l' ->
     byFP r !! fp' = Some l' \/ (fp' = fp /\ l' = l /\ l <> [] /\ exists l0, byFP r !! fp = Some l0 /\ sublist l l0)).
  { intros fp' l' H. destruct (length l =? 0)%nat eqn:E; b2p.
    - apply lookup_delete_Some in H as [_ H]. by left.
    - apply lookup_insert_Some in H as [[<- <-]|[_ H]]; [|by left].
      right. split_and!; [done|done|by intros ->|].
      unfold pool in Hl. destruct (byFP r !! fp) as [l0|] eqn:E0; simpl in Hl; [by eauto|].
      apply sublist_nil_r in Hl as ->. done. }
  split; try done; simpl.
  - intros fp' l' [H|(-> & -> & Hne & l0 & H0 & Hs)]%Hb; [by apply Hpool|].
    destruct (Hpool fp l0 H0) as (_ & Hnd & He). split_and!; [done| |].
    + eapply sublist_NoDup; [exact Hnd|]. by apply sublist_map.
    + intros c Hc. apply He. by eapply elem_of_sublist.
  - intros fp' l' [H|(-> & -> & Hne & l0 & H0 & Hs)]%Hb Hns; [by apply (Hex fp')|].
    specialize (Hex fp l0 H0 Hns). apply sublist_length in Hs.
    destruct l; [done|]. simpl in *. lia.
Qed.

(** What the operations on one pool leave alone. *)
Definition same_but_pools (r r' : registry) : Prop :=
  all r' = all r /\ joined r' = joined r /\ pending r' = pending r /\
  shared r' = shared r /\ closing r' = closing r /\ joinedCh r' = joinedCh r.

Lemma pool_set_byFP r fp fp' l :
  pool (set_byFP (if (length l =? 0)%nat then delete fp else <[fp := l]>) r) fp' =
  if decide (fp = fp') then l else pool r fp'.
Proof.
  unfold pool, set_byFP. simpl. destruct (length l =? 0)%nat eqn:E; b2p.
  - apply nil_length_inv in E as ->. rewrite lookup_delete. by case_decide.
  - rewrite lookup_insert. by case_decide.
Qed.

Lemma liveLocked_spec closed fp r r' live :
  liveLocked closed fp r = (r', live) ->
  live = List.filter (fun c => negb (closed (c_sess c))) (pool r fp) /\
  same_but_pools r r' /\
  (forall fp', pool r' fp' = if decide (fp = fp') then live else pool r fp') /\
  (reg_inv r -> reg_inv r').
Proof.
  unfold liveLocked. set (live0 := List.filter _ _).
  assert (Hs : sublist live0 (pool r fp)) by apply filter_sublist.
  destruct (length live0 =? length (pool r fp))%nat eqn:E; b2p.
  - intros [= <- <-]. apply filter_full_length in E. split; [by symmetry|]. split; [by unfold same_but_pools|].
    split; [|done]. intros fp'. case_decide; by subst.
  - pose proof (pool_set_byFP r fp) as Hp. pose proof (fun H => shrink_pool_inv r fp live0 H Hs) as Hi.
    specialize (fun fp' => Hp fp' live0).
    destruct (length live0 =? 0)%nat; intros [= <- <-]; split_and!; try done.
Qed.

Lemma removeLocked_spec fp s r :
  same_but_pools r (removeLocked fp s r) /\
  (forall fp', pool (removeLocked fp s r) fp' =
     if decide (fp = fp') then remove_first (fun c => (c_sess c =? s)%nat) (pool r fp)
     else pool r fp') /\
  (reg_inv r -> reg_inv (removeLocked fp s r)).
Proof.
  unfold removeLocked. set (rest := remove_first _ _).
  assert (Hs : sublist rest (pool r fp)) by apply remove_first_sublist.
  destruct (existsb _ (pool r fp)) eqn:E.
  - pose proof (pool_set_byFP r fp) as Hp. pose proof (fun H => shrink_pool_inv r fp rest H Hs) as Hi.
    specialize (fun fp' => Hp fp' rest).
    destruct (length rest =? 0)%nat; split_and!; done.
  - split; [by unfold same_but_pools|]. split; [|done]. intros fp'. case_decide; [|done]. subst.
    unfold rest. symmetry. apply remove_first_none. done.
Qed.

(** A session is removed from its pool, and only it. *)
Lemma removeLocked_elem fp s r c fp' :
  reg_inv r ->
  c ∈ pool (removeLocked fp s r) fp' <->
  c ∈ pool r fp' /\ ~ (fp = fp' /\ c_sess c = s).
Proof.
  intros Hr. destruct (removeLocked_spec fp s r) as (_ & Hp & _). rewrite Hp.
  case_decide as Hfp; [subst|naive_solver].
  rewrite remove_first_unique with (f := c_sess) (y := s).
  - naive_solver.
  - intros x. apply Nat.eqb_eq.
  - by apply pool_NoDup.
Qed.

Lemma track_inv fp s r r' res :
  track fp s r = (r', res) -> all r !! s = None -> reg_inv r -> reg_inv r'.
Proof.
  unfold track. intros Htr Hs Hr.
  destruct (closing r); [by simplify_eq|].
  destruct (_ <=? _) eqn:Hcap; [by simplify_eq|]. b2p.
  injection Htr as <- <-. destruct Hr as [Hj Hp Hjp Hpp Hpool Hex Hjc Hpc].
  split; simpl; try done.
  - intros fp'. rewrite Hj, count_val_new by done. rewrite decide_False; [done|congruence].
  - intros fp'. rewrite mget_insert, count_val_new by done.
    repeat case_decide; simplify_eq; rewrite ?Hp; lia.
  - apply all_pos_insert; [rewrite Hp; lia|done].
  - intros fp' l Hl. destruct (Hpool fp' l Hl) as (? & ? & Hc). split_and!; try done.
    intros c [? Hsc]%Hc. split; [done|]. rewrite lookup_insert_ne; [done|congruence].
  - intros fp'. rewrite mget_insert. case_decide; [lia|done].
Qed.

(** A pending session joins the sessions of a pool. *)
Lemma enroll_pool fp c (live : list agentConn) (sessions : gmap session tracked) :
  c_fp c = fp -> sessions !! c_sess c = Some (mkTracked fp false) ->
  NoDup (map c_sess live) ->
  (forall c', c' ∈ live -> c_fp c' = fp /\ sessions !! c_sess c' = Some (mkTracked fp true)) ->
  live ++ [c] <> [] /\ NoDup (map c_sess (live ++ [c])) /\
  forall c', c' ∈ live ++ [c] -> c_fp c' = fp /\
    (<[c_sess c := mkTracked fp true]> sessions) !! c_sess c' = Some (mkTracked fp true).
Proof.
  intros Hfp Hs Hnd Hin.
  assert (Hne : forall c', c' ∈ live -> c_sess c' <> c_sess c).
  { intros c' [_ H']%Hin E. rewrite E in H'. congruence. }
  split_and!; [by destruct live| |].
  - rewrite map_app. simpl. apply NoDup_app. split_and!; [done| |apply NoDup_singleton].
    intros s (c' & -> & Hc')%list_elem_of_fmap Hx%list_elem_of_singleton. by eapply Hne.
  - intros c' [Hc'|[->|[]%elem_of_nil]%elem_of_cons]%elem_of_app.
    + split; [by apply Hin|]. rewrite lookup_insert_ne by (by apply not_eq_sym, Hne).
      by apply Hin.
    + split; [done|]. by rewrite lookup_insert_eq.
Qed.

Lemma registerConn_inv closed fp c r r' res n :
  registerConn closed fp c r = (r', res, n) ->
  c_fp c = fp -> all r !! c_sess c = Some (mkTracked fp false) ->
  reg_inv r -> reg_inv r'.
Proof.
  unfold registerConn. intros Hreg Hfp Hs Hr.
  destruct (liveLocked closed fp r) as [r1 live] eqn:Hl.
  apply liveLocked_spec in Hl as (Hlive & (Ha & Hj & Hp & Hsh & Hcl & Hch) & Hpool & Hinv).
  specialize (Hinv Hr).
  destruct (_ || _) eqn:Hgone; [by simplify_eq|].
  destruct (duplicateLocked r1 fp live) eqn:Hdup; [by simplify_eq|].
  destruct (_ <=? _) eqn:Hcap; [by simplify_eq|]. b2p.
  rewrite Ha in Hreg. simpl in Hreg. rewrite Hs in Hreg. simpl in Hreg.
  injection Hreg as <- <- <-.
  assert (Hfl : pool r1 fp = live) by (rewrite Hpool; by rewrite decide_True).
  assert (Hin : forall c', c' ∈ live -> c_fp c' = fp /\ all r !! c_sess c' = Some (mkTracked fp true)).
  { intros c'. rewrite <- Hfl, <- Ha. by apply inv_pool_elem. }
  assert (Hnd : NoDup (map c_sess live)) by (rewrite <- Hfl; by apply pool_NoDup).
  destruct Hinv as [Ij Ip Ijp Ipp Ipool Iex Ijc Ipc].
  assert (Hold : mget (pending r1) fp >= 1).
  { rewrite Ip, Ha, (count_val_delete _ _ _ _ Hs), decide_True by done. lia. }
  assert (Hmove := fun v => count_val_update v _ (mkTracked fp true) _ _ Hs).
  split; simpl.
  - intros fp'. rewrite mget_insert, ?Ij, Ha. specialize (Hmove (mkTracked fp' true)).
    repeat case_decide; simplify_eq; lia.
  - intros fp'. rewrite mget_mdec, ?Ip, Ha in *. specialize (Hmove (mkTracked fp' false)).
    repeat case_decide; simplify_eq; lia.
  - apply all_pos_insert; [rewrite Ij; lia|done].
  - by apply all_pos_mdec.
  - intros fp' l [[<- <-]|[Hn Hl]]%lookup_insert_Some.
    + by apply enroll_pool.
    + destruct (Ipool fp' l Hl) as (? & ? & Hc). split_and!; try done.
      intros c' [? Hc']%Hc. split; [done|]. rewrite Ha in Hc'. rewrite lookup_insert_ne; [done|].
      intros E. rewrite <- E in Hc'. congruence.
  - intros fp' l [[<- <-]|[Hn Hl]]%lookup_insert_Some Hns; [|by eapply Iex].
    unfold duplicateLocked in Hdup. rewrite bool_decide_false in Hdup by done. simpl in Hdup. b2p.
    rewrite length_app. simpl. lia.
  - intros fp'. rewrite mget_insert. case_decide; [lia|done].
  - intros fp'. rewrite mget_mdec. pose proof (Ipc fp). specialize (Ipc fp').
    unfold maxSharedSessions in *. case_decide; lia.
Qed.

Lemma drop_inv s r : reg_inv r -> reg_inv (drop s r).
Proof.
  intros Hr. unfold drop. destruct (all r !! s) as [[fp j]|] eqn:Hs; [|done]. simpl.
  destruct (removeLocked_spec fp s r) as ((Ha & Hj & Hp & Hsh & _) & _ & Hi).
  specialize (Hi Hr). pose proof (removeLocked_elem fp s r) as Hel.
  set (r1 := removeLocked fp s r) in *. rewrite <- Ha in Hs.
  destruct Hi as [Ij Ip Ijp Ipp Ipool Iex Ijc Ipc].
  assert (Hcount : forall v, count_val v (all r1) =
    ((if decide (mkTracked fp j = v) then 1 else 0) + count_val v (delete s (all r1)))%nat)
    by (intros; by apply count_val_delete).
  assert (Hpool : forall fp' l, byFP r1 !! fp' = Some l -> l <> [] /\ NoDup (map c_sess l) /\
    forall c, c ∈ l -> c_fp c = fp' /\ delete s (all r1) !! c_sess c = Some (mkTracked fp' true)).
  { intros fp' l Hl. destruct (Ipool fp' l Hl) as (? & ? & Hc). split_and!; try done.
    intros c Hin. destruct (Hc c Hin) as [? Hc']. split; [done|].
    rewrite lookup_delete_ne; [done|]. intros ->.
    assert (Hp' : c ∈ pool r1 fp') by (unfold pool; by rewrite Hl).
    apply Hel in Hp' as [_ Hn]; [|done]. apply Hn. rewrite Hs in Hc'. naive_solver. }
  assert (Hct := fun fp' => Hcount (mkTracked fp' true)).
  assert (Hcf := fun fp' => Hcount (mkTracked fp' false)).
  destruct j; split; simpl; try done; try (by apply all_pos_mdec); intros fp'; unfold maxSharedSessions in *;
    rewrite ?mget_mdec, ?Ij, ?Ip; specialize (Hct fp'); specialize (Hcf fp');
    specialize (Ijc fp'); specialize (Ipc fp'); rewrite ?Ij, ?Ip in *;
    repeat case_decide; simplify_eq; first [lia | congruence].
Qed.

Lemma closeAll_inv r : reg_inv r -> reg_inv (closeAll r).1.
Proof. intros []. by split. Qed.

(** ** The registry in use: interleavings of its critical sections *)

(** The registry and the sessions that have closed.  A session closes on its
    own ([EClosed]: the agent, an eviction, or [closeAll]'s closes), between
    any two critical sections. *)
Record world := mkWorld { w_reg : registry; w_closed : gset session }.

Definition isClosed (w : world) (s : session) : bool := bool_decide (s ∈ w_closed w).

Inductive event :=
| ETrack (fp : gostr) (s : session)       (* serveAgent: a new session *)
| ERegister (c : agentConn)               (* serveAgent: after the ping *)
| EHasLive (fp : gostr)                   (* serveAgent: the duplicate check *)
| ETake (fp : gostr) (s : session)        (* evict, retire *)
| EDrop (s : session)                     (* serveAgent's deferred cleanup *)
| EClosed (s : session)
| ECloseAll.

(** What the callers guarantee: a session is tracked once while it is open,
    and registered by the goroutine that tracked it, before it is dropped. *)
Definition enabled (e : event) (w : world) : Prop :=
  match e with
  | ETrack _ s => all (w_reg w) !! s = None
  | ERegister c => all (w_reg w) !! c_sess c = Some (mkTracked (c_fp c) false)
  | _ => True
  end.

Definition exec (e : event) (w : world) : world :=
  let r := w_reg w in
  match e with
  | ETrack fp s => mkWorld (track fp s r).1 (w_closed w)
  | ERegister c => mkWorld (registerConn (isClosed w) (c_fp c) c r).1.1 (w_closed w)
  | EHasLive fp => mkWorld (hasLiveExclusive (isClosed w) fp r).1 (w_closed w)
  | ETake fp s => mkWorld (take fp s r) (w_closed w)
  | EDrop s => mkWorld (drop s r) (w_closed w)
  | EClosed s => mkWorld r ({[s]} ∪ w_closed w)
  | ECloseAll => mkWorld (closeAll r).1 (w_closed w)
  end.

Definition step : world -> world -> Prop := steps enabled exec.

Lemma reg_exec_inv e w : enabled e w -> reg_inv (w_reg w) -> reg_inv (w_reg (exec e w)).
Proof.
  destruct e as [fp s|c|fp|fp s|s|s|]; simpl; intros He Hr.
  - destruct (track fp s (w_reg w)) eqn:E. by eapply track_inv.
  - destruct (registerConn _ _ c _) as [[r' res] n] eqn:E. by eapply registerConn_inv.
  - unfold hasLiveExclusive. destruct (liveLocked _ _ _) as [r' live] eqn:E.
    by apply liveLocked_spec in E as (_ & _ & _ & Hi); apply Hi.
  - destruct (removeLocked_spec fp s (w_reg w)) as (_ & _ & Hi). by apply Hi.
  - by apply drop_inv.
  - done.
  - by apply closeAll_inv.
Qed.

Lemma reg_steps_inv w w' : rtc step w w' -> reg_inv (w_reg w) -> reg_inv (w_reg w').
Proof.
  apply (steps_invariant enabled exec (fun w => reg_inv (w_reg w))). intros. by apply reg_exec_inv.
Qed.

(** The world an edge starts in: no session, the configured shared set. *)
Definition initial (sh : gset gostr) : world :=
  mkWorld (mkRegistry ∅ ∅ ∅ ∅ sh false 0) ∅.

Lemma initial_inv sh : reg_inv (w_reg (initial sh)).
Proof. destruct newRegistry_inv. by split. Qed.

(** [shared] is never changed by the operations. *)
Lemma exec_shared e w : shared (w_reg (exec e w)) = shared (w_reg w).
Proof.
  destruct e as [fp s|c|fp|fp s|s|s|]; simpl; try done.
  - unfold track. repeat split_match; done.
  - unfold registerConn. destruct (liveLocked _ _ _) as [r1 live] eqn:E.
    apply liveLocked_spec in E as (_ & (_ & _ & _ & Hs & _) & _).
    repeat split_match; simpl; rewrite <- Hs; done.
  - unfold hasLiveExclusive. destruct (liveLocked _ _ _) as [r1 live] eqn:E.
    by apply liveLocked_spec in E as (_ & (_ & _ & _ & Hs & _) & _).
  - by destruct (removeLocked_spec fp s (w_reg w)) as ((_ & _ & _ & Hs & _) & _).
  - unfold drop. destruct (all (w_reg w) !! s) as [[fp j]|] eqn:E; [|done]. simpl.
    destruct (removeLocked_spec fp s (w_reg w)) as ((_ & _ & _ & Hs & _) & _).
    by destruct j.
Qed.

(** The tracked sessions only shrink, except by [track] on an open edge. *)
Lemma exec_tracked e w :
  dom (all (w_reg (exec e w))) ⊆ dom (all (w_reg w)) \/
  exists fp s, e = ETrack fp s /\ closing (w_reg w) = false.
Proof.
  destruct e as [fp s|c|fp|fp s|s|s|]; simpl; try by left.
  - unfold track. destruct (closing (w_reg w)) eqn:E; [by left|]. eauto 6.
  - left. unfold registerConn. destruct (liveLocked _ _ _) as [r1 live] eqn:E.
    apply liveLocked_spec in E as (_ & (Ha & _) & _).
    repeat split_match; simpl in *; rewrite ?dom_insert_L, ?Ha; try done.
    apply union_subseteq; split; [|done].
    apply singleton_subseteq_l, elem_of_dom. rewrite <- Ha. eauto.
  - left. unfold hasLiveExclusive. destruct (liveLocked _ _ _) as [r1 live] eqn:E.
    apply liveLocked_spec in E as (_ & (Ha & _) & _). simpl. by rewrite Ha.
  - left. destruct (removeLocked_spec fp s (w_reg w)) as ((Ha & _) & _).
    unfold take. by rewrite Ha.
  - left. unfold drop. destruct (all (w_reg w) !! s) as [[fp j]|] eqn:E; [|done]. simpl.
    destruct (removeLocked_spec fp s (w_reg w)) as ((Ha & _) & _).
    destruct j; simpl; rewrite dom_delete_L, Ha; set_solver.
Qed.

Lemma exec_closing e w : closing (w_reg w) = true -> closing (w_reg (exec e w)) = true.
Proof.
  destruct e as [fp s|c|fp|fp s|s|s|]; simpl; intros Hc; try done.
  - unfold track. by rewrite Hc.
  - unfold registerConn. destruct (liveLocked _ _ _) as [r1 live] eqn:E.
    apply liveLocked_spec in E as (_ & (_ & _ & _ & _ & Hs & _) & _). rewrite Hs, Hc. simpl. by rewrite Hs.
  - unfold hasLiveExclusive. destruct (liveLocked _ _ _) as [r1 live] eqn:E.
    apply liveLocked_spec in E as (_ & (_ & _ & _ & _ & Hs & _) & _). simpl. by rewrite Hs.
  - destruct (removeLocked_spec fp s (w_reg w)) as ((_ & _ & _ & _ & Hs & _) & _).
    unfold take. by rewrite Hs.
  - unfold drop. destruct (all (w_reg w) !! s) as [[fp j]|] eqn:E; [|done]. simpl.
    destruct (removeLocked_spec fp s (w_reg w)) as ((_ & _ & _ & _ & Hs & _) & _).
    destruct j; simpl; by rewrite Hs.
Qed.

Lemma closing_frozen w w' :
  rtc step w w' -> closing (w_reg w) = true ->
  dom (all (w_reg w')) ⊆ dom (all (w_reg w)) /\ w_closed w ⊆ w_closed w'.
Proof.
  induction 1 as [w|w1 w2 w3 [e [_ ->]] _ IH]; intros Hc; [done|].
  destruct (IH (exec_closing e w1 Hc)) as [Hd Hcl].
  destruct (exec_tracked e w1) as [Hs|(? & ? & _ & ?)]; [|congruence].
  split; [by etrans|]. etrans; [|exact Hcl].
  destruct e; simpl; set_solver.
Qed.

(** ** A session's life *)

Inductive phase := Connecting | Pooled | Retired.

Definition pooled (r : registry) (fp : gostr) (s : session) : bool :=
  existsb (fun c => (c_sess c =? s)%nat) (pool r fp).

(** Where a session stands: not tracked, connecting, in the pool, or taken out
    of it while it drains. *)
Definition phase_of (r : registry) (s : session) : option (gostr * phase) :=
  t ← all r !! s;
  Some (t_fp t, if t_joined t then if pooled r (t_fp t) s then Pooled else Retired
                else Connecting).

Inductive lifecycle : option (gostr * phase) -> option (gostr * phase) -> Prop :=
| lc_same p : lifecycle p p
| lc_track fp : lifecycle None (Some (fp, Connecting))
| lc_join fp : lifecycle (Some (fp, Connecting)) (Some (fp, Pooled))
| lc_retire fp : lifecycle (Some (fp, Pooled)) (Some (fp, Retired))
| lc_drop p : lifecycle (Some p) None.
#[local] Hint Constructors lifecycle : coen.

Lemma pooled_spec r fp s : pooled r fp s = true <-> exists c, c ∈ pool r fp /\ c_sess c = s.
Proof.
  unfold pooled. rewrite existsb_exists. setoid_rewrite <- list_elem_of_In.
  by setoid_rewrite Nat.eqb_eq.
Qed.

(** Pools that only lose sessions move them from pooled to retired. *)
Lemma phase_shrink r r' s :
  all r' !! s = all r !! s ->
  (forall fp c, c_sess c = s -> c ∈ pool r' fp -> c ∈ pool r fp) ->
  lifecycle (phase_of r s) (phase_of r' s).
Proof.
  intros Ha Hsub. unfold phase_of. rewrite Ha.
  destruct (all r !! s) as [[fp [|]]|]; simpl; try constructor.
  destruct (pooled r' fp s) eqn:E', (pooled r fp s) eqn:E; try constructor.
  apply pooled_spec in E' as (c & Hc & Hs). apply Hsub in Hc; [|done].
  rewrite (proj2 (pooled_spec r fp s)) in E; [done|by eauto].
Qed.

Lemma liveLocked_shrink closed fp r r' live fp' c :
  liveLocked closed fp r = (r', live) -> c ∈ pool r' fp' -> c ∈ pool r fp'.
Proof.
  intros (Hl & _ & Hp & _)%liveLocked_spec. rewrite Hp. case_decide; [subst|done].
  by intros [? _]%elem_of_filter_bool.
Qed.

Lemma registerConn_lifecycle closed fp c r r' res n s :
  registerConn closed fp c r = (r', res, n) ->
  all r !! c_sess c = Some (mkTracked fp false) -> reg_inv r ->
  lifecycle (phase_of r s) (phase_of r' s).
Proof.
  unfold registerConn. intros Hreg Hc Hr.
  destruct (liveLocked closed fp r) as [r1 live] eqn:Hl.
  pose proof (fun fp' c' => liveLocked_shrink _ _ _ _ _ fp' c' Hl) as Hsub.
  apply liveLocked_spec in Hl as (Hlive & (Ha & _) & Hpool & _).
  assert (Hsh : lifecycle (phase_of r s) (phase_of r1 s)).
  { apply phase_shrink; [by rewrite Ha|eauto]. }
  destruct (_ || _); [by simplify_eq|].
  destruct (duplicateLocked _ _ _); [by simplify_eq|].
  destruct (_ <=? _); [by simplify_eq|]. simpl in Hreg.
  rewrite Ha, Hc in Hreg. simpl in Hreg. injection Hreg as <- <- <-.
  destruct (decide (s = c_sess c)) as [->|Hs].
  - assert (Hp : phase_of r (c_sess c) = Some (fp, Connecting))
      by (unfold phase_of; by rewrite Hc).
    rewrite Hp. unfold phase_of. simpl. rewrite lookup_insert_eq. simpl.
    rewrite (proj2 (pooled_spec _ fp (c_sess c))); [constructor|].
    exists c. unfold pool. simpl. rewrite lookup_insert_eq. simpl. set_solver.
  - apply phase_shrink; simpl; [by rewrite lookup_insert_ne|].
    intros fp' c' Hs'. unfold pool at 1. simpl. rewrite lookup_insert. case_decide; simpl.
    + subst. intros [Hin|?%list_elem_of_singleton]%elem_of_app; [|congruence].
      by apply elem_of_filter_bool in Hin as [? _].
    + intros Hin. apply Hsub. by unfold pool.
Qed.

Lemma exec_lifecycle e w s :
  enabled e w -> reg_inv (w_reg w) ->
  lifecycle (phase_of (w_reg w) s) (phase_of (w_reg (exec e w)) s).
Proof.
  destruct e as [fp s0|c|fp|fp s0|s0|s0|]; simpl; intros He Hr; try by constructor.
  - unfold track. repeat split_match; try by constructor. simpl.
    destruct (decide (s0 = s)) as [->|Hne].
    + unfold phase_of. simpl. rewrite He, lookup_insert_eq. constructor.
    + unfold phase_of. simpl. rewrite lookup_insert_ne by done. constructor.
  - destruct (registerConn _ _ c _) as [[r' res] n] eqn:E. by eapply registerConn_lifecycle.
  - unfold hasLiveExclusive. destruct (liveLocked _ _ _) as [r' live] eqn:E.
    pose proof E as (_ & (Ha & _) & _)%liveLocked_spec.
    apply phase_shrink; [simpl; by rewrite Ha|]. intros. by eapply liveLocked_shrink.
  - destruct (removeLocked_spec fp s0 (w_reg w)) as ((Ha & _) & _).
    apply phase_shrink; [unfold take; by rewrite Ha|].
    intros fp' c _ [? _]%removeLocked_elem; done.
  - unfold drop. destruct (all (w_reg w) !! s0) as [[fp j]|] eqn:E; [|constructor]. simpl.
    destruct (removeLocked_spec fp s0 (w_reg w)) as ((Ha & _) & _).
    destruct (decide (s0 = s)) as [->|Hne].
    + unfold phase_of at 2. destruct j; simpl; rewrite lookup_delete_eq; simpl;
        unfold phase_of; rewrite E; constructor.
    + apply phase_shrink; [destruct j; simpl; by rewrite lookup_delete_ne, Ha|].
      intros fp' c _ Hin. apply (removeLocked_elem fp s0 _ c fp' Hr). by destruct j.
Qed.

(** ** Properties *)

(** [C7] Registry invariant: in every state an edge's registry can reach, by
    any interleaving of its critical sections with sessions closing, the
    per-certificate counters are exactly the numbers of tracked sessions that
    joined the pool and that are still connecting, every pooled session is
    tracked under its own fingerprint and pooled once, no empty pool and no
    spent counter is kept, a certificate not marked shared has at most one
    pooled session, and both session caps hold. *)
Theorem registry_reachable_inv (sh : gset gostr) (w : world)
    (Hw : rtc step (initial sh) w) :
  reg_inv (w_reg w) /\ shared (w_reg w) = sh.
Proof.
  split; [by apply (reg_steps_inv _ _ Hw), initial_inv|].
  enough (shared (w_reg w) = shared (w_reg (initial sh))) as -> by done.
  induction Hw as [|w1 w2 w3 [e [_ ->]] _ IH]; [done|]. by rewrite IH, exec_shared.
Qed.

(** A leaked certificate is bounded: whatever the agents do, the edge
    holds at most twice [maxSharedSessions] open sessions of one
    fingerprint. *)
Theorem sessions_per_certificate (sh : gset gostr) (w : world) (fp : gostr)
    (Hw : rtc step (initial sh) w) :
  Z.of_nat (count_val (mkTracked fp true) (all (w_reg w)) +
            count_val (mkTracked fp false) (all (w_reg w))) <= 2 * maxSharedSessions.
Proof.
  pose proof (reg_steps_inv _ _ Hw (initial_inv sh)) as Hr.
  pose proof (inv_joined_cap _ Hr fp) as Hj. rewrite (inv_joined _ Hr) in Hj.
  pose proof (inv_pending_cap _ Hr fp) as Hp. rewrite (inv_pending _ Hr) in Hp. lia.
Qed.

(** A serving agent is not displaced: while a certificate that may not be
    shared has an open pooled session, registering another connection with it
    is refused, as a duplicate or because the newcomer is gone or the edge is
    closing, and the open pooled sessions are exactly those it had. *)
Theorem exclusive_incumbent_kept (closed : session -> bool) (fp : gostr) (r : registry)
    (c0 c : agentConn)
    (Hexcl : fp ∉ shared r) (Hpool : c0 ∈ pool r fp) (Hopen : closed (c_sess c0) = false) :
  let '(r', res, _) := registerConn closed fp c r in
  (res = refusedDuplicate \/ res = refusedGone) /\
  pool r' fp = List.filter (fun c => negb (closed (c_sess c))) (pool r fp) /\
  c0 ∈ pool r' fp.
Proof.
  unfold registerConn. destruct (liveLocked closed fp r) as [r1 live] eqn:Hl.
  apply liveLocked_spec in Hl as (Hlive & (_ & _ & _ & Hsh & _) & Hp & _).
  assert (Hin : c0 ∈ live) by (rewrite Hlive; apply elem_of_filter_bool; by rewrite Hopen).
  assert (Hpf : pool r1 fp = live) by (rewrite Hp; by rewrite decide_True).
  assert (Hdup : duplicateLocked r1 fp live = true).
  { unfold duplicateLocked. rewrite Hsh, bool_decide_false by done.
    by destruct live; [apply not_elem_of_nil in Hin|]. }
  destruct (_ || _); [|rewrite Hdup]; rewrite Hpf, <- Hlive; eauto.
Qed.

(** Registration decides as it says: a connection is pooled exactly when
    the edge is not closing, the session is open, the certificate is shared or
    has no open pooled session, and it is below the cap; then it joins the end
    of its pool of open sessions, the count returned is that pool's size, and
    requests waiting for a join are woken.  Refused, it leaves the open pooled
    sessions and the waiters as they were.  Other pools are never touched. *)
Theorem registerConn_decides (closed : session -> bool) (fp : gostr) (c : agentConn)
    (r : registry) :
  let live := List.filter (fun c => negb (closed (c_sess c))) (pool r fp) in
  let '(r', res, n) := registerConn closed fp c r in
  (res = registered <->
     closing r = false /\ closed (c_sess c) = false /\
     (fp ∈ shared r \/ live = []) /\ mget (joined r) fp < maxSharedSessions) /\
  (res = registered ->
     pool r' fp = live ++ [c] /\ n = length (pool r' fp) /\ joinedCh r' = S (joinedCh r)) /\
  (res <> registered ->
     pool r' fp = live /\ n = 0%nat /\ joinedCh r' = joinedCh r /\ all r' = all r) /\
  (forall fp', fp' <> fp -> pool r' fp' = pool r fp').
Proof.
  intros live0. unfold registerConn. destruct (liveLocked closed fp r) as [r1 live] eqn:Hl.
  apply liveLocked_spec in Hl as (-> & (Ha & Hj & _ & Hsh & Hcl & Hch) & Hp & _).
  fold live0 in Hp |- *. rewrite Hcl, Hj, Ha, Hch. simpl.
  assert (Hpf : pool r1 fp = live0) by (rewrite Hp; by rewrite decide_True).
  assert (Hpo : forall fp', fp' <> fp -> pool r1 fp' = pool r fp')
    by (intros; rewrite Hp; by rewrite decide_False).
  assert (Hdup : duplicateLocked r1 fp live0 = false <-> fp ∈ shared r \/ live0 = []).
  { unfold duplicateLocked. rewrite Hsh.
    destruct (decide (fp ∈ shared r)); [rewrite bool_decide_true by done|rewrite bool_decide_false by done];
      destruct live0; simpl; naive_solver. }
  destruct (closing r) eqn:E1; simpl; [naive_solver|].
  destruct (closed (c_sess c)) eqn:E2; [naive_solver|].
  destruct (duplicateLocked r1 fp live0) eqn:E3; [naive_solver|].
  destruct (_ <=? _) eqn:E4; b2p; [split; [split; naive_solver lia|naive_solver]|].
  assert (Hfin : forall r', byFP r' = <[fp := live0 ++ [c]]> (byFP r1) ->
    pool r' fp = live0 ++ [c] /\ forall fp', fp' <> fp -> pool r' fp' = pool r fp').
  { intros r' Hb. unfold pool in *. rewrite Hb. split; [by rewrite lookup_insert_eq|].
    intros fp' Hne. rewrite lookup_insert_ne by done. by apply Hpo. }
  split; [naive_solver|]. split; [|split; [done|]]; [intros _|];
    (destruct (all r !! c_sess c) as [[? []]|]; simpl;
     match goal with |- context [pool ?x] => destruct (Hfin x eq_refl) end; naive_solver).
Qed.

(** Shutdown is complete: once [closeAll] has run its critical section and
    every session it listed has closed, every session still tracked is closed,
    whatever agents connect, register, drain or drop in between; nothing that
    arrives after it is tracked or pooled. *)
Theorem closeAll_complete (w w' : world)
    (Hreach : rtc step (mkWorld (closeAll (w_reg w)).1 (w_closed w)) w')
    (Hclosed : (closeAll (w_reg w)).2 ⊆ w_closed w') :
  dom (all (w_reg w')) ⊆ w_closed w' /\
  (forall fp s, (track fp s (w_reg w')).2 = trackClosing) /\
  (forall fp c, (registerConn (isClosed w') fp c (w_reg w')).1.2 = refusedGone).
Proof.
  destruct (closing_frozen _ _ Hreach eq_refl) as [Hd _]. simpl in *.
  assert (Hc : closing (w_reg w') = true).
  { clear Hclosed Hd. remember (mkWorld _ _) as w0 eqn:E.
    assert (H0 : closing (w_reg w0) = true) by by subst. clear E. revert H0.
    induction Hreach as [|w1 w2 w3 [e [_ ->]] _ IH]; [done|].
    intros. by apply IH, exec_closing. }
  split_and!; [set_solver| |].
  - intros fp s. unfold track. by rewrite Hc.
  - intros fp c. unfold registerConn. destruct (liveLocked _ _ _) as [r1 live] eqn:E.
    apply liveLocked_spec in E as (_ & (_ & _ & _ & _ & Hs & _) & _). by rewrite Hs, Hc.
Qed.

(** Session lifecycle: each critical section moves a session at most one
    step along untracked, connecting, pooled, retired, and a drop ends it; in
    particular a retired session is never pooled again, and a session cannot
    be pooled without having been tracked first. *)
Theorem session_lifecycle (sh : gset gostr) (w w' : world) (s : session)
    (Hw : rtc step (initial sh) w) (Hstep : step w w') :
  lifecycle (phase_of (w_reg w) s) (phase_of (w_reg w') s).
Proof.
  destruct Hstep as (e & He & ->). apply exec_lifecycle; [done|].
  by apply (reg_steps_inv _ _ Hw), initial_inv.
Qed.

(** ** Witnesses *)

Module RegistryWitness.
Definition fpA : gostr := bs "SHA256:A".
Definition c1 : agentConn := mkAgentConn 1 fpA 1 true.
Definition c2 : agentConn := mkAgentConn 2 fpA 2 true.

(** Two agents with the same exclusive certificate: the second is refused. *)
Definition w1 : world := exec (ERegister c1) (exec (ETrack fpA 1) (initial ∅)).
Definition w2 : world := exec (ERegister c2) (exec (ETrack fpA 2) w1).

Ltac walk e := rtc_step e ltac:(vm_compute; reflexivity).

Lemma reach1 : rtc step (initial ∅) w1.
Proof. walk (ETrack fpA 1). walk (ERegister c1). apply rtc_refl. Qed.

Lemma reach2 : rtc step (initial ∅) w2.
Proof. etrans; [apply reach1|]. walk (ETrack fpA 2). walk (ERegister c2). apply rtc_refl. Qed.

Lemma registry_reachable_inv_witness :
  pool (w_reg w2) fpA = [c1] /\ reg_inv (w_reg w2) /\ shared (w_reg w2) = ∅.
Proof. split; [vm_compute; reflexivity|]. apply (registry_reachable_inv ∅ w2 reach2). Defined.

Lemma sessions_per_certificate_witness :
  count_val (mkTracked fpA true) (all (w_reg w2)) = 1%nat /\
  Z.of_nat (count_val (mkTracked fpA true) (all (w_reg w2)) +
            count_val (mkTracked fpA false) (all (w_reg w2))) <= 2 * maxSharedSessions.
Proof.
  split; [vm_compute; reflexivity|]. apply (sessions_per_certificate ∅ w2 fpA reach2).
Defined.

Lemma exclusive_incumbent_kept_witness :
  let '(r', res, _) := registerConn (fun _ => false) fpA c2 (w_reg w1) in
  (res = refusedDuplicate \/ res = refusedGone) /\
  pool r' fpA = List.filter (fun c => negb false) (pool (w_reg w1) fpA) /\ c1 ∈ pool r' fpA.
Proof.
  apply (exclusive_incumbent_kept (fun _ => false) fpA (w_reg w1) c1 c2).
  - apply (bool_decide_unpack _). vm_compute. exact I.
  - apply (bool_decide_unpack _). vm_compute. exact I.
  - reflexivity.
Defined.

Lemma closeAll_complete_witness :
  dom (all (w_reg (exec (EClosed 1) (exec ECloseAll w1)))) ⊆ {[1%nat]} ∪ (∅ : gset session).
Proof.
  apply (closeAll_complete w1 (exec (EClosed 1) (exec ECloseAll w1))).
  - walk (EClosed 1). apply rtc_refl.
  - apply (bool_decide_unpack _). vm_compute. exact I.
Defined.

Lemma session_lifecycle_witness :
  phase_of (w_reg w1) 1 = Some (fpA, Pooled) /\
  phase_of (w_reg (exec (ETake fpA 1) w1)) 1 = Some (fpA, Retired) /\
  lifecycle (phase_of (w_reg w1) 1) (phase_of (w_reg (exec (ETake fpA 1) w1)) 1).
Proof.
  split; [vm_compute; reflexivity|]. split; [vm_compute; reflexivity|].
  apply (session_lifecycle ∅ w1 (exec (ETake fpA 1) w1) 1 reach1).
  exists (ETake fpA 1). split; [exact I|reflexivity].
Defined.
End RegistryWitness.
