(* ===== verification/RegistrySpec.v ===== *)
(** * What the session registry promises ([internal/edge/registry.go])

    The registry as its users see it: every open session with its certificate and
    where it stands (connecting, in the pool, taken out of it), and nothing else.
    The operations are stated on that: who is admitted depends only on how many
    sessions of the certificate stand where.  The registry of the source keeps
    pools per certificate in order, records per session and two counters per
    certificate, cleaned up as sessions go; it refines this specification, with
    the same answers, from every state it can reach. *)

From S2P Require Import Prelude GoStrings Registry.

(** ** The specification *)

#[export] Instance phase_eq_dec : EqDecision phase.
Proof. solve_decision. Defined.

Record spec := mkSpec {
  standing : gmap session (gostr * phase);
  sp_shared : gset gostr;
  sp_closing : bool;
  sp_joins : nat;
}.

(** How many sessions of [fp] stand where [p] says. *)
Definition how_many (fp : gostr) (p : phase -> bool) (m : gmap session (gostr * phase)) : nat :=
  count_if (fun v => beq v.1 fp && p v.2) m.

Definition connecting (p : phase) : bool := match p with Connecting => true | _ => false end.
Definition in_pool (p : phase) : bool := match p with Pooled => true | _ => false end.
Definition has_joined (p : phase) : bool := negb (connecting p).

Definition stand (m : gmap session (gostr * phase)) (a : spec) : spec :=
  mkSpec m (sp_shared a) (sp_closing a) (sp_joins a).

Section operations.
Context (closed : session -> bool).

Definition spec_track (fp : gostr) (s : session) (a : spec) : spec * trackResult :=
  if sp_closing a then (a, trackClosing)
  else if maxSharedSessions <=? Z.of_nat (how_many fp connecting (standing a)) then (a, trackCapped)
  else (stand (<[s := (fp, Connecting)]> (standing a)) a, trackOK).

(** Sessions of [fp] that have closed leave the pool. *)
Definition leave_closed (fp : gostr) (a : spec) : spec :=
  stand (map_imap (fun s v => Some (if beq v.1 fp && in_pool v.2 && closed s then (v.1, Retired) else v)) (standing a)) a.

Definition taken (fp : gostr) (a : spec) : bool :=
  negb (bool_decide (fp ∈ sp_shared a)) && (0 <? how_many fp in_pool (standing a))%nat.

Definition spec_hasLive (fp : gostr) (a : spec) : spec * bool :=
  let a := leave_closed fp a in (a, taken fp a).

(** A tracked session joins; the count is the pool's size then. *)
Definition spec_register (fp : gostr) (s : session) (a : spec) : spec * registration * nat :=
  let a := leave_closed fp a in
  if sp_closing a || closed s then (a, refusedGone, 0%nat)
  else if taken fp a then (a, refusedDuplicate, 0%nat)
  else if maxSharedSessions <=? Z.of_nat (how_many fp has_joined (standing a)) then (a, refusedCap, 0%nat)
  else
    let m := <[s := (fp, Pooled)]> (standing a) in
    (mkSpec m (sp_shared a) (sp_closing a) (S (sp_joins a)), registered, how_many fp in_pool m).

Definition spec_take (fp : gostr) (s : session) (a : spec) : spec :=
  stand (alter (fun v => if beq v.1 fp && in_pool v.2 then (v.1, Retired) else v) s (standing a)) a.

Definition spec_drop (s : session) (a : spec) : spec := stand (delete s (standing a)) a.
End operations.

(** ** The abstraction *)

Definition spec_of (r : registry) : spec :=
  mkSpec (map_imap (fun s _ => phase_of r s) (all r)) (shared r) (closing r) (joinedCh r).

Lemma standing_of r s : standing (spec_of r) !! s = phase_of r s.
Proof. simpl. rewrite map_lookup_imap. unfold phase_of. by destruct (all r !! s). Qed.

Lemma spec_eq a b : (forall s, standing a !! s = standing b !! s) -> sp_shared a = sp_shared b -> sp_closing a = sp_closing b ->
  sp_joins a = sp_joins b -> a = b.
Proof. destruct a, b; simpl. intros Hs -> -> ->. f_equal. by apply map_eq. Qed.

(** Two maps with the same keys picked have as many of them. *)
Lemma filter_size {A B} (P : session * A -> Prop) (Q : session * B -> Prop) `{!forall x, Decision (P x)} `{!forall x, Decision (Q x)}
    (m : gmap session A) (m' : gmap session B) :
  (forall k, (exists v, m !! k = Some v /\ P (k, v)) <-> (exists v, m' !! k = Some v /\ Q (k, v))) ->
  size (base.filter P m) = size (base.filter Q m').
Proof.
  intros Hpq. rewrite <- !size_dom. f_equal. apply set_eq. intros k. rewrite !elem_of_dom. unfold is_Some.
  setoid_rewrite map_lookup_filter_Some. apply Hpq.
Qed.

Lemma how_many_tracked fp (b : bool) p r : (forall q, p q = Bool.eqb (has_joined q) b) ->
  how_many fp p (standing (spec_of r)) = count_val (mkTracked fp b) (all r).
Proof.
  intros Hp. unfold how_many, count_if, count_val. apply filter_size. intros s. rewrite standing_of. unfold phase_of.
  destruct (all r !! s) as [[f j]|]; simpl; [|naive_solver].
  split.
  - intros (v & [= <-] & [Hf Hj]%andb_true_iff). exists (mkTracked f j). split; [done|]. simpl in *. apply beq_true in Hf as ->.
    rewrite Hp in Hj. f_equal. by destruct j, b, (pooled r fp s).
  - intros (v & [= <-] & [= -> ->]). eexists. split; [done|]. simpl. rewrite Hp. apply andb_true_iff. split; [by apply beq_true|].
    by destruct b, (pooled r fp s).
Qed.

Lemma count_connecting fp r : reg_inv r -> Z.of_nat (how_many fp connecting (standing (spec_of r))) = mget (pending r) fp.
Proof. intros Hr. rewrite (inv_pending r Hr), (how_many_tracked fp false); [done|]. by intros []. Qed.
Lemma count_joined fp r : reg_inv r -> Z.of_nat (how_many fp has_joined (standing (spec_of r))) = mget (joined r) fp.
Proof. intros Hr. rewrite (inv_joined r Hr), (how_many_tracked fp true); [done|]. by intros []. Qed.

Lemma count_pool fp r : reg_inv r -> how_many fp in_pool (standing (spec_of r)) = length (pool r fp).
Proof.
  intros Hr. unfold how_many, count_if. rewrite <- size_dom, <- (length_map c_sess), <- (size_list_to_set (C := gset session)) by (by apply pool_NoDup).
  f_equal. apply set_eq. intros s. rewrite elem_of_list_to_set, list_elem_of_In, in_map_iff, elem_of_dom. unfold is_Some.
  setoid_rewrite map_lookup_filter_Some. setoid_rewrite standing_of. setoid_rewrite <- list_elem_of_In. unfold phase_of. split.
  - intros (v & Hv & [Hf Hp]%andb_true_iff). destruct (all r !! s) as [[f j]|]; [|done]. simpl in *. injection Hv as <-.
    simpl in *. apply beq_true in Hf as ->. destruct j; [|done]. destruct (pooled r fp s) eqn:E; [|done].
    apply pooled_spec in E as (c & ? & ?). by exists c.
  - intros (c & <- & Hc). destruct (inv_pool_elem r fp c Hr Hc) as [_ Ha]. rewrite Ha. simpl.
    rewrite (proj2 (pooled_spec r fp (c_sess c))) by eauto. eexists. split; [done|]. simpl. rewrite andb_true_r. by apply beq_true.
Qed.

(** ** Each operation *)

Lemma pooled_same r r' fp s : (forall c, c_sess c = s -> c ∈ pool r' fp <-> c ∈ pool r fp) -> pooled r' fp s = pooled r fp s.
Proof. intros Hc. apply eq_true_iff_eq. rewrite !pooled_spec. naive_solver. Qed.

Lemma leave_closed_standing closed fp a s : standing (leave_closed closed fp a) !! s =
  (fun v => if beq v.1 fp && in_pool v.2 && closed s then (v.1, Retired) else v) <$> standing a !! s.
Proof. simpl. rewrite map_lookup_imap. by destruct (standing a !! s). Qed.

Lemma live_refines closed fp r r' live : liveLocked closed fp r = (r', live) -> spec_of r' = leave_closed closed fp (spec_of r).
Proof.
  intros (-> & (Ha & _ & _ & Hs & Hc & Hj) & Hp & _)%liveLocked_spec. apply spec_eq; [|done..].
  intros s. rewrite leave_closed_standing, !standing_of. unfold phase_of. rewrite Ha.
  destruct (all r !! s) as [[f j]|]; [|done]. simpl. destruct j; simpl; [|by rewrite andb_false_r].
  destruct (beq f fp) eqn:Ef.
  - apply beq_true in Ef as ->. assert (Hpo : pooled r' fp s = pooled r fp s && negb (closed s)).
    { apply eq_true_iff_eq. rewrite andb_true_iff, !pooled_spec, Hp, decide_True by done. setoid_rewrite elem_of_filter_bool. naive_solver. }
    rewrite Hpo. by destruct (pooled r fp s), (closed s).
  - apply beq_false in Ef. simpl. rewrite (pooled_same r r'); [by destruct (pooled r f s)|]. intros c _. by rewrite Hp, decide_False.
Qed.

Lemma track_refines fp s r : reg_inv r -> all r !! s = None ->
  spec_track fp s (spec_of r) = (spec_of (track fp s r).1, (track fp s r).2).
Proof.
  intros Hr Hs. unfold spec_track, track. rewrite count_connecting by done. cbn [sp_closing spec_of].
  destruct (closing r) eqn:Ec; [done|]. destruct (_ <=? _); [done|]. apply pair_equal_spec; split; [|done].
  apply spec_eq; [|done|simpl; congruence|done].
  intros x. rewrite standing_of. cbn [standing stand]. rewrite lookup_insert. unfold phase_of. simpl. rewrite lookup_insert.
  case_decide; [done|]. rewrite map_lookup_imap. unfold phase_of, pooled, pool. simpl. by destruct (all r !! x).
Qed.

Lemma taken_refines fp r live : reg_inv r -> pool r fp = live -> taken fp (spec_of r) = duplicateLocked r fp live.
Proof. intros Hr <-. unfold taken, duplicateLocked. by rewrite count_pool. Qed.

Lemma hasLive_refines closed fp r : reg_inv r ->
  spec_hasLive closed fp (spec_of r) = (spec_of (hasLiveExclusive closed fp r).1, (hasLiveExclusive closed fp r).2).
Proof.
  intros Hr. unfold spec_hasLive, hasLiveExclusive. destruct (liveLocked closed fp r) as [r' live] eqn:E.
  rewrite <- (live_refines _ _ _ _ _ E). apply liveLocked_spec in E as (_ & _ & Hp & Hi). cbn [fst snd]. apply pair_equal_spec; split; [done|].
  apply taken_refines; [auto|]. by rewrite Hp, decide_True.
Qed.

Lemma take_refines fp s r : reg_inv r -> spec_of (Registry.take fp s r) = spec_take fp s (spec_of r).
Proof.
  intros Hr. unfold Registry.take. destruct (removeLocked_spec fp s r) as ((Ha & _ & _ & Hs & Hc & Hj) & _ & _).
  apply spec_eq; [|done..]. intros x. cbn [spec_take stand standing]. change (map_imap _ (all r)) with (standing (spec_of r)).
  rewrite lookup_alter. case_decide as Hx; [subst x|]; rewrite !standing_of; unfold phase_of; rewrite Ha.
  - destruct (all r !! s) as [[f j]|]; [|done]. simpl. destruct j; simpl; [|by rewrite andb_false_r].
    destruct (beq f fp) eqn:Ef; simpl.
    + apply beq_true in Ef as ->. assert (Hn : pooled (removeLocked fp s r) fp s = false).
      { destruct (pooled (removeLocked fp s r) fp s) eqn:E; [|done]. apply pooled_spec in E as (c & [_ Hn]%removeLocked_elem & ?); [|done].
        by destruct Hn. }
      rewrite Hn. by destruct (pooled r fp s).
    + apply beq_false in Ef. rewrite (pooled_same r); [by destruct (pooled r f s)|]. intros c _. rewrite removeLocked_elem by done. naive_solver.
  - destruct (all r !! x) as [[f j]|]; [|done]. simpl. rewrite (pooled_same r); [done|].
    intros c Hcs. rewrite removeLocked_elem by done. naive_solver.
Qed.

Lemma drop_refines s r : reg_inv r -> spec_of (Registry.drop s r) = spec_drop s (spec_of r).
Proof.
  intros Hr. unfold Registry.drop. destruct (all r !! s) as [[f j]|] eqn:E.
  - cbn [t_fp t_joined]. destruct (removeLocked_spec f s r) as ((Ha & _ & _ & Hs & Hc & Hj) & _ & _).
    apply spec_eq; [|by destruct j..]. intros x. cbn [spec_drop stand standing].
    change (map_imap _ (all r)) with (standing (spec_of r)). rewrite lookup_delete, standing_of.
    unfold phase_of. case_decide as Hx.
    + subst x. destruct j; simpl; by rewrite lookup_delete_eq.
    + rewrite standing_of. unfold phase_of. transitivity (phase_of (removeLocked f s r) x).
      * unfold phase_of. destruct j; simpl; by rewrite lookup_delete_ne.
      * unfold phase_of. rewrite Ha. destruct (all r !! x) as [[f' j']|]; [|done]. simpl. rewrite (pooled_same r); [done|].
        intros c Hcs. rewrite removeLocked_elem by done. naive_solver.
  - apply spec_eq; [|done..]. intros x. cbn [spec_drop stand standing]. change (map_imap _ (all r)) with (standing (spec_of r)).
    rewrite lookup_delete, standing_of. case_decide as Hx; [subst x; unfold phase_of; by rewrite E|done].
Qed.

(** A session joins its pool. *)
Lemma join_standing r r' fp s c : c_sess c = s -> all r' = <[s := mkTracked fp true]> (all r) ->
  pool r' fp = pool r fp ++ [c] -> (forall fp', fp' <> fp -> pool r' fp' = pool r fp') ->
  forall x, phase_of r' x = <[s := (fp, Pooled)]> (standing (spec_of r)) !! x.
Proof.
  intros Hs Ha Hp Ho x. rewrite lookup_insert, standing_of. unfold phase_of. rewrite Ha, lookup_insert. case_decide as Hx.
  - simpl. rewrite (proj2 (pooled_spec r' fp x)); [done|]. exists c. rewrite Hp. subst. split; [|done]. apply elem_of_app. right. left.
  - destruct (all r !! x) as [[f j]|]; [|done]. simpl. rewrite (pooled_same r); [done|]. intros c' Hc'.
    destruct (decide (f = fp)) as [->|Hne]; [|by rewrite Ho]. rewrite Hp, elem_of_app, list_elem_of_singleton. naive_solver.
Qed.

Lemma register_refines closed c r : reg_inv r -> all r !! c_sess c = Some (mkTracked (c_fp c) false) ->
  spec_register closed (c_fp c) (c_sess c) (spec_of r) =
    let '(r', res, n) := registerConn closed (c_fp c) c r in (spec_of r', res, n).
Proof.
  set (fp := c_fp c). intros Hr Hc. pose proof (fun r' res n E => registerConn_inv closed fp c r r' res n E eq_refl Hc Hr) as Hinv.
  unfold spec_register, registerConn in *. destruct (liveLocked closed fp r) as [r1 live] eqn:E.
  rewrite <- (live_refines _ _ _ _ _ E). apply liveLocked_spec in E as (_ & (Ha & _ & _ & _ & _ & _) & Hp & Hi).
  specialize (Hi Hr). assert (Hpf : pool r1 fp = live) by (by rewrite Hp, decide_True).
  rewrite (taken_refines fp r1 live), count_joined by done. cbn [sp_closing spec_of sp_shared sp_joins].
  destruct (closing r1 || closed (c_sess c)); [done|]. destruct (duplicateLocked r1 fp live); [done|].
  destruct (maxSharedSessions <=? mget (joined r1) fp); [done|]. cbn [all] in *. rewrite Ha, Hc in *. cbn [t_joined negb t_fp] in *.
  match goal with |- _ = (spec_of ?x, _, _) => set (r' := x) in * end.
  specialize (Hinv r' registered _ eq_refl).
  assert (Hst : standing (spec_of r') = <[c_sess c := (fp, Pooled)]> (standing (spec_of r1))).
  { apply map_eq. intros x. rewrite standing_of. apply (join_standing r1 r' fp (c_sess c) c); [done| | |].
    - unfold r'. simpl. by rewrite Ha.
    - unfold r', pool. simpl. rewrite lookup_insert_eq. simpl. by rewrite <- Hpf.
    - intros fp' Hne. unfold r', pool. simpl. by rewrite lookup_insert_ne. }
  change (map_imap _ (all r1)) with (standing (spec_of r1)). rewrite <- Hst, count_pool by done.
  apply pair_equal_spec; split; [|done]. apply pair_equal_spec; split; [|done]. by apply spec_eq.
Qed.

(** ** Refinement *)

(** What a critical section answers its caller. *)
Inductive reply := Tracked (t : trackResult) | Registered (res : registration) (n : nat) | Duplicate (b : bool) | Silent.

Definition reply_of (e : event) (w : world) : reply :=
  match e with
  | ETrack fp s => Tracked (track fp s (w_reg w)).2
  | ERegister c => let '(_, res, n) := registerConn (isClosed w) (c_fp c) c (w_reg w) in Registered res n
  | EHasLive fp => Duplicate (hasLiveExclusive (isClosed w) fp (w_reg w)).2
  | _ => Silent
  end.

(** The specification's step and answer; sessions close as they do below. *)
Definition spec_exec (closed : session -> bool) (e : event) (a : spec) : spec * reply :=
  match e with
  | ETrack fp s => let '(a, t) := spec_track fp s a in (a, Tracked t)
  | ERegister c => let '(a, res, n) := spec_register closed (c_fp c) (c_sess c) a in (a, Registered res n)
  | EHasLive fp => let '(a, b) := spec_hasLive closed fp a in (a, Duplicate b)
  | ETake fp s => (spec_take fp s a, Silent)
  | EDrop s => (spec_drop s a, Silent)
  | EClosed _ => (a, Silent)
  | ECloseAll => (mkSpec (standing a) (sp_shared a) true (sp_joins a), Silent)
  end.

Lemma exec_refines e w : enabled e w -> reg_inv (w_reg w) ->
  spec_exec (isClosed w) e (spec_of (w_reg w)) = (spec_of (w_reg (exec e w)), reply_of e w).
Proof.
  intros He Hr. destruct e as [fp s|c|fp|fp s|s|s|]; cbn [spec_exec exec w_reg reply_of].
  - by rewrite track_refines.
  - rewrite register_refines by done. by destruct (registerConn _ _ c _) as [[r' res] n].
  - by rewrite hasLive_refines.
  - by rewrite take_refines.
  - by rewrite drop_refines.
  - done.
  - apply pair_equal_spec; split; [|done]. apply spec_eq; [|done..]. intros x. rewrite standing_of. cbn [standing spec_of].
    rewrite map_lookup_imap. unfold phase_of, pooled, pool. simpl. by destruct (all (w_reg w) !! x).
Qed.

(** What the specification itself guarantees of a state. *)
Definition spec_ok (a : spec) : Prop := forall fp,
  Z.of_nat (how_many fp connecting (standing a)) <= maxSharedSessions /\
  Z.of_nat (how_many fp has_joined (standing a)) <= maxSharedSessions /\
  (fp ∉ sp_shared a -> (how_many fp in_pool (standing a) <= 1)%nat).

(** [C6] The registry is what its callers take it for: a table of the open
    sessions with their certificate and whether they are connecting, pooled or
    retired.  In every state it can reach, each of its operations does to that
    table what the specification says and gives the same answer: who is tracked,
    admitted, capped or refused as a duplicate, and the size of the pool, depend
    only on how many sessions of the certificate stand where.  The pools, their
    order, the counters and their clean-up are never seen.  In the table no
    certificate exceeds its two caps, and one that is not shared has at most one
    pooled session. *)
Theorem registry_refines (sh : gset gostr) (w : world) (Hw : rtc step (initial sh) w) :
  (forall e, enabled e w -> spec_exec (isClosed w) e (spec_of (w_reg w)) = (spec_of (w_reg (exec e w)), reply_of e w)) /\
  spec_of (w_reg (initial sh)) = mkSpec ∅ sh false 0 /\ spec_ok (spec_of (w_reg w)).
Proof.
  pose proof (reg_steps_inv _ _ Hw (initial_inv sh)) as Hr. split_and!.
  - intros e He. by apply exec_refines.
  - apply spec_eq; [|done..]. intros s. by rewrite standing_of.
  - intros fp. rewrite count_connecting, count_joined, count_pool by done.
    split_and!; [by apply inv_pending_cap|by apply inv_joined_cap|]. intros Hf. unfold pool.
    destruct (byFP (w_reg w) !! fp) as [l|] eqn:E; simpl; [|lia]. by rewrite (inv_exclusive _ Hr fp l E Hf).
Qed.

(** ** Witness *)

Module RegistrySpecWitness.
Import RegistryWitness.

(** With one session of an exclusive certificate in the pool, a second one is
    refused, in the registry and in the specification. *)
Definition w_second : world := exec (ETrack fpA 2) w1.

Lemma registry_refines_witness :
  reply_of (ERegister c2) w_second = Registered refusedDuplicate 0 /\
  (spec_exec (isClosed w_second) (ERegister c2) (spec_of (w_reg w_second))).2 = Registered refusedDuplicate 0.
Proof.
  assert (Hr : rtc step (initial ∅) w_second).
  { eapply rtc_r; [exact reach1|]. exists (ETrack fpA 2). split; [vm_compute; reflexivity|reflexivity]. }
  split; [vm_compute; reflexivity|].
  destruct (registry_refines ∅ w_second Hr) as [He _].
  rewrite (He (ERegister c2)); vm_compute; reflexivity.
Defined.
End RegistrySpecWitness.
