(* ===== verification/Balance.v ===== *)
(** * The balancer ([routeState.pick], [pickReserve], [nextTurn] of
    [internal/edge/edge.go])

    [pick] chooses a session among a route's candidates: the [turn]-th of the
    eligible ones with round_robin, the least loaded one, scanning from the
    turn, with least_conn.  A first pass skips sessions cooling down after a
    failure, a second admits them. *)

From S2P Require Import Prelude GoStrings Registry.

Definition BalanceLeastConn : gostr := bs "least_conn".
Definition BalanceRoundRobin : gostr := bs "round_robin".

(** What [pick] reads of the sessions: [coolUntil] and [stat.Active()], and
    the clock ([time.Now().UnixNano()]). *)
Record loads := mkLoads {
  cool_until : agentConn -> Z;
  active : agentConn -> Z;
  now : Z;
}.

Section pick.
Context (ld : loads).

(** ** Operations *)

Definition eligible (tried : gset nat) (pass : nat) (c : agentConn) : bool :=
  negb (bool_decide (c_id c ∈ tried)) && ((pass =? 1)%nat || (cool_until ld c <=? now ld)).

(** The loop that takes the [k]-th eligible candidate; [i] is the index of the
    first of [cands]. *)
Fixpoint kth_eligible (elig : agentConn -> bool) (k : Z) (i : nat) (cands : list agentConn) :
    option nat :=
  match cands with
  | [] => None
  | c :: cands =>
      if elig c then
        if k =? 0 then Some i else kth_eligible elig (k - 1) (S i) cands
      else kth_eligible elig k (S i) cands
  end.

Definition round_robin (elig : agentConn -> bool) (cands : list agentConn) (turn : Z) :
    option nat :=
  let count := length (List.filter elig cands) in
  if (count =? 0)%nat then None
  else kth_eligible elig (turn mod Z.of_nat count) 0 cands.

(** One iteration [j] of the least_conn scan; [idx] is the best so far. *)
Definition least_step (elig : agentConn -> bool) (cands : list agentConn) (start : nat)
    (idx : option nat) (j : nat) : option nat :=
  let i := ((start + j) mod length cands)%nat in
  match cands !! i with
  | Some c =>
      if elig c && match idx ≫= (cands !!.) with
                   | None => true
                   | Some b => active ld c <? active ld b
                   end
      then Some i else idx
  | None => idx
  end.

Definition least_conn (elig : agentConn -> bool) (cands : list agentConn) (turn : Z) :
    option nat :=
  let n := length cands in
  let start := Z.to_nat (turn mod Z.of_nat n) in
  fold_left (least_step elig cands start) (seq 0 n) None.

Definition pick_pass (balance : gostr) (cands : list agentConn) (tried : gset nat)
    (turn : Z) (pass : nat) : option nat :=
  if beq balance BalanceRoundRobin
  then round_robin (eligible tried pass) cands turn
  else least_conn (eligible tried pass) cands turn.

(** The session chosen and the sessions tried so far, [None] when every
    candidate has been tried. *)
Definition pick (balance : gostr) (cands : list agentConn) (tried : gset nat) (turn : Z) :
    option (agentConn * gset nat) :=
  if (length cands =? 0)%nat then None
  else
    idx ← match pick_pass balance cands tried turn 0 with
          | Some i => Some i
          | None => pick_pass balance cands tried turn 1
          end;
    c ← cands !! (idx : nat);
    Some (c, {[c_id c]} ∪ tried).

(** [rs.rr.Add(1) - 1]: the route's next rotation counter, and the request's
    turn. *)
Definition nextTurn (rr : Z) : Z * Z := let rr := u64 (rr + 1) in (rr, u64 (rr - 1)).

(** ** The round robin loop *)

Lemma kth_eligible_spec elig k i cands :
  0 <= k ->
  kth_eligible elig k i cands = None /\ List.filter elig cands !! Z.to_nat k = None \/
  exists j c, kth_eligible elig k i cands = Some (i + j)%nat /\
    cands !! j = Some c /\ List.filter elig cands !! Z.to_nat k = Some c.
Proof.
  revert k i; induction cands as [|c cands IH]; intros k i Hk; simpl; [by left|].
  destruct (elig c).
  - destruct (k =? 0) eqn:E; b2p.
    + subst. right. exists 0%nat, c. by rewrite Nat.add_0_r.
    + destruct (IH (k - 1) (S i) ltac:(lia)) as [[-> H]|(j & d & -> & Hj & H)];
        replace (Z.to_nat k) with (S (Z.to_nat (k - 1))) by lia; simpl; [by left|].
      right. exists (S j), d. split_and!; [f_equal; lia|done|done].
  - destruct (IH k (S i) Hk) as [[-> H]|(j & d & -> & Hj & H)]; [by left|].
    right. exists (S j), d. split_and!; [f_equal; lia|done|done].
Qed.

Lemma round_robin_spec elig cands turn :
  match round_robin elig cands turn with
  | None => List.filter elig cands = []
  | Some i => exists c, cands !! i = Some c /\
      List.filter elig cands !!
        Z.to_nat (turn mod Z.of_nat (length (List.filter elig cands))) = Some c
  end.
Proof.
  unfold round_robin. destruct (_ =? 0)%nat eqn:E; b2p; [by apply nil_length_inv|].
  set (n := length (List.filter elig cands)) in *.
  assert (Hm : 0 <= turn mod Z.of_nat n < Z.of_nat n) by (apply Z.mod_pos_bound; lia).
  destruct (kth_eligible_spec elig (turn mod Z.of_nat n) 0 cands) as [[-> H]|(j & c & -> & Hj & H)].
  - lia.
  - apply lookup_ge_None in H. lia.
  - eauto.
Qed.

(** ** The least_conn scan *)

(** What the scan knows after the indexes [js]: its choice is the first, in
    scan order, of the eligible candidates with the smallest load. *)
Definition scan_best (elig : agentConn -> bool) (cands : list agentConn) (start : nat)
    (js : list nat) (idx : option nat) : Prop :=
  let at_ j := cands !! ((start + j) mod length cands)%nat in
  match idx with
  | None => forall j c, j ∈ js -> at_ j = Some c -> elig c = false
  | Some i => exists j c, i = ((start + j) mod length cands)%nat /\ j ∈ js /\
      at_ j = Some c /\ elig c = true /\
      (forall j' c', j' ∈ js -> at_ j' = Some c' -> elig c' = true ->
         active ld c <= active ld c' /\ ((j' < j)%nat -> active ld c < active ld c'))
  end.

(** An index with nothing eligible leaves the choice as it is. *)
Lemma scan_skip elig cands start n idx :
  scan_best elig cands start (seq 0 n) idx ->
  (forall c, cands !! ((start + n) mod length cands)%nat = Some c -> elig c = false) ->
  scan_best elig cands start (seq 0 n ++ [n]) idx.
Proof.
  intros IH Hn. destruct idx as [i|]; simpl in *.
  - destruct IH as (j & d & -> & Hj & Hd & He & Hmin). exists j, d.
    split_and!; try done; [set_solver|].
    intros j' c' [?| ->%list_elem_of_singleton]%elem_of_app Hc' He'; [eauto|].
    by rewrite (Hn c' Hc') in He'.
  - intros j d [?| ->%list_elem_of_singleton]%elem_of_app; eauto.
Qed.

Lemma least_scan elig cands start n :
  scan_best elig cands start (seq 0 n)
    (fold_left (least_step elig cands start) (seq 0 n) None).
Proof.
  induction n as [|n IH]; [intros j c Hj; by apply elem_of_nil in Hj|].
  rewrite seq_S, fold_left_app. simpl. set (idx := fold_left _ _ _) in *.
  unfold least_step. destruct (cands !! _) as [c|] eqn:Hc; [|apply scan_skip; [done|congruence]].
  destruct (elig c) eqn:He; simpl; [|apply scan_skip; [done|congruence]].
  destruct idx as [i|]; simpl in *.
  - destruct IH as (j & d & -> & Hj & Hd & He' & Hmin). rewrite Hd.
    destruct (active ld c <? active ld d) eqn:Hlt; b2p; simpl.
    + exists n, c. split_and!; try done; [set_solver|].
      intros j' c' [Hj'| ->%list_elem_of_singleton]%elem_of_app H' Hc'; [|simplify_eq; lia].
      destruct (Hmin j' c' Hj' H' Hc'). lia.
    + exists j, d. split_and!; try done; [set_solver|].
      intros j' c' [Hj'| ->%list_elem_of_singleton]%elem_of_app H' Hc'; [eauto|].
      simplify_eq. apply elem_of_seq in Hj. lia.
  - exists n, c. split_and!; try done; [set_solver|].
    intros j' c' [Hj'| ->%list_elem_of_singleton]%elem_of_app H' Hc'; [|simplify_eq; lia].
    rewrite (IH j' c') in Hc'; done.
Qed.

(** The scan visits every candidate. *)
Lemma scan_covers (cands : list agentConn) (start : nat) c :
  c ∈ cands -> exists j, j ∈ seq 0 (length cands) /\
    cands !! ((start + j) mod length cands)%nat = Some c.
Proof.
  intros [i Hi]%list_elem_of_lookup. pose proof (lookup_lt_Some _ _ _ Hi) as Hlt.
  set (n := length cands) in *.
  exists ((i + (n - start mod n)) mod n)%nat. rewrite elem_of_seq.
  pose proof (Nat.mod_upper_bound start n ltac:(lia)).
  split; [pose proof (Nat.mod_upper_bound (i + (n - start mod n)) n ltac:(lia)); lia|].
  rewrite Nat.Div0.add_mod_idemp_r.
  rewrite <- Hi. f_equal. rewrite (Nat.div_mod_eq start n) at 1.
  replace (n * (start / n) + start mod n + (i + (n - start mod n)))%nat
    with (i + (start / n + 1) * n)%nat by nia.
  by rewrite Nat.Div0.mod_add, Nat.mod_small.
Qed.

(** ** One pass *)

Lemma pick_pass_spec balance cands tried turn pass :
  match pick_pass balance cands tried turn pass with
  | None => forall c, c ∈ cands -> eligible tried pass c = false
  | Some i => exists c, cands !! i = Some c /\ eligible tried pass c = true /\
      (balance <> BalanceRoundRobin ->
       forall c', c' ∈ cands -> eligible tried pass c' = true -> active ld c <= active ld c')
  end.
Proof.
  unfold pick_pass. destruct (beq balance BalanceRoundRobin) eqn:Hb.
  - apply beq_true in Hb. pose proof (round_robin_spec (eligible tried pass) cands turn) as Hr.
    destruct (round_robin _ _ _) as [i|].
    + destruct Hr as (c & Hi & Hc). exists c. split_and!; [done| |done].
      apply list_elem_of_lookup_2, elem_of_filter_bool in Hc. naive_solver.
    + intros c Hc. destruct (eligible tried pass c) eqn:E; [|done].
      assert (Hin : c ∈ List.filter (eligible tried pass) cands) by by apply elem_of_filter_bool.
      rewrite Hr in Hin. by apply elem_of_nil in Hin.
  - unfold least_conn. set (start := Z.to_nat _).
    pose proof (least_scan (eligible tried pass) cands start (length cands)) as Hs.
    destruct (fold_left _ _ _) as [i|]; simpl in Hs.
    + destruct Hs as (j & c & -> & _ & Hc & He & Hmin). exists c. split_and!; [done|done|].
      intros _ c' Hin He'. destruct (scan_covers cands start c' Hin) as (j' & Hj' & Hc').
      by apply (Hmin j' c').
    + intros c Hin. destruct (scan_covers cands start c Hin) as (j & Hj & Hc). by apply (Hs j).
Qed.

Lemma eligible_0 tried c :
  eligible tried 0 c = true <-> c_id c ∉ tried /\ cool_until ld c <= now ld.
Proof.
  unfold eligible. rewrite andb_true_iff, negb_true_iff, bool_decide_eq_false. simpl.
  by rewrite Z.leb_le.
Qed.

Lemma eligible_1 tried c : eligible tried 1 c = true <-> c_id c ∉ tried.
Proof.
  unfold eligible. rewrite andb_true_iff, negb_true_iff, bool_decide_eq_false. simpl. naive_solver.
Qed.

(** The choice is an untried candidate, recorded as tried. *)
Lemma pick_fresh balance cands tried turn c tried' :
  pick balance cands tried turn = Some (c, tried') ->
  c ∈ cands /\ c_id c ∉ tried /\ tried' = {[c_id c]} ∪ tried.
Proof.
  unfold pick. destruct (_ =? 0)%nat; [done|].
  pose proof (pick_pass_spec balance cands tried turn 0) as H0.
  pose proof (pick_pass_spec balance cands tried turn 1) as H1.
  destruct (pick_pass balance cands tried turn 0) as [i|]; simpl.
  - destruct H0 as (d & Hi & [Ht _]%eligible_0 & _). rewrite Hi. simpl. intros [= <- <-].
    split; [by eapply list_elem_of_lookup_2|done].
  - destruct (pick_pass balance cands tried turn 1) as [i|]; simpl; [|done].
    destruct H1 as (d & Hi & Ht%eligible_1 & _). rewrite Hi. simpl. intros [= <- <-].
    split; [by eapply list_elem_of_lookup_2|done].
Qed.

(** ** Properties *)

(** What the balancer may choose, for either algorithm: an untried
    candidate, recorded as tried; one that is cooling down only if every
    untried candidate is; with least_conn, one with the fewest open streams
    among those it may choose from.  It gives up exactly when every candidate
    has been tried. *)
Theorem pick_correct (balance : gostr) (cands : list agentConn) (tried : gset nat) (turn : Z) :
  match pick balance cands tried turn with
  | None => forall c, c ∈ cands -> c_id c ∈ tried
  | Some (c, tried') =>
      c ∈ cands /\ c_id c ∉ tried /\ tried' = {[c_id c]} ∪ tried /\
      (cool_until ld c <= now ld \/
       forall c', c' ∈ cands -> c_id c' ∉ tried -> now ld < cool_until ld c') /\
      (balance <> BalanceRoundRobin ->
       forall c', c' ∈ cands -> c_id c' ∉ tried ->
         (cool_until ld c' <= now ld \/ now ld < cool_until ld c) ->
         active ld c <= active ld c')
  end.
Proof.
  unfold pick. destruct (length cands =? 0)%nat eqn:E; b2p.
  { apply nil_length_inv in E as ->. intros c Hc. by apply elem_of_nil in Hc. }
  pose proof (pick_pass_spec balance cands tried turn 0) as H0.
  pose proof (pick_pass_spec balance cands tried turn 1) as H1.
  destruct (pick_pass balance cands tried turn 0) as [i|]; simpl.
  - destruct H0 as (c & Hi & [Ht Hc]%eligible_0 & Hmin). rewrite Hi. simpl.
    apply list_elem_of_lookup_2 in Hi. split_and!; try done; [by left|].
    intros Hb c' Hin Ht' Hcool. apply Hmin; [done|done|]. apply eligible_0. split; [done|lia].
  - assert (Hall : forall c', c' ∈ cands -> c_id c' ∉ tried -> now ld < cool_until ld c').
    { intros c' Hin Ht. specialize (H0 c' Hin).
      destruct (decide (cool_until ld c' <= now ld)); [|lia].
      by rewrite (proj2 (eligible_0 tried c')) in H0. }
    destruct (pick_pass balance cands tried turn 1) as [i|]; simpl.
    + destruct H1 as (c & Hi & Ht%eligible_1 & Hmin). rewrite Hi. simpl.
      apply list_elem_of_lookup_2 in Hi. split_and!; try done; [by right|].
      intros Hb c' Hin Ht' _. apply Hmin; [done|done|]. by apply eligible_1.
    + intros c Hin. destruct (decide (c_id c ∈ tried)); [done|].
      specialize (H1 c Hin). by rewrite (proj2 (eligible_1 tried c)) in H1.
Qed.

(** Round robin is fair: over any run of as many turns as there are
    sessions to choose from (untried and not cooling down), each of them is
    picked exactly once, in rotation. *)
Theorem round_robin_fair (cands : list agentConn) (tried : gset nat) (turn : Z)
    (Hturn : 0 <= turn)
    (Hsome : List.filter (eligible tried 0) cands <> []) :
  let avail := List.filter (eligible tried 0) cands in
  map (fun t => fst <$> pick BalanceRoundRobin cands tried t)
      (seqZ turn (Z.of_nat (length avail)))
  = map Some (rotate (Z.to_nat turn) avail) /\
  rotate (Z.to_nat turn) avail ≡ₚ avail.
Proof.
  intros avail. split.
  2:{ unfold rotate. rewrite Permutation_app_comm, take_drop. done. }
  assert (Hpick : forall t, fst <$> pick BalanceRoundRobin cands tried t =
                    avail !! Z.to_nat (t mod Z.of_nat (length avail))).
  { intros t. unfold pick. rewrite (proj2 (Nat.eqb_neq _ _))
      by (intros ->%nil_length_inv; by apply Hsome).
    unfold pick_pass. rewrite (proj2 (beq_true _ _) eq_refl).
    pose proof (round_robin_spec (eligible tried 0) cands t) as Hr. fold avail in Hr.
    destruct (round_robin _ _ _) as [i|]; [|done].
    destruct Hr as (c & Hi & Hc). simpl. by rewrite Hi, Hc. }
  apply list_eq. intros k. rewrite !list_lookup_fmap.
  destruct (decide (k < length avail)%nat) as [Hk|Hk].
  - rewrite lookup_seqZ_lt by lia. simpl. rewrite Hpick, lookup_rotate_r by done.
    unfold rotate_nat_add. rewrite Z2Nat.id by done.
    destruct (avail !! _) eqn:E; [done|]. apply lookup_ge_None in E.
    pose proof (Z.mod_pos_bound (turn + Z.of_nat k) (Z.of_nat (length avail))). lia.
  - rewrite lookup_seqZ_ge by lia. simpl.
    rewrite (proj2 (lookup_ge_None _ _)); [done|]. rewrite length_rotate. lia.
Qed.

End pick.

(** A request's turn is the rotation counter before it: the first request gets
    turn 0. *)
Lemma nextTurn_turn rr : 0 <= rr < 2 ^ 64 -> nextTurn rr = (u64 (rr + 1), rr).
Proof.
  intros Hr. unfold nextTurn, wrap_u. f_equal.
  rewrite Zminus_mod_idemp_l. replace (rr + 1 - 1) with rr by lia. by apply Z.mod_small.
Qed.

(** ** Witnesses *)

Module BalanceWitness.
Definition a : agentConn := mkAgentConn 1 (bs "A") 1 true.
Definition b : agentConn := mkAgentConn 2 (bs "B") 2 true.
Definition c : agentConn := mkAgentConn 3 (bs "C") 3 true.
(** [b] is cooling down. *)
Definition ld : loads := mkLoads (fun x => if decide (x = b) then 200 else 0)
  (fun x => if decide (x = a) then 5 else 1) 100.

Lemma round_robin_fair_witness :
  let avail := List.filter (eligible ld ∅ 0) [a; b; c] in
  avail = [a; c] /\ rotate (Z.to_nat 7) avail = [c; a] /\
  map (fun t => fst <$> pick ld BalanceRoundRobin [a; b; c] ∅ t)
      (seqZ 7 (Z.of_nat (length avail))) = map Some (rotate (Z.to_nat 7) avail).
Proof.
  split; [vm_compute; reflexivity|]. split; [vm_compute; reflexivity|].
  apply (round_robin_fair ld [a; b; c] ∅ 7); [lia|vm_compute; discriminate].
Defined.

Example pick_least_conn :
  fst <$> pick ld BalanceLeastConn [a; b; c] ∅ 0 = Some c.
Proof. reflexivity. Qed.

Example pick_cooling_last :
  fst <$> pick ld BalanceLeastConn [a; b; c] {[1; 3]}%nat 0 = Some b.
Proof. reflexivity. Qed.
End BalanceWitness.
