(* ===== verification/AgentConn.v ===== *)
(** * An agent session's stream opens and its retirement
    ([agentConn] of [internal/edge/registry.go]; [openUnlessRetired],
    [retire], [retireForDrain] of [internal/edge/edge.go])

    Opening a stream can block in yamux, so each open runs on its own
    goroutine, counted in [opening]; the caller gives up after a wait, which
    counts it in [stuck] until it returns.  Retiring a session for its agent's
    drain request waits until no open that may still reach the agent is in
    flight.  Each definition below is one critical section under
    [agentConn.mu]; [step] interleaves them. *)

From S2P Require Import Prelude GoStrings.

(** ** Data *)

(** The local state of one [openUnlessRetired] call, guarded by [mu].
    [unused] is set when its goroutine closes the stream nobody will use. *)
Record open_call := mkOpen { finished : bool; abandoned : bool; unused : bool }.

#[export] Instance open_call_eq_dec : EqDecision open_call.
Proof. solve_decision. Defined.

(** [idle] is the channel a drain waits on ([nil] is [None]); [woken] are the
    channels closed so far, [next] names the next one made.  [opens] are the
    calls past the retired check; [coolUntil] is the atomic cooldown deadline,
    in unix nanoseconds. *)
Record conn := mkConn {
  retired : bool;
  opening : Z;
  stuck : Z;
  idle : option nat;
  next : nat;
  woken : gset nat;
  opens : gmap nat open_call;
  coolUntil : Z;
}.

Definition newConn : conn := mkConn false 0 0 None 0 ∅ ∅ 0.

(** Durations, in nanoseconds. *)
Definition acceptWait : Z := 15 * 10 ^ 9.

Inductive open_error := errRetired | errOpenBlocked | errOpenTimeout.

(** ** Critical sections *)

Definition isRetired (c : conn) : bool := retired c.

Definition liveOpensLocked (c : conn) : Z := opening c - stuck c.

Definition wakeIfIdleLocked (c : conn) : conn :=
  match idle c with
  | Some ch =>
      if liveOpensLocked c <=? 0
      then mkConn (retired c) (opening c) (stuck c) None (next c) ({[ch]} ∪ woken c) (opens c)
             (coolUntil c)
      else c
  | None => c
  end.

(** [openUnlessRetired] up to the start of its goroutine. *)
Definition open_begin (id : nat) (c : conn) : result open_error conn :=
  if retired c then Err errRetired
  else if 0 <? stuck c then Err errOpenBlocked
  else Ok (mkConn (retired c) (opening c + 1) (stuck c) (idle c) (next c) (woken c)
             (<[id := mkOpen false false false]> (opens c)) (coolUntil c)).

(** Its goroutine, once [OpenStream] has returned; [st] is whether it yielded a
    stream. *)
Definition open_finish (id : nat) (st : bool) (c : conn) : conn :=
  match opens c !! id with
  | None => c
  | Some o =>
      let gaveUp := abandoned o in
      wakeIfIdleLocked
        (mkConn (retired c) (opening c - 1) (if gaveUp then stuck c - 1 else stuck c)
           (idle c) (next c) (woken c)
           (<[id := mkOpen true gaveUp (gaveUp && st)]> (opens c)) (coolUntil c))
  end.

(** One compare-and-swap round of [coolDownFor]: [cur] is the value loaded; the
    answer is whether the loop ends. *)
Definition cool_round (until cur : Z) (c : conn) : conn * bool :=
  if until <=? cur then (c, true)
  else if coolUntil c =? cur
  then (mkConn (retired c) (opening c) (stuck c) (idle c) (next c) (woken c) (opens c) until, true)
  else (c, false).

(** [coolDownFor] when nothing else writes the deadline between its load and
    its compare-and-swap. *)
Definition coolDownFor (now d : Z) (c : conn) : conn :=
  (cool_round (now + d) (coolUntil c) c).1.

(** The caller at time [now], when its timer fires first: the error it returns,
    or [None] when the open finished just then and its result is used. *)
Definition open_timeout (id : nat) (now : Z) (c : conn) : conn * option open_error :=
  match opens c !! id with
  | None => (c, None)
  | Some o =>
      if finished o then (c, None)
      else
        (coolDownFor now (2 * acceptWait)
           (wakeIfIdleLocked
              (mkConn (retired c) (opening c) (stuck c + 1) (idle c) (next c) (woken c)
                 (<[id := mkOpen false true false]> (opens c)) (coolUntil c))),
         Some errOpenTimeout)
  end.

(** [retire]'s critical section: the mark, and whether it was there already. *)
Definition retire_mark (c : conn) : conn * bool :=
  (mkConn true (opening c) (stuck c) (idle c) (next c) (woken c) (opens c) (coolUntil c),
   retired c).

(** [retireForDrain] after [retire]: the channel to wait on, [None] to return at
    once. *)
Definition drain_wait (c : conn) : conn * option nat :=
  if liveOpensLocked c =? 0 then (c, None)
  else match idle c with
       | Some ch => (c, Some ch)
       | None =>
           (mkConn (retired c) (opening c) (stuck c) (Some (next c)) (S (next c)) (woken c) (opens c)
              (coolUntil c),
            Some (next c))
       end.

(** ** Interleavings *)

Inductive event :=
| EvBegin (id : nat)
| EvFinish (id : nat) (st : bool)
| EvTimeout (id : nat) (now : Z)
| EvRetire
| EvDrain
| EvCool (until cur : Z).

(** A call begins once; its goroutine returns once; its caller's timer fires at
    most once; a drain waits only after it has retired the session. *)
Definition enabled (e : event) (c : conn) : Prop :=
  match e with
  | EvBegin id => opens c !! id = None
  | EvFinish id _ => exists o, opens c !! id = Some o /\ finished o = false
  | EvTimeout id _ => exists o, opens c !! id = Some o /\ abandoned o = false
  | EvRetire => True
  | EvDrain => retired c = true
  | EvCool _ _ => True
  end.

Definition exec (e : event) (c : conn) : conn :=
  match e with
  | EvBegin id => match open_begin id c with Ok c' => c' | Err _ => c end
  | EvFinish id st => open_finish id st c
  | EvTimeout id now => (open_timeout id now c).1
  | EvRetire => (retire_mark c).1
  | EvDrain => (drain_wait c).1
  | EvCool until cur => (cool_round until cur c).1
  end.

Definition step : conn -> conn -> Prop := steps enabled exec.

(** ** Invariant *)

(** An open that may still reach the agent: not finished, not given up on. *)
Definition live_open : open_call := mkOpen false false false.
(** An open given up on and still blocked. *)
Definition stuck_open : open_call := mkOpen false true false.

(** The counters count the opens in flight. *)
Record counts_inv (c : conn) : Prop := {
  inv_shape : forall id o, opens c !! id = Some o ->
    finished o = true \/ o = live_open \/ o = stuck_open;
  inv_opening : opening c = Z.of_nat (count_val live_open (opens c) + count_val stuck_open (opens c));
  inv_stuck : stuck c = Z.of_nat (count_val stuck_open (opens c));
}.

(** Waiters: a drain waits only on a retired session; a closed channel means no
    live open is left, or [idle_live] holds back the converse while the last
    open's critical section is at work. *)
Record waiters_inv (c : conn) : Prop := {
  inv_idle : forall ch, idle c = Some ch -> retired c = true;
  inv_woken : woken c <> ∅ -> retired c = true /\ liveOpensLocked c = 0;
  inv_next : forall ch, ch ∈ woken c \/ idle c = Some ch -> (ch < next c)%nat;
  inv_fresh : forall ch, idle c = Some ch -> ch ∉ woken c;
}.

(** No drain waits without an open to wait for. *)
Definition idle_live (c : conn) : Prop :=
  forall ch, idle c = Some ch -> 0 < liveOpensLocked c.

Record conn_inv (c : conn) : Prop := {
  inv_counts : counts_inv c;
  inv_waiters : waiters_inv c;
  inv_live : idle_live c;
}.

Lemma live_is_count c :
  counts_inv c -> liveOpensLocked c = Z.of_nat (count_val live_open (opens c)).
Proof. intros []. unfold liveOpensLocked. lia. Qed.

Lemma conn_new_inv : conn_inv newConn.
Proof. split; [by split|split; simpl; set_solver|done]. Qed.

(** Waking establishes [idle_live]. *)
Lemma wake_inv c : counts_inv c -> waiters_inv c -> conn_inv (wakeIfIdleLocked c).
Proof.
  intros Hc [Hi Hw Hn Hf]. pose proof (live_is_count c Hc) as Hl. unfold wakeIfIdleLocked.
  destruct (idle c) as [ch|] eqn:E; [|split; [done|by split; rewrite ?E|by intros ? ?; congruence]].
  destruct (_ <=? _) eqn:El; b2p.
  - assert (liveOpensLocked c = 0) by lia. destruct Hc.
    split; [by split| |by intros ? ?].
    split; simpl; [done| |intros ch' [Hin|?]; [|done]|done].
    + intros _. split; [by eapply Hi|done].
    + apply elem_of_union in Hin as [->%elem_of_singleton|]; apply Hn; auto.
  - split; [done|by split; rewrite ?E|by intros ? _].
Qed.

Lemma cool_inv until cur c : conn_inv c -> conn_inv (cool_round until cur c).1.
Proof.
  intros Hc. unfold cool_round. destruct (_ <=? _); [done|]. destruct (_ =? _); [|done].
  destruct Hc as [[] [] ?]. split; [by split|by split|done].
Qed.

Lemma begin_inv id c c' :
  opens c !! id = None -> open_begin id c = Ok c' -> conn_inv c -> conn_inv c'.
Proof.
  intros Hid. unfold open_begin. destruct (retired c) eqn:Er; [done|].
  destruct (0 <? stuck c); [done|]. intros [= <-] [[Hsh Ho Hs] [Hi Hw Hn Hf] Hl].
  assert (Hnw : woken c = ∅) by (destruct (decide (woken c = ∅)) as [|[]%Hw]; congruence).
  assert (Hni : idle c = None) by (destruct (idle c) as [ch|]; [specialize (Hi ch eq_refl); congruence|done]).
  split; [split|split|]; simpl; rewrite ?count_val_new by done; simpl; rewrite ?Hni, ?Hnw.
  - intros id' o [[<- <-]|[_ H]]%lookup_insert_Some; [by right; left|eauto].
  - rewrite Ho. lia.
  - exact Hs.
  - done.
  - done.
  - intros ch [[]%elem_of_empty|?]; done.
  - done.
  - unfold idle_live. simpl. intros ch H. congruence.
Qed.

Lemma finish_inv id st o c :
  opens c !! id = Some o -> finished o = false -> conn_inv c -> conn_inv (open_finish id st c).
Proof.
  intros Hid Hf [[Hsh Ho Hs] [Hi Hw Hn Hfr] _]. unfold open_finish. rewrite Hid.
  set (o' := mkOpen true (abandoned o) (abandoned o && st)).
  pose proof (count_val_update live_open o o' _ _ Hid) as Hl.
  pose proof (count_val_update stuck_open o o' _ _ Hid) as Hst.
  assert (Hcase : o = live_open \/ o = stuck_open)
    by (destruct (Hsh id o Hid) as [?|]; [congruence|done]).
  rewrite !(decide_False (P := o' = _)) in * by done.
  apply wake_inv; (split; simpl; [..|try done]); try done.
  - intros id' x [[<- <-]|[_ H]]%lookup_insert_Some; [by left|eauto].
  - destruct Hcase as [-> | ->]; simpl in *; lia.
  - destruct Hcase as [-> | ->]; simpl in *; lia.
  - intros Hne. destruct (Hw Hne) as [? H0]. split; [done|].
    unfold liveOpensLocked in *. simpl. destruct Hcase as [-> | ->]; simpl in *; lia.
Qed.

Lemma timeout_inv id now o c :
  opens c !! id = Some o -> abandoned o = false -> conn_inv c ->
  conn_inv (open_timeout id now c).1.
Proof.
  intros Hid Ha Hc. unfold open_timeout. rewrite Hid.
  destruct (finished o) eqn:Hf; [done|]. simpl. apply cool_inv.
  destruct Hc as [[Hsh Ho Hs] [Hi Hw Hn Hfr] _].
  destruct (Hsh id o Hid) as [?|[-> | ->]]; [congruence| |done].
  pose proof (count_val_update live_open live_open stuck_open _ _ Hid) as Hl.
  pose proof (count_val_update stuck_open live_open stuck_open _ _ Hid) as Hst. simpl in *.
  apply wake_inv; (split; simpl; [..|try done]); try done;
    unfold stuck_open, liveOpensLocked in *; simpl in *; try lia.
  - intros id' x [[<- <-]|[_ H]]%lookup_insert_Some; [by right; right|by eauto].
  - intros Hne. destruct (Hw Hne) as [? H0]. split; [done|lia].
Qed.

Lemma drain_inv c : retired c = true -> conn_inv c -> conn_inv (drain_wait c).1.
Proof.
  intros Hr Hc. unfold drain_wait. destruct (_ =? 0) eqn:E; [done|]. b2p.
  destruct (idle c) as [ch|] eqn:Ei; [done|]. simpl.
  destruct Hc as [Hcn [Hi Hw Hn Hf] _]. pose proof (live_is_count c Hcn). destruct Hcn.
  split; [by split|split; simpl; [done|by auto| |]|].
  - intros ch [Hin|[= <-]]; [|lia]. specialize (Hn ch (or_introl Hin)). lia.
  - intros ch [= <-] Hin. specialize (Hn (next c) (or_introl Hin)). lia.
  - intros ch _. unfold liveOpensLocked in *. simpl. lia.
Qed.

Lemma conn_exec_inv e c : enabled e c -> conn_inv c -> conn_inv (exec e c).
Proof.
  destruct e as [id|id st|id now| | |until cur]; simpl; intros He Hc.
  - destruct (open_begin id c) as [c'|] eqn:E; [by eapply begin_inv|done].
  - destruct He as (o & Hid & Hf). by eapply finish_inv.
  - destruct He as (o & Hid & Ha). by eapply timeout_inv.
  - destruct Hc as [[] [Hi Hw Hn Hf] ?]. repeat split; try done; naive_solver.
  - by apply drain_inv.
  - by apply cool_inv.
Qed.

Lemma conn_steps_inv c c' : rtc step c c' -> conn_inv c -> conn_inv c'.
Proof. apply (steps_invariant enabled exec). apply conn_exec_inv. Qed.

(** ** Draining *)

(** The channel a drain took is closed, or still the one to be closed. *)
Definition pending_on (ch : nat) (c : conn) : Prop := ch ∈ woken c \/ idle c = Some ch.

Lemma wake_pending ch c : pending_on ch c -> pending_on ch (wakeIfIdleLocked c).
Proof.
  unfold pending_on, wakeIfIdleLocked. intros H.
  destruct (idle c) eqn:E; [destruct (_ <=? _)|]; simpl; set_solver.
Qed.

Lemma cool_same until cur c :
  let c' := (cool_round until cur c).1 in
  retired c' = retired c /\ woken c' = woken c /\ idle c' = idle c /\ opens c' = opens c.
Proof. unfold cool_round. by repeat split_match. Qed.

Lemma coolDownFor_opens now d c : opens (coolDownFor now d c) = opens c.
Proof. apply cool_same. Qed.

Lemma coolDownFor_pending ch now d c : pending_on ch (coolDownFor now d c) <-> pending_on ch c.
Proof.
  unfold pending_on, coolDownFor.
  by destruct (cool_same (now + d) (coolUntil c) c) as (_ & -> & -> & _).
Qed.

Lemma wake_same c :
  retired (wakeIfIdleLocked c) = retired c /\ opens (wakeIfIdleLocked c) = opens c.
Proof. unfold wakeIfIdleLocked. by repeat split_match. Qed.

Lemma exec_retired e c : retired c = true -> retired (exec e c) = true.
Proof.
  intros Hr. destruct e as [id|id st|id now| | |until cur]; simpl; try done.
  - unfold open_begin. by rewrite Hr.
  - unfold open_finish. destruct (opens c !! id); [|done]. by rewrite (proj1 (wake_same _)).
  - unfold open_timeout. destruct (opens c !! id); [|done]. destruct (finished o); [done|].
    simpl. unfold coolDownFor. rewrite (proj1 (cool_same _ _ _)). by rewrite (proj1 (wake_same _)).
  - unfold drain_wait. by repeat split_match.
  - by rewrite (proj1 (cool_same _ _ _)).
Qed.

Lemma exec_pending ch e c : retired c = true -> pending_on ch c -> pending_on ch (exec e c).
Proof.
  intros Hr Hp. destruct e as [id|id st|id now| | |until cur]; simpl; try done.
  - unfold open_begin. by rewrite Hr.
  - unfold open_finish. destruct (opens c !! id); [|done]. by apply wake_pending.
  - unfold open_timeout. destruct (opens c !! id); [|done]. destruct (finished o); [done|].
    simpl. rewrite coolDownFor_pending.
    by apply wake_pending.
  - unfold drain_wait, pending_on in *. repeat split_match; simpl; naive_solver.
  - unfold pending_on. by destruct (cool_same until cur c) as (_ & -> & -> & _).
Qed.

(** On a retired session no live open is ever added. *)
Lemma exec_live_le e c :
  retired c = true -> enabled e c -> conn_inv c ->
  (count_val live_open (opens (exec e c)) <= count_val live_open (opens c))%nat.
Proof.
  intros Hr He Hc. destruct e as [id|id st|id now| | |until cur]; simpl; try done.
  - unfold open_begin. by rewrite Hr.
  - unfold open_finish. destruct (opens c !! id) as [o|] eqn:E; [|done].
    rewrite (proj2 (wake_same _)). simpl.
    pose proof (count_val_update live_open o (mkOpen true (abandoned o) (abandoned o && st)) _ _ E).
    simpl in *. lia.
  - unfold open_timeout. destruct (opens c !! id) as [o|] eqn:E; [|done].
    destruct (finished o); [done|]. simpl. rewrite coolDownFor_opens.
    rewrite (proj2 (wake_same _)). simpl.
    pose proof (count_val_update live_open o (mkOpen false true false) _ _ E). simpl in *. lia.
  - unfold drain_wait. by repeat split_match.
  - by destruct (cool_same until cur c) as (_ & _ & _ & ->).
Qed.

Lemma drain_keeps c c' :
  rtc step c c' -> retired c = true -> conn_inv c ->
  (count_val live_open (opens c') <= count_val live_open (opens c))%nat /\
  forall ch, pending_on ch c -> pending_on ch c'.
Proof.
  induction 1 as [|c1 c2 c3 [e [He ->]] _ IH]; [done|]. intros Hr Hc.
  destruct (IH (exec_retired e c1 Hr) (conn_exec_inv e c1 He Hc)) as [Hle Hp].
  pose proof (exec_live_le e c1 Hr He Hc). split; [lia|].
  intros ch Hch. by apply Hp, exec_pending.
Qed.

(** ** Properties *)

(** Open accounting: however the opens of a session, their time-outs, its
    retirement and its drains interleave, [opening] is the number of opens past
    the retired check whose goroutine has not returned, [stuck] the number of
    those given up on, a drain waits only on a retired session and only while an
    open that was not given up on is in flight, and a wait is over only once
    none is. *)
Theorem conn_reachable_inv (c : conn) (Hc : rtc step newConn c) :
  opening c = Z.of_nat (size (base.filter (fun kv => negb (finished kv.2) = true) (opens c))) /\
  stuck c = Z.of_nat (size (base.filter (fun kv => negb (finished kv.2) && abandoned kv.2 = true) (opens c))) /\
  (forall ch, idle c = Some ch -> retired c = true /\ 0 < liveOpensLocked c) /\
  (woken c <> ∅ -> retired c = true /\ liveOpensLocked c = 0).
Proof.
  pose proof (conn_steps_inv _ _ Hc conn_new_inv) as [Hcn [Hi Hw _ _] Hl]. simpl.
  assert (Hst : count_val stuck_open (opens c) =
    size (base.filter (fun kv => negb (finished kv.2) && abandoned kv.2 = true) (opens c))).
  { apply count_val_filter. intros id o Ho. destruct (inv_shape c Hcn id o Ho) as [Hf|[-> | ->]]; [|done|done].
    simpl. rewrite Hf. split; [by intros ->|done]. }
  assert (Hlv : count_val live_open (opens c) =
    size (base.filter (fun kv => negb (finished kv.2) && negb (abandoned kv.2) = true) (opens c))).
  { apply count_val_filter. intros id o Ho. destruct (inv_shape c Hcn id o Ho) as [Hf|[-> | ->]]; [|done|done].
    simpl. rewrite Hf. split; [by intros ->|done]. }
  rewrite (size_filter_split (fun kv => negb (finished kv.2)) (fun kv => abandoned kv.2)), <- Hst, <- Hlv.
  split_and!; [rewrite (inv_opening c Hcn); lia|apply (inv_stuck c Hcn)| |done].
  intros ch H. eauto.
Qed.

(** A drain is acknowledged in order: from the moment a retired session's
    drain looks at the opens, no open joins those that may still reach the
    agent; if it returns at once there are none, and if it waits on a channel,
    that channel is closed exactly when there are none left, whatever else
    runs: the wake-up is neither early nor lost. *)
Theorem drain_wait_exact (c c' : conn) (Hc : rtc step newConn c) (Hr : retired c = true)
    (Hc' : rtc step (drain_wait c).1 c') :
  (count_val live_open (opens c') <= count_val live_open (opens c))%nat /\
  match (drain_wait c).2 with
  | None => liveOpensLocked c' = 0
  | Some ch => ch ∈ woken c' <-> liveOpensLocked c' = 0
  end.
Proof.
  pose proof (conn_steps_inv _ _ Hc conn_new_inv) as Hinv.
  pose proof (drain_inv c Hr Hinv) as Hd.
  assert (Hlive : opens (drain_wait c).1 = opens c) by (unfold drain_wait; by repeat split_match).
  assert (Hstart : match (drain_wait c).2 with
    | None => liveOpensLocked c = 0 | Some ch => pending_on ch (drain_wait c).1 end).
  { unfold drain_wait, pending_on. destruct (_ =? 0) eqn:E; b2p; [done|].
    destruct (idle c) eqn:Ei; simpl; auto. }
  assert (Hr1 : retired (drain_wait c).1 = true) by apply (exec_retired EvDrain c Hr).
  destruct (drain_keeps _ _ Hc' Hr1 Hd) as [Hle Hp]. rewrite Hlive in Hle. split; [done|].
  pose proof (conn_steps_inv _ _ Hc' Hd) as [Hcn' [_ Hw' _ _] Hl'].
  pose proof (live_is_count c' Hcn') as Hn'. pose proof (live_is_count c (inv_counts c Hinv)) as Hn.
  destruct (drain_wait c).2 as [ch|]; [|lia]. split.
  - intros Hin. apply Hw'. set_solver.
  - intros H0. destruct (Hp ch Hstart) as [?|Hi]; [done|]. specialize (Hl' ch Hi). lia.
Qed.

(** ** Witnesses *)

Module AgentConnWitness.
(** Two opens begin, one times out, the agent asks to drain, the other open
    returns. *)
Definition c2 : conn := exec (EvTimeout 1 0) (exec (EvBegin 2) (exec (EvBegin 1) newConn)).
Definition c3 : conn := exec EvRetire c2.
Definition c4 : conn := exec (EvFinish 2 true) (drain_wait c3).1.

Ltac go e := rtc_step e ltac:(simpl; eauto).

Lemma reach3 : rtc step newConn c3.
Proof. go (EvBegin 1). go (EvBegin 2). go (EvTimeout 1 0). go EvRetire. apply rtc_refl. Qed.

Lemma conn_reachable_inv_witness :
  opening c3 = 2 /\ stuck c3 = 1 /\
  stuck c3 = Z.of_nat (size (base.filter
    (fun kv : nat * open_call => negb (finished kv.2) && abandoned kv.2 = true) (opens c3))).
Proof.
  split; [vm_compute; reflexivity|]. split; [vm_compute; reflexivity|].
  apply (conn_reachable_inv c3 reach3).
Defined.

Lemma drain_wait_exact_witness :
  (drain_wait c3).2 = Some 0%nat /\ (0%nat ∈ woken c4 <-> liveOpensLocked c4 = 0).
Proof.
  split; [vm_compute; reflexivity|].
  apply (drain_wait_exact c3 c4 reach3 eq_refl).
  go (EvFinish 2 true). apply rtc_refl.
Defined.
End AgentConnWitness.
