(* ===== verification/HttpHead.v ===== *)
(** * Reading a request head ([internal/edge/http.go], [internal/edge/wire.go])

    The ingress reads an HTTP/1.x head byte for byte from the client's
    connection, finds its Host, and tells a connection that ended without
    asking for anything from a malformed request. *)

From S2P Require Import Prelude GoStrings IO Route.

Definition maxHeaderBytes : Z := Z.shiftl 64 10.

(** The blank line that ends a head. *)
Definition CRLF2 : gostr := CRLF ++ CRLF.

Inductive head_error :=
| ErrHeadTooLarge
| ErrMultipleHosts
| ErrNoHost
| errNoRequest (cause : error)
| ErrIncompleteHead
| ErrHeadRead (cause : error).

(** ** [parseHost] *)

Section parse.
Context `{Unicode}.

(** A header line that sets Host. *)
Definition host_line (ln : gostr) : bool :=
  (5 <=? length ln)%nat && EqualFold (take 5 ln) (bs "host:").

Definition host_value (ln : gostr) : gostr := Normalize (TrimSpace (drop 5 ln)).

(** The loop over the header lines, with the host found so far. *)
Fixpoint parse_lines (lines : list gostr) (found : option gostr) : result head_error gostr :=
  match lines with
  | [] => match found with Some host => Ok host | None => Err ErrNoHost end
  | ln :: lines =>
      if host_line ln
      then match found with
           | Some _ => Err ErrMultipleHosts
           | None => parse_lines lines (Some (host_value ln))
           end
      else parse_lines lines found
  end.

Definition parseHost (head : gostr) : result head_error gostr :=
  parse_lines (tail (Split head CRLF)) None.

(** ** [readRequestHead] *)

(** The loop of [readRequestHead]; each round is one [Read] of at most 512
    bytes.  [None] is a read that does not return. *)
Fixpoint head_loop (fuel : nat) (buf : gostr) (maxBytes : Z) (r : script)
    : option (result head_error (gostr * gostr) * script) :=
  match fuel with
  | O => None
  | S fuel =>
      '(c, rerr, r') ← Read 512 r;
      let next :=
        match rerr with
        | None => head_loop fuel (buf ++ c) maxBytes r'
        | Some e =>
            let err :=
              if (length (buf ++ c) =? 0)%nat &&
                 (IsTeardown e || errors_is e ECONNRESET || errors_is e ErrDeadlineExceeded)
              then errNoRequest e
              else if error_eq e EOF then ErrIncompleteHead else ErrHeadRead e in
            Some (Err err, r')
        end in
      match c with
      | [] => next
      | _ =>
          let buf := buf ++ c in
          if maxBytes <? Z.of_nat (length buf) then Some (Err ErrHeadTooLarge, r')
          else match Index buf CRLF2 with
               | Some idx =>
                   match parseHost (take idx buf) with
                   | Ok h => Some (Ok (buf, h), r')
                   | Err e => Some (Err e, r')
                   end
               | None => next
               end
      end
  end.

Definition readRequestHead (r : script) (maxBytes : Z)
    : option (result head_error (gostr * gostr) * script) :=
  head_loop (S (script_size r)) [] maxBytes r.
End parse.

(** ** Connections that end without a request ([wire.go]) *)

(** [wireConn]'s flags. *)
Record wireConn := mkWire { sawBytes : bool; tunnel : bool }.

(** [wireConn.Read] on top of what the network delivered. *)
Definition wire_read (cap : nat) (w : wireConn) (s : script)
    : option (gostr * option error * script * wireConn) :=
  '(c, e, s') ← Read cap s;
  Some (c, e, s',
        if (0 <? length c)%nat then mkWire true (tunnel w) else w).

(** The connection types the ingress meets; a TLS connection has a
    [wireConn] beneath it or another connection. *)
Inductive net_conn :=
| TLSConn (HandshakeComplete : bool) (NetConn : option wireConn)
| TCPConn
| OtherConn.

Definition closedWithoutRequest (conn : net_conn) : bool :=
  match conn with
  | TLSConn true _ => true
  | TLSConn false (Some wc) => negb (sawBytes wc)
  | TLSConn false None => false
  | TCPConn => true
  | OtherConn => false
  end.

(** ** Lemmas *)

Section lemmas.
Context `{Unicode}.

Lemma parse_lines_found lines h0 :
  parse_lines lines (Some h0) =
  if existsb host_line lines then Err ErrMultipleHosts else Ok h0.
Proof. induction lines as [|l lines IH]; simpl; [done|]. by destruct (host_line l). Qed.

Lemma parse_lines_spec lines :
  parse_lines lines None =
  match List.filter host_line lines with
  | [] => Err ErrNoHost
  | [ln] => Ok (host_value ln)
  | _ => Err ErrMultipleHosts
  end.
Proof.
  induction lines as [|l lines IH]; simpl; [done|].
  destruct (host_line l); [|done]. rewrite parse_lines_found.
  destruct (existsb host_line lines) eqn:E.
  - apply existsb_exists in E as (x & Hx & Hh).
    destruct (List.filter host_line lines) eqn:El; [|done].
    assert (Hin : In x (List.filter host_line lines)) by (apply filter_In; done).
    by rewrite El in Hin.
  - destruct (List.filter host_line lines) as [|y t] eqn:El; [done|].
    assert (Hin : In y (List.filter host_line lines)) by (rewrite El; by left).
    apply filter_In in Hin as [Hin Hy]. exfalso.
    rewrite (proj2 (existsb_exists _ _)) in E; [done|by eauto].
Qed.

(** What a returned head is, from a buffer that holds no complete head yet. *)
Lemma head_loop_ok fuel buf maxBytes r out h r' :
  head_loop fuel buf maxBytes r = Some (Ok (out, h), r') -> Index buf CRLF2 = None ->
  out ++ script_bytes r' = buf ++ script_bytes r /\ Z.of_nat (length out) <= maxBytes /\
  exists idx, Index out CRLF2 = Some idx /\ parseHost (take idx out) = Ok h /\
    (length out < idx + 4 + 512)%nat.
Proof.
  revert buf r; induction fuel as [|fuel IH]; intros buf r; cbn [head_loop]; [done|].
  destruct (Read 512 r) as [[[c rerr] r1]|] eqn:ER; [|done]. cbn [mbind option_bind].
  pose proof (Read_bytes _ _ _ _ _ ER) as Hb. pose proof (Read_cap _ _ _ _ _ ER) as Hcap.
  destruct c as [|a c].
  - destruct rerr; [done|]. intros Hl Hbuf. rewrite app_nil_r in Hl. rewrite Hb. by apply (IH buf r1).
  - set (nb := buf ++ a :: c). destruct (_ <? _) eqn:Esz; [done|]. b2p.
    destruct (Index nb CRLF2) as [idx|] eqn:Ei.
    + destruct (parseHost (take idx nb)) as [h'|] eqn:Eh; [|done]. intros [= <- <- <-] Hbuf.
      rewrite Hb. unfold nb at 1. rewrite <- app_assoc. split; [done|]. split; [done|].
      exists idx. split; [done|]. split; [done|].
      pose proof (Index_new _ _ _ _ Hbuf Ei) as Hnew. change (length CRLF2) with 4%nat in Hnew.
      unfold nb. rewrite length_app. lia.
    + destruct rerr; [done|]. intros Hl _. destruct (IH nb r1 Hl Ei) as (Hout & ? & ?).
      rewrite Hout, Hb. unfold nb. by rewrite <- app_assoc.
Qed.

(** An error-free connection that delivers a whole head is answered by that
    head alone, however its bytes arrive. *)
Lemma head_loop_ends fuel buf maxBytes r :
  (script_size r < fuel)%nat -> ends r -> head_loop fuel buf maxBytes r <> None.
Proof.
  revert buf r; induction fuel as [|fuel IH]; intros buf r Hf Hr; [lia|]. cbn [head_loop].
  destruct (Read_ends 512 r Hr) as (c & e & r1 & ER & Hr1). rewrite ER. cbn [mbind option_bind].
  pose proof (Read_size 512 _ _ _ _ ltac:(lia) ER) as Hsz.
  assert (Hnext : forall b, e = None -> head_loop fuel b maxBytes r1 <> None) by (intros; apply IH; [lia|by apply Hr1]).
  destruct c; [|repeat (split_match; try done)]; destruct e; auto.
Qed.

(** *** What a head is answered with *)

(** The end of a connection before a complete head. *)
Definition head_end (bytes : gostr) (e : error) : head_error :=
  if (length bytes =? 0)%nat && (IsTeardown e || errors_is e ECONNRESET || errors_is e ErrDeadlineExceeded)
  then errNoRequest e
  else if error_eq e EOF then ErrIncompleteHead else ErrHeadRead e.

(** The host or the error, whatever else was read; [None] while it waits. *)
Definition outcome (x : option (result head_error (gostr * gostr) * script)) : option (result head_error gostr) :=
  (fun y => match y.1 with Ok (_, h) => Ok h | Err e => Err e end) <$> x.

(** What may be returned on bytes that end with [e], if they end: the first
    complete head decides, if it fits.  A read takes up to 512 bytes, so a head
    that ends less than 511 bytes under the limit may be refused with it, by how
    much comes with its end. *)
Definition head_answer (bytes : gostr) (e : option error) (maxBytes : Z) (res : option (result head_error gostr)) : Prop :=
  match Index bytes CRLF2 with
  | Some idx =>
      if Z.of_nat idx + 4 + 511 <=? maxBytes then res = Some (parseHost (take idx bytes))
      else if Z.of_nat idx + 4 <=? maxBytes
      then res = Some (parseHost (take idx bytes)) \/ res = Some (Err ErrHeadTooLarge)
      else res = Some (Err ErrHeadTooLarge)
  | None =>
      if maxBytes <? Z.of_nat (length bytes) then res = Some (Err ErrHeadTooLarge)
      else res = (fun e => Err (head_end bytes e)) <$> e
  end.

(** More than the limit read, and less than one read past the end of the head. *)
Lemma answer_too_large bytes e maxBytes nb :
  maxBytes < Z.of_nat (length nb) -> (exists t, bytes = nb ++ t) ->
  (forall idx, Index bytes CRLF2 = Some idx -> (length nb <= idx + 4 + 511)%nat) ->
  head_answer bytes e maxBytes (Some (Err ErrHeadTooLarge)).
Proof.
  intros Hn [t ->] Hi. unfold head_answer. destruct (Index _ CRLF2) as [idx|].
  - specialize (Hi idx eq_refl). destruct (_ <=? _) eqn:E1; b2p; [lia|]. destruct (_ <=? _); auto.
  - rewrite length_app. destruct (_ <? _) eqn:E; b2p; [done|lia].
Qed.

Lemma head_loop_answer fuel buf maxBytes r :
  (script_size r < fuel)%nat -> Index buf CRLF2 = None -> Z.of_nat (length buf) <= maxBytes ->
  head_answer (buf ++ (delivered r).1) (delivered r).2 maxBytes (outcome (head_loop fuel buf maxBytes r)).
Proof.
  revert buf r; induction fuel as [|fuel IH]; intros buf r Hf Hbuf Hlen; [lia|].
  cbn [head_loop]. destruct (Read 512 r) as [[[c rerr] r1]|] eqn:ER.
  2: { destruct r as [|[d e] r]; simpl in ER; [|by destruct (_ <=? _)%nat]. simpl. rewrite app_nil_r.
       unfold head_answer. rewrite Hbuf. destruct (_ <? _) eqn:E; b2p; [lia|done]. }
  cbn [mbind option_bind]. rewrite (Read_delivered _ _ _ _ _ ER).
  pose proof (Read_cap _ _ _ _ _ ER) as Hcap. pose proof (Read_size 512 _ _ _ _ ltac:(lia) ER) as Hsz.
  assert (Hend : forall e nb, Index nb CRLF2 = None -> Z.of_nat (length nb) <= maxBytes ->
    head_answer nb (Some e) maxBytes (Some (Err (head_end nb e)))).
  { intros e nb Hi Hl. unfold head_answer. rewrite Hi. destruct (_ <? _) eqn:E; b2p; [lia|done]. }
  destruct c as [|a c].
  - destruct rerr as [e|]; [|rewrite app_nil_r; simpl; apply IH; [lia|done..]].
    cbn [fst snd]. rewrite app_nil_r. by apply Hend.
  - set (nb := buf ++ a :: c) in *. set (rest := match rerr with Some _ => [] | None => (delivered r1).1 end).
    set (last := match rerr with Some e => Some e | None => (delivered r1).2 end).
    assert (Ed : match rerr with Some e => (a :: c, Some e) | None => ((a :: c) ++ (delivered r1).1, (delivered r1).2) end =
      ((a :: c) ++ rest, last)) by (unfold rest, last; destruct rerr; by rewrite ?app_nil_r). rewrite Ed. cbn [fst snd].
    assert (Hnb : buf ++ (a :: c) ++ rest = nb ++ rest) by (unfold nb; by rewrite <- app_assoc). rewrite Hnb.
    assert (Hl : (length nb <= length buf + 512)%nat) by (unfold nb; rewrite length_app; lia).
    assert (Hnew : forall idx, Index (nb ++ rest) CRLF2 = Some idx -> (length nb <= idx + 4 + 511)%nat).
    { intros idx Hi. rewrite <- Hnb in Hi. pose proof (Index_new _ _ _ _ Hbuf Hi) as Hx. change (length CRLF2) with 4%nat in Hx. lia. }
    destruct (_ <? _) eqn:E; b2p; [by eapply answer_too_large; eauto|].
    destruct (Index nb CRLF2) as [i|] eqn:Ei.
    + pose proof (Index_mono _ rest _ _ Ei) as Hm. pose proof (Index_bound _ _ _ Ei) as Hb. change (length CRLF2) with 4%nat in Hb.
      unfold head_answer. rewrite Hm, take_app_le by lia. destruct (_ <=? _); [|destruct (_ <=? _) eqn:E2; b2p; [left|lia]];
        by destruct (parseHost (take i nb)).
    + subst rest last. destruct rerr as [e|]; [rewrite app_nil_r; by apply Hend|apply IH; [lia|done..]].
Qed.
End lemmas.

(** ** Properties *)

Section properties.
Context `{Unicode}.

(** Host routing is unambiguous: the head made of a request line and header
    lines has a Host exactly when one header line is a Host line, its value
    trimmed and normalized; with none or with several the head is refused,
    wherever they stand. *)
Theorem parseHost_unambiguous (reqline : gostr) (fields : list gostr)
    (Hlines : Forall (fun l => Index l CRLF = None) (reqline :: fields)) :
  parseHost (Join (reqline :: fields) CRLF) =
  match List.filter host_line fields with
  | [] => Err ErrNoHost
  | [ln] => Ok (host_value ln)
  | _ => Err ErrMultipleHosts
  end.
Proof. unfold parseHost. rewrite Split_lines by done. apply parse_lines_spec. Qed.

(** Nothing of a request is lost or read twice: the head returned and what
    is left on the connection are together exactly the bytes the client sent,
    the head fits the limit and reaches less than one read past its blank
    line, and its host is that of the first complete head in the bytes sent. *)
Theorem readRequestHead_exact (r r' : script) (maxBytes : Z) (head host : gostr)
    (Hread : readRequestHead r maxBytes = Some (Ok (head, host), r')) :
  head ++ script_bytes r' = script_bytes r /\ Z.of_nat (length head) <= maxBytes /\
  exists idx, Index (script_bytes r) CRLF2 = Some idx /\
    (idx + 4 <= length head < idx + 4 + 512)%nat /\
    parseHost (take idx (script_bytes r)) = Ok host.
Proof.
  destruct (head_loop_ok _ _ _ _ _ _ _ Hread) as (Hb & Hm & idx & Hi & Hh & Hlen); [done|].
  simpl in Hb. rewrite <- Hb. split; [done|]. split; [done|]. exists idx.
  pose proof (Index_bound _ _ _ Hi) as Hbd. change (length CRLF2) with 4%nat in Hbd.
  split; [by apply Index_mono|]. split; [lia|]. rewrite take_app_le by lia. done.
Qed.

(** [C26] The bytes decide, not the reads they come in: whatever the arrivals, the
    loop answers as [head_answer] says of the bytes up to the first error and of
    that error: the host of the first complete head, or why it has none, if the
    head ends 511 bytes or more under the limit; too large if it does not fit, or
    if more comes than the limit without one; otherwise what the end of the
    connection means, and nothing while there is none.  So two connections that
    deliver the same bytes and end are answered alike, but for a head that fits the
    limit and ends less than 511 bytes under it, which some reads refuse as too
    large. *)
Theorem readRequestHead_chunking (r1 r2 : script) (maxBytes : Z)
    (Hmax : 0 <= maxBytes) (Hsame : delivered r1 = delivered r2) :
  head_answer (delivered r1).1 (delivered r1).2 maxBytes (outcome (readRequestHead r1 maxBytes)) /\
  ((forall idx, Index (delivered r1).1 CRLF2 = Some idx ->
      Z.of_nat idx + 4 + 511 <= maxBytes \/ maxBytes < Z.of_nat idx + 4) ->
   outcome (readRequestHead r1 maxBytes) = outcome (readRequestHead r2 maxBytes)).
Proof.
  assert (H1 : forall r, head_answer (delivered r).1 (delivered r).2 maxBytes (outcome (readRequestHead r maxBytes)))
    by (intros r; apply (head_loop_answer (S (script_size r)) [] maxBytes r); [lia|done|done]).
  split; [apply H1|]. intros Hi. pose proof (H1 r1) as A1. pose proof (H1 r2) as A2. rewrite <- Hsame in A2.
  unfold head_answer in A1, A2. destruct (Index (delivered r1).1 CRLF2) as [idx|].
  - destruct (Hi idx eq_refl); destruct (Z.of_nat idx + 4 + 511 <=? maxBytes) eqn:E1; b2p; try lia; [congruence|].
    destruct (Z.of_nat idx + 4 <=? maxBytes) eqn:E2; b2p; [lia|congruence].
  - destruct (_ <? _); congruence.
Qed.
End properties.

(** ** Witnesses *)

Module HttpHeadWitness.
#[local] Existing Instance ascii_only.

Definition reqline : gostr := bs "GET / HTTP/1.1".
Definition hostline : gostr := bs "hOsT: Example.com:443".
Definition request : gostr := Join [reqline; hostline] CRLF ++ CRLF2.
(** The request in one arrival, and byte by byte. *)
Definition whole : script := [(request, None)].
Definition dribble : script := map (fun c => ([c], None)) request.

Lemma parseHost_unambiguous_witness :
  parseHost (Join [reqline; hostline] CRLF) = Ok (bs "example.com").
Proof.
  rewrite (parseHost_unambiguous reqline [hostline]).
  - vm_compute. reflexivity.
  - repeat constructor.
Defined.

Lemma readRequestHead_exact_witness :
  request ++ [] = script_bytes dribble /\ Z.of_nat (length request) <= maxHeaderBytes.
Proof.
  destruct (readRequestHead_exact dribble [] maxHeaderBytes request (bs "example.com")) as (H1 & H2 & _).
  - vm_compute. reflexivity.
  - exact (conj H1 H2).
Defined.

Lemma readRequestHead_chunking_witness :
  outcome (readRequestHead dribble maxHeaderBytes) = Some (Ok (bs "example.com")) /\
  outcome (readRequestHead whole maxHeaderBytes) = outcome (readRequestHead dribble maxHeaderBytes).
Proof.
  split; [vm_compute; reflexivity|].
  assert (Hm : 0 <= maxHeaderBytes) by (vm_compute; discriminate).
  assert (Hd : delivered whole = delivered dribble) by (vm_compute; reflexivity).
  refine (proj2 (readRequestHead_chunking whole dribble maxHeaderBytes Hm Hd) _).
  intros idx Hi. left. assert (Hx : Index (delivered whole).1 CRLF2 = Some 37%nat) by (vm_compute; reflexivity).
  rewrite Hx in Hi. injection Hi as <-. vm_compute. discriminate.
Defined.

(** Near the limit the cut does matter: the request fits the limit exactly, and
    one more byte with its end makes it too large. *)
Lemma cut_matters : exists r1 r2 maxBytes, delivered r1 = delivered r2 /\
  outcome (readRequestHead r1 maxBytes) = Some (Ok (bs "example.com")) /\
  outcome (readRequestHead r2 maxBytes) = Some (Err ErrHeadTooLarge).
Proof.
  exists [(request, None); (bs "x", None)], [(request ++ bs "x", None)], (Z.of_nat (length request)).
  split_and!; vm_compute; reflexivity.
Qed.
End HttpHeadWitness.
