(* ===== verification/AltSvc.v ===== *)
(** * Advertising HTTP/3 on the TCP ingress ([internal/edge/altsvc.go])

    A tunnel stream whose first final response head gets an Alt-Svc header;
    everything else passes through byte for byte. *)

From S2P Require Import Prelude GoStrings IO Route HttpHead.

(** ** The end of a head *)

(** The text after a line break starts with an empty line. *)
Definition blank (next : gostr) : bool :=
  match next with
  | c :: t => ceq c LF || (ceq c CR && match t with d :: _ => ceq d LF | [] => false end)
  | [] => false
  end.

(** The loop of [hasBareLF], with the byte before. *)
Fixpoint bare_lf (prev : option ascii) (b : gostr) : bool :=
  match b with
  | [] => false
  | c :: b =>
      (ceq c LF && negb (match prev with Some p => ceq p CR | None => false end)) ||
      bare_lf (Some c) b
  end.

Definition hasBareLF (b : gostr) : bool := bare_lf None b.

(** What [headEnd] returns for the line break at [i]. *)
Definition end_at (buf : gostr) (i : nat) : nat * bool :=
  let after_cr := (0 <? i)%nat && match buf !! (i - 1)%nat with Some c => ceq c CR | None => false end in
  let fin := if after_cr then (i - 1)%nat else i in
  let next_cr := match buf !! (i + 1)%nat with Some c => ceq c CR | None => false end in
  (fin, after_cr && next_cr && negb (hasBareLF (take (i + 1) buf))).

(** The loop of [headEnd] at the line feed [i]; every round moves to a later
    one, so [length buf] rounds are enough. *)
Fixpoint head_end_loop (fuel : nat) (buf : gostr) (i : nat) : option (nat * bool) :=
  match fuel with
  | O => None
  | S fuel =>
      if (i + 1 <? length buf)%nat then
        let next := drop (i + 1) buf in
        if blank next then Some (end_at buf i)
        else match IndexByte next LF with
             | None => None
             | Some j => head_end_loop fuel buf (i + (1 + j))
             end
      else None
  end.

(** [None] is [-1, false]. *)
Definition headEnd (buf : gostr) : option (nat * bool) :=
  match IndexByte buf LF with
  | None => None
  | Some i => head_end_loop (length buf) buf i
  end.

(** ** The status line *)

Section head.
Context `{Unicode}.

Definition statusCode (head : gostr) : option gostr :=
  let '(line, _, _) := Cut head [LF] in
  match Fields line with
  | proto :: code :: _ =>
      if HasPrefix proto (bs "HTTP/1.") && (length code =? 3)%nat then Some code else None
  | _ => None
  end.

Definition starts_with_1 (code : gostr) : bool :=
  match code with c :: _ => ceq c "1"%char | [] => false end.

Definition isInterim (head : gostr) : bool :=
  match statusCode head with
  | Some code => starts_with_1 code && negb (beq code (bs "101"))
  | None => false
  end.

(** ** Adding the header *)

Definition folded (l : gostr) : bool :=
  match l with c :: _ => ceq c " "%char || ceq c (byte 9) | [] => false end.

Definition isAltSvcField (l : gostr) : bool :=
  if folded l then false
  else let '(name, _, ok) := Cut l (bs ":") in ok && EqualFold (TrimSpace name) (bs "alt-svc").

(** The loop of [withAltSvc] over the header lines: the bytes to append, [None]
    when the service set its own field and it is not to be replaced.  Every
    round cuts a line and its break, so [length fields] rounds are enough. *)
Fixpoint field_loop (fuel : nat) (fields : gostr) (dropping replace : bool) : option gostr :=
  match fuel, fields with
  | _, [] => Some []
  | O, _ => Some []
  | S fuel, _ =>
      let '(l, fields, _) := Cut fields CRLF in
      if folded l && dropping then field_loop fuel fields dropping replace
      else if isAltSvcField l
      then if replace then field_loop fuel fields true replace else None
      else out ← field_loop fuel fields false replace; Some (CRLF ++ l ++ out)
  end.

Definition withAltSvc (buf : gostr) (fin : nat) (value : gostr) (replace : bool) : gostr :=
  let head := take fin buf in
  match statusCode head with
  | None => buf
  | Some code =>
      if starts_with_1 code then buf
      else
        let '(status, fields, _) := Cut head CRLF in
        match field_loop (length fields) fields false replace with
        | None => buf
        | Some out => status ++ out ++ CRLF ++ bs "Alt-Svc: " ++ value ++ drop fin buf
        end
  end.

(** ** The connection *)

(** [altSvcConn]; [tmp] is only a read buffer. *)
Record altSvcConn := mkAltSvc {
  value : gostr;
  replace : bool;
  pending : gostr;
  rest : gostr;
  done_ : bool;
}.

Definition newAltSvcConn (v : gostr) (r : bool) : altSvcConn := mkAltSvc v r [] [] false.

Definition with_pending (a : altSvcConn) (p r : gostr) (d : bool) : altSvcConn :=
  mkAltSvc (value a) (replace a) p r d.

(** The loop of [Read] that collects the next head into [buf], up to the
    recursive call [return a.Read(b)]: the state it leaves, what is left on the
    connection, and, when it returns nothing but an error, that error. *)
Fixpoint collect (fuel : nat) (a : altSvcConn) (buf : gostr) (s : script)
    : option (altSvcConn * script * option error) :=
  match fuel with
  | O => None
  | S fuel =>
      match headEnd buf with
      | Some (fin, crlf) =>
          let next := if crlf then (fin + 4)%nat else (fin + 2)%nat in
          let a' :=
            if negb crlf || (maxHeaderBytes <? Z.of_nat fin) then with_pending a buf [] true
            else if isInterim (take fin buf)
            then with_pending a (take next buf) (drop next buf) false
            else with_pending a (withAltSvc buf fin (value a) (replace a)) [] true in
          Some (a', s, None)
      | None =>
          if maxHeaderBytes <? Z.of_nat (length buf)
          then Some (with_pending a buf [] true, s, None)
          else
            '(c, err, s') ← Read 4096 s;
            let buf := buf ++ c in
            match err, c with
            | Some e, [] =>
                Some (with_pending a buf [] true, s',
                      if (length buf =? 0)%nat then Some e else None)
            | _, _ => collect fuel a buf s'
            end
      end
  end.

(** The recursion [return a.Read(b)] reaches bytes to hand out, or the
    connection itself, at once: one more round is enough. *)
Definition read_pending (a : altSvcConn) (cap : nat) (s : script)
    : option (gostr * option error * altSvcConn * script) :=
  match pending a with
  | [] => '(c, e, s') ← Read cap s; Some (c, e, a, s')
  | p => Some (take cap p, None, with_pending a (drop cap p) (rest a) (done_ a), s)
  end.

(** [altSvcConn.Read] into a buffer of [cap] bytes. *)
Definition alt_read (a : altSvcConn) (cap : nat) (s : script)
    : option (gostr * option error * altSvcConn * script) :=
  match pending a with
  | [] =>
      if done_ a then '(c, e, s') ← Read cap s; Some (c, e, a, s')
      else
        match collect (S (script_size s)) (with_pending a [] [] false) (rest a) s with
        | None => None
        | Some (a', s', Some e) => Some ([], Some e, a', s')
        | Some (a', s', None) => read_pending a' cap s'
        end
  | _ => read_pending a cap s
  end.
End head.

(** ** The end of a head, as a search *)

(** A line feed followed by an empty line. *)
Definition brk_here (s : gostr) : bool :=
  match s with c :: t => ceq c LF && blank t | [] => false end.

Fixpoint find_brk (s : gostr) : option nat :=
  match s with
  | [] => None
  | _ :: t => if brk_here s then Some 0%nat else S <$> find_brk t
  end.

Lemma find_brk_skip a s : LF ∉ a -> find_brk (a ++ s) = Nat.add (length a) <$> find_brk s.
Proof.
  induction a as [|c a IH]; simpl; [by destruct (find_brk s)|].
  rewrite not_elem_of_cons. intros [Hc Ha].
  rewrite (proj2 (ceq_false c LF)) by done. simpl. rewrite IH by done.
  by destruct (find_brk s).
Qed.

Lemma IndexByte_split s c i :
  IndexByte s c = Some i -> exists a t, s = a ++ c :: t /\ c ∉ a /\ length a = i.
Proof.
  intros ((x & Hx & Hc) & Hlt)%index_by_Some. apply ceq_true in Hc as <-.
  pose proof (lookup_lt_Some _ _ _ Hx). exists (take i s), (drop (S i) s).
  split; [by rewrite take_drop_middle|]. split; [|rewrite length_take; lia].
  intros (j & Hj)%list_elem_of_lookup. apply lookup_take_Some in Hj as [Hj Hji].
  specialize (Hlt j c Hji Hj). by apply ceq_false in Hlt.
Qed.

Lemma find_brk_bound s i : find_brk s = Some i -> (i + 2 <= length s)%nat.
Proof.
  revert i; induction s as [|c s IH]; intros i; simpl; [done|].
  destruct (ceq c LF && blank s) eqn:E.
  - intros [= <-]. b2p. destruct s; [done|simpl; lia].
  - intros (j & Hj & ->)%fmap_Some. specialize (IH j Hj). lia.
Qed.

Lemma head_end_loop_spec fuel buf i :
  (length buf <= i + fuel)%nat -> buf !! i = Some LF ->
  head_end_loop fuel buf i = end_at buf <$> (Nat.add i <$> find_brk (drop i buf)).
Proof.
  revert i; induction fuel as [|fuel IH]; intros i Hf Hi.
  { apply lookup_lt_Some in Hi. lia. }
  cbn [head_end_loop]. rewrite (drop_S _ _ _ Hi). cbn [find_brk brk_here].
  rewrite (proj2 (ceq_true LF LF) eq_refl), andb_true_l.
  replace (S i) with (i + 1)%nat by lia. destruct (i + 1 <? length buf)%nat eqn:E; b2p.
  2: { by rewrite (drop_ge buf (i + 1)) by lia. }
  destruct (blank (drop (i + 1) buf)); [simpl; by rewrite Nat.add_0_r|].
  destruct (IndexByte (drop (i + 1) buf) LF) as [j|] eqn:Ej.
  - apply IndexByte_split in Ej as (a & t & Ht & Hnin & Hl).
    rewrite IH; [|lia|].
    + rewrite Ht, find_brk_skip, Hl by done.
      assert (Hd : drop (i + (1 + j)) buf = LF :: t).
      { rewrite Nat.add_assoc, <- drop_drop, Ht, drop_app_ge by lia. rewrite Hl.
        by replace (j - j)%nat with 0%nat by lia. }
      rewrite Hd. destruct (find_brk (LF :: t)); simpl; [|done]. do 2 f_equal. lia.
    + apply (f_equal (fun l => l !! j)) in Ht. rewrite lookup_drop in Ht.
      rewrite Nat.add_assoc, Ht. apply list_lookup_middle. by rewrite Hl.
  - apply IndexByte_None in Ej.
    pose proof (find_brk_skip (drop (i + 1) buf) [] Ej) as Hn. rewrite app_nil_r in Hn.
    by rewrite Hn.
Qed.

Lemma headEnd_spec buf : headEnd buf = end_at buf <$> find_brk buf.
Proof.
  unfold headEnd. destruct (IndexByte buf LF) as [i|] eqn:Ei.
  - apply IndexByte_split in Ei as (a & t & Ht & Hnin & Hl).
    rewrite head_end_loop_spec; [|lia|].
    + assert (Hf : find_brk buf = Nat.add i <$> find_brk (LF :: t))
        by (rewrite Ht, find_brk_skip, Hl; done).
      rewrite Hf. do 3 f_equal. rewrite Ht, drop_app_ge by lia. rewrite Hl.
      by replace (i - i)%nat with 0%nat by lia.
    + rewrite Ht. apply list_lookup_middle. by rewrite Hl.
  - apply IndexByte_None in Ei. pose proof (find_brk_skip buf [] Ei) as Hn.
    rewrite app_nil_r in Hn. by rewrite Hn.
Qed.

Lemma blank_mono s t : blank s = true -> blank (s ++ t) = true.
Proof.
  destruct s as [|c [|d s]]; simpl; [done| |done]. rewrite andb_false_r, orb_false_r.
  by intros ->.
Qed.

(** With two more bytes after it, whether a line is blank is settled. *)
Lemma blank_settled s t : (2 <= length s)%nat -> blank (s ++ t) = blank s.
Proof. destruct s as [|c [|d s]]; simpl; [lia|lia|done]. Qed.

Lemma find_brk_mono s t i : find_brk s = Some i -> find_brk (s ++ t) = Some i.
Proof.
  revert i; induction s as [|c s IH]; intros i; simpl; [done|].
  destruct (ceq c LF && blank s) eqn:E.
  - intros [= <-]. b2p. by rewrite blank_mono, H.
  - intros (j & Hj & ->)%fmap_Some. pose proof (find_brk_bound s j Hj).
    rewrite blank_settled, E, (IH j Hj) by lia. done.
Qed.

Lemma find_brk_new s t i :
  find_brk s = None -> find_brk (s ++ t) = Some i -> (length s <= i + 2)%nat.
Proof.
  revert i; induction s as [|c s IH]; intros i; simpl; [lia|].
  destruct (ceq c LF && blank s) eqn:E; [done|]. rewrite fmap_None. intros Hs.
  destruct (decide (2 <= length s)%nat); [|lia]. rewrite blank_settled, E by done.
  intros (j & Hj & ->)%fmap_Some. specialize (IH j Hs Hj). lia.
Qed.

Lemma hasBareLF_take b c n : (n <= length b)%nat -> hasBareLF (take n (b ++ c)) = hasBareLF (take n b).
Proof. intros. by rewrite take_app_le. Qed.

Lemma end_at_mono buf t i : (i + 2 <= length buf)%nat -> end_at (buf ++ t) i = end_at buf i.
Proof.
  intros Hi. unfold end_at. rewrite !lookup_app_l by lia. by rewrite hasBareLF_take by lia.
Qed.

Lemma headEnd_mono buf t r : headEnd buf = Some r -> headEnd (buf ++ t) = Some r.
Proof.
  rewrite !headEnd_spec. intros (i & Hi & ->)%fmap_Some.
  rewrite (find_brk_mono _ _ _ Hi). simpl. by rewrite end_at_mono by by apply find_brk_bound.
Qed.

Lemma end_at_le buf i : ((end_at buf i).1 <= i <= (end_at buf i).1 + 1)%nat.
Proof. unfold end_at. simpl. destruct (0 <? i)%nat eqn:E, (buf !! (i - 1)%nat) as [c|]; simpl; b2p;
  try destruct (ceq c CR); simpl; lia. Qed.

(** A head that ends in new bytes ends at most three bytes before them. *)
Lemma headEnd_new buf t fin crlf :
  headEnd buf = None -> headEnd (buf ++ t) = Some (fin, crlf) -> (length buf <= fin + 3)%nat.
Proof.
  rewrite !headEnd_spec, fmap_None. intros Hn (i & Hi & He)%fmap_Some.
  pose proof (find_brk_new _ _ _ Hn Hi). pose proof (end_at_le (buf ++ t) i) as Hle.
  rewrite <- He in Hle. simpl in Hle. lia.
Qed.

(** A head all in CRLF is followed by its blank line. *)
Lemma headEnd_crlf buf fin :
  headEnd buf = Some (fin, true) -> exists h t, buf = h ++ CRLF2 ++ t /\ length h = fin.
Proof.
  rewrite headEnd_spec. intros (i & Hi & He)%fmap_Some. unfold end_at in He.
  assert (Hb : exists a t, buf = a ++ LF :: t /\ length a = i /\ blank t = true).
  { clear He. revert i Hi. induction buf as [|c buf IH]; intros i; simpl; [done|].
    destruct (ceq c LF && blank buf) eqn:E.
    - intros [= <-]. b2p. exists [], buf. apply ceq_true in H as ->. done.
    - intros (j & Hj & ->)%fmap_Some. destruct (IH j Hj) as (a & t & -> & <- & Ht).
      exists (c :: a), t. done. }
  destruct Hb as (a & t & -> & <- & Ht).
  injection He as Hfin Hc. symmetry in Hc. b2p.
  match goal with H : match _ !! (length a - 1)%nat with _ => _ end = true |- _ => rename H into Hcr end.
  match goal with H : match _ !! (length a + 1)%nat with _ => _ end = true |- _ => rename H into Hn end.
  rewrite lookup_app_l in Hcr by lia. rewrite lookup_app_r in Hn by lia.
  replace (length a + 1 - length a)%nat with 1%nat in Hn by lia.
  destruct t as [|c t]; simpl in Hn; [done|]. apply ceq_true in Hn as ->.
  destruct t as [|d t]; [done|]. simpl in Ht. apply ceq_true in Ht as ->.
  destruct (a !! (length a - 1)%nat) as [c|] eqn:Ec; [|done]. apply ceq_true in Hcr as ->.
  assert (Hne : a <> []) by (intros ->; simpl in *; lia).
  destruct (exists_last Hne) as (a' & x & ->). rewrite length_app in *. simpl in *.
  replace (length a' + 1 - 1)%nat with (length a') in * by lia.
  rewrite lookup_app_r, Nat.sub_diag in Ec by lia. simpl in Ec. injection Ec as ->.
  exists a', t. split; [by rewrite <- !app_assoc|].
  rewrite Hfin. destruct (0 <? length a' + 1)%nat eqn:E0; b2p; [|lia].
  rewrite lookup_app_l, lookup_app_r, Nat.sub_diag by (rewrite ?length_app; simpl; lia). simpl.
  by replace (length a' + 1 - 1)%nat with (length a') by lia.
Qed.

(** ** The output *)

Section output.
Context `{Unicode}.
Implicit Types (a : altSvcConn) (s : script) (v t u : gostr).

(** What may be sent to the client for the response bytes [s]: interim heads
    pass, the first final head that is all in CRLF gets its Alt-Svc, and
    everything else passes; a head within three bytes of the limit or past it
    may be left as it is. *)
Inductive allowed (v : gostr) (r : bool) : gostr -> gostr -> Prop :=
| allowed_as_is x :
    match headEnd x with
    | None => True
    | Some (fin, crlf) => crlf = false \/ maxHeaderBytes - 2 <= Z.of_nat fin
    end ->
    allowed v r x x
| allowed_interim x fin u :
    headEnd x = Some (fin, true) -> Z.of_nat fin <= maxHeaderBytes ->
    isInterim (take fin x) = true -> allowed v r (drop (fin + 4) x) u ->
    allowed v r x (take (fin + 4) x ++ u)
| allowed_final x fin :
    headEnd x = Some (fin, true) -> Z.of_nat fin <= maxHeaderBytes ->
    isInterim (take fin x) = false ->
    allowed v r x (withAltSvc x fin v r).

(** What a connection may still send. *)
Definition expects a s t : Prop :=
  if done_ a then t = pending a ++ script_bytes s
  else exists u, allowed (value a) (replace a) (rest a ++ script_bytes s) u /\ t = pending a ++ u.

(** Arrivals without an error, then one that is reported again and again. *)
Definition ends_with (k : nat) (e : error) s : Prop :=
  exists s0, no_errors s0 /\ s = s0 ++ replicate k ([], Some e).

Lemma ends_with_read k e cap s c err s' :
  ends_with k e s -> Read cap s = Some (c, err, s') ->
  (err = None /\ ends_with k e s') \/
  (err = Some e /\ c = [] /\ script_bytes s = [] /\ script_bytes s' = [] /\ ends_with (k - 1) e s').
Proof.
  intros (s0 & Hs0 & ->). destruct s0 as [|[d e0] s0].
  - assert (Hbr : forall n, script_bytes (replicate n ([], Some e)) = []) by (by induction n).
    destruct k as [|k]; simpl; [done|]. intros [= <- <- <-]. right. rewrite Hbr.
    split_and!; [done..|]. exists []. split; [constructor|]. simpl. by rewrite Nat.sub_0_r.
  - apply Forall_cons in Hs0 as [He0 Hs0]. simpl in He0. subst e0. simpl.
    destruct (_ <=? _)%nat; intros [= <- <- <-]; left; (split; [done|]).
    + by exists s0.
    + exists ((drop cap d, None) :: s0). split; [by constructor|done].
Qed.

Lemma ends_with_some k e cap s : ends_with (S k) e s -> Read cap s <> None.
Proof.
  intros (s0 & _ & ->). destruct s0 as [|[c err] s0]; simpl; [done|].
  by destruct (_ <=? _)%nat.
Qed.

Lemma withAltSvc_app buf t fin v r :
  (fin <= length buf)%nat -> withAltSvc (buf ++ t) fin v r = withAltSvc buf fin v r ++ t.
Proof.
  intros Hf. unfold withAltSvc. rewrite take_app_le, drop_app_le by done.
  destruct (statusCode (take fin buf)) as [code|]; [|done].
  destruct (starts_with_1 code); [done|]. destruct (Cut (take fin buf) CRLF) as [[status fields] ok].
  destruct (field_loop _ _ _ _); [|done]. by rewrite <- !app_assoc.
Qed.

(** The collected head and what is read after it send what is allowed. *)
Lemma collect_sound fuel a buf s a' s' k e t :
  collect fuel a buf s = Some (a', s', None) -> ends_with (S k) e s -> expects a' s' t ->
  allowed (value a) (replace a) (buf ++ script_bytes s) t /\
  value a' = value a /\ replace a' = replace a.
Proof.
  revert buf s; induction fuel as [|fuel IH]; intros buf s; cbn [collect]; [done|].
  destruct (headEnd buf) as [[fin crlf]|] eqn:Eh.
  - pose proof (headEnd_mono buf (script_bytes s) _ Eh) as Hm. intros [= <- <-] _. unfold expects.
    destruct (negb crlf || _) eqn:E1.
    { simpl. intros ->. split; [|done]. apply allowed_as_is. rewrite Hm.
      apply orb_true_iff in E1 as [?|?]; b2p; [by left|right; lia]. }
    b2p. subst crlf. destruct (headEnd_crlf _ _ Eh) as (h & w & -> & Hl).
    assert (Hlen : (fin + 4 <= length (h ++ CRLF2 ++ w))%nat)
      by (rewrite !length_app; change (length CRLF2) with 4%nat; lia).
    set (buf := h ++ CRLF2 ++ w) in *. destruct (isInterim (take fin buf)) eqn:Ei; simpl.
    + intros (u & Hu & ->). split; [|done].
      rewrite <- (take_app_le buf (script_bytes s)) by done.
      apply allowed_interim; [done|lia| |].
      * by rewrite take_app_le by lia.
      * by rewrite drop_app_le by lia.
    + intros ->. split; [|done]. rewrite <- withAltSvc_app by lia.
      apply allowed_final; [done|lia|]. by rewrite take_app_le by lia.
  - destruct (maxHeaderBytes <? Z.of_nat (length buf)) eqn:E1; b2p.
    { intros [= <- <-] _. unfold expects. simpl. intros ->. split; [|done]. apply allowed_as_is.
      destruct (headEnd (buf ++ script_bytes s)) as [[fin crlf]|] eqn:E2; [|done].
      right. pose proof (headEnd_new _ _ _ _ Eh E2). lia. }
    destruct (Read 4096 s) as [[[c err] s1]|] eqn:ER; [|done]. cbn [mbind option_bind].
    intros Hc Hend Ht. rewrite (Read_bytes _ _ _ _ _ ER).
    destruct (ends_with_read _ _ _ _ _ _ _ Hend ER) as [[-> Hend1]|(-> & -> & _ & Hb1 & Hend1)].
    + rewrite app_assoc. by apply (IH (buf ++ c) s1).
    + rewrite app_nil_r in *. rewrite Hb1. destruct (_ =? _)%nat; [done|].
      injection Hc as <- <-. unfold expects in Ht. simpl in *. rewrite Hb1, app_nil_r in *. subst t.
      split; [|done]. apply allowed_as_is. by rewrite Eh.
Qed.

Lemma Cut_lengths x sep l t ok :
  Cut x sep = (l, t, ok) ->
  (ok = true /\ length x = length l + length sep + length t)%nat \/ (l = x /\ t = []).
Proof.
  intros Hc. destruct ok.
  - left. apply Cut_true in Hc. subst x. rewrite !length_app. split; [done|lia].
  - right. unfold Cut in Hc. by destruct (Index x sep); simplify_eq.
Qed.

Lemma field_loop_length fuel fields d r out :
  field_loop fuel fields d r = Some out ->
  (length out <= match fields with [] => 0 | _ => length fields + 2 end)%nat.
Proof.
  revert fields d out; induction fuel as [|fuel IH]; intros fields d out.
  { destruct fields; simpl; intros [= <-]; simpl; lia. }
  cbn [field_loop]. destruct fields as [|c fields]; [by intros [= <-]|].
  destruct (Cut (c :: fields) CRLF) as [[l t] ok] eqn:Ec. apply Cut_lengths in Ec.
  change (length CRLF) with 2%nat in Ec.
  assert (Hdrop : forall d', field_loop fuel t d' r = Some out ->
    (length out <= length (c :: fields) + 2)%nat).
  { intros d' Ho%IH. destruct Ec as [[_ E]|[-> ->]]; [destruct t; simpl in *; lia|simpl in *; lia]. }
  destruct (folded l && d); [apply Hdrop|]. destruct (isAltSvcField l).
  { destruct r; [apply Hdrop|done]. }
  destruct (field_loop fuel t false r) as [o|] eqn:Eo; [|done]. intros [= <-]. apply IH in Eo.
  simpl length at 1. rewrite ?length_app.
  destruct Ec as [[_ E]|[-> ->]]; [destruct t; simpl in *; lia|simpl in *; lia].
Qed.

Lemma withAltSvc_length buf fin v r :
  (length (withAltSvc buf fin v r) <= length buf + length v + 11)%nat.
Proof.
  unfold withAltSvc. destruct (statusCode _) as [code|]; [|lia].
  destruct (starts_with_1 code); [lia|].
  destruct (Cut (take fin buf) CRLF) as [[status fields] ok] eqn:Ec. apply Cut_lengths in Ec.
  destruct (field_loop _ fields false r) as [out|] eqn:Eo; [|lia]. apply field_loop_length in Eo.
  rewrite !length_app, length_drop. change (length CRLF) with 2%nat in *.
  change (length (bs "Alt-Svc: ")) with 9%nat.
  pose proof (length_take buf fin) as Hlt.
  assert (length status + length out <= fin `min` length buf)%nat; [|lia].
  destruct Ec as [[_ E]|[-> ->]]; [destruct fields; simpl in *; lia|simpl in *; lia].
Qed.

(** Bytes still to send, and reads still to make, are bounded by this. *)
Definition budget a s : nat :=
  (script_size s + length (pending a) + length (rest a) +
   if done_ a then 0 else length (value a) + 12)%nat.

Lemma collect_budget fuel a buf s a' s' err :
  collect fuel a buf s = Some (a', s', err) ->
  (budget a' s' <= script_size s + length buf + length (value a) + 12)%nat /\
  (done_ a' = true -> budget a' s' < script_size s + length buf + length (value a) + 12)%nat /\
  (pending a' = [] -> done_ a' = true).
Proof.
  revert buf s; induction fuel as [|fuel IH]; intros buf s; cbn [collect]; [done|].
  destruct (headEnd buf) as [[fin crlf]|] eqn:Eh.
  - intros [= <- <- <-]. destruct (negb crlf || _) eqn:E1; [unfold budget; simpl; split; [lia|]; split; [lia|done]|].
    destruct (isInterim (take fin buf)); unfold budget; simpl.
    + b2p. subst crlf. destruct (headEnd_crlf _ _ Eh) as (h & w & -> & Hl).
      rewrite length_take, length_drop. split; [lia|]. split; [done|].
      intros Hp%(f_equal length). rewrite length_take, !length_app in Hp.
      change (length CRLF2) with 4%nat in Hp. simpl in Hp. lia.
    + pose proof (withAltSvc_length buf fin (value a) (replace a)). split; [lia|]. split; [lia|done].
  - destruct (_ <? _); [intros [= <- <- <-]; unfold budget; simpl; split; [lia|]; split; [lia|done]|].
    destruct (Read 4096 s) as [[[c er] s1]|] eqn:ER; [|done]. cbn [mbind option_bind].
    assert (Hsz : (script_size s1 + length c <= script_size s)%nat).
    { destruct s as [|[d e0] s]; [done|]. cbn [Read] in ER.
      destruct (_ <=? _)%nat eqn:El; injection ER as <- <- <-; b2p; cbn [script_size]; [lia|].
      rewrite length_take, length_drop. lia. }
    assert (Hrec : collect fuel a (buf ++ c) s1 = Some (a', s', err) ->
      (budget a' s' <= script_size s + length buf + length (value a) + 12)%nat /\
      (done_ a' = true -> budget a' s' < script_size s + length buf + length (value a) + 12)%nat /\
      (pending a' = [] -> done_ a' = true)).
    { intros (H1 & H2 & H3)%IH. rewrite length_app in *. split; [lia|]. split; [|done].
      intros Hd. specialize (H2 Hd). lia. }
    destruct er as [e|]; [|by apply Hrec]. destruct c as [|x c]; [|by apply Hrec].
    intros [= <- <- _]. rewrite app_nil_r. unfold budget. simpl in *. split; [lia|]. split; [lia|done].
Qed.

Lemma collect_total fuel a buf s k e :
  (script_size s < fuel)%nat -> ends_with (S k) e s ->
  exists a' s' err, collect fuel a buf s = Some (a', s', err) /\
    (ends_with (S k) e s' \/ (done_ a' = true /\ ends_with k e s')) /\
    (err <> None -> err = Some e /\ buf ++ script_bytes s = []).
Proof.
  revert buf s; induction fuel as [|fuel IH]; intros buf s Hf Hend; [lia|]. cbn [collect].
  destruct (headEnd buf) as [[fin crlf]|]; [do 3 eexists; split_and!; [done|by left|done]|].
  destruct (_ <? _); [do 3 eexists; split_and!; [done|by left|done]|].
  destruct (Read 4096 s) as [[[c er] s1]|] eqn:ER; [|by destruct (ends_with_some _ _ _ _ Hend ER)].
  cbn [mbind option_bind]. pose proof (Read_size 4096 _ _ _ _ ltac:(lia) ER) as Hsz.
  destruct (ends_with_read _ _ _ _ _ _ _ Hend ER) as [[-> Hend1]|(-> & -> & Hb & Hb1 & Hend1)].
  - destruct (IH (buf ++ c) s1) as (a' & s' & err & Hc & He & Herr); [lia|done|].
    exists a', s', err. split; [done|]. split; [done|].
    rewrite (Read_bytes _ _ _ _ _ ER), app_assoc. done.
  - rewrite app_nil_r, Hb, app_nil_r. do 3 eexists. split; [done|]. simpl in Hend1. rewrite Nat.sub_0_r in Hend1.
    split; [by right|]. destruct (length buf =? 0)%nat eqn:El; b2p; [|done].
    intros _. split; [done|]. by destruct buf.
Qed.

(** Enough repetitions of the final error are left. *)
Definition live_end (e : error) a s : Prop :=
  exists k, ends_with (S k) e s /\ (done_ a = false -> (1 <= k)%nat).

(** What one [Read] of a connection does: it makes progress and hands out the
    next bytes of what may be sent, or it reports the end after the last. *)
Definition good_step (e : error) (a : altSvcConn) (s : script)
    (res : option (gostr * option error * altSvcConn * script)) : Prop :=
  match res with
  | None => False
  | Some (c, None, a', s') =>
      live_end e a' s' /\ (budget a' s' < budget a s)%nat /\
      value a' = value a /\ replace a' = replace a /\
      forall t, expects a' s' t -> expects a s (c ++ t)
  | Some (c, Some e', _, _) => e' = e /\ expects a s c
  end.

Lemma read_pending_step e a cap s :
  (0 < cap)%nat -> live_end e a s -> (pending a = [] -> done_ a = true) ->
  good_step e a s (read_pending a cap s).
Proof.
  intros Hcap (k & Hend & Hk) Hp. unfold read_pending.
  destruct (pending a) as [|p0 p] eqn:Ep.
  - specialize (Hp eq_refl).
    destruct (Read cap s) as [[[c er] s']|] eqn:ER; [|by destruct (ends_with_some _ _ _ _ Hend ER)].
    cbn [mbind option_bind]. pose proof (Read_size _ _ _ _ _ Hcap ER) as Hsz.
    pose proof (Read_bytes _ _ _ _ _ ER) as Hb.
    destruct (ends_with_read _ _ _ _ _ _ _ Hend ER) as [[-> Hend1]|(-> & -> & Hb0 & _ & _)];
      unfold good_step, expects; rewrite Hp, Ep; simpl.
    + split; [by exists k; rewrite Hp|]. split; [unfold budget; rewrite Hp; lia|].
      split_and!; [done|done|]. intros t ->. by rewrite Hb.
    + by rewrite Hb0.
  - simpl. split; [by exists k|]. unfold budget. rewrite Ep. cbn [pending rest done_ with_pending value].
    split; [rewrite length_drop; simpl; lia|]. split_and!; [done|done|].
    intros t. unfold expects. rewrite Ep. cbn [pending rest done_ with_pending value replace].
    destruct (done_ a).
    + intros ->. by rewrite app_assoc, take_drop.
    + intros (u & Hu & ->). exists u. split; [done|]. by rewrite app_assoc, take_drop.
Qed.

Lemma alt_read_step e a cap s :
  (0 < cap)%nat -> live_end e a s -> good_step e a s (alt_read a cap s).
Proof.
  intros Hcap Hlive. unfold alt_read. destruct (pending a) as [|p0 p] eqn:Ep.
  2: { apply read_pending_step; [done|done|]. by rewrite Ep. }
  destruct (done_ a) eqn:Ed.
  { pose proof (read_pending_step e a cap s Hcap Hlive) as Hstep.
    unfold read_pending in Hstep. rewrite Ep in Hstep. by apply Hstep. }
  destruct Hlive as (k & Hend & Hk). specialize (Hk Ed). destruct k as [|k]; [lia|].
  destruct (collect_total (S (script_size s)) (with_pending a [] [] false) (rest a) s (S k) e)
    as (a' & s' & err & Hc & He & Herr); [lia|done|].
  rewrite Hc. destruct err as [er|].
  { destruct Herr as [[= ->] Hnil]; [done|]. unfold good_step. split; [done|].
    unfold expects. rewrite Ed, Ep, Hnil. exists []. split; [by apply allowed_as_is|done]. }
  destruct (collect_budget _ _ _ _ _ _ _ Hc) as (Hb1 & Hb2 & Hb3).
  assert (Hlive' : live_end e a' s').
  { destruct He as [He|[Hd He]]; [exists (S k); split; [done|lia]|]. exists k. by rewrite Hd. }
  pose proof (read_pending_step e a' cap s' Hcap Hlive' Hb3) as Hstep.
  assert (Hb : (budget a' s' <= budget a s)%nat).
  { unfold budget at 2. rewrite Ed, Ep. simpl in *. lia. }
  assert (Hexp : forall t, expects a' s' t -> expects a s t).
  { intros t Ht. destruct (collect_sound _ _ _ _ _ _ _ _ _ Hc Hend Ht) as (Ha & _ & _).
    unfold expects. rewrite Ed, Ep. exists t. split; [exact Ha|done]. }
  assert (Hv : value a' = value a /\ replace a' = replace a).
  { clear -Hc. revert Hc. generalize (rest a). generalize (S (script_size s)).
    intros fuel. revert s. induction fuel as [|fuel IH]; intros s buf; cbn [collect]; [done|].
    destruct (headEnd buf) as [[fin crlf]|]; [intros [= <- <-]; by repeat split_match|].
    destruct (_ <? _); [by intros [= <- <-]|].
    destruct (Read 4096 s) as [[[c er] s1]|]; [|done]. cbn [mbind option_bind].
    destruct er; [|apply IH]. destruct c; [|apply IH]. by intros [= <- <- _]. }
  destruct (read_pending a' cap s') as [[[[c [er|]] a2] s2]|]; simpl in *; [naive_solver| |done].
  destruct Hstep as (? & ? & ? & ? & ?). destruct Hv. split_and!; [done|lia|congruence|congruence|auto].
Qed.

(** Successive reads into buffers of the given sizes, until one reports an
    error. *)
Fixpoint drain_reads (caps : list nat) (a : altSvcConn) (s : script) : gostr * option error :=
  match caps with
  | [] => ([], None)
  | cap :: caps =>
      match alt_read a cap s with
      | None => ([], None)
      | Some (c, Some e, _, _) => (c, Some e)
      | Some (c, None, a', s') => let '(o, e) := drain_reads caps a' s' in (c ++ o, e)
      end
  end.

Lemma drain_reads_sound e caps a s :
  Forall (fun cap => 0 < cap)%nat caps -> live_end e a s -> (budget a s <= length caps)%nat ->
  exists out, drain_reads caps a s = (out, Some e) /\ expects a s out.
Proof.
  revert a s; induction caps as [|cap caps IH]; intros a s Hcaps Hlive Hb.
  { destruct Hlive as (k & (s0 & _ & ->) & _). unfold budget in Hb.
    destruct s0 as [|[c ?] s0]; simpl in Hb; lia. }
  apply Forall_cons in Hcaps as [Hcap Hcaps]. cbn [drain_reads].
  pose proof (alt_read_step e a cap s Hcap Hlive) as Hstep.
  destruct (alt_read a cap s) as [[[[c [er|]] a'] s']|]; simpl in Hstep; [| |done].
  - destruct Hstep as [-> He]. by exists c.
  - destruct Hstep as (Hl' & Hb' & _ & _ & Hexp).
    destruct (IH a' s' Hcaps Hl') as (out & Ho & He); [simpl in Hb; lia|].
    rewrite Ho. exists (c ++ out). split; [done|]. by apply Hexp.
Qed.
End output.

(** ** The edited head, line by line *)

Section lines.
Context `{Unicode}.

(** The header lines that stay: Alt-Svc fields go, with the folded lines that
    continue them. *)
Fixpoint kept (dropping : bool) (ls : list gostr) : list gostr :=
  match ls with
  | [] => []
  | l :: ls =>
      if folded l && dropping then kept dropping ls
      else if isAltSvcField l then kept true ls
      else l :: kept false ls
  end.

Definition header_line (l : gostr) : Prop := Index l CRLF = None /\ l <> [].

Lemma Cut_line l rest : Index l CRLF = None -> Cut (l ++ CRLF ++ rest) CRLF = (l, rest, true).
Proof.
  intros Hl. unfold Cut. rewrite Index_CRLF by done. rewrite take_app_length.
  by rewrite app_assoc, <- length_app, drop_app_length.
Qed.

Lemma Cut_last l : Index l CRLF = None -> Cut l CRLF = (l, [], false).
Proof. unfold Cut. by intros ->. Qed.

(** The text each kept line adds. *)
Definition lines_text (ls : list gostr) : gostr := concat (map (fun l => CRLF ++ l) ls).

Lemma Join_text l ls : Join (l :: ls) CRLF = l ++ lines_text ls.
Proof.
  revert l; induction ls as [|m ls IH]; intros l.
  - unfold lines_text. simpl. by rewrite app_nil_r.
  - change (Join (l :: m :: ls) CRLF) with (l ++ CRLF ++ Join (m :: ls) CRLF).
    rewrite IH. unfold lines_text. cbn [map concat]. by rewrite <- app_assoc.
Qed.

Lemma field_loop_lines fuel ls d r :
  Forall header_line ls -> (length ls <= fuel)%nat ->
  (forall x, d = true -> r = false -> x ∈ ls -> isAltSvcField x = false) ->
  field_loop fuel (Join ls CRLF) d r =
  if negb r && existsb isAltSvcField ls then None else Some (lines_text (kept d ls)).
Proof.
  revert fuel d; induction ls as [|l ls IH]; intros fuel d Hls Hf Hd.
  { simpl. rewrite andb_false_r. by destruct fuel. }
  apply Forall_cons in Hls as [[Hl Hne] Hls]. destruct fuel as [|fuel]; [simpl in *; lia|].
  assert (Hcut : exists ok, Cut (Join (l :: ls) CRLF) CRLF = (l, Join ls CRLF, ok)).
  { destruct ls as [|m ls]; [exists false; by apply Cut_last|].
    exists true. by apply (Cut_line l (Join (m :: ls) CRLF)). }
  destruct Hcut as [ok Hcut].
  assert (Hnil : Join (l :: ls) CRLF <> []).
  { rewrite Join_text. by destruct l. }
  assert (Hunf : field_loop (S fuel) (Join (l :: ls) CRLF) d r =
    if folded l && d then field_loop fuel (Join ls CRLF) d r
    else if isAltSvcField l then (if r then field_loop fuel (Join ls CRLF) true r else None)
    else out ← field_loop fuel (Join ls CRLF) false r; Some (CRLF ++ l ++ out)).
  { cbn [field_loop]. destruct (Join (l :: ls) CRLF); [done|]. by rewrite Hcut. }
  rewrite Hunf. simpl in Hf. cbn [kept existsb].
  destruct (folded l && d) eqn:Efd.
  { rewrite IH; [|done|lia|set_solver].
    assert (isAltSvcField l = false) as -> by (b2p; unfold isAltSvcField; by rewrite H0). done. }
  destruct (isAltSvcField l) eqn:Ea.
  - destruct r; simpl; [|done]. rewrite IH; [done|done|lia|done].
  - simpl. rewrite IH; [|done|lia|done]. destruct (negb r && existsb isAltSvcField ls); [done|].
    unfold lines_text. by cbn [map concat mbind option_bind]; rewrite <- app_assoc.
Qed.

Lemma kept_sub d ls : sublist (kept d ls) ls.
Proof.
  revert d; induction ls as [|l ls IH]; intros d; simpl; [constructor|].
  destruct (folded l && d); [by constructor|]. destruct (isAltSvcField l); by constructor.
Qed.

Lemma kept_none d ls l : l ∈ kept d ls -> isAltSvcField l = false.
Proof.
  revert d; induction ls as [|m ls IH]; intros d; simpl; [set_solver|].
  destruct (folded m && d); [apply IH|]. destruct (isAltSvcField m) eqn:E; [apply IH|].
  intros [->|?]%elem_of_cons; [done|by eapply IH].
Qed.

(** Every other field's first line stays, in order. *)
Lemma kept_others d ls :
  let other l := negb (folded l) && negb (isAltSvcField l) in
  List.filter other (kept d ls) = List.filter other ls.
Proof.
  intros other. revert d; induction ls as [|l ls IH]; intros d; simpl; [done|].
  destruct (folded l && d) eqn:Ef.
  - b2p. assert (other l = false) as -> by (unfold other; by rewrite H0). apply IH.
  - destruct (isAltSvcField l) eqn:Ea.
    + assert (other l = false) as -> by (unfold other; by rewrite Ea, andb_false_r). apply IH.
    + simpl. destruct (other l); by rewrite IH.
Qed.

(** No Alt-Svc field: every line stays. *)
Lemma kept_all ls : existsb isAltSvcField ls = false -> kept false ls = ls.
Proof.
  induction ls as [|l ls IH]; simpl; [done|]. rewrite andb_false_r.
  intros [-> Hl]%orb_false_elim. by rewrite IH.
Qed.
End lines.

(** ** Properties *)

Section properties.
Context `{Unicode}.

(** [C25] The response stream is delivered whole: however the agent's bytes
    arrive and whatever the sizes of the client side's reads, reading until
    the stream's error terminates, reports that error, and yields the bytes
    received with at most the first final CRLF head edited by [withAltSvc];
    interim heads, bodies, later responses and heads that are not annotated
    pass unchanged.  Only a head within three bytes of the size limit may be
    left alone or annotated depending on the arrivals. *)
Theorem alt_svc_output (v : gostr) (r : bool) (s0 : script) (e : error) (caps : list nat)
    (Hs0 : no_errors s0) (Hcaps : Forall (fun cap => 0 < cap)%nat caps)
    (Hlong : (script_size s0 + length v + 14 <= length caps)%nat) :
  exists out,
    drain_reads caps (newAltSvcConn v r) (s0 ++ [([], Some e); ([], Some e)]) = (out, Some e) /\
    allowed v r (script_bytes s0) out.
Proof.
  set (s := s0 ++ [([], Some e); ([], Some e)]).
  assert (Hsz : script_size s = (script_size s0 + 2)%nat /\ script_bytes s = script_bytes s0).
  { unfold s. clear. induction s0 as [|[c x] s0 [IH1 IH2]]; simpl; [done|].
    rewrite IH1, IH2. split; [lia|done]. }
  destruct Hsz as [Hsz Hb].
  destruct (drain_reads_sound e caps (newAltSvcConn v r) s) as (out & Ho & Hexp); [done| | |].
  - exists 1%nat. split; [|lia]. by exists s0.
  - unfold budget. simpl. rewrite Hsz. lia.
  - exists out. split; [done|]. unfold expects in Hexp. simpl in Hexp.
    destruct Hexp as (u & Hu & ->). by rewrite <- Hb.
Qed.

(** The edit itself: on a head of a status line that is not 1xx and header
    lines, [withAltSvc] puts one Alt-Svc line with the value after the lines it
    keeps and leaves what follows the head alone.  It drops nothing but Alt-Svc
    fields, and those completely; when the service set its own and it is not to
    be replaced, the bytes are unchanged. *)
Theorem withAltSvc_edit (status : gostr) (fields : list gostr) (tail v code : gostr) (r : bool)
    (Hstatus : Index status CRLF = None) (Hfields : Forall header_line fields)
    (Hcode : statusCode (Join (status :: fields) CRLF) = Some code)
    (Hfinal : starts_with_1 code = false) :
  let head := Join (status :: fields) CRLF in
  withAltSvc (head ++ tail) (length head) v r =
    (if negb r && existsb isAltSvcField fields then head ++ tail
     else Join (status :: kept false fields ++ [bs "Alt-Svc: " ++ v]) CRLF ++ tail) /\
  sublist (kept false fields) fields /\
  (forall l, l ∈ kept false fields -> isAltSvcField l = false) /\
  List.filter (fun l => negb (folded l) && negb (isAltSvcField l)) (kept false fields) =
  List.filter (fun l => negb (folded l) && negb (isAltSvcField l)) fields.
Proof.
  intros head. split; [|split; [apply kept_sub|split; [apply kept_none|apply kept_others]]].
  unfold withAltSvc. rewrite take_app_length, drop_app_length. unfold head at 1. rewrite Hcode, Hfinal.
  assert (Hcut : exists ok, Cut head CRLF = (status, Join fields CRLF, ok)).
  { unfold head. destruct fields as [|m ls]; [exists false; by apply Cut_last|].
    exists true. by apply (Cut_line status (Join (m :: ls) CRLF)). }
  destruct Hcut as [ok ->].
  assert (Hlen : (length fields <= length (Join fields CRLF))%nat).
  { clear -Hfields. induction Hfields as [|l ls [_ Hne] _ IH]; [simpl; lia|].
    destruct ls as [|m ls]; [destruct l; [done|simpl; lia]|].
    change (Join (l :: m :: ls) CRLF) with (l ++ CRLF ++ Join (m :: ls) CRLF).
    rewrite !length_app. change (length CRLF) with 2%nat.
    change (length (l :: m :: ls)) with (S (length (m :: ls))). lia. }
  rewrite field_loop_lines by done. destruct (negb r && _); [done|].
  rewrite Join_text. unfold lines_text. rewrite map_app, concat_app. cbn [map concat].
  by rewrite app_nil_r, <- !app_assoc.
Qed.
End properties.

(** ** Witnesses *)

Module AltSvcWitness.
#[local] Existing Instance ascii_only.

Definition v : gostr := bs "h3=:443".
Definition status : gostr := bs "HTTP/1.1 200 OK".
Definition fields : list gostr := [bs "Server: x"; bs "alt-svc: old"; bs " folded"; bs "Via: y"].
Definition response : gostr := Join (status :: fields) CRLF ++ CRLF2 ++ bs "body".
Definition interim : gostr := bs "HTTP/1.1 103 Early Hints" ++ CRLF2.

Lemma alt_svc_output_witness :
  exists out,
    drain_reads (repeat 7%nat 300) (newAltSvcConn v true)
      (map (fun c => ([c], None)) (interim ++ response) ++ [([], Some [EOF]); ([], Some [EOF])]) =
    (out, Some [EOF]) /\ allowed v true (interim ++ response) out.
Proof.
  destruct (alt_svc_output v true (map (fun c => ([c], None)) (interim ++ response)) [EOF] (repeat 7%nat 300))
    as (out & Ho & Ha).
  - repeat constructor.
  - apply Forall_forall. intros n Hn%list_elem_of_In%repeat_spec. subst n. lia.
  - vm_compute. lia.
  - exists out. split; [exact Ho|]. exact Ha.
Defined.

Lemma withAltSvc_edit_witness :
  withAltSvc response (length (Join (status :: fields) CRLF)) v true =
  Join [status; bs "Server: x"; bs "Via: y"; bs "Alt-Svc: h3=:443"] CRLF ++ CRLF2 ++ bs "body".
Proof.
  destruct (withAltSvc_edit status fields (CRLF2 ++ bs "body") v (bs "200") true) as (H & _).
  - vm_compute. reflexivity.
  - unfold header_line. repeat constructor; discriminate.
  - vm_compute. reflexivity.
  - vm_compute. reflexivity.
  - exact H.
Defined.
End AltSvcWitness.
