(* ===== verification/H3Pool.v ===== *)
(** * Tunnel streams kept between HTTP/3 requests ([internal/edge/h3pool.go])

    The pool of idle tunnel streams of every HTTP/3 connection, what an open
    stream holds (a slot of its route's cap, its share of the agent's stream
    count and of the route's gauge), and the connection-cap slots
    ([internal/edge/limit.go], [routeSlot] and [slotFromKept] of
    [internal/edge/http3.go]).  Each operation is one critical section under
    [h3Pool.mu]; pointers are identities. *)

From S2P Require Import Prelude GoStrings.

(** ** Semaphores ([limit.go]) *)

(** [None] is the nil semaphore: unlimited.  Otherwise the capacity of its
    channel and how many slots are in it. *)
Record sema := mkSema { cap : Z; used : Z }.
Abbreviation semaphore := (option sema).

Definition newSemaphore (n : Z) : semaphore :=
  if n <=? 0 then None else Some (mkSema n 0).

Definition tryAcquire (s : semaphore) : semaphore * bool :=
  match s with
  | None => (None, true)
  | Some s => if used s <? cap s then (Some (mkSema (cap s) (used s + 1)), true) else (Some s, false)
  end.

(** [acquire]: [None] while it waits; [ended] is whether its context has
    ended.  With both possible Go picks either, [prefer] says which. *)
Definition acquire (s : semaphore) (ended prefer : bool) : option (semaphore * bool) :=
  match tryAcquire s with
  | (s', true) => if ended && prefer && bool_decide (s <> None) then Some (s, false) else Some (s', true)
  | (_, false) => if ended then Some (s, false) else None
  end.

(** [release] receives from the channel. *)
Definition release (s : semaphore) : semaphore :=
  match s with
  | None => None
  | Some s => Some (mkSema (cap s) (used s - 1))
  end.

(** ** Data *)

Record tunnelStream := mkTS { ts_id : nat; ts_agent : nat; ts_rs : nat; ts_host : gostr }.

(** [done] is whether the watcher has returned. *)
Record idleStream := mkIS {
  is_ts : tunnelStream;
  is_cs : nat;
  taken : bool;
  done_ : bool;
  live : bool;
}.

Record connStreams := mkCS { idle : gmap gostr (list nat); n : Z; cs_closed : bool }.

(** The pool, with the heap of [connStreams] and [idleStream] objects it and
    its callers point to. *)
Record h3Pool := mkPool {
  all : gset nat;
  closed : bool;
  conns : gmap nat connStreams;
  idles : gmap nat idleStream;
}.

Definition newH3Pool : h3Pool := mkPool ∅ false ∅ ∅.

Definition maxKeptPerConn : Z := 32.

(** ** Operations *)

Definition newConn (cs : nat) (p : h3Pool) : h3Pool :=
  mkPool (all p) (closed p) (<[cs := mkCS ∅ 0 false]> (conns p)) (idles p).

Definition kept_list (c : connStreams) (host : gostr) : list nat := default [] (idle c !! host).

(** [put]'s critical section: [None] when the stream is not kept (the caller
    closes it).  [waiters] is [slotWaiters] of its route, [retired] whether its
    agent is draining, [id] the identity of the new [idleStream]. *)
Definition put (cs id : nat) (ts : tunnelStream) (waiters : Z) (retired : bool) (p : h3Pool)
    : option h3Pool :=
  c ← conns p !! cs;
  if closed p || cs_closed c || (maxKeptPerConn <=? n c) || (0 <? waiters) || retired then None
  else
    Some (mkPool ({[id]} ∪ all p) (closed p)
      (<[cs := mkCS (<[ts_host ts := kept_list c (ts_host ts) ++ [id]]> (idle c)) (n c + 1) (cs_closed c)]>
         (conns p))
      (<[id := mkIS ts cs false false false]> (idles p))).

Definition remove_id (id : nat) : list nat -> list nat := remove_first (Nat.eqb id).

Definition removeLocked (id : nat) (p : h3Pool) : h3Pool :=
  match idles p !! id with
  | None => p
  | Some i =>
      if taken i then p
      else
        let conns' :=
          match conns p !! is_cs i with
          | None => conns p
          | Some c =>
              let host := ts_host (is_ts i) in
              let l := remove_id id (kept_list c host) in
              <[is_cs i := mkCS (match l with [] => delete host (idle c) | _ => <[host := l]> (idle c) end)
                             (n c - 1) (cs_closed c)]> (conns p)
          end in
        mkPool (all p ∖ {[id]}) (closed p) conns'
          (<[id := mkIS (is_ts i) (is_cs i) true (done_ i) (live i)]> (idles p))
  end.

(** [watch]'s critical section, when its read returned: [quiet] is whether it
    read nothing and timed out.  The answer is whether the stream was taken; if
    not, the caller closes it. *)
Definition watch (id : nat) (quiet : bool) (p : h3Pool) : h3Pool * bool :=
  match idles p !! id with
  | None => (p, true)
  | Some i =>
      let p := if taken i then p else removeLocked id p in
      (mkPool (all p) (closed p) (conns p)
         (<[id := mkIS (is_ts i) (is_cs i) true true (taken i && quiet)]> (idles p)),
       taken i)
  end.

(** [take]'s critical section: the most recently kept stream for [host], out of
    the pool. *)
Definition take_locked (cs : nat) (host : gostr) (p : h3Pool) : h3Pool * option nat :=
  match conns p !! cs with
  | None => (p, None)
  | Some c =>
      match last (kept_list c host) with
      | None => (p, None)
      | Some id => (removeLocked id p, Some id)
      end
  end.

(** The rest of a round of [take], once the watcher has returned: whether the
    stream serves a request on [rs]; if not it is closed.  [gone] is whether its
    session is closed or its agent draining. *)
Definition take_check (i : idleStream) (rs : nat) (gone : bool) : bool :=
  live i && (ts_rs (is_ts i) =? rs)%nat && negb gone.

(** [removeWhereLocked]: the streams taken out, for the caller to close.  Map
    iteration visits every entry, in any order; [removeLocked] of one does not
    affect another, so the order of the list is immaterial. *)
Definition removeWhereLocked (match_ : idleStream -> bool) (p : h3Pool) : h3Pool * list nat :=
  let gone := List.filter (fun id => match idles p !! id with Some i => match_ i | None => false end)
                (elements (all p)) in
  (foldl (fun p id => removeLocked id p) p gone, gone).

Definition closeConn (cs : nat) (p : h3Pool) : h3Pool * list nat :=
  match conns p !! cs with
  | None => (p, [])
  | Some c =>
      removeWhereLocked (fun i => (is_cs i =? cs)%nat)
        (mkPool (all p) (closed p) (<[cs := mkCS (idle c) (n c) true]> (conns p)) (idles p))
  end.

Definition closeAgent (a : nat) (p : h3Pool) : h3Pool * list nat :=
  removeWhereLocked (fun i => (ts_agent (is_ts i) =? a)%nat) p.

Definition closeAll (p : h3Pool) : h3Pool * list nat :=
  removeWhereLocked (fun _ => true) (mkPool (all p) true (conns p) (idles p)).

(** [evictRoute]: [order] is the order the map iteration visits [all] in. *)
Definition evictRoute (order : list nat) (rs : nat) (p : h3Pool) : h3Pool * option nat :=
  match List.find (fun id => match idles p !! id with
                        | Some i => (ts_rs (is_ts i) =? rs)%nat | None => false end) order with
  | None => (p, None)
  | Some id => (removeLocked id p, Some id)
  end.

(** ** Invariant *)

Definition kept_by (cs : nat) (i : idleStream) : bool := negb (taken i) && (is_cs i =? cs)%nat.

(** An [idleStream] in the pool. *)
Definition waiting (p : h3Pool) (id : nat) (i : idleStream) : Prop :=
  idles p !! id = Some i /\ taken i = false.

(** What holds after every critical section, and also while [removeWhereLocked]
    is at work. *)
Record pool_core (p : h3Pool) : Prop := {
  pi_all : forall id, id ∈ all p <-> exists i, waiting p id i;
  pi_list : forall cs c h id, conns p !! cs = Some c ->
    id ∈ kept_list c h <-> exists i, waiting p id i /\ is_cs i = cs /\ ts_host (is_ts i) = h;
  pi_nodup : forall cs c h, conns p !! cs = Some c -> NoDup (kept_list c h);
  pi_nonempty : forall cs c h, conns p !! cs = Some c -> idle c !! h <> Some [];
  pi_conn : forall id i, idles p !! id = Some i -> is_Some (conns p !! is_cs i);
  pi_n : forall cs c, conns p !! cs = Some c -> n c = Z.of_nat (count_if (kept_by cs) (idles p));
  pi_cap : forall cs c, conns p !! cs = Some c -> n c <= maxKeptPerConn;
}.

Record pool_inv (p : h3Pool) : Prop := {
  pi_core : pool_core p;
  pi_closed : closed p = true -> all p = ∅;
  pi_cs_closed : forall cs c, conns p !! cs = Some c -> cs_closed c = true ->
    forall id i, waiting p id i -> is_cs i <> cs;
}.

Lemma newH3Pool_inv : pool_inv newH3Pool.
Proof.
  unfold newH3Pool, waiting. split; [split|..]; simpl; try done; try set_solver.
  intros id. split; [set_solver|]. intros (i & Hi & _). by rewrite ?lookup_empty in Hi.
Qed.

(** *** Removing a stream *)

Definition mark (i : idleStream) : idleStream := mkIS (is_ts i) (is_cs i) true (done_ i) (live i).

Lemma remove_id_elem id l x : NoDup l -> x ∈ remove_id id l <-> x ∈ l /\ x <> id.
Proof.
  intros Hl. unfold remove_id. apply (remove_first_unique _ (fun x => x)); [|by rewrite map_id].
  intros y. rewrite Nat.eqb_eq. naive_solver.
Qed.

Lemma removeLocked_idle id i p :
  waiting p id i -> idles (removeLocked id p) = <[id := mark i]> (idles p).
Proof. intros [Hi Ht]. unfold removeLocked. by rewrite Hi, Ht. Qed.

Lemma removeLocked_skip id p :
  (forall i, ~ waiting p id i) -> removeLocked id p = p.
Proof.
  intros Hn. unfold removeLocked. destruct (idles p !! id) as [i|] eqn:E; [|done].
  destruct (taken i) eqn:Et; [done|]. by destruct (Hn i).
Qed.

Lemma waiting_dec p id : (exists i, waiting p id i) \/ (forall i, ~ waiting p id i).
Proof.
  unfold waiting. destruct (idles p !! id) as [i|]; [|right; intros i [? _]; done].
  destruct (taken i) eqn:E; [right; intros j [[= <-] ?]; congruence|eauto].
Qed.

Lemma removeLocked_waiting id p id' i :
  waiting (removeLocked id p) id' i <-> waiting p id' i /\ id' <> id.
Proof.
  destruct (waiting_dec p id) as [[i0 H0]|Hn].
  - unfold waiting at 1. rewrite (removeLocked_idle id i0 p H0).
    destruct (decide (id = id')) as [->|Hne].
    + rewrite lookup_insert_eq. split; [intros [[= <-] ?]; done|naive_solver].
    + rewrite lookup_insert_ne by done. unfold waiting. naive_solver.
  - rewrite removeLocked_skip by done. split; [|naive_solver]. intros H. split; [done|].
    intros ->. by apply (Hn i).
Qed.

(** What a removal leaves of the connection's record. *)
Lemma removeLocked_conn id i p cs c' :
  waiting p id i -> conns (removeLocked id p) !! cs = Some c' ->
  exists c, conns p !! cs = Some c /\ cs_closed c' = cs_closed c /\
    (cs <> is_cs i -> c' = c) /\
    (cs = is_cs i -> n c' = n c - 1 /\
       forall h, kept_list c' h = if decide (h = ts_host (is_ts i))
                                  then remove_id id (kept_list c h) else kept_list c h).
Proof.
  intros [Hi Ht]. unfold removeLocked. rewrite Hi, Ht. simpl.
  destruct (conns p !! is_cs i) as [c|] eqn:Ec; [|intros H; exists c'; naive_solver].
  intros [[<- <-]|[Hne H]]%lookup_insert_Some; [|exists c'; naive_solver].
  exists c. split; [done|]. simpl. split; [done|]. split; [done|]. intros _. split; [done|].
  intros h. unfold kept_list at 1. simpl.
  destruct (remove_id id (kept_list c (ts_host (is_ts i)))) as [|x l] eqn:El.
  - rewrite lookup_delete. do 2 case_decide; simplify_eq; try done.
  - rewrite lookup_insert. do 2 case_decide; simplify_eq; try done.
Qed.

Lemma removeLocked_list id i p :
  pool_core p -> waiting p id i ->
  forall cs c h id', conns (removeLocked id p) !! cs = Some c ->
  id' ∈ kept_list c h <->
  exists i, waiting (removeLocked id p) id' i /\ is_cs i = cs /\ ts_host (is_ts i) = h.
Proof.
  intros [Ha Hl Hnd Hne Hc Hn Hcap] Hw. pose proof Hw as [Hi Ht].
  intros cs c' h id' Hc'. destruct (removeLocked_conn _ _ _ _ _ Hw Hc') as (c & Hcc & _ & Hother & Hsame).
  setoid_rewrite removeLocked_waiting. destruct (decide (cs = is_cs i)) as [->|Hcs].
  + destruct (Hsame eq_refl) as [_ Hk]. rewrite Hk. case_decide as Hh.
    * rewrite remove_id_elem, (Hl _ _ _ _ Hcc) by (by eapply Hnd). naive_solver.
    * rewrite (Hl _ _ _ _ Hcc). split; [|naive_solver].
      intros (j & Hj & Hjc & Hjh). exists j. split_and!; try done. intros ->.
      destruct Hj as [Hj _]. congruence.
  + rewrite (Hother Hcs), (Hl _ _ _ _ Hcc). split; [|naive_solver].
    intros (j & Hj & Hjc & Hjh). exists j. split_and!; try done. intros ->.
    destruct Hj as [Hj _]. congruence.
Qed.

Lemma removeLocked_nodup id i p :
  pool_core p -> waiting p id i ->
  forall cs c h, conns (removeLocked id p) !! cs = Some c ->
  NoDup (kept_list c h) /\ idle c !! h <> Some [].
Proof.
  intros [Ha Hl Hnd Hne Hc Hn Hcap] Hw. pose proof Hw as [Hi Ht].
  intros cs c' h Hc'. split.
  - destruct (removeLocked_conn _ _ _ _ _ Hw Hc') as (c & Hcc & _ & Hother & Hsame).
    destruct (decide (cs = is_cs i)) as [->|Hcs]; [|rewrite Hother by done; by eapply Hnd].
    destruct (Hsame eq_refl) as [_ Hk]. rewrite Hk. case_decide; [|by eapply Hnd].
    eapply sublist_NoDup; [by eapply Hnd|apply remove_first_sublist].
  - unfold removeLocked in Hc'. rewrite Hi, Ht in Hc'. simpl in Hc'.
    destruct (conns p !! is_cs i) as [c|] eqn:Ec; [|by eapply Hne].
    apply lookup_insert_Some in Hc' as [[<- <-]|[_ Hc']]; [|by eapply Hne]. simpl.
    destruct (remove_id _ _) eqn:El.
    + rewrite lookup_delete. case_decide; [done|by eapply Hne].
    + rewrite lookup_insert. case_decide; [done|by eapply Hne].
Qed.

Lemma removeLocked_count id i p :
  pool_core p -> waiting p id i ->
  forall cs c, conns (removeLocked id p) !! cs = Some c ->
  n c = Z.of_nat (count_if (kept_by cs) (idles (removeLocked id p))).
Proof.
  intros [Ha Hl Hnd Hne Hc Hn Hcap] Hw. pose proof Hw as [Hi Ht].
  intros cs c' Hc'. destruct (removeLocked_conn _ _ _ _ _ Hw Hc') as (c & Hcc & _ & Hother & Hsame).
  rewrite (removeLocked_idle _ _ _ Hw).
  pose proof (count_if_update (kept_by cs) _ _ _ (mark i) Hi) as Hu.
  unfold kept_by at 2 4 in Hu. simpl in Hu. rewrite Ht in Hu. simpl in Hu.
  destruct (decide (cs = is_cs i)) as [->|Hcs].
  + destruct (Hsame eq_refl) as [-> _]. rewrite (Hn _ _ Hcc). rewrite Nat.eqb_refl in Hu. lia.
  + rewrite (Hother Hcs), (Hn _ _ Hcc). rewrite (proj2 (Nat.eqb_neq (is_cs i) cs)) in Hu by done. lia.
Qed.

Lemma removeLocked_core id p : pool_core p -> pool_core (removeLocked id p).
Proof.
  intros Hp. destruct (waiting_dec p id) as [[i Hw]|Hn]; [|by rewrite removeLocked_skip].
  pose proof Hw as [Hi Ht]. split.
  - destruct Hp as [Ha _ _ _ _ _ _]. intros id'. setoid_rewrite removeLocked_waiting.
    assert (all (removeLocked id p) = all p ∖ {[id]}) as -> by (unfold removeLocked; by rewrite Hi, Ht).
    rewrite elem_of_difference, Ha, elem_of_singleton. naive_solver.
  - by eapply removeLocked_list.
  - intros. by eapply removeLocked_nodup.
  - intros. by eapply removeLocked_nodup.
  - destruct Hp as [_ _ _ _ Hc _ _]. intros id' j Hj. rewrite (removeLocked_idle _ _ _ Hw) in Hj.
    assert (Hsome : is_Some (conns p !! is_cs j)).
    { apply lookup_insert_Some in Hj as [[<- <-]|[_ Hj]]; [apply (Hc _ _ Hi)|by eapply Hc]. }
    unfold removeLocked. rewrite Hi, Ht. simpl. destruct (conns p !! is_cs i); [|done].
    rewrite lookup_insert. case_decide; [eauto|done].
  - by eapply removeLocked_count.
  - destruct Hp as [_ _ _ _ _ _ Hcap]. intros cs c' Hc'. destruct (removeLocked_conn _ _ _ _ _ Hw Hc') as (c & Hcc & _ & Hother & Hsame).
    specialize (Hcap _ _ Hcc). destruct (decide (cs = is_cs i)) as [->|Hcs]; [|by rewrite Hother].
    destruct (Hsame eq_refl) as [-> _]. lia.
Qed.

(** Removal only takes streams out, and touches no flag. *)
Definition shrinks (p p' : h3Pool) : Prop :=
  closed p' = closed p /\
  (forall id i, waiting p' id i -> waiting p id i) /\
  (forall cs c', conns p' !! cs = Some c' ->
     exists c, conns p !! cs = Some c /\ cs_closed c' = cs_closed c).

Lemma shrinks_refl p : shrinks p p.
Proof. unfold shrinks. naive_solver. Qed.

Lemma shrinks_trans p1 p2 p3 : shrinks p1 p2 -> shrinks p2 p3 -> shrinks p1 p3.
Proof.
  intros (Hc1 & Hw1 & Hk1) (Hc2 & Hw2 & Hk2). split; [congruence|]. split; [auto|].
  intros cs c3 H3. destruct (Hk2 _ _ H3) as (c2 & H2 & E2). destruct (Hk1 _ _ H2) as (c1 & H1 & E1).
  exists c1. split; [done|congruence].
Qed.

Lemma removeLocked_shrinks id p : shrinks p (removeLocked id p).
Proof.
  destruct (waiting_dec p id) as [[i Hw]|Hn]; [|rewrite removeLocked_skip by done; apply shrinks_refl].
  split; [|split].
  - destruct Hw as [Hi Ht]. unfold removeLocked. by rewrite Hi, Ht.
  - intros id' j [? _]%removeLocked_waiting. done.
  - intros cs c' Hc'. destruct (removeLocked_conn _ _ _ _ _ Hw Hc') as (c & ? & ? & _). eauto.
Qed.

Lemma shrinks_inv p p' : pool_core p' -> shrinks p p' -> pool_inv p -> pool_inv p'.
Proof.
  intros Hc' (Hcl & Hw & Hk) [Hc Hcl0 Hcs]. split; [done| |].
  - rewrite Hcl. intros Hd. specialize (Hcl0 Hd). apply set_eq. intros id.
    rewrite (pi_all p' Hc' id). split; [|set_solver]. intros (i & Hi).
    assert (id ∈ all p) by (apply (pi_all p Hc); eauto). set_solver.
  - intros cs c' H' Hd id i Hi. destruct (Hk _ _ H') as (c & H & E). eapply Hcs; [done|congruence|eauto].
Qed.

Lemma removeLocked_inv id p : pool_inv p -> pool_inv (removeLocked id p).
Proof.
  intros Hp. eapply shrinks_inv; [apply removeLocked_core, (pi_core p Hp)|apply removeLocked_shrinks|done].
Qed.

Lemma remove_fold l p :
  let p' := foldl (fun p id => removeLocked id p) p l in
  shrinks p p' /\ (pool_core p -> pool_core p') /\
  (forall id i, waiting p' id i <-> waiting p id i /\ id ∉ l).
Proof.
  revert p; induction l as [|x l IH]; intros p; simpl.
  - split; [apply shrinks_refl|]. split; [done|]. set_solver.
  - destruct (IH (removeLocked x p)) as (H1 & H2 & H3).
    split; [eapply shrinks_trans; [apply removeLocked_shrinks|done]|].
    split; [auto using removeLocked_core|].
    intros id i. rewrite H3, removeLocked_waiting. set_solver.
Qed.

Lemma removeWhere_spec m p p' gone :
  pool_core p -> removeWhereLocked m p = (p', gone) ->
  pool_core p' /\ shrinks p p' /\
  (forall id, id ∈ gone <-> exists i, waiting p id i /\ m i = true) /\
  (forall id i, waiting p' id i <-> waiting p id i /\ m i = false).
Proof.
  intros Hp [= <- <-].
  assert (Hg : forall id, id ∈ List.filter (fun id => match idles p !! id with
      Some i => m i | None => false end) (elements (all p)) <-> exists i, waiting p id i /\ m i = true).
  { intros id. rewrite elem_of_filter_bool, elem_of_elements, (pi_all p Hp). split.
    - intros [[i Hw] Hm]. exists i. split; [done|]. destruct Hw as [Hi _]. by rewrite Hi in Hm.
    - intros (i & Hw & Hm). split; [eauto|]. by destruct Hw as [-> _]. }
  destruct (remove_fold (List.filter (fun id => match idles p !! id with
      Some i => m i | None => false end) (elements (all p))) p) as (H1 & H2 & H3).
  split_and!; [auto|done|done|]. intros id i. rewrite H3, Hg. split.
  - intros [Hw Hn]. split; [done|]. apply not_true_is_false. eauto.
  - intros [Hw Hm]. split; [done|]. intros (j & [Hj _] & Hmj). destruct Hw as [Hi _]. congruence.
Qed.

(** *** Every critical section keeps the invariant *)

Lemma newConn_inv cs p : conns p !! cs = None -> pool_inv p -> pool_inv (newConn cs p).
Proof.
  intros Hcs [[Ha Hl Hnd Hne Hc Hn Hcap] Hcl Hcc].
  assert (Hfresh : forall id i, idles p !! id = Some i -> is_cs i <> cs).
  { intros id i Hi <-. destruct (Hc id i Hi). congruence. }
  assert (Hzero : count_if (kept_by cs) (idles p) = 0%nat).
  { apply count_if_zero. intros id i Hi. unfold kept_by.
    rewrite (proj2 (Nat.eqb_neq _ _)) by eauto. apply andb_false_r. }
  split; [split|done|]; simpl; try done.
  - intros cs' c h id [[<- <-]|[_ H]]%lookup_insert_Some; [|by apply Hl].
    unfold kept_list. simpl. split; [set_solver|]. intros (i & [Hi _] & Hic & _). by destruct (Hfresh id i Hi).
  - intros cs' c h [[<- <-]|[_ H]]%lookup_insert_Some; [apply NoDup_nil_2|by eapply Hnd].
  - intros cs' c h [[<- <-]|[_ H]]%lookup_insert_Some; [done|by eapply Hne].
  - intros id i Hi. rewrite lookup_insert. case_decide; [eauto|by eapply Hc].
  - intros cs' c [[<- <-]|[_ H]]%lookup_insert_Some; [by rewrite Hzero|by apply Hn].
  - intros cs' c [[<- <-]|[_ H]]%lookup_insert_Some; [done|by eapply Hcap].
  - intros cs' c [[<- <-]|[_ H]]%lookup_insert_Some; [done|by eapply Hcc].
Qed.

Lemma put_inv cs id ts w ret p p' :
  idles p !! id = None -> put cs id ts w ret p = Some p' -> pool_inv p -> pool_inv p'.
Proof.
  intros Hid. unfold put. destruct (conns p !! cs) as [c|] eqn:Ec; [|done]. cbn [mbind option_bind].
  destruct (closed p || _ || _ || _ || _) eqn:E; [done|]. b2p. intros [= <-].
  intros [[Ha Hl Hnd Hne Hc Hn Hcap] Hcl Hcc].
  assert (Hw : forall id' i, waiting (mkPool ({[id]} ∪ all p) (closed p)
    (<[cs := mkCS (<[ts_host ts := kept_list c (ts_host ts) ++ [id]]> (idle c)) (n c + 1) (cs_closed c)]>
       (conns p)) (<[id := mkIS ts cs false false false]> (idles p))) id' i <->
    (id' = id /\ i = mkIS ts cs false false false) \/ waiting p id' i).
  { intros id' i. unfold waiting. simpl. rewrite lookup_insert. case_decide; naive_solver. }
  assert (Hk : forall h, kept_list (mkCS (<[ts_host ts := kept_list c (ts_host ts) ++ [id]]> (idle c))
      (n c + 1) (cs_closed c)) h = kept_list c h ++ if decide (ts_host ts = h) then [id] else []).
  { intros h. unfold kept_list at 1. simpl. rewrite lookup_insert.
    case_decide; [by subst|by rewrite app_nil_r]. }
  split; [split|simpl; congruence|]; simpl.
  - intros id'. setoid_rewrite Hw. rewrite elem_of_union, elem_of_singleton, Ha. naive_solver.
  - intros cs' c' h id' [[<- <-]|[Hne' H']]%lookup_insert_Some; setoid_rewrite Hw.
    + rewrite Hk, elem_of_app, (Hl _ _ h id' Ec). split.
      * intros [(i & ? & ?)|Hin]; [eauto|]. case_decide; [|by apply not_elem_of_nil in Hin].
        apply list_elem_of_singleton in Hin as ->.
        exists (mkIS ts cs false false false). split; [by left|done].
      * intros (i & [[-> ->]|Hi] & ? & Hh); [|eauto]. right. simpl in Hh. rewrite decide_True by done.
        by apply list_elem_of_singleton.
    + rewrite (Hl _ _ h id' H'). naive_solver.
  - intros cs' c' h [[<- <-]|[_ H']]%lookup_insert_Some; [|by eapply Hnd].
    rewrite Hk. apply NoDup_app. split; [by eapply Hnd|]. split; [|case_decide; [apply NoDup_singleton|apply NoDup_nil_2]].
    intros x Hx. case_decide; [|set_solver]. intros ->%list_elem_of_singleton.
    apply (Hl _ _ _ _ Ec) in Hx as (i & [Hi _] & _). congruence.
  - intros cs' c' h [[<- <-]|[_ H']]%lookup_insert_Some; [|by eapply Hne]. simpl.
    rewrite lookup_insert. case_decide; [|by eapply Hne]. intros [= ?]. by destruct (kept_list c (ts_host ts)).
  - intros id' i [[<- <-]|[_ Hi]]%lookup_insert_Some; rewrite lookup_insert; case_decide; eauto.
  - intros cs' c' [[<- <-]|[Hne' H']]%lookup_insert_Some; rewrite count_if_new by done; simpl;
      unfold kept_by at 1; simpl.
    + rewrite Nat.eqb_refl, (Hn _ _ Ec). lia.
    + rewrite (proj2 (Nat.eqb_neq _ _)) by done. by rewrite (Hn _ _ H').
  - intros cs' c' [[<- <-]|[_ H']]%lookup_insert_Some; [simpl; lia|by eapply Hcap].
  - intros cs' c' [[<- <-]|[Hne' H']]%lookup_insert_Some Hd id' i; [simpl in Hd; congruence|].
    intros [[-> ->]|Hi]%Hw; [done|by eapply Hcc].
Qed.

(** Rewriting an [idleStream] that is out of the pool changes nothing else. *)
Lemma touch_inv id i i' p :
  idles p !! id = Some i -> taken i = true -> taken i' = true -> is_cs i' = is_cs i ->
  pool_inv p -> pool_inv (mkPool (all p) (closed p) (conns p) (<[id := i']> (idles p))).
Proof.
  intros Hid Ht Ht' Hcs [[Ha Hl Hnd Hne Hc Hn Hcap] Hcl Hcc].
  assert (Hw : forall id' j, waiting (mkPool (all p) (closed p) (conns p) (<[id := i']> (idles p))) id' j
    <-> waiting p id' j).
  { intros id' j. unfold waiting. simpl. rewrite lookup_insert.
    case_decide as Hd; [subst id'; rewrite Hid; split; intros [[= <-] ?]; congruence|done]. }
  split; [split|done|]; simpl; try done.
  - intros id'. setoid_rewrite Hw. apply Ha.
  - intros cs c h id' H. setoid_rewrite Hw. by apply Hl.
  - intros id' j [[<- <-]|[_ Hj]]%lookup_insert_Some; [rewrite Hcs; by eapply Hc|by eapply Hc].
  - intros cs c H. rewrite (Hn _ _ H).
    pose proof (count_if_update (kept_by cs) _ _ _ i' Hid) as Hu.
    unfold kept_by at 2 4 in Hu. rewrite Ht, Ht' in Hu. simpl in Hu. lia.
  - intros cs c H Hd id' j. rewrite Hw. by eapply Hcc.
Qed.

Lemma watch_inv id quiet p : pool_inv p -> pool_inv (watch id quiet p).1.
Proof.
  intros Hp. unfold watch. destruct (idles p !! id) as [i|] eqn:Hi; [|done]. simpl.
  destruct (taken i) eqn:Ht; [by eapply (touch_inv id i)|].
  apply (touch_inv id (mark i)); [|done..|by apply removeLocked_inv].
  by rewrite (removeLocked_idle id i), lookup_insert_eq.
Qed.

Lemma take_inv cs host p : pool_inv p -> pool_inv (take_locked cs host p).1.
Proof.
  intros Hp. unfold take_locked. destruct (conns p !! cs); [|done].
  destruct (last _); [by apply removeLocked_inv|done].
Qed.

(** Marking a connection as ended leaves its streams to be removed. *)
Lemma close_mark_core p cs c :
  conns p !! cs = Some c -> pool_core p ->
  pool_core (mkPool (all p) (closed p) (<[cs := mkCS (idle c) (n c) true]> (conns p)) (idles p)).
Proof.
  intros Ec [Ha Hl Hnd Hne Hc Hn Hcap].
  assert (Hl0 : forall h, kept_list (mkCS (idle c) (n c) true) h = kept_list c h) by done.
  split; simpl; try done.
  - intros cs' c' h id [[<- <-]|[_ H]]%lookup_insert_Some; [rewrite Hl0|]; by apply Hl.
  - intros cs' c' h [[<- <-]|[_ H]]%lookup_insert_Some; [rewrite Hl0|]; by eapply Hnd.
  - intros cs' c' h [[<- <-]|[_ H]]%lookup_insert_Some; [apply (Hne _ _ _ Ec)|by eapply Hne].
  - intros id i Hi. rewrite lookup_insert. case_decide; [eauto|by eapply Hc].
  - intros cs' c' [[<- <-]|[_ H]]%lookup_insert_Some; [apply (Hn _ _ Ec)|by apply Hn].
  - intros cs' c' [[<- <-]|[_ H]]%lookup_insert_Some; [apply (Hcap _ _ Ec)|by eapply Hcap].
Qed.

Lemma closeConn_inv cs p : pool_inv p -> pool_inv (closeConn cs p).1.
Proof.
  intros [Hcore Hcl Hcc]. unfold closeConn.
  destruct (conns p !! cs) as [c|] eqn:Ec; [|by split].
  set (p0 := mkPool _ _ _ _). destruct (removeWhereLocked _ p0) as [p' gone] eqn:E. simpl.
  assert (Hcore0 : pool_core p0) by by apply close_mark_core.
  destruct (removeWhere_spec _ _ _ _ Hcore0 E) as (Hcore' & (Hc1 & Hw1 & Hk1) & _ & Hw).
  split; [done| |].
  - rewrite Hc1. intros Hd. apply set_eq. intros id. rewrite (pi_all _ Hcore'). split; [|set_solver].
    intros (i & Hi%Hw1). assert (id ∈ all p) by (apply (pi_all _ Hcore0); eauto). specialize (Hcl Hd). set_solver.
  - intros cs' c' H' Hd id i (Hi & Hm)%Hw. apply Nat.eqb_neq in Hm. destruct (Hk1 _ _ H') as (c0 & H0 & E0).
    unfold p0 in H0. simpl in H0. apply lookup_insert_Some in H0 as [[<- _]|[_ H0]]; [done|].
    eapply Hcc; [done|congruence|exact Hi].
Qed.

Lemma closeAgent_inv a p : pool_inv p -> pool_inv (closeAgent a p).1.
Proof.
  intros Hp. unfold closeAgent. destruct (removeWhereLocked _ p) as [p' gone] eqn:E.
  destruct (removeWhere_spec _ _ _ _ (pi_core p Hp) E) as (? & ? & _). by eapply shrinks_inv.
Qed.

Lemma closeAll_empty p :
  pool_inv p -> pool_inv (closeAll p).1 /\ closed (closeAll p).1 = true /\ all (closeAll p).1 = ∅.
Proof.
  intros [Hcore Hcl Hcc]. unfold closeAll. set (p0 := mkPool _ _ _ _).
  destruct (removeWhereLocked _ p0) as [p' gone] eqn:E. simpl.
  assert (Hcore0 : pool_core p0) by (unfold p0; destruct Hcore; by split).
  destruct (removeWhere_spec _ _ _ _ Hcore0 E) as (Hcore' & (Hc1 & Hw1 & Hk1) & _ & Hw).
  assert (Hnone : forall id i, ~ waiting p' id i) by (intros id i [_ ?]%Hw; done).
  assert (Hempty : all p' = ∅).
  { apply set_eq. intros id. rewrite (pi_all _ Hcore'). set_solver. }
  split; [|by rewrite Hc1]. split; [done|done|]. intros cs c _ _ id i Hi. by destruct (Hnone id i).
Qed.

Lemma evictRoute_inv order rs p : pool_inv p -> pool_inv (evictRoute order rs p).1.
Proof.
  intros Hp. unfold evictRoute. destruct (List.find _ _); [by apply removeLocked_inv|done].
Qed.

(** ** Streams and what they hold *)

(** Where an open stream is: with a request of connection [cs], waiting in the
    pool, out of it for a call [take(cs, host, rs)] that waits for the watcher,
    or closed ([once] has run).  [Taking] holds the arguments of that call: the
    stream goes to whoever called, not to whom it was opened for. *)
Inductive loc :=
| InUse (cs : nat)
| Idle (id : nat)
| Taking (cs : nat) (host : gostr) (rs : nat) (id : nat)
| Closed.

Record stream := mkStream { s_ts : tunnelStream; s_conn : nat; s_loc : loc }.

Definition is_open (s : stream) : bool := match s_loc s with Closed => false | _ => true end.
Definition on_route (rs : nat) (s : stream) : bool := is_open s && (ts_rs (s_ts s) =? rs)%nat.
Definition on_agent (a : nat) (s : stream) : bool := is_open s && (ts_agent (s_ts s) =? a)%nat.

(** The edge as far as HTTP/3 streams go.  [slots] are the slots of a route's
    cap held by TCP connections and by requests that have no stream yet;
    [active] is each agent session's stream count, [gauge] each route's. *)
Record world := mkWorld {
  pool : h3Pool;
  streams : gmap nat stream;
  sems : gmap nat sema;
  slots : gmap nat Z;
  active : gmap nat Z;
  gauge : gmap nat Z;
}.

Definition madd (k : nat) (d : Z) (m : gmap nat Z) : gmap nat Z := <[k := mget m k + d]> m.

Definition set_sem (rs : nat) (s : semaphore) (m : gmap nat sema) : gmap nat sema :=
  match s with Some s => <[rs := s]> m | None => m end.

Definition set_pool (p : h3Pool) (w : world) : world :=
  mkWorld p (streams w) (sems w) (slots w) (active w) (gauge w).

Definition move (t : nat) (l : loc) (w : world) : world :=
  match streams w !! t with
  | None => w
  | Some s => mkWorld (pool w) (<[t := mkStream (s_ts s) (s_conn s) l]> (streams w))
                (sems w) (slots w) (active w) (gauge w)
  end.

(** [tunnelStream.close]. *)
Definition close (t : nat) (w : world) : world :=
  match streams w !! t with
  | None => w
  | Some s =>
      if is_open s then
        let rs := ts_rs (s_ts s) in
        mkWorld (pool w) (<[t := mkStream (s_ts s) (s_conn s) Closed]> (streams w))
          (set_sem rs (release (sems w !! rs)) (sems w)) (slots w)
          (madd (ts_agent (s_ts s)) (-1) (active w)) (madd rs (-1) (gauge w))
      else w
  end.

(** The stream of an [idleStream]. *)
Definition ts_of (p : h3Pool) (id : nat) : nat :=
  match idles p !! id with Some i => ts_id (is_ts i) | None => 0%nat end.

(** [closeIdle]. *)
Definition closeIdle (l : list nat) (w : world) : world :=
  foldl (fun w id => close (ts_of (pool w) id) w) w l.

Definition after_remove (r : h3Pool * list nat) (w : world) : world :=
  closeIdle r.2 (set_pool r.1 w).

(** A TCP connection or a request takes a slot of [rs]'s cap. *)
Definition take_slot (rs : nat) (w : world) : world * bool :=
  let '(s, ok) := tryAcquire (sems w !! rs) in
  (mkWorld (pool w) (streams w) (set_sem rs s (sems w))
     (if ok then madd rs 1 (slots w) else slots w) (active w) (gauge w), ok).

(** It gives the slot back without having opened a stream. *)
Definition drop_slot (rs : nat) (w : world) : world :=
  mkWorld (pool w) (streams w) (set_sem rs (release (sems w !! rs)) (sems w))
    (madd rs (-1) (slots w)) (active w) (gauge w).

(** The end of [openH3Stream]: the slot is the new stream's. *)
Definition open_stream (cs : nat) (ts : tunnelStream) (w : world) : world :=
  mkWorld (pool w) (<[ts_id ts := mkStream ts cs (InUse cs)]> (streams w)) (sems w)
    (madd (ts_rs ts) (-1) (slots w)) (madd (ts_agent ts) 1 (active w)) (madd (ts_rs ts) 1 (gauge w)).

(** [put] with its [ts.close] when the stream is not kept. *)
Definition put_stream (cs id : nat) (ts : tunnelStream) (waiters : Z) (retired : bool) (w : world)
    : world :=
  match put cs id ts waiters retired (pool w) with
  | Some p => move (ts_id ts) (Idle id) (set_pool p w)
  | None => close (ts_id ts) w
  end.

(** [watch] with its [ts.close] when the stream was not taken. *)
Definition watch_stream (id : nat) (quiet : bool) (w : world) : world :=
  let '(p, was_taken) := watch id quiet (pool w) in
  if was_taken then set_pool p w else close (ts_of p id) (set_pool p w).

Definition take_stream (cs : nat) (host : gostr) (rs : nat) (w : world) : world :=
  let '(p, r) := take_locked cs host (pool w) in
  match r with
  | None => w
  | Some id => move (ts_of p id) (Taking cs host rs id) (set_pool p w)
  end.

(** The end of a round of the caller's [take(cs, _, rs)]: it has the stream, or
    closes it. *)
Definition take_done (cs rs id : nat) (gone : bool) (w : world) : world :=
  match idles (pool w) !! id with
  | None => w
  | Some i =>
      let t := ts_id (is_ts i) in
      if take_check i rs gone then move t (InUse cs) w else close t w
  end.

(** [evictRoute] with its [ts.close]. *)
Definition evict_stream (order : list nat) (rs : nat) (w : world) : world * bool :=
  let '(p, r) := evictRoute order rs (pool w) in
  match r with
  | None => (w, false)
  | Some id => (close (ts_of p id) (set_pool p w), true)
  end.

(** ** Interleavings *)

Inductive event :=
| EConn (cs : nat)
| ETakeSlot (rs : nat)
| EDropSlot (rs : nat)
| EOpen (cs : nat) (ts : tunnelStream)
| EPut (cs id : nat) (ts : tunnelStream) (waiters : Z) (retired : bool)
| EWatch (id : nat) (quiet : bool)
| ETake (cs : nat) (host : gostr) (rs : nat)
| ETakeDone (cs : nat) (host : gostr) (rs id : nat) (gone : bool)
| EDone (t : nat)
| ECloseConn (cs : nat)
| ECloseAgent (a : nat)
| ECloseAll
| EEvict (order : list nat) (rs : nat).

(** A stream is opened by a holder of a slot, put or closed by the request that
    uses it; a watcher returns once; a take goes on once its watcher has. *)
Definition enabled (e : event) (w : world) : Prop :=
  match e with
  | EConn cs => conns (pool w) !! cs = None
  | ETakeSlot _ => True
  | EDropSlot rs => 0 < mget (slots w) rs
  | EOpen cs ts => 0 < mget (slots w) (ts_rs ts) /\ streams w !! ts_id ts = None /\
                   is_Some (conns (pool w) !! cs)
  | EPut cs id ts _ _ => (exists opener, streams w !! ts_id ts = Some (mkStream ts opener (InUse cs))) /\
                         idles (pool w) !! id = None
  | EWatch id _ => exists i, idles (pool w) !! id = Some i /\ done_ i = false
  | ETake _ _ _ => True
  | ETakeDone cs host rs id _ => exists i s, idles (pool w) !! id = Some i /\ done_ i = true /\
                        streams w !! ts_id (is_ts i) = Some s /\ s_loc s = Taking cs host rs id
  | EDone t => exists s cs, streams w !! t = Some s /\ s_loc s = InUse cs
  | ECloseConn _ | ECloseAgent _ | ECloseAll => True
  | EEvict order _ => order ≡ₚ elements (all (pool w))
  end.

Definition exec (e : event) (w : world) : world :=
  match e with
  | EConn cs => set_pool (newConn cs (pool w)) w
  | ETakeSlot rs => (take_slot rs w).1
  | EDropSlot rs => drop_slot rs w
  | EOpen cs ts => open_stream cs ts w
  | EPut cs id ts waiters retired => put_stream cs id ts waiters retired w
  | EWatch id quiet => watch_stream id quiet w
  | ETake cs host rs => take_stream cs host rs w
  | ETakeDone cs _ rs id gone => take_done cs rs id gone w
  | EDone t => close t w
  | ECloseConn cs => after_remove (closeConn cs (pool w)) w
  | ECloseAgent a => after_remove (closeAgent a (pool w)) w
  | ECloseAll => after_remove (closeAll (pool w)) w
  | EEvict order rs => (evict_stream order rs w).1
  end.

Definition step : world -> world -> Prop := steps enabled exec.

(** A new edge, with the connection caps of its routes. *)
Definition initial (caps : gmap nat Z) : world :=
  mkWorld newH3Pool ∅ (omap newSemaphore caps) ∅ ∅ ∅.

(** ** What open streams hold *)

Record res_inv (w : world) : Prop := {
  ri_active : forall a, mget (active w) a = Z.of_nat (count_if (on_agent a) (streams w));
  ri_gauge : forall rs, mget (gauge w) rs = Z.of_nat (count_if (on_route rs) (streams w));
  ri_sem : forall rs s, sems w !! rs = Some s ->
    used s = mget (slots w) rs + Z.of_nat (count_if (on_route rs) (streams w)) /\ used s <= cap s;
  ri_slots : forall rs, 0 <= mget (slots w) rs;
}.

Lemma mget_madd k k' d m : mget (madd k d m) k' = mget m k' + if decide (k = k') then d else 0.
Proof. unfold madd. rewrite mget_insert. case_decide; subst; lia. Qed.

Lemma set_sem_Some rs s m rs' s' :
  set_sem rs s m !! rs' = Some s' ->
  (rs = rs' /\ s = Some s') \/ m !! rs' = Some s' /\ (rs <> rs' \/ s = None).
Proof.
  destruct s as [s|]; simpl; [|auto].
  intros [[-> ->]|[? ?]]%lookup_insert_Some; auto.
Qed.

Lemma close_res t w : res_inv w -> res_inv (close t w).
Proof.
  intros [Ha Hg Hs Hl]. unfold close. destruct (streams w !! t) as [s|] eqn:Et; [|by split].
  destruct (is_open s) eqn:Eo; [|by split].
  set (s' := mkStream (s_ts s) (s_conn s) Closed).
  assert (Hr : forall rs, (count_if (on_route rs) (<[t := s']> (streams w)) +
      (if decide (ts_rs (s_ts s) = rs) then 1 else 0) = count_if (on_route rs) (streams w))%nat).
  { intros rs. pose proof (count_if_update (on_route rs) _ _ _ s' Et) as Hu.
    unfold on_route at 2 4 in Hu. rewrite Eo in Hu. simpl in Hu.
    case_decide as E; [rewrite (proj2 (Nat.eqb_eq _ _) E) in Hu|rewrite (proj2 (Nat.eqb_neq _ _) E) in Hu]; lia. }
  assert (Hag : forall a, (count_if (on_agent a) (<[t := s']> (streams w)) +
      (if decide (ts_agent (s_ts s) = a) then 1 else 0) = count_if (on_agent a) (streams w))%nat).
  { intros a. pose proof (count_if_update (on_agent a) _ _ _ s' Et) as Hu.
    unfold on_agent at 2 4 in Hu. rewrite Eo in Hu. simpl in Hu.
    case_decide as E; [rewrite (proj2 (Nat.eqb_eq _ _) E) in Hu|rewrite (proj2 (Nat.eqb_neq _ _) E) in Hu]; lia. }
  split; simpl; [| | |done].
  - intros a. rewrite mget_madd, Ha. specialize (Hag a). case_decide; lia.
  - intros rs. rewrite mget_madd, Hg. specialize (Hr rs). case_decide; lia.
  - intros rs x Hx. specialize (Hr rs). apply set_sem_Some in Hx as [[<- Hx]|[Hx [Hne|Hne]]].
    + destruct (sems w !! ts_rs (s_ts s)) as [y|] eqn:Ey; [|done]. injection Hx as <-. simpl.
      destruct (Hs _ _ Ey). rewrite decide_True in Hr by done. lia.
    + destruct (Hs _ _ Hx). rewrite decide_False in Hr by done. lia.
    + destruct (Hs _ _ Hx). case_decide as E; [|lia]. subst rs. by rewrite Hx in Hne.
Qed.

Lemma move_res t s l w :
  streams w !! t = Some s -> is_open s = true -> l <> Closed -> res_inv w -> res_inv (move t l w).
Proof.
  intros Et Eo Hl [Ha Hg Hs Hsl]. unfold move. rewrite Et.
  assert (Hc : forall p, p (mkStream (s_ts s) (s_conn s) l) = p s ->
    count_if p (<[t := mkStream (s_ts s) (s_conn s) l]> (streams w)) = count_if p (streams w)).
  { intros p Hp. pose proof (count_if_update p _ _ _ (mkStream (s_ts s) (s_conn s) l) Et). rewrite Hp in *. lia. }
  assert (Ho : is_open (mkStream (s_ts s) (s_conn s) l) = is_open s) by (rewrite Eo; by destruct l).
  split; simpl; [| | |done].
  - intros a. rewrite Hc; [done|]. unfold on_agent. by rewrite Ho.
  - intros rs. rewrite Hc; [done|]. unfold on_route. by rewrite Ho.
  - intros rs x Hx. rewrite Hc; [by apply Hs|]. unfold on_route. by rewrite Ho.
Qed.

Lemma take_slot_res rs w : res_inv w -> res_inv (take_slot rs w).1.
Proof.
  intros [Ha Hg Hs Hl]. unfold take_slot, tryAcquire. destruct (sems w !! rs) as [s|] eqn:E.
  - destruct (_ <? _) eqn:El; b2p; (split; simpl; [done|done| |]).
    + intros rs' x [[<- <-]|[Hne Hx]]%lookup_insert_Some; rewrite mget_madd; simpl.
      * rewrite decide_True by done. destruct (Hs _ _ E). lia.
      * rewrite decide_False by done. destruct (Hs _ _ Hx). lia.
    + intros rs'. rewrite mget_madd. specialize (Hl rs'). case_decide; lia.
    + intros rs' x [[<- <-]|[_ Hx]]%lookup_insert_Some; by apply Hs.
    + done.
  - split; simpl; [done|done| |].
    + intros rs' x Hx. rewrite mget_madd. case_decide; [congruence|]. destruct (Hs _ _ Hx). lia.
    + intros rs'. rewrite mget_madd. specialize (Hl rs'). case_decide; lia.
Qed.

Lemma drop_slot_res rs w : 0 < mget (slots w) rs -> res_inv w -> res_inv (drop_slot rs w).
Proof.
  intros Hp [Ha Hg Hs Hl]. unfold drop_slot. split; simpl; [done|done| |].
  - intros rs' x Hx. rewrite mget_madd. apply set_sem_Some in Hx as [[<- Hx]|[Hx Hne]].
    + destruct (sems w !! rs) as [y|] eqn:Ey; [|done]. injection Hx as <-. simpl.
      destruct (Hs _ _ Ey). rewrite decide_True by done. lia.
    + destruct (Hs _ _ Hx). case_decide as E; [|lia]. subst rs'.
      destruct Hne as [?|Hne]; [done|]. by rewrite Hx in Hne.
  - intros rs'. rewrite mget_madd. specialize (Hl rs'). case_decide; [subst|]; lia.
Qed.

Lemma open_stream_res cs ts w :
  0 < mget (slots w) (ts_rs ts) -> streams w !! ts_id ts = None ->
  res_inv w -> res_inv (open_stream cs ts w).
Proof.
  intros Hp Hf [Ha Hg Hs Hl]. unfold open_stream. split; simpl.
  - intros a. rewrite mget_madd, count_if_new, Ha by done. unfold on_agent at 2. simpl.
    case_decide as E; [rewrite (proj2 (Nat.eqb_eq _ _) E)|rewrite (proj2 (Nat.eqb_neq _ _) E)]; lia.
  - intros rs. rewrite mget_madd, count_if_new, Hg by done. unfold on_route at 2. simpl.
    case_decide as E; [rewrite (proj2 (Nat.eqb_eq _ _) E)|rewrite (proj2 (Nat.eqb_neq _ _) E)]; lia.
  - intros rs x Hx. rewrite mget_madd, count_if_new by done. unfold on_route at 1. simpl.
    destruct (Hs _ _ Hx).
    case_decide as E; [rewrite (proj2 (Nat.eqb_eq _ _) E)|rewrite (proj2 (Nat.eqb_neq _ _) E)]; lia.
  - intros rs. rewrite mget_madd. specialize (Hl rs). case_decide; [subst|]; lia.
Qed.

(** ** Where streams are *)

(** The pool and the streams agree.  [R] are the [idleStream]s just taken out of
    the pool whose streams the same event is about to close or move. *)
Record link (R : list nat) (m : gmap nat idleStream) (str : gmap nat stream) : Prop := {
  li_id : forall t s, str !! t = Some s -> ts_id (s_ts s) = t;
  li_use : forall t s cs, str !! t = Some s -> s_loc s = InUse cs -> cs = s_conn s;
  li_wait : forall id i, m !! id = Some i -> taken i = false ->
    str !! ts_id (is_ts i) = Some (mkStream (is_ts i) (is_cs i) (Idle id));
  li_idle : forall t s id, str !! t = Some s -> s_loc s = Idle id ->
    exists i, m !! id = Some i /\ is_ts i = s_ts s /\ is_cs i = s_conn s /\ (taken i = false \/ id ∈ R);
  li_taking : forall t s cs host rs id, str !! t = Some s -> s_loc s = Taking cs host rs id ->
    exists i, m !! id = Some i /\ is_ts i = s_ts s /\ is_cs i = s_conn s /\ taken i = true /\
      cs = s_conn s /\ host = ts_host (s_ts s);
  li_out : forall id, id ∈ R -> exists i, m !! id = Some i /\ taken i = true /\
    str !! ts_id (is_ts i) = Some (mkStream (is_ts i) (is_cs i) (Idle id));
}.

Lemma link_perm R R' m str : (forall x, x ∈ R <-> x ∈ R') -> link R m str -> link R' m str.
Proof.
  intros HR [H1 H2 H3 H4 H5 H6]. split; try done.
  - intros t s id Ht Hl. setoid_rewrite <- HR. eauto.
  - intros id. rewrite <- HR. eauto.
Qed.

Lemma link_remove R id i p str :
  waiting p id i -> link R (idles p) str -> link (id :: R) (idles (removeLocked id p)) str.
Proof.
  intros Hw [H1 H2 H3 H4 H5 H6]. rewrite (removeLocked_idle _ _ _ Hw). destruct Hw as [Hi Ht].
  assert (Hup : forall id' j, idles p !! id' = Some j ->
    exists j', <[id := mark i]> (idles p) !! id' = Some j' /\ is_ts j' = is_ts j /\ is_cs j' = is_cs j /\
      (taken j = true -> taken j' = true) /\ (taken j' = false \/ id' = id \/ taken j = true)).
  { intros id' j Hj. destruct (decide (id = id')) as [<-|Hne].
    - rewrite lookup_insert_eq. exists (mark i). rewrite Hi in Hj. injection Hj as <-. naive_solver.
    - rewrite lookup_insert_ne by done. exists j. destruct (taken j); naive_solver. }
  split; [done|done| | | |].
  - intros id' j [[<- <-]|[Hne Hj]]%lookup_insert_Some Hjt; [done|eauto].
  - intros t s id' Hts Hl. destruct (H4 _ _ _ Hts Hl) as (j & Hj & E1 & E2 & Hor).
    destruct (Hup _ _ Hj) as (j' & Hj' & E1' & E2' & Hmono & Hor').
    exists j'. split_and!; [done|congruence|congruence|]. rewrite elem_of_cons. naive_solver.
  - intros t s cs host rs id' Hts Hl. destruct (H5 _ _ _ _ _ _ Hts Hl) as (j & Hj & E1 & E2 & Htk & E3).
    destruct (Hup _ _ Hj) as (j' & Hj' & E1' & E2' & Hmono & Hor').
    exists j'. split_and!; [done|congruence|congruence|auto|apply E3..].
  - intros id' [->|Hin]%elem_of_cons.
    + exists (mark i). rewrite lookup_insert_eq. split_and!; [done|done|]. by apply (H3 id i).
    + destruct (H6 _ Hin) as (j & Hj & Htk & Hstr).
      destruct (Hup _ _ Hj) as (j' & Hj' & E1' & E2' & Hmono & _).
      exists j'. rewrite E1', E2'. auto.
Qed.

(** The stream of an [idleStream] that is out of the pool leaves it. *)
Lemma link_leave R id i l m str :
  NoDup (id :: R) -> m !! id = Some i -> link (id :: R) m str ->
  (l = Closed \/ exists rs, l = Taking (is_cs i) (ts_host (is_ts i)) rs id) ->
  link R m (<[ts_id (is_ts i) := mkStream (is_ts i) (is_cs i) l]> str).
Proof.
  intros [Hnin _]%NoDup_cons Hi [H1 H2 H3 H4 H5 H6] Hl.
  destruct (H6 id) as (i' & Hi' & Ht & Hstr); [set_solver|]. rewrite Hi in Hi'. injection Hi' as <-.
  assert (Hoth : forall t s, <[ts_id (is_ts i) := mkStream (is_ts i) (is_cs i) l]> str !! t = Some s ->
    (t = ts_id (is_ts i) /\ s = mkStream (is_ts i) (is_cs i) l) \/
    (t <> ts_id (is_ts i) /\ str !! t = Some s)).
  { intros t s [[? ?]|[? ?]]%lookup_insert_Some; [left|right]; done. }
  split.
  - intros t s [[-> ->]|[_ Hs]]%Hoth; [done|eauto].
  - intros t s cs [[-> ->]|[_ Hs]]%Hoth; [simpl; destruct Hl as [-> | [? ->]]; done|eauto].
  - intros id' j Hj Hjt. rewrite lookup_insert_ne; [eauto|]. intros E.
    specialize (H3 _ _ Hj Hjt). rewrite <- E, Hstr in H3. injection H3 as _ _ <-. congruence.
  - intros t s id' [[-> ->]|[Hne Hs]]%Hoth Hsl; [simpl in Hsl; by destruct Hl as [-> | [? ->]]|].
    destruct (H4 _ _ _ Hs Hsl) as (j & Hj & E1 & E2 & Hor). exists j. split_and!; try done.
    destruct Hor as [?|[->|?]%elem_of_cons]; [by left| |by right].
    rewrite Hi in Hj. injection Hj as <-. by rewrite E1, (H1 _ _ Hs) in Hne.
  - intros t s cs host rs id' [[-> ->]|[Hne Hs]]%Hoth Hsl; [|by eapply H5]. simpl in *.
    destruct Hl as [-> |[rs' E]]; [done|]. rewrite E in Hsl. injection Hsl as <- <- <- <-. exists i. done.
  - intros id' Hin. destruct (H6 id') as (j & Hj & Htj & Hsj); [set_solver|]. exists j. split_and!; try done.
    rewrite lookup_insert_ne; [done|]. intros E. rewrite <- E, Hstr in Hsj. injection Hsj as _ _ <-. done.
Qed.

(** A stream that is not in the pool goes to a request of its own connection,
    or is closed. *)
Lemma link_plain t s l m str :
  str !! t = Some s -> (forall id, s_loc s <> Idle id) -> (l = Closed \/ l = InUse (s_conn s)) ->
  link [] m str -> link [] m (<[t := mkStream (s_ts s) (s_conn s) l]> str).
Proof.
  intros Hs Hni Hl [H1 H2 H3 H4 H5 H6].
  assert (Hoth : forall t' s', <[t := mkStream (s_ts s) (s_conn s) l]> str !! t' = Some s' ->
    (t' = t /\ s' = mkStream (s_ts s) (s_conn s) l) \/ str !! t' = Some s').
  { intros t' s' [[? ?]|[? ?]]%lookup_insert_Some; [left|right]; done. }
  split; [| | | | |set_solver].
  - intros t' s' [[-> ->]|Hs']%Hoth; [apply (H1 _ _ Hs)|eauto].
  - intros t' s' cs [[-> ->]|Hs']%Hoth; [simpl|eauto]. destruct Hl as [-> | ->]; congruence.
  - intros id i Hi Ht. rewrite lookup_insert_ne; [eauto|]. intros ->.
    specialize (H3 _ _ Hi Ht). rewrite Hs in H3. injection H3 as E. apply (Hni id). by rewrite E.
  - intros t' s' id [[-> ->]|Hs']%Hoth; [simpl; by destruct Hl as [-> | ->]|intros; by eapply H4].
  - intros t' s' cs host rs id [[-> ->]|Hs']%Hoth; [simpl; by destruct Hl as [-> | ->]|intros; by eapply H5].
Qed.

Lemma link_put id ts cs m str :
  str !! ts_id ts = Some (mkStream ts cs (InUse cs)) -> m !! id = None -> link [] m str ->
  link [] (<[id := mkIS ts cs false false false]> m) (<[ts_id ts := mkStream ts cs (Idle id)]> str).
Proof.
  intros Hs Hid [H1 H2 H3 H4 H5 H6].
  assert (Hne : forall id' j, m !! id' = Some j -> id <> id') by congruence.
  split; [| | | | |set_solver].
  - intros t s [[<- <-]|[_ Ht]]%lookup_insert_Some; [done|eauto].
  - intros t s c [[<- <-]|[_ Ht]]%lookup_insert_Some; [done|eauto].
  - intros id' j [[<- <-]|[_ Hj]]%lookup_insert_Some Htk; [apply lookup_insert_eq|].
    rewrite lookup_insert_ne; [eauto|]. intros E. specialize (H3 _ _ Hj Htk). congruence.
  - intros t s id' [[<- <-]|[_ Ht]]%lookup_insert_Some Hl.
    + injection Hl as <-. eexists. rewrite lookup_insert_eq. split; [done|]. split; [done|]. split; [done|by left].
    + destruct (H4 _ _ _ Ht Hl) as (j & Hj & ?). exists j. rewrite lookup_insert_ne by eauto. done.
  - intros t s cs' host rs id' [[<- <-]|[_ Ht]]%lookup_insert_Some Hl; [done|].
    destruct (H5 _ _ _ _ _ _ Ht Hl) as (j & Hj & ?). exists j. rewrite lookup_insert_ne by eauto. done.
Qed.

Lemma link_touch R id i i' m str :
  m !! id = Some i -> taken i = true -> taken i' = true -> is_ts i' = is_ts i -> is_cs i' = is_cs i ->
  link R m str -> link R (<[id := i']> m) str.
Proof.
  intros Hi Ht Ht' Ets Ecs [H1 H2 H3 H4 H5 H6].
  assert (Hup : forall id' j, m !! id' = Some j -> exists j', <[id := i']> m !! id' = Some j' /\
    is_ts j' = is_ts j /\ is_cs j' = is_cs j /\ taken j' = taken j).
  { intros id' j Hj. destruct (decide (id = id')) as [<-|Hne].
    - exists i'. rewrite lookup_insert_eq. rewrite Hi in Hj. injection Hj as <-. split_and!; congruence.
    - exists j. by rewrite lookup_insert_ne. }
  split; [done|done| | | |].
  - intros id' j [[<- <-]|[_ Hj]]%lookup_insert_Some Hjt; [congruence|eauto].
  - intros t s id' Hs Hl. destruct (H4 _ _ _ Hs Hl) as (j & Hj & E1 & E2 & E3).
    destruct (Hup _ _ Hj) as (j' & ? & ? & ? & ?). exists j'. split_and!; [done|congruence|congruence|].
    destruct E3; [left; congruence|by right].
  - intros t s cs host rs id' Hs Hl. destruct (H5 _ _ _ _ _ _ Hs Hl) as (j & Hj & E1 & E2 & E3 & E4).
    destruct (Hup _ _ Hj) as (j' & ? & ? & ? & ?). exists j'. split_and!; [congruence..|apply E4|apply E4].
  - intros id' Hin. destruct (H6 _ Hin) as (j & Hj & E1 & E2).
    destruct (Hup _ _ Hj) as (j' & Hj' & F1 & F2 & F3). exists j'. rewrite F1, F2, F3. done.
Qed.

(** *** Closing what was taken out *)

Lemma close_pool t w : pool (close t w) = pool w.
Proof. unfold close. destruct (streams w !! t) as [s|]; [by destruct (is_open s)|done]. Qed.

Lemma close_leave R id w :
  NoDup (id :: R) -> link (id :: R) (idles (pool w)) (streams w) ->
  link R (idles (pool w)) (streams (close (ts_of (pool w) id) w)).
Proof.
  intros Hnd Hl. destruct (li_out _ _ _ Hl id) as (i & Hi & Ht & Hs); [set_solver|].
  unfold ts_of. rewrite Hi. unfold close. rewrite Hs. simpl.
  apply (link_leave R id i Closed); [done|done|done|by left].
Qed.

Lemma closeIdle_spec l w :
  NoDup l -> link l (idles (pool w)) (streams w) -> res_inv w ->
  pool (closeIdle l w) = pool w /\ link [] (idles (pool w)) (streams (closeIdle l w)) /\
  res_inv (closeIdle l w).
Proof.
  revert w; induction l as [|id l IH]; intros w Hnd Hl Hr; [done|]. simpl.
  destruct (IH (close (ts_of (pool w) id) w)) as (H1 & H2 & H3).
  - by apply NoDup_cons in Hnd as [_ ?].
  - rewrite close_pool. by apply close_leave.
  - by apply close_res.
  - rewrite close_pool in *. done.
Qed.

Lemma remove_fold_link l R p str :
  NoDup l -> (forall id, id ∈ l -> exists i, waiting p id i) -> link R (idles p) str ->
  link (rev l ++ R) (idles (foldl (fun p id => removeLocked id p) p l)) str.
Proof.
  revert R p; induction l as [|id l IH]; intros R p Hnd Hw Hl; [done|]. simpl.
  apply NoDup_cons in Hnd as [Hnin Hnd]. destruct (Hw id) as [i Hi]; [set_solver|].
  rewrite <- app_assoc. simpl. apply IH; [done| |by eapply link_remove].
  intros id' Hin. destruct (Hw id') as [j Hj]; [set_solver|]. exists j.
  apply removeLocked_waiting. split; [done|]. by intros ->.
Qed.

Record world_inv (w : world) : Prop := {
  wi_pool : pool_inv (pool w);
  wi_res : res_inv w;
  wi_link : link [] (idles (pool w)) (streams w);
}.

Lemma after_remove_inv m p0 w :
  pool_core p0 -> idles p0 = idles (pool w) -> pool_inv (removeWhereLocked m p0).1 ->
  world_inv w -> world_inv (after_remove (removeWhereLocked m p0) w).
Proof.
  intros Hcore Hid Hinv [_ Hr Hl]. unfold after_remove.
  destruct (removeWhereLocked m p0) as [p' gone] eqn:E. simpl in *.
  destruct (removeWhere_spec _ _ _ _ Hcore E) as (_ & _ & Hg & _).
  unfold removeWhereLocked in E. injection E as Ep Eg.
  assert (Hnd : NoDup gone).
  { rewrite <- Eg. eapply sublist_NoDup; [apply (NoDup_elements (all p0))|apply filter_sublist]. }
  assert (Hlink : link gone (idles p') (streams w)).
  { rewrite <- Ep, Eg. eapply link_perm; [|apply (remove_fold_link gone []); [done| |by rewrite Hid]].
    - intros x. rewrite app_nil_r, !list_elem_of_In. symmetry. apply in_rev.
    - intros id Hin. apply Hg in Hin as (i & ? & _). eauto. }
  destruct (closeIdle_spec gone (set_pool p' w)) as (H1 & H2 & H3); [done|done|by destruct Hr|].
  split; rewrite ?H1; done.
Qed.

(** *** Each event keeps the invariant *)

Lemma set_pool_res p w : res_inv w -> res_inv (set_pool p w).
Proof. by intros []. Qed.

(** A request's own stream is closed. *)
Lemma close_inv t s w :
  streams w !! t = Some s -> (forall id, s_loc s <> Idle id) -> world_inv w -> world_inv (close t w).
Proof.
  intros Hs Hni [Hp Hr Hl]. split; [by rewrite close_pool|by apply close_res|].
  rewrite close_pool. unfold close. rewrite Hs. destruct (is_open s); [|done]. simpl.
  by apply link_plain; [..|left|].
Qed.

(** A stream the pool just gave up is closed. *)
Lemma close_out_inv p' id w :
  pool_inv p' -> link [id] (idles p') (streams w) -> res_inv w ->
  world_inv (close (ts_of p' id) (set_pool p' w)).
Proof.
  intros Hp Hl Hr. split; [by rewrite close_pool|by apply close_res, set_pool_res|].
  rewrite close_pool. by apply (close_leave [] id (set_pool p' w)); [apply NoDup_singleton|].
Qed.

Lemma put_stream_inv cs id ts wt ret w :
  streams w !! ts_id ts = Some (mkStream ts cs (InUse cs)) -> idles (pool w) !! id = None ->
  world_inv w -> world_inv (put_stream cs id ts wt ret w).
Proof.
  intros Hs Hid Hw. unfold put_stream. destruct (put cs id ts wt ret (pool w)) as [p'|] eqn:E.
  - destruct Hw as [Hp Hr Hl].
    assert (Hid' : idles p' = <[id := mkIS ts cs false false false]> (idles (pool w))).
    { unfold put in E. destruct (conns (pool w) !! cs); [|done]. cbn [mbind option_bind] in E.
      destruct (_ || _); [done|]. by injection E as <-. }
    split.
    + unfold move. simpl. rewrite Hs. simpl. by eapply put_inv.
    + by eapply move_res; [exact Hs|done|done|apply set_pool_res].
    + unfold move. simpl. rewrite Hs. simpl. rewrite Hid'. by apply link_put.
  - by eapply close_inv.
Qed.

Lemma watch_stream_inv id quiet w : world_inv w -> world_inv (watch_stream id quiet w).
Proof.
  intros [Hp Hr Hl]. unfold watch_stream. pose proof (watch_inv id quiet (pool w) Hp) as Hp'.
  unfold watch in *. destruct (idles (pool w) !! id) as [i|] eqn:Hi; [|split; [done|by apply set_pool_res|done]].
  destruct (taken i) eqn:Ht.
  - split; [done|by apply set_pool_res|]. simpl. by eapply link_touch.
  - simpl in Hp'. apply close_out_inv; [done| |done].
    assert (Hw : waiting (pool w) id i) by done. simpl.
    eapply (link_touch _ id (mark i)); [|done..|by eapply link_remove].
    by rewrite (removeLocked_idle id i), lookup_insert_eq.
Qed.

Lemma take_stream_inv cs host rs w : world_inv w -> world_inv (take_stream cs host rs w).
Proof.
  intros [Hp Hr Hl]. unfold take_stream. pose proof (take_inv cs host (pool w) Hp) as Hp'.
  unfold take_locked in *. destruct (conns (pool w) !! cs) as [c|] eqn:Ec; [|by split].
  destruct (last (kept_list c host)) as [id|] eqn:El; [|by split]. simpl in Hp'.
  apply last_Some_elem_of in El. apply (pi_list _ (pi_core _ Hp) _ _ _ _ Ec) in El as (i & Hw & Ecs & Eh).
  pose proof (link_remove [] id i _ _ Hw Hl) as Hl'.
  assert (Hi' : idles (removeLocked id (pool w)) !! id = Some (mark i))
    by (by rewrite (removeLocked_idle id i), lookup_insert_eq).
  destruct (li_out _ _ _ Hl' id) as (i' & Hi'' & _ & Hs); [set_solver|]. simplify_eq.
  unfold ts_of. rewrite Hi'. simpl in *.
  split; [unfold move; simpl; by rewrite Hs| |].
  - eapply move_res; [exact Hs|done|done|by apply set_pool_res].
  - unfold move. simpl. rewrite Hs. simpl.
    apply (link_leave [] id (mark i)); [apply NoDup_singleton|done|done|]. right. by exists rs.
Qed.

Lemma take_done_inv cs host rs id gone i s w :
  idles (pool w) !! id = Some i -> streams w !! ts_id (is_ts i) = Some s -> s_loc s = Taking cs host rs id ->
  world_inv w -> world_inv (take_done cs rs id gone w).
Proof.
  intros Hi Hs Hl Hw. unfold take_done. rewrite Hi. destruct (take_check i rs gone).
  - destruct Hw as [Hp Hr Hk]. destruct (li_taking _ _ _ Hk _ _ _ _ _ _ Hs Hl) as (i' & Hi' & Ets & _ & _ & Ecs & _).
    rewrite Hi in Hi'. injection Hi' as <-. split.
    + unfold move. by rewrite Hs.
    + eapply move_res; [exact Hs|unfold is_open; by rewrite Hl|done|done].
    + unfold move. rewrite Hs. simpl. rewrite Ecs. apply link_plain; [done| |by right|done]. congruence.
  - eapply close_inv; [done| |done]. congruence.
Qed.

(** What the end of a [take] leaves of the stream. *)
Lemma take_done_gives i s cs rs id gone t s' w :
  idles (pool w) !! id = Some i -> ts_id (is_ts i) = t -> streams w !! t = Some s -> s_ts s = is_ts i ->
  streams (take_done cs rs id gone w) !! t = Some s' -> is_open s' = true ->
  s' = mkStream (s_ts s) (s_conn s) (InUse cs) /\
  rs = ts_rs (s_ts s) /\ gone = false.
Proof.
  intros Hi <- Hs Ets. unfold take_done, take_check. rewrite Hi. destruct (_ && _) eqn:E.
  - unfold move. rewrite Hs. simpl. rewrite lookup_insert_eq. intros [= <-] _. b2p. rewrite Ets. by subst.
  - unfold close. rewrite Hs. destruct (is_open s) eqn:Eo; simpl; [rewrite lookup_insert_eq|rewrite Hs]; intros [= <-]; [done|congruence].
Qed.

Lemma evict_stream_inv order rs w :
  order ≡ₚ elements (all (pool w)) -> world_inv w -> world_inv (evict_stream order rs w).1.
Proof.
  intros Ho [Hp Hr Hl]. unfold evict_stream. pose proof (evictRoute_inv order rs _ Hp) as Hp'.
  unfold evictRoute in *. destruct (List.find _ order) as [id|] eqn:Ef; [|by split]. simpl in *.
  apply find_some in Ef as [Hin _].
  assert (Hall : id ∈ all (pool w)) by (rewrite <- elem_of_elements, <- Ho; by apply list_elem_of_In).
  apply (pi_all _ (pi_core _ Hp)) in Hall as [i Hw].
  apply close_out_inv; [done|by eapply link_remove|done].
Qed.

Lemma h3_exec_inv e w : enabled e w -> world_inv w -> world_inv (exec e w).
Proof.
  destruct e; simpl; intros He Hw; pose proof Hw as [Hp Hr Hl].
  - split; [by apply newConn_inv|by apply set_pool_res|done].
  - split; [unfold take_slot; by destruct (tryAcquire _)|by apply take_slot_res|].
    unfold take_slot. by destruct (tryAcquire _).
  - split; [done|by apply drop_slot_res|done].
  - destruct He as (Hsl & Hf & _). split; [done|by apply open_stream_res|]. simpl.
    destruct Hl as [H1 H2 H3 H4 H5 H6]. split; [| | | | |set_solver].
    + intros t s [[<- <-]|[_ Ht]]%lookup_insert_Some; [done|eauto].
    + intros t s c [[<- <-]|[_ Ht]]%lookup_insert_Some; [simpl; congruence|eauto].
    + intros id i Hi Ht. rewrite lookup_insert_ne; [eauto|]. intros E.
      specialize (H3 _ _ Hi Ht). congruence.
    + intros t s id [[<- <-]|[_ Ht]]%lookup_insert_Some Hloc; [done|eauto].
    + intros t s cs0 host rs id [[<- <-]|[_ Ht]]%lookup_insert_Some Hloc; [done|by eapply H5].
  - destruct He as [[opener Hs] Hid].
    assert (cs = opener) as <- by exact (li_use _ _ _ (wi_link _ Hw) _ _ _ Hs eq_refl). by apply put_stream_inv.
  - by apply watch_stream_inv.
  - by apply take_stream_inv.
  - destruct He as (i & s & ? & ? & ? & ?). by eapply take_done_inv.
  - destruct He as (s & cs & Hs & Hloc). eapply close_inv; [done| |done]. congruence.
  - pose proof (closeConn_inv cs _ Hp) as Hp'. unfold closeConn in *.
    destruct (conns (pool w) !! cs) as [c|] eqn:Ec; [|by destruct w].
    apply after_remove_inv; [|done|done|done]. apply close_mark_core; [done|by apply pi_core].
  - apply after_remove_inv; [by apply pi_core|done|by apply closeAgent_inv|done].
  - apply after_remove_inv; [|done|by apply closeAll_empty|done]. destruct (pi_core _ Hp). by split.
  - by apply evict_stream_inv.
Qed.

Lemma h3_steps_inv w w' : rtc step w w' -> world_inv w -> world_inv w'.
Proof. apply (steps_invariant enabled exec). apply h3_exec_inv. Qed.

Lemma h3_initial_inv caps : world_inv (initial caps).
Proof.
  split; [apply newH3Pool_inv| |].
  - split; simpl; try done. intros rs s Hs. apply lookup_omap_Some in Hs as (c & Hc & _).
    unfold newSemaphore in Hc. destruct (c <=? 0) eqn:E; [done|]. b2p. injection Hc as <-. simpl.
    split; [done|lia].
  - split; simpl; try set_solver.
Qed.

(** ** Slots taken from kept streams ([slotFromKept], [tcpRouteSlot]) *)

(** [order] is the order map iteration takes.  Every round closes a kept
    stream, so one more round than there are is enough. *)
Fixpoint slot_rounds (fuel : nat) (order : gset nat -> list nat) (rs : nat) (w : world)
    : world * bool :=
  match fuel with
  | O => (w, false)
  | S fuel =>
      let '(w, evicted) := evict_stream (order (all (pool w))) rs w in
      if evicted then
        let '(w, ok) := take_slot rs w in
        if ok then (w, true) else slot_rounds fuel order rs w
      else (w, false)
  end.

Definition slotFromKept (order : gset nat -> list nat) (rs : nat) (w : world) : world * bool :=
  slot_rounds (S (size (all (pool w)))) order rs w.

(** [slotWaiters], raised meanwhile, is the [waiters] argument of the [put]s
    that run at the same time. *)
Definition tcpRouteSlot (order : gset nat -> list nat) (rs : nat) (w : world) : world * bool :=
  let '(w, ok) := take_slot rs w in
  if ok then (w, true) else slotFromKept order rs w.

(** Some stream kept for a later request holds a slot of [rs]. *)
Definition keeps_slot (rs : nat) (w : world) : Prop :=
  exists id i, waiting (pool w) id i /\ ts_rs (is_ts i) = rs.

Lemma take_slot_full rs w w' :
  take_slot rs w = (w', false) ->
  exists s, sems w !! rs = Some s /\ cap s <= used s /\ pool w' = pool w /\ streams w' = streams w /\
    sems w' = sems w.
Proof.
  unfold take_slot, tryAcquire. destruct (sems w !! rs) as [s|] eqn:Es; [|done].
  destruct (_ <? _) eqn:E; b2p; intros [= <-]. exists s. simpl. split_and!; try done.
  by apply insert_id.
Qed.

Lemma evict_finds order rs w :
  order ≡ₚ elements (all (pool w)) -> world_inv w -> keeps_slot rs w ->
  exists t s, evict_stream order rs w = ((evict_stream order rs w).1, true) /\
    streams w !! t = Some s /\ on_route rs s = true /\
    sems (evict_stream order rs w).1 = set_sem rs (release (sems w !! rs)) (sems w).
Proof.
  intros Ho [Hp Hr Hl] (id0 & i0 & Hw0 & Hrs0). unfold evict_stream, evictRoute.
  destruct (List.find _ order) as [id|] eqn:Ef.
  - apply find_some in Ef as [Hin Hm].
    assert (Hall : id ∈ all (pool w)) by (rewrite <- elem_of_elements, <- Ho; by apply list_elem_of_In).
    apply (pi_all _ (pi_core _ Hp)) in Hall as [i Hw]. pose proof Hw as [Hi Ht]. rewrite Hi in Hm.
    apply Nat.eqb_eq in Hm. pose proof (li_wait _ _ _ Hl id i Hi Ht) as Hs.
    unfold ts_of. rewrite (removeLocked_idle _ _ _ Hw), lookup_insert_eq. simpl.
    do 2 eexists. split; [done|]. split; [exact Hs|]. split; [unfold on_route; simpl; by apply Nat.eqb_eq|].
    unfold close. simpl. rewrite Hs. simpl. by rewrite Hm.
  - exfalso. assert (Hin : In id0 order).
    { apply list_elem_of_In. rewrite Ho. apply elem_of_elements, (pi_all _ (pi_core _ Hp)). eauto. }
    pose proof (find_none _ _ Ef id0 Hin) as Hm. simpl in Hm. destruct Hw0 as [Hi _]. rewrite Hi in Hm.
    by apply Nat.eqb_neq in Hm.
Qed.

Lemma evict_none order rs w :
  order ≡ₚ elements (all (pool w)) -> world_inv w -> ~ keeps_slot rs w ->
  evict_stream order rs w = (w, false).
Proof.
  intros Ho [Hp _ _] Hn. unfold evict_stream, evictRoute.
  destruct (List.find _ order) as [id|] eqn:Ef; [|done]. exfalso. apply Hn.
  apply find_some in Ef as [Hin Hm].
  assert (Hall : id ∈ all (pool w)) by (rewrite <- elem_of_elements, <- Ho; by apply list_elem_of_In).
  apply (pi_all _ (pi_core _ Hp)) in Hall as [i Hw]. pose proof Hw as [Hi _]. rewrite Hi in Hm.
  exists id, i. split; [done|]. by apply Nat.eqb_eq.
Qed.

(** With a stream kept on the route, the first round gets its slot. *)
Lemma slotFromKept_gets order rs w :
  (forall X, order X ≡ₚ elements X) -> world_inv w -> keeps_slot rs w ->
  (slotFromKept order rs w).2 = true /\
  mget (slots (slotFromKept order rs w).1) rs = mget (slots w) rs + 1.
Proof.
  intros Ho Hw Hk. unfold slotFromKept. cbn [slot_rounds].
  destruct (evict_finds (order (all (pool w))) rs w (Ho _) Hw Hk) as (t & s & E & Hs & Hon & Hsem).
  set (w1 := (evict_stream (order (all (pool w))) rs w).1) in *. rewrite E.
  assert (Hslots : slots w1 = slots w).
  { unfold w1, evict_stream. destruct (evictRoute _ _ _) as [p' [id|]]; simpl; [|done].
    unfold close. simpl. repeat split_match; done. }
  destruct (take_slot rs w1) as [w2 ok] eqn:Et. unfold take_slot, tryAcquire in Et. rewrite Hsem in Et.
  destruct (sems w !! rs) as [x|] eqn:Ex; simpl in Et.
  - rewrite lookup_insert_eq in Et. simpl in Et. destruct (ri_sem _ (wi_res _ Hw) rs x Ex) as [_ Hle].
    destruct (_ <? _) eqn:El; b2p; [|lia]. injection Et as <- <-. simpl.
    by rewrite mget_madd, Hslots, decide_True.
  - rewrite Ex in Et. injection Et as <- <-. simpl. by rewrite mget_madd, Hslots, decide_True.
Qed.

(** ** Shutdown *)

Lemma close_closed t w : closed (pool (close t w)) = closed (pool w).
Proof. by rewrite close_pool. Qed.

Lemma closeIdle_pool l w : pool (closeIdle l w) = pool w.
Proof.
  revert w; induction l as [|id l IH]; intros w; [done|]. simpl. rewrite IH. apply close_pool.
Qed.

Lemma move_pool t l w : pool (move t l w) = pool w.
Proof. unfold move. by destruct (streams w !! t). Qed.

Lemma remove_closed id p : closed (removeLocked id p) = closed p.
Proof. apply removeLocked_shrinks. Qed.

(** The draining flag is never cleared. *)
Lemma exec_closed e w : closed (pool w) = true -> closed (pool (exec e w)) = true.
Proof.
  assert (Hfold : forall l p, closed (foldl (fun p id => removeLocked id p) p l) = closed p).
  { intros l p. apply (remove_fold l p). }
  intros Hc. destruct e; simpl; try done.
  - unfold take_slot. by destruct (tryAcquire _).
  - unfold put_stream, put. destruct (conns (pool w) !! cs);
      cbn [mbind option_bind]; [|by rewrite close_closed]. rewrite Hc. simpl. by rewrite close_closed.
  - unfold watch_stream, watch. destruct (idles (pool w) !! id) as [i|]; [|done].
    destruct (taken i); simpl; [done|]. rewrite close_closed. simpl. by rewrite remove_closed.
  - unfold take_stream, take_locked. destruct (conns (pool w) !! cs); [|done].
    destruct (last _); [|done]. rewrite move_pool. simpl. by rewrite remove_closed.
  - unfold take_done. destruct (idles (pool w) !! id); [|done].
    destruct (take_check _ _ _); [by rewrite move_pool|by rewrite close_closed].
  - by rewrite close_closed.
  - unfold after_remove, closeConn. destruct (conns (pool w) !! cs); rewrite closeIdle_pool; simpl; [|done].
    by rewrite Hfold.
  - unfold after_remove. rewrite closeIdle_pool. simpl. by rewrite Hfold.
  - unfold after_remove. rewrite closeIdle_pool. simpl. by rewrite Hfold.
  - unfold evict_stream, evictRoute. destruct (List.find _ _); simpl; [|done].
    rewrite close_closed. simpl. by rewrite remove_closed.
Qed.

Lemma reachable_closed w w' : rtc step w w' -> closed (pool w) = true -> closed (pool w') = true.
Proof.
  apply (steps_invariant enabled exec (fun w => closed (pool w) = true)). intros. by apply exec_closed.
Qed.

(** ** Properties *)

(** [C13] A tunnel stream serves one client: in every reachable state, a stream
    used by a request, or handed by [take] to one that still waits for the
    watcher, is that of a request of the HTTP/3 connection it was opened for,
    and a stream in a pool is in that connection's pool, however requests,
    watchers, evictions and closes interleave; when [take(cs, host, rs)] gives
    its caller a stream, it was opened for the same connection, host and route
    and its agent is not going away. *)
Theorem stream_one_client (caps : gmap nat Z) (w : world) (t : nat) (s : stream)
    (Hw : rtc step (initial caps) w) (Hs : streams w !! t = Some s) :
  match s_loc s with
  | InUse cs => cs = s_conn s
  | Idle id => exists i, idles (pool w) !! id = Some i /\ is_ts i = s_ts s /\ is_cs i = s_conn s
  | Taking cs host _ _ => cs = s_conn s /\ host = ts_host (s_ts s)
  | Closed => True
  end /\
  forall cs host rs id gone s', s_loc s = Taking cs host rs id ->
    streams (exec (ETakeDone cs host rs id gone) w) !! t = Some s' -> is_open s' = true ->
    s' = mkStream (s_ts s) (s_conn s) (InUse (s_conn s)) /\
    cs = s_conn s /\ host = ts_host (s_ts s) /\ rs = ts_rs (s_ts s) /\ gone = false.
Proof.
  destruct (h3_steps_inv _ _ Hw (h3_initial_inv caps)) as [_ _ Hl]. split.
  - destruct (s_loc s) eqn:E; [by eapply li_use| | |done].
    + destruct (li_idle _ _ _ Hl _ _ _ Hs E) as (i & ? & ? & ? & _). eauto.
    + by destruct (li_taking _ _ _ Hl _ _ _ _ _ _ Hs E) as (i & _ & _ & _ & _ & ?).
  - intros cs host rs id gone s' E.
    destruct (li_taking _ _ _ Hl _ _ _ _ _ _ Hs E) as (i & Hi & Ets & _ & _ & -> & ->).
    intros Hs' Ho. destruct (take_done_gives i s (s_conn s) rs id gone t s' w) as (? & ? & ?); try done.
    by rewrite Ets, (li_id _ _ _ Hl _ _ Hs).
Qed.

(** [C19] Streams give back what they hold exactly once: in every reachable
    state the agent's stream count and the route's gauge are the numbers of
    their open streams, and a capped route's used slots are those streams plus
    the slots held by TCP connections and requests without a stream, never more
    than the cap. *)
Theorem stream_accounting (caps : gmap nat Z) (w : world) (Hw : rtc step (initial caps) w) :
  (forall a, mget (active w) a = Z.of_nat (count_if (on_agent a) (streams w))) /\
  (forall rs, mget (gauge w) rs = Z.of_nat (count_if (on_route rs) (streams w))) /\
  (forall rs s, sems w !! rs = Some s ->
     used s = mget (slots w) rs + Z.of_nat (count_if (on_route rs) (streams w)) /\ used s <= cap s).
Proof. by destruct (h3_steps_inv _ _ Hw (h3_initial_inv caps)) as [_ [] _]. Qed.

(** The pool's books are right: in every reachable state an HTTP/3
    connection that has not ended keeps at most [maxKeptPerConn] streams, as
    many as it counts, its lists hold exactly its waiting streams, and each
    waiting stream is open; a connection that has ended keeps none. *)
Theorem pool_bounded (caps : gmap nat Z) (w : world) (cs : nat) (c : connStreams)
    (Hw : rtc step (initial caps) w) (Hc : conns (pool w) !! cs = Some c) :
  n c = Z.of_nat (count_if (kept_by cs) (idles (pool w))) /\ n c <= maxKeptPerConn /\
  (forall h id, id ∈ kept_list c h <-> exists i, waiting (pool w) id i /\ is_cs i = cs /\ ts_host (is_ts i) = h) /\
  (forall id i, waiting (pool w) id i -> exists s, streams w !! ts_id (is_ts i) = Some s /\ is_open s = true) /\
  (cs_closed c = true -> n c = 0).
Proof.
  destruct (h3_steps_inv _ _ Hw (h3_initial_inv caps)) as [[Hcore _ Hcc] _ Hl].
  pose proof (pi_n _ Hcore _ _ Hc) as Hn.
  split_and!; [done|by eapply pi_cap|intros; by apply pi_list| |].
  - intros id i [Hi Ht]. eexists. split; [by apply (li_wait _ _ _ Hl)|done].
  - intros Hd. rewrite Hn. enough (count_if (kept_by cs) (idles (pool w)) = 0%nat) by lia.
    apply count_if_zero. intros id i Hi. unfold kept_by. destruct (taken i) eqn:Ht; [done|]. simpl.
    apply Nat.eqb_neq. by apply (Hcc _ _ Hc Hd id).
Qed.

(** A draining edge keeps nothing: once [closeAll] has run, no stream is in
    the pool then or ever again. *)
Theorem pool_closed_for_good (caps : gmap nat Z) (w w' : world)
    (Hw : rtc step (initial caps) w) (Hw' : rtc step (exec ECloseAll w) w') :
  all (pool w') = ∅ /\ forall t s id, streams w' !! t = Some s -> s_loc s <> Idle id.
Proof.
  pose proof (h3_steps_inv _ _ Hw (h3_initial_inv caps)) as Hinv.
  assert (Hinv1 : world_inv (exec ECloseAll w)) by by apply h3_exec_inv.
  assert (Hc1 : closed (pool (exec ECloseAll w)) = true).
  { simpl. unfold after_remove. rewrite closeIdle_pool. simpl.
    by destruct (closeAll_empty _ (wi_pool _ Hinv)) as (_ & ? & _). }
  pose proof (reachable_closed _ _ Hw' Hc1) as Hc'.
  destruct (h3_steps_inv _ _ Hw' Hinv1) as [[Hcore Hcl _] _ Hl]. specialize (Hcl Hc').
  split; [done|]. intros t s id Hs E. destruct (li_idle _ _ _ Hl _ _ _ Hs E) as (i & Hi & _ & _ & [Ht|?]); [|set_solver].
  assert (id ∈ all (pool w')) by (apply (pi_all _ Hcore); by exists i). set_solver.
Qed.

(** A request that needs a slot now comes first: whatever order the pool is
    visited in, a TCP connection on a full route gets a slot exactly when some
    stream is kept on the route for a later request; otherwise it gets one
    exactly when the cap leaves one free. *)
Theorem tcp_slot_from_kept (caps : gmap nat Z) (order : gset nat -> list nat) (rs : nat) (w : world)
    (Ho : forall X, order X ≡ₚ elements X) (Hw : rtc step (initial caps) w) :
  ((tcpRouteSlot order rs w).2 = true <->
     match sems w !! rs with None => True | Some s => used s < cap s \/ keeps_slot rs w end) /\
  ((tcpRouteSlot order rs w).2 = true ->
     mget (slots (tcpRouteSlot order rs w).1) rs = mget (slots w) rs + 1).
Proof.
  pose proof (h3_steps_inv _ _ Hw (h3_initial_inv caps)) as Hinv. unfold tcpRouteSlot.
  destruct (take_slot rs w) as [w1 ok] eqn:Et. destruct ok; simpl.
  - unfold take_slot, tryAcquire in Et. destruct (sems w !! rs) as [s|].
    + destruct (_ <? _) eqn:E; b2p; [|done]. injection Et as <-. simpl.
      rewrite mget_madd, decide_True by done. naive_solver.
    + injection Et as <-. simpl. by rewrite mget_madd, decide_True.
  - destruct (take_slot_full _ _ _ Et) as (s & Hs & Hfull & Hp & Hstr & Hsem). rewrite Hs.
    assert (Hinv1 : world_inv w1).
    { replace w1 with (exec (ETakeSlot rs) w) by (simpl; by rewrite Et). by apply h3_exec_inv. }
    assert (Hsl : slots w1 = slots w).
    { unfold take_slot, tryAcquire in Et. rewrite Hs in Et. destruct (_ <? _); by simplify_eq. }
    assert (Hk : keeps_slot rs w1 <-> keeps_slot rs w) by (unfold keeps_slot; by rewrite Hp).
    assert (Hdec : keeps_slot rs w1 \/ ~ keeps_slot rs w1).
    { destruct (evict_stream (order (all (pool w1))) rs w1) as [w2 [|]] eqn:E.
      - left. unfold evict_stream, evictRoute in E.
        destruct (List.find _ _) as [id|] eqn:Ef; [|done]. apply find_some in Ef as [Hin Hm].
        apply list_elem_of_In in Hin. rewrite Ho, elem_of_elements in Hin.
        apply (pi_all _ (pi_core _ (wi_pool _ Hinv1))) in Hin as [i Hi]. exists id, i. split; [done|].
        destruct Hi as [Hi _]. rewrite Hi in Hm. by apply Nat.eqb_eq.
      - right. intros Hk1. destruct (evict_finds _ rs w1 (Ho _) Hinv1 Hk1) as (? & ? & E' & _). congruence. }
    destruct Hdec as [Hk1|Hn1].
    + destruct (slotFromKept_gets order rs w1 Ho Hinv1 Hk1) as [-> ->]. rewrite Hsl. naive_solver.
    + unfold slotFromKept. cbn [slot_rounds]. rewrite (evict_none _ _ _ (Ho _) Hinv1 Hn1). simpl.
      split; [|done]. split; [done|]. intros [?|Hk0]; [lia|]. destruct Hn1. by apply Hk.
Qed.

(** ** Witnesses *)

Module H3PoolWitness.
(** A route capped at one connection; connection 7 opens a stream on it, keeps
    it, and takes it again. *)
Definition caps : gmap nat Z := {[1%nat := 1]}.
Definition ts : tunnelStream := mkTS 5 3 1 (bs "h").
Definition w3 : world := exec (EOpen 7 ts) (exec (ETakeSlot 1) (exec (EConn 7) (initial caps))).
Definition w4 : world := exec (EPut 7 9 ts 0 false) w3.
Definition w7 : world := exec (ETakeDone 7 (bs "h") 1 9 false) (exec (EWatch 9 true) (exec (ETake 7 (bs "h") 1) w4)).

Ltac go e tac := rtc_step e tac.

Lemma reach4 : rtc step (initial caps) w4.
Proof.
  go (EConn 7) ltac:(vm_compute; reflexivity). go (ETakeSlot 1) ltac:(exact I).
  go (EOpen 7 ts) ltac:(split; [vm_compute; reflexivity|split; [vm_compute; reflexivity|eexists; vm_compute; reflexivity]]).
  go (EPut 7 9 ts 0 false) ltac:(split; [exists 7%nat|]; vm_compute; reflexivity). apply rtc_refl.
Qed.

Lemma reach7 : rtc step (initial caps) w7.
Proof.
  etrans; [apply reach4|]. go (ETake 7 (bs "h") 1) ltac:(exact I).
  go (EWatch 9 true) ltac:(eexists; split; vm_compute; reflexivity).
  go (ETakeDone 7 (bs "h") 1 9 false) ltac:(do 2 eexists; split_and!; vm_compute; reflexivity). apply rtc_refl.
Qed.

Lemma stream_one_client_witness :
  streams w7 !! 5%nat = Some (mkStream ts 7 (InUse 7)) /\ 7%nat = 7%nat.
Proof.
  assert (Hs : streams w7 !! 5%nat = Some (mkStream ts 7 (InUse 7))) by (vm_compute; reflexivity).
  split; [exact Hs|]. exact (proj1 (stream_one_client caps w7 5 _ reach7 Hs)).
Defined.

Lemma stream_accounting_witness :
  mget (gauge w4) 1%nat = 1 /\
  mget (gauge w4) 1%nat = Z.of_nat (count_if (on_route 1) (streams w4)).
Proof. split; [vm_compute; reflexivity|]. apply (stream_accounting caps w4 reach4). Defined.

Lemma pool_bounded_witness :
  exists c, conns (pool w4) !! 7%nat = Some c /\ n c = 1 /\ n c <= maxKeptPerConn.
Proof.
  eexists. split; [vm_compute; reflexivity|]. split; [reflexivity|].
  eapply (pool_bounded caps w4 7 _ reach4). vm_compute. reflexivity.
Defined.

Lemma pool_closed_for_good_witness : all (pool (exec ECloseAll w4)) = ∅.
Proof. apply (pool_closed_for_good caps w4 _ reach4). apply rtc_refl. Defined.

Lemma tcp_slot_from_kept_witness :
  used <$> (sems w4 !! 1%nat) = Some 1 /\ (tcpRouteSlot elements 1 w4).2 = true.
Proof.
  split; [vm_compute; reflexivity|].
  apply (tcp_slot_from_kept caps elements 1 w4 (fun X => reflexivity _) reach4).
  change (match sems w4 !! 1%nat with None => True | Some s => used s < cap s \/ keeps_slot 1 w4 end).
  replace (sems w4 !! 1%nat) with (Some (mkSema 1 1)) by (vm_compute; reflexivity).
  right. exists 9%nat, (mkIS ts 7 false false false). split; [split; vm_compute; reflexivity|reflexivity].
Defined.
End H3PoolWitness.
