(* ===== verification/Tunnel.v ===== *)
(** * The tunnel's stream protocol ([internal/tunnel/preamble.go], [accept.go],
    [control.go])

    The length-prefixed JSON preamble at the start of each stream, the accept
    byte of version 2, and the drain handshake on control streams.  JSON is
    modelled for what [json.Marshal] makes of this struct's ASCII strings;
    other texts go through the class [JSON]. *)

From S2P Require Import Prelude GoStrings IO.

(** ** JSON strings *)

Definition hex_digit (n : N) : ascii := if (n <? 10)%N then byte (48 + n) else byte (87 + n).

Definition hex_value (c : ascii) : option N :=
  let n := code c in
  if ((48 <=? n) && (n <=? 57))%N then Some (n - 48)%N
  else if ((97 <=? n) && (n <=? 102))%N then Some (n - 87)%N
  else if ((65 <=? n) && (n <=? 70))%N then Some (n - 55)%N
  else None.

(** [appendString] with HTML escaping, on an ASCII byte. *)
Definition escape_byte (c : ascii) : gostr :=
  let n := code c in
  if (n =? 34)%N then bs "\" ++ [c]
  else if (n =? 92)%N then bs "\\"
  else if (n =? 8)%N then bs "\b"
  else if (n =? 12)%N then bs "\f"
  else if (n =? 10)%N then bs "\n"
  else if (n =? 13)%N then bs "\r"
  else if (n =? 9)%N then bs "\t"
  else if ((n <? 32) || (n =? 60) || (n =? 62) || (n =? 38))%N
  then bs "\u00" ++ [hex_digit (n / 16); hex_digit (n mod 16)]
  else [c].

Definition escape (s : gostr) : gostr := flat_map escape_byte s.

(** One character of a JSON string: the byte it stands for.  [None] at its
    closing quote, and on what is not a plain ASCII character or escape. *)
Definition unescape (s : gostr) : option (ascii * gostr) :=
  match s with
  | [] => None
  | c :: t =>
      if (code c =? 34)%N then None
      else if (code c =? 92)%N then
        match t with
        | [] => None
        | e :: t =>
            let n := code e in
            if ((n =? 34) || (n =? 92) || (n =? 47))%N then Some (e, t)
            else if (n =? 98)%N then Some (byte 8, t)
            else if (n =? 102)%N then Some (byte 12, t)
            else if (n =? 110)%N then Some (byte 10, t)
            else if (n =? 114)%N then Some (byte 13, t)
            else if (n =? 116)%N then Some (byte 9, t)
            else if (n =? 117)%N then
              match t with
              | z1 :: z2 :: h :: l :: t =>
                  h ← hex_value h; l ← hex_value l;
                  if ceq z1 "0"%char && ceq z2 "0"%char && (h <? 8)%N then Some (byte (16 * h + l), t)
                  else None
              | _ => None
              end
            else None
        end
      else if (32 <=? code c)%N && (code c <? 128)%N then Some (c, t) else None
  end.

Definition quote : ascii := byte 34.

(** The rest of a JSON string after its opening quote.  Every character takes a
    byte, so [length s] rounds are enough. *)
Fixpoint string_rounds (fuel : nat) (s : gostr) : option (gostr * gostr) :=
  match s with
  | [] => None
  | c :: t =>
      if ceq c quote then Some ([], t)
      else match fuel with
           | O => None
           | S fuel =>
               '(c, t) ← unescape s; '(r, t) ← string_rounds fuel t; Some (c :: r, t)
           end
  end.

Definition json_string (s : gostr) : option (gostr * gostr) :=
  match s with
  | c :: t => if ceq c quote then string_rounds (length t) t else None
  | [] => None
  end.

Definition quoted (s : gostr) : gostr := [quote] ++ s ++ [quote].

(** ** The preamble *)

Record Preamble := mkPreamble {
  ConnID : gostr;
  ClientAddr : gostr;
  Host : gostr;
  EdgeVersion : gostr;
}.

Definition maxPreamble : Z := 4096.

(** What [encoding/json] makes of strings that are not ASCII, and of texts that
    are not a flat object of this struct's string members. *)
Class JSON := {
  json_escape : gostr -> gostr;
  json_other : gostr -> option Preamble;
}.

Section json.
Context `{JSON}.

Definition json_text (s : gostr) : gostr := quoted (if is_ascii s then escape s else json_escape s).

Definition member (key : string) (v : gostr) : gostr := quoted (bs key) ++ bs ":" ++ json_text v.

(** [json.Marshal] of a [Preamble]; [edge_version] is [omitempty]. *)
Definition Marshal (p : Preamble) : gostr :=
  bs "{" ++
  Join ([member "conn_id" (ConnID p); member "client_addr" (ClientAddr p); member "host" (Host p)] ++
        match EdgeVersion p with [] => [] | v => [member "edge_version" v] end) (bs ",") ++
  bs "}".

(** The member [key] of a struct that is being filled in. *)
Definition set_member (key v : gostr) (p : Preamble) : option Preamble :=
  if beq key (bs "conn_id") then Some (mkPreamble v (ClientAddr p) (Host p) (EdgeVersion p))
  else if beq key (bs "client_addr") then Some (mkPreamble (ConnID p) v (Host p) (EdgeVersion p))
  else if beq key (bs "host") then Some (mkPreamble (ConnID p) (ClientAddr p) v (EdgeVersion p))
  else if beq key (bs "edge_version") then Some (mkPreamble (ConnID p) (ClientAddr p) (Host p) v)
  else None.

(** The members of a flat object, up to its closing brace. *)
Fixpoint members (fuel : nat) (s : gostr) (p : Preamble) : option Preamble :=
  match fuel with
  | O => None
  | S fuel =>
      '(key, s) ← json_string s;
      s ← CutPrefix s (bs ":");
      '(v, s) ← json_string s;
      p ← set_member key v p;
      match CutPrefix s (bs ",") with
      | Some s => members fuel s p
      | None => if beq s (bs "}") then Some p else None
      end
  end.

Definition flat_object (s : gostr) : option Preamble :=
  s ← CutPrefix s (bs "{"); members (length s) s (mkPreamble [] [] [] []).

Definition Unmarshal (s : gostr) : option Preamble :=
  match flat_object s with
  | Some p => Some p
  | None => json_other s
  end.

(** [binary.BigEndian]. *)
Definition put_uint16 (n : Z) : gostr :=
  [byte (Z.to_N (Z.shiftr n 8 mod 256)); byte (Z.to_N (n mod 256))].
Definition uint16 (a b : ascii) : Z := Z.of_N (code a) * 256 + Z.of_N (code b).

Inductive preamble_error :=
| ErrPreambleTooLarge (n : Z)
| ErrPreambleRead (e : error)
| ErrPreambleJSON.

Definition EncodePreamble (p : Preamble) : result preamble_error gostr :=
  let b := Marshal p in
  let n := Z.of_nat (length b) in
  if maxPreamble <? n then Err (ErrPreambleTooLarge n)
  else Ok (put_uint16 (wrap_u 16 n) ++ b).

Definition read_full (n : nat) (r : IO.stream) : result preamble_error (gostr * IO.stream) :=
  match ReadFull n r with Ok x => Ok x | Err e => Err (ErrPreambleRead e) end.

Definition ReadPreamble (r : IO.stream) : result preamble_error (Preamble * IO.stream) :=
  let? (hdr, r) := read_full 2 r in
  match hdr with
  | [a; b] =>
      let n := uint16 a b in
      if maxPreamble <? n then Err (ErrPreambleTooLarge n)
      else
        match ReadFull (Z.to_nat n) r with
        | Err e => Err (ErrPreambleRead (if error_eq e EOF then [ErrUnexpectedEOF] else e))
        | Ok (buf, r) =>
            match Unmarshal buf with
            | Some p => Ok (p, r)
            | None => Err ErrPreambleJSON
            end
        end
  | _ => Err (ErrPreambleRead [])
  end.
End json.

(** ** The accept byte *)

Definition acceptByte : ascii := byte 6.

Inductive accept_error := ErrRefused | ErrBadAccept | ErrAcceptRead (e : error).

(** What [Accept] writes. *)
Definition Accept : gostr := [acceptByte].

(** The edge's wait; a deadline that passes is the stream's error. *)
Definition AwaitAccept (c : IO.stream) : option accept_error * IO.stream :=
  match ReadFull 1 c with
  | Err e =>
      (Some (if errors_is e EOF || errors_is e ErrConnectionReset then ErrRefused
             else ErrAcceptRead e), mkStream [] (fin c))
  | Ok (b, c) => (if beq b [acceptByte] then None else Some ErrBadAccept, c)
  end.

(** ** The drain handshake *)

Definition drainRequest : gostr := bs "coen-drain" ++ [LF].
Definition drainAck : gostr := bs "coen-drain-ok" ++ [LF].

(** [bufio.Reader.ReadString]. *)
Definition ReadString (delim : ascii) (s : IO.stream) : gostr * option error :=
  match IndexByte (avail s) delim with
  | Some i => (take (S i) (avail s), None)
  | None => (avail s, Some (fin s))
  end.

(** [io.LimitReader]: after [n] bytes the end of the stream. *)
Definition LimitReader (n : nat) (s : IO.stream) : IO.stream :=
  if (n <=? length (avail s))%nat then mkStream (take n (avail s)) [EOF] else s.

(** The agent's side: [opened] is whether the control stream could be opened,
    [wrote] whether the request could be written, [answer] what comes back.
    The result is what it wrote and whether the edge acknowledged. *)
Definition requestDrain (opened wrote : bool) (answer : IO.stream) : gostr * bool :=
  if negb opened then ([], false)
  else if negb wrote then ([], false)
  else
    let '(line, err) := ReadString LF answer in
    (drainRequest, bool_decide (err = None) && beq line drainAck).

(** What the edge does on a control stream, in order. *)
Inductive control_step := OnDrain | WriteAck (b : gostr).

Definition serveControlStream (s : IO.stream) : list control_step :=
  let '(line, err) := ReadString LF (LimitReader 64 s) in
  if negb (bool_decide (err = None)) || negb (beq line drainRequest) then []
  else [OnDrain; WriteAck drainAck].

(** ** Lemmas *)

(** Every ASCII byte survives escaping; the escape never starts with a quote. *)
Lemma unescape_escape c rest :
  ascii_byte c = true ->
  unescape (escape_byte c ++ rest) = Some (c, rest) /\
  exists d t, escape_byte c = d :: t /\ ceq d quote = false.
Proof.
  intros Hc. destruct c as [[] [] [] [] [] [] [] []]; try discriminate Hc;
    (split; [reflexivity|do 2 eexists; split; reflexivity]).
Qed.

Lemma string_rounds_escape fuel s rest :
  is_ascii s = true -> (length s <= fuel)%nat ->
  string_rounds fuel (escape s ++ quote :: rest) = Some (s, rest).
Proof.
  revert fuel; induction s as [|c s IH]; intros fuel Hs Hf; [by destruct fuel|].
  simpl in Hs. b2p. destruct fuel as [|fuel]; [simpl in *; lia|].
  assert (Hesc : escape (c :: s) ++ quote :: rest = escape_byte c ++ (escape s ++ quote :: rest))
    by (unfold escape; simpl; by rewrite <- app_assoc).
  rewrite Hesc. destruct (unescape_escape c (escape s ++ quote :: rest)) as [Hu (d & t & Hd & Hq)]; [done|].
  destruct (escape_byte c ++ escape s ++ quote :: rest) as [|x l] eqn:E; [by rewrite Hd in E|].
  cbn [string_rounds]. assert (x = d) as -> by (rewrite Hd in E; by injection E).
  rewrite Hq, Hu. cbn [mbind option_bind]. rewrite IH; [done|done|simpl in *; lia].
Qed.

Lemma escape_length s : is_ascii s = true -> (length s <= length (escape s))%nat.
Proof.
  induction s as [|c s IH]; simpl; [lia|]. intros [Hc Hs]%andb_prop.
  destruct (unescape_escape c [] Hc) as [_ (d & t & -> & _)].
  rewrite length_app. specialize (IH Hs). simpl. lia.
Qed.

Lemma json_string_escape s rest :
  is_ascii s = true -> json_string (quoted (escape s) ++ rest) = Some (s, rest).
Proof.
  intros Hs. unfold quoted, json_string. cbn [app].
  rewrite (proj2 (ceq_true quote quote) eq_refl), <- app_assoc. cbn [app].
  apply string_rounds_escape; [done|]. rewrite length_app.
  pose proof (escape_length s Hs). simpl. lia.
Qed.

Section roundtrip.
Context `{JSON}.

Lemma json_text_string s rest : is_ascii s = true -> json_string (json_text s ++ rest) = Some (s, rest).
Proof. intros Hs. unfold json_text. rewrite Hs. by apply json_string_escape. Qed.

Lemma member_parse key v rest :
  is_ascii (bs key) = true -> escape (bs key) = bs key -> is_ascii v = true ->
  exists s, json_string (member key v ++ rest) = Some (bs key, s) /\
    exists s', CutPrefix s (bs ":") = Some s' /\ json_string s' = Some (v, rest).
Proof.
  intros Hk He Hv. unfold member.
  replace (quoted (bs key)) with (quoted (escape (bs key))) by (by rewrite He).
  rewrite <- !app_assoc.
  rewrite json_string_escape by done. eexists. split; [done|].
  exists (json_text v ++ rest). split; [by apply CutPrefix_Some|by apply json_text_string].
Qed.

(** One member of an object is read into the struct. *)
Lemma members_step fuel key v rest p p' :
  is_ascii (bs key) = true -> escape (bs key) = bs key -> is_ascii v = true ->
  set_member (bs key) v p = Some p' ->
  members (S fuel) (member key v ++ rest) p =
  match CutPrefix rest (bs ",") with
  | Some s => members fuel s p'
  | None => if beq rest (bs "}") then Some p' else None
  end.
Proof.
  intros Hk He Hv Hset. destruct (member_parse key v rest Hk He Hv) as (s & Hs & s' & Hc & Hs').
  cbn [members]. rewrite Hs. cbn [mbind option_bind]. rewrite Hc. cbn [mbind option_bind].
  rewrite Hs'. cbn [mbind option_bind]. by rewrite Hset.
Qed.

Lemma CutPrefix_hit p r : CutPrefix (p ++ r) p = Some r.
Proof. by apply CutPrefix_Some. Qed.

Definition ascii_preamble (p : Preamble) : bool :=
  is_ascii (ConnID p) && is_ascii (ClientAddr p) && is_ascii (Host p) && is_ascii (EdgeVersion p).

Lemma Unmarshal_Marshal p : ascii_preamble p = true -> Unmarshal (Marshal p) = Some p.
Proof.
  unfold ascii_preamble. intros Hp. b2p. unfold Unmarshal, flat_object, Marshal.
  rewrite CutPrefix_hit. cbn [mbind option_bind].
  destruct p as [id addr host ver]; cbn [ConnID ClientAddr Host EdgeVersion] in *.
  match goal with |- context [members (length ?x) _ _] => set (text := x) end.
  assert (Hfuel : exists f, length text = S (S (S (S f)))).
  { unfold text. destruct ver; cbn [app Join]; rewrite !length_app; unfold member, quoted;
      rewrite !length_app; simpl; eexists; reflexivity. }
  destruct Hfuel as [f ->]. unfold text.
  destruct ver as [|v0 ver]; cbn [app Join]; rewrite <- !app_assoc.
  - rewrite (members_step _ "conn_id" id _ _ (mkPreamble id [] [] []) eq_refl eq_refl) by done. rewrite CutPrefix_hit.
    rewrite (members_step _ "client_addr" addr _ _ (mkPreamble id addr [] []) eq_refl eq_refl) by done. rewrite CutPrefix_hit.
    by rewrite (members_step _ "host" host _ _ (mkPreamble id addr host []) eq_refl eq_refl).
  - rewrite (members_step _ "conn_id" id _ _ (mkPreamble id [] [] []) eq_refl eq_refl) by done. rewrite CutPrefix_hit.
    rewrite (members_step _ "client_addr" addr _ _ (mkPreamble id addr [] []) eq_refl eq_refl) by done. rewrite CutPrefix_hit.
    rewrite (members_step _ "host" host _ _ (mkPreamble id addr host []) eq_refl eq_refl) by done. rewrite CutPrefix_hit.
    by rewrite (members_step _ "edge_version" (v0 :: ver) _ _ (mkPreamble id addr host (v0 :: ver)) eq_refl eq_refl).
Qed.
End roundtrip.

Lemma code_byte n : (n < 256)%N -> code (byte n) = n.
Proof. intros. apply N_ascii_embedding. done. Qed.

Lemma uint16_put n : 0 <= n < 65536 ->
  exists a b, put_uint16 n = [a; b] /\ uint16 a b = n.
Proof.
  intros Hn. do 2 eexists. split; [done|]. unfold uint16.
  assert (Hb : forall z, Z.of_N (code (byte (Z.to_N (z mod 256)))) = z mod 256).
  { intros z. pose proof (Z.mod_pos_bound z 256). rewrite code_byte by lia. lia. }
  rewrite !Hb, Z.shiftr_div_pow2 by lia. change (2 ^ 8) with 256.
  rewrite (Z.mod_small (n / 256)).
  - pose proof (Z.div_mod n 256). lia.
  - split; [apply Z.div_pos; lia|apply Z.div_lt_upper_bound; lia].
Qed.

(** A frame that is sent is short enough for its length prefix. *)
Lemma EncodePreamble_ok `{JSON} p frame :
  EncodePreamble p = Ok frame ->
  Z.of_nat (length (Marshal p)) <= maxPreamble /\
  frame = put_uint16 (Z.of_nat (length (Marshal p))) ++ Marshal p.
Proof.
  unfold EncodePreamble. generalize (Marshal p). intros b.
  destruct (_ <? _) eqn:E; [done|]. b2p. intros Hb. split; [done|].
  apply (f_equal (fun r => match r with Ok f => f | Err _ => [] end)) in Hb. cbn beta iota in Hb.
  rewrite <- Hb, wrap_u_small; [done|]. unfold maxPreamble in *. lia.
Qed.

(** Reading a frame gives the preamble back and stops after it. *)
Lemma ReadPreamble_frame `{JSON} p frame rest e :
  ascii_preamble p = true -> EncodePreamble p = Ok frame ->
  ReadPreamble (mkStream (frame ++ rest) e) = Ok (p, mkStream rest e) /\
  Z.of_nat (length frame) <= 2 + maxPreamble.
Proof.
  intros Hascii Henc. destruct (EncodePreamble_ok p frame Henc) as (E & ->). remember (Marshal p) as b eqn:Hb.
  unfold maxPreamble in *. destruct (uint16_put (Z.of_nat (length b))) as (x & y & Hput & Hget); [lia|].
  rewrite Hput. split; [|cbn [app length]; lia].
  unfold ReadPreamble, read_full. rewrite <- app_assoc.
  change (ReadFull 2) with (ReadFull (length [x; y])). rewrite (ReadFull_app [x; y] (b ++ rest) e). cbn [rbind]. rewrite Hget.
  destruct (_ <? _) eqn:E2; b2p; [unfold maxPreamble in *; lia|].
  rewrite Nat2Z.id, ReadFull_app, Hb. by rewrite Unmarshal_Marshal.
Qed.

(** ** Properties *)

(** [C37] A preamble of ASCII strings survives the wire: what the agent reads from a
    stream that starts with the edge's frame is the preamble the edge encoded, and
    the bytes after it are left for the backend; the frame's body is at most
    [maxPreamble] bytes, so the 16-bit length never wraps.  (Of other strings
    nothing is said: JSON carries Unicode text, and bytes that are none are
    replaced.) *)
Theorem preamble_roundtrip `{JSON} (p : Preamble) (frame rest : gostr) (e : error)
    (Hascii : ascii_preamble p = true) (Henc : EncodePreamble p = Ok frame) :
  ReadPreamble (mkStream (frame ++ rest) e) = Ok (p, mkStream rest e) /\
  Z.of_nat (length frame) <= 2 + maxPreamble.
Proof. by apply ReadPreamble_frame. Qed.

(** A cut stream is never taken for a request: reading a preamble from any
    proper prefix of a frame fails, with a plain [EOF] only when not a single
    byte arrived, so the agent can tell a stream that was never used from a
    truncated one. *)
Theorem preamble_truncated `{JSON} (p : Preamble) (frame : gostr) (n : nat)
    (Henc : EncodePreamble p = Ok frame) (Hn : (n < length frame)%nat) :
  exists e, ReadPreamble (mkStream (take n frame) [EOF]) = Err (ErrPreambleRead e) /\
    (e = [EOF] <-> n = 0%nat).
Proof.
  destruct (EncodePreamble_ok p frame Henc) as (E & Hfr). remember (Marshal p) as b eqn:Hb.
  unfold maxPreamble in *. subst frame. clear Henc. destruct (uint16_put (Z.of_nat (length b))) as (x & y & Hput & Hget); [lia|].
  rewrite Hput in *. unfold ReadPreamble, read_full.
  destruct n as [|[|n]]; [by exists [EOF]|by exists [ErrUnexpectedEOF]|].
  change (ReadFull 2) with (ReadFull (length [x; y])).
  change (take (S (S n)) ([x; y] ++ b)) with ([x; y] ++ take n b).
  rewrite (ReadFull_app [x; y] (take n b) [EOF]). cbn [rbind]. rewrite Hget.
  destruct (_ <? _) eqn:E2; b2p; [unfold maxPreamble in *; lia|]. rewrite Nat2Z.id.
  cbn [app length] in Hn.
  assert (Hshort : (length (take n b) < length b)%nat) by (rewrite length_take; lia).
  unfold ReadFull. cbn [avail fin]. destruct (_ <=? _)%nat eqn:E3; b2p; [lia|].
  exists [ErrUnexpectedEOF]. split; [by destruct (take n b)|done].
Qed.

(** The drain handshake: on a control stream that carries the agent's
    request the edge runs its drain before it acknowledges, whatever follows the
    request, and on any other first line it does nothing; the agent takes the
    drain as acknowledged exactly when that acknowledgement is the first line it
    reads back. *)
Theorem drain_handshake (line rest answer : gostr) (e1 e2 : error)
    (Hline : LF ∉ line) :
  (serveControlStream (mkStream (line ++ LF :: rest) e1) =
     if beq (line ++ [LF]) drainRequest then [OnDrain; WriteAck drainAck] else []) /\
  ((requestDrain true true (mkStream answer e2)).1 = drainRequest) /\
  ((requestDrain true true (mkStream answer e2)).2 = true <-> exists t, answer = drainAck ++ t).
Proof.
  assert (Hidx : forall l t, LF ∉ l -> IndexByte (l ++ LF :: t) LF = Some (length l)).
  { intros l t Hl. apply index_by_Some. split.
    - exists LF. split; [by apply list_lookup_middle|by apply ceq_true].
    - intros j y Hj Hy. rewrite lookup_app_l in Hy by done. apply ceq_false. intros <-.
      apply Hl. by eapply list_elem_of_lookup_2. }
  assert (Htk : forall l t, take (S (length l)) (l ++ LF :: t) = l ++ [LF]).
  { intros l t. replace (l ++ LF :: t) with ((l ++ [LF]) ++ t) by by rewrite <- app_assoc.
    apply take_app_length'. rewrite length_app. simpl. lia. }
  split; [|split].
  - unfold serveControlStream, ReadString, LimitReader. cbn [avail fin].
    destruct (64 <=? _)%nat eqn:E; b2p; cbn [avail fin].
    + destruct (decide (length line < 64)%nat) as [Hlt|Hge].
      * rewrite take_app_ge by lia.
        destruct (64 - length line)%nat as [|k] eqn:Ek; [lia|]. cbn [take].
        rewrite Hidx, Htk by done. simpl. by destruct (beq _ _).
      * rewrite take_app_le by lia.
        rewrite (proj2 (IndexByte_None (take 64 line) LF)) by (intros (k & Hk & _)%elem_of_take; by apply Hline, (list_elem_of_lookup_2 _ k)).
        simpl. destruct (beq (line ++ [LF]) drainRequest) eqn:Eb; [|done]. apply beq_true in Eb.
        apply (f_equal length) in Eb. rewrite length_app in Eb. simpl in Eb. lia.
    + rewrite Hidx, Htk by done. simpl. by destruct (beq _ _).
  - unfold requestDrain. simpl. by destruct (ReadString _ _).
  - unfold requestDrain, ReadString. cbn [negb avail fin].
    destruct (IndexByte answer LF) as [i|] eqn:Ei; cbn [snd].
    + rewrite andb_true_iff, bool_decide_eq_true, beq_true.
      split; [intros [_ <-]; exists (drop (S i) answer); by rewrite take_drop|].
      intros [t ->]. change (drainAck ++ t) with (bs "coen-drain-ok" ++ LF :: t) in *.
      rewrite Hidx in Ei by (apply IndexByte_None; reflexivity). injection Ei as <-.
      split; [done|apply Htk].
    + split; [done|]. intros [t ->]. apply IndexByte_None in Ei. destruct Ei.
      apply elem_of_app. left. apply elem_of_app. right. by apply list_elem_of_singleton.
Qed.

(** ** Witnesses *)

Module TunnelWitness.
Definition no_json : JSON := {| json_escape := fun s => s; json_other := fun _ => None |}.
#[local] Existing Instance no_json.

Definition pre : Preamble := mkPreamble (bs "c1") (bs "1.2.3.4:5") (bs "a<b") (bs "v1").
Definition frame : gostr := match EncodePreamble pre with Ok f => f | Err _ => [] end.

Lemma preamble_roundtrip_witness :
  ReadPreamble (mkStream (frame ++ bs "GET") [EOF]) = Ok (pre, mkStream (bs "GET") [EOF]) /\
  Z.of_nat (length frame) <= 2 + maxPreamble.
Proof. apply (preamble_roundtrip pre frame (bs "GET") [EOF]); vm_compute; reflexivity. Defined.

Lemma preamble_truncated_witness :
  exists e, ReadPreamble (mkStream (take 10 frame) [EOF]) = Err (ErrPreambleRead e) /\
    (e = [EOF] <-> 10%nat = 0%nat).
Proof. apply (preamble_truncated pre frame 10); vm_compute; [reflexivity|lia]. Defined.

Lemma drain_handshake_witness :
  serveControlStream (mkStream (bs "coen-drain" ++ LF :: bs "x") [EOF]) = [OnDrain; WriteAck drainAck].
Proof.
  destruct (drain_handshake (bs "coen-drain") (bs "x") [] [EOF] [EOF]) as [H _].
  - apply (bool_decide_unpack _). vm_compute. exact I.
  - exact H.
Defined.
End TunnelWitness.
