(* ===== verification/Dispatch.v ===== *)
(** * Handing a request to an agent ([internal/edge/edge.go])

    [tryAgent], [untried], [dispatchOnce] and [dispatch]: which sessions a
    request is tried on, what is sent to them, and what is recorded.  The
    answers of the world (what an open returns, whether an accept byte comes,
    the clock, the registry as other goroutines leave it) are inputs; what the
    code does is the list of effects each definition returns, in order. *)

From S2P Require Import Prelude GoStrings IO Registry Balance Tunnel.
From S2P Require AgentConn.

(** ** Constants, in nanoseconds *)

Definition second : Z := 10 ^ 9.
Definition acceptWait : Z := AgentConn.acceptWait.
Definition cooldown : Z := second.
Definition agentRetry : Z := 250 * 10 ^ 6.
Definition defaultReadHeaderTimeout : Z := 10 * second.

Definition readHeaderDeadline (configured : Z) : Z :=
  if configured <=? 0 then defaultReadHeaderTimeout else configured.

(** ** Effects *)

Inductive reason := ReasonNoAgent | ReasonStreamError.

Inductive effect :=
| Reserve (c : agentConn)            (* stat.Reserve *)
| Release (c : agentConn)            (* stat.StreamClosed *)
| CloseStream (c : agentConn)        (* s.Close *)
| Evict (c : agentConn)              (* e.evict *)
| Retire (c : agentConn)             (* e.retire *)
| CoolFor (c : agentConn) (d : Z)    (* c.coolDownFor *)
| Warm (c : agentConn) (cooled : Z)  (* c.coolUntil.CompareAndSwap(cooled, 0) *)
| Try (c : agentConn) (wait : Z)     (* tryAgent starts *)
| SendPreamble (c : agentConn)       (* a version 1 stream's preamble is written *)
| SendHead (c : agentConn)           (* a version 2 stream's preamble and head are written *)
| Failure (r : reason)               (* rs.stats.Failure *)
| AgentWait.                         (* rs.stats.AgentWait *)

(** ** One attempt *)

Inductive attempt := attemptOK | attemptUnavailable | attemptFailed | attemptUnknown.

(** What [openUnlessRetired] returns. *)
Inductive open_answer :=
| Opened | OpenRetired | OpenGoAway | OpenTimeout | OpenBlocked | OpenError.

(** The answers one attempt gets: of the open, of [sess.IsClosed] if it is
    asked, of a version 1 preamble's write, of the wait for the accept byte with
    the time left for it, and of the head's write. *)
Record answers := mkAnswers {
  a_open : open_answer;
  a_gone : bool;
  a_write : option error;
  a_window : Z;
  a_accept : option accept_error;
  a_send : option error;
}.

Definition streamRefused (e : error) : bool :=
  errors_is e ErrConnectionReset || errors_is e ErrStreamClosed.

Definition stalledAfter (c : agentConn) (silent : Z) : list effect :=
  if acceptWait / 2 <=? silent then [CoolFor c (2 * acceptWait)] else [].

(** The closure [fail]: [opened] is whether there is a stream to close. *)
Definition fail (c : agentConn) (opened : bool) (o : attempt) (then_ : list effect)
    : attempt * list effect :=
  (o, [Release c] ++ (if opened then [CloseStream c] else []) ++ then_).

Definition tryAgent (c : agentConn) (a : answers) : attempt * list effect :=
  match a_open a with
  | OpenRetired | OpenGoAway => fail c false attemptUnavailable [Retire c]
  | OpenTimeout =>
      (* openUnlessRetired has marked it stalled *)
      let '(o, l) := if a_gone a then fail c false attemptUnavailable [Evict c]
                     else fail c false attemptFailed [] in
      (o, CoolFor c (2 * acceptWait) :: l)
  | OpenBlocked =>
      if a_gone a then fail c false attemptUnavailable [Evict c]
      else fail c false attemptFailed [CoolFor c (2 * acceptWait)]
  | OpenError =>
      if a_gone a then fail c false attemptUnavailable [Evict c]
      else fail c false attemptFailed [Evict c]
  | Opened =>
      if negb (c_v2 c) then
        match a_write a with
        | Some e =>
            let '(o, l) :=
              if a_gone a then fail c true attemptUnavailable [Evict c]
              else if streamRefused e then fail c true attemptUnavailable [CoolFor c cooldown]
              else fail c true attemptFailed [CoolFor c cooldown] in
            (o, SendPreamble c :: l)
        | None => (attemptOK, [SendPreamble c])
        end
      else
        match a_accept a with
        | Some e =>
            if a_gone a then fail c true attemptUnavailable [Evict c]
            else match e with
                 | ErrRefused => fail c true attemptUnavailable [CoolFor c cooldown]
                 | ErrBadAccept => fail c true attemptFailed [Evict c]
                 | ErrAcceptRead _ => fail c true attemptFailed (stalledAfter c (a_window a))
                 end
        | None =>
            match a_send a with
            | Some _ =>
                let '(o, l) := if a_gone a then fail c true attemptUnknown [Evict c]
                               else fail c true attemptUnknown [CoolFor c cooldown] in
                (o, SendHead c :: l)
            | None => (attemptOK, [SendHead c])
            end
        end
  end.

(** ** One round over the route's sessions *)

Section round.
Context (balance : gostr).

(** What the round meets: the clock when it starts and at each look, the
    registry's candidates at each look, what the balancer reads, the answers of
    each attempt, whether the preamble can be encoded. *)
Record once_env := mkOnce {
  o_start : Z;
  o_now : nat -> Z;
  o_cands : nat -> list agentConn * list agentConn;
  o_loads : nat -> loads;
  o_answers : nat -> answers;
  o_preamble : bool;
  o_turn : Z;
}.

Inductive why :=
| Dispatched (c : agentConn)
| noSessionWhy
| noAgentWhy
| PreambleError
| StreamError
| SendError.

Context (env : once_env).

(** [untried] at look [k]: the live sessions not attempted yet; dead ones are
    evicted. *)
Definition untried (k : nat) (attempted : gset nat) : list agentConn * list effect :=
  let '(live, dead) := o_cands env k in
  (List.filter (fun c => negb (bool_decide (c_id c ∈ attempted))) live, map Evict dead).

(** [pickReserve]. *)
Definition pickReserve (k : nat) (cands : list agentConn) (tried : gset nat)
    : option (agentConn * gset nat) * list effect :=
  match pick (o_loads env k) balance cands tried (o_turn env) with
  | Some (c, tried) => (Some (c, tried), [Reserve c])
  | None => (None, [])
  end.

(** The time an attempt on [c] may take, and the candidates after the look for
    fresh ones it may make; [tried] includes [c]. *)
Definition attempt_wait (k : nat) (c : agentConn) (cands : list agentConn) (tried : gset nat)
    (attempts : Z) (wait : Z) : Z * list agentConn * list effect :=
  let ld := o_loads env k in
  let short := Z.min wait acceptWait in
  if (cool_until ld c <=? now ld) &&
     negb (existsb (fun o => negb (bool_decide (c_id o ∈ tried))) cands)
  then
    let '(fresh, l) := if 1 <? attempts then untried (S k) tried else ([], []) in
    match fresh with
    | [] => (wait, cands, l)
    | _ => (short, cands ++ fresh, l)
    end
  else (short, cands, []).

(** The loop of [dispatchOnce] from look [k] on. *)
Fixpoint once_loop (fuel k : nat) (cands : list agentConn) (tried : gset nat)
    (attempts unavailable : Z) : option (why * list effect) :=
  match fuel with
  | O => None
  | S fuel =>
      let wait := o_start env + 2 * acceptWait - o_now env k in
      let stop_here (l : list effect) :=
        if unavailable =? attempts then Some (noAgentWhy, l)
        else Some (StreamError, l ++ [Failure ReasonStreamError]) in
      if wait <=? 0 then stop_here []
      else
        let '(picked, l1) := pickReserve k cands tried in
        match picked with
        | None =>
            let '(fresh, l2) := untried (S k) tried in
            match fresh with
            | [] => stop_here (l1 ++ l2)
            | _ => '(w, l) ← once_loop fuel (S k) fresh tried attempts unavailable;
                   Some (w, l1 ++ l2 ++ l)
            end
        | Some (c, tried) =>
            let attempts := attempts + 1 in
            let '(aw, cands, l2) := attempt_wait k c cands tried attempts wait in
            let cooled := cool_until (o_loads env k) c in
            let '(o, l3) := tryAgent c (o_answers env k) in
            let l := l1 ++ l2 ++ Try c aw :: l3 in
            match o with
            | attemptOK => Some (Dispatched c, l ++ [Warm c cooled])
            | attemptUnavailable =>
                '(w, l') ← once_loop fuel (S k) cands tried attempts (unavailable + 1);
                Some (w, l ++ l')
            | attemptFailed =>
                '(w, l') ← once_loop fuel (S k) cands tried attempts unavailable;
                Some (w, l ++ l')
            | attemptUnknown => Some (SendError, l ++ [Failure ReasonStreamError])
            end
        end
  end.

Definition dispatchOnce (fuel : nat) : option (why * list effect) :=
  let '(cands, l) := untried 0 ∅ in
  match cands with
  | [] => Some (noSessionWhy, l)
  | _ =>
      if negb (o_preamble env) then Some (PreambleError, l ++ [Failure ReasonStreamError])
      else '(w, l') ← once_loop fuel 0 cands ∅ 0 0; Some (w, l ++ l')
  end.
End round.

(** ** [dispatch] *)

Inductive refusal := noAgent | streamFailed.

(** How a wait for an agent ends: a session joined or the timer fired (try
    again), the client or the edge gave up. *)
Inductive wake := WakeJoined | WakeTimer | WakeCtx | WakeStopping.

Section dispatch.
Context (balance : gostr) (wait : Z).

(** The world dispatch runs in: its rounds, the clock after each, and how each
    wait ends. *)
Record dispatch_env := mkDispatch {
  d_round : nat -> once_env;
  d_fuel : nat -> nat;
  d_clock : nat -> Z;
  d_wake : nat -> wake;
}.

Context (env : dispatch_env).

(** From round [j] on; [until] is the end of the wait once it has started. *)
Fixpoint dispatch_loop (fuel j : nat) (until : option Z)
    : option (result refusal agentConn * list effect) :=
  match fuel with
  | O => None
  | S fuel =>
      '(w, l) ← dispatchOnce balance (d_round env j) (d_fuel env j);
      match w with
      | Dispatched c => Some (Ok c, l)
      | noSessionWhy | noAgentWhy =>
          let clock := d_clock env j in
          let '(until, l2) :=
            match until with
            | None => if 0 <? wait then (Some (clock + wait), [AgentWait]) else (None, [])
            | Some u => (Some u, [])
            end in
          let left := match until with Some u => u - clock | None => 0 end in
          let refuse := Some (Err noAgent, l ++ l2 ++ [Failure ReasonNoAgent]) in
          if 0 <? left then
            match d_wake env j with
            | WakeJoined | WakeTimer =>
                '(r, l3) ← dispatch_loop fuel (S j) until; Some (r, l ++ l2 ++ l3)
            | WakeCtx | WakeStopping => refuse
            end
          else refuse
      | PreambleError | StreamError | SendError => Some (Err streamFailed, l)
      end
  end.

Definition dispatch (fuel : nat) : option (result refusal agentConn * list effect) :=
  dispatch_loop fuel 0 None.
End dispatch.

(** ** Reading a trace *)

(** How often a test holds in a trace. *)
Definition count (p : effect -> bool) (l : list effect) : nat := length (List.filter p l).

Definition is_head (e : effect) : bool := match e with SendHead _ => true | _ => false end.
Definition is_failure (e : effect) : bool := match e with Failure _ => true | _ => false end.

(** What a trace leaves reserved on session [c]. *)
Definition net_of (c : agentConn) (e : effect) : Z :=
  match e with
  | Reserve d => if bool_decide (d = c) then 1 else 0
  | Release d => if bool_decide (d = c) then -1 else 0
  | _ => 0
  end.
Definition net (c : agentConn) (l : list effect) : Z := foldr (fun e n => net_of c e + n) 0 l.

(** The sessions tried, in order. *)
Definition tries (l : list effect) : list nat :=
  flat_map (fun e => match e with Try c _ => [c_id c] | _ => [] end) l.

Lemma count_app p l1 l2 : count p (l1 ++ l2) = (count p l1 + count p l2)%nat.
Proof. unfold count. by rewrite List.filter_app, length_app. Qed.

Lemma net_app c l1 l2 : net c (l1 ++ l2) = net c l1 + net c l2.
Proof. unfold net. induction l1 as [|e l1 IH]; simpl; [lia|]. rewrite IH. lia. Qed.

Lemma tries_app l1 l2 : tries (l1 ++ l2) = tries l1 ++ tries l2.
Proof. apply flat_map_app. Qed.

(** Evictions alone. *)
Lemma evict_trace (ds : list agentConn) :
  count is_head (map Evict ds) = 0%nat /\ count is_failure (map Evict ds) = 0%nat /\
  (forall c, net c (map Evict ds) = 0) /\ tries (map Evict ds) = [].
Proof. induction ds as [|d ds (H1 & H2 & H3 & H4)]; simpl; [done|]. split_and!; try done. Qed.

Definition is_ok_attempt (o : attempt) : bool := match o with attemptOK => true | _ => false end.
Definition may_have_sent (o : attempt) : bool :=
  match o with attemptOK | attemptUnknown => true | _ => false end.

(** Reads a closed trace. *)
Ltac read_trace :=
  split_and!; [intros d; simpl; try case_bool_decide; done|unfold count; simpl; lia|done|done].

(** What an attempt does: it gives its reservation back unless it succeeded,
    and writes the head only when it succeeded or cannot tell. *)
Lemma tryAgent_trace c a o l :
  tryAgent c a = (o, l) ->
  (forall d, net d l = if is_ok_attempt o then 0 else if bool_decide (c = d) then -1 else 0) /\
  (count is_head l <= if may_have_sent o then 1 else 0)%nat /\
  count is_failure l = 0%nat /\ tries l = [].
Proof.
  intros H.
  assert (Hs : forall w, count is_head (stalledAfter c w) = 0%nat /\
    count is_failure (stalledAfter c w) = 0%nat /\
    (forall d, net d (stalledAfter c w) = 0) /\ tries (stalledAfter c w) = []).
  { intros w. unfold stalledAfter. by destruct (_ <=? _). }
  destruct a as [op gone wr win acc snd]. unfold tryAgent, fail in H. simpl in H.
  destruct op; try (destruct gone; simplify_eq/=; read_trace).
  destruct (c_v2 c); simpl in H.
  - destruct acc as [e|].
    + destruct gone; [simplify_eq/=; read_trace|].
      destruct e; [simplify_eq/=; read_trace..|].
      injection H as <- <-. destruct (Hs win) as (H1 & H2 & H3 & H4).
      change (Release c :: CloseStream c :: stalledAfter c win) with ([Release c; CloseStream c] ++ stalledAfter c win).
      split_and!.
      * intros d. rewrite net_app, H3. simpl. by destruct (bool_decide _).
      * rewrite count_app, H1. unfold count. simpl. lia.
      * by rewrite count_app, H2.
      * by rewrite tries_app, H4.
    + destruct snd; [destruct gone|]; simplify_eq/=;
        read_trace.
  - destruct wr as [e|]; [destruct gone; [|destruct (streamRefused e)]|]; simplify_eq/=;
      read_trace.
Qed.

(** What a trace of a round must look like, given the outcome and the sessions
    tried before it. *)
Record round_trace (w : why) (tried : gset nat) (l : list effect) : Prop := {
  rt_net : forall d, net d l = match w with Dispatched c => if bool_decide (c = d) then 1 else 0 | _ => 0 end;
  rt_heads : (count is_head l <= match w with Dispatched _ | SendError => 1 | _ => 0 end)%nat;
  rt_failures : count is_failure l =
    match w with StreamError | SendError | PreambleError => 1%nat | _ => 0%nat end;
  rt_nodup : NoDup (tries l);
  rt_fresh : forall x, x ∈ tries l -> x ∉ tried;
}.

(** Effects that are only evictions, before a round trace, leave one. *)
Lemma round_trace_evict w tried ds l :
  round_trace w tried l -> round_trace w tried (map Evict ds ++ l).
Proof.
  destruct (evict_trace ds) as (E1 & E2 & E3 & E4). intros [H1 H2 H3 H4 H5].
  split; rewrite ?count_app, ?E1, ?E2, ?tries_app, ?E4; try done. intros d. rewrite net_app, E3. apply H1.
Qed.

Lemma round_trace_nil w tried :
  match w with noAgentWhy | noSessionWhy => True | _ => False end -> round_trace w tried [].
Proof. destruct w; try done; split; simpl; try done; try constructor; set_solver. Qed.

Section traces.
Context (balance : gostr).

Lemma untried_trace env k tried cs l : untried env k tried = (cs, l) -> exists ds, l = map Evict ds.
Proof. unfold untried. destruct (o_cands env k) as [live dead]. intros [= _ <-]. eauto. Qed.

Lemma attempt_wait_trace env k c cands tried n w aw cands' l :
  attempt_wait env k c cands tried n w = (aw, cands', l) -> exists ds, l = map Evict ds.
Proof.
  unfold attempt_wait. destruct (_ && _); [|intros [= _ _ <-]; by exists []].
  destruct (1 <? n).
  - destruct (untried env (S k) tried) as [fresh l2] eqn:E. apply untried_trace in E.
    destruct fresh; by intros [= _ _ <-].
  - intros [= _ _ <-]. by exists [].
Qed.

(** The trace of an attempt that is not the last, before the trace of the rest
    of the round. *)
Lemma round_trace_attempt w tried c aw o l3 ds l :
  tryAgent c (l3.1) = (o, l3.2) -> may_have_sent o = false ->
  c_id c ∉ tried -> round_trace w ({[c_id c]} ∪ tried) l ->
  round_trace w tried (([Reserve c] ++ map Evict ds ++ Try c aw :: l3.2) ++ l).
Proof.
  intros Ht Ho Hc [H1 H2 H3 H4 H5].
  destruct (tryAgent_trace _ _ _ _ Ht) as (T1 & T2 & T3 & T4). rewrite Ho in T2.
  assert (Hok : is_ok_attempt o = false) by (by destruct o).
  destruct (evict_trace ds) as (E1 & E2 & E3 & E4).
  set (pre := [Reserve c] ++ map Evict ds ++ Try c aw :: l3.2).
  assert (Hpre : count is_head pre = 0%nat /\ count is_failure pre = 0%nat /\
    (forall d, net d pre = 0) /\ tries pre = [c_id c]).
  { unfold pre. change (Try c aw :: l3.2) with ([Try c aw] ++ l3.2).
    rewrite !count_app, !tries_app, E1, E2, E4, T3, T4. split_and!; [unfold count in *; simpl; lia|done| |done].
    intros d. rewrite !net_app, E3, T1, Hok. simpl. case_bool_decide; lia. }
  destruct Hpre as (P1 & P2 & P3 & P4).
  split; rewrite ?count_app, ?tries_app, ?P1, ?P2, ?P4; try done.
  - intros d. rewrite net_app, P3. apply H1.
  - apply NoDup_cons. split; [|done]. intros Hin. specialize (H5 _ Hin). set_solver.
  - intros x [->|Hx]%elem_of_cons; [done|]. specialize (H5 _ Hx). set_solver.
Qed.

(** The trace of a round's last attempt. *)
Lemma round_trace_last tried c aw o l3 ds w last :
  tryAgent c (l3.1) = (o, l3.2) -> c_id c ∉ tried ->
  (o = attemptOK /\ w = Dispatched c /\ (exists z, last = [Warm c z]) \/
   o = attemptUnknown /\ w = SendError /\ last = [Failure ReasonStreamError]) ->
  round_trace w tried (([Reserve c] ++ map Evict ds ++ Try c aw :: l3.2) ++ last).
Proof.
  intros Ht Hc Hw. destruct (tryAgent_trace _ _ _ _ Ht) as (T1 & T2 & T3 & T4).
  destruct (evict_trace ds) as (E1 & E2 & E3 & E4).
  change (Try c aw :: l3.2) with ([Try c aw] ++ l3.2).
  split; rewrite ?count_app, ?tries_app, ?E1, ?E2, ?E4, ?T3, ?T4.
  - intros d. rewrite !net_app, E3, T1. simpl.
    destruct Hw as [(-> & -> & z & ->)|(-> & -> & ->)]; simpl; case_bool_decide; lia.
  - destruct Hw as [(-> & -> & z & ->)|(-> & -> & ->)]; unfold count in *; simpl in *; lia.
  - destruct Hw as [(-> & -> & z & ->)|(-> & -> & ->)]; done.
  - destruct Hw as [(-> & -> & z & ->)|(-> & -> & ->)]; simpl; apply NoDup_singleton.
  - intros x Hx. destruct Hw as [(-> & -> & z & ->)|(-> & -> & ->)]; simpl in Hx; set_solver.
Qed.

Lemma round_trace_giveup tried (a b : Z) ds w l :
  (if b =? a then Some (noAgentWhy, map Evict ds)
   else Some (StreamError, map Evict ds ++ [Failure ReasonStreamError])) = Some (w, l) ->
  round_trace w tried l.
Proof.
  destruct (_ =? _); intros [= <- <-].
  - rewrite <- (app_nil_r (map Evict ds)). by apply round_trace_evict, round_trace_nil.
  - apply round_trace_evict. split; simpl; try done; [constructor|set_solver].
Qed.

Lemma once_loop_trace env fuel k cands tried a u w l :
  once_loop balance env fuel k cands tried a u = Some (w, l) -> round_trace w tried l.
Proof.
  revert k cands tried a u l; induction fuel as [|fuel IH]; intros k cands tried a u l; [done|].
  cbn [once_loop]. destruct (_ <=? 0); [apply (round_trace_giveup tried a u [])|].
  unfold pickReserve. destruct (pick _ _ _ _ _) as [[c tried']|] eqn:Ep.
  - destruct (pick_fresh _ _ _ _ _ _ _ Ep) as (_ & Hc & ->).
    destruct (attempt_wait _ _ _ _ _ _ _) as [[aw cands'] l2] eqn:Ea.
    apply attempt_wait_trace in Ea as [ds ->].
    destruct (tryAgent c (o_answers env k)) as [o l3] eqn:Et.
    destruct o; cbn [mbind option_bind].
    + intros [= <- <-]. apply (round_trace_last _ _ _ attemptOK (o_answers env k, l3)); eauto.
    + destruct (once_loop _ _ _ _ _ _ _ _) as [[w' l']|] eqn:El; [|done]. intros [= <- <-].
      apply (round_trace_attempt _ _ _ _ attemptUnavailable (o_answers env k, l3)); eauto.
    + destruct (once_loop _ _ _ _ _ _ _ _) as [[w' l']|] eqn:El; [|done]. intros [= <- <-].
      apply (round_trace_attempt _ _ _ _ attemptFailed (o_answers env k, l3)); eauto.
    + intros [= <- <-]. apply (round_trace_last _ _ _ attemptUnknown (o_answers env k, l3)); eauto.
  - destruct (untried env (S k) tried) as [fresh l2] eqn:Eu. apply untried_trace in Eu as [ds ->].
    destruct fresh as [|f fs]; [apply (round_trace_giveup tried a u ds)|].
    destruct (once_loop _ _ _ _ _ _ _ _) as [[w' l']|] eqn:El; [|done]. intros [= <- <-].
    by eapply round_trace_evict, IH.
Qed.

Lemma dispatchOnce_trace env fuel w l :
  dispatchOnce balance env fuel = Some (w, l) -> round_trace w ∅ l.
Proof.
  unfold dispatchOnce. destruct (untried env 0 ∅) as [cands l0] eqn:Eu. apply untried_trace in Eu as [ds ->].
  destruct cands as [|c cs].
  { intros [= <- <-]. rewrite <- (app_nil_r (map Evict ds)). by apply round_trace_evict, round_trace_nil. }
  destruct (negb _).
  { intros [= <- <-]. apply round_trace_evict. split; simpl; try done; apply NoDup_nil_2. }
  destruct (once_loop _ _ _ _ _ _ _ _) as [[w' l']|] eqn:El; [|done]. intros [= <- <-].
  by eapply round_trace_evict, once_loop_trace.
Qed.
End traces.

(** ** Termination *)

Section termination.
Context (balance : gostr).

(** The look at which the round's time is up ends it. *)
Lemma once_loop_ends env N fuel k cands tried a u :
  o_start env + 2 * acceptWait <= o_now env N -> (k <= N)%nat -> (N - k < fuel)%nat ->
  once_loop balance env fuel k cands tried a u <> None.
Proof.
  intros HN. revert k cands tried a u; induction fuel as [|fuel IH]; intros k cands tried a u Hk Hf; [lia|].
  cbn [once_loop]. destruct (_ <=? 0) eqn:Ew; [by destruct (_ =? _)|]. b2p.
  assert (HkN : (S k <= N)%nat) by (destruct (decide (k = N)) as [->|]; lia).
  assert (Hrec : forall cands tried a u, once_loop balance env fuel (S k) cands tried a u <> None)
    by (intros; apply IH; lia).
  unfold pickReserve. destruct (pick _ _ _ _ _) as [[c tried']|].
  - destruct (attempt_wait _ _ _ _ _ _ _) as [[aw cands'] l2].
    destruct (tryAgent c (o_answers env k)) as [o l3].
    destruct o; [done| | |done]; match goal with |- (_ ← once_loop _ _ _ _ ?cs ?t ?a ?u; _) <> None =>
      specialize (Hrec cs t a u); by destruct (once_loop _ _ _ _ cs t a u) as [[]|] end.
  - destruct (untried env (S k) tried) as [[|f fs] l2]; [by destruct (_ =? _)|].
    match goal with |- (_ ← once_loop _ _ _ _ ?cs ?t ?a ?u; _) <> None =>
      specialize (Hrec cs t a u); by destruct (once_loop _ _ _ _ cs t a u) as [[]|] end.
Qed.

Lemma dispatchOnce_ends env N fuel :
  o_start env + 2 * acceptWait <= o_now env N -> (N < fuel)%nat ->
  dispatchOnce balance env fuel <> None.
Proof.
  intros HN Hf. unfold dispatchOnce. destruct (untried env 0 ∅) as [[|c cs] l]; [done|].
  destruct (negb _); [done|].
  pose proof (once_loop_ends env N fuel 0 (c :: cs) ∅ 0 0 HN ltac:(lia) ltac:(lia)) as Hl.
  by destruct (once_loop _ _ _ _ _ _ _ _) as [[]|].
Qed.

Context (wait : Z) (env : dispatch_env).

(** Every round of the world ends. *)
Definition rounds_end : Prop :=
  forall j, exists N, o_start (d_round env j) + 2 * acceptWait <= o_now (d_round env j) N /\
                 (N < d_fuel env j)%nat.

Lemma dispatch_loop_ends M fuel j u :
  rounds_end -> u <= d_clock env M -> (j <= M)%nat -> (M - j < fuel)%nat ->
  dispatch_loop balance wait env fuel j (Some u) <> None.
Proof.
  intros Hr HM. revert j; induction fuel as [|fuel IH]; intros j Hj Hf; [lia|]. cbn [dispatch_loop].
  destruct (Hr j) as (N & HN & HNf). pose proof (dispatchOnce_ends _ N _ HN HNf) as Ho.
  destruct (dispatchOnce balance (d_round env j) (d_fuel env j)) as [[w l]|]; [|done].
  cbn [mbind option_bind].
  assert (Hw : (if 0 <? u - d_clock env j then match d_wake env j with
      | WakeJoined | WakeTimer => '(r, l3) ← dispatch_loop balance wait env fuel (S j) (Some u); Some (r, l ++ [] ++ l3)
      | _ => Some (Err noAgent, l ++ [] ++ [Failure ReasonNoAgent]) end
      else Some (Err noAgent, l ++ [] ++ [Failure ReasonNoAgent])) <> None).
  { destruct (0 <? _) eqn:E; [|done]. b2p.
    assert ((S j <= M)%nat) by (destruct (decide (j = M)) as [->|]; lia).
    pose proof (IH (S j) ltac:(lia) ltac:(lia)).
    destruct (d_wake env j); try done; by destruct (dispatch_loop _ _ _ _ _ _) as [[]|]. }
  destruct w; try done; exact Hw.
Qed.

Lemma dispatch_ends M :
  rounds_end -> d_clock env 0 + wait <= d_clock env M ->
  dispatch balance wait env (S (S M)) <> None.
Proof.
  intros Hr HM. unfold dispatch. remember (S M) as f eqn:Hfm. cbn [dispatch_loop].
  destruct (Hr 0%nat) as (N & HN & HNf). pose proof (dispatchOnce_ends _ N _ HN HNf) as Ho.
  destruct (dispatchOnce balance (d_round env 0) (d_fuel env 0)) as [[w l]|]; [|done].
  cbn [mbind option_bind].
  assert (Hgo : 0 < wait -> dispatch_loop balance wait env f 1 (Some (d_clock env 0 + wait)) <> None).
  { intros Hwt. apply (dispatch_loop_ends M); [done|done| |lia]. destruct M; lia. }
  destruct w; try done; (destruct (0 <? wait) eqn:E; b2p; [|done]);
    (destruct (0 <? _); [|done]); (destruct (d_wake env 0); try done); specialize (Hgo E);
    by destruct (dispatch_loop balance wait env f 1 _) as [[]|].
Qed.
End termination.

(** ** The whole dispatch *)

Definition is_wait (e : effect) : bool := match e with AgentWait => true | _ => false end.

(** What the trace of a dispatch must look like, given its result. *)
Record dispatch_trace (r : result refusal agentConn) (l : list effect) : Prop := {
  dt_net : forall d, net d l = match r with Ok c => if bool_decide (c = d) then 1 else 0 | Err _ => 0 end;
  dt_heads : (count is_head l <= match r with Err noAgent => 0 | _ => 1 end)%nat;
  dt_failures : count is_failure l = match r with Ok _ => 0%nat | Err _ => 1%nat end;
}.

Lemma dispatch_trace_app w l1 l2 r l :
  round_trace w ∅ l1 -> (w = noSessionWhy \/ w = noAgentWhy) -> (l2 = [] \/ l2 = [AgentWait]) ->
  dispatch_trace r l -> dispatch_trace r (l1 ++ l2 ++ l).
Proof.
  intros [R1 R2 R3 _ _] Hw Hl2 [D1 D2 D3].
  assert (E : count is_head l2 = 0%nat /\ count is_failure l2 = 0%nat /\ forall d, net d l2 = 0)
    by (destruct Hl2 as [-> | ->]; done).
  destruct E as (E1 & E2 & E3). split; rewrite ?count_app, ?E1, ?E2.
  - intros d. rewrite !net_app, R1, E3, D1. destruct Hw as [-> | ->]; lia.
  - destruct Hw as [-> | ->]; lia.
  - rewrite R3, D3. destruct Hw as [-> | ->]; done.
Qed.

Lemma dispatch_loop_trace balance wait env fuel j until r l :
  dispatch_loop balance wait env fuel j until = Some (r, l) -> dispatch_trace r l.
Proof.
  revert j until l; induction fuel as [|fuel IH]; intros j until l; [done|]. cbn [dispatch_loop].
  destruct (dispatchOnce _ _ _) as [[w l1]|] eqn:Eo; [|done]. cbn [mbind option_bind].
  apply dispatchOnce_trace in Eo. pose proof Eo as [R1 R2 R3 _ _].
  assert (Hno : forall l2, (w = noSessionWhy \/ w = noAgentWhy) -> (l2 = [] \/ l2 = [AgentWait]) ->
    dispatch_trace (Err noAgent) (l1 ++ l2 ++ [Failure ReasonNoAgent])).
  { intros l2 Hw Hl2. eapply dispatch_trace_app; [done..|]. by split. }
  assert (Hwait : forall until' l2, (w = noSessionWhy \/ w = noAgentWhy) -> (l2 = [] \/ l2 = [AgentWait]) ->
    (if 0 <? match until' with Some u => u - d_clock env j | None => 0 end then
       match d_wake env j with
       | WakeJoined | WakeTimer =>
           '(r, l3) ← dispatch_loop balance wait env fuel (S j) until'; Some (r, l1 ++ l2 ++ l3)
       | WakeCtx | WakeStopping => Some (Err noAgent, l1 ++ l2 ++ [Failure ReasonNoAgent])
       end
     else Some (Err noAgent, l1 ++ l2 ++ [Failure ReasonNoAgent])) = Some (r, l) -> dispatch_trace r l).
  { intros until' l2 Hw Hl2. destruct (0 <? _); [|intros [= <- <-]; by apply Hno].
    destruct (d_wake env j); try (intros [= <- <-]; by apply Hno);
      (destruct (dispatch_loop _ _ _ _ _ _) as [[r' l3]|] eqn:El; [|done]; intros [= <- <-];
       eapply dispatch_trace_app; [done..|by eapply IH]). }
  destruct w as [c| | | | |].
  - intros [= <- <-]. by split.
  - destruct until as [u|]; [apply (Hwait (Some u) []); auto|].
    destruct (0 <? wait); [apply (Hwait (Some _) [AgentWait])|apply (Hwait None [])]; auto.
  - destruct until as [u|]; [apply (Hwait (Some u) []); auto|].
    destruct (0 <? wait); [apply (Hwait (Some _) [AgentWait])|apply (Hwait None [])]; auto.
  - intros [= <- <-]. split; [done|simpl; lia|done].
  - intros [= <- <-]. split; [done|simpl; lia|done].
  - intros [= <- <-]. by split.
Qed.

(** *** What a successful dispatch sent *)

(** A version 2 agent has the head once the stream is its own, a version 1
    agent only the preamble. *)
Definition head_sent (c : agentConn) (l : list effect) : Prop :=
  List.filter is_head l = if c_v2 c then [SendHead c] else [].

Lemma no_heads l : count is_head l = 0%nat -> List.filter is_head l = [].
Proof. apply length_zero_iff_nil. Qed.

Lemma tryAgent_ok_sent c a l : tryAgent c a = (attemptOK, l) -> head_sent c l.
Proof.
  unfold tryAgent, head_sent, fail. repeat split_match; intros H; simplify_eq/=; try done;
    by repeat match goal with E : c_v2 c = _ |- _ => rewrite E end.
Qed.

Lemma head_sent_after c l1 l2 : count is_head l1 = 0%nat -> head_sent c l2 -> head_sent c (l1 ++ l2).
Proof. unfold head_sent. intros H1 H2. by rewrite List.filter_app, (no_heads _ H1), H2. Qed.

(** What precedes a further attempt holds no head. *)
Lemma attempt_no_head c a o l ds aw : tryAgent c a = (o, l) -> may_have_sent o = false ->
  count is_head ([Reserve c] ++ map Evict ds ++ Try c aw :: l) = 0%nat.
Proof.
  intros Ht Ho. destruct (tryAgent_trace _ _ _ _ Ht) as (_ & Hh & _). rewrite Ho in Hh.
  destruct (evict_trace ds) as (He & _). rewrite !count_app, He. unfold count in *. simpl. lia.
Qed.

Lemma once_loop_sent balance env fuel k cands tried a u c l :
  once_loop balance env fuel k cands tried a u = Some (Dispatched c, l) -> head_sent c l.
Proof.
  revert k cands tried a u l; induction fuel as [|fuel IH]; intros k cands tried a u l; [done|].
  cbn [once_loop]. destruct (_ <=? 0); [by destruct (_ =? _)|].
  unfold pickReserve. destruct (pick _ _ _ _ _) as [[d tried']|].
  - destruct (attempt_wait _ _ _ _ _ _ _) as [[aw cands'] l2] eqn:Ea. apply attempt_wait_trace in Ea as [ds ->].
    destruct (tryAgent d (o_answers env k)) as [o l3] eqn:Et. destruct o; cbn [mbind option_bind]; [| | |done].
    + intros [= -> <-]. apply tryAgent_ok_sent in Et. unfold head_sent in *.
      destruct (evict_trace ds) as (He%no_heads & _). cbn [List.filter is_head].
      rewrite !List.filter_app, He. simpl. by rewrite Et, app_nil_r.
    + destruct (once_loop _ _ _ _ _ _ _ _) as [[w' l']|] eqn:El; [|done]. intros [= -> <-].
      eapply head_sent_after; [by eapply attempt_no_head|by eapply IH].
    + destruct (once_loop _ _ _ _ _ _ _ _) as [[w' l']|] eqn:El; [|done]. intros [= -> <-].
      eapply head_sent_after; [by eapply attempt_no_head|by eapply IH].
  - destruct (untried env (S k) tried) as [fresh l2] eqn:Eu. apply untried_trace in Eu as [ds ->].
    destruct fresh as [|f fs]; [by destruct (_ =? _)|].
    destruct (once_loop _ _ _ _ _ _ _ _) as [[w' l']|] eqn:El; [|done]. intros [= -> <-].
    cbn [app]. apply head_sent_after; [apply evict_trace|by eapply IH].
Qed.

Lemma dispatchOnce_sent balance env fuel c l :
  dispatchOnce balance env fuel = Some (Dispatched c, l) -> head_sent c l.
Proof.
  unfold dispatchOnce. destruct (untried env 0 ∅) as [cands l0] eqn:Eu. apply untried_trace in Eu as [ds ->].
  destruct cands as [|d cs]; [done|]. destruct (negb _); [done|].
  destruct (once_loop _ _ _ _ _ _ _ _) as [[w' l']|] eqn:El; [|done]. intros [= -> <-].
  apply head_sent_after; [apply evict_trace|by eapply once_loop_sent].
Qed.

Lemma dispatch_loop_sent balance wait env fuel j until c l :
  dispatch_loop balance wait env fuel j until = Some (Ok c, l) -> head_sent c l.
Proof.
  revert j until l; induction fuel as [|fuel IH]; intros j until l; [done|]. cbn [dispatch_loop].
  destruct (dispatchOnce _ _ _) as [[w l1]|] eqn:Eo; [|done]. cbn [mbind option_bind].
  assert (Hwait : (w = noSessionWhy \/ w = noAgentWhy) ->
    (let '(until, l2) := match until with
                         | None => if 0 <? wait then (Some (d_clock env j + wait), [AgentWait]) else (None, [])
                         | Some u => (Some u, [])
                         end in
     if 0 <? match until with Some u => u - d_clock env j | None => 0 end then
       match d_wake env j with
       | WakeJoined | WakeTimer =>
           '(r, l3) ← dispatch_loop balance wait env fuel (S j) until; Some (r, l1 ++ l2 ++ l3)
       | WakeCtx | WakeStopping => Some (Err noAgent, l1 ++ l2 ++ [Failure ReasonNoAgent])
       end
     else Some (Err noAgent, l1 ++ l2 ++ [Failure ReasonNoAgent])) = Some (Ok c, l) -> head_sent c l).
  { intros Hw. destruct (dispatchOnce_trace _ _ _ _ _ Eo) as [_ Hh _ _ _].
    assert (H1 : count is_head l1 = 0%nat) by (destruct Hw as [-> | ->]; simpl in Hh; lia).
    destruct (match until with None => _ | Some u => _ end) as [until' l2] eqn:Eu.
    assert (H2 : count is_head l2 = 0%nat) by (destruct until; [|destruct (0 <? wait)]; by simplify_eq/=).
    clear Eu. destruct (0 <? match until' with Some u => u - d_clock env j | None => 0 end); [|intros; discriminate].
    destruct (d_wake env j); try (intros; discriminate);
      (destruct (dispatch_loop _ _ _ _ _ _) as [[r' l3]|] eqn:El; [|done]; intros [= -> <-];
       apply head_sent_after; [done|]; apply head_sent_after; [done|by eapply IH]). }
  destruct w; [|apply Hwait; auto|apply Hwait; auto|intros; discriminate..].
  intros [= -> <-]. by eapply dispatchOnce_sent.
Qed.

(** ** Properties *)

(** [C1] A request is sent at most once: whatever the agents answer, over all
    rounds of a dispatch its head is written to at most one agent session, and
    to none when the client is told that there is no agent; a head whose write
    failed is never sent again. *)
Theorem dispatch_sends_once (balance : gostr) (wait : Z) (env : dispatch_env) (fuel : nat)
    (r : result refusal agentConn) (l : list effect)
    (Hd : dispatch balance wait env fuel = Some (r, l)) :
  (count is_head l <= 1)%nat /\ (r = Err noAgent -> count is_head l = 0%nat).
Proof.
  destruct (dispatch_loop_trace _ _ _ _ _ _ _ _ Hd) as [_ Hh _].
  split; [destruct r as [|[]]; lia|intros ->; lia].
Qed.

(** A dispatch settles its accounts: when it returns, the only reservation
    left on any session is the one on the session it hands to the caller, and
    exactly one failure has been counted if it refuses the request, none if it
    does not. *)
Theorem dispatch_accounts (balance : gostr) (wait : Z) (env : dispatch_env) (fuel : nat)
    (r : result refusal agentConn) (l : list effect)
    (Hd : dispatch balance wait env fuel = Some (r, l)) :
  (forall d, net d l = match r with Ok c => if bool_decide (c = d) then 1 else 0 | Err _ => 0 end) /\
  count is_failure l = match r with Ok _ => 0%nat | Err _ => 1%nat end.
Proof. by destruct (dispatch_loop_trace _ _ _ _ _ _ _ _ Hd) as [Hn _ Hf]. Qed.

(** A round tries no session twice, even when sessions join or the
    candidate list is rebuilt while it runs, and writes the request's head only
    in its last attempt. *)
Theorem round_tries_once (balance : gostr) (env : once_env) (fuel : nat) (w : why) (l : list effect)
    (Hd : dispatchOnce balance env fuel = Some (w, l)) :
  NoDup (tries l) /\
  (0 < count is_head l -> w = SendError \/ exists c, w = Dispatched c)%nat.
Proof.
  destruct (dispatchOnce_trace _ _ _ _ _ Hd) as [_ Hh _ Hn _]. split; [done|].
  destruct w; simpl in *; eauto; lia.
Qed.

(** [C36] A dispatch returns: if time passes (each round sees its deadline pass
    and the clock after some round is past the configured wait), dispatch comes
    back with a stream or a refusal; the number of rounds that takes bounds the
    fuel. *)
Theorem dispatch_terminates (balance : gostr) (wait : Z) (env : dispatch_env) (M : nat)
    (Hrounds : rounds_end env) (Hclock : d_clock env 0 + wait <= d_clock env M) :
  exists r l, dispatch balance wait env (S (S M)) = Some (r, l).
Proof.
  pose proof (dispatch_ends balance wait env M Hrounds Hclock) as Hne.
  destruct (dispatch balance wait env (S (S M))) as [[r l]|]; [eauto|done].
Qed.

(** ** Witnesses *)

Module DispatchWitness.
Definition cA : agentConn := mkAgentConn 1 (bs "SHA256:A") 1 true.
Definition cB : agentConn := mkAgentConn 2 (bs "SHA256:B") 2 true.
Definition calm : loads := mkLoads (fun _ => 0) (fun _ => 0) 1.
(** The first agent refuses the stream, the second takes the request. *)
Definition refuses : answers := mkAnswers Opened false None second (Some ErrRefused) None.
Definition takes : answers := mkAnswers Opened false None second None None.
Definition once1 : once_env :=
  mkOnce 0 (fun k => Z.of_nat k * 40 * second) (fun _ => ([cA; cB], [])) (fun _ => calm)
    (fun k => match k with O => refuses | _ => takes end) true 0.
(** No agent in the first round, then two. *)
Definition once0 : once_env :=
  mkOnce 0 (fun k => Z.of_nat k * 40 * second) (fun _ => ([], [])) (fun _ => calm) (fun _ => takes) true 0.
Definition quick : once_env :=
  mkOnce 0 (fun k => Z.of_nat k * 10 * second) (fun _ => ([cA; cB], [])) (fun _ => calm)
    (fun k => match k with O => refuses | _ => takes end) true 0.
Definition world : dispatch_env :=
  mkDispatch (fun j => match j with O => once0 | _ => quick end) (fun _ => 10%nat)
    (fun j => Z.of_nat j * 100 * second) (fun _ => WakeJoined).
Definition out := dispatch BalanceRoundRobin second world 5.

Lemma out_eq :
  out = Some (Ok cB, [AgentWait; Reserve cA; Try cA acceptWait; Release cA; CloseStream cA;
                      CoolFor cA cooldown; Reserve cB; Try cB (20 * second); SendHead cB; Warm cB 0]).
Proof. vm_compute. reflexivity. Qed.

Lemma dispatch_sends_once_witness :
  exists r l, out = Some (r, l) /\ (count is_head l <= 1)%nat.
Proof.
  do 2 eexists. split; [exact out_eq|].
  apply (dispatch_sends_once BalanceRoundRobin second world 5 _ _ out_eq).
Defined.

Lemma dispatch_accounts_witness :
  exists r l, out = Some (r, l) /\ net cB l = 1 /\ count is_failure l = 0%nat.
Proof.
  do 2 eexists. split; [exact out_eq|].
  destruct (dispatch_accounts BalanceRoundRobin second world 5 _ _ out_eq) as [Hn Hf].
  split; [rewrite Hn; vm_compute; reflexivity|exact Hf].
Defined.

Lemma round_tries_once_witness :
  exists w l, dispatchOnce BalanceRoundRobin quick 10 = Some (w, l) /\ tries l = [1; 2]%nat /\ NoDup (tries l).
Proof.
  do 2 eexists. split; [vm_compute; reflexivity|]. split; [vm_compute; reflexivity|].
  eapply (round_tries_once BalanceRoundRobin quick 10). vm_compute. reflexivity.
Defined.

Lemma dispatch_terminates_witness :
  exists r l, dispatch BalanceRoundRobin second world 3 = Some (r, l).
Proof.
  apply (dispatch_terminates BalanceRoundRobin second world 1).
  - intros [|j]; exists 4%nat; (split; [vm_compute; discriminate|vm_compute; lia]).
  - vm_compute. discriminate.
Defined.
End DispatchWitness.
