(* ===== verification/Config.v ===== *)
(** * Configuration ([internal/config])

    The settings of the edge and the agent, their validation, the addresses
    they compare, and the sets of certificates derived from them.  Decoding
    YAML, reading files and name lookups are outside: a configuration is the
    decoded value, and what the network stack and [net/url] answer comes
    through the class [Net]. *)

From S2P Require Import Prelude GoStrings Route Balance.

(** ** Data ([config.go]); durations are nanoseconds *)

Record LogConfig := mkLog { Level : gostr; Format : gostr }.
Record AdminConfig := mkAdmin { Socket : gostr }.
Record MetricsConfig := mkMetrics { m_Listen : gostr }.
Record TLSFiles := mkTLS { t_Cert : gostr; t_Key : gostr }.
Record HTTP3Config := mkHTTP3 { Enabled : bool; h_Listen : gostr; h_AltSvc : gostr }.

Record IngressConfig := mkIngress {
  Mode : gostr;
  i_Listen : gostr;
  i_TLS : TLSFiles;
  i_MaxConnections : Z;
  ReadHeaderTimeout : Z;
  IdleTimeout : Z;
  i_HTTP3 : HTTP3Config;
}.

(** [r_HTTP3] is the optional [*bool]. *)
Record EdgeRoute := mkEdgeRoute {
  r_Host : gostr;
  AgentFingerprint : gostr;
  AgentFingerprints : list gostr;
  r_Balance : gostr;
  AllowSharedCert : bool;
  r_MaxConnections : Z;
  r_HTTP3 : option bool;
}.

Record AgentRoute := mkAgentRoute { a_Host : gostr; Service : gostr }.

Record TunnelServerConfig := mkTunnelServer {
  tn_Listen : gostr;
  tn_CA : gostr;
  tn_Cert : gostr;
  tn_Key : gostr;
  ShareIngress : bool;
}.

Record EdgeConfig := mkEdgeConfig {
  Ingress : IngressConfig;
  Tunnel : TunnelServerConfig;
  Routes : list EdgeRoute;
  Drain : Z;
  e_AgentWait : option Z;
  e_Log : LogConfig;
  e_Admin : AdminConfig;
  Metrics : MetricsConfig;
  e_Version : gostr;
}.

Record EdgeRef := mkEdgeRef {
  Address : gostr;
  er_CA : gostr;
  er_Cert : gostr;
  er_Key : gostr;
  EdgeFingerprint : gostr;
  Proxy : gostr;
}.

Record ReconnectConfig := mkReconnect { MinBackoff : Z; MaxBackoff : Z }.

Record AgentConfig := mkAgentConfig {
  Edge : EdgeRef;
  a_Routes : list AgentRoute;
  Reconnect : ReconnectConfig;
  a_Drain : Z;
  a_Log : LogConfig;
  a_Admin : AdminConfig;
  a_Metrics : MetricsConfig;
  a_Version : gostr;
}.

(** ** The surroundings *)

(** The parts of a parsed URL the configuration looks at. *)
Record URL := mkURL {
  Scheme : gostr;
  Hostname : gostr;
  u_Port : gostr;
  Path : gostr;
  RawQuery : gostr;
  Fragment : gostr;
}.

(** An IP address in its 16-byte form, as a number; an IPv4 address [n] is
    [::ffff:n], so that [Equal] is equality. *)
Abbreviation IP := Z.

(** The service database ([network] decides), IPv6 literals, [net/url], the
    field-value check of [httpguts], and the host's interface addresses ([None]
    when they cannot be listed). *)
Class Net := {
  lookup_service : gostr -> gostr -> option Z;
  parse_ipv6 : gostr -> option IP;
  url_parse : gostr -> option URL;
  ValidHeaderFieldValue : gostr -> bool;
  interface_ips : option (list IP);
}.

(** ** Numbers and addresses *)

Definition digit (c : ascii) : option Z :=
  let n := Z.of_N (code c) in if (48 <=? n) && (n <=? 57) then Some (n - 48) else None.

(** [parsePort]'s loop, on 32-bit arithmetic; [None] is a port that needs a
    lookup. *)
Fixpoint port_digits (n : Z) (s : gostr) : option Z :=
  match s with
  | [] => Some n
  | c :: s =>
      d ← digit c;
      if 2 ^ 30 <=? n then Some (2 ^ 32 - 1)
      else
        let n := u32 (n * 10) in
        let nn := u32 (n + d) in
        if nn <? n then Some (2 ^ 32 - 1) else port_digits nn s
  end.

(** [parsePort]. *)
Definition parsePort (service : gostr) : option Z :=
  match service with
  | [] => Some 0
  | c :: t =>
      let neg := ceq c "-"%char in
      n ← port_digits 0 (if neg || ceq c "+"%char then t else service);
      let port := if negb neg && (2 ^ 30 <=? n) then 2 ^ 30 - 1
                  else if neg && (2 ^ 30 <? n) then 2 ^ 30 else n in
      Some (if neg then - port else port)
  end.

(** A dotted-decimal IPv4 field: one to three digits, no leading zero, at most
    255. *)
Fixpoint decimal (n : Z) (s : gostr) : option Z :=
  match s with
  | [] => Some n
  | c :: s => d ← digit c; decimal (n * 10 + d) s
  end.

Definition ipv4_field (s : gostr) : option Z :=
  match s with
  | [] => None
  | c :: t =>
      if (3 <? length s)%nat || (ceq c "0"%char && (0 <? length t)%nat) then None
      else n ← decimal 0 s; if 255 <? n then None else Some n
  end.

Definition v4 (n : Z) : IP := Z.lor (Z.shiftl 65535 32) n.

Definition parse_ipv4 (s : gostr) : option IP :=
  match Split s (bs ".") with
  | [a; b; c; d] =>
      a ← ipv4_field a; b ← ipv4_field b; c ← ipv4_field c; d ← ipv4_field d;
      Some (v4 (Z.shiftl a 24 + Z.shiftl b 16 + Z.shiftl c 8 + d))
  | _ => None
  end.

Definition loopback4 : IP := v4 (Z.shiftl 127 24 + 1).
Definition loopback6 : IP := 1.

Definition IsUnspecified (ip : IP) : bool := (ip =? v4 0) || (ip =? 0).
Definition IsLoopback (ip : IP) : bool :=
  if Z.shiftr ip 32 =? 65535 then Z.land (Z.shiftr ip 24) 255 =? 127 else ip =? loopback6.

Section operations.
Context `{Unicode} `{Net}.

(** [net.ParseIP]: the first of [.] and [:] decides the form. *)
Definition ParseIP (s : gostr) : option IP :=
  match index_by (fun c => ceq c "."%char || ceq c ":"%char || ceq c "%"%char) s with
  | Some i => if bool_decide (s !! i = Some "."%char) then parse_ipv4 s
              else if bool_decide (s !! i = Some ":"%char) then parse_ipv6 s
              else None
  | None => None
  end.

(** [net.LookupPort]. *)
Definition LookupPort (network service : gostr) : option Z :=
  port ← match parsePort service with
         | Some n => Some n
         | None => lookup_service network service
         end;
  if (port <? 0) || (65535 <? port) then None else Some port.

Inductive listen_error := BadAddr (e : addr_error) | InvalidPort (p : gostr).

Definition SplitListenNet (network addr : gostr) : result listen_error (gostr * Z) :=
  match SplitHostPort addr with
  | Err e => Err (BadAddr e)
  | Ok (host, p) =>
      match LookupPort network p with
      | Some port => if port <? 1 then Err (InvalidPort p) else Ok (host, port)
      | None => Err (InvalidPort p)
      end
  end.

Definition SplitListen (addr : gostr) : result listen_error (gostr * Z) :=
  SplitListenNet (bs "tcp") addr.

Definition IsWildcardHost (h : gostr) : bool :=
  if beq h [] then true
  else match ParseIP h with Some ip => IsUnspecified ip | None => false end.

Definition LoopbackHosts (host : gostr) : list gostr :=
  if IsWildcardHost host then [bs "127.0.0.1"; bs "::1"] else [host].

(** [None] is the unknown host. *)
Definition hostIPs (host : gostr) : option (list IP) :=
  match ParseIP host with
  | Some ip => Some [ip]
  | None => if EqualFold host (bs "localhost") then Some [loopback4; loopback6] else None
  end.

(** [ep_ips] is [None] when [resolved] is false. *)
Record endpoint := mkEndpoint {
  ep_host : gostr;
  ep_port : Z;
  ep_wildcard : bool;
  ep_ips : option (list IP);
}.

Definition parseEndpoint (addr : gostr) : option endpoint :=
  match SplitListen addr with
  | Err _ => None
  | Ok (host, port) =>
      let w := IsWildcardHost host in
      Some (mkEndpoint host port w (if w then None else hostIPs host))
  end.

Definition overlaps (e o : endpoint) : bool :=
  if negb (ep_port e =? ep_port o) then false
  else if ep_wildcard e || ep_wildcard o then true
  else match ep_ips e, ep_ips o with
       | Some xs, Some ys => existsb (fun x => existsb (fun y => x =? y) ys) xs
       | _, _ => EqualFold (ep_host e) (ep_host o)
       end.

Definition ListenersOverlap (a b : gostr) : bool :=
  match parseEndpoint a, parseEndpoint b with
  | Some ea, Some eb => overlaps ea eb
  | _, _ => false
  end.

(** [localIPs]. *)
Definition localIPs (ip : IP) : bool :=
  match interface_ips with
  | Some ips => existsb (fun l => l =? ip) ips
  | None => false
  end.

Definition serviceOnMetricsSocket (metricsAddr service : gostr) (local : IP -> bool) : bool :=
  match parseEndpoint metricsAddr, parseEndpoint service with
  | Some m, Some svc =>
      let svc := if ep_wildcard svc
                 then mkEndpoint (ep_host svc) (ep_port svc) false (Some [loopback4; loopback6])
                 else svc in
      match ep_ips svc with
      | None => false
      | Some ips =>
          let onHost := List.filter (fun ip => IsLoopback ip || local ip) ips in
          match onHost with
          | [] => false
          | _ => overlaps m (mkEndpoint (ep_host svc) (ep_port svc) (ep_wildcard svc) (Some onHost))
          end
      end
  | _, _ => false
  end.

(** ** Derived settings *)

Definition HTTP3Listen (i : IngressConfig) : gostr :=
  if beq (h_Listen (i_HTTP3 i)) [] then i_Listen i else h_Listen (i_HTTP3 i).

Definition AltSvcAuto : gostr := bs "auto".
Definition AltSvcOff : gostr := bs "off".

Definition quotes : gostr := [byte 34].

Definition AltSvcHeaderFor (i : IngressConfig) (port : Z) : gostr :=
  if negb (Enabled (i_HTTP3 i)) then []
  else
    let v := ToLower (h_AltSvc (i_HTTP3 i)) in
    if beq v AltSvcOff then []
    else if beq v [] || beq v AltSvcAuto then
      if port <? 1 then []
      else bs "h3=" ++ quotes ++ bs ":" ++ Itoa port ++ quotes ++ bs "; ma=86400"
    else h_AltSvc (i_HTTP3 i).

Definition ServesHTTP3 (r : EdgeRoute) : bool := default true (r_HTTP3 r).

Definition Fingerprints (r : EdgeRoute) : list gostr :=
  if beq (AgentFingerprint r) [] then AgentFingerprints r else [AgentFingerprint r].

Definition BalanceMode (r : EdgeRoute) : gostr :=
  if beq (r_Balance r) [] then BalanceLeastConn else r_Balance r.

Definition DefaultAgentWait : Z := 5 * 10 ^ 9.

Definition AgentWaitDuration (c : EdgeConfig) : Z := default DefaultAgentWait (e_AgentWait c).

Definition AllowedFingerprints (c : EdgeConfig) : gset gostr :=
  foldl (fun m r => foldl (fun m fp => {[fp]} ∪ m) m (Fingerprints r)) ∅ (Routes c).

Definition SharedFingerprints (c : EdgeConfig) : gset gostr :=
  foldl (fun m r => if AllowSharedCert r then foldl (fun m fp => {[fp]} ∪ m) m (Fingerprints r) else m)
    ∅ (Routes c).

(** [ProxyURL]. *)
Definition ProxyURL (e : EdgeRef) : option URL :=
  if beq (Proxy e) [] then None else url_parse (Proxy e).
End operations.

(** ** Validation ([load.go]) *)

Inductive config_error :=
| ErrIngressTLS
| ErrIngressMode (m : gostr)
| ErrIngressListen
| ErrHTTP3Mode
| ErrHTTP3Listen (addr : gostr)
| ErrAltSvc
| ErrRequired                         (* one of the required settings, in map order *)
| ErrAgentWait
| ErrShareIngressMode
| ErrMetricsListen (addr : gostr)
| ErrMetricsConflict (addr other : gostr)
| ErrNoRoutes
| ErrRouteHost (i : nat)
| ErrRoutePattern (i : nat) (e : pattern_error)
| ErrRouteAgents (host : gostr) (e : agents_error)
| ErrRouteHTTP3 (host : gostr)
| ErrRouteService (host : gostr)
| ErrSharing (fp : gostr)
| ErrProxy
| ErrDuplicateHost (host origin prev : gostr)
with agents_error :=
| BothFingerprints
| NoFingerprints
| EmptyFingerprint
| RepeatedFingerprint (fp : gostr)
| UnknownBalance (b : gostr).

Section validation.
Context `{Unicode} `{Net}.

(** The loop of [validateAgents] over [agent_fingerprints]. *)
Fixpoint check_fps (seen : gset gostr) (fps : list gostr) : result agents_error unit :=
  match fps with
  | [] => Ok tt
  | fp :: fps =>
      if beq fp [] then Err EmptyFingerprint
      else if bool_decide (fp ∈ seen) then Err (RepeatedFingerprint fp)
      else check_fps ({[fp]} ∪ seen) fps
  end.

Definition validateAgents (r : EdgeRoute) : result agents_error unit :=
  let one := negb (beq (AgentFingerprint r) []) in
  let many := (0 <? length (AgentFingerprints r))%nat in
  if one && many then Err BothFingerprints
  else if negb one && negb many then Err NoFingerprints
  else
    let? _ := check_fps ∅ (AgentFingerprints r) in
    let b := r_Balance r in
    if beq b [] || beq b BalanceLeastConn || beq b BalanceRoundRobin then Ok tt
    else Err (UnknownBalance b).

Definition standalone : gostr := bs "standalone".
Definition proxied : gostr := bs "proxied".

Definition validateHTTP3 (i : IngressConfig) : result config_error unit :=
  let h := i_HTTP3 i in
  if negb (Enabled h) then Ok tt
  else if negb (beq (Mode i) standalone) then Err ErrHTTP3Mode
  else match SplitListenNet (bs "udp") (HTTP3Listen i) with
       | Err _ => Err (ErrHTTP3Listen (HTTP3Listen i))
       | Ok _ =>
           let v := ToLower (h_AltSvc h) in
           if beq v [] || beq v AltSvcAuto || beq v AltSvcOff then Ok tt
           else if negb (ValidHeaderFieldValue (h_AltSvc h)) || beq (TrimSpace (h_AltSvc h)) []
           then Err ErrAltSvc else Ok tt
       end.

Definition validate_metrics (m : MetricsConfig) : result config_error unit :=
  if beq (m_Listen m) [] then Ok tt
  else match SplitListen (m_Listen m) with
       | Err _ => Err (ErrMetricsListen (m_Listen m))
       | Ok _ => Ok tt
       end.

Definition validateProxy (p : gostr) : result config_error unit :=
  if beq p [] then Ok tt
  else match url_parse p with
       | None => Err ErrProxy
       | Some u =>
           if negb (beq (Scheme u) (bs "http")) && negb (beq (Scheme u) (bs "https")) then Err ErrProxy
           else if beq (Hostname u) [] then Err ErrProxy
           else if negb (beq (Path u) []) && negb (beq (Path u) (bs "/")) || negb (beq (RawQuery u) [])
                   || negb (beq (Fragment u) []) then Err ErrProxy
           else if beq (u_Port u) [] then Ok tt
           else match decimal 0 (u_Port u) with
                | Some n => if (n <? 1) || (65535 <? n) then Err ErrProxy else Ok tt
                | None => Err ErrProxy
                end
       end.

(** The first pass over the routes: each is well-formed, and [sharedBy] and
    [exclusive] collect the fingerprints that are shared and those that are
    not. *)
Fixpoint check_routes (mode : gostr) (i : nat) (routes : list EdgeRoute)
    (sharedBy exclusive : gmap gostr gostr)
    : result config_error (gmap gostr gostr * gmap gostr gostr) :=
  match routes with
  | [] => Ok (sharedBy, exclusive)
  | r :: routes =>
      if beq (r_Host r) [] then Err (ErrRouteHost i)
      else match ValidatePattern (r_Host r) with
           | Err e => Err (ErrRoutePattern i e)
           | Ok _ =>
               match validateAgents r with
               | Err e => Err (ErrRouteAgents (r_Host r) e)
               | Ok _ =>
                   if negb (ServesHTTP3 r) && beq mode proxied then Err (ErrRouteHTTP3 (r_Host r))
                   else
                     let add m := foldl (fun m fp => <[fp := r_Host r]> m) m (Fingerprints r) in
                     if AllowSharedCert r
                     then check_routes mode (S i) routes (add sharedBy) exclusive
                     else check_routes mode (S i) routes sharedBy (add exclusive)
               end
           end
  end.

(** The second pass: no fingerprint is in both. *)
Definition check_sharing (routes : list EdgeRoute) (sharedBy exclusive : gmap gostr gostr)
    : result config_error unit :=
  match List.find (fun fp => bool_decide (is_Some (sharedBy !! fp)) && bool_decide (is_Some (exclusive !! fp)))
          (flat_map Fingerprints routes) with
  | Some fp => Err (ErrSharing fp)
  | None => Ok tt
  end.

Definition first_overlap (m : gostr) (others : list gostr) : option gostr :=
  List.find (fun a => ListenersOverlap m a) others.

(** [EdgeConfig.Validate]. *)
Definition Validate (c : EdgeConfig) : result config_error unit :=
  let i := Ingress c in
  let t := Tunnel c in
  let? _ :=
    if beq (Mode i) standalone then
      if beq (t_Cert (i_TLS i)) [] || beq (t_Key (i_TLS i)) [] then Err ErrIngressTLS else Ok tt
    else if beq (Mode i) proxied then Ok tt
    else Err (ErrIngressMode (Mode i)) in
  reject_if (beq (i_Listen i) []) ErrIngressListen (
  let? _ := validateHTTP3 i in
  reject_if (existsb (fun v => beq v [])
              ([tn_CA t; tn_Cert t; tn_Key t] ++ if ShareIngress t then [] else [tn_Listen t]))
    ErrRequired (
  reject_if (match e_AgentWait c with Some d => d <? 0 | None => false end) ErrAgentWait (
  reject_if (ShareIngress t && negb (beq (Mode i) standalone)) ErrShareIngressMode (
  let? _ := validate_metrics (Metrics c) in
  let m := m_Listen (Metrics c) in
  let? _ :=
    if beq m [] then Ok tt
    else match first_overlap m [tn_Listen t; i_Listen i] with
         | Some a => Err (ErrMetricsConflict m a)
         | None => Ok tt
         end in
  reject_if (length (Routes c) =? 0)%nat ErrNoRoutes (
  let? (sharedBy, exclusive) := check_routes (Mode i) 0 (Routes c) ∅ ∅ in
  check_sharing (Routes c) sharedBy exclusive))))).

(** The loop of [AgentConfig.Validate] over the routes. *)
Fixpoint check_agent_routes (i : nat) (routes : list AgentRoute) : result config_error unit :=
  match routes with
  | [] => Ok tt
  | r :: routes =>
      if beq (a_Host r) [] then Err (ErrRouteHost i)
      else if beq (Service r) [] then Err (ErrRouteService (a_Host r))
      else match ValidatePattern (a_Host r) with
           | Err e => Err (ErrRoutePattern i e)
           | Ok _ => check_agent_routes (S i) routes
           end
  end.

(** [AgentConfig.Validate]. *)
Definition validate_agent (c : AgentConfig) : result config_error unit :=
  let e := Edge c in
  reject_if (existsb (fun v => beq v []) [Address e; er_CA e; er_Cert e; er_Key e]) ErrRequired (
  let? _ := validateProxy (Proxy e) in
  let? _ := validate_metrics (a_Metrics c) in
  let m := m_Listen (a_Metrics c) in
  let? _ :=
    if beq m [] then Ok tt
    else match List.find (fun r => serviceOnMetricsSocket m (Service r) localIPs) (a_Routes c) with
         | Some r => Err (ErrMetricsConflict m (Service r))
         | None => Ok tt
         end in
  reject_if (length (a_Routes c) =? 0)%nat ErrNoRoutes (check_agent_routes 0 (a_Routes c))).

(** ** Drop-in files and duplicate hosts ([dropin.go]) *)

Record sourced := mkSourced { s_host : gostr; s_origin : gostr }.

Fixpoint check_dup_from (seen : gmap gostr gostr) (hosts : list sourced) : result config_error unit :=
  match hosts with
  | [] => Ok tt
  | h :: hosts =>
      let key := Normalize (s_host h) in
      match seen !! key with
      | Some prev => Err (ErrDuplicateHost (s_host h) (s_origin h) prev)
      | None => check_dup_from (<[key := s_origin h]> seen) hosts
      end
  end.

Definition checkDuplicateHosts (hosts : list sourced) : result config_error unit :=
  check_dup_from ∅ hosts.

(** The loop of [readDropIns] over the decoded files, in name order: their
    routes and each one's label. *)
Definition drop_in_routes {R} (files : list (gostr * list R)) : list R * list gostr :=
  (flat_map snd files, flat_map (fun f => map (fun _ => f.1) f.2) files).

Definition loadRoutes {R} (label : gostr) (base : list R) (files : list (gostr * list R))
    : list R * list gostr :=
  let '(extra, extraOrigins) := drop_in_routes files in
  (base ++ extra, map (fun _ => label) base ++ extraOrigins).

Definition checkRouteHosts {R} (routes : list R) (origins : list gostr) (hostOf : R -> gostr)
    : result config_error unit :=
  checkDuplicateHosts (zip_with (fun r o => mkSourced (hostOf r) o) routes origins).

Definition or_default (d v : Z) : Z := if v =? 0 then d else v.

(** [LoadEdge] from the decoded file and drop-ins. *)
Definition LoadEdge (label : gostr) (c : EdgeConfig) (files : list (gostr * list EdgeRoute))
    : result config_error EdgeConfig :=
  let '(routes, origins) := loadRoutes label (Routes c) files in
  let i := Ingress c in
  let c := mkEdgeConfig
    (mkIngress (Mode i) (i_Listen i) (i_TLS i) (i_MaxConnections i)
       (or_default (10 * 10 ^ 9) (ReadHeaderTimeout i)) (IdleTimeout i) (i_HTTP3 i))
    (Tunnel c) routes (or_default (15 * 10 ^ 9) (Drain c)) (e_AgentWait c) (e_Log c) (e_Admin c)
    (Metrics c) (e_Version c) in
  let? _ := Validate c in
  let? _ := checkRouteHosts (Routes c) origins r_Host in
  Ok c.

(** [LoadAgent]. *)
Definition LoadAgent (label : gostr) (c : AgentConfig) (files : list (gostr * list AgentRoute))
    : result config_error AgentConfig :=
  let '(routes, origins) := loadRoutes label (a_Routes c) files in
  let c := mkAgentConfig (Edge c) routes
    (mkReconnect (or_default (10 ^ 9) (MinBackoff (Reconnect c)))
       (or_default (30 * 10 ^ 9) (MaxBackoff (Reconnect c))))
    (or_default (15 * 10 ^ 9) (a_Drain c)) (a_Log c) (a_Admin c) (a_Metrics c) (a_Version c) in
  let? _ := validate_agent c in
  let? _ := checkRouteHosts (a_Routes c) origins a_Host in
  Ok c.
End validation.

(** ** Lemmas *)

Section lemmas.
Context `{Unicode} `{Net}.

Lemma foldl_set_elem (l : list gostr) (m : gset gostr) x :
  x ∈ foldl (fun m fp => {[fp]} ∪ m) m l <-> x ∈ m \/ x ∈ l.
Proof. revert m; induction l as [|y l IH]; intros m; simpl; [set_solver|]. rewrite IH. set_solver. Qed.

Lemma foldl_map_dom (l : list gostr) (h : gostr) (m : gmap gostr gostr) x :
  is_Some (foldl (fun m fp => <[fp := h]> m) m l !! x) <-> is_Some (m !! x) \/ x ∈ l.
Proof.
  revert m; induction l as [|y l IH]; intros m; simpl; [set_solver|]. rewrite IH, elem_of_cons, lookup_insert.
  case_decide; subst; [|naive_solver]. split; [naive_solver|intros _; left; eauto].
Qed.

Lemma AllowedFingerprints_elem c fp :
  fp ∈ AllowedFingerprints c <-> exists r, r ∈ Routes c /\ fp ∈ Fingerprints r.
Proof.
  unfold AllowedFingerprints.
  enough (Hg : forall l (m : gset gostr),
    fp ∈ foldl (fun m r => foldl (fun m fp => {[fp]} ∪ m) m (Fingerprints r)) m l <->
    fp ∈ m \/ exists r, r ∈ l /\ fp ∈ Fingerprints r) by (rewrite Hg; set_solver).
  induction l as [|r l IH]; intros m; simpl; [set_solver|]. rewrite IH, foldl_set_elem. set_solver.
Qed.

(** Some route that shares its certificates, or not, names [fp]. *)
Lemma named_cons b r routes fp :
  (exists r', r' ∈ r :: routes /\ AllowSharedCert r' = b /\ fp ∈ Fingerprints r') <->
  (AllowSharedCert r = b /\ fp ∈ Fingerprints r) \/
  exists r', r' ∈ routes /\ AllowSharedCert r' = b /\ fp ∈ Fingerprints r'.
Proof.
  setoid_rewrite elem_of_cons. split.
  - intros (r' & [->|?] & ? & ?); [by left|right; eauto].
  - intros [[? ?]|(r' & ? & ? & ?)]; [exists r; auto|exists r'; auto].
Qed.

Lemma SharedFingerprints_elem c fp :
  fp ∈ SharedFingerprints c <->
  exists r, r ∈ Routes c /\ AllowSharedCert r = true /\ fp ∈ Fingerprints r.
Proof.
  unfold SharedFingerprints.
  enough (Hg : forall l (m : gset gostr),
    fp ∈ foldl (fun m r => if AllowSharedCert r then foldl (fun m fp => {[fp]} ∪ m) m (Fingerprints r) else m) m l <->
    fp ∈ m \/ exists r, r ∈ l /\ AllowSharedCert r = true /\ fp ∈ Fingerprints r) by (rewrite Hg; set_solver).
  induction l as [|r l IH]; intros m; simpl; [set_solver|]. rewrite IH, named_cons.
  destruct (AllowSharedCert r); [rewrite foldl_set_elem|]; intuition congruence.
Qed.

Lemma check_fps_ok seen fps :
  check_fps seen fps = Ok tt -> NoDup fps /\ [] ∉ fps /\ forall x, x ∈ fps -> x ∉ seen.
Proof.
  revert seen; induction fps as [|fp fps IH]; intros seen; simpl.
  { intros _. split; [constructor|set_solver]. }
  destruct (beq fp []) eqn:E; [done|]. apply beq_false in E.
  destruct (bool_decide (fp ∈ seen)) eqn:Es; [done|]. b2p.
  intros (H1 & H2 & H3)%IH. split_and!.
  - constructor; [|done]. intros Hin. specialize (H3 fp Hin). set_solver.
  - rewrite not_elem_of_cons. done.
  - intros x [->|Hx]%elem_of_cons; [done|]. specialize (H3 x Hx). set_solver.
Qed.

(** A route that names its agents properly. *)
Definition agents_ok (r : EdgeRoute) : Prop :=
  Fingerprints r <> [] /\ NoDup (Fingerprints r) /\ [] ∉ Fingerprints r /\
  (BalanceMode r = BalanceLeastConn \/ BalanceMode r = BalanceRoundRobin).

Lemma validateAgents_ok r : validateAgents r = Ok tt -> agents_ok r.
Proof.
  unfold validateAgents, agents_ok, Fingerprints, BalanceMode.
  destruct (beq (AgentFingerprint r) []) eqn:E1; cbn [negb andb].
  - destruct (0 <? length (AgentFingerprints r))%nat eqn:E2; cbn [negb]; [|done]. b2p.
    destruct (check_fps ∅ (AgentFingerprints r)) as [[]|] eqn:Ec; [|done]. cbn [rbind].
    destruct (check_fps_ok _ _ Ec) as (H1 & H2 & _). intros Hb.
    split_and!; [by intros Hn; rewrite Hn in E2; simpl in E2; lia|done|done|].
    destruct (beq (r_Balance r) []) eqn:B1; [by left|].
    destruct (beq (r_Balance r) BalanceLeastConn) eqn:B2; [left; by apply beq_true|].
    destruct (beq (r_Balance r) BalanceRoundRobin) eqn:B3; [right; by apply beq_true|done].
  - apply beq_false in E1. destruct (0 <? length (AgentFingerprints r))%nat; [done|].
    destruct (check_fps _ _) as [[]|]; [|done]. cbn [rbind]. intros Hb.
    split_and!; [done|apply NoDup_singleton|by rewrite list_elem_of_singleton|].
    destruct (beq (r_Balance r) []) eqn:B1; [by left|].
    destruct (beq (r_Balance r) BalanceLeastConn) eqn:B2; [left; by apply beq_true|].
    destruct (beq (r_Balance r) BalanceRoundRobin) eqn:B3; [right; by apply beq_true|done].
Qed.

Definition route_ok (mode : gostr) (r : EdgeRoute) : Prop :=
  ValidatePattern (r_Host r) = Ok tt /\ agents_ok r /\ (ServesHTTP3 r = true \/ mode <> proxied).

Lemma check_routes_ok mode i routes sB ex sB' ex' :
  check_routes mode i routes sB ex = Ok (sB', ex') ->
  Forall (route_ok mode) routes /\
  (forall fp, is_Some (sB' !! fp) <->
     is_Some (sB !! fp) \/ exists r, r ∈ routes /\ AllowSharedCert r = true /\ fp ∈ Fingerprints r) /\
  (forall fp, is_Some (ex' !! fp) <->
     is_Some (ex !! fp) \/ exists r, r ∈ routes /\ AllowSharedCert r = false /\ fp ∈ Fingerprints r).
Proof.
  revert i sB ex; induction routes as [|r routes IH]; intros i sB ex; cbn [check_routes].
  { intros [= <- <-]. split; [constructor|]. split; intros fp; set_solver. }
  destruct (beq (r_Host r) []); [done|]. destruct (ValidatePattern (r_Host r)) as [[]|] eqn:Ev; [|done].
  destruct (validateAgents r) as [[]|] eqn:Ea; [|done]. apply validateAgents_ok in Ea.
  destruct (negb (ServesHTTP3 r) && beq mode proxied) eqn:Eh; [done|].
  assert (Hr : route_ok mode r).
  { split; [done|]. split; [done|]. apply andb_false_iff in Eh as [Eh|Eh]; [left; by b2p|right; by apply beq_false]. }
  destruct (AllowSharedCert r) eqn:Es; intros (HF & Hs & He)%IH;
    (split; [by constructor|]); (split; intros fp; [rewrite Hs|rewrite He]);
    rewrite ?foldl_map_dom, named_cons, Es; intuition congruence.
Qed.

Lemma Validate_parts c :
  Validate c = Ok tt ->
  Routes c <> [] /\ Forall (route_ok (Mode (Ingress c))) (Routes c) /\
  (forall r1 r2 fp, r1 ∈ Routes c -> r2 ∈ Routes c -> fp ∈ Fingerprints r1 -> fp ∈ Fingerprints r2 ->
     AllowSharedCert r1 = AllowSharedCert r2) /\
  (m_Listen (Metrics c) <> [] ->
     ListenersOverlap (m_Listen (Metrics c)) (tn_Listen (Tunnel c)) = false /\
     ListenersOverlap (m_Listen (Metrics c)) (i_Listen (Ingress c)) = false).
Proof.
  unfold Validate. intros Hv.
  apply rbind_ok in Hv as (? & _ & Hv). apply reject_if_ok in Hv as [_ Hv].
  apply rbind_ok in Hv as (? & _ & Hv). do 3 apply reject_if_ok in Hv as [_ Hv].
  apply rbind_ok in Hv as (? & _ & Hv). apply rbind_ok in Hv as (? & Hm & Hv).
  apply reject_if_ok in Hv as [Hne Hv]. apply rbind_ok in Hv as ([sB ex] & Hr & Hsh).
  b2p. destruct (check_routes_ok _ _ _ _ _ _ _ Hr) as (HF & Hs & He).
  split; [by intros E; rewrite E in Hne|]. split; [done|]. split.
  - intros r1 r2 fp H1 H2 F1 F2. unfold check_sharing in Hsh.
    destruct (List.find _ _) as [|] eqn:Ef; [done|].
    assert (Hin : In fp (flat_map Fingerprints (Routes c))).
    { apply in_flat_map. exists r1. by rewrite <- !list_elem_of_In. }
    pose proof (find_none _ _ Ef fp Hin) as Hno. simpl in Hno.
    destruct (AllowSharedCert r1) eqn:E1, (AllowSharedCert r2) eqn:E2; try done;
      (rewrite !bool_decide_eq_true_2 in Hno; [done|apply He|apply Hs]); right; eauto.
  - intros Hl. rewrite (proj2 (beq_false _ _) Hl) in Hm. unfold first_overlap in Hm.
    destruct (List.find _ _) eqn:Ef; [done|].
    split; apply (find_none _ _ Ef); simpl; auto.
Qed.

Lemma check_dup_ok seen hosts :
  check_dup_from seen hosts = Ok tt ->
  NoDup (map (fun h => Normalize (s_host h)) hosts) /\
  forall h, h ∈ hosts -> seen !! Normalize (s_host h) = None.
Proof.
  revert seen; induction hosts as [|h hosts IH]; intros seen; simpl.
  { intros _. split; [constructor|set_solver]. }
  destruct (seen !! Normalize (s_host h)) eqn:E; [done|]. intros [Hn Hs]%IH. split.
  - constructor; [|done]. intros (h' & Heq & Hin)%list_elem_of_fmap. specialize (Hs h' Hin).
    rewrite Heq in Hs. by rewrite lookup_insert_eq in Hs.
  - intros h' [->|Hin]%elem_of_cons; [done|]. specialize (Hs h' Hin).
    by apply lookup_insert_None in Hs as [? _].
Qed.

Lemma zip_hosts {R} (hostOf : R -> gostr) routes origins :
  length routes = length origins ->
  map (fun h => Normalize (s_host h)) (zip_with (fun r o => mkSourced (hostOf r) o) routes origins) =
  map (fun r => Normalize (hostOf r)) routes.
Proof.
  revert origins; induction routes as [|r routes IH]; intros [|o origins]; simpl; try done.
  intros [= Hl]. by rewrite IH.
Qed.

Lemma loadRoutes_length {R} label (base : list R) files :
  length (loadRoutes label base files).1 = length (loadRoutes label base files).2.
Proof.
  unfold loadRoutes, drop_in_routes. simpl. rewrite !length_app, length_map. f_equal.
  induction files as [|[l rs] files IH]; simpl; [done|]. by rewrite !length_app, length_map, IH.
Qed.
End lemmas.

Section overlap.
Context `{Unicode} `{Net}.

Lemma EqualFold_sym a b :
  (forall a b, uni_equal_fold a b = uni_equal_fold b a) -> EqualFold a b = EqualFold b a.
Proof.
  intros Hsym. unfold EqualFold. rewrite (andb_comm (is_ascii b)).
  destruct (is_ascii a && is_ascii b); [|done]. unfold beq. by apply bool_decide_ext.
Qed.

Lemma overlaps_sym e o :
  (forall a b, uni_equal_fold a b = uni_equal_fold b a) -> overlaps e o = overlaps o e.
Proof.
  intros Hsym. unfold overlaps. rewrite (Z.eqb_sym (ep_port o)), (orb_comm (ep_wildcard o)).
  destruct (negb _); [done|]. destruct (_ || _); [done|].
  destruct (ep_ips e) as [xs|], (ep_ips o) as [ys|]; try by apply EqualFold_sym.
  apply eq_true_iff_eq. rewrite !existsb_exists. setoid_rewrite existsb_exists.
  setoid_rewrite Z.eqb_eq. naive_solver.
Qed.
End overlap.

(** ** Properties *)

Section properties.
Context `{Unicode} `{Net}.

(** [C27] A validated edge configuration has a usable allow-list: it allows at
    least one certificate and never the empty fingerprint, every route has a
    valid pattern, names its agents once each, and balances by a known
    algorithm, and sharing is a property of the certificate: a fingerprint is
    shared exactly on the routes that say so, and they all agree. *)
Theorem Validate_sound (c : EdgeConfig) (Hv : Validate c = Ok tt) :
  AllowedFingerprints c <> ∅ /\ [] ∉ AllowedFingerprints c /\
  Forall (fun r => ValidatePattern (r_Host r) = Ok tt /\ agents_ok r) (Routes c) /\
  (forall r fp, r ∈ Routes c -> fp ∈ Fingerprints r ->
     (fp ∈ SharedFingerprints c <-> AllowSharedCert r = true)).
Proof.
  destruct (Validate_parts c Hv) as (Hne & HF & Hsh & _). rewrite Forall_forall in HF.
  split_and!.
  - destruct (Routes c) as [|r rs] eqn:Er; [done|].
    destruct (HF r) as (_ & (Hfp & _) & _); [set_solver|].
    destruct (Fingerprints r) as [|fp fps] eqn:Ef; [done|]. intros Hempty.
    assert (Hin : fp ∈ AllowedFingerprints c).
    { apply AllowedFingerprints_elem. exists r. rewrite Er, Ef. set_solver. }
    rewrite Hempty in Hin. set_solver.
  - rewrite AllowedFingerprints_elem. intros (r & Hr & Hin).
    destruct (HF r Hr) as (_ & (_ & _ & Hno & _) & _). done.
  - apply Forall_forall. intros r Hr. destruct (HF r Hr) as (? & ? & _). done.
  - intros r fp Hr Hfp. rewrite SharedFingerprints_elem. split.
    + intros (r' & Hr' & Hs' & Hfp'). by rewrite (Hsh r r' fp).
    + intros Hs. by exists r.
Qed.

(** A loaded edge configuration has the file's routes followed by the
    drop-ins' in order, no host twice however it is written, a header timeout
    and a drain budget that are set, and is valid as it stands. *)
Theorem LoadEdge_sound (label : gostr) (c c' : EdgeConfig) (files : list (gostr * list EdgeRoute))
    (Hl : LoadEdge label c files = Ok c') :
  Routes c' = Routes c ++ flat_map snd files /\
  NoDup (map (fun r => Normalize (r_Host r)) (Routes c')) /\
  Validate c' = Ok tt /\
  ReadHeaderTimeout (Ingress c') <> 0 /\ Drain c' <> 0.
Proof.
  pose proof (loadRoutes_length label (Routes c) files) as Hlen. unfold LoadEdge in Hl.
  destruct (loadRoutes label (Routes c) files) as [routes origins] eqn:E. simpl in Hlen.
  apply rbind_ok in Hl as ([] & Hv & Hl). apply rbind_ok in Hl as ([] & Hd & Hl).
  injection Hl as <-. cbn [Routes] in *. unfold loadRoutes, drop_in_routes in E. injection E as Er Eo.
  unfold checkRouteHosts in Hd. apply check_dup_ok in Hd as [Hn _]. rewrite zip_hosts in Hn by done.
  split_and!; [done|done|done| |]; cbn; unfold or_default; destruct (_ =? _) eqn:E0; b2p; done.
Qed.

(** Whether two listen addresses compete for a socket does not depend on
    their order, an address that binds every local address competes with every
    address on its port, and addresses on different ports never compete. *)
Theorem ListenersOverlap_sound (a b : gostr) (ea eb : endpoint)
    (Hsym : forall a b, uni_equal_fold a b = uni_equal_fold b a)
    (Ha : parseEndpoint a = Some ea) (Hb : parseEndpoint b = Some eb) :
  ListenersOverlap a b = ListenersOverlap b a /\
  (ep_port ea <> ep_port eb -> ListenersOverlap a b = false) /\
  (ep_port ea = ep_port eb -> ep_wildcard ea = true -> ListenersOverlap a b = true).
Proof.
  unfold ListenersOverlap. rewrite Ha, Hb. split; [by apply overlaps_sym|]. unfold overlaps. split.
  - intros Hp. by rewrite (proj2 (Z.eqb_neq _ _) Hp).
  - intros Hp ->. by rewrite (proj2 (Z.eqb_eq _ _) Hp).
Qed.

(** The metrics endpoint never answers for something else: in a validated
    agent configuration no route's service is reached on the metrics socket, in
    a validated edge configuration neither the tunnel nor the ingress is. *)
Theorem metrics_socket_apart (c : EdgeConfig) (ca : AgentConfig)
    (Hv : Validate c = Ok tt) (Hva : validate_agent ca = Ok tt)
    (Hm : m_Listen (Metrics c) <> []) (Hma : m_Listen (a_Metrics ca) <> []) :
  ListenersOverlap (m_Listen (Metrics c)) (tn_Listen (Tunnel c)) = false /\
  ListenersOverlap (m_Listen (Metrics c)) (i_Listen (Ingress c)) = false /\
  Forall (fun r => serviceOnMetricsSocket (m_Listen (a_Metrics ca)) (Service r) localIPs = false) (a_Routes ca).
Proof.
  destruct (Validate_parts c Hv) as (_ & _ & _ & Ho). destruct (Ho Hm) as [H1 H2].
  split; [done|]. split; [done|]. unfold validate_agent in Hva.
  apply reject_if_ok in Hva as [_ Hva]. apply rbind_ok in Hva as (? & _ & Hva).
  apply rbind_ok in Hva as (? & _ & Hva). apply rbind_ok in Hva as (? & Hf & _).
  rewrite (proj2 (beq_false _ _) Hma) in Hf. destruct (List.find _ _) eqn:Ef; [done|].
  apply Forall_forall. intros r Hr%list_elem_of_In. exact (find_none _ _ Ef r Hr).
Qed.
End properties.

(** ** Witnesses *)

Module ConfigWitness.
#[local] Existing Instance ascii_only.
(** No named services, no IPv6, a URL parser that knows nothing. *)
Definition no_net : Net := {|
  lookup_service := fun _ _ => None;
  parse_ipv6 := fun _ => None;
  url_parse := fun _ => None;
  ValidHeaderFieldValue := fun _ => true;
  interface_ips := Some [];
|}.
#[local] Existing Instance no_net.

Definition mkroute (host fp : string) : EdgeRoute := mkEdgeRoute (bs host) (bs fp) [] [] false 0 None.
Definition ing : IngressConfig :=
  mkIngress proxied (bs "127.0.0.1:8080") (mkTLS [] []) 0 0 0 (mkHTTP3 false [] []).
Definition tun : TunnelServerConfig := mkTunnelServer (bs ":7443") (bs "ca") (bs "crt") (bs "key") false.
Definition conf (routes : list EdgeRoute) : EdgeConfig :=
  mkEdgeConfig ing tun routes 0 None (mkLog [] []) (mkAdmin []) (mkMetrics (bs "127.0.0.1:9464")) [].
Definition c1 : EdgeConfig := conf [mkroute "a.example" "SHA256:A"; mkroute "*.example" "SHA256:B"].
Definition agent1 : AgentConfig :=
  mkAgentConfig (mkEdgeRef (bs "edge:7443") (bs "ca") (bs "crt") (bs "key") [] [])
    [mkAgentRoute (bs "a.example") (bs "127.0.0.1:3000")] (mkReconnect 0 0) 0 (mkLog [] []) (mkAdmin [])
    (mkMetrics (bs ":9464")) [].

Lemma Validate_sound_witness :
  bs "SHA256:A" ∈ AllowedFingerprints c1 /\ AllowedFingerprints c1 <> ∅.
Proof.
  split; [apply (bool_decide_unpack _); vm_compute; exact I|].
  apply (Validate_sound c1). vm_compute. reflexivity.
Defined.

Lemma LoadEdge_sound_witness :
  exists c', LoadEdge (bs "edge.yaml") c1 [(bs "edge.d/x.yaml", [mkroute "b.example" "SHA256:A"])] = Ok c' /\
    ReadHeaderTimeout (Ingress c') <> 0.
Proof.
  eexists. split; [vm_compute; reflexivity|].
  eapply (LoadEdge_sound (bs "edge.yaml") c1 _ [(bs "edge.d/x.yaml", [mkroute "b.example" "SHA256:A"])]).
  vm_compute. reflexivity.
Defined.

Lemma ListenersOverlap_sound_witness :
  ListenersOverlap (bs ":443") (bs "127.0.0.1:443") = ListenersOverlap (bs "127.0.0.1:443") (bs ":443").
Proof.
  refine (proj1 (ListenersOverlap_sound (bs ":443") (bs "127.0.0.1:443") (mkEndpoint [] 443 true None)
    (mkEndpoint (bs "127.0.0.1") 443 false (Some [loopback4])) _ _ _)).
  - intros a b. cbn. unfold beq. apply bool_decide_ext. split; congruence.
  - vm_compute. reflexivity.
  - vm_compute. reflexivity.
Defined.

Lemma metrics_socket_apart_witness :
  ListenersOverlap (bs "127.0.0.1:9464") (bs ":7443") = false.
Proof.
  apply (metrics_socket_apart c1 agent1); [vm_compute; reflexivity|vm_compute; reflexivity|discriminate|discriminate].
Defined.

(** Two spellings of one wildcard pass every check of the configuration and
    still become two entries for the same suffix in the matcher, of which the
    first one always wins. *)
Definition c2 : EdgeConfig := conf [mkroute "*.example" "SHA256:A"; mkroute "*. example" "SHA256:B"].

Lemma wildcard_duplicate_accepted :
  exists c', LoadEdge (bs "edge.yaml") c2 [] = Ok c' /\
    map suffix (wildcards (Build (map (fun r => mkEntry (r_Host r) (Fingerprints r)) (Routes c')))) =
    [bs "example"; bs "example"].
Proof. eexists. split; [vm_compute; reflexivity|vm_compute; reflexivity]. Qed.
End ConfigWitness.
