(* ===== verification/Obs.v ===== *)
(** * Counters and snapshots ([internal/obs/state.go], [routes.go])

    The live counters shared between the data path, the admin socket and the
    metrics endpoint.  Each atomic integer is a 64-bit counter; operations that
    make several atomic steps are also given as step relations, so that their
    interleavings with concurrent readers and writers can be stated. *)

From S2P Require Import Prelude GoStrings.
From stdpp Require Import functions.
#[local] Open Scope Z_scope.

(** [atomic.Int64.Add]. *)
Definition add64 (x d : Z) : Z := i64 (x + d).

(** ** Reasons *)

(** [Reason] is a [uint8]. *)
Abbreviation Reason := nat.
Definition ReasonMaxConnections : Reason := 0.
Definition ReasonBadRequest : Reason := 1.
Definition ReasonNoRoute : Reason := 2.
Definition ReasonRouteMaxConnections : Reason := 3.
Definition ReasonNoAgent : Reason := 4.
Definition ReasonStreamError : Reason := 5.
Definition ReasonPreambleError : Reason := 6.
Definition ReasonDialError : Reason := 7.
Definition ReasonResponseTimeout : Reason := 8.
Definition ReasonBadResponse : Reason := 9.
Definition ReasonHTTP3Off : Reason := 10.
Definition numReasons : nat := 11.

Definition reasonNames : list gostr :=
  [bs "max_connections"; bs "bad_request"; bs "no_route"; bs "route_max_connections"; bs "no_agent";
   bs "stream_error"; bs "preamble_error"; bs "dial_error"; bs "response_timeout"; bs "bad_response";
   bs "http3_off"].

(** [Reason.String]. *)
Definition reason_string (r : Reason) : gostr :=
  if (r <? numReasons)%nat then default [] (reasonNames !! r) else bs "unknown".

Definition EdgeUnroutedReasons : list Reason := [ReasonMaxConnections; ReasonBadRequest; ReasonNoRoute].
Definition EdgeRouteReasons : list Reason :=
  [ReasonRouteMaxConnections; ReasonNoAgent; ReasonStreamError; ReasonResponseTimeout; ReasonBadResponse;
   ReasonHTTP3Off].
Definition AgentUnroutedReasons : list Reason := [ReasonPreambleError; ReasonNoRoute].
Definition AgentRouteReasons : list Reason := [ReasonDialError].

(** [reasonCounts] and its copy [ReasonCounts]: one count per reason. *)
Abbreviation reasonCounts := (list Z).
Definition no_counts : reasonCounts := repeat 0 numReasons.

Definition inc (r : Reason) (c : reasonCounts) : reasonCounts :=
  if (r <? numReasons)%nat then alter (fun n => add64 n 1) r c else c.

Definition Get (c : reasonCounts) (r : Reason) : Z :=
  if (r <? numReasons)%nat then default 0 (c !! r) else 0.

(** ** Routes *)

Definition byteShards : nat := 16.

Record byteShard := mkShard { sh_in : Z; sh_out : Z }.

Record RouteStats := mkRouteStats {
  pattern : gostr;
  r_active : Z;
  r_total : Z;
  totalH3 : Z;
  reqH3 : Z;
  waits : Z;
  bytes : list byteShard;
  next : Z;
  failures : reasonCounts;
}.

Definition newRouteStats (p : gostr) : RouteStats :=
  mkRouteStats p 0 0 0 0 0 (repeat (mkShard 0 0) byteShards) 0 no_counts.

(** [opened]. *)
Definition opened (http3 : bool) (r : RouteStats) : RouteStats :=
  mkRouteStats (pattern r) (add64 (r_active r) 1) (add64 (r_total r) 1)
    (if http3 then add64 (totalH3 r) 1 else totalH3 r) (reqH3 r) (waits r) (bytes r) (next r) (failures r).

(** [closed]. *)
Definition closed (r : RouteStats) : RouteStats :=
  mkRouteStats (pattern r) (add64 (r_active r) (-1)) (r_total r) (totalH3 r) (reqH3 r) (waits r)
    (bytes r) (next r) (failures r).

Definition HTTP3Request (r : RouteStats) : RouteStats :=
  mkRouteStats (pattern r) (r_active r) (r_total r) (totalH3 r) (add64 (reqH3 r) 1) (waits r)
    (bytes r) (next r) (failures r).

Definition AgentWait (r : RouteStats) : RouteStats :=
  mkRouteStats (pattern r) (r_active r) (r_total r) (totalH3 r) (reqH3 r) (add64 (waits r) 1)
    (bytes r) (next r) (failures r).

Definition route_Failure (reason : Reason) (r : RouteStats) : RouteStats :=
  mkRouteStats (pattern r) (r_active r) (r_total r) (totalH3 r) (reqH3 r) (waits r)
    (bytes r) (next r) (inc reason (failures r)).

(** [Bytes]: the shard of a new stream. *)
Definition Bytes (r : RouteStats) : RouteStats * nat :=
  let n := u32 (next r + 1) in
  (mkRouteStats (pattern r) (r_active r) (r_total r) (totalH3 r) (reqH3 r) (waits r) (bytes r) n (failures r),
   Z.to_nat (n mod Z.of_nat byteShards)).

Definition AddIn (shard : nat) (n : Z) (r : RouteStats) : RouteStats :=
  mkRouteStats (pattern r) (r_active r) (r_total r) (totalH3 r) (reqH3 r) (waits r)
    (alter (fun s => mkShard (add64 (sh_in s) n) (sh_out s)) shard (bytes r)) (next r) (failures r).

Definition AddOut (shard : nat) (n : Z) (r : RouteStats) : RouteStats :=
  mkRouteStats (pattern r) (r_active r) (r_total r) (totalH3 r) (reqH3 r) (waits r)
    (alter (fun s => mkShard (sh_in s) (add64 (sh_out s) n)) shard (bytes r)) (next r) (failures r).

Definition byteTotals (r : RouteStats) : Z * Z :=
  foldl (fun '(i, o) s => (add64 i (sh_in s), add64 o (sh_out s))) (0, 0) (bytes r).

Record RouteSnapshot := mkRouteSnapshot {
  Pattern : gostr;
  Active : Z;
  Total : Z;
  TotalH3 : Z;
  ReqH3 : Z;
  Waits : Z;
  BytesIn : Z;
  BytesOut : Z;
  Failures : reasonCounts;
}.

Definition route_snapshot (r : RouteStats) : RouteSnapshot :=
  let '(i, o) := byteTotals r in
  mkRouteSnapshot (pattern r) (r_active r) (r_total r) (totalH3 r) (reqH3 r) (waits r) i o (failures r).

(** ** The daemon's state *)

(** One agent session of the edge; its lifetime total is that of its
    fingerprint in [agentTotals]. *)
Record AgentSession := mkAgentSession {
  as_fp : gostr;
  as_addr : gostr;
  as_since : Z;
  as_active : Z;
  as_draining : bool;
}.

(** The plain counters and the strings of [State]. *)
Inductive counter :=
| connectedNano | activeStreams | totalStreams | maxStreams | reconnects
| handshakeOK | handshakeFail | handshakeRejected | handshakeDup | handshakeCapped | headerTimeouts.
#[export] Instance counter_eq_dec : EqDecision counter.
Proof. solve_decision. Defined.

Inductive strval := lastError | peerFP | selfFP | http3Listen.
#[export] Instance strval_eq_dec : EqDecision strval.
Proof. solve_decision. Defined.

(** [sessions] is the heap of [AgentSession]s, [agents] the listed ones. *)
Record State := mkState {
  role : gostr;
  connected : bool;
  cnt : counter -> Z;
  strs : strval -> option gostr;
  sessions : gmap nat AgentSession;
  agents : gset nat;
  expected : gset gostr;
  agentTotals : gmap gostr Z;
  routes : gmap gostr RouteStats;
  unrouted : reasonCounts;
  draining : bool;
  started : Z;
}.

Definition NewState (r : gostr) (now : Z) : State :=
  mkState r false (fun _ => 0) (fun _ => None) ∅ ∅ ∅ ∅ ∅ no_counts false now.

Definition upd (connected' : bool) (c : counter -> Z) (v : strval -> option gostr) (s : State) : State :=
  mkState (role s) connected' c v (sessions s) (agents s) (expected s) (agentTotals s) (routes s)
    (unrouted s) (draining s) (started s).

Definition bump (k : counter) (d : Z) (s : State) : State :=
  upd (connected s) (<[k := add64 (cnt s k) d]> (cnt s)) (strs s) s.

Definition set_str (k : strval) (v : gostr) (s : State) : State :=
  upd (connected s) (cnt s) (<[k := Some v]> (strs s)) s.

Definition set_agents (ss : gmap nat AgentSession) (a : gset nat) (t : gmap gostr Z) (s : State) : State :=
  mkState (role s) (connected s) (cnt s) (strs s) ss a (expected s) t (routes s) (unrouted s)
    (draining s) (started s).

Definition set_routes (rs : gmap gostr RouteStats) (s : State) : State :=
  mkState (role s) (connected s) (cnt s) (strs s) (sessions s) (agents s) (expected s) (agentTotals s) rs
    (unrouted s) (draining s) (started s).

(** *** Agent sessions; [None] is the nil receiver *)

Definition on_session (f : AgentSession -> AgentSession) (a : option nat) (s : State) : State :=
  match a with
  | None => s
  | Some a => set_agents (alter f a (sessions s)) (agents s) (agentTotals s) s
  end.

Definition session_Active (a : option nat) (s : State) : Z :=
  match a ≫= (sessions s !!.) with Some x => as_active x | None => 0 end.

Definition Reserve : option nat -> State -> State :=
  on_session (fun x => mkAgentSession (as_fp x) (as_addr x) (as_since x) (add64 (as_active x) 1) (as_draining x)).

Definition session_StreamClosed : option nat -> State -> State :=
  on_session (fun x => mkAgentSession (as_fp x) (as_addr x) (as_since x) (add64 (as_active x) (-1)) (as_draining x)).

Definition session_SetDraining : option nat -> State -> State :=
  on_session (fun x => mkAgentSession (as_fp x) (as_addr x) (as_since x) (as_active x) true).

Definition Commit (a : option nat) (s : State) : State :=
  match a ≫= (sessions s !!.) with
  | Some x => set_agents (sessions s) (agents s)
                (<[as_fp x := add64 (mget (agentTotals s) (as_fp x)) 1]> (agentTotals s)) s
  | None => s
  end.

(** [id] is the new session's pointer. *)
Definition NewAgentSession (id : nat) (fp addr : gostr) (now : Z) (s : State) : State :=
  set_agents (<[id := mkAgentSession fp addr now 0 false]> (sessions s)) (agents s)
    (<[fp := mget (agentTotals s) fp]> (agentTotals s)) s.

Definition AddAgent (a : nat) (s : State) : State :=
  set_agents (sessions s) ({[a]} ∪ agents s) (agentTotals s) s.

Definition AgentDisconnected (a : nat) (s : State) : State :=
  set_agents (sessions s) (agents s ∖ {[a]}) (agentTotals s) s.

Definition ExpectAgents (allowed : gset gostr) (s : State) : State :=
  mkState (role s) (connected s) (cnt s) (strs s) (sessions s) (agents s) (allowed ∪ expected s)
    (agentTotals s) (routes s) (unrouted s) (draining s) (started s).

(** *** Plain counters *)

Definition SetDraining (s : State) : State :=
  mkState (role s) (connected s) (cnt s) (strs s) (sessions s) (agents s) (expected s) (agentTotals s)
    (routes s) (unrouted s) true (started s).

Definition SetConnected (fp : gostr) (now : Z) (s : State) : State :=
  upd true (<[connectedNano := now]> (cnt s)) (<[peerFP := Some fp]> (strs s)) s.

Definition SetDisconnected (s : State) : State :=
  upd false (cnt s) (<[peerFP := Some []]> (strs s)) s.

Definition Reconnect : State -> State := bump reconnects 1.
Definition HandshakeOK : State -> State := bump handshakeOK 1.
Definition HandshakeFail : State -> State := bump handshakeFail 1.
Definition HandshakeRejected : State -> State := bump handshakeRejected 1.
Definition HandshakeDuplicate : State -> State := bump handshakeDup 1.
Definition HandshakeCapped : State -> State := bump handshakeCapped 1.
Definition HeaderTimeout : State -> State := bump headerTimeouts 1.
Definition SetError (e : gostr) : State -> State := set_str lastError e.
Definition SetSelfFingerprint (fp : gostr) : State -> State := set_str selfFP fp.
Definition SetHTTP3Listen (addr : gostr) : State -> State := set_str http3Listen addr.

(** *** Routes of the state *)

Definition Route (p : gostr) (s : State) : State :=
  match routes s !! p with
  | Some _ => s
  | None => set_routes (<[p := newRouteStats p]> (routes s)) s
  end.

Definition on_route (f : RouteStats -> RouteStats) (r : option gostr) (s : State) : State :=
  match r with None => s | Some p => set_routes (alter f p (routes s)) s end.

Definition Failure (reason : Reason) (s : State) : State :=
  mkState (role s) (connected s) (cnt s) (strs s) (sessions s) (agents s) (expected s) (agentTotals s)
    (routes s) (inc reason (unrouted s)) (draining s) (started s).

(** One round of the high-water mark's loop on the values [n] (this open's
    count) and [m] (the mark it loaded): the mark, and whether the loop ends. *)
Definition raise_round (n m mark : Z) : Z * bool :=
  if n <=? m then (mark, true) else if mark =? m then (n, true) else (mark, false).

(** [streamOpened] when nothing else runs between its loads and its
    compare-and-swap. *)
Definition streamOpened (r : option gostr) (http3 : bool) (s : State) : State :=
  let s := on_route (opened http3) r s in
  let n := add64 (cnt s activeStreams) 1 in
  let s := bump totalStreams 1 (bump activeStreams 1 s) in
  let m := cnt s maxStreams in
  upd (connected s) (<[maxStreams := (raise_round n m m).1]> (cnt s)) (strs s) s.

Definition StreamOpened (r : option gostr) : State -> State := streamOpened r false.
Definition StreamOpenedHTTP3 (r : option gostr) : State -> State := streamOpened r true.

Definition StreamClosed (r : option gostr) (s : State) : State :=
  bump activeStreams (-1) (on_route closed r s).

(** ** Snapshots *)

Record AgentInfo := mkAgentInfo {
  Fingerprint : gostr;
  RemoteAddr : gostr;
  ai_ConnectedSince : Z;
  ai_ActiveStreams : Z;
  ai_Draining : bool;
}.

(** [ConnectedSince] is [None] while it is the zero time. *)
Record Snapshot := mkSnapshot {
  s_Role : gostr;
  TunnelConnected : bool;
  ConnectedSince : option Z;
  s_cnt : counter -> Z;
  s_BytesIn : Z;
  s_BytesOut : Z;
  LastError : gostr;
  SelfFingerprint : gostr;
  PeerFingerprint : gostr;
  HTTP3Listen : gostr;
  Agents : list AgentInfo;
}.

Definition loadStr (v : option gostr) : gostr := default [] v.

(** [routeSnapshots]; [order] is the order the map is visited in.  [sort.Slice]
    may leave equal elements in any order; as the order they come in is
    arbitrary too, a stable sort of any order gives every outcome. *)
Definition by_pattern (a b : RouteSnapshot) : bool := str_lt (Pattern a) (Pattern b).

Definition routeSnapshots (order : list gostr) (s : State) : list RouteSnapshot :=
  stable_sort by_pattern (omap (fun p => route_snapshot <$> routes s !! p) order).

Definition by_agent (a b : AgentInfo) : bool :=
  if beq (Fingerprint a) (Fingerprint b) then ai_ConnectedSince a <? ai_ConnectedSince b
  else str_lt (Fingerprint a) (Fingerprint b).

Definition agent_info (x : AgentSession) : AgentInfo :=
  mkAgentInfo (as_fp x) (as_addr x) (as_since x) (as_active x) (as_draining x).

Definition snapshot (aorder : list nat) (rs : list RouteSnapshot) (s : State) : Snapshot :=
  let '(i, o) := foldl (fun '(i, o) r => (add64 i (BytesIn r), add64 o (BytesOut r))) (0, 0) rs in
  mkSnapshot (role s) (connected s) (if connected s then Some (cnt s connectedNano) else None) (cnt s)
    i o (loadStr (strs s lastError)) (loadStr (strs s selfFP)) (loadStr (strs s peerFP))
    (loadStr (strs s http3Listen))
    (stable_sort by_agent (omap (fun a => agent_info <$> sessions s !! a) aorder)).

Record Detail := mkDetail {
  d_Snapshot : Snapshot;
  d_Routes : list RouteSnapshot;
  UnroutedFailures : reasonCounts;
  HeaderTimeouts : Z;
  d_Draining : bool;
  ExpectedAgents : list gostr;
  AgentStreams : gmap gostr Z;
  StartTime : Z;
}.

(** [Detail]; the orders are those the maps are visited in. *)
Definition detail (rorder : list gostr) (aorder : list nat) (eorder : list gostr) (s : State) : Detail :=
  let rs := routeSnapshots rorder s in
  mkDetail (snapshot aorder rs s) rs (unrouted s) (cnt s headerTimeouts) (draining s) (sort_strings eorder) (agentTotals s)
    (started s).

(** ** Concurrent opens *)

(** The high-water mark while opens run at the same time: [opening] are the
    opens past their [activeStreams.Add], each with its count and the mark it
    loaded last; [peak] is the most streams there ever were. *)
Record marks := mkMarks {
  act : Z;
  mark : Z;
  opening : gmap nat (Z * option Z);
  peak : Z;
}.

Inductive mark_event :=
| MAdd (id : nat)    (* activeStreams.Add(1) *)
| MLoad (id : nat)   (* maxStreams.Load *)
| MCas (id : nat)    (* the comparison and CompareAndSwap *)
| MClose.            (* StreamClosed *)

(** A machine holds fewer than 2^63 streams. *)
Definition mark_enabled (e : mark_event) (s : marks) : Prop :=
  match e with
  | MAdd id => opening s !! id = None /\ act s < max_int64
  | MLoad id => is_Some (opening s !! id)
  | MCas id => exists n m, opening s !! id = Some (n, Some m)
  | MClose => 0 < act s
  end.

Definition mark_exec (e : mark_event) (s : marks) : marks :=
  match e with
  | MAdd id =>
      let n := add64 (act s) 1 in
      mkMarks n (mark s) (<[id := (n, None)]> (opening s)) (Z.max (peak s) n)
  | MLoad id =>
      match opening s !! id with
      | Some (n, _) => mkMarks (act s) (mark s) (<[id := (n, Some (mark s))]> (opening s)) (peak s)
      | None => s
      end
  | MCas id =>
      match opening s !! id with
      | Some (n, Some m) =>
          let '(mk, done) := raise_round n m (mark s) in
          mkMarks (act s) mk
            (if done then delete id (opening s) else <[id := (n, None)]> (opening s)) (peak s)
      | _ => s
      end
  | MClose => mkMarks (add64 (act s) (-1)) (mark s) (opening s) (peak s)
  end.

Definition mark_step : marks -> marks -> Prop := steps mark_enabled mark_exec.
Definition no_marks : marks := mkMarks 0 0 ∅ 0.

Record marks_inv (s : marks) : Prop := {
  mi_act : 0 <= act s <= peak s;
  mi_mark : mark s <= peak s;
  mi_range : peak s <= max_int64;
  mi_open : forall id n m, opening s !! id = Some (n, m) -> n <= peak s /\ forall x, m = Some x -> x <= mark s;
  mi_peak : peak s = mark s \/ exists id m, opening s !! id = Some (peak s, m);
}.

Lemma add64_small x d : - 2 ^ 63 <= x + d < 2 ^ 63 -> add64 x d = x + d.
Proof. apply i64_small. Qed.

Lemma mark_add_inv id s : mark_enabled (MAdd id) s -> marks_inv s -> marks_inv (mark_exec (MAdd id) s).
Proof.
  intros [Hid Hlt] [Ha Hm Hr Ho Hp]. unfold max_int64 in *. simpl.
  rewrite add64_small by lia. split; unfold max_int64; simpl; [lia|lia|lia| |].
  - intros id' n m [[<- [= <- <-]]|[_ Hi]]%lookup_insert_Some; [split; [lia|done]|].
    destruct (Ho _ _ _ Hi). split; [lia|done].
  - destruct (decide (act s + 1 <= peak s)).
    + rewrite Z.max_l by lia. destruct Hp as [?|(id' & m & Hi)]; [by left|]. right. exists id', m.
      rewrite lookup_insert_ne; [done|]. intros ->. congruence.
    + rewrite Z.max_r by lia. right. exists id, None. by rewrite lookup_insert_eq.
Qed.

Lemma mark_load_inv id s : mark_enabled (MLoad id) s -> marks_inv s -> marks_inv (mark_exec (MLoad id) s).
Proof.
  intros [[n m] Hi] [Ha Hm Hr Ho Hp]. simpl. rewrite Hi. split; simpl; [done..| |].
  - intros id' n' m' [[<- [= <- <-]]|[_ Hi']]%lookup_insert_Some; [|by eapply Ho].
    split; [by eapply Ho|]. intros x [= <-]. lia.
  - destruct Hp as [?|(id' & m' & Hi')]; [by left|]. right. destruct (decide (id = id')) as [<-|Hne].
    + exists id. eexists. rewrite lookup_insert_eq. by simplify_eq.
    + exists id', m'. by rewrite lookup_insert_ne.
Qed.

Lemma mark_cas_inv id s : mark_enabled (MCas id) s -> marks_inv s -> marks_inv (mark_exec (MCas id) s).
Proof.
  intros (n & m & Hi) [Ha Hm Hr Ho Hp]. simpl. rewrite Hi.
  destruct (Ho _ _ _ Hi) as [Hn Hx]. specialize (Hx m eq_refl).
  assert (Hoth : forall id' v, opening s !! id' = Some v -> id' = id -> v = (n, Some m))
    by (intros; by simplify_eq).
  unfold raise_round. destruct (n <=? m) eqn:E1; b2p; [|destruct (mark s =? m) eqn:E2; b2p];
    (split; simpl; [done|lia|done| |]).
  - intros id' n' m' [_ Hi']%lookup_delete_Some. by eapply Ho.
  - destruct Hp as [?|(id' & m' & Hi')]; [by left|]. destruct (decide (id' = id)) as [->|Hne].
    + left. specialize (Hoth _ _ Hi' eq_refl). simplify_eq. lia.
    + right. exists id', m'. by rewrite lookup_delete_ne.
  - intros id' n' m' [_ Hi']%lookup_delete_Some. destruct (Ho _ _ _ Hi') as [? Hx']. split; [done|].
    intros x Ex. specialize (Hx' x Ex). lia.
  - destruct Hp as [?|(id' & m' & Hi')]; [left; lia|]. destruct (decide (id' = id)) as [->|Hne].
    + left. specialize (Hoth _ _ Hi' eq_refl). by simplify_eq.
    + right. exists id', m'. by rewrite lookup_delete_ne.
  - intros id' n' m' [[<- [= <- <-]]|[_ Hi']]%lookup_insert_Some; [done|by eapply Ho].
  - destruct Hp as [?|(id' & m' & Hi')]; [by left|]. right. destruct (decide (id' = id)) as [->|Hne].
    + exists id, None. rewrite lookup_insert_eq. specialize (Hoth _ _ Hi' eq_refl). by simplify_eq.
    + exists id', m'. by rewrite lookup_insert_ne.
Qed.

Lemma mark_exec_inv e s : mark_enabled e s -> marks_inv s -> marks_inv (mark_exec e s).
Proof.
  destruct e; [apply mark_add_inv|apply mark_load_inv|apply mark_cas_inv|].
  intros He [Ha Hm Hr Ho Hp]. unfold max_int64 in *. simpl in *.
  rewrite add64_small by lia. split; unfold max_int64; simpl; [lia|lia|lia|done|done].
Qed.

Lemma marks_reachable_inv s s' : rtc mark_step s s' -> marks_inv s -> marks_inv s'.
Proof.
  apply (steps_invariant mark_enabled mark_exec). apply mark_exec_inv.
Qed.

Lemma no_marks_inv : marks_inv no_marks.
Proof. split; simpl; [lia|lia|unfold max_int64; lia|by intros ??? ?%lookup_empty_Some|by left]. Qed.

(** ** Everything a route counts *)

Inductive route_op :=
| ROpened (http3 : bool) | RClosed | RHTTP3Request | RAgentWait | RFailure (r : Reason)
| RBytes | RIn (shard : nat) (n : Z) | ROut (shard : nat) (n : Z).

Definition route_exec (o : route_op) : RouteStats -> RouteStats :=
  match o with
  | ROpened h => opened h
  | RClosed => closed
  | RHTTP3Request => HTTP3Request
  | RAgentWait => AgentWait
  | RFailure r => route_Failure r
  | RBytes => fun s => (Bytes s).1
  | RIn k n => AddIn k n
  | ROut k n => AddOut k n
  end.

(** Bytes are counted on one of the route's shards. *)
Definition op_ok (o : route_op) : bool :=
  match o with RIn k _ | ROut k _ => (k <? byteShards)%nat | _ => true end.

(** What one operation adds to a figure of the snapshot. *)
Definition d_active o := match o with ROpened _ => 1 | RClosed => -1 | _ => 0 end.
Definition d_total o := match o with ROpened _ => 1 | _ => 0 end.
Definition d_h3 o := match o with ROpened true => 1 | _ => 0 end.
Definition d_req o := match o with RHTTP3Request => 1 | _ => 0 end.
Definition d_wait o := match o with RAgentWait => 1 | _ => 0 end.
Definition d_in o := match o with RIn _ n => n | _ => 0 end.
Definition d_out o := match o with ROut _ n => n | _ => 0 end.
Definition d_fail (r : Reason) o := match o with RFailure r' => if decide (r = r') then 1 else 0 | _ => 0 end.

(** [sum_of g l] adds up [g] over a list. *)
Definition sum_of {A} (g : A -> Z) : list A -> Z := foldr (fun x z => g x + z) 0.

Lemma sum_of_cons {A} (g : A -> Z) x l : sum_of g (x :: l) = g x + sum_of g l.
Proof. done. Qed.

Lemma sum_of_alter {A} (g : A -> Z) f n k l : (k < length l)%nat ->
  (forall x, i64 (g (f x)) = i64 (g x + n)) -> i64 (sum_of g (alter f k l)) = i64 (sum_of g l + n).
Proof.
  intros Hk Hf. revert k Hk. induction l as [|x l IH]; intros [|k] Hk; simpl length in Hk; [lia..| |].
  - change (alter f 0%nat (x :: l)) with (f x :: l). rewrite !sum_of_cons, <- i64_add_l, Hf, i64_add_l.
    f_equal. lia.
  - change (alter f (S k) (x :: l)) with (x :: alter f k l).
    rewrite !sum_of_cons, <- i64_add_r, IH, i64_add_r by lia. f_equal. lia.
Qed.

Lemma sum_of_alter_same {A} (g : A -> Z) f k l :
  (forall x, g (f x) = g x) -> sum_of g (alter f k l) = sum_of g l.
Proof.
  intros Hf. revert k. induction l as [|x l IH]; intros [|k]; [done..| |].
  - change (alter f 0%nat (x :: l)) with (f x :: l). by rewrite !sum_of_cons, Hf.
  - change (alter f (S k) (x :: l)) with (x :: alter f k l). by rewrite !sum_of_cons, IH.
Qed.

Lemma add64_i64 a d : add64 (i64 a) d = i64 (a + d).
Proof. apply i64_add_l. Qed.

Lemma i64_idem a : i64 (i64 a) = i64 a.
Proof. generalize (i64_add_l a 0). by rewrite !Z.add_0_r. Qed.

Lemma byteTotals_sum r : byteTotals r = (i64 (sum_of sh_in (bytes r)), i64 (sum_of sh_out (bytes r))).
Proof.
  unfold byteTotals. change (0, 0) with (i64 0, i64 0).
  assert (H : forall l a b, foldl (fun '(i, o) s => (add64 i (sh_in s), add64 o (sh_out s))) (i64 a, i64 b) l =
                     (i64 (a + sum_of sh_in l), i64 (b + sum_of sh_out l))).
  { induction l as [|s l IH]; intros a b; [cbn [foldl sum_of foldr]; by rewrite !Z.add_0_r|]. cbn [foldl].
    by rewrite !add64_i64, IH, !sum_of_cons, !Z.add_assoc. }
  apply H.
Qed.

(** The counters hold the given figures, modulo the width of an [int64]. *)
Record holds (r : RouteStats) (p : gostr) (a t h q w i o : Z) (f : Reason -> Z) : Prop := {
  h_pattern : pattern r = p;
  h_active : r_active r = i64 a;
  h_total : r_total r = i64 t;
  h_h3 : totalH3 r = i64 h;
  h_req : reqH3 r = i64 q;
  h_wait : waits r = i64 w;
  h_in : i64 (sum_of sh_in (bytes r)) = i64 i;
  h_out : i64 (sum_of sh_out (bytes r)) = i64 o;
  h_shards : length (bytes r) = byteShards;
  h_reasons : length (failures r) = numReasons;
  h_fail : forall x, (x < numReasons)%nat -> failures r !! x = Some (i64 (f x));
}.

Lemma inc_lookup r c x : length c = numReasons -> (x < numReasons)%nat ->
  inc r c !! x = (fun n => i64 (n + if decide (x = r) then 1 else 0)) <$> c !! x \/
  (x <> r /\ inc r c !! x = c !! x).
Proof.
  intros Hl Hx. unfold inc. destruct (r <? numReasons)%nat eqn:E.
  - destruct (decide (x = r)) as [->|Hne]; [left; by rewrite list_lookup_alter_eq|].
    right. by rewrite list_lookup_alter_ne.
  - b2p. right. split; [lia|done].
Qed.

Lemma holds_step o r p a t h q w i u f : op_ok o = true -> holds r p a t h q w i u f ->
  holds (route_exec o r) p (a + d_active o) (t + d_total o) (h + d_h3 o) (q + d_req o) (w + d_wait o)
    (i + d_in o) (u + d_out o) (fun x => f x + d_fail x o).
Proof.
  intros Ho [Hp Ha Ht Hh Hq Hw Hi Hu Hs Hr Hf].
  assert (Hadd : forall z z' d, z = i64 z' -> add64 z d = i64 (z' + d)) by (intros ??? ->; apply add64_i64).
  destruct o as [[] | | | |rs| |k n|k n]; simpl in Ho;
    (split; cbn [route_exec pattern r_active r_total totalH3 reqH3 waits bytes failures opened closed
       HTTP3Request AgentWait route_Failure Bytes AddIn AddOut fst d_active d_total d_h3 d_req d_wait d_in d_out d_fail];
     rewrite ?Z.add_0_r; auto; try (intros; rewrite Z.add_0_r; by auto)).
  - unfold inc. destruct (rs <? numReasons)%nat; [by rewrite length_alter|done].
  - intros x Hx. destruct (inc_lookup rs (failures r) x Hr Hx) as [->|[Hne ->]]; rewrite (Hf x Hx).
    + simpl. by rewrite i64_add_l.
    + rewrite decide_False by done. by rewrite Z.add_0_r.
  - b2p. rewrite (sum_of_alter _ _ n) by (lia || intros; simpl; unfold add64; by rewrite i64_idem).
    by rewrite <- i64_add_l, Hi, i64_add_l.
  - by rewrite sum_of_alter_same.
  - by rewrite length_alter.
  - by rewrite sum_of_alter_same.
  - b2p. rewrite (sum_of_alter _ _ n) by (lia || intros; simpl; unfold add64; by rewrite i64_idem).
    by rewrite <- i64_add_l, Hu, i64_add_l.
  - by rewrite length_alter.
Qed.

Lemma new_holds p : holds (newRouteStats p) p 0 0 0 0 0 0 0 (fun _ => 0).
Proof.
  split; try done. intros x Hx. unfold numReasons in Hx. do 11 (destruct x as [|x]; [done|]). lia.
Qed.

Lemma holds_run l : forall r p a t h q w i u f, forallb op_ok l = true -> holds r p a t h q w i u f ->
  holds (foldl (fun r o => route_exec o r) r l) p (a + sum_of d_active l) (t + sum_of d_total l)
    (h + sum_of d_h3 l) (q + sum_of d_req l) (w + sum_of d_wait l) (i + sum_of d_in l) (u + sum_of d_out l)
    (fun x => f x + sum_of (d_fail x) l).
Proof.
  induction l as [|o l IH]; intros r p a t h q w i u f Hok Hh.
  - destruct Hh. split; cbn [foldl sum_of foldr]; rewrite ?Z.add_0_r; auto.
    intros x Hx. rewrite Z.add_0_r. auto.
  - cbn [forallb] in Hok. apply andb_prop in Hok as [Ho Hl].
    destruct (IH _ _ _ _ _ _ _ _ _ _ Hl (holds_step _ _ _ _ _ _ _ _ _ _ _ Ho Hh)).
    split; cbn [foldl]; rewrite ?sum_of_cons, ?Z.add_assoc; auto.
    intros x Hx. rewrite sum_of_cons, Z.add_assoc. auto.
Qed.

(** ** The state under any operations *)

Inductive obs_event :=
| OSession (id : nat) (fp addr : gostr) (now : Z) | OAddAgent (id : nat) | ODisconnected (id : nat)
| OReserve (a : option nat) | OCommit (a : option nat) | OSessClosed (a : option nat) | OSessDraining (a : option nat)
| OExpect (allowed : gset gostr) | ODraining | OSetConnected (fp : gostr) (now : Z) | OSetDisconnected
| OBump (f : counter) | OSetStr (k : strval) (v : gostr) | ORoute (p : gostr) | ORouteOp (p : gostr) (o : route_op)
| OFailure (r : Reason) | OOpened (r : option gostr) (http3 : bool) | OClosed (r : option gostr).

Definition obs_exec (e : obs_event) : State -> State :=
  match e with
  | OSession id fp addr now => NewAgentSession id fp addr now
  | OAddAgent id => AddAgent id
  | ODisconnected id => AgentDisconnected id
  | OReserve a => Reserve a
  | OCommit a => Commit a
  | OSessClosed a => session_StreamClosed a
  | OSessDraining a => session_SetDraining a
  | OExpect l => ExpectAgents l
  | ODraining => SetDraining
  | OSetConnected fp now => SetConnected fp now
  | OSetDisconnected => SetDisconnected
  | OBump k => bump k 1
  | OSetStr k v => set_str k v
  | ORoute p => Route p
  | ORouteOp p o => on_route (route_exec o) (Some p)
  | OFailure r => Failure r
  | OOpened r h => streamOpened r h
  | OClosed r => StreamClosed r
  end.

Definition obs_run (es : list obs_event) (s : State) : State := foldl (fun s e => obs_exec e s) s es.

(** Every route is listed under its own pattern. *)
Definition routes_wf (s : State) : Prop := forall p r, routes s !! p = Some r -> pattern r = p.

Lemma alter_wf (f : RouteStats -> RouteStats) (p : gostr) (m : gmap gostr RouteStats) : (forall r, pattern (f r) = pattern r) ->
  (forall p r, m !! p = Some r -> pattern r = p) -> forall p' r, alter f p m !! p' = Some r -> pattern r = p'.
Proof.
  intros Hf Hm p' r [(<- & x & Hx & ->)|[? Hx]]%lookup_alter_Some; [rewrite Hf|]; by apply Hm.
Qed.

Lemma route_exec_pattern o r : pattern (route_exec o r) = pattern r.
Proof. by destruct o. Qed.

Lemma obs_exec_wf e s : routes_wf s -> routes_wf (obs_exec e s).
Proof.
  intros Hs. unfold routes_wf in *.
  destruct e as [| | |[]|[a|]|[]|[]| | | | | | |p|p o| |[p|] h|[p|]]; simpl; try exact Hs.
  - unfold Commit. simpl. by destruct (sessions s !! a).
  - unfold Route. destruct (routes s !! p) eqn:E; [exact Hs|]. simpl.
    intros p' r [[<- <-]|[_ H]]%lookup_insert_Some; [done|by apply Hs].
  - by apply alter_wf; [apply route_exec_pattern|].
  - by apply alter_wf.
  - by apply alter_wf.
Qed.

Lemma obs_run_wf es s : routes_wf s -> routes_wf (obs_run es s).
Proof. revert s. induction es as [|e es IH]; [done|]. intros s Hs. by apply IH, obs_exec_wf. Qed.

(** *** Sorting what a map's visit collected *)

Lemma sort_unique {A} (key : A -> gostr) (less : A -> A -> bool) (l l' : list A) :
  (forall x y, less x y = str_lt (key x) (key y)) ->
  (forall x y, x ∈ l -> y ∈ l -> key x = key y -> x = y) ->
  l ≡ₚ l' -> stable_sort less l = stable_sort less l'.
Proof.
  intros Hless Hinj Hp.
  assert (Hs : forall l, StronglySorted (fun x y => less y x = false) (stable_sort less l)).
  { intros k. apply stable_sort_sorted; [intros x y|intros x y z]; rewrite !Hless.
    - apply str_lt_asym.
    - apply str_lt_ntrans. }
  eapply StronglySorted_unique_strong; [|apply Hs|apply Hs|by rewrite !stable_sort_perm].
  intros x y Hx Hy. rewrite stable_sort_perm in Hx. rewrite stable_sort_perm, <- Hp in Hy.
  rewrite !Hless. intros. by apply Hinj, str_lt_total.
Qed.

Lemma sort_strict {A} (key : A -> gostr) (less : A -> A -> bool) (l : list A) :
  (forall x y, less x y = str_lt (key x) (key y)) -> NoDup (key <$> l) ->
  StronglySorted (fun a b => str_lt a b = true) (key <$> stable_sort less l).
Proof.
  intros Hless Hnd.
  assert (Hs : StronglySorted (fun x y => less y x = false) (stable_sort less l)).
  { apply stable_sort_sorted; [intros x y|intros x y z]; rewrite !Hless.
    - apply str_lt_asym.
    - apply str_lt_ntrans. }
  rewrite <- (stable_sort_perm less l) in Hnd. induction Hs as [|x k Hk IH Hx]; [constructor|].
  cbn in Hnd |- *. apply list.NoDup_cons in Hnd as [Hn Hnd]. constructor; [by apply IH|].
  rewrite Forall_fmap. rewrite list.Forall_forall in Hx |- *. intros y Hy. specialize (Hx y Hy). simpl in *.
  rewrite Hless in Hx. destruct (str_lt (key x) (key y)) eqn:E; [done|]. destruct Hn.
  rewrite (str_lt_total _ _ E Hx). apply (list_elem_of_fmap_2 key _ _ Hy).
Qed.

(** The copies a visit of the routes makes, before they are sorted. *)
Definition copies (order : list gostr) (s : State) : list RouteSnapshot :=
  omap (fun p => route_snapshot <$> routes s !! p) order.

Lemma snapshot_pattern r : Pattern (route_snapshot r) = pattern r.
Proof. unfold route_snapshot. by destruct (byteTotals r). Qed.

Lemma copies_patterns s order : routes_wf s -> (forall p, p ∈ order -> is_Some (routes s !! p)) ->
  Pattern <$> copies order s = order.
Proof.
  intros Hwf. induction order as [|p order IH]; intros Ho; [done|]. unfold copies. cbn [omap list_omap].
  destruct (Ho p) as [r Hr]; [by left|]. rewrite Hr. cbn.
  rewrite snapshot_pattern, (Hwf _ _ Hr). f_equal. apply IH. intros q Hq. apply Ho. by right.
Qed.

Lemma copies_elem s order x : x ∈ copies order s ->
  exists p r, p ∈ order /\ routes s !! p = Some r /\ x = route_snapshot r.
Proof.
  intros (p & Hp & Hx)%list_elem_of_omap. destruct (routes s !! p) as [r|] eqn:E; [|done].
  injection Hx as <-. by exists p, r.
Qed.

Lemma copies_inj s order x y : routes_wf s -> x ∈ copies order s -> y ∈ copies order s ->
  Pattern x = Pattern y -> x = y.
Proof.
  intros Hwf (p & r & _ & Hr & ->)%copies_elem (p' & r' & _ & Hr' & ->)%copies_elem.
  rewrite !snapshot_pattern, (Hwf _ _ Hr), (Hwf _ _ Hr'). intros ->. congruence.
Qed.

Lemma sum_bytes rs a b :
  foldl (fun '(i, o) r => (add64 i (BytesIn r), add64 o (BytesOut r))) (i64 a, i64 b) rs =
  (i64 (a + sum_of BytesIn rs), i64 (b + sum_of BytesOut rs)).
Proof.
  revert a b. induction rs as [|r rs IH]; intros a b; [cbn [foldl sum_of foldr]; by rewrite !Z.add_0_r|].
  cbn [foldl]. by rewrite !add64_i64, IH, !sum_of_cons, !Z.add_assoc.
Qed.

Lemma visited s order : order ≡ₚ elements (dom (routes s)) ->
  NoDup order /\ forall p, p ∈ order <-> is_Some (routes s !! p).
Proof.
  intros Ho. split; [rewrite Ho; apply NoDup_elements|]. intros p. by rewrite Ho, elem_of_elements, elem_of_dom.
Qed.

(** ** Properties *)

(** The concurrency high-water mark under concurrent opens and closes:
    however the atomic additions, loads and compare-and-swaps of [streamOpened]
    interleave, the mark never exceeds the most streams there were at one time,
    and once no open is in the middle of raising it, it is exactly that number
    (and at least the streams open now). *)
Theorem high_water_mark (s : marks) (Hs : rtc mark_step no_marks s) :
  mark s <= peak s /\ 0 <= act s <= peak s /\ (opening s = ∅ -> mark s = peak s).
Proof.
  destruct (marks_reachable_inv _ _ Hs no_marks_inv) as [Ha Hm Hr Ho Hp]. split_and!; [lia..|].
  intros He. destruct Hp as [?|(id & m & Hi)]; [done|]. rewrite He in Hi. by apply lookup_empty_Some in Hi.
Qed.

(** A route's counters: after any operations on a route (with the bytes
    counted on any of its shards), its snapshot has the net open streams, the
    opens, the HTTP/3 opens, the HTTP/3 requests, the waits, the failures of
    each reason and the bytes of each direction summed over the shards, each
    exactly, as an [int64] holds it. *)
Theorem route_counts (p : gostr) (ops : list route_op) (Hops : forallb op_ok ops = true) :
  let x := route_snapshot (foldl (fun r o => route_exec o r) (newRouteStats p) ops) in
  Pattern x = p /\ Active x = i64 (sum_of d_active ops) /\ Total x = i64 (sum_of d_total ops) /\
  TotalH3 x = i64 (sum_of d_h3 ops) /\ ReqH3 x = i64 (sum_of d_req ops) /\ Waits x = i64 (sum_of d_wait ops) /\
  BytesIn x = i64 (sum_of d_in ops) /\ BytesOut x = i64 (sum_of d_out ops) /\
  forall r, Get (Failures x) r = if (r <? numReasons)%nat then i64 (sum_of (d_fail r) ops) else 0.
Proof.
  destruct (holds_run ops _ _ _ _ _ _ _ _ _ _ Hops (new_holds p)). intros x. unfold x, route_snapshot.
  rewrite byteTotals_sum. cbn [Pattern Active Total TotalH3 ReqH3 Waits BytesIn BytesOut Failures].
  split_and!; try done. intros r. unfold Get. destruct (r <? numReasons)%nat eqn:E; [|done]. b2p.
  by rewrite h_fail0.
Qed.

(** The metrics view is stable: after any operations on a fresh state, and
    whatever order Go visits its maps in, [Detail] is the same; its routes are
    exactly the registered ones, each once, in strictly increasing order of
    pattern, and the byte totals are the sums over those very copies. *)
Theorem detail_stable (es : list obs_event) (rl : gostr) (now : Z) (ro ro' eo eo' : list gostr) (ao : list nat)
    (Hro : ro ≡ₚ elements (dom (routes (obs_run es (NewState rl now)))))
    (Hro' : ro' ≡ₚ elements (dom (routes (obs_run es (NewState rl now)))))
    (Heo : eo ≡ₚ elements (expected (obs_run es (NewState rl now))))
    (Heo' : eo' ≡ₚ elements (expected (obs_run es (NewState rl now)))) :
  let s := obs_run es (NewState rl now) in
  let d := detail ro ao eo s in
  d = detail ro' ao eo' s /\
  StronglySorted (fun a b => str_lt a b = true) (Pattern <$> d_Routes d) /\
  (forall x, x ∈ d_Routes d <-> exists p r, routes s !! p = Some r /\ x = route_snapshot r) /\
  s_BytesIn (d_Snapshot d) = i64 (sum_of BytesIn (d_Routes d)) /\
  s_BytesOut (d_Snapshot d) = i64 (sum_of BytesOut (d_Routes d)).
Proof.
  assert (Hwf : routes_wf (obs_run es (NewState rl now))) by by apply obs_run_wf.
  revert Hro Hro' Heo Heo' Hwf. generalize (obs_run es (NewState rl now)). intros s Hro Hro' Heo Heo' Hwf.
  destruct (visited _ _ Hro) as [Hnd Hin]. intros s0 d.
  assert (Hrs : routeSnapshots ro s = routeSnapshots ro' s).
  { apply (sort_unique Pattern); [done|intros ????; by eapply copies_inj|].
    apply omap_Permutation. by rewrite Hro, Hro'. }
  assert (Hes : sort_strings eo = sort_strings eo').
  { apply (sort_unique id); [done|done|]. by rewrite Heo, Heo'. }
  split_and!.
  - unfold d, detail, s0. by rewrite Hrs, Hes.
  - apply (sort_strict Pattern); [done|]. change (NoDup (Pattern <$> copies ro s)).
    rewrite copies_patterns; [done|done|]. intros p. apply Hin.
  - intros x. cbn [d detail d_Routes]. unfold routeSnapshots. rewrite stable_sort_perm. split.
    + intros (p & r & _ & Hr & ->)%copies_elem. by exists p, r.
    + intros (p & r & Hr & ->). apply list_elem_of_omap. exists p. rewrite Hin, Hr. split; [by eexists|done].
  - cbn [d detail d_Snapshot d_Routes]. unfold snapshot. change (0, 0) with (i64 0, i64 0). by rewrite sum_bytes.
  - cbn [d detail d_Snapshot d_Routes]. unfold snapshot. change (0, 0) with (i64 0, i64 0). by rewrite sum_bytes.
Qed.

(** ** Witnesses *)

Module ObsWitness.

Ltac go e tac := rtc_step e tac.

(** Two opens race: the second raises the mark first, the first loses its
    compare-and-swap, loads again and finds the mark high enough. *)
Definition raced : marks :=
  foldl (fun s e => mark_exec e s) no_marks
    [MAdd 1; MLoad 1; MAdd 2; MLoad 2; MCas 2; MCas 1; MLoad 1; MCas 1; MClose].

Lemma raced_reached : rtc mark_step no_marks raced.
Proof.
  go (MAdd 1) ltac:(by split). go (MLoad 1) ltac:(by eexists). go (MAdd 2) ltac:(by split).
  go (MLoad 2) ltac:(by eexists). go (MCas 2) ltac:(do 2 eexists; vm_compute; reflexivity).
  go (MCas 1) ltac:(do 2 eexists; vm_compute; reflexivity). go (MLoad 1) ltac:(by eexists).
  go (MCas 1) ltac:(do 2 eexists; vm_compute; reflexivity). go MClose ltac:(done). apply rtc_refl.
Qed.

Lemma high_water_mark_witness : mark raced = 2 /\ act raced = 1 /\ (opening raced = ∅ -> mark raced = peak raced).
Proof.
  split; [reflexivity|]. split; [reflexivity|].
  exact (proj2 (proj2 (high_water_mark raced raced_reached))).
Defined.

Definition ops : list route_op :=
  [ROpened true; RBytes; RIn 1 max_int64; ROpened false; RIn 2 1; ROut 15 7; RClosed; RFailure ReasonDialError].

Lemma route_counts_witness :
  Active (route_snapshot (foldl (fun r o => route_exec o r) (newRouteStats (bs "a.example")) ops)) = 1 /\
  BytesIn (route_snapshot (foldl (fun r o => route_exec o r) (newRouteStats (bs "a.example")) ops)) = - 2 ^ 63.
Proof.
  assert (H : forallb op_ok ops = true) by reflexivity.
  split; [exact (proj1 (proj2 (route_counts (bs "a.example") ops H)))|].
  exact (proj1 (proj2 (proj2 (proj2 (proj2 (proj2 (proj2 (route_counts (bs "a.example") ops H)))))))).
Defined.

Definition events : list obs_event := [ORoute (bs "b"); ORoute (bs "a"); OOpened (Some (bs "b")) true].

Lemma detail_stable_witness :
  detail [bs "b"; bs "a"] [] [] (obs_run events (NewState (bs "edge") 5)) =
  detail [bs "a"; bs "b"] [] [] (obs_run events (NewState (bs "edge") 5)).
Proof.
  refine (proj1 (detail_stable events (bs "edge") 5 [bs "b"; bs "a"] [bs "a"; bs "b"] [] [] [] _ _ _ _)).
  - apply (bool_decide_unpack _). vm_compute. exact I.
  - apply (bool_decide_unpack _). vm_compute. exact I.
  - reflexivity.
  - reflexivity.
Defined.
End ObsWitness.
