(* ===== verification/Agent.v ===== *)
(** * The agent ([internal/agent/agent.go], [internal/proxy/proxy.go])

    The reconnect loop with its backoff, one connection attempt, the shutdown
    of a session (the handoff to a replacement), and what the agent does with a
    stream from the edge: take it, read the preamble, route it, dial the
    service and pipe.  What the network does is given by the environment
    records; the counters are the operations of [Obs.State]. *)

From S2P Require Import Prelude GoStrings IO Tunnel Config Obs Route.
#[local] Open Scope Z_scope.

Definition millisecond : Z := 10 ^ 6.
Definition second : Z := 10 ^ 9.

(** [tunnel/accept.go]: the timing of the drain handshake. *)
Definition RetireWait : Z := 500 * millisecond.
Definition MinAckWait : Z := 2 * RetireWait.

Definition drainAckTimeout : Z := 3 * second.
Definition goAwayWait : Z := second.
Definition backlogQuiet : Z := 50 * millisecond.
Definition minHandoff : Z := 2 * MinAckWait.
Definition minServe : Z := 500 * millisecond.

(** ** The agent *)

(** [stats] is the key of the route's counters in the state. *)
Record agentRoute := mkRoute { service : gostr; stats : gostr }.

(** [onRetired] is the callback's name; [inflight] the wait group's counter.
    The once-only version warning is logging and left out. *)
Record Agent := mkAgent {
  cfg : AgentConfig;
  a_routes : Matcher agentRoute;
  version : gostr;
  a_draining : bool;
  inflight : Z;
  onRetired : option nat;
  retiredDone : bool;
}.

Inductive new_error := ErrMaterial | ErrEdgeAddress (e : addr_error).

Section agent.
Context `{Unicode} `{JSON}.

Definition agent_entries (c : AgentConfig) : list (Entry agentRoute) :=
  map (fun r => mkEntry (a_Host r) (mkRoute (Service r) (Normalize (a_Host r)))) (a_Routes c).

(** [New]; [material] is what loading the certificates gave, with the
    fingerprint of the agent's own certificate when it is known. *)
Definition New (c : AgentConfig) (material : option (option gostr)) (st : State)
    : result new_error (Agent * State) :=
  match material with
  | None => Err ErrMaterial
  | Some leaf =>
      match SplitHostPort (Address (Edge c)) with
      | Err e => Err (ErrEdgeAddress e)
      | Ok _ =>
          let st := match leaf with Some fp => SetSelfFingerprint fp st | None => st end in
          let st := foldl (fun st r => Obs.Route (Normalize (a_Host r)) st) st (a_Routes c) in
          Ok (mkAgent c (Build (agent_entries c)) (a_Version c) false 0 None false, st)
      end
  end.

(** ** Retiring *)

Definition set_retired (f : option nat) (done : bool) (a : Agent) : Agent :=
  mkAgent (cfg a) (a_routes a) (version a) (a_draining a) (inflight a) f done.

Definition SetOnRetired (f : nat) (a : Agent) : Agent * bool :=
  if retiredDone a then (a, false) else (set_retired (Some f) (retiredDone a) a, true).

(** [retired]: the callback it runs, if any. *)
Definition retired (a : Agent) : Agent * option nat :=
  if retiredDone a then (a, None) else (set_retired (onRetired a) true a, onRetired a).

Definition refuseNew (a : Agent) : Agent :=
  mkAgent (cfg a) (a_routes a) (version a) true (inflight a) (onRetired a) (retiredDone a).

(** [serveStream]: whether the stream is handled (on a goroutine of its own,
    counted as in flight) or refused (closed). *)
Definition serveStream (a : Agent) : Agent * bool :=
  if a_draining a then (a, false)
  else (mkAgent (cfg a) (a_routes a) (version a) (a_draining a) (inflight a + 1)
          (onRetired a) (retiredDone a), true).

(** The [inflight.Done] of the stream's goroutine. *)
Definition stream_done (a : Agent) : Agent :=
  mkAgent (cfg a) (a_routes a) (version a) (a_draining a) (inflight a - 1)
    (onRetired a) (retiredDone a).

(** ** Connecting *)

Inductive conn_error :=
| ErrDialEdge | ErrTLSHandshake | ErrPinMismatch (got want : gostr) | ErrYamux | ErrAcceptStream.

(** What one attempt meets: whether the dial, the handshake and the session
    setup succeed, the edge's fingerprint, and how long the tunnel stayed up. *)
Record meeting := mkMeeting {
  dials : bool;
  shakes : bool;
  edge_fp : gostr;
  session_ok : bool;
  stayed : Z;
}.

Inductive conn_effect :=
| CCloseRaw | CCloseConn | CServe | CCloseSession.

(** [connectOnce]; it always ends with an error, next to whether the tunnel
    counts as stable. *)
Definition connectOnce (a : Agent) (w : meeting) (now : Z) (st : State)
    : State * list conn_effect * bool * conn_error :=
  if negb (dials w) then (HandshakeFail st, [], false, ErrDialEdge)
  else if negb (shakes w) then (HandshakeFail st, [CCloseRaw], false, ErrTLSHandshake)
  else
    let pin := EdgeFingerprint (Edge (cfg a)) in
    if negb (beq pin []) && negb (beq pin (edge_fp w))
    then (HandshakeFail st, [CCloseConn], false, ErrPinMismatch (edge_fp w) pin)
    else
      let st := SetConnected (edge_fp w) now (HandshakeOK st) in
      let stable := MinBackoff (Config.Reconnect (cfg a)) <=? stayed w in
      if negb (session_ok w) then (st, [CCloseConn], stable, ErrYamux)
      else (st, [CServe; CCloseSession], stable, ErrAcceptStream).

(** [withJitter]; [rand.Int63n(d)] is the random source's [r] brought below
    [d]. *)
Definition withJitter (d r : Z) : Z := if d <=? 0 then d else i64 (d ÷ 2 + r mod d).

(** One round of [Run]: the attempt, when the context was found cancelled
    ([0] before the round, [1] after the attempt, [2] during the wait), the
    random number and the clock. *)
Record round := mkRound {
  meets : meeting;
  cancelled : option nat;
  jitter : Z;
  clock : Z;
  reason : gostr;
}.

Inductive run_event := RAttempt (e : conn_error) | RWait (d : Z).

(** [Run] over the rounds it meets; the boolean is whether it returned.  A
    list that runs out is an agent still running. *)
Fixpoint run_loop (a : Agent) (rs : list round) (backoff : Z) (st : State)
    : State * list run_event * bool :=
  match rs with
  | [] => (st, [], false)
  | r :: rs =>
      let min := MinBackoff (Config.Reconnect (cfg a)) in
      let max := MaxBackoff (Config.Reconnect (cfg a)) in
      match cancelled r with
      | Some O => (st, [], true)
      | c =>
          let '(st, _, stable, err) := connectOnce a (meets r) (clock r) st in
          match c with
          | Some (S O) => (st, [RAttempt err], true)
          | c =>
              let st := SetError (reason r) (SetDisconnected st) in
              let backoff := if stable then min else backoff in
              let wait := withJitter backoff (jitter r) in
              match c with
              | Some _ => (st, [RAttempt err; RWait wait], true)
              | None =>
                  let st := Obs.Reconnect st in
                  let backoff := i64 (backoff * 2) in
                  let backoff := if max <? backoff then max else backoff in
                  let '(st, l, fin) := run_loop a rs backoff st in
                  (st, RAttempt err :: RWait wait :: l, fin)
              end
          end
      end
  end.

(** [Run]: the callback of [retired] runs as it returns, if it has not run. *)
Definition Run (a : Agent) (rs : list round) (st : State) : State * list run_event * option (Agent * option nat) :=
  let '(st, l, fin) := run_loop a rs (MinBackoff (Config.Reconnect (cfg a))) st in
  (st, l, if fin then Some (retired a) else None).

(** ** Shutting a session down *)

Inductive shut_event :=
| SRefuseNew
| SRequestDrain (timeout : Z) (background : bool)
| SRetired
| SGoAway (bound : Z) (background : bool)
| SStopAccept
| SAwaitMain
| SServe (stream : nat)
| SRefuse (stream : nat)
| SDrain (d : Z)           (* drainStreamsFor *)
| SClose.

(** What the shutdown meets: the streams still queued, each with the time since
    the start when it is accepted, and the time since the start at the end. *)
Record shut_env := mkShut {
  v2 : bool;
  is_closed : bool;
  backlog : list (nat * Z);
  at_end : Z;
}.

(** The backlog loop. *)
Definition take_backlog (budget : Z) (q : list (nat * Z)) : list shut_event :=
  map (fun '(s, t) => if budget - t <? minServe then SRefuse s else SServe s) q.

Definition shutdownSession (budget : Z) (e : shut_env) : list shut_event :=
  let '(first, last) :=
    if negb (v2 e) then ([], [SRetired])
    else if (budget <=? 0) || is_closed e then ([SRetired], [])
    else if budget <? minHandoff then
      ([SRefuseNew; SRequestDrain budget true; SGoAway 0 true; SRetired], [])
    else
      ([SRequestDrain (Z.min drainAckTimeout (budget ÷ 2)) false; SRetired;
        SGoAway (Z.min goAwayWait (budget ÷ 4)) false; SStopAccept; SAwaitMain]
       ++ take_backlog budget (backlog e), []) in
  let remaining := budget - at_end e in
  let remaining := if (0 <? budget) && (remaining <=? 0) then millisecond else remaining in
  first ++ [SRefuseNew; SDrain remaining; SClose] ++ last.

(** ** Handling a stream *)

(** What a stream meets: whether the accept byte can be written, what the edge
    sends, whether a service can be dialled, and the writes of the two copies
    of [PipeProgress] in the order they happen ([true] towards the service). *)
Record stream_env := mkStreamEnv {
  accept_fails : bool;
  input : IO.stream;
  dial : gostr -> bool;
  writes : list (bool * Z);
}.

Inductive stream_effect :=
| WriteAccept
| ReadHead
| ErrorPage (code : Z) (why detail id : gostr)
| Dial (addr : gostr)
| Pipe (addr : gostr) (from : IO.stream)
| CloseStream.

Definition preamble_teardown (e : preamble_error) : bool :=
  match e with ErrPreambleRead e => IsTeardown e | _ => false end.

(** [progressWriter.Write] reports the bytes of a write, if any. *)
Definition progressWrite (p : gostr) (shard : nat) (st : State) (w : bool * Z) : State :=
  let '(into, n) := w in
  if 0 <? n then on_route (if into then AddIn shard n else AddOut shard n) (Some p) st else st.

(** [rt.stats.Bytes()] on the state. *)
Definition take_shard (p : gostr) (st : State) : State * nat :=
  match routes st !! p with
  | Some r => (on_route (fun r => (Bytes r).1) (Some p) st, (Bytes r).2)
  | None => (st, O)
  end.

Definition handleStream (a : Agent) (accept : bool) (w : stream_env) (st : State)
    : State * list stream_effect :=
  if accept && accept_fails w then (st, [WriteAccept; CloseStream])
  else
    let pre := (if accept then [WriteAccept] else []) ++ [ReadHead] in
    match ReadPreamble (input w) with
    | Err e =>
        (if preamble_teardown e then st else Obs.Failure ReasonPreambleError st, pre ++ [CloseStream])
    | Ok (p, rest) =>
        match Match (a_routes a) (Host p) with
        | None =>
            (Obs.Failure ReasonNoRoute st,
             pre ++ [ErrorPage 502 (bs "Bad Gateway") (bs "No backend for host") (ConnID p); CloseStream])
        | Some rt =>
            if negb (dial w (service rt)) then
              (on_route (route_Failure ReasonDialError) (Some (stats rt)) st,
               pre ++ [Dial (service rt);
                       ErrorPage 502 (bs "Bad Gateway") (bs "Backend unreachable") (ConnID p); CloseStream])
            else
              let st := StreamOpened (Some (stats rt)) st in
              let '(st, shard) := take_shard (stats rt) st in
              let st := foldl (progressWrite (stats rt) shard) st (writes w) in
              (StreamClosed (Some (stats rt)) st,
               pre ++ [Dial (service rt); Pipe (service rt) rest; CloseStream])
        end
    end.
End agent.

(** ** Backoff *)

(** Whether an attempt made a tunnel that stayed up for [min_backoff]. *)
Definition round_stable (a : Agent) (r : round) : bool :=
  let w := meets r in
  let pin := EdgeFingerprint (Edge (cfg a)) in
  dials w && shakes w && (beq pin [] || beq pin (edge_fp w)) &&
  (MinBackoff (Config.Reconnect (cfg a)) <=? stayed w).

Lemma connectOnce_spec a w now st st' l b e :
  connectOnce a w now st = (st', l, b, e) ->
  b = round_stable a (mkRound w None 0 0 []) /\
  (cnt st' handshakeOK, cnt st' handshakeFail) =
    (let up := dials w && shakes w &&
               (beq (EdgeFingerprint (Edge (cfg a))) [] || beq (EdgeFingerprint (Edge (cfg a))) (edge_fp w)) in
     if up then (add64 (cnt st handshakeOK) 1, cnt st handshakeFail)
     else (cnt st handshakeOK, add64 (cnt st handshakeFail) 1)).
Proof.
  unfold connectOnce, round_stable. cbn [meets].
  destruct (dials w); [|intros [= <- <- <- <-]; done].
  destruct (shakes w); [|intros [= <- <- <- <-]; done].
  destruct (beq (EdgeFingerprint (Edge (cfg a))) []); cbn [andb negb orb].
  - destruct (session_ok w); intros [= <- <- <- <-]; done.
  - destruct (beq _ (edge_fp w)); cbn [andb negb]; [destruct (session_ok w)|]; intros [= <- <- <- <-]; done.
Qed.

Lemma round_stable_meets a r : round_stable a (mkRound (meets r) None 0 0 []) = round_stable a r.
Proof. done. Qed.

(** How many rounds each wait is away from the last stable tunnel (or the
    start). *)
Fixpoint unstable_rounds (k : nat) (ss : list bool) : list nat :=
  match ss with
  | [] => []
  | s :: ss => let k := if s then O else k in k :: unstable_rounds (S k) ss
  end.

Fixpoint waits_of (l : list run_event) : list Z :=
  match l with
  | [] => []
  | RWait d :: l => d :: waits_of l
  | RAttempt _ :: l => waits_of l
  end.

(** The backoff after [k] unstable rounds. *)
Definition backoff_at (min max : Z) (k : nat) : Z := Z.min max (min * 2 ^ Z.of_nat k).

Lemma backoff_at_0 min max : min <= max -> backoff_at min max 0 = min.
Proof. unfold backoff_at. lia. Qed.

Definition jittered (min max : Z) (k : nat) (d : Z) : Prop :=
  let b := backoff_at min max k in b ÷ 2 <= d < b ÷ 2 + b.

Lemma backoff_double min max k : 0 < min <= max -> max <= 2 ^ 61 ->
  (let b := i64 (backoff_at min max k * 2) in if max <? b then max else b) = backoff_at min max (S k).
Proof.
  intros Hm Hx. unfold backoff_at.
  assert (Hp : 0 < 2 ^ Z.of_nat k) by lia.
  replace (2 ^ Z.of_nat (S k)) with (2 ^ Z.of_nat k * 2) by (rewrite Nat2Z.inj_succ, Z.pow_succ_r by lia; lia).
  set (q := 2 ^ Z.of_nat k) in *. assert (0 < min * q) by nia.
  rewrite i64_small by lia. cbn zeta.
  destruct (Z.ltb_spec max (Z.min max (min * q) * 2)); nia.
Qed.

Lemma withJitter_range min max k r : 0 < min <= max -> max <= 2 ^ 61 ->
  jittered min max k (withJitter (backoff_at min max k) r).
Proof.
  intros Hm Hx. unfold jittered, withJitter. set (b := backoff_at min max k).
  assert (Hb : 0 < b <= 2 ^ 61) by (unfold b, backoff_at; nia).
  destruct (Z.leb_spec b 0); [lia|]. pose proof (Z.mod_pos_bound r b ltac:(lia)).
  assert (0 <= b ÷ 2 <= b).
  { rewrite Z.quot_div_nonneg by lia. split; [apply Z.div_pos; lia|apply Z.div_le_upper_bound; lia]. }
  rewrite i64_small; lia.
Qed.

Lemma run_loop_waits a rs : forall k st,
  let min := MinBackoff (Config.Reconnect (cfg a)) in
  let max := MaxBackoff (Config.Reconnect (cfg a)) in
  0 < min <= max -> max <= 2 ^ 61 ->
  let l := waits_of (run_loop a rs (backoff_at min max k) st).1.2 in
  (length l <= length rs)%nat /\
  Forall2 (jittered min max) (take (length l) (unstable_rounds k (map (round_stable a) rs))) l.
Proof.
  induction rs as [|r rs IH]; intros k st min max Hm Hx; [by split|].
  cbn [run_loop map unstable_rounds]. fold min max.
  pose proof (backoff_at_0 min max ltac:(lia)) as Hmin.
  destruct (connectOnce a (meets r) (clock r) st) as [[[st1 l1] b] e] eqn:E.
  destruct (connectOnce_spec _ _ _ _ _ _ _ _ E) as [Hb _]. rewrite round_stable_meets in Hb. subst b.
  assert (Hk : (if round_stable a r then min else backoff_at min max k) =
               backoff_at min max (if round_stable a r then O else k)) by (by destruct (round_stable a r)).
  destruct (cancelled r) as [[|[|n]]|]; cbn [fst snd waits_of length].
  - split; [lia|constructor].
  - split; [lia|constructor].
  - rewrite Hk. split; [lia|]. cbn [take]. repeat constructor; by apply withJitter_range.
  - rewrite Hk, backoff_double by done.
    set (k' := if round_stable a r then O else k).
    specialize (IH (S k') (Obs.Reconnect (SetError (reason r) (SetDisconnected st1))) Hm Hx).
    fold min max in IH. cbn zeta in IH.
    destruct (run_loop a rs (backoff_at min max (S k')) _) as [[st2 l2] fin].
    cbn [fst snd waits_of length take] in *.
    destruct IH as [IH1 IH2]. split; [lia|]. constructor; [by apply withJitter_range|exact IH2].
Qed.

(** ** Shutdown run on the agent *)

(** The events that touch the agent's own state: streams it took, callbacks it
    ran. *)
Record shut_run := mkRun { on : Agent; served : list nat; ran : list nat }.

Definition shut_exec (r : shut_run) (e : shut_event) : shut_run :=
  match e with
  | SRefuseNew => mkRun (refuseNew (on r)) (served r) (ran r)
  | SRetired =>
      let '(a, f) := retired (on r) in
      mkRun a (served r) (ran r ++ match f with Some f => [f] | None => [] end)
  | SServe s =>
      let '(a, ok) := serveStream (on r) in
      mkRun a (if ok then served r ++ [s] else served r) (ran r)
  | _ => r
  end.

Definition shut_all (a : Agent) (l : list shut_event) : shut_run := foldl shut_exec (mkRun a [] []) l.

(** The queued streams there is still time to serve. *)
Definition in_time (budget : Z) (q : list (nat * Z)) : list nat :=
  omap (fun '(s, t) => if budget - t <? minServe then None else Some s) q.

Lemma backlog_exec budget q : forall r, a_draining (on r) = false ->
  let r' := foldl shut_exec r (take_backlog budget q) in
  served r' = served r ++ in_time budget q /\ ran r' = ran r /\ a_draining (on r') = false /\
  retiredDone (on r') = retiredDone (on r) /\ onRetired (on r') = onRetired (on r) /\
  inflight (on r') = inflight (on r) + Z.of_nat (length (in_time budget q)).
Proof.
  induction q as [|[s t] q IH]; intros r Hd; [split_and!; [by rewrite app_nil_r|done..|simpl; lia]|].
  unfold take_backlog, in_time. cbn [map foldl omap list_omap]. fold (take_backlog budget q) (in_time budget q).
  destruct (budget - t <? minServe).
  - by apply IH.
  - remember (shut_exec r (SServe s)) as r1 eqn:Hr1. unfold shut_exec, serveStream in Hr1. rewrite Hd in Hr1.
    destruct (IH r1) as (H1 & H2 & H3 & H4 & H5 & H6); [by rewrite Hr1|].
    cbn zeta. rewrite H1, H2, H3, H4, H5, H6, Hr1. simpl.
    split_and!; [by rewrite <- app_assoc|done..|lia].
Qed.

Lemma take_backlog_streams budget q :
  omap (fun e => match e with SServe s | SRefuse s => Some s | _ => None end) (take_backlog budget q) = map fst q.
Proof.
  induction q as [|[s t] q IH]; [done|]. unfold take_backlog. cbn [map omap list_omap fst].
  destruct (_ <? _); by rewrite <- IH.
Qed.

(** ** Streams *)

Section streams.
Context `{Unicode} `{JSON}.

(** The operations on its route's counters that a piped stream makes. *)
Definition write_ops (shard : nat) (ws : list (bool * Z)) : list route_op :=
  omap (fun '(into, n) => if 0 <? n then Some (if into : bool then RIn shard n else ROut shard n) else None) ws.

Definition pipe_ops (shard : nat) (ws : list (bool * Z)) : list route_op :=
  ROpened false :: RBytes :: write_ops shard ws ++ [RClosed].

(** The bytes written in one direction. *)
Definition bytes_written (into : bool) (ws : list (bool * Z)) : Z :=
  sum_of (fun '(d, n) => if Bool.eqb d into && (0 <? n) then n else 0) ws.

Abbreviation route_run := (foldl (fun r o => route_exec o r)).

Lemma writes_routes p shard ws : forall st, 
  routes (foldl (progressWrite p shard) st ws) = alter (fun r => route_run r (write_ops shard ws)) p (routes st) /\
  cnt (foldl (progressWrite p shard) st ws) = cnt st /\
  unrouted (foldl (progressWrite p shard) st ws) = unrouted st.
Proof.
  induction ws as [|[into n] ws IH]; intros st.
  - split_and!; [|done..]. symmetry. apply alter_id. done.
  - unfold write_ops. cbn [foldl omap list_omap]. fold (write_ops shard ws).
    destruct (IH (progressWrite p shard st (into, n))) as (-> & -> & ->). unfold progressWrite.
    destruct (0 <? n); [|done]. split_and!; [|done..]. simpl. rewrite alter_alter_eq. by destruct into.
Qed.

Lemma pipe_ops_sums shard ws : (shard < byteShards)%nat ->
  forallb op_ok (pipe_ops shard ws) = true /\
  sum_of d_active (pipe_ops shard ws) = 0 /\ sum_of d_total (pipe_ops shard ws) = 1 /\
  sum_of d_in (pipe_ops shard ws) = bytes_written true ws /\
  sum_of d_out (pipe_ops shard ws) = bytes_written false ws /\
  forall r, sum_of (d_fail r) (pipe_ops shard ws) = 0.
Proof.
  intros Hs. apply Nat.ltb_lt in Hs. unfold pipe_ops, bytes_written.
  assert (Hw : forall tail, 
    forallb op_ok (write_ops shard ws ++ tail) = forallb op_ok tail /\
    sum_of d_active (write_ops shard ws ++ tail) = sum_of d_active tail /\
    sum_of d_total (write_ops shard ws ++ tail) = sum_of d_total tail /\
    sum_of d_in (write_ops shard ws ++ tail) = bytes_written true ws + sum_of d_in tail /\
    sum_of d_out (write_ops shard ws ++ tail) = bytes_written false ws + sum_of d_out tail /\
    forall r, sum_of (d_fail r) (write_ops shard ws ++ tail) = sum_of (d_fail r) tail).
  { intros tail. unfold bytes_written. induction ws as [|[[] n] ws' IH]; [done|..];
      unfold write_ops; cbn [omap list_omap]; fold (write_ops shard ws'); rewrite !sum_of_cons;
      destruct IH as (I1 & I2 & I3 & I4 & I5 & I6); destruct (0 <? n) eqn:E; cbn [app forallb op_ok Bool.eqb andb];
      rewrite ?sum_of_cons, ?Hs; cbn [andb d_active d_total d_in d_out];
      (split_and!; [done|lia..|]); intros r; rewrite ?sum_of_cons; cbn [d_fail]; rewrite I6; lia. }
  destruct (Hw [RClosed]) as (W1 & W2 & W3 & W4 & W5 & W6).
  cbn [forallb op_ok andb]. rewrite !sum_of_cons, W1, W2, W3, W4, W5. fold (bytes_written true ws) (bytes_written false ws).
  split_and!; [done|simpl; lia..|]. intros r. rewrite !sum_of_cons, W6. done.
Qed.

Lemma Bytes_shard r : ((Bytes r).2 < byteShards)%nat.
Proof.
  unfold Bytes, byteShards. simpl. pose proof (Z.mod_pos_bound (u32 (next r + 1)) 16). lia.
Qed.
End streams.

Lemma run_loop_cancelled a rs : forall b st, (run_loop a rs b st).2 = true ->
  existsb (fun r => bool_decide (is_Some (cancelled r))) rs = true.
Proof.
  induction rs as [|r rs IH]; intros b st; [done|]. cbn [run_loop existsb].
  destruct (cancelled r) as [n|] eqn:Ec; [done|].
  destruct (connectOnce a (meets r) (clock r) st) as [[[st1 l1] stable] e].
  set (b' := if _ <? _ then _ else _). set (st2 := Obs.Reconnect _). specialize (IH b' st2).
  destruct (run_loop a rs b' st2) as [[st3 l3] fin]. exact IH.
Qed.

Lemma shut_retired x s c : retiredDone x = false ->
  shut_exec (mkRun x s c) SRetired = mkRun (set_retired (onRetired x) true x) s (c ++ option_list (onRetired x)).
Proof. intros Hx. unfold shut_exec, retired. cbn [on]. rewrite Hx. by destruct (onRetired x). Qed.

Lemma handoff_run a budget q aw gw d : a_draining a = false -> retiredDone a = false ->
  let r := shut_all a ([SRequestDrain aw false; SRetired; SGoAway gw false; SStopAccept; SAwaitMain]
                       ++ take_backlog budget q ++ [SRefuseNew; SDrain d; SClose]) in
  a_draining (on r) = true /\ retiredDone (on r) = true /\ ran r = option_list (onRetired a) /\
  served r = in_time budget q /\ inflight (on r) = inflight a + Z.of_nat (length (in_time budget q)).
Proof.
  intros Hd Hr. unfold shut_all. rewrite !foldl_app. cbn [foldl].
  change (shut_exec (mkRun a [] []) (SRequestDrain aw false)) with (mkRun a [] []). rewrite shut_retired by done.
  set (r1 := mkRun (set_retired (onRetired a) true a) [] ([] ++ option_list (onRetired a))).
  change (shut_exec (shut_exec (shut_exec r1 _) _) _) with r1.
  destruct (backlog_exec budget q r1) as (H1 & H2 & H3 & H4 & H5 & H6); [done|].
  cbn [shut_exec on ran served refuseNew a_draining retiredDone inflight]. cbn zeta in *.
  rewrite H1, H2, H4, H6. done.
Qed.

(** The drain's bound is positive and within the budget. *)
Lemma drain_bound budget t : 0 <= t ->
  let d := if (0 <? budget) && (budget - t <=? 0) then millisecond else budget - t in
  d <= Z.max budget millisecond /\ (0 < budget -> 0 < d).
Proof.
  intros Ht d. unfold d. destruct (0 <? budget) eqn:E1, (budget - t <=? 0) eqn:E2; b2p; cbn [andb];
    unfold millisecond; lia.
Qed.

Lemma handoff_waits budget : minHandoff <= budget ->
  let aw := Z.min drainAckTimeout (budget ÷ 2) in
  let gw := Z.min goAwayWait (budget ÷ 4) in
  RetireWait < MinAckWait <= aw /\ 4 * (aw + gw) <= 3 * budget.
Proof.
  intros Hb aw gw. unfold aw, gw.
  unfold minHandoff, MinAckWait, RetireWait, drainAckTimeout, goAwayWait, second, millisecond in *. rewrite !Z.quot_div_nonneg by lia.
  pose proof (Z.div_mod budget 2 ltac:(lia)). pose proof (Z.mod_pos_bound budget 2 ltac:(lia)).
  pose proof (Z.div_mod budget 4 ltac:(lia)). pose proof (Z.mod_pos_bound budget 4 ltac:(lia)). lia.
Qed.

(** ** Properties *)

(** The reconnect schedule: with [0 < min_backoff <= max_backoff], the wait
    after each attempt is within the jitter of [min_backoff * 2^k] capped at
    [max_backoff], where [k] counts the attempts since the last tunnel that
    stayed up for [min_backoff] (or the start); so a tunnel the edge keeps
    refusing is retried ever more slowly, and a real session resets the
    schedule.  [Run] returns only when it is cancelled, and then the handoff
    callback has run. *)
Theorem backoff_schedule (a : Agent) (rs : list round) (st : State)
    (Hmin : 0 < MinBackoff (Config.Reconnect (cfg a)) <= MaxBackoff (Config.Reconnect (cfg a)))
    (Hmax : MaxBackoff (Config.Reconnect (cfg a)) <= 2 ^ 61) :
  let '(st', l, ret) := Run a rs st in
  (length (waits_of l) <= length rs)%nat /\
  Forall2 (jittered (MinBackoff (Config.Reconnect (cfg a))) (MaxBackoff (Config.Reconnect (cfg a))))
    (take (length (waits_of l)) (unstable_rounds 0 (map (round_stable a) rs))) (waits_of l) /\
  (forall a' f, ret = Some (a', f) -> retiredDone a' = true /\ existsb (fun r => bool_decide (is_Some (cancelled r))) rs = true).
Proof.
  pose proof (run_loop_waits a rs 0 st Hmin Hmax) as Hw. cbn zeta in Hw.
  rewrite backoff_at_0 in Hw by lia. unfold Run.
  pose proof (run_loop_cancelled a rs (MinBackoff (Config.Reconnect (cfg a))) st) as Hc.
  destruct (run_loop a rs _ st) as [[st' l] fin]. cbn [fst snd] in *. destruct Hw as [H1 H2].
  split_and!; [done|done|]. intros a' f. destruct fin; [|done]. intros [= E].
  split; [|by apply Hc]. unfold retired in E. destruct (retiredDone a) eqn:E'; by simplify_eq/=.
Qed.

(** [C21] A graceful shutdown: whatever the session, new streams are refused only
    before the drain, the drain comes before the session is closed, and the
    handoff callback runs exactly once.  With an edge that does not support the
    handoff no drain request and no GoAway is sent and the callback waits for
    the close; with one that does and time for it, the agent asks to be taken
    out of the pool first (waiting longer than the edge does, and leaving a
    quarter of the budget), then refuses further streams, then takes or refuses
    each stream still queued, in order, serving exactly those with enough time
    left, and only then drains, within the budget. *)
Theorem shutdown_handoff (a : Agent) (e : shut_env)
    (Hd : a_draining a = false) (Hr : retiredDone a = false) (Ht : 0 <= at_end e) :
  let budget := a_Drain (cfg a) in
  let l := shutdownSession budget e in
  let r := shut_all a l in
  (exists l1 d l2, l = l1 ++ [SRefuseNew; SDrain d; SClose] ++ l2 /\ d <= Z.max budget millisecond /\
     (0 < budget -> 0 < d)) /\
  a_draining (on r) = true /\ retiredDone (on r) = true /\ ran r = option_list (onRetired a) /\
  (v2 e = false -> exists d, l = [SRefuseNew; SDrain d; SClose; SRetired]) /\
  (v2 e = true -> is_closed e = false -> minHandoff <= budget -> exists aw gw d,
     l = [SRequestDrain aw false; SRetired; SGoAway gw false; SStopAccept; SAwaitMain]
         ++ take_backlog budget (backlog e) ++ [SRefuseNew; SDrain d; SClose] /\
     RetireWait < MinAckWait <= aw /\ 4 * (aw + gw) <= 3 * budget /\ 0 < d <= budget /\
     omap (fun e => match e with SServe s | SRefuse s => Some s | _ => None end) l = map fst (backlog e) /\
     served r = in_time budget (backlog e) /\
     inflight (on r) = inflight a + Z.of_nat (length (in_time budget (backlog e)))).
Proof.
  intros budget l r. pose proof (drain_bound budget (at_end e) Ht) as Hdr. cbn zeta in Hdr.
  unfold r, l, shutdownSession. revert Hdr. set (d := if (0 <? budget) && _ then _ else _). intros Hdr.
  destruct (v2 e); cbn [negb].
  2: { change (shut_all a _) with (shut_exec (mkRun (refuseNew a) [] []) SRetired). rewrite shut_retired by done.
       split_and!; [by exists [], d, [SRetired]|done..|by exists d|done]. }
  destruct ((budget <=? 0) || is_closed e) eqn:Ec.
  { unfold shut_all. cbn [app foldl]. rewrite shut_retired by done.
    split_and!; [by exists [SRetired], d, []|done..|]. intros _ Hcl Hb.
    unfold minHandoff, MinAckWait, RetireWait, millisecond in Hb. rewrite Hcl, orb_false_r in Ec. b2p. lia. }
  destruct (budget <? minHandoff) eqn:Eh; b2p.
  { match goal with |- context [shut_all a ?l] =>
      change (shut_all a l) with
        (shut_exec (shut_exec (mkRun (refuseNew a) [] []) SRetired) SRefuseNew) end.
    rewrite shut_retired by done.
    split_and!; [by eexists [_;_;_;_], d, []|done..|]. intros. lia. }
  rewrite app_nil_r, <- app_assoc.
  destruct (handoff_run a budget (backlog e) (Z.min drainAckTimeout (budget ÷ 2)) (Z.min goAwayWait (budget ÷ 4)) d Hd Hr)
    as (H1 & H2 & H3 & H4 & H5).
  split_and!; [|done..|]; [eexists (_ ++ _), d, []; split; [by rewrite <- app_assoc|done]|].
  intros _ _ Hb. do 3 eexists. destruct (handoff_waits budget Hb) as [[Ha Hb'] Hc].
  assert (0 < d <= budget) by (unfold minHandoff, MinAckWait, RetireWait, millisecond in *; lia).
  split_and!; [reflexivity|done|done|done|lia|lia| |done|done].
  by rewrite !omap_app, take_backlog_streams, app_nil_r.
Qed.

Section stream_properties.
Context `{Unicode} `{JSON}.

(** What a piped stream leaves on the counters. *)
Lemma pipe_counts key w st r : routes st !! key = Some r ->
  let st1 := (take_shard key (StreamOpened (Some key) st)).1 in
  let k := (take_shard key (StreamOpened (Some key) st)).2 in
  let st' := StreamClosed (Some key) (foldl (progressWrite key k) st1 (writes w)) in
  (k < byteShards)%nat /\
  routes st' = <[key := foldl (fun r o => route_exec o r) r (pipe_ops k (writes w))]> (routes st) /\
  cnt st' activeStreams = i64 (cnt st activeStreams) /\
  cnt st' totalStreams = add64 (cnt st totalStreams) 1 /\ unrouted st' = unrouted st.
Proof.
  intros Hr. unfold take_shard.
  assert (Ho : routes (StreamOpened (Some key) st) = alter (opened false) key (routes st)) by done.
  rewrite Ho, lookup_alter_eq, Hr. cbn [fst snd fmap option_fmap option_map].
  set (k := (Bytes (opened false r)).2). set (st1 := on_route _ _ _).
  assert (H1 : routes st1 = alter (fun r => (Bytes r).1) key (alter (opened false) key (routes st))) by done.
  destruct (writes_routes key k (writes w) st1) as (W1 & W2 & W3).
  split_and!; [apply Bytes_shard| | | |by simpl; rewrite W3].
  - unfold StreamClosed, bump, upd. cbn [routes on_route set_routes]. rewrite W1, H1, !alter_alter_eq.
    apply map_eq. intros q. destruct (decide (q = key)) as [->|Hne].
    + rewrite lookup_alter_eq, lookup_insert_eq, Hr. cbn [fmap option_fmap option_map]. f_equal.
      unfold pipe_ops. cbn [foldl]. by rewrite foldl_app.
    + by rewrite lookup_alter_ne, lookup_insert_ne by done.
  - unfold StreamClosed, bump, upd. cbn [cnt on_route set_routes]. rewrite W2.
    change (add64 (add64 (cnt st activeStreams) 1) (-1) = i64 (cnt st activeStreams)).
    unfold add64. rewrite i64_add_l. f_equal. lia.
  - unfold StreamClosed, bump, upd. cbn [cnt on_route set_routes]. rewrite W2. done.
Qed.

(** [C12] A request reaches the service of its route: on a stream that starts with
    the edge's preamble, the agent takes the stream before it reads anything,
    dials the service of the route that ranks highest among those covering the
    preamble's host, and pipes exactly the bytes after the preamble to it;
    when that service cannot be dialled the client gets a 502 and the route one
    [dial_error].  Either way the stream is closed last, the route's gauge is
    back where it was and only that route's counters change; a piped stream
    counts once, with the bytes written in each direction.  A host that no
    route covers gets a 502 and counts as one unrouted [no_route], and nothing
    is dialled. *)
Theorem agent_serves_request (c : AgentConfig) (a : Agent) (st : State) (accept : bool) (w : stream_env)
    (p : Preamble) (frame rest : gostr) (e : error)
    (Ha : a_routes a = Build (agent_entries c))
    (Huniq : NoDup (map (fun x => classify (Pattern x)) (agent_entries c)))
    (Hp : ascii_preamble p = true) (Henc : EncodePreamble p = Ok frame)
    (Hin : input w = mkStream (frame ++ rest) e) (Hacc : accept && accept_fails w = false) :
  let '(st', l) := handleStream a accept w st in
  let pre := (if accept then [WriteAccept] else []) ++ [ReadHead] in
  (forall ent r, best (agent_entries c) (Normalize (Host p)) ent -> routes st !! stats (Value ent) = Some r ->
    let addr := service (Value ent) in
    exists ops, routes st' = <[stats (Value ent) := foldl (fun r o => route_exec o r) r ops]> (routes st) /\
      unrouted st' = unrouted st /\ forallb op_ok ops = true /\ sum_of d_active ops = 0 /\
      if dial w addr then
        l = pre ++ [Dial addr; Pipe addr (mkStream rest e); CloseStream] /\
        sum_of d_total ops = 1 /\ sum_of d_in ops = bytes_written true (writes w) /\
        sum_of d_out ops = bytes_written false (writes w) /\ (forall x, sum_of (d_fail x) ops = 0) /\
        cnt st' activeStreams = i64 (cnt st activeStreams) /\
        cnt st' totalStreams = add64 (cnt st totalStreams) 1
      else
        l = pre ++ [Dial addr; ErrorPage 502 (bs "Bad Gateway") (bs "Backend unreachable") (ConnID p); CloseStream] /\
        ops = [RFailure ReasonDialError] /\ cnt st' = cnt st) /\
  ((forall x, x ∈ agent_entries c -> covers (classify (Pattern x)) (Normalize (Host p)) = false) ->
    st' = Obs.Failure ReasonNoRoute st /\
    l = pre ++ [ErrorPage 502 (bs "Bad Gateway") (bs "No backend for host") (ConnID p); CloseStream]).
Proof.
  unfold handleStream. rewrite Hacc, Hin, (proj1 (ReadPreamble_frame p frame rest e Hp Henc)), Ha.
  destruct (Match (Build (agent_entries c)) (Host p)) as [rt|] eqn:Em.
  - assert (Hent : forall ent, best (agent_entries c) (Normalize (Host p)) ent -> Value ent = rt).
    { intros ent Hb. pose proof (match_best _ _ _ Huniq Hb). congruence. }
    destruct (dial w (service rt)) eqn:Ed; cbn [negb].
    + destruct (take_shard (stats rt) (StreamOpened (Some (stats rt)) st)) as [st1 k] eqn:Et.
      split; [|intros Hn%match_uncovered; congruence].
      intros ent r Hb Hr. cbn zeta. rewrite (Hent _ Hb) in *. rewrite Ed.
      destruct (pipe_counts (stats rt) w st r Hr) as (Hk & H1 & H2 & H3 & H4). rewrite Et in *.
      cbn [fst snd] in *. destruct (pipe_ops_sums k (writes w) Hk) as (S1 & S2 & S3 & S4 & S5 & S6).
      exists (pipe_ops k (writes w)). by split_and!.
    + split; [|intros Hn%match_uncovered; congruence].
      intros ent r Hb Hr. cbn zeta. rewrite (Hent _ Hb) in *. rewrite Ed.
      exists [RFailure ReasonDialError]. split_and!; try done.
      simpl. apply map_eq. intros q. destruct (decide (q = stats rt)) as [->|Hne].
      * by rewrite lookup_alter_eq, lookup_insert_eq, Hr.
      * by rewrite lookup_alter_ne, lookup_insert_ne.
  - split; [|done]. intros ent r Hb. by rewrite (match_best _ _ _ Huniq Hb) in Em.
Qed.
End stream_properties.

(** ** Witnesses *)

Module AgentWitness.
#[local] Existing Instance ascii_only.
#[local] Existing Instance TunnelWitness.no_json.

Definition conf : AgentConfig :=
  mkAgentConfig (mkEdgeRef (bs "edge:7443") (bs "ca") (bs "crt") (bs "key") (bs "SHA256:E") [])
    [mkAgentRoute (bs "a.example") (bs "127.0.0.1:3000"); mkAgentRoute (bs "*.example") (bs "127.0.0.1:4000")]
    (mkReconnect second (3 * second)) (8 * second) (mkLog [] []) (mkAdmin []) (mkMetrics []) [].

Definition started : Agent * State :=
  match New conf (Some (Some (bs "SHA256:A"))) (NewState (bs "agent") 0) with
  | Ok x => x
  | Err _ => (mkAgent conf (mkMatcher ∅ [] None) [] false 0 None false, NewState [] 0)
  end.

Definition meet (stays : Z) : round := mkRound (mkMeeting true true (bs "SHA256:E") true stays) None 7 0 [].
Definition rounds : list round :=
  [meet 0; meet 0; meet 0; meet (5 * second);
   mkRound (mkMeeting false true [] true 0) (Some 1%nat) 0 0 []].

Lemma backoff_schedule_witness :
  map (fun d => d ÷ millisecond) (waits_of (Run started.1 rounds started.2).1.2) = [500; 1000; 1500; 500] /\
  Forall2 (jittered second (3 * second)) [0; 1; 2; 0]%nat (waits_of (Run started.1 rounds started.2).1.2).
Proof.
  split; [vm_compute; reflexivity|].
  assert (H1 : 0 < second <= 3 * second) by (vm_compute; split; [reflexivity|discriminate]).
  assert (H2 : 3 * second <= 2 ^ 61) by (vm_compute; discriminate).
  exact (proj1 (proj2 (backoff_schedule started.1 rounds started.2 H1 H2))).
Defined.

Definition leaving : Agent :=
  mkAgent conf (a_routes started.1) [] false 2 (Some 9%nat) false.
Definition queue : shut_env := mkShut true false [(1%nat, second); (2%nat, 7800 * millisecond)] (7900 * millisecond).

Lemma shutdown_handoff_witness :
  served (shut_all leaving (shutdownSession (8 * second) queue)) = [1%nat] /\
  ran (shut_all leaving (shutdownSession (8 * second) queue)) = [9%nat].
Proof.
  split; [vm_compute; reflexivity|].
  refine (proj1 (proj2 (proj2 (proj2 (shutdown_handoff leaving queue eq_refl eq_refl _))))).
  vm_compute. discriminate.
Defined.

Definition request : Preamble := mkPreamble (bs "id1") (bs "1.2.3.4:5") (bs "A.example:443") (bs "v1").
Definition framed : gostr := match EncodePreamble request with Ok f => f | Err _ => [] end.
Definition arrives : stream_env :=
  mkStreamEnv false (mkStream (framed ++ bs "GET /") [EOF]) (fun _ => true) [(true, 5); (false, 100); (true, 0)].

Lemma agent_serves_request_witness :
  exists ops, routes (handleStream started.1 true arrives started.2).1 =
    <[bs "a.example" := foldl (fun r o => route_exec o r) (newRouteStats (bs "a.example")) ops]> (routes started.2) /\
    sum_of d_in ops = 5 /\ sum_of d_out ops = 100.
Proof.
  assert (Huniq : NoDup (map (fun x => classify (Pattern x)) (agent_entries conf)))
    by (apply (bool_decide_unpack _); vm_compute; exact I).
  assert (Henc : EncodePreamble request = Ok framed) by (vm_compute; reflexivity).
  pose proof (agent_serves_request conf started.1 started.2 true arrives request framed (bs "GET /") [EOF]
    eq_refl Huniq eq_refl Henc eq_refl eq_refl) as Hserve.
  destruct (handleStream started.1 true arrives started.2) as [st' l] eqn:E. destruct Hserve as [Hbest _].
  destruct (Hbest (mkEntry (bs "a.example") (mkRoute (bs "127.0.0.1:3000") (bs "a.example")))
    (newRouteStats (bs "a.example"))) as (ops & H1 & _ & _ & _ & _ & _ & H2 & H3 & _).
  - split; [apply (list_elem_of_lookup_2 _ 0%nat); vm_compute; reflexivity|]. split; [vm_compute; reflexivity|].
    intros x Hx. repeat (apply elem_of_cons in Hx as [->|Hx]; [vm_compute; auto|]). by apply elem_of_nil in Hx.
  - vm_compute. reflexivity.
  - exists ops. split; [exact H1|]. split; [exact H2|exact H3].
Defined.
End AgentWitness.
