(* ===== verification/Metrics.v ===== *)
(** * The metrics text ([internal/metrics/expfmt.go], [collect.go])

    The Prometheus families collected from a state's detail, their encoding,
    and the two readers a probe uses on such a text.  A [float64] is one of its
    special values, a whole number or another one; how [strconv.FormatFloat]
    spells the numbers that are not printed as integers is the class
    [FloatFormat]. *)

From stdpp Require Import pretty.
From S2P Require Import Prelude GoStrings Obs.
#[local] Open Scope Z_scope.

(** ** Numbers *)

Inductive float64 := NaN | Inf (neg : bool) | Whole (z : Z) | Frac (id : nat).

Class FloatFormat := {
  FormatFloat : float64 -> gostr;
  FormatFloat_line : forall v, LF ∉ FormatFloat v;
}.

(** The conversion of an integer: rounded to 53 bits, ties to even. *)
Definition round53 (z : Z) : Z :=
  let a := Z.abs z in
  if a <=? 2 ^ 53 then z
  else
    let e := Z.log2 a - 52 in
    let q := a / 2 ^ e in
    let r := a mod 2 ^ e in
    let half := 2 ^ (e - 1) in
    let q := if (half <? r) || ((half =? r) && Z.odd q) then q + 1 else q in
    Z.sgn z * q * 2 ^ e.

Definition to_float (z : Z) : float64 := Whole (round53 z).

Definition boolf (b : bool) : float64 := if b then Whole 1 else Whole 0.

(** ** Families ([expfmt.go]) *)

Inductive Type_ := Counter | Gauge.
Definition type_string (t : Type_) : gostr :=
  match t with Counter => bs "counter" | Gauge => bs "gauge" end.

Record Label := mkLabel { l_Name : gostr; l_Value : gostr }.
Record Sample := mkSample { Labels : list Label; s_Value : float64 }.
Record Family := mkFamily {
  f_Name : gostr;
  f_Help : gostr;
  f_Type : Type_;
  Samples : list Sample;
}.

Definition backslash : ascii := byte 92.
Definition dquote : ascii := byte 34.

(** [strings.NewReplacer] with one-byte patterns. *)
Definition escapeLabel (s : gostr) : gostr :=
  flat_map (fun c => if ceq c backslash then [backslash; backslash]
                     else if ceq c LF then [backslash; "n"%char]
                     else if ceq c dquote then [backslash; dquote] else [c]) s.
Definition escapeHelp (s : gostr) : gostr :=
  flat_map (fun c => if ceq c backslash then [backslash; backslash]
                     else if ceq c LF then [backslash; "n"%char] else [c]) s.

(** The loop of [formatLabels]; [n] labels are written. *)
Fixpoint format_labels (n : nat) (ls : list Label) : gostr :=
  match ls with
  | [] => if (0 <? n)%nat then bs "}" else []
  | l :: ls =>
      if beq (l_Value l) [] then format_labels n ls
      else (if (n =? 0)%nat then bs "{" else bs ",") ++ l_Name l ++ bs "=" ++ [dquote]
           ++ escapeLabel (l_Value l) ++ [dquote] ++ format_labels (S n) ls
  end.
Definition formatLabels : list Label -> gostr := format_labels 0.

Section format.
Context `{FloatFormat}.

Definition formatValue (v : float64) : gostr :=
  match v with
  | NaN => bs "NaN"
  | Inf false => bs "+Inf"
  | Inf true => bs "-Inf"
  | Whole z => if Z.abs z <? 2 ^ 53 then Itoa z else FormatFloat v
  | Frac _ => FormatFloat v
  end.

(** One sample's line, without its line break. *)
Definition sample_line (name : gostr) (s : Sample) : gostr :=
  name ++ formatLabels (Labels s) ++ bs " " ++ formatValue (s_Value s).

Definition by_name (a b : Family) : bool := str_lt (f_Name a) (f_Name b).

(** What [Encode] writes for one family. *)
Definition encode_family (f : Family) : gostr :=
  match Samples f with
  | [] => []
  | _ =>
      bs "# HELP " ++ f_Name f ++ bs " " ++ escapeHelp (f_Help f) ++ [LF]
      ++ bs "# TYPE " ++ f_Name f ++ bs " " ++ type_string (f_Type f) ++ [LF]
      ++ concat (sort_strings (map (fun s => sample_line (f_Name f) s ++ [LF]) (Samples f)))
  end.

Definition Encode (families : list Family) : gostr :=
  concat (map encode_family (stable_sort by_name families)).
End format.

(** ** Collecting ([collect.go]) *)

(** [reported]: the listed reasons and every other one that is not zero. *)
Definition reported (listed : list Reason) (counts : reasonCounts) : list Reason :=
  listed ++ List.filter (fun r => negb (Get counts r =? 0) && negb (bool_decide (r ∈ listed))) (seq 0 numReasons).

Definition failures_family (name help : gostr) (d : Detail) (unrouted routed : list Reason) : Family :=
  mkFamily name help Counter
    (map (fun r => mkSample [mkLabel (bs "reason") (reason_string r)] (to_float (Get (UnroutedFailures d) r)))
       (reported unrouted (UnroutedFailures d)) ++
     flat_map (fun rt =>
       map (fun r => mkSample [mkLabel (bs "reason") (reason_string r); mkLabel (bs "route") (Pattern rt)]
                       (to_float (Get (Failures rt) r)))
         (reported routed (Failures rt))) (d_Routes d)).

(** The maps of [edgeAgents]: sessions of any kind, sessions taking traffic,
    open streams. *)
Definition tally (m : gset gostr * gmap gostr Z * gmap gostr Z) (a : AgentInfo)
    : gset gostr * gmap gostr Z * gmap gostr Z :=
  let '(conn, sess, act) := m in
  let fp := Fingerprint a in
  ({[fp]} ∪ conn,
   if ai_Draining a then sess else <[fp := mget sess fp + 1]> sess,
   <[fp := add64 (mget act fp) (ai_ActiveStreams a)]> act).

Definition edgeAgents (d : Detail) : list Family :=
  let '(conn, sess, act) := foldl tally (∅, ∅, ∅) (Agents (d_Snapshot d)) in
  let per f := map (fun fp => mkSample [mkLabel (bs "fingerprint") fp] (f fp)) (ExpectedAgents d) in
  [mkFamily (bs "coen_agent_connected") (bs "Whether an agent is connected (1) or not (0), by certificate fingerprint; a draining agent still counts as connected (see coen_agent_sessions for agents taking new traffic).") Gauge
     (per (fun fp => boolf (bool_decide (fp ∈ conn))));
   mkFamily (bs "coen_agent_sessions") (bs "Tunnel sessions taking new traffic per agent fingerprint (draining ones excluded); more than 1 only with allow_shared_cert.") Gauge
     (per (fun fp => to_float (mget sess fp)));
   mkFamily (bs "coen_agent_streams_active") (bs "Streams open or being set up right now, by agent fingerprint (summed over its sessions); the load least_conn balances on.") Gauge
     (per (fun fp => to_float (mget act fp)));
   mkFamily (bs "coen_agent_streams_total") (bs "Streams opened since start, by agent fingerprint; shows how load is balanced.") Counter
     (per (fun fp => to_float (mget (AgentStreams d) fp)))].

(** The zero [time.Time], in nanoseconds since the epoch. *)
Definition zero_time : Z := -62135596800 * 10 ^ 9.

Definition value_sample (v : float64) : list Sample := [mkSample [] v].

Definition build_info (role version : gostr) : Family :=
  mkFamily (bs "coen_build_info") (bs "Build information; always 1.") Gauge
    [mkSample [mkLabel (bs "role") role; mkLabel (bs "version") version] (Whole 1)].

Definition draining_family (d : Detail) : Family :=
  mkFamily (bs "coen_draining") (bs "1 once shutdown has started and in-flight streams are draining, else 0.") Gauge
    (value_sample (boolf (d_Draining d))).

(** A family with one sample per route. *)
Definition per_route (name help : string) (t : Type_) (d : Detail) (f : RouteSnapshot -> Z) : Family :=
  mkFamily (bs name) (bs help) t
    (map (fun r => mkSample [mkLabel (bs "route") (Pattern r)] (to_float (f r))) (d_Routes d)).

Definition stream_families (d : Detail) : list Family :=
  [per_route "coen_streams_active" "Streams currently open, by route." Gauge d Active;
   per_route "coen_streams_total" "Streams opened since start, by route." Counter d Obs.Total;
   mkFamily (bs "coen_stream_bytes_total") (bs "Bytes carried by streams as they flow, by route and direction (in: client to backend, out: backend to client).") Counter
     (flat_map (fun r =>
        [mkSample [mkLabel (bs "direction") (bs "in"); mkLabel (bs "route") (Pattern r)] (to_float (BytesIn r));
         mkSample [mkLabel (bs "direction") (bs "out"); mkLabel (bs "route") (Pattern r)] (to_float (BytesOut r))])
        (d_Routes d))].

Definition h3_families (d : Detail) : list Family :=
  [per_route "coen_streams_http3_total" "Streams opened since start for HTTP/3 requests, by route (included in coen_streams_total). A stream carries one or more of a connection's requests in turn." Counter d TotalH3;
   per_route "coen_http3_requests_total" "HTTP/3 requests sent to the service since start, by route, over the streams counted in coen_streams_http3_total." Counter d ReqH3;
   per_route "coen_ingress_agent_waits_total" "Requests that found no agent to take them and waited for one (agent_wait), by route; those still without one when the wait ran out are also counted as no_agent in coen_ingress_rejected_total." Counter d Waits].

Definition count_of (d : Detail) (k : counter) : float64 := to_float (s_cnt (d_Snapshot d) k).

(** The handshake family with the samples every role has, then the others. *)
Definition handshakes (help : string) (d : Detail) (more : list Sample) : Family :=
  mkFamily (bs "coen_tunnel_handshakes_total") (bs help) Counter
    ([mkSample [mkLabel (bs "result") (bs "ok")] (count_of d handshakeOK);
      mkSample [mkLabel (bs "result") (bs "fail")] (count_of d handshakeFail)] ++ more).

Definition edge_families (d : Detail) : list Family :=
  edgeAgents d ++
  [handshakes "Incoming agent tunnel connections, by result: ok (authenticated and registered), fail (authenticated but not allowed by any route, or not answering the readiness ping), duplicate (authenticated but refused because a live session owns the fingerprint), capped (refused at the per-certificate session cap), rejected (refused at the TLS handshake)." d
     [mkSample [mkLabel (bs "result") (bs "rejected")] (count_of d handshakeRejected);
      mkSample [mkLabel (bs "result") (bs "duplicate")] (count_of d handshakeDup);
      mkSample [mkLabel (bs "result") (bs "capped")] (count_of d handshakeCapped)];
   mkFamily (bs "coen_ingress_header_timeouts_total") (bs "Ingress connections closed at read_header_timeout without sending any request byte, such as idle browser preconnects. Not rejected requests.") Counter
     (value_sample (to_float (HeaderTimeouts d)));
   failures_family (bs "coen_ingress_rejected_total") (bs "Ingress requests the edge could not forward, by route and reason.") d
     EdgeUnroutedReasons EdgeRouteReasons].

Definition agent_families (d : Detail) : list Family :=
  [handshakes "Attempts to connect to the edge, by result: ok (connected), fail (the dial, the TLS handshake, or the edge pin check failed)." d [];
   mkFamily (bs "coen_tunnel_up") (bs "Whether the tunnel to the edge is established (1) or not (0).") Gauge
     (value_sample (boolf (TunnelConnected (d_Snapshot d))));
   mkFamily (bs "coen_tunnel_reconnects_total") (bs "Reconnect attempts to the edge since start.") Counter
     (value_sample (count_of d reconnects));
   failures_family (bs "coen_stream_errors_total") (bs "Streams the agent could not serve, by route and reason.") d
     AgentUnroutedReasons AgentRouteReasons].

Definition edge_role : gostr := bs "edge".
Definition agent_role : gostr := bs "agent".

Definition Collect (d : Detail) (version : gostr) : list Family :=
  let role := s_Role (d_Snapshot d) in
  [build_info role version;
   mkFamily (bs "coen_streams_peak") (bs "Highest number of concurrent streams since start.") Gauge
     (value_sample (count_of d maxStreams));
   draining_family d]
  ++ (if StartTime d =? zero_time then []
      else [mkFamily (bs "coen_process_start_time_seconds") (bs "Start time of the daemon since the Unix epoch, in seconds.") Gauge
              (value_sample (to_float (StartTime d / 10 ^ 9)))])
  ++ stream_families d
  ++ (if beq role edge_role then h3_families d else [])
  ++ (if beq role edge_role then edge_families d
      else if beq role agent_role then agent_families d
      else [handshakes "Tunnel connections, by result." d []]).

(** ** Reading a metrics text back *)

(** The loop of [Draining] over the lines. *)
Fixpoint draining_line `{Unicode} (lines : list gostr) : bool :=
  match lines with
  | [] => false
  | l :: lines =>
      match CutPrefix l (bs "coen_draining ") with
      | Some v => beq (TrimSpace v) (bs "1")
      | None => draining_line lines
      end
  end.
Definition Draining `{Unicode} (body : gostr) : bool := draining_line (Split body [LF]).

(** [strings.Trim] with a one-byte cutset. *)
Definition TrimByte (c : ascii) (s : gostr) : gostr := trim_right (ceq c) (trim_left (ceq c) s).

(** The role among the label pairs of a line. *)
Fixpoint role_label (kvs : list gostr) : option gostr :=
  match kvs with
  | [] => None
  | kv :: kvs =>
      let '(name, value, _) := Cut kv (bs "=") in
      if beq name (bs "role") then Some (TrimByte dquote value) else role_label kvs
  end.

Fixpoint build_info_line (lines : list gostr) : option gostr :=
  match lines with
  | [] => None
  | l :: lines =>
      match CutPrefix l (bs "coen_build_info{") with
      | None => build_info_line lines
      | Some rest =>
          let '(labels, _, found) := Cut rest (bs "}") in
          if found then role_label (Split labels (bs ",")) else None
      end
  end.
Definition BuildInfoRole (body : gostr) : option gostr := build_info_line (Split body [LF]).

(** ** Lines *)

Lemma digits_no_LF (n : Z) : LF ∉ Itoa n.
Proof.
  assert (Hgo : forall (x : N) s, LF ∉ bs s -> LF ∉ bs (pretty_N_go x s)).
  { intros x. induction (N.lt_wf_0 x) as [x _ IH]; intros s Hs.
    destruct (decide (0 < x)%N) as [Hx|Hx]; [|by replace x with 0%N by lia].
    rewrite pretty_N_go_step by done. apply IH; [apply N.div_lt; lia|].
    cbn [bs String.list_ascii_of_string]. apply not_elem_of_cons. split; [|done].
    unfold pretty_N_char. repeat case_match; done. }
  assert (HN : forall x : N, LF ∉ bs (pretty x)).
  { intros x. unfold pretty, pretty_N. case_decide; [apply (bool_decide_unpack _); by vm_compute|].
    apply Hgo. set_solver. }
  unfold Itoa, pretty, pretty_Z. destruct n as [|p|p]; [apply (bool_decide_unpack _); by vm_compute|apply HN|].
  cbn [String.append bs String.list_ascii_of_string]. apply not_elem_of_cons. split; [done|apply HN].
Qed.

Lemma escape_no_LF s : LF ∉ escapeLabel s /\ LF ∉ escapeHelp s.
Proof.
  unfold escapeLabel, escapeHelp. split; intros (c & _ & Hc)%list_elem_of_In%in_flat_map;
    apply list_elem_of_In in Hc; revert Hc;
    (destruct (ceq c backslash); [by intros [|[|?%elem_of_nil]%elem_of_cons]%elem_of_cons|]);
    (destruct (ceq c LF) eqn:E; [by intros [|[|?%elem_of_nil]%elem_of_cons]%elem_of_cons|]); apply ceq_false in E.
  - destruct (ceq c dquote); [by intros [|[|?%elem_of_nil]%elem_of_cons]%elem_of_cons|].
    by intros [|?%elem_of_nil]%elem_of_cons.
  - by intros [|?%elem_of_nil]%elem_of_cons.
Qed.

(** Families whose names cannot break a line. *)
Definition clean (f : Family) : Prop :=
  LF ∉ f_Name f /\ Forall (fun s => Forall (fun l => LF ∉ l_Name l) (Labels s)) (Samples f).

Lemma labels_no_LF n ls : Forall (fun l => LF ∉ l_Name l) ls -> LF ∉ format_labels n ls.
Proof.
  revert n. induction ls as [|l ls IH]; intros n Hls; cbn [format_labels].
  - destruct (0 <? n)%nat; apply (bool_decide_unpack _); by vm_compute.
  - apply Forall_cons in Hls as [Hl Hls]. destruct (beq (l_Value l) []); [by apply IH|].
    rewrite !not_elem_of_app. split_and!; [|done| | |apply escape_no_LF| |by apply IH];
      try (destruct (n =? 0)%nat); apply (bool_decide_unpack _); by vm_compute.
Qed.

Section encode.
Context `{FloatFormat}.

Definition help_line (f : Family) : gostr := bs "# HELP " ++ f_Name f ++ bs " " ++ escapeHelp (f_Help f).
Definition type_line (f : Family) : gostr := bs "# TYPE " ++ f_Name f ++ bs " " ++ type_string (f_Type f).

(** The lines a family is written as, in some order. *)
Definition line_of (f : Family) (l : gostr) : Prop :=
  Samples f <> [] /\ (l = help_line f \/ l = type_line f \/ exists s, s ∈ Samples f /\ l = sample_line (f_Name f) s).

Definition unlines (ls : list gostr) : gostr := concat (map (fun l => l ++ [LF]) ls).

Lemma unlines_app a b : unlines (a ++ b) = unlines a ++ unlines b.
Proof. unfold unlines. by rewrite map_app, concat_app. Qed.

Lemma value_no_LF v : LF ∉ formatValue v.
Proof.
  destruct v as [|[]|z|]; cbn [formatValue]; [| | |destruct (_ <? _)|];
    [..|apply digits_no_LF|apply FormatFloat_line|apply FormatFloat_line];
    apply (bool_decide_unpack _); by vm_compute.
Qed.

Lemma line_no_LF f l : clean f -> line_of f l -> LF ∉ l.
Proof.
  intros [Hn Hs] [_ [->|[->|(s & Hin & ->)]]]; unfold help_line, type_line, sample_line; rewrite !not_elem_of_app.
  - split_and!; [|done| |apply escape_no_LF]; apply (bool_decide_unpack _); by vm_compute.
  - split_and!; [|done| |destruct (f_Type f)]; apply (bool_decide_unpack _); by vm_compute.
  - rewrite list.Forall_forall in Hs.
    split_and!; [done|by apply labels_no_LF, Hs| |apply value_no_LF]. apply (bool_decide_unpack _); by vm_compute.
Qed.

Lemma encode_family_lines f : exists ls, encode_family f = unlines ls /\ forall l, l ∈ ls <-> line_of f l.
Proof.
  unfold encode_family, line_of. destruct (Samples f) as [|s0 ss] eqn:E.
  { exists []. split; [done|]. intros l. split; [by intros ?%elem_of_nil|by intros [? _]]. }
  rewrite <- E. pose proof (stable_sort_perm str_lt (map (fun s => sample_line (f_Name f) s ++ [LF]) (Samples f))) as Hp.
  rewrite <- (map_map (sample_line (f_Name f)) (fun l => l ++ [LF])) in Hp.
  apply Permutation_map_inv in Hp as (ls & Hls & Hp). rewrite (map_map _ (fun l => l ++ [LF])) in Hls.
  unfold sort_strings. rewrite Hls. exists (help_line f :: type_line f :: ls). split.
  - unfold unlines. cbn [map concat]. unfold help_line, type_line. by rewrite <- !app_assoc.
  - intros l. rewrite !elem_of_cons, <- Hp, list_elem_of_fmap. split.
    + intros [->|[->|(s & -> & Hs)]]; (split; [by rewrite E|eauto]).
    + intros [_ [->|[->|(s & Hs & ->)]]]; eauto.
Qed.

Lemma Encode_lines fams : exists ls,
  Encode fams = unlines ls /\ forall l, l ∈ ls <-> exists f, f ∈ fams /\ line_of f l.
Proof.
  unfold Encode.
  assert (Hp : forall f, f ∈ fams <-> f ∈ stable_sort by_name fams) by (intros; by rewrite stable_sort_perm).
  setoid_rewrite Hp. clear Hp. induction (stable_sort by_name fams) as [|f fs IH].
  - exists []. split; [done|]. intros l. split; [by intros ?%elem_of_nil|by intros (f & ?%elem_of_nil & _)].
  - destruct IH as (ls & Hls & Hin), (encode_family_lines f) as (lf & Hlf & Hinf).
    exists (lf ++ ls). split; [cbn [map concat]; by rewrite unlines_app, Hls, Hlf|].
    intros l. rewrite elem_of_app, Hin, Hinf. setoid_rewrite elem_of_cons. naive_solver.
Qed.

Lemma Split_unlines ls : Forall (fun l => LF ∉ l) ls -> Split (unlines ls) [LF] = ls ++ [[]].
Proof.
  intros Hls.
  assert (Hj : unlines ls = Join (ls ++ [[]]) [LF]).
  { clear. induction ls as [|l ls IH]; [done|]. unfold unlines in *. cbn [map concat app]. rewrite IH.
    destruct (ls ++ [[]]) eqn:E; [by destruct ls|]. cbn [Join]. by rewrite <- app_assoc. }
  rewrite Hj. destruct ls as [|l ls]; [done|]. cbn [app]. apply Split_byte.
  change (l :: ls ++ [[]]) with ((l :: ls) ++ [[]]). rewrite Forall_app. split; [done|].
  repeat constructor. by intros ?%elem_of_nil.
Qed.

(** The lines a reader of the text sees. *)
Lemma Encode_split fams : Forall clean fams -> exists ls,
  Split (Encode fams) [LF] = ls ++ [[]] /\ forall l, l ∈ ls <-> exists f, f ∈ fams /\ line_of f l.
Proof.
  intros Hc. destruct (Encode_lines fams) as (ls & -> & Hin). exists ls. split; [|done].
  apply Split_unlines. apply list.Forall_forall. intros l (f & Hf & Hl)%Hin.
  apply (line_no_LF f l); [|done]. by apply (proj1 (list.Forall_forall _ _) Hc).
Qed.
End encode.

(** ** What the readers find *)

(** Two strings that differ before either ends. *)
Fixpoint diverge (a b : gostr) : bool :=
  match a, b with
  | x :: a, y :: b => if ceq x y then diverge a b else true
  | _, _ => false
  end.

Lemma diverge_prefix a b x : diverge a b = true -> CutPrefix (a ++ x) b = None.
Proof.
  intros Hd. unfold CutPrefix. enough (E : HasPrefix (a ++ x) b = false) by (by rewrite E).
  revert b Hd. induction a as [|c a IH]; intros [|d b] Hd; try done. cbn [app HasPrefix diverge] in *.
  destruct (ceq c d) eqn:E.
  - apply ceq_true in E as ->. rewrite (proj2 (ceq_true d d)) by done. by apply IH.
  - by rewrite (proj2 (ceq_false d c)) by (intros ->; by apply ceq_false in E).
Qed.

Section readers.
Context `{Unicode} `{FloatFormat}.

(** Only lines of one family start with the prefix a reader looks for. *)
Lemma only_line (fams : list Family) (f0 : Family) p l (f : Family) :
  (forall f, f ∈ fams -> f = f0 \/ diverge (f_Name f) p = true) ->
  diverge (bs "# ") p = true ->
  f ∈ fams -> line_of f l -> CutPrefix l p <> None ->
  exists s, s ∈ Samples f0 /\ l = sample_line (f_Name f0) s.
Proof.
  intros Hd Hc Hf [_ Hl] Hp. destruct Hl as [->|[->|(s & Hs & ->)]].
  - destruct Hp. unfold help_line. change (bs "# HELP ") with (bs "# " ++ bs "HELP "). rewrite <- app_assoc.
    by apply diverge_prefix.
  - destruct Hp. unfold type_line. change (bs "# TYPE ") with (bs "# " ++ bs "TYPE "). rewrite <- app_assoc.
    by apply diverge_prefix.
  - destruct (Hd f Hf) as [->|Hn]; [by exists s|]. destruct Hp. by apply diverge_prefix.
Qed.

(** The two reader loops on lines of which only [l] has the prefix. *)
Lemma draining_line_only l v ls rest : CutPrefix l (bs "coen_draining ") = Some v ->
  (forall k, k ∈ ls -> CutPrefix k (bs "coen_draining ") <> None -> k = l) -> l ∈ ls ->
  draining_line (ls ++ rest) = beq (TrimSpace v) (bs "1").
Proof.
  intros Hv. induction ls as [|k ls IH]; intros Hk Hl; [by apply elem_of_nil in Hl|].
  cbn [app draining_line]. destruct (CutPrefix k _) as [u|] eqn:E.
  - assert (k = l) as -> by (apply Hk; [by left|by rewrite E]). congruence.
  - apply IH; [intros; apply Hk; [by right|done]|]. apply elem_of_cons in Hl as [->|]; [congruence|done].
Qed.

Lemma build_info_line_only l v labels after ls rest : CutPrefix l (bs "coen_build_info{") = Some v ->
  Cut v (bs "}") = (labels, after, true) ->
  (forall k, k ∈ ls -> CutPrefix k (bs "coen_build_info{") <> None -> k = l) -> l ∈ ls ->
  build_info_line (ls ++ rest) = role_label (Split labels (bs ",")).
Proof.
  intros Hv Hcut. induction ls as [|k ls IH]; intros Hk Hl; [by apply elem_of_nil in Hl|].
  cbn [app build_info_line]. destruct (CutPrefix k _) as [u|] eqn:E.
  - assert (k = l) as -> by (apply Hk; [by left|by rewrite E]). rewrite Hv in E. injection E as <-. by rewrite Hcut.
  - apply IH; [intros; apply Hk; [by right|done]|]. apply elem_of_cons in Hl as [->|]; [congruence|done].
Qed.
End readers.

(** *** The collected families *)

(** Closes [LF ∉ s] for a literal [s]. *)
Ltac no_LF := match goal with |- LF ∉ _ => apply (bool_decide_unpack _); vm_compute; exact I end.

(** The samples a family is built from have literal label names. *)
Ltac clean_samples :=
  repeat first
    [ rewrite Forall_app; split
    | rewrite Forall_map; apply list.Forall_true; intros
    | rewrite Forall_flat_map; apply list.Forall_true; intros
    | apply Forall_nil; exact I
    | apply Forall_cons; split
    | no_LF ].

Ltac clean_family := split; cbn [f_Name Samples Labels value_sample per_route handshakes build_info draining_family]; [no_LF|clean_samples].

Lemma failures_clean name help d u r : LF ∉ name -> clean (failures_family name help d u r).
Proof. intros Hn. split; [done|]. cbn [failures_family Samples]. clean_samples. Qed.

Ltac clean_families :=
  repeat (apply Forall_cons; split); [..|apply Forall_nil; exact I];
  first [apply failures_clean; no_LF | clean_family].

Lemma edge_clean d : Forall clean (edge_families d).
Proof.
  unfold edge_families, edgeAgents. destruct (foldl tally _ _) as [[conn sess] act]. cbn [app]. clean_families.
Qed.

Lemma agent_clean d : Forall clean (agent_families d).
Proof. unfold agent_families. clean_families. Qed.

Lemma stream_clean d : Forall clean (stream_families d) /\ Forall clean (h3_families d).
Proof. split; [unfold stream_families|unfold h3_families]; clean_families. Qed.

Lemma Collect_clean d version : Forall clean (Collect d version).
Proof.
  unfold Collect. rewrite !Forall_app. destruct (stream_clean d) as [Hs Hh]. split_and!.
  - clean_families.
  - destruct (_ =? _); [apply Forall_nil; exact I|clean_families].
  - exact Hs.
  - destruct (beq (s_Role (d_Snapshot d)) edge_role); [exact Hh|apply Forall_nil; exact I].
  - destruct (beq (s_Role (d_Snapshot d)) edge_role); [apply edge_clean|].
    destruct (beq (s_Role (d_Snapshot d)) agent_role); [apply agent_clean|clean_families].
Qed.

(** Every other family's name differs from what a reader looks for. *)
Definition apart (p : gostr) (f : Family) : Prop := diverge (f_Name f) p = true.

Ltac apart_families := repeat (apply Forall_cons; split); [..|apply Forall_nil; exact I]; reflexivity.

Lemma others_apart d p : p ∈ [bs "coen_build_info{"; bs "coen_draining "] ->
  Forall (apart p) (edge_families d) /\ Forall (apart p) (agent_families d) /\
  Forall (apart p) (stream_families d) /\ Forall (apart p) (h3_families d).
Proof.
  intros Hp. unfold edge_families, edgeAgents. destruct (foldl tally _ _) as [[conn sess] act]. cbn [app].
  apply elem_of_cons in Hp as [->|[->|?%elem_of_nil]%elem_of_cons]; [| |done]; split_and!;
    unfold agent_families, stream_families, h3_families; apart_families.
Qed.

Lemma Collect_rest d version p : p ∈ [bs "coen_build_info{"; bs "coen_draining "] -> exists rest,
  Collect d version = [build_info (s_Role (d_Snapshot d)) version; 
    mkFamily (bs "coen_streams_peak") (bs "Highest number of concurrent streams since start.") Gauge
     (value_sample (count_of d maxStreams)); draining_family d] ++ rest /\ Forall (apart p) rest.
Proof.
  intros Hp. destruct (others_apart d p Hp) as (He & Ha & Hs & Hh). eexists. split; [reflexivity|].
  assert (Hone : forall n h t s, diverge n (bs "coen_build_info{") = true -> diverge n (bs "coen_draining ") = true ->
    Forall (apart p) [mkFamily n h t s]).
  { intros n h t s H1 H2. apply Forall_cons; split; [|apply Forall_nil; exact I].
    apply elem_of_cons in Hp as [->|[->|?%elem_of_nil]%elem_of_cons]; done. }
  rewrite !Forall_app. split_and!.
  - destruct (_ =? _); [apply Forall_nil; exact I|by apply Hone].
  - exact Hs.
  - destruct (beq (s_Role (d_Snapshot d)) edge_role); [exact Hh|apply Forall_nil; exact I].
  - destruct (beq (s_Role (d_Snapshot d)) edge_role); [exact He|].
    destruct (beq (s_Role (d_Snapshot d)) agent_role); [exact Ha|by apply Hone].
Qed.

Lemma build_info_only d version f : f ∈ Collect d version ->
  f = build_info (s_Role (d_Snapshot d)) version \/ diverge (f_Name f) (bs "coen_build_info{") = true.
Proof.
  destruct (Collect_rest d version (bs "coen_build_info{")) as (rest & -> & Hr); [set_solver|].
  cbn [app]. rewrite !elem_of_cons. intros [->|[->|[->|Hf]]]; [by left|by right|by right|].
  right. by apply (proj1 (list.Forall_forall _ _) Hr).
Qed.

Lemma draining_only d version f : f ∈ Collect d version ->
  f = draining_family d \/ diverge (f_Name f) (bs "coen_draining ") = true.
Proof.
  destruct (Collect_rest d version (bs "coen_draining ")) as (rest & -> & Hr); [set_solver|].
  cbn [app]. rewrite !elem_of_cons. intros [->|[->|[->|Hf]]]; [by right|by right|by left|].
  right. by apply (proj1 (list.Forall_forall _ _) Hr).
Qed.

(** *** The role in the build_info line *)

Lemma Index_skip c a b : c ∉ a -> Index (a ++ b) [c] = (fun j => length a + j)%nat <$> Index b [c].
Proof.
  induction a as [|d a IH]; intros Hc; [cbn [app length]; by destruct (Index b [c])|].
  apply not_elem_of_cons in Hc as [Hne Hc]. cbn [app Index HasPrefix length].
  rewrite (proj2 (ceq_false c d)), IH by done. by destruct (Index b [c]).
Qed.

Lemma Split_first c a b : c ∉ a -> exists rest, Split (a ++ c :: b) [c] = a :: rest.
Proof.
  intros Hc. unfold Split. rewrite length_app, Nat.add_comm. cbn [length Nat.add split_rounds].
  rewrite Index_byte by done. rewrite take_app_length. by eexists.
Qed.

Lemma Split_none c a : c ∉ a -> Split a [c] = [a].
Proof. intros Hc. unfold Split. destruct (length a); cbn [split_rounds]; by rewrite ?Index_byte_None. Qed.

Lemma Cut_byte c a b : c ∉ a -> Cut (a ++ c :: b) [c] = (a, b, true).
Proof.
  intros Hc. unfold Cut. rewrite Index_byte, take_app_length by done. cbn [length].
  rewrite drop_app_ge by lia. by replace (length a + 1 - length a)%nat with 1%nat by lia.
Qed.

(** Cutting at a byte that is there keeps any part before it free of that
    byte whole. *)
Lemma Cut_kept c s after : exists a b,
  Cut (s ++ c :: after) [c] = (a, b, true) /\
  forall x y, s = x ++ y -> c ∉ x -> exists u, a = x ++ u /\ u `prefix_of` y.
Proof.
  destruct (decide (c ∈ s)) as [Hin|Hn].
  - apply list_elem_of_split_l in Hin as (s1 & s2 & -> & Hs1).
    exists s1, (s2 ++ c :: after). rewrite <- app_assoc. cbn [app]. split; [by apply Cut_byte|].
    intros x y Hxy Hx. destruct (app_eq_inv s1 (c :: s2) x y Hxy) as [(k & Hk & Hy)|(k & Hk & Hy)].
    + exists k. split; [done|]. rewrite Hy. by exists (c :: s2).
    + destruct k as [|c' k].
      * exists []. rewrite app_nil_r in *. split; [done|]. apply prefix_nil.
      * injection Hy as <- _. destruct Hx. rewrite Hk. set_solver.
  - exists s, after. split; [by apply Cut_byte|]. intros x y -> _. by exists y.
Qed.

(** The role is the first label, so nothing in the version can hide it. *)
Lemma role_label_first role version :
  role = edge_role \/ role = agent_role ->
  exists v labels after,
    formatLabels [mkLabel (bs "role") role; mkLabel (bs "version") version] ++ bs " 1" = bs "{" ++ v /\
    Cut v (bs "}") = (labels, after, true) /\ role_label (Split labels (bs ",")) = Some role.
Proof.
  intros Hrole. set (r0 := bs "role" ++ bs "=" ++ [dquote] ++ role ++ [dquote]).
  assert (Hesc : escapeLabel role = role) by (destruct Hrole as [-> | ->]; reflexivity).
  assert (Hne : beq role [] = false) by (destruct Hrole as [-> | ->]; reflexivity).
  assert (Hb : "}"%char ∉ r0) by (unfold r0; destruct Hrole as [-> | ->]; apply (bool_decide_unpack _); vm_compute; exact I).
  assert (Hcm : ","%char ∉ r0) by (unfold r0; destruct Hrole as [-> | ->]; apply (bool_decide_unpack _); vm_compute; exact I).
  assert (Hl : forall more, role_label (r0 :: more) = Some role) by (unfold r0; destruct Hrole as [-> | ->]; reflexivity).
  unfold formatLabels. cbn [format_labels l_Name l_Value]. rewrite Hne, Hesc.
  destruct (beq version []) eqn:Ev.
  - exists (r0 ++ "}"%char :: bs " 1"), r0, (bs " 1"). split_and!.
    + unfold r0. rewrite <- !app_assoc. reflexivity.
    + by rewrite Cut_byte.
    + change (bs ",") with [","%char]. rewrite Split_none by done. apply Hl.
  - set (t := bs "version" ++ bs "=" ++ [dquote] ++ escapeLabel version ++ [dquote]).
    destruct (Cut_kept "}"%char (r0 ++ ","%char :: t) (bs " 1")) as (a & b & Hcut & Hpre).
    exists ((r0 ++ ","%char :: t) ++ "}"%char :: bs " 1"), a, b. split_and!.
    + unfold r0, t. repeat (progress (rewrite <- ?app_assoc; cbn [app])). reflexivity.
    + done.
    + destruct (Hpre r0 (","%char :: t) eq_refl Hb) as (u & -> & Hu).
      change (bs ",") with [","%char]. destruct u as [|x u].
      * rewrite app_nil_r, Split_none by done. apply Hl.
      * destruct Hu as [w Hw]. injection Hw as <- _.
        destruct (Split_first ","%char r0 u Hcm) as [rest ->]. apply Hl.
Qed.

(** ** Properties *)

(** Reading back the encoded text. *)
Lemma encode_reads_back `{Unicode} `{FloatFormat} (d : Detail) (version : gostr)
    (Hrole : s_Role (d_Snapshot d) = edge_role \/ s_Role (d_Snapshot d) = agent_role) :
  let body := Encode (Collect d version) in
  BuildInfoRole body = Some (s_Role (d_Snapshot d)) /\ Draining body = d_Draining d.
Proof.
  intros body. destruct (Encode_split _ (Collect_clean d version)) as (ls & Hsplit & Hin).
  unfold BuildInfoRole, Draining, body. rewrite Hsplit. split.
  - destruct (role_label_first _ version Hrole) as (v & labels & after & Hline & Hcut & Hlab).
    assert (Hl : sample_line (bs "coen_build_info")
      (mkSample [mkLabel (bs "role") (s_Role (d_Snapshot d)); mkLabel (bs "version") version] (Whole 1)) =
      bs "coen_build_info{" ++ v).
    { unfold sample_line. cbn [Labels s_Value]. change (bs " " ++ formatValue (Whole 1)) with (bs " 1").
      rewrite Hline. done. }
    rewrite (build_info_line_only _ v labels after ls [[]] (proj2 (CutPrefix_Some _ _ _) Hl) Hcut); [done| |].
    + intros k (f & Hf & Hk)%Hin Hp.
      destruct (only_line _ _ _ _ _ (build_info_only d version) eq_refl Hf Hk Hp) as (s & Hs & ->).
      by apply elem_of_cons in Hs as [->|?%elem_of_nil].
    + apply Hin. eexists. split; [left|]. split; [done|]. right; right. eexists. split; [left|done].
  - assert (Hl : sample_line (bs "coen_draining") (mkSample [] (boolf (d_Draining d))) =
      bs "coen_draining " ++ (if d_Draining d then bs "1" else bs "0")) by (by destruct (d_Draining d)).
    rewrite (draining_line_only _ _ ls [[]] (proj2 (CutPrefix_Some _ _ _) Hl)); [by destruct (d_Draining d)| |].
    + intros k (f & Hf & Hk)%Hin Hp.
      destruct (only_line _ _ _ _ _ (draining_only d version) eq_refl Hf Hk Hp) as (s & Hs & ->).
      by apply elem_of_cons in Hs as [->|?%elem_of_nil].
    + apply Hin. exists (draining_family d). split; [do 2 right; left|]. split; [done|].
      right; right. eexists. split; [left|done].
Qed.

(** [C38] A probe recognises the daemon behind a metrics address: whatever the
    counters, the host patterns, the fingerprints and the version string hold
    (line breaks, quotes and braces included), reading back the text that
    [Encode] makes of the collected families gives the daemon's role and
    whether it is draining. *)
Theorem probe_reads_back `{Unicode} `{FloatFormat} (d : Detail) (version : gostr)
    (Hrole : s_Role (d_Snapshot d) = edge_role \/ s_Role (d_Snapshot d) = agent_role) :
  let body := Encode (Collect d version) in
  BuildInfoRole body = Some (s_Role (d_Snapshot d)) /\ Draining body = d_Draining d.
Proof. by apply encode_reads_back. Qed.

(** ** Witnesses *)

Module MetricsWitness.
#[local] Existing Instance ascii_only.
Lemma zero_line (v : float64) : LF ∉ bs "0".
Proof. no_LF. Qed.
Definition plain_format : FloatFormat := {| FormatFloat := fun _ => bs "0"; FormatFloat_line := zero_line |}.
#[local] Existing Instance plain_format.

Definition state : State :=
  obs_run [ORoute (bs "a.example" ++ LF :: bs "coen_draining 0"); ODraining] (NewState edge_role 5).
Definition shown : Detail :=
  detail [bs "a.example" ++ LF :: bs "coen_draining 0"] [] [bs "SHA256:A"] state.

Lemma probe_reads_back_witness :
  BuildInfoRole (Encode (Collect shown (bs "v1}," ++ [LF]))) = Some (bs "edge") /\
  Draining (Encode (Collect shown (bs "v1}," ++ [LF]))) = true.
Proof. apply (probe_reads_back shown (bs "v1}," ++ [LF])). left. reflexivity. Defined.
End MetricsWitness.
