(* ===== verification/Edge.v ===== *)
(** * The ingress handler ([handleIngress] of [internal/edge/edge.go])

    It takes one public connection from its slot of the global cap to its
    answer: an agent's tunnel, an error page or a piped stream.  It is composed
    of the components' own operations ([tryAcquire], [readRequestHead],
    [Match], [dispatch]) and the answers of the world, and returns what it does,
    in order. *)

From S2P Require Import Prelude GoStrings IO HttpHead H3Pool Route Obs Registry Tunnel Dispatch.
From S2P Require Agent.
#[local] Open Scope Z_scope.

(** ** Ingress *)

(** The parts of [routeState] the handler reads; [rs_key] names the route's
    counters. *)
Record routeState := mkRouteState { rs_key : gostr; rs_balance : gostr; noHTTP3 : bool }.

(** What a connection meets: whether it is an agent's (a shared ingress port),
    what it sends and is, whether some HTTP/3 stream kept on a full route gives
    its slot up, the world of the dispatch, and the settings used here. *)
Record ingress_env := mkIngressEnv {
  i_agent : bool;
  i_input : script;
  i_conn : net_conn;
  i_kept : bool;
  i_wait : Z;
  i_dispatch : dispatch_env;
  i_fuel : nat;
  i_http3 : bool;
  i_altsvc : gostr;
}.

Inductive ingress_effect :=
| ITakeAgent                                     (* takeAgent serves it as a tunnel *)
| IFailure (r : Reason) (route : option gostr)   (* state.Failure, rs.stats.Failure *)
| IHeaderTimeout                                 (* state.HeaderTimeout *)
| IErrorPage (code : Z) (reason detail : gostr)
| IClose                                         (* conn.Close *)
| IDispatch (e : effect)
| ICommit (c : agentConn)
| IOpened (rs : routeState)
| IAddIn (n : Z)
| IPipe (prefix : gostr) (rest : script) (altsvc : option (gostr * bool))
| IClosed (rs : routeState)
| ISessionClosed (c : agentConn).                (* stat.StreamClosed *)

(** [altSvcFor]. *)
Definition altSvcFor (e : ingress_env) (rs : routeState) : gostr :=
  if noHTTP3 rs && i_http3 e then bs "clear" else i_altsvc e.

(** A route's semaphore; one that is not listed is unlimited. *)
Definition route_sem (sems : gmap gostr semaphore) (k : gostr) : semaphore := default None (sems !! k).

(** [tcpRouteSlot]: a slot taken from a kept stream passes from it to the
    connection. *)
Definition route_slot (k : gostr) (kept : bool) (sems : gmap gostr semaphore) : gmap gostr semaphore * bool :=
  match tryAcquire (route_sem sems k) with
  | (s, true) => (<[k := s]> sems, true)
  | (_, false) => (sems, kept)
  end.

Definition route_release (k : gostr) (sems : gmap gostr semaphore) : gmap gostr semaphore :=
  <[k := release (route_sem sems k)]> sems.

Definition refusal_page (r : refusal) : ingress_effect :=
  match r with
  | noAgent => IErrorPage 502 (bs "Bad Gateway") (bs "No agent connected")
  | streamFailed => IErrorPage 502 (bs "Bad Gateway") (bs "Tunnel stream failed")
  end.

Section ingress.
Context `{Unicode}.

(** What a connection that sent no usable head gets. *)
Definition no_head (e : ingress_env) (err : head_error) : list ingress_effect :=
  match err with
  | errNoRequest cause =>
      if closedWithoutRequest (i_conn e)
      then (if errors_is cause ErrDeadlineExceeded then [IHeaderTimeout] else []) ++ [IClose]
      else [IFailure ReasonBadRequest None; IErrorPage 400 (bs "Bad Request") (bs "Malformed request"); IClose]
  | _ => [IFailure ReasonBadRequest None; IErrorPage 400 (bs "Bad Request") (bs "Malformed request"); IClose]
  end.

(** From a stream on [c] to the end of the pipe. *)
Definition pipe_stream (e : ingress_env) (rs : routeState) (c : agentConn) (head : gostr) (rest : script)
    : list ingress_effect :=
  let v := altSvcFor e rs in
  [ICommit c; IOpened rs]
  ++ (if c_v2 c then [IAddIn (Z.of_nat (length head))] else [])
  ++ [IPipe (if c_v2 c then [] else head) rest (if beq v [] then None else Some (v, noHTTP3 rs));
      IClosed rs; ISessionClosed c].

(** [handleIngress]; the global semaphore and the routes' before and after.
    [None] is a connection that is still open. *)
Definition handleIngress (routes : Matcher routeState) (e : ingress_env)
    (sem : semaphore) (sems : gmap gostr semaphore)
    : option (semaphore * gmap gostr semaphore * list ingress_effect) :=
  let '(sem, ok) := tryAcquire sem in
  if negb ok then
    Some (sem, sems,
          if i_agent e then [ITakeAgent]
          else [IFailure ReasonMaxConnections None;
                IErrorPage 503 (bs "Service Unavailable") (bs "Too many connections"); IClose])
  else if i_agent e then Some (release sem, sems, [ITakeAgent])
  else
    '(r, rest) ← readRequestHead (i_input e) maxHeaderBytes;
    match r with
    | Err err => Some (release sem, sems, no_head e err)
    | Ok (head, host) =>
        match Match routes host with
        | None =>
            Some (release sem, sems,
                  [IFailure ReasonNoRoute None; IErrorPage 404 (bs "Not Found") (bs "No route for host"); IClose])
        | Some rs =>
            let '(sems, got) := route_slot (rs_key rs) (i_kept e) sems in
            if negb got then
              Some (release sem, sems,
                    [IFailure ReasonRouteMaxConnections (Some (rs_key rs));
                     IErrorPage 503 (bs "Service Unavailable") (bs "Too many connections"); IClose])
            else
              '(d, l) ← dispatch (rs_balance rs) (i_wait e) (i_dispatch e) (i_fuel e);
              let sems := route_release (rs_key rs) sems in
              match d with
              | Err refused => Some (release sem, sems, map IDispatch l ++ [refusal_page refused; IClose])
              | Ok c => Some (release sem, sems, map IDispatch l ++ pipe_stream e rs c head rest)
              end
        end
    end.
End ingress.

(** *** Reading a trace *)

Definition tally_of (p : ingress_effect -> bool) (l : list ingress_effect) : nat := length (List.filter p l).

Definition is_page (e : ingress_effect) : bool := match e with IErrorPage _ _ _ => true | _ => false end.
Definition is_fail (e : ingress_effect) : bool :=
  match e with IFailure _ _ | IDispatch (Failure _) => true | _ => false end.
Definition is_end (e : ingress_effect) : bool :=
  match e with IClose | IPipe _ _ _ | ITakeAgent => true | _ => false end.
Definition is_pipe (e : ingress_effect) : bool := match e with IPipe _ _ _ => true | _ => false end.
Definition is_open (e : ingress_effect) : bool := match e with IOpened _ => true | _ => false end.
Definition is_closed (e : ingress_effect) : bool := match e with IClosed _ => true | _ => false end.
Definition is_commit (e : ingress_effect) : bool := match e with ICommit _ => true | _ => false end.

(** What a trace leaves counted as open on session [d]. *)
Definition held_of (d : agentConn) (e : ingress_effect) : Z :=
  match e with
  | IDispatch e => net_of d e
  | ISessionClosed c => if bool_decide (c = d) then -1 else 0
  | _ => 0
  end.
Definition held (d : agentConn) (l : list ingress_effect) : Z := foldr (fun e n => held_of d e + n) 0 l.

Lemma tally_app p l1 l2 : tally_of p (l1 ++ l2) = (tally_of p l1 + tally_of p l2)%nat.
Proof. unfold tally_of. by rewrite List.filter_app, length_app. Qed.

Lemma held_app d l1 l2 : held d (l1 ++ l2) = held d l1 + held d l2.
Proof. unfold held. induction l1 as [|e l1 IH]; simpl; [lia|]. rewrite IH. lia. Qed.

Lemma held_dispatch d l : held d (map IDispatch l) = net d l.
Proof. unfold held, net. induction l as [|e l IH]; simpl; [done|]. by rewrite IH. Qed.

(** A dispatch's own effects in the handler's trace. *)
Lemma tally_dispatch l :
  tally_of is_fail (map IDispatch l) = count is_failure l /\ tally_of is_page (map IDispatch l) = 0%nat /\
  tally_of is_end (map IDispatch l) = 0%nat /\ tally_of is_pipe (map IDispatch l) = 0%nat /\
  tally_of is_open (map IDispatch l) = 0%nat /\ tally_of is_closed (map IDispatch l) = 0%nat /\
  tally_of is_commit (map IDispatch l) = 0%nat.
Proof.
  unfold tally_of, count. induction l as [|e l IH]; simpl; [done|].
  destruct IH as (I1 & I2 & I3 & I4 & I5 & I6 & I7). destruct e; simpl; split_and!; congruence.
Qed.

(** The accounts of one connection: one end, a failure counted for each page
    and no more than one, and what was opened closed. *)
Record settled (l : list ingress_effect) : Prop := {
  st_end : tally_of is_end l = 1%nat;
  st_page : tally_of is_page l = tally_of is_fail l;
  st_once : (tally_of is_page l + tally_of is_pipe l <= 1)%nat;
  st_open : tally_of is_open l = tally_of is_pipe l;
  st_closed : tally_of is_closed l = tally_of is_pipe l;
  st_commit : tally_of is_commit l = tally_of is_pipe l;
  st_held : forall d, held d l = 0;
}.

Lemma settled_page r k code why detail : settled [IFailure r k; IErrorPage code why detail; IClose].
Proof. by split. Qed.

Lemma settled_no_head e err : settled (no_head e err).
Proof.
  unfold no_head. destruct err; try apply settled_page.
  destruct (closedWithoutRequest _); [|apply settled_page]. destruct (errors_is _ _); split; try done; vm_compute; lia.
Qed.

Lemma settled_dispatch balance wait env fuel d l tail :
  dispatch balance wait env fuel = Some (d, l) ->
  match d with
  | Err refused => tail = [refusal_page refused; IClose]
  | Ok c => exists e rs head rest, tail = pipe_stream e rs c head rest
  end -> settled (map IDispatch l ++ tail).
Proof.
  intros Hd Ht. destruct (dispatch_loop_trace _ _ _ _ _ _ _ _ Hd) as [Hnet _ Hfail].
  destruct (tally_dispatch l) as (T1 & T2 & T3 & T4 & T5 & T6 & T7).
  destruct d as [c|refused].
  - destruct Ht as (e & rs & head & rest & ->). unfold pipe_stream. cbn [app].
    split; rewrite ?tally_app, ?T1, ?T2, ?T3, ?T4, ?T5, ?T6, ?T7, ?Hfail; try (by destruct (c_v2 c)).
    intros x. rewrite held_app, held_dispatch, Hnet. destruct (c_v2 c); simpl; by case_bool_decide.
  - rewrite Ht. split; rewrite ?tally_app, ?T1, ?T2, ?T3, ?T4, ?T5, ?T6, ?T7, ?Hfail; try (by destruct refused).
    intros x. rewrite held_app, held_dispatch, Hnet. by destruct refused.
Qed.

(** *** Slots *)

Lemma release_acquired s s' : tryAcquire s = (s', true) -> release s' = s.
Proof.
  destruct s as [[c u]|]; simpl; [|by intros [= <-]]. destruct (u <? c); [|done]. intros [= <-].
  simpl. do 2 f_equal. lia.
Qed.

Lemma not_acquired s s' : tryAcquire s = (s', false) -> s' = s.
Proof. destruct s as [[c u]|]; simpl; [|done]. destruct (u <? c); [done|]. by intros [= <-]. Qed.

Lemma route_sem_insert sems k s k' :
  route_sem (<[k := s]> sems) k' = if decide (k = k') then s else route_sem sems k'.
Proof.
  unfold route_sem. case_decide as Hk; [subst; by rewrite lookup_insert_eq|by rewrite lookup_insert_ne].
Qed.

(** A slot taken and released leaves the route as it was, less the kept
    stream's slot when it came from one. *)
Lemma slot_released k kept sems sems1 : route_slot k kept sems = (sems1, true) -> forall k',
  route_sem (route_release k sems1) k' = route_sem sems k' \/
  (kept = true /\ k' = k /\ route_sem (route_release k sems1) k' = release (route_sem sems k)).
Proof.
  unfold route_slot, route_release. destruct (tryAcquire (route_sem sems k)) as [s [|]] eqn:E; intros Hs k'; simplify_eq.
  - left. rewrite !route_sem_insert. case_decide; [subst|done]. rewrite decide_True by done. by apply release_acquired.
  - rewrite route_sem_insert. case_decide; [subst; by right|by left].
Qed.

(** *** What goes over the tunnel *)

(** The bytes after the preamble that a trace puts on the stream of the session
    it ends on: the head if it was sent with the preamble, then the pipe's. *)
Definition tunnel_text (head : gostr) (l : list ingress_effect) : gostr :=
  flat_map (fun e => match e with
                     | IDispatch (SendHead _) => head
                     | IPipe prefix rest _ => prefix ++ script_bytes rest
                     | _ => []
                     end) l.

Lemma text_dispatch head l : tunnel_text head (map IDispatch l) = concat (map (fun _ => head) (List.filter is_head l)).
Proof. unfold tunnel_text. induction l as [|e l IH]; [done|]. simpl. rewrite IH. by destruct e. Qed.

Lemma piped_text `{Unicode} balance wait env fuel c l e rs head rest :
  dispatch balance wait env fuel = Some (Ok c, l) ->
  tunnel_text head (map IDispatch l ++ pipe_stream e rs c head rest) = head ++ script_bytes rest.
Proof.
  intros Hd%dispatch_loop_sent. unfold tunnel_text. rewrite flat_map_app.
  fold (tunnel_text head (map IDispatch l)) (tunnel_text head (pipe_stream e rs c head rest)).
  rewrite text_dispatch. unfold head_sent in Hd. rewrite Hd. unfold tunnel_text, pipe_stream.
  destruct (c_v2 c); simpl; by rewrite !app_nil_r.
Qed.

(** ** Properties *)

Section properties.
Context `{Unicode}.

(** [C18] Every public connection is answered and settles its accounts: unless
    the peer stays silent for ever (a read ends in an error, the deadline at the
    latest) or time stands still, the handler returns, and on every path (cap
    reached, agent on a shared port, malformed or missing request, no route,
    route full, no agent, stream failure, piped stream) its slot of the global
    cap is given back and so is its route's (a slot taken over from a kept
    HTTP/3 stream is freed); it ends exactly once; at most one error page is
    written, exactly as many as failures are counted, and none when a stream was
    piped; opens, closes and commits of streams match; and no session keeps a
    reservation. *)
Theorem ingress_accounts (routes : Matcher routeState) (e : ingress_env) (sem : semaphore)
    (sems : gmap gostr semaphore) (M : nat)
    (Hin : ends (i_input e)) (Hrounds : rounds_end (i_dispatch e))
    (Hclock : d_clock (i_dispatch e) 0 + i_wait e <= d_clock (i_dispatch e) M) (Hfuel : i_fuel e = S (S M)) :
  exists sems' l, handleIngress routes e sem sems = Some (sem, sems', l) /\ settled l /\
  forall k, route_sem sems' k = route_sem sems k \/
            (i_kept e = true /\ route_sem sems' k = release (route_sem sems k)).
Proof.
  unfold handleIngress. destruct (tryAcquire sem) as [s1 [|]] eqn:Es; cbn [negb].
  2: { rewrite (not_acquired _ _ Es). do 2 eexists. split_and!; [done| |by left].
       destruct (i_agent e); [by split; try done; vm_compute; lia|apply settled_page]. }
  rewrite (release_acquired _ _ Es).
  destruct (i_agent e); [do 2 eexists; split_and!; [done|by split; try done; vm_compute; lia|by left]|].
  pose proof (head_loop_ends (S (script_size (i_input e))) [] maxHeaderBytes (i_input e) ltac:(lia) Hin) as Hhead.
  change (head_loop (S (script_size (i_input e))) [] maxHeaderBytes (i_input e))
    with (readRequestHead (i_input e) maxHeaderBytes) in Hhead.
  destruct (readRequestHead _ _) as [[[[head host]|err] rest]|]; [| |done]; cbn [mbind option_bind].
  2: { do 2 eexists. split_and!; [done|apply settled_no_head|by left]. }
  destruct (Match routes host) as [rs|]; [|do 2 eexists; split_and!; [done|apply settled_page|by left]].
  destruct (route_slot (rs_key rs) (i_kept e) sems) as [sems1 [|]] eqn:Er; cbn [negb].
  2: { do 2 eexists. split_and!; [done|apply settled_page|].
       unfold route_slot in Er. destruct (tryAcquire (route_sem sems (rs_key rs))) as [s2 [|]]; simplify_eq. by left. }
  pose proof (dispatch_ends (rs_balance rs) (i_wait e) (i_dispatch e) M Hrounds Hclock) as Hd. rewrite <- Hfuel in Hd.
  destruct (dispatch _ _ _ _) as [[d ld]|] eqn:Ed; [|done]. cbn [mbind option_bind].
  assert (Hk : forall k, route_sem (route_release (rs_key rs) sems1) k = route_sem sems k \/
    (i_kept e = true /\ route_sem (route_release (rs_key rs) sems1) k = release (route_sem sems k))).
  { intros k. destruct (slot_released _ _ _ _ Er k) as [?|(? & -> & ?)]; auto. }
  destruct d as [c|refused]; do 2 eexists; (split_and!; [done| |exact Hk]);
    (eapply settled_dispatch; [exact Ed|]); [by exists e, rs, head, rest|done].
Qed.

(** [C2] The bytes a client sends reach the service unchanged: when the edge
    pipes a connection, what it puts on the tunnel stream after the preamble is
    exactly what the client sent, the head once, whether it went with the
    preamble or through the pipe; and an agent whose highest-ranking route for
    the request's host can be dialled pipes exactly those bytes to that route's
    service. *)
Theorem client_bytes_reach_service `{JSON} (routes : Matcher routeState) (e : ingress_env)
    (sem sem' : semaphore) (sems sems' : gmap gostr semaphore) (l : list ingress_effect)
    (Hi : handleIngress routes e sem sems = Some (sem', sems', l)) (Hp : existsb is_pipe l = true) :
  exists head host rest, readRequestHead (i_input e) maxHeaderBytes = Some (Ok (head, host), rest) /\
  tunnel_text head l = script_bytes (i_input e) /\
  forall (conf : Config.AgentConfig) (a : Agent.Agent) (st : State) (accept : bool) (w : Agent.stream_env)
    (p : Preamble) (frame : gostr) (err : error) ent,
  Agent.a_routes a = Build (Agent.agent_entries conf) ->
  NoDup (map (fun x => classify (Route.Pattern x)) (Agent.agent_entries conf)) ->
  ascii_preamble p = true -> Host p = host -> EncodePreamble p = Ok frame ->
  Agent.input w = IO.mkStream (frame ++ tunnel_text head l) err -> accept && Agent.accept_fails w = false ->
  best (Agent.agent_entries conf) (Normalize host) ent -> Agent.dial w (Agent.service (Value ent)) = true ->
  Agent.Pipe (Agent.service (Value ent)) (IO.mkStream (script_bytes (i_input e)) err)
    ∈ (Agent.handleStream a accept w st).2.
Proof.
  unfold handleIngress in Hi. destruct (tryAcquire sem) as [s1 [|]]; cbn [negb] in Hi.
  2: { injection Hi as <- <- <-. by destruct (i_agent e). }
  destruct (i_agent e); [by injection Hi as <- <- <-|].
  destruct (readRequestHead _ _) as [[[[head host]|err] rest]|] eqn:Er; [| |done]; cbn [mbind option_bind] in Hi.
  2: { injection Hi as <- <- <-. exfalso. revert Hp. unfold no_head. destruct err; try done.
       destruct (closedWithoutRequest _); [by destruct (errors_is _ _)|done]. }
  destruct (Match routes host) as [rs|]; [|by injection Hi as <- <- <-].
  destruct (route_slot _ _ _) as [sems1 [|]]; cbn [negb] in Hi; [|by injection Hi as <- <- <-].
  destruct (dispatch _ _ _ _) as [[d ld]|] eqn:Ed; [|done]. cbn [mbind option_bind] in Hi.
  destruct d as [c|refused]; injection Hi as <- <- <-.
  2: { exfalso. rewrite existsb_app in Hp. apply orb_prop in Hp as [Hp|Hp]; [|by destruct refused].
       clear -Hp. induction ld as [|x ld IH]; [done|]. by apply IH. }
  exists head, host, rest. rewrite (piped_text _ _ _ _ _ _ _ _ _ _ Ed).
  assert (Hb : head ++ script_bytes rest = script_bytes (i_input e)).
  { destruct (head_loop_ok _ _ _ _ _ _ _ Er) as (Hb & _); [done|exact Hb]. }
  rewrite Hb. split_and!; [done|done|].
  intros conf a st accept w p frame err ent Ha Hu Hpa Hh Henc Hin Hacc Hbest Hdial.
  unfold Agent.handleStream. rewrite Hacc, Hin, (proj1 (ReadPreamble_frame p frame _ err Hpa Henc)), Ha.
  subst host. rewrite (match_best _ _ _ Hu Hbest), Hdial. cbn [negb].
  destruct (Agent.take_shard _ _) as [st1 k]. cbn [snd]. set_solver.
Qed.
End properties.

(** ** Witnesses *)

Module EdgeWitness.
#[local] Existing Instance ascii_only.
#[local] Existing Instance TunnelWitness.no_json.

Definition rs : routeState := mkRouteState (bs "a.example") Balance.BalanceRoundRobin false.
Definition table : Matcher routeState := Build [mkEntry (bs "a.example") rs].
Definition request : gostr :=
  bs "GET / HTTP/1.1" ++ CRLF ++ bs "Host: A.example" ++ CRLF ++ CRLF ++ bs "body".
Definition env : ingress_env :=
  mkIngressEnv false [(request, None); (bs " and more", Some [EOF])] TCPConn false second DispatchWitness.world 5 false [].
Definition capped : semaphore := newSemaphore 10.
Definition sems : gmap gostr semaphore := {[bs "a.example" := newSemaphore 1]}.

Definition handled := handleIngress table env capped sems.
Definition trace : list ingress_effect := match handled with Some (_, _, l) => l | None => [] end.
Definition sems_after : gmap gostr semaphore := match handled with Some (_, s, _) => s | None => ∅ end.

Lemma handled_eq : handled = Some (capped, sems_after, trace).
Proof. vm_compute. reflexivity. Qed.

Lemma ingress_accounts_witness :
  tally_of is_pipe trace = 1%nat /\
  exists sems' l, handled = Some (capped, sems', l) /\ settled l.
Proof.
  split; [vm_compute; reflexivity|].
  destruct (ingress_accounts table env capped sems 3) as (sems' & l & Hh & Hs & _).
  - right. left. discriminate.
  - intros [|j]; exists 4%nat; (split; [vm_compute; discriminate|vm_compute; lia]).
  - vm_compute. discriminate.
  - reflexivity.
  - exists sems', l. split; [exact Hh|exact Hs].
Defined.

Lemma client_bytes_reach_service_witness :
  exists head host rest, readRequestHead (i_input env) maxHeaderBytes = Some (Ok (head, host), rest) /\
  tunnel_text head trace = request ++ bs " and more".
Proof.
  destruct (client_bytes_reach_service table env capped capped sems sems_after trace handled_eq)
    as (head & host & rest & Hread & Htext & _); [vm_compute; reflexivity|].
  exists head, host, rest. split; [exact Hread|]. rewrite Htext. vm_compute. reflexivity.
Defined.
End EdgeWitness.
