(* ===== verification/ServeAgent.v ===== *)
(** * A tunnel connection's life ([serveAgent] of [internal/edge/edge.go])

    From the TLS handshake over the duplicate check, the readiness ping and the
    registration to the end of the session.  The handler's own registry calls
    are the events of [Registry]; between any two of them other goroutines run,
    given as arbitrary registry steps that leave this session to its handler.
    The rest of what the handler does is a list of effects. *)

From S2P Require Import Prelude GoStrings IO Registry.
#[local] Open Scope Z_scope.

(** What a connection brings: its TLS state, its certificate and the ones the
    configuration allows, the tunnel session on it, the answer to the ping and
    whether the session had closed by then, and which sessions of the same
    certificate, not yet retired, answer a probe's open with GoAway. *)
Record arrival := mkArrival {
  is_tls : bool;
  handshake : option error;
  a_fp : gostr;
  allowed : gset gostr;
  server_ok : bool;
  a_conn : nat;
  a_sess : session;
  a_v2 : bool;
  ping : option error;
  gone : bool;
  going_away : agentConn -> bool;
}.

Definition the_conn (a : arrival) : agentConn := mkAgentConn (a_conn a) (a_fp a) (a_sess a) (a_v2 a).

Inductive agent_effect :=
| AClose         (* the connection or session is closed *)
| ARejected      (* state.HandshakeRejected *)
| AFail          (* state.HandshakeFail *)
| ACapped        (* state.HandshakeCapped *)
| ADuplicate     (* state.HandshakeDuplicate *)
| AOK            (* state.HandshakeOK *)
| ARetire (c : agentConn)   (* retire: the mark, the kept streams, the listing; its take is a registry call *)
| AAdd           (* state.NewAgentSession and AddAgent *)
| AGone          (* state.AgentDisconnected *)
| AControl       (* the control streams are served *)
| AAwaitClose    (* <-session.CloseChan() *)
| ADrop.         (* reg.drop *)

(** [other k i] is what the other goroutines do before the handler's registry
    calls: the [i]-th one of its [k]-th part. *)
Section serve.
Context (a : arrival) (other : nat -> nat -> world -> world).

(** The loop of [retireGoingAway] over the sessions it found pooled. *)
Fixpoint retire_each (k i : nat) (live : list agentConn) (w : world) : world * list agent_effect :=
  match live with
  | [] => (w, [])
  | c :: live =>
      if c_v2 c && going_away a c then
        let '(w, l) := retire_each k (S i) live (exec (ETake (c_fp c) (c_sess c)) (other k i w)) in
        (w, ARetire c :: l)
      else retire_each k i live w
  end.

(** [retireGoingAway]: sessions of the certificate whose agent answers GoAway
    are taken out of the pool. *)
Definition retireGoingAway (k : nat) (w : world) : world * list agent_effect :=
  let w := other k 0%nat w in
  retire_each k 1 (candidates (isClosed w) [a_fp a] (w_reg w)).1 w.

Definition has_live (w : world) : world * bool :=
  (exec (EHasLive (a_fp a)) w, (hasLiveExclusive (isClosed w) (a_fp a) (w_reg w)).2).

(** [duplicateAfterProbe]. *)
Definition duplicateAfterProbe (k : nat) (w : world) : world * bool * list agent_effect :=
  let '(w, l) := retireGoingAway k w in
  let '(w, dup) := has_live (other (S k) 0%nat w) in
  (w, dup, l).

Definition register (w : world) : world * registration :=
  (exec (ERegister (the_conn a)) w, (registerConn (isClosed w) (a_fp a) (the_conn a) (w_reg w)).1.2).

(** From the registration on. *)
Definition join (probed : bool) (w : world) : world * list agent_effect :=
  let '(w, res) := register (other 4%nat 0%nat w) in
  let '(w, res, l) :=
    match res with
    | refusedDuplicate =>
        if probed then (w, res, [])
        else
          let '(w, dup, l) := duplicateAfterProbe 5 w in
          if dup then (w, res, l)
          else let '(w, res) := register (other 7%nat 0%nat w) in (w, res, l)
    | _ => (w, res, [])
    end in
  match res with
  | registered => (w, [AAdd] ++ l ++ [AOK] ++ (if a_v2 a then [AControl] else []) ++ [AAwaitClose; AGone])
  | refusedGone => (w, [AAdd] ++ l ++ [AGone; AClose])
  | refusedCap => (w, [AAdd] ++ l ++ [AGone; ACapped; AClose])
  | refusedDuplicate => (w, [AAdd] ++ l ++ [AGone; ADuplicate; AClose])
  end.

(** From the duplicate check on. *)
Definition serve_tracked (w : world) : world * list agent_effect :=
  let '(w, dup) := has_live (other 1%nat 0%nat w) in
  let '(w, refuse, l) :=
    if dup then duplicateAfterProbe 2 w else (w, false, []) in
  if refuse then (w, l ++ [ADuplicate; AClose])
  else
    match ping a with
    | Some err =>
        (w, l ++ (if errors_is err ErrSessionShutdown || gone a then [] else [AFail]) ++ [AClose])
    | None => let '(w, l2) := join dup w in (w, l ++ l2)
    end.

Definition serveAgent (w : world) : world * list agent_effect :=
  if negb (is_tls a) then (w, [AClose])
  else
    match handshake a with
    | Some err => (w, (if IsTeardown err then [] else [ARejected]) ++ [AClose])
    | None =>
        if negb (bool_decide (allowed a = ∅)) && negb (bool_decide (a_fp a ∈ allowed a)) then (w, [AFail; AClose])
        else if negb (server_ok a) then (w, [AClose])
        else
          let w := other 0%nat 0%nat w in
          let res := (track (a_fp a) (a_sess a) (w_reg w)).2 in
          let w := exec (ETrack (a_fp a) (a_sess a)) w in
          match res with
          | trackClosing => (w, [AClose])
          | trackCapped => (w, [ACapped; AClose])
          | trackOK =>
              let '(w, l) := serve_tracked w in
              (exec (EDrop (a_sess a)) (other 8%nat 0%nat w), l ++ [ADrop])
          end
    end.
End serve.

(** ** Other goroutines leave the session to its handler *)

(** The events only the session's own handler issues. *)
Definition owned (s : session) (e : event) : bool :=
  match e with
  | ETrack _ s' | EDrop s' => bool_decide (s' = s)
  | ERegister c => bool_decide (c_sess c = s)
  | _ => false
  end.

Definition foreign_enabled (s : session) (e : event) (w : world) : Prop := enabled e w /\ owned s e = false.
Definition foreign (s : session) : world -> world -> Prop := rtc (steps (foreign_enabled s) exec).

Lemma foreign_step s w w' : foreign s w w' -> rtc step w w'.
Proof.
  induction 1 as [|w1 w2 w3 [e [[He _] ->]] _ IH]; [done|]. eapply rtc_l; [by exists e|done].
Qed.

(** Only its own handler changes how a session is tracked. *)
Lemma exec_other s e w : owned s e = false -> all (w_reg (exec e w)) !! s = all (w_reg w) !! s.
Proof.
  destruct e as [fp s'|c|fp|fp s'|s'|s'|]; simpl; intros Ho; try done.
  - unfold track. case_bool_decide; [done|]. repeat split_match; simpl; by rewrite ?lookup_insert_ne.
  - case_bool_decide; [done|]. unfold registerConn. destruct (liveLocked _ _ _) as [r1 live] eqn:E.
    apply liveLocked_spec in E as (_ & (Ha & _) & _). repeat split_match; simpl in *; rewrite ?lookup_insert_ne, ?Ha; done.
  - unfold hasLiveExclusive. destruct (liveLocked _ _ _) as [r1 live] eqn:E.
    apply liveLocked_spec in E as (_ & (Ha & _) & _). simpl. by rewrite Ha.
  - destruct (removeLocked_spec fp s' (w_reg w)) as ((Ha & _) & _). unfold take. by rewrite Ha.
  - case_bool_decide; [done|]. unfold drop. destruct (all (w_reg w) !! s') as [[fp j]|] eqn:E; [|done]. simpl.
    destruct (removeLocked_spec fp s' (w_reg w)) as ((Ha & _) & _).
    destruct j; simpl; by rewrite lookup_delete_ne, Ha.
Qed.

Lemma foreign_tracked s w w' : foreign s w w' -> all (w_reg w') !! s = all (w_reg w) !! s.
Proof.
  induction 1 as [|w1 w2 w3 [e [[_ Ho] ->]] _ IH]; [done|]. by rewrite IH, exec_other.
Qed.

(** ** The handler's steps *)

#[export] Instance agent_effect_eq_dec : EqDecision agent_effect.
Proof. solve_decision. Defined.

Definition times (x : agent_effect) (l : list agent_effect) : nat :=
  length (List.filter (fun y => bool_decide (x = y)) l).

Lemma times_app x l1 l2 : times x (l1 ++ l2) = (times x l1 + times x l2)%nat.
Proof. unfold times. by rewrite List.filter_app, length_app. Qed.

(** The outcomes the handshake counters know. *)
Definition outcomes (l : list agent_effect) : nat :=
  (times ARejected l + times AFail l + times ACapped l + times ADuplicate l + times AOK l)%nat.

(** What every path of the handler's trace has: it ends the connection once
    (closing it, or having waited for its end), counts at most one outcome, the
    listing is undone, and only a session that was counted as accepted is
    waited for. *)
Record served_once (l : list agent_effect) : Prop := {
  so_end : (times AClose l + times AAwaitClose l)%nat = 1%nat;
  so_outcome : (outcomes l <= 1)%nat;
  so_listed : times AAdd l = times AGone l;
  so_ok : times AOK l = times AAwaitClose l;
}.

Section steps.
Context (a : arrival) (other : nat -> nat -> world -> world).
Context (Hother : forall k i w, foreign (a_sess a) w (other k i w)).

(** Reached from [w0] with the session tracked as [v]. *)
Definition at_track (w0 : world) (v : option tracked) (w : world) : Prop :=
  rtc step w0 w /\ all (w_reg w) !! a_sess a = v.

Lemma other_at w0 v k i w : at_track w0 v w -> at_track w0 v (other k i w).
Proof.
  intros [Hr Ht]. split; [etrans; [exact Hr|]; eapply foreign_step, Hother|].
  rewrite <- Ht. eapply foreign_tracked, Hother.
Qed.

Lemma event_at w0 v e w : enabled e w -> owned (a_sess a) e = false -> at_track w0 v w -> at_track w0 v (exec e w).
Proof.
  intros He Ho [Hr Ht]. split; [eapply rtc_r; [exact Hr|by exists e]|]. by rewrite exec_other.
Qed.

Lemma has_live_at w0 v w : at_track w0 v w -> at_track w0 v (has_live a w).1.
Proof. by apply event_at. Qed.

(** Probing the incumbents only retires sessions. *)
Definition retires (l : list agent_effect) : Prop := Forall (fun e => exists c, e = ARetire c) l.

Lemma retires_quiet l x : retires l -> (forall c, x <> ARetire c) -> times x l = 0%nat.
Proof.
  intros Hl Hx. unfold times. induction Hl as [|e l [c ->] _ IH]; [done|].
  cbn [List.filter]. rewrite bool_decide_eq_false_2; [done|apply Hx].
Qed.

Lemma retire_each_at w0 v k live : forall i w, at_track w0 v w ->
  at_track w0 v (retire_each a other k i live w).1 /\ retires (retire_each a other k i live w).2.
Proof.
  induction live as [|c live IH]; intros i w Hw; [by split; [|constructor]|]. cbn [retire_each].
  destruct (_ && _); [|by apply IH].
  destruct (IH (S i) (exec (ETake (c_fp c) (c_sess c)) (other k i w))) as [I1 I2];
    [by apply event_at, other_at|].
  destruct (retire_each a other k (S i) live _) as [w2 l2]. split; [done|]. constructor; [by exists c|done].
Qed.

Lemma probe_at w0 v k w w' dup l : at_track w0 v w -> duplicateAfterProbe a other k w = (w', dup, l) ->
  at_track w0 v w' /\ retires l.
Proof.
  intros Hw. unfold duplicateAfterProbe, retireGoingAway.
  destruct (retire_each_at w0 v k (candidates (isClosed (other k 0%nat w)) [a_fp a] (w_reg (other k 0%nat w))).1
              1 _ (other_at w0 v k 0 w Hw)) as [I1 I2].
  destruct (retire_each a other k 1 _ _) as [w1 l1].
  pose proof (has_live_at w0 v _ (other_at w0 v (S k) 0 w1 I1)) as Hh.
  destruct (has_live a (other (S k) 0%nat w1)) as [w2 d]. by intros [= <- <- <-].
Qed.

(** A registration that is refused leaves the session tracked as connecting. *)
Lemma register_at w0 w : at_track w0 (Some (mkTracked (a_fp a) false)) w ->
  at_track w0 (Some (mkTracked (a_fp a) (match (register a w).2 with registered => true | _ => false end)))
    (register a w).1.
Proof.
  intros [Hr Ht]. split; [eapply rtc_r; [exact Hr|by exists (ERegister (the_conn a))]|].
  unfold register, registerConn. cbn [fst snd exec the_conn c_sess c_fp w_reg]. unfold registerConn.
  destruct (liveLocked _ _ _) as [r1 live] eqn:E. apply liveLocked_spec in E as (_ & (Ha & _) & _).
  repeat split_match; simpl in *; rewrite ?Ha; try done; simplify_eq/=.
  all: rewrite ?Ha, ?Ht in *; simplify_eq/=; first [congruence | by rewrite lookup_insert_eq].
Qed.

(** Retirements around a trace do not change its accounts. *)
Lemma served_middle l1 m l2 : retires m -> served_once (l1 ++ l2) -> served_once (l1 ++ m ++ l2).
Proof.
  intros Hm [S1 S2 S3 S4]. unfold outcomes in *.
  split; unfold outcomes; rewrite !times_app in *; rewrite ?(retires_quiet m) by done; lia.
Qed.

(** How [join] ends, with [m] the retirements before. *)
Lemma served_join res m : retires m ->
  served_once match res with
    | registered => [AAdd] ++ m ++ [AOK] ++ (if a_v2 a then [AControl] else []) ++ [AAwaitClose; AGone]
    | refusedGone => [AAdd] ++ m ++ [AGone; AClose]
    | refusedCap => [AAdd] ++ m ++ [AGone; ACapped; AClose]
    | refusedDuplicate => [AAdd] ++ m ++ [AGone; ADuplicate; AClose]
    end.
Proof.
  intros Hm. destruct res; apply (served_middle [AAdd]); try done; try destruct (a_v2 a); split; vm_compute; lia.
Qed.

(** The handler between [track] and [drop]. *)
Lemma join_at w0 probed w : at_track w0 (Some (mkTracked (a_fp a) false)) w ->
  (exists j, at_track w0 (Some (mkTracked (a_fp a) j)) (join a other probed w).1) /\
  served_once (join a other probed w).2.
Proof.
  intros Hw. unfold join. pose proof (register_at w0 _ (other_at w0 _ 4 0 w Hw)) as Hr.
  destruct (register a (other 4%nat 0%nat w)) as [w1 res]. cbn [fst snd] in Hr.
  assert (Hdone : forall w2 res2 j l, at_track w0 (Some (mkTracked (a_fp a) j)) w2 -> retires l ->
    let out := match res2 with
      | registered => (w2, [AAdd] ++ l ++ [AOK] ++ (if a_v2 a then [AControl] else []) ++ [AAwaitClose; AGone])
      | refusedGone => (w2, [AAdd] ++ l ++ [AGone; AClose])
      | refusedCap => (w2, [AAdd] ++ l ++ [AGone; ACapped; AClose])
      | refusedDuplicate => (w2, [AAdd] ++ l ++ [AGone; ADuplicate; AClose])
      end in
    (exists j, at_track w0 (Some (mkTracked (a_fp a) j)) out.1) /\ served_once out.2).
  { intros w2 res2 j l H2 Hl. pose proof (served_join res2 l Hl). by destruct res2; (split; [by exists j|]). }
  pose proof (Forall_nil_2 (fun e => exists c, e = ARetire c)) as Hnil.
  destruct res; [exact (Hdone w1 registered _ [] Hr Hnil)| |
    exact (Hdone w1 refusedCap _ [] Hr Hnil)|exact (Hdone w1 refusedGone _ [] Hr Hnil)].
  destruct probed; [exact (Hdone w1 refusedDuplicate _ [] Hr Hnil)|].
  destruct (duplicateAfterProbe a other 5 w1) as [[w2 dup] l] eqn:Ep.
  destruct (probe_at w0 _ 5 w1 w2 dup l Hr Ep) as [Hp Hl].
  destruct dup; [exact (Hdone w2 refusedDuplicate _ l Hp Hl)|].
  pose proof (register_at w0 _ (other_at w0 _ 7 0 w2 Hp)) as Hr2.
  destruct (register a (other 7%nat 0%nat w2)) as [w3 res3]. cbn [fst snd] in Hr2. exact (Hdone w3 res3 _ l Hr2 Hl).
Qed.

Lemma served_drop l : served_once l -> served_once (l ++ [ADrop]).
Proof.
  intros [S1 S2 S3 S4]. unfold outcomes in *. split; unfold outcomes; rewrite !times_app;
    repeat match goal with |- context [times ?x [ADrop]] => change (times x [ADrop]) with 0%nat end; lia.
Qed.

Lemma serve_tracked_at w0 w : at_track w0 (Some (mkTracked (a_fp a) false)) w ->
  (exists j, at_track w0 (Some (mkTracked (a_fp a) j)) (serve_tracked a other w).1) /\
  served_once (serve_tracked a other w).2.
Proof.
  intros Hw. unfold serve_tracked. pose proof (has_live_at w0 _ _ (other_at w0 _ 1 0 w Hw)) as Hl.
  destruct (has_live a (other 1%nat 0%nat w)) as [w1 dup]. cbn [fst] in Hl.
  assert (Hprobe : exists w2 refuse l,
    (if dup then duplicateAfterProbe a other 2 w1 else (w1, false, [])) = (w2, refuse, l) /\
    at_track w0 (Some (mkTracked (a_fp a) false)) w2 /\ retires l).
  { destruct dup; [|exists w1, false, []; split_and!; [done|done|constructor]].
    destruct (duplicateAfterProbe a other 2 w1) as [[w2 still] l] eqn:Ep. exists w2, still, l.
    destruct (probe_at w0 _ 2 w1 w2 still l Hl Ep). by split_and!. }
  destruct Hprobe as (w2 & refuse & l & -> & H2 & Hq). destruct refuse.
  { split; [by exists false|]. apply (served_middle [] l); [done|]. split; vm_compute; lia. }
  destruct (ping a) as [err|].
  - split; [by exists false|]. apply (served_middle [] l); [done|]. destruct (_ || _); split; vm_compute; lia.
  - destruct (join_at w0 dup w2 H2) as [Hj Hs]. destruct (join a other dup w2) as [w3 l2]. cbn [fst snd] in *.
    split; [done|]. by apply (served_middle [] l).
Qed.
End steps.

(** ** Properties *)

(** [C16] The life of a tunnel connection: whatever other goroutines do with the
    registry meanwhile (other connections joining, requests evicting sessions,
    shutdown), the handler's own registry calls are all made in states that
    allow them, so the registry stays reachable and with it every invariant of
    the registry; when the handler returns its session is tracked no more.  It
    ends the connection exactly once, counts at most one handshake outcome (and
    success only for a session it then waits on), undoes its listing, and
    accepts only certificates the configuration allows. *)
Theorem serveAgent_disciplined (a : arrival) (other : nat -> nat -> world -> world) (w : world)
    (Hother : forall k i w, foreign (a_sess a) w (other k i w))
    (Hnew : all (w_reg w) !! a_sess a = None) :
  let '(w', l) := serveAgent a other w in
  rtc step w w' /\ all (w_reg w') !! a_sess a = None /\ served_once l /\
  (AOK ∈ l -> allowed a = ∅ \/ a_fp a ∈ allowed a).
Proof.
  unfold serveAgent. destruct (is_tls a); cbn [negb].
  2: { split_and!; [done|done|split; vm_compute; lia|set_solver]. }
  destruct (handshake a) as [err|].
  { split_and!; [done|done| |destruct (IsTeardown err); set_solver].
    destruct (IsTeardown err); split; vm_compute; lia. }
  destruct (negb (bool_decide (allowed a = ∅)) && negb (bool_decide (a_fp a ∈ allowed a))) eqn:Ea.
  { split_and!; [done|done|split; vm_compute; lia|set_solver]. }
  assert (Hallow : allowed a = ∅ \/ a_fp a ∈ allowed a).
  { destruct (bool_decide_reflect (allowed a = ∅)) as [|Hn1]; [by left|].
    destruct (bool_decide_reflect (a_fp a ∈ allowed a)) as [|Hn2]; [by right|]. done. }
  destruct (server_ok a); cbn [negb]; [|split_and!; [done|done|split; vm_compute; lia|done]].
  destruct (other_at a other Hother w None 0 0 w (conj (rtc_refl _ _) Hnew)) as [Hr0 Ht0].
  set (w1 := other 0%nat 0%nat w) in *.
  assert (Hr1 : rtc step w (exec (ETrack (a_fp a) (a_sess a)) w1)) by (eapply rtc_r; [exact Hr0|by eexists (ETrack _ _)]).
  destruct (track (a_fp a) (a_sess a) (w_reg w1)) as [r1 res] eqn:Et. cbn [snd].
  assert (Hres : all (w_reg (exec (ETrack (a_fp a) (a_sess a)) w1)) !! a_sess a =
                 match res with trackOK => Some (mkTracked (a_fp a) false) | _ => None end).
  { simpl. rewrite Et. cbn [fst]. unfold track in Et. repeat split_match_in Et; simplify_eq/=; try done.
    by rewrite lookup_insert_eq. }
  destruct res; [|split_and!; [done|done|split; vm_compute; lia|done]..].
  destruct (serve_tracked_at a other Hother w _ (conj Hr1 Hres)) as [[j Hj] Hs].
  destruct (serve_tracked a other _) as [w2 l]. cbn [fst snd] in *.
  destruct (other_at a other Hother w _ 8 0 w2 Hj) as [Hr2 Ht2]. split_and!.
  - eapply rtc_r; [exact Hr2|]. by exists (EDrop (a_sess a)).
  - simpl. unfold drop. rewrite Ht2. simpl. by rewrite lookup_delete_eq.
  - by apply served_drop.
  - done.
Qed.

(** ** Witness *)

Module ServeAgentWitness.
(** The agent's old session is still pooled but answers the probe with GoAway;
    the new one is then accepted. *)
Definition old : agentConn := mkAgentConn 1 (bs "SHA256:A") 1 true.
Definition before : world :=
  foldl (fun w e => exec e w) (initial ∅) [ETrack (bs "SHA256:A") 1%nat; ERegister old].
Definition newcomer : arrival :=
  mkArrival true None (bs "SHA256:A") {[bs "SHA256:A"]} true 2 2 true None false (fun c => (c_id c =? 1)%nat).

Lemma serveAgent_disciplined_witness :
  (serveAgent newcomer (fun _ _ w => w) before).2 = [ARetire old; AAdd; AOK; AControl; AAwaitClose; AGone; ADrop] /\
  all (w_reg (serveAgent newcomer (fun _ _ w => w) before).1) !! 2%nat = None.
Proof.
  split; [vm_compute; reflexivity|].
  assert (Ho : forall (k i : nat) (w : world), foreign (a_sess newcomer) w w) by (intros; apply rtc_refl).
  pose proof (serveAgent_disciplined newcomer (fun _ _ w => w) before Ho eq_refl) as Hs.
  destruct (serveAgent newcomer (fun _ _ w => w) before) as [w' l]. exact (proj1 (proj2 Hs)).
Defined.
End ServeAgentWitness.
