(* ===== verification/Http1.v ===== *)
(** * From HTTP/3 to HTTP/1.1 ([internal/edge/http3.go], [internal/edge/http3ws.go])

    The edge terminates HTTP/3 and forwards each request over the tunnel as
    HTTP/1.1 text: [http1Lines] renders the request line and the end-to-end
    headers, [framed] adds the body framing and [sendBody] the body, chunked or
    sized; [webSocketHead] renders the upgrade request of a WebSocket.  What a
    strict HTTP/1.1 reader makes of that text is [parse_message], written from
    RFC 9112 and independent of the code. *)

From S2P Require Import Prelude GoStrings Numeral IO.
#[local] Open Scope Z_scope.

(** ** Bytes and header names *)

(** The bytes of a token (RFC 9110, section 5.6.2). *)
Definition tchar (c : ascii) : bool :=
  let n := code c in
  (48 <=? n)%N && (n <=? 57)%N || (65 <=? n)%N && (n <=? 90)%N || (97 <=? n)%N && (n <=? 122)%N ||
  bool_decide (c ∈ bs "!#$%&'*+-.^_`|~").

Definition token (s : gostr) : bool := negb (beq s []) && forallb tchar s.

(** A byte of a field value: no control character but the tab. *)
Definition value_byte (c : ascii) : bool :=
  let n := code c in (32 <=? n)%N && negb (n =? 127)%N || (n =? 9)%N.

(** A printable ASCII byte that is not a space. *)
Definition graph_byte (c : ascii) : bool := (33 <=? code c)%N && (code c <=? 126)%N.

Definition upper_byte (c : ascii) : ascii :=
  let n := code c in if (97 <=? n)%N && (n <=? 122)%N then byte (n - 32) else c.

(** [http.CanonicalHeaderKey]: a name with a byte no name can have is left
    alone. *)
Fixpoint canon_go (upper : bool) (s : gostr) : gostr :=
  match s with
  | [] => []
  | c :: s =>
      let c := if upper then upper_byte c else lower_byte c in
      c :: canon_go (ceq c "-"%char) s
  end.

Definition CanonicalHeaderKey (s : gostr) : gostr := if forallb tchar s then canon_go true s else s.

(** [http.Header]: the values under each name, as stored. *)
Definition Header := gmap gostr (list gostr).

Definition values (h : Header) (k : gostr) : list gostr := default [] (h !! k).

(** [Header.Values] and [Header.Get]. *)
Definition header_Values (h : Header) (k : gostr) : list gostr := values h (CanonicalHeaderKey k).
Definition header_Get (h : Header) (k : gostr) : gostr := hd [] (header_Values h k).
Definition header_Del (h : Header) (k : gostr) : Header := delete (CanonicalHeaderKey k) h.

(** The names of a header in increasing order. *)
Definition sorted_keys (h : Header) : list gostr := sort_strings (map fst (map_to_list h)).

(** Fields of a message that say where it ends or where it goes. *)
Definition framing_names : list gostr :=
  [bs "Content-Length"; bs "Transfer-Encoding"; bs "Trailer"; bs "Host"; bs "Connection"].

(** [golang.org/x/net/http/httpguts], with what its documentation promises:
    names are tokens, values have no control characters, hosts are made of the
    bytes a host may have, and a trailer is not a framing or routing field. *)
Class HttpGuts := {
  ValidHeaderFieldName : gostr -> bool;
  ValidHeaderFieldValue : gostr -> bool;
  ValidHostHeader : gostr -> bool;
  ValidTrailerHeader : gostr -> bool;
  valid_name : forall s, ValidHeaderFieldName s = true -> token s = true;
  valid_value : forall s, ValidHeaderFieldValue s = true -> forallb value_byte s = true;
  valid_host : forall s, ValidHostHeader s = true -> forallb graph_byte s = true;
  valid_trailer : forall s, ValidTrailerHeader s = true -> CanonicalHeaderKey s ∉ framing_names;
}.

(** ** Requests *)

(** The parts of [http.Request] used: [r_uri] is [RequestURI], and [r_url] what
    [URL.RequestURI()] gives. *)
Record Request := mkRequest {
  r_Method : gostr;
  r_Proto : gostr;
  r_Host : gostr;
  r_uri : gostr;
  r_url : gostr;
  r_Header : Header;
  r_Trailer : Header;
  r_ContentLength : Z;
}.

Inductive h1_error :=
| InvalidAuthority (host : gostr)
| InvalidRequestLine
| InvalidHeaderName (k : gostr)
| InvalidHeaderValue (k : gostr).

Definition hopHeaders : list gostr :=
  [bs "Connection"; bs "Keep-Alive"; bs "Proxy-Connection"; bs "Transfer-Encoding"; bs "Upgrade"; bs "Te"; bs "Trailer"].

(** A field line. *)
Definition field_line (k v : gostr) : gostr := k ++ bs ": " ++ v ++ CRLF.

(** Header names that do not cross as they are. *)
Definition dropped_key (ck : gostr) : bool :=
  beq ck (bs "Host") || beq ck (bs "Content-Length") || bool_decide (ck ∈ hopHeaders).

Definition target (r : Request) : gostr := if beq (r_uri r) [] then r_url r else r_uri r.

(** [strings.ContainsAny] with the bytes a target must not have. *)
Definition breaks_line (s : gostr) : bool := existsb (fun c => bool_decide (c ∈ [" "%char; CR; LF; byte 9])) s.

Section request.
Context `{HttpGuts}.

(** The values of [k] that go out; HTTP/1.1 allows one Cookie line. *)
Definition sent_values (h : Header) (k : gostr) : list gostr :=
  let vs := values h k in
  if beq (CanonicalHeaderKey k) (bs "Cookie") && (1 <? length vs)%nat then [Join vs (bs "; ")] else vs.

Fixpoint value_lines (k : gostr) (vs : list gostr) : result h1_error gostr :=
  match vs with
  | [] => Ok []
  | v :: vs =>
      if negb (ValidHeaderFieldValue v) then Err (InvalidHeaderValue k)
      else let? l := value_lines k vs in Ok (field_line (CanonicalHeaderKey k) v ++ l)
  end.

(** The loop over the sorted names. *)
Fixpoint header_lines (h : Header) (keys : list gostr) : result h1_error gostr :=
  match keys with
  | [] => Ok []
  | k :: keys =>
      if dropped_key (CanonicalHeaderKey k) then header_lines h keys
      else if negb (ValidHeaderFieldName k) then Err (InvalidHeaderName k)
      else let? l := value_lines k (sent_values h k) in
           let? ls := header_lines h keys in Ok (l ++ ls)
  end.

Definition http1Lines (r : Request) : result h1_error gostr :=
  if negb (ValidHostHeader (r_Host r)) || beq (r_Host r) [] then Err (InvalidAuthority (r_Host r))
  else if negb (ValidHeaderFieldName (r_Method r)) || beq (target r) [] || breaks_line (target r)
  then Err InvalidRequestLine
  else let? ls := header_lines (r_Header r) (sorted_keys (r_Header r)) in
       Ok (r_Method r ++ bs " " ++ target r ++ bs " HTTP/1.1" ++ CRLF ++
           bs "Host: " ++ r_Host r ++ CRLF ++ ls).

Definition methodHasBody (m : gostr) : bool := beq m (bs "POST") || beq m (bs "PUT") || beq m (bs "PATCH").

Definition framed (lines : gostr) (r : Request) (trailers : list gostr) : gostr :=
  lines ++
  (if (0 <? length trailers)%nat
   then bs "Trailer: " ++ Join trailers (bs ", ") ++ CRLF ++ bs "Transfer-Encoding: chunked" ++ CRLF
   else if 0 <? r_ContentLength r then bs "Content-Length: " ++ Itoa (r_ContentLength r) ++ CRLF
   else if r_ContentLength r <? 0 then bs "Transfer-Encoding: chunked" ++ CRLF
   else if methodHasBody (r_Method r) then bs "Content-Length: 0" ++ CRLF
   else []) ++ CRLF.

Definition crosses (k : gostr) : bool := ValidHeaderFieldName k && ValidTrailerHeader k.

Definition trailerNames (t : Header) : list gostr :=
  sort_strings (List.filter crosses (map fst (map_to_list t))).

(** ** Bodies *)

(** A chunk as [httputil]'s chunked writer writes it. *)
Definition chunk (d : gostr) : gostr := FormatHex (N.of_nat (length d)) ++ CRLF ++ d ++ CRLF.

(** [readErrs]: whether a read failed other than at the end. *)
Definition read_failed (err : option error) : bool :=
  match err with Some e => negb (errors_is e EOF) | None => false end.

(** How sending a body ended: what was written, the error, and what [readErrs]
    recorded, the bytes read and whether a read failed. *)
Record sent := mkSent { s_writes : list gostr; s_err : option error; s_read : nat; s_failed : bool }.

Definition after_read (n : nat) (s : sent) : sent := mkSent (s_writes s) (s_err s) (n + s_read s) (s_failed s).
Definition after_write (w : gostr) (s : sent) : sent := mkSent (w :: s_writes s) (s_err s) (s_read s) (s_failed s).

(** The loop of [sendBody]: each read that brings bytes is one write.  [wr i] is
    the error of the [i]-th write; [None] is a read that does not return. *)
Fixpoint chunk_loop (fuel : nat) (wr : nat -> option error) (i : nat) (body : script) : option sent :=
  match fuel with
  | O => None
  | S fuel =>
      '(c, err, body) ← Read (Z.to_nat (Z.shiftl 32 10)) body;
      let next (i : nat) :=
        match err with
        | Some e => Some (mkSent [] (if errors_is e EOF then None else Some e) (length c) (read_failed err))
        | None => after_read (length c) <$> chunk_loop fuel wr i body
        end in
      match c with
      | [] => next i
      | _ =>
          match wr i with
          | Some e => Some (mkSent [] (Some e) (length c) (read_failed err))
          | None => after_write (chunk c) <$> next (S i)
          end
      end
  end.

(** [io.CopyN]: [cap] is the size of [io.Copy]'s buffer, [left] what the limited
    reader still lets through. *)
Fixpoint copy_loop (fuel : nat) (cap : nat) (left : nat) (wr : nat -> option error) (i : nat) (body : script)
    : option sent :=
  if (left =? 0)%nat then Some (mkSent [] None 0 false)
  else
    match fuel with
    | O => None
    | S fuel =>
        '(c, err, body) ← Read (min cap left) body;
        let left := (left - length c)%nat in
        let next (i : nat) :=
          match err with
          | Some e => Some (mkSent [] (if (left =? 0)%nat then None else Some e) (length c) (read_failed err))
          | None => after_read (length c) <$> copy_loop fuel cap left wr i body
          end in
        match c with
        | [] => next i
        | _ =>
            match wr i with
            | Some e => Some (mkSent [] (Some e) (length c) (read_failed err))
            | None => after_write c <$> next (S i)
            end
        end
    end.

Definition copyN (n : Z) (wr : nat -> option error) (body : script) : option sent :=
  copy_loop (S (script_size body)) (min (Z.to_nat (Z.shiftl 32 10)) (Z.to_nat n)) (Z.to_nat n) wr 0 body.

(** The trailers that cross, taken once the body has ended. *)
Definition trailer_lines (t : Header) : gostr :=
  concat (map (fun k => concat (map (field_line k) (List.filter ValidHeaderFieldValue (values t k)))) (trailerNames t)).

Definition chunked (r : Request) (trailers : list gostr) : bool :=
  (0 <? length trailers)%nat || (r_ContentLength r <? 0).

(** [sendBody]; [final] is the request's trailer once the body has ended. *)
Definition sendBody (r : Request) (trailers : list gostr) (body : script) (final : Header)
    (wr : nat -> option error) : option sent :=
  if chunked r trailers then
    s ← chunk_loop (S (script_size body)) wr 0 body;
    let l := s_writes s in
    let out l e := Some (mkSent l e (s_read s) (s_failed s)) in
    match s_err s with
    | Some e => Some s
    | None =>
        match wr (length l) with
        | Some e => out l (Some e)
        | None =>
            match wr (S (length l)) with
            | Some e => out (l ++ [bs "0" ++ CRLF]) (Some e)
            | None => out (l ++ [bs "0" ++ CRLF; trailer_lines final ++ CRLF]) None
            end
        end
    end
  else if 0 <? r_ContentLength r then copyN (r_ContentLength r) wr body
  else Some (mkSent [] None 0 false).
End request.

(** ** Other questions about a request *)

Section questions.
Context `{Unicode}.

Definition expectsContinue (r : Request) : bool := EqualFold (header_Get (r_Header r) (bs "Expect")) (bs "100-continue").

Definition idempotent (r : Request) : bool :=
  bool_decide (r_Method r ∈ [bs "GET"; bs "HEAD"; bs "OPTIONS"; bs "TRACE"; bs "PUT"; bs "DELETE"]) ||
  negb (beq (header_Get (r_Header r) (bs "Idempotency-Key")) []) ||
  negb (beq (header_Get (r_Header r) (bs "X-Idempotency-Key")) []).

Definition isWebSocketConnect (r : Request) : bool :=
  beq (r_Method r) (bs "CONNECT") && EqualFold (r_Proto r) (bs "websocket").
End questions.

(** [webSocketHead]: the clone that becomes the upgrade request, and its
    head. *)
Definition upgrade_request (r : Request) : Request :=
  mkRequest (bs "GET") (r_Proto r) (r_Host r) (r_uri r) (r_url r)
    (header_Del (r_Header r) (bs "Sec-Websocket-Key")) (r_Trailer r) (r_ContentLength r).

Definition webSocketHead `{HttpGuts} (r : Request) (key : gostr) : result h1_error gostr :=
  let up := upgrade_request r in
  let? lines := http1Lines up in
  Ok (lines ++ bs "Upgrade: websocket" ++ CRLF ++ bs "Connection: Upgrade, close" ++ CRLF ++
      bs "Sec-WebSocket-Key: " ++ key ++ CRLF ++
      (if beq (header_Get (r_Header up) (bs "Sec-Websocket-Version")) []
       then bs "Sec-WebSocket-Version: 13" ++ CRLF else []) ++ CRLF).

(** ** Responses *)

(** [copyResponseHeader]: what the Connection header of [src] names is dropped,
    and so are the connection-level headers. *)
Definition nominated `{Unicode} (src : Header) : list gostr :=
  flat_map (fun v => map (fun t => CanonicalHeaderKey (TrimSpace t)) (Split v (bs ",")))
    (header_Values src (bs "Connection")).

Definition keeps_header `{Unicode} (src : Header) (k : gostr) : bool :=
  negb (bool_decide (k ∈ nominated src)) && negb (bool_decide (k ∈ hopHeaders)).

Definition append_values (dst : Header) (kvs : gostr * list gostr) : Header :=
  <[kvs.1 := values dst kvs.1 ++ kvs.2]> dst.

Definition copyResponseHeader `{Unicode} (dst src : Header) : Header :=
  foldl append_values dst (List.filter (fun kvs => keeps_header src kvs.1) (map_to_list src)).

(** ** A reader of HTTP/1.1 messages (RFC 9112)

    It refuses what readers might disagree on: more than one framing field, a
    transfer coding other than chunked, a size that is not a number. *)
Module Http11.

Record message := mkMessage {
  m_method : gostr;
  m_target : gostr;
  m_fields : list (gostr * gostr);
  m_body : gostr;
  m_trailer : list (gostr * gostr);
}.

Definition next_line (s : gostr) : option (gostr * gostr) :=
  i ← Index s CRLF; Some (take i s, drop (i + 2) s).

Definition ows (c : ascii) : bool := ceq c " "%char || ceq c (byte 9).
Definition trim_ows (v : gostr) : gostr := trim_right ows (trim_left ows v).

Definition parse_field (l : gostr) : option (gostr * gostr) :=
  i ← Index l [":"%char];
  let k := take i l in
  if token k then Some (k, trim_ows (drop (S i) l)) else None.

Fixpoint parse_fields (fuel : nat) (s : gostr) : option (list (gostr * gostr) * gostr) :=
  match fuel with
  | O => None
  | S fuel =>
      '(l, s) ← next_line s;
      if beq l [] then Some ([], s)
      else f ← parse_field l; '(fs, s) ← parse_fields fuel s; Some (f :: fs, s)
  end.

Definition parse_request_line (l : gostr) : option (gostr * gostr) :=
  i ← Index l [" "%char];
  let m := take i l in
  let l := drop (S i) l in
  j ← Index l [" "%char];
  let t := take j l in
  if token m && negb (beq t []) && beq (drop (S j) l) (bs "HTTP/1.1") then Some (m, t) else None.

Definition lower (s : gostr) : gostr := map lower_byte s.
Definition fields_of (name : gostr) (fs : list (gostr * gostr)) : list gostr :=
  map snd (List.filter (fun f => beq (lower f.1) (lower name)) fs).

Inductive framing := Sized (n : nat) | Chunked.

Definition message_framing (fs : list (gostr * gostr)) : option framing :=
  match fields_of (bs "Transfer-Encoding") fs, fields_of (bs "Content-Length") fs with
  | [], [] => Some (Sized 0)
  | [], [v] => n ← parse_number 10 v; Some (Sized (N.to_nat n))
  | [v], [] => if beq (lower v) (bs "chunked") then Some Chunked else None
  | _, _ => None
  end.

(** The chunks up to the last, empty one. *)
Fixpoint parse_chunks (fuel : nat) (s : gostr) : option (gostr * gostr) :=
  match fuel with
  | O => None
  | S fuel =>
      '(l, s) ← next_line s;
      n ← parse_number 16 l;
      if (n =? 0)%N then Some ([], s)
      else
        let n := N.to_nat n in
        if (length s <? n)%nat then None
        else
          '(l, s') ← next_line (drop n s);
          if beq l [] then '(b, s'') ← parse_chunks fuel s'; Some (take n s ++ b, s'') else None
  end.

(** The body of a message with the given head, and what follows it. *)
Definition parse_body (m t : gostr) (fs : list (gostr * gostr)) (f : framing) (s : gostr) : option (message * gostr) :=
  match f with
  | Sized n => if (length s <? n)%nat then None else Some (mkMessage m t fs (take n s) [], drop n s)
  | Chunked =>
      '(b, s) ← parse_chunks (S (length s)) s;
      '(ts, s) ← parse_fields (S (length s)) s;
      Some (mkMessage m t fs b ts, s)
  end.

(** One message, and what follows it. *)
Definition parse_message (s : gostr) : option (message * gostr) :=
  '(l, s) ← next_line s;
  '(m, t) ← parse_request_line l;
  '(fs, s) ← parse_fields (S (length s)) s;
  f ← message_framing fs;
  parse_body m t fs f s.
End Http11.
Import Http11.

(** ** Facts about bytes and names *)

Lemma lower_idem c : lower_byte (lower_byte c) = lower_byte c.
Proof. each_byte c. Qed.
Lemma upper_lower c : upper_byte (lower_byte c) = upper_byte c.
Proof. each_byte c. Qed.
Lemma lower_upper c : lower_byte (upper_byte c) = lower_byte c.
Proof. each_byte c. Qed.

Lemma tchar_plain c : tchar c = true -> c <> ":"%char /\ c <> " "%char /\ c <> LF /\ c <> CR.
Proof. each_byte c. Qed.
Lemma graph_plain c : graph_byte c = true -> c <> " "%char /\ c <> LF /\ c <> CR /\ ows c = false.
Proof. each_byte c. Qed.
Lemma value_plain c : value_byte c = true -> c <> LF /\ c <> CR.
Proof. each_byte c. Qed.

Lemma lower_canon u s : lower (canon_go u s) = lower s.
Proof.
  revert u; induction s as [|c s IH]; intros u; [done|]. simpl. rewrite IH. f_equal.
  destruct u; [apply lower_upper|apply lower_idem].
Qed.

Lemma canon_lower u s : canon_go u (lower s) = canon_go u s.
Proof.
  revert u; induction s as [|c s IH]; intros u; [done|]. cbn [lower map canon_go]. fold (lower s).
  assert (Hc : (if u then upper_byte (lower_byte c) else lower_byte (lower_byte c)) =
               (if u then upper_byte c else lower_byte c)) by (destruct u; [apply upper_lower|apply lower_idem]).
  by rewrite Hc, IH.
Qed.

(** Names are compared without regard to case: a canonical name that folds to a
    canonical name is that name. *)
Lemma canonical_fold k D : token k = true -> lower (CanonicalHeaderKey k) = lower D ->
  canon_go true D = D -> CanonicalHeaderKey k = D.
Proof.
  intros Hk Hl HD. unfold token in Hk. apply andb_prop in Hk as [_ Hk].
  unfold CanonicalHeaderKey in *. rewrite Hk in *. rewrite lower_canon in Hl.
  by rewrite <- canon_lower, Hl, canon_lower.
Qed.

(** ** Reading back lines and fields *)

Lemma no_LF_line l : LF ∉ l -> Index l CRLF = None.
Proof. intros Hl. apply Index_None. intros a b ->. apply Hl. set_solver. Qed.

Lemma next_line_app l rest : LF ∉ l -> next_line (l ++ CRLF ++ rest) = Some (l, rest).
Proof.
  intros Hl. unfold next_line. rewrite Index_CRLF by (by apply no_LF_line). cbn [mbind option_bind].
  rewrite take_app_length. do 2 f_equal. rewrite app_assoc. rewrite drop_app_ge by (rewrite length_app; simpl; lia).
  rewrite length_app. change (length CRLF) with 2%nat. by replace (length l + 2 - (length l + 2))%nat with 0%nat by lia.
Qed.

Lemma next_line_blank rest : next_line (CRLF ++ rest) = Some ([], rest).
Proof. apply (next_line_app [] rest). set_solver. Qed.

Lemma forallb_avoid (p : ascii -> bool) s c : forallb p s = true -> p c = false -> c ∉ s.
Proof. intros Hs Hc Hin. rewrite (proj1 (forallb_elem p s) Hs c Hin) in Hc. done. Qed.

Lemma token_avoid s c : token s = true -> tchar c = false -> c ∉ s.
Proof. intros [_ Hs]%andb_prop. by apply forallb_avoid. Qed.

(** A field that can be written on a line of its own. *)
Definition writable (f : gostr * gostr) : Prop := token f.1 = true /\ LF ∉ f.2.

Definition as_line (f : gostr * gostr) : gostr := field_line f.1 f.2.
Definition as_read (f : gostr * gostr) : gostr * gostr := (f.1, trim_ows f.2).
Definition field_text (fs : list (gostr * gostr)) : gostr := concat (map as_line fs).

Lemma parse_field_line f : writable f -> parse_field (f.1 ++ bs ": " ++ f.2) = Some (as_read f).
Proof.
  destruct f as [k v]. intros [Hk _]. cbn [fst snd] in *. unfold parse_field.
  change (k ++ bs ": " ++ v) with (k ++ ":"%char :: " "%char :: v).
  rewrite Index_byte by (by apply token_avoid). cbn [mbind option_bind].
  rewrite take_app_length, Hk. do 2 f_equal.
  rewrite drop_app_ge by lia. by replace (S (length k) - length k)%nat with 1%nat by lia.
Qed.

Lemma as_line_no_LF f : writable f -> LF ∉ f.1 ++ bs ": " ++ f.2.
Proof.
  destruct f as [k v]. intros [Hk Hv]. cbn [fst snd] in *.
  assert (LF ∉ k) by (by apply token_avoid). assert (LF ∉ bs ": ") by (apply (bool_decide_unpack _); by vm_compute).
  rewrite !elem_of_app. tauto.
Qed.

Lemma parse_fields_text fs rest fuel : Forall writable fs -> (length fs < fuel)%nat ->
  parse_fields fuel (field_text fs ++ CRLF ++ rest) = Some (map as_read fs, rest).
Proof.
  intros Hfs. revert fuel. induction Hfs as [|f fs Hf Hfs IH]; intros fuel Hfuel; (destruct fuel as [|fuel]; [simpl in Hfuel; lia|]).
  - cbn [parse_fields field_text map concat app]. by rewrite next_line_blank.
  - cbn [parse_fields]. unfold field_text. cbn [map concat]. fold (field_text fs).
    unfold as_line, field_line.
    replace (((f.1 ++ bs ": " ++ f.2 ++ CRLF) ++ field_text fs) ++ CRLF ++ rest)
      with ((f.1 ++ bs ": " ++ f.2) ++ CRLF ++ (field_text fs ++ CRLF ++ rest)) by (by rewrite <- !app_assoc).
    rewrite next_line_app by (by apply as_line_no_LF). cbn [mbind option_bind].
    destruct (beq _ []) eqn:E.
    { apply beq_true in E. apply app_nil in E as [_ E]. by apply app_nil in E as [? _]. }
    rewrite parse_field_line by done. rewrite IH by (simpl in Hfuel; lia). done.
Qed.

Lemma field_text_length fs : (length fs <= length (field_text fs))%nat.
Proof.
  induction fs as [|f fs IH]; [simpl; lia|]. change (field_text (f :: fs)) with (as_line f ++ field_text fs).
  rewrite length_app. assert (0 < length (as_line f))%nat; [|cbn [length]; lia].
  unfold as_line, field_line. rewrite !length_app. change (length CRLF) with 2%nat. lia.
Qed.

(** With the fuel [parse_message] gives it. *)
Lemma parse_fields_all fs rest : Forall writable fs ->
  parse_fields (S (length (field_text fs ++ CRLF ++ rest))) (field_text fs ++ CRLF ++ rest) = Some (map as_read fs, rest).
Proof.
  intros Hfs. apply parse_fields_text; [done|]. rewrite length_app. pose proof (field_text_length fs). lia.
Qed.

Lemma field_text_app a b : field_text (a ++ b) = field_text a ++ field_text b.
Proof. unfold field_text. by rewrite map_app, concat_app. Qed.

Lemma parse_request_line_text m t : token m = true -> t <> [] -> " "%char ∉ t ->
  parse_request_line (m ++ bs " " ++ t ++ bs " HTTP/1.1") = Some (m, t).
Proof.
  intros Hm Ht Hs. unfold parse_request_line.
  change (m ++ bs " " ++ t ++ bs " HTTP/1.1") with (m ++ " "%char :: (t ++ " "%char :: bs "HTTP/1.1")).
  rewrite Index_byte by (by apply token_avoid). cbn [mbind option_bind]. rewrite take_app_length, Hm.
  rewrite drop_app_ge by lia. replace (S (length m) - length m)%nat with 1%nat by lia. cbn [skipn]. rewrite !drop_0.
  rewrite Index_byte by done. cbn [mbind option_bind]. rewrite take_app_length.
  rewrite (proj2 (beq_false t [])) by done. rewrite drop_app_ge by lia.
  by replace (S (length t) - length t)%nat with 1%nat by lia.
Qed.

(** ** Reading back bodies *)

Lemma parse_chunks_step d s fuel : d <> [] ->
  parse_chunks (S fuel) (chunk d ++ s) = '(b, s') ← parse_chunks fuel s; Some (d ++ b, s').
Proof.
  intros Hd. unfold chunk. cbn [parse_chunks].
  replace ((FormatHex (N.of_nat (length d)) ++ CRLF ++ d ++ CRLF) ++ s)
    with (FormatHex (N.of_nat (length d)) ++ CRLF ++ (d ++ CRLF ++ s)) by (by rewrite <- !app_assoc).
  rewrite next_line_app by (by apply FormatHex_avoid). cbn [mbind option_bind]. rewrite parse_hex. cbn [mbind option_bind].
  destruct (N.of_nat (length d) =? 0)%N eqn:E.
  { apply N.eqb_eq in E. destruct d; [done|]. simpl in E. lia. }
  rewrite Nat2N.id. rewrite (proj2 (Nat.ltb_ge _ _)) by (rewrite length_app; lia).
  rewrite drop_app_length, take_app_length. by rewrite next_line_blank.
Qed.

Lemma parse_chunks_text ds s fuel : Forall (.≠ []) ds -> (length ds < fuel)%nat ->
  parse_chunks fuel (concat (map chunk ds) ++ bs "0" ++ CRLF ++ s) = Some (concat ds, s).
Proof.
  intros Hds. revert fuel. induction Hds as [|d ds Hd Hds IH]; intros fuel Hf; (destruct fuel as [|fuel]; [simpl in Hf; lia|]).
  - cbn [map concat app parse_chunks]. change (bs "0" ++ CRLF ++ s) with (bs "0" ++ CRLF ++ s).
    rewrite next_line_app by (apply (bool_decide_unpack _); by vm_compute). done.
  - cbn [map concat]. rewrite <- app_assoc, parse_chunks_step by done. by rewrite IH by (simpl in Hf; lia).
Qed.

Lemma chunks_length ds : (length ds <= length (concat (map chunk ds)))%nat.
Proof.
  induction ds as [|d ds IH]; [simpl; lia|]. cbn [map concat length]. rewrite length_app.
  assert (0 < length (chunk d))%nat; [|lia]. unfold chunk. rewrite !length_app. change (length CRLF) with 2%nat. lia.
Qed.

(** The bytes a body brings before it ends or breaks off. *)
Fixpoint until_end (s : script) : gostr :=
  match s with
  | [] => []
  | (c, None) :: s => c ++ until_end s
  | (c, Some _) :: _ => c
  end.

Lemma Read_until_end cap s c e s' : Read cap s = Some (c, e, s') ->
  until_end s = c ++ match e with None => until_end s' | Some _ => [] end.
Proof.
  destruct s as [|[d f] s]; simpl; [done|]. destruct (_ <=? _)%nat; intros [= <- <- <-].
  - destruct f; [by rewrite app_nil_r|done].
  - simpl. destruct f; [by rewrite take_drop|]. by rewrite app_assoc, take_drop.
Qed.

Lemma fmap_sent_Some (f : sent -> sent) (m : option sent) s : f <$> m = Some s -> exists s0, m = Some s0 /\ s = f s0.
Proof. intros (s0 & -> & ->)%fmap_Some. eauto. Qed.

Lemma chunk_loop_spec fuel wr i body s : chunk_loop fuel wr i body = Some s -> s_err s = None ->
  exists ds, s_writes s = map chunk ds /\ Forall (.≠ []) ds /\ concat ds = until_end body.
Proof.
  revert i body s; induction fuel as [|fuel IH]; intros i body s; cbn [chunk_loop]; [done|].
  destruct (Read _ body) as [[[c err] body']|] eqn:ER; [|done]. cbn [mbind option_bind].
  apply Read_until_end in ER. rewrite ER. clear ER.
  assert (Hnext : forall j s, match err with
      | Some e => Some (mkSent [] (if errors_is e EOF then None else Some e) (length c) (read_failed err))
      | None => after_read (length c) <$> chunk_loop fuel wr j body' end = Some s -> s_err s = None ->
    exists ds, s_writes s = map chunk ds /\ Forall (.≠ []) ds /\ concat ds = match err with None => until_end body' | Some _ => [] end).
  { intros j s0 Hs He. destruct err as [e|].
    - injection Hs as <-. by exists [].
    - apply fmap_sent_Some in Hs as (s1 & Hs & ->). exact (IH _ _ _ Hs He). }
  destruct c as [|a c]; [apply Hnext|].
  destruct (wr i); [by intros [= <-]|]. intros (s0 & Hs & ->)%fmap_sent_Some He. apply Hnext in Hs as (ds & Hw & Hne & Hb); [|done].
  exists ((a :: c) :: ds). cbn [after_write s_writes]. rewrite Hw. split_and!; [done|by constructor|]. simpl. by rewrite Hb.
Qed.

Lemma copy_loop_spec fuel cap left wr i body s : copy_loop fuel cap left wr i body = Some s -> s_err s = None ->
  concat (s_writes s) = take left (until_end body) /\ length (concat (s_writes s)) = left.
Proof.
  revert left i body s; induction fuel as [|fuel IH]; intros left i body s; cbn [copy_loop];
    (destruct (left =? 0)%nat eqn:E0; [apply Nat.eqb_eq in E0; subst; by intros [= <-]|]); [done|].
  destruct (Read _ body) as [[[c err] body']|] eqn:ER; [|done]. cbn [mbind option_bind].
  pose proof (Read_cap _ _ _ _ _ ER) as Hcap. apply Read_until_end in ER. rewrite ER. clear ER.
  assert (Hnext : forall j s, match err with
      | Some e => Some (mkSent [] (if (left - length c =? 0)%nat then None else Some e) (length c) (read_failed err))
      | None => after_read (length c) <$> copy_loop fuel cap (left - length c) wr j body' end = Some s -> s_err s = None ->
    concat (s_writes s) = take (left - length c) (match err with None => until_end body' | Some _ => [] end) /\
    length (concat (s_writes s)) = (left - length c)%nat).
  { intros j s0 Hs He. destruct err as [e|].
    - injection Hs as <-. cbn [s_err s_writes] in *. destruct (left - length c =? 0)%nat eqn:E1; [|done].
      apply Nat.eqb_eq in E1. by rewrite E1.
    - apply fmap_sent_Some in Hs as (s1 & Hs & ->). exact (IH _ _ _ _ Hs He). }
  assert (Htake : forall x, take left (c ++ x) = c ++ take (left - length c) x)
    by (intros x; rewrite take_app, (take_ge c) by lia; done).
  destruct c as [|a c]; [intros Hs He; apply Hnext in Hs; [|done]; simpl in Hs; by rewrite Nat.sub_0_r in Hs|].
  destruct (wr i); [by intros [= <-]|]. intros (s0 & Hs & ->)%fmap_sent_Some He. apply Hnext in Hs as [Hb Hl]; [|done].
  rewrite Htake. cbn [after_write s_writes concat]. rewrite Hb in *. split; [done|]. rewrite length_app, Hl. lia.
Qed.

(** ** What is sent, as fields *)

Lemma tchar_upper c : tchar c = true -> tchar (upper_byte c) = true.
Proof. each_byte c. Qed.
Lemma tchar_lower c : tchar c = true -> tchar (lower_byte c) = true.
Proof. each_byte c. Qed.

Lemma token_canonical k : token k = true -> token (CanonicalHeaderKey k) = true.
Proof.
  unfold token. intros [Hne Hk]%andb_prop. unfold CanonicalHeaderKey. rewrite Hk.
  apply andb_true_intro. split.
  - destruct k; [done|]. by apply negb_true_iff, beq_false.
  - cut (forall u, forallb tchar (canon_go u k) = true); [auto|]. clear Hne. induction k as [|c k IH]; intros u; [done|].
    simpl in Hk. apply andb_prop in Hk as [Hc Hk]. cbn [canon_go forallb]. rewrite IH by done.
    destruct u; [by rewrite tchar_upper|by rewrite tchar_lower].
Qed.

(** The end-to-end header fields of a request, in the order they are sent. *)
Definition fields_under (h : Header) (k : gostr) : list (gostr * gostr) :=
  map (pair (CanonicalHeaderKey k)) (sent_values h k).

Definition end_to_end (h : Header) : list (gostr * gostr) :=
  flat_map (fields_under h) (List.filter (fun k => negb (dropped_key (CanonicalHeaderKey k))) (sorted_keys h)).

(** The fields [framed] adds. *)
Definition framing_fields (r : Request) (trailers : list gostr) : list (gostr * gostr) :=
  if (0 <? length trailers)%nat
  then [(bs "Trailer", Join trailers (bs ", ")); (bs "Transfer-Encoding", bs "chunked")]
  else if 0 <? r_ContentLength r then [(bs "Content-Length", Itoa (r_ContentLength r))]
  else if r_ContentLength r <? 0 then [(bs "Transfer-Encoding", bs "chunked")]
  else if methodHasBody (r_Method r) then [(bs "Content-Length", bs "0")]
  else [].

Definition trailer_fields `{HttpGuts} (t : Header) : list (gostr * gostr) :=
  flat_map (fun k => map (pair k) (List.filter ValidHeaderFieldValue (values t k))) (trailerNames t).

Definition body_text (r : Request) (trailers : list gostr) (body : script) : gostr :=
  if chunked r trailers then until_end body else take (Z.to_nat (r_ContentLength r)) (until_end body).

(** A field under a name a header line may have. *)
Definition crossing (f : gostr * gostr) : Prop :=
  writable f /\ exists k, token k = true /\ f.1 = CanonicalHeaderKey k /\ dropped_key f.1 = false.

Section sent.
Context `{HttpGuts}.

Lemma field_value_no_LF v : ValidHeaderFieldValue v = true -> LF ∉ v.
Proof. intros Hv%valid_value. by eapply forallb_avoid. Qed.

Lemma value_lines_spec k vs l : value_lines k vs = Ok l ->
  l = field_text (map (pair (CanonicalHeaderKey k)) vs) /\ Forall (fun v => LF ∉ v) vs.
Proof.
  revert l; induction vs as [|v vs IH]; intros l; cbn [value_lines]; [by intros [= <-]|].
  destruct (ValidHeaderFieldValue v) eqn:Ev; [|done]. cbn [negb]. intros (l0 & Hl & [= <-])%rbind_ok.
  destruct (IH _ Hl) as [-> Hvs]. split; [done|]. constructor; [by apply field_value_no_LF|done].
Qed.

Lemma header_lines_spec h keys l : header_lines h keys = Ok l ->
  let fs := flat_map (fields_under h) (List.filter (fun k => negb (dropped_key (CanonicalHeaderKey k))) keys) in
  l = field_text fs /\ Forall crossing fs.
Proof.
  revert l; induction keys as [|k keys IH]; intros l; cbn [header_lines List.filter flat_map]; [by intros [= <-]|].
  destruct (dropped_key _) eqn:Ed; cbn [negb]; [apply IH|].
  destruct (ValidHeaderFieldName k) eqn:Ek; [|done]. cbn [negb flat_map].
  intros (l1 & [-> Hv]%value_lines_spec & (l2 & [-> Hf]%IH & [= <-])%rbind_ok)%rbind_ok.
  apply valid_name in Ek. rewrite field_text_app. split; [done|]. apply Forall_app. split; [|done].
  unfold fields_under. apply Forall_map. eapply Forall_impl; [exact Hv|]. intros v Hlf. split.
  - split; [by apply token_canonical|done].
  - by exists k.
Qed.

(** [http1Lines] as lines. *)
Lemma http1Lines_spec r lines : http1Lines r = Ok lines ->
  lines = (r_Method r ++ bs " " ++ target r ++ bs " HTTP/1.1") ++ CRLF ++
          field_text ((bs "Host", r_Host r) :: end_to_end (r_Header r)) /\
  token (r_Method r) = true /\ target r <> [] /\ " "%char ∉ target r /\ LF ∉ target r /\
  forallb graph_byte (r_Host r) = true /\ Forall crossing (end_to_end (r_Header r)).
Proof.
  unfold http1Lines. destruct (ValidHostHeader (r_Host r)) eqn:Eh; [|done]. cbn [negb orb].
  destruct (beq (r_Host r) []); [done|].
  destruct (ValidHeaderFieldName (r_Method r)) eqn:Em; [|done]. cbn [negb orb].
  destruct (beq (target r) []) eqn:Et; [done|]. cbn [orb]. destruct (breaks_line (target r)) eqn:Eb; [done|].
  intros (ls & [-> Hc]%header_lines_spec & [= <-])%rbind_ok.
  assert (Hno : forall c, c ∈ [" "%char; CR; LF; byte 9] -> c ∉ target r).
  { intros c Hc' Hin. unfold breaks_line in Eb. apply not_true_iff_false in Eb. apply Eb, existsb_exists.
    exists c. split; [by apply list_elem_of_In|by apply bool_decide_eq_true_2]. }
  split_and!; [|by apply valid_name|by apply beq_false|by apply Hno; set_solver|by apply Hno; set_solver|by apply valid_host|done].
  change (field_text ((bs "Host", r_Host r) :: end_to_end (r_Header r)))
    with ((bs "Host: " ++ r_Host r ++ CRLF) ++ field_text (end_to_end (r_Header r))).
  by rewrite <- !app_assoc.
Qed.

Lemma framed_fields lines r trailers :
  framed lines r trailers = lines ++ field_text (framing_fields r trailers) ++ CRLF.
Proof.
  unfold framed, framing_fields, field_text. repeat (case_match; try done); cbn [map concat as_line field_line fst snd];
    unfold as_line, field_line; cbn [fst snd]; by rewrite ?app_nil_r, <- ?app_assoc.
Qed.

Lemma trailer_lines_fields t : trailer_lines t = field_text (trailer_fields t).
Proof.
  unfold trailer_lines, trailer_fields, field_text. induction (trailerNames t) as [|k ks IH]; [done|].
  cbn [map concat flat_map]. rewrite IH, map_app, concat_app. f_equal. by rewrite map_map.
Qed.

Lemma trailerNames_token t k : k ∈ trailerNames t -> token k = true.
Proof.
  unfold trailerNames, sort_strings. rewrite (stable_sort_perm str_lt). rewrite elem_of_filter_bool. intros [_ Hc].
  unfold crosses in Hc. apply andb_prop in Hc as [Hc _]. by apply valid_name.
Qed.

Lemma trailer_fields_writable t : Forall writable (trailer_fields t).
Proof.
  apply Forall_forall. intros [k v]. unfold trailer_fields. rewrite list_elem_of_In, in_flat_map.
  intros (k' & Hk%list_elem_of_In & Hv). apply in_map_iff in Hv as (v' & [= <- <-] & Hv).
  apply filter_In in Hv as [_ Hv]. split; [by eapply trailerNames_token|by apply field_value_no_LF].
Qed.

Lemma Join_avoid ls sep c : Forall (fun l => c ∉ l) ls -> c ∉ sep -> c ∉ Join ls sep.
Proof.
  intros Hls Hs. induction Hls as [|l ls Hl Hls IH]; [set_solver|]. cbn [Join]. destruct ls; [done|].
  rewrite !elem_of_app. tauto.
Qed.

Lemma framing_fields_writable r t : Forall writable (framing_fields r (trailerNames t)).
Proof.
  unfold framing_fields. repeat case_match; repeat constructor; try (apply (bool_decide_unpack _); by vm_compute).
  - apply Join_avoid; [|apply (bool_decide_unpack _); by vm_compute]. apply Forall_forall. intros k Hk%trailerNames_token.
    by apply token_avoid.
  - b2p. apply Itoa_avoid; [lia|done].
Qed.
End sent.

(** ** One request, exactly *)

Section forwarded.
Context `{HttpGuts}.

Lemma fields_of_app name a b : fields_of name (a ++ b) = fields_of name a ++ fields_of name b.
Proof. unfold fields_of. by rewrite List.filter_app, map_app. Qed.

(** No end-to-end field is a framing field, however it is spelled. *)
Lemma fields_of_crossing D fs : Forall crossing fs -> canon_go true D = D -> dropped_key D = true ->
  fields_of D (map as_read fs) = [].
Proof.
  intros Hfs HD Hdrop. unfold fields_of. induction Hfs as [|f fs (_ & k & Hk & Hf & Hnd) Hfs IH]; [done|].
  cbn [map List.filter]. destruct (beq _ _) eqn:E; [|exact IH]. apply beq_true in E. cbn [as_read fst] in E.
  rewrite Hf in E, Hnd. rewrite (canonical_fold k D Hk E HD) in Hnd. congruence.
Qed.

Lemma trim_ows_graph s : forallb graph_byte s = true -> trim_ows s = s.
Proof.
  intros Hs. assert (Hp : forall c, c ∈ s -> ows c = false).
  { intros c Hc. by apply graph_plain, (proj1 (forallb_elem graph_byte s) Hs c Hc). }
  unfold trim_ows. rewrite trim_left_id.
  - apply trim_right_id. intros c Hc. apply Hp. by eapply last_Some_elem_of.
  - intros c Hc. apply Hp. destruct s; simplify_eq/=. by left.
Qed.

Lemma trim_ows_Itoa z : 0 <= z -> trim_ows (Itoa z) = Itoa z.
Proof.
  intros Hz. apply trim_ows_graph. apply forallb_elem. intros c Hc.
  destruct (digit_value c) eqn:E; [|by destruct (Itoa_avoid z c Hz E)]. clear -E. by each_byte c.
Qed.

(** How a reader frames the message. *)
Lemma sent_framing r fs (t : Header) : Forall crossing fs ->
  message_framing (map as_read ((bs "Host", r_Host r) :: fs ++ framing_fields r (trailerNames t))) =
  Some (if chunked r (trailerNames t) then Chunked else Sized (Z.to_nat (r_ContentLength r))).
Proof.
  intros Hfs. unfold message_framing. cbn [map]. rewrite map_app.
  assert (Hof : forall D, canon_go true D = D -> dropped_key D = true -> beq (lower (bs "Host")) (lower D) = false ->
    fields_of D (as_read (bs "Host", r_Host r) :: map as_read fs ++ map as_read (framing_fields r (trailerNames t))) =
    fields_of D (map as_read (framing_fields r (trailerNames t)))).
  { intros D HD Hdrop Hh. change (?x :: ?y ++ ?z) with ([x] ++ (y ++ z)). rewrite !fields_of_app, fields_of_crossing by done.
    unfold fields_of at 1. cbn [List.filter as_read fst]. by rewrite Hh. }
  rewrite !Hof by done. unfold chunked, framing_fields.
  destruct (0 <? length (trailerNames t))%nat; [done|]. cbn [orb].
  destruct (r_ContentLength r <? 0) eqn:E0; destruct (0 <? r_ContentLength r) eqn:E1; b2p; try lia; [done|..].
  - change (fields_of (bs "Transfer-Encoding") _) with ([] : list gostr).
    change (fields_of (bs "Content-Length") _) with [trim_ows (Itoa (r_ContentLength r))].
    rewrite trim_ows_Itoa by lia. cbn iota beta. rewrite parse_Itoa by lia. cbn [mbind option_bind]. by rewrite Z_N_nat.
  - replace (r_ContentLength r) with 0 by lia. by destruct (methodHasBody (r_Method r)).
Qed.

Lemma canonical_idem k : token k = true -> CanonicalHeaderKey (CanonicalHeaderKey k) = CanonicalHeaderKey k.
Proof.
  intros Hk. pose proof (token_canonical k Hk) as Hc. unfold token in Hk, Hc. apply andb_prop in Hk as [_ Hk], Hc as [_ Hc].
  unfold CanonicalHeaderKey in *. rewrite Hk in *. rewrite Hc. by rewrite <- canon_lower, lower_canon, canon_lower.
Qed.

(** A head read back. *)
Lemma parse_head m t fs s : token m = true -> t <> [] -> " "%char ∉ t -> LF ∉ t -> Forall writable fs ->
  parse_message ((m ++ bs " " ++ t ++ bs " HTTP/1.1") ++ CRLF ++ (field_text fs ++ CRLF ++ s)) =
  f ← message_framing (map as_read fs); parse_body m t (map as_read fs) f s.
Proof.
  intros Hm Ht Hsp Hlf Hw. unfold parse_message. rewrite next_line_app.
  - cbn [mbind option_bind]. rewrite parse_request_line_text by done. cbn [mbind option_bind].
    by rewrite parse_fields_all by done.
  - rewrite !elem_of_app. intros [Hin|[Hin|[Hin|Hin]]]; [by revert Hin; apply token_avoid| |done|];
      revert Hin; apply (bool_decide_unpack _); by vm_compute.
Qed.

(** A body read back. *)
Lemma parse_sent_body r trailers body final wr o rest m t fs :
  sendBody r trailers body final wr = Some o -> s_err o = None ->
  parse_body m t fs (if chunked r trailers then Chunked else Sized (Z.to_nat (r_ContentLength r)))
    (concat (s_writes o) ++ rest) =
  Some (mkMessage m t fs (body_text r trailers body)
          (if chunked r trailers then map as_read (trailer_fields final) else []), rest).
Proof.
  unfold sendBody, body_text. destruct (chunked r trailers); intros Hs He; cbn [parse_body].
  - destruct (chunk_loop _ wr 0 body) as [l|] eqn:El; [|done]. cbn [mbind option_bind] in Hs.
    destruct (s_err l) eqn:Ee; [simplify_eq; congruence|].
    destruct (wr (length (s_writes l))); [by injection Hs as <-|].
    destruct (wr (S (length (s_writes l)))); [by injection Hs as <-|]. injection Hs as <-.
    apply chunk_loop_spec in El as (ds & Hw & Hne & Hb); [|done]. cbn [s_writes].
    rewrite Hw, concat_app. cbn [concat]. rewrite trailer_lines_fields, app_nil_r.
    replace ((concat (map chunk ds) ++ (bs "0" ++ CRLF) ++ field_text (trailer_fields final) ++ CRLF) ++ rest)
      with (concat (map chunk ds) ++ bs "0" ++ CRLF ++ (field_text (trailer_fields final) ++ CRLF ++ rest))
      by (by rewrite <- !app_assoc).
    rewrite parse_chunks_text; [|done|rewrite length_app; pose proof (chunks_length ds); lia]. cbn [mbind option_bind].
    rewrite parse_fields_all by apply trailer_fields_writable. cbn [mbind option_bind]. by rewrite Hb.
  - assert (Hbody : concat (s_writes o) = take (Z.to_nat (r_ContentLength r)) (until_end body) /\
                    length (concat (s_writes o)) = Z.to_nat (r_ContentLength r)).
    { destruct (0 <? r_ContentLength r) eqn:E; [by eapply copy_loop_spec|]. injection Hs as <-. b2p.
      by replace (Z.to_nat (r_ContentLength r)) with 0%nat by lia. }
    destruct Hbody as [Hb Hlen]. rewrite (proj2 (Nat.ltb_ge _ _)) by (rewrite length_app; lia).
    rewrite <- Hlen at 1 2. rewrite take_app_length, drop_app_length. by rewrite <- Hb.
Qed.

(** The bytes sent for a request read back as one message. *)
Lemma parse_forwarded r lines body final wr o rest : http1Lines r = Ok lines ->
  sendBody r (trailerNames (r_Trailer r)) body final wr = Some o -> s_err o = None ->
  let trailers := trailerNames (r_Trailer r) in
  parse_message (framed lines r trailers ++ concat (s_writes o) ++ rest) =
    Some (mkMessage (r_Method r) (target r)
            (map as_read ((bs "Host", r_Host r) :: end_to_end (r_Header r) ++ framing_fields r trailers))
            (body_text r trailers body)
            (if chunked r trailers then map as_read (trailer_fields final) else []), rest).
Proof.
  intros Hl Hs He trailers. destruct (http1Lines_spec r lines Hl) as (-> & Hm & Ht & Hsp & Hlf & Hh & Hc).
  rewrite framed_fields.
  set (fs := (bs "Host", r_Host r) :: end_to_end (r_Header r) ++ framing_fields r trailers).
  assert (Hw : Forall writable fs).
  { constructor; [split; [done|by eapply forallb_avoid]|]. apply Forall_app. split; [|apply framing_fields_writable].
    eapply Forall_impl; [exact Hc|]. by intros f [Hf _]. }
  assert (Hfs : field_text fs = field_text ((bs "Host", r_Host r) :: end_to_end (r_Header r)) ++
                                field_text (framing_fields r trailers)) by (by rewrite <- field_text_app).
  match goal with |- parse_message ?x = _ => assert (Htext : x =
    (r_Method r ++ bs " " ++ target r ++ bs " HTTP/1.1") ++ CRLF ++ (field_text fs ++ CRLF ++ (concat (s_writes o) ++ rest)))
    by (by rewrite Hfs, <- !app_assoc); rewrite Htext; clear Htext end.
  pose proof (sent_framing r _ (r_Trailer r) Hc) as Hfr. fold trailers fs in Hfr.
  rewrite parse_head by done. rewrite Hfr. cbn [mbind option_bind].
  by apply parse_sent_body with (wr := wr).
Qed.

(** [C4] No request smuggling: whatever an HTTP/3 client sends, if the edge
    accepts its head and sends its body, then the bytes on the tunnel are one
    HTTP/1.1 request that ends exactly where the edge stops, with the client's
    method, target, authority, end-to-end fields, body and trailers; its framing
    is the edge's own, unambiguous, and no connection-level or framing field of
    the client's crosses. *)
Theorem http3_request_forwarded (r : Request) (lines : gostr) (body : script) (final : Header)
    (wr : nat -> option error) (o : sent) (rest : gostr)
    (Hl : http1Lines r = Ok lines)
    (Hs : sendBody r (trailerNames (r_Trailer r)) body final wr = Some o) (He : s_err o = None) :
  let trailers := trailerNames (r_Trailer r) in
  parse_message (framed lines r trailers ++ concat (s_writes o) ++ rest) =
    Some (mkMessage (r_Method r) (target r)
            (map as_read ((bs "Host", r_Host r) :: end_to_end (r_Header r) ++ framing_fields r trailers))
            (body_text r trailers body)
            (if chunked r trailers then map as_read (trailer_fields final) else []), rest) /\
  Forall (fun f => dropped_key (CanonicalHeaderKey f.1) = false) (end_to_end (r_Header r)).
Proof.
  intros trailers. split; [by eapply parse_forwarded|].
  destruct (http1Lines_spec r lines Hl) as (_ & _ & _ & _ & _ & _ & Hc).
  eapply Forall_impl; [exact Hc|]. intros f (_ & k & Hk & Hf & Hd). by rewrite Hf, canonical_idem, <- Hf.
Qed.

(** The upgrade request's own fields. *)
Definition upgrade_fields (r : Request) (key : gostr) : list (gostr * gostr) :=
  [(bs "Upgrade", bs "websocket"); (bs "Connection", bs "Upgrade, close"); (bs "Sec-WebSocket-Key", key)] ++
  (if beq (header_Get (r_Header (upgrade_request r)) (bs "Sec-Websocket-Version")) []
   then [(bs "Sec-WebSocket-Version", bs "13")] else []).

Lemma upgrade_text r key : 
  bs "Upgrade: websocket" ++ CRLF ++ bs "Connection: Upgrade, close" ++ CRLF ++
  bs "Sec-WebSocket-Key: " ++ key ++ CRLF ++
  (if beq (header_Get (r_Header (upgrade_request r)) (bs "Sec-Websocket-Version")) []
   then bs "Sec-WebSocket-Version: 13" ++ CRLF else []) ++ CRLF = field_text (upgrade_fields r key) ++ CRLF.
Proof.
  unfold upgrade_fields. rewrite field_text_app. destruct (beq _ []); unfold field_text; cbn [map concat];
    unfold as_line, field_line; cbn [fst snd]; by rewrite ?app_nil_r, <- ?app_assoc.
Qed.

(** The names of a header are the canonical ones, as [http.Header] keeps them. *)
Definition canonical_keys (h : Header) : Prop := forall k, h !! k <> None -> CanonicalHeaderKey k = k.

Lemma upgrade_key_gone h : canonical_keys h ->
  Forall crossing (end_to_end (header_Del h (bs "Sec-Websocket-Key"))) ->
  fields_of (bs "Sec-WebSocket-Key") (map as_read (end_to_end (header_Del h (bs "Sec-Websocket-Key")))) = [].
Proof.
  intros Hcan Hc. unfold fields_of. set (fs := end_to_end _) in *.
  assert (Hne : Forall (fun f => f.1 <> bs "Sec-Websocket-Key") fs).
  { apply Forall_forall. intros [k v]. unfold fs, end_to_end. rewrite list_elem_of_In, in_flat_map.
    intros (k' & Hk & Hv). apply filter_In in Hk as [Hk%list_elem_of_In _].
    unfold sorted_keys, sort_strings in Hk. rewrite (stable_sort_perm str_lt), list_elem_of_fmap in Hk.
    destruct Hk as ([k0 vs] & -> & Hk). apply elem_of_map_to_list in Hk. unfold header_Del in Hk.
    apply lookup_delete_Some in Hk as [Hne Hk]. unfold fields_under in Hv. apply in_map_iff in Hv as (v' & [= <- <-] & _).
    cbn [fst] in *. rewrite (Hcan k0) by (intros Hn; by pose proof (eq_trans (eq_sym Hn) Hk)). intros ->. by apply Hne. }
  clearbody fs. induction Hc as [|f fs (_ & k & Hk & Hf & _) Hc IH]; [done|]. apply Forall_cons in Hne as [Hnf Hne].
  cbn [map List.filter]. destruct (beq _ _) eqn:E; [|by apply IH]. apply beq_true in E. cbn [as_read fst] in E.
  rewrite Hf in E, Hnf. destruct Hnf. by apply canonical_fold.
Qed.

(** A WebSocket over HTTP/3 reaches the service as one HTTP/1.1 upgrade
    request without a body: a GET for the client's target with its end-to-end
    fields, one Upgrade field, and one Sec-WebSocket-Key, the edge's own and
    not the client's, so that the service's answer can be checked against it. *)
Theorem websocket_head_forwarded (r : Request) (key head rest : gostr)
    (Hcan : canonical_keys (r_Header r)) (Hkey : forallb graph_byte key = true)
    (Hw : webSocketHead r key = Ok head) :
  exists fields,
    parse_message (head ++ rest) = Some (mkMessage (bs "GET") (target r) fields [] [], rest) /\
    fields_of (bs "Sec-WebSocket-Key") fields = [key] /\ fields_of (bs "Upgrade") fields = [bs "websocket"] /\
    fields_of (bs "Host") fields = [r_Host r].
Proof.
  unfold webSocketHead in Hw. apply rbind_ok in Hw as (lines & Hl & Hw).
  assert (Hhead : head = lines ++ field_text (upgrade_fields r key) ++ CRLF) by (rewrite <- upgrade_text; congruence).
  subst head. clear Hw.
  destruct (http1Lines_spec _ _ Hl) as (-> & _ & Ht & Hsp & Hlf & Hh & Hc). cbn [upgrade_request r_Host r_Method r_Header] in *.
  change (target (upgrade_request r)) with (target r) in *.
  set (e2e := end_to_end (header_Del (r_Header r) (bs "Sec-Websocket-Key"))) in *.
  set (fs := (bs "Host", r_Host r) :: e2e ++ upgrade_fields r key). exists (map as_read fs).
  assert (Hwr : Forall writable fs).
  { constructor; [split; [done|by eapply forallb_avoid]|]. apply Forall_app. split.
    - eapply Forall_impl; [exact Hc|]. by intros f [Hf _].
    - unfold upgrade_fields. destruct (beq _ []); repeat constructor; try (apply (bool_decide_unpack _); by vm_compute);
        by eapply forallb_avoid. }
  assert (Hfs : field_text fs = field_text ((bs "Host", r_Host r) :: e2e) ++ field_text (upgrade_fields r key))
    by (by rewrite <- field_text_app).
  assert (Hof : forall D, fields_of D (map as_read fs) = fields_of D [as_read (bs "Host", r_Host r)] ++
      fields_of D (map as_read e2e) ++ fields_of D (map as_read (upgrade_fields r key)))
    by (intros D; by rewrite <- !fields_of_app, <- map_app).
  assert (Hother : forall D, canon_go true D = D -> dropped_key D = true -> fields_of D (map as_read e2e) = [])
    by (intros; by apply fields_of_crossing).
  split_and!.
  - match goal with |- parse_message ?x = _ => assert (Htext : x =
      (bs "GET" ++ bs " " ++ target r ++ bs " HTTP/1.1") ++ CRLF ++ (field_text fs ++ CRLF ++ rest))
      by (by rewrite Hfs, <- !app_assoc); rewrite Htext; clear Htext end.
    rewrite parse_head by done. unfold message_framing. rewrite !Hof, !Hother by done.
    unfold upgrade_fields. by destruct (beq _ []).
  - pose proof (upgrade_key_gone _ Hcan Hc) as Hgone. fold e2e in Hgone. rewrite Hof, Hgone. unfold upgrade_fields, fields_of. rewrite <- (trim_ows_graph key Hkey) at 2.
    by destruct (beq _ []).
  - rewrite Hof, Hother by done. unfold upgrade_fields. by destruct (beq _ []).
  - rewrite Hof, Hother by done. rewrite <- (trim_ows_graph (r_Host r) Hh) at 2. unfold upgrade_fields. by destruct (beq _ []).
Qed.
End forwarded.

(** ** Witnesses *)

(** An instance for closed examples. *)
Definition plain_guts : HttpGuts.
Proof.
  refine {| ValidHeaderFieldName := token; ValidHeaderFieldValue := forallb value_byte;
            ValidHostHeader := forallb graph_byte;
            ValidTrailerHeader := fun s =>
              negb (HasPrefix (CanonicalHeaderKey s) (bs "If-")) && negb (bool_decide (CanonicalHeaderKey s ∈ framing_names)) |};
    [done|done|done|]. intros s Hs. apply andb_prop in Hs as [_ Hs]. by apply negb_true_iff, bool_decide_eq_false_1 in Hs.
Defined.

Module Http1Witness.
#[local] Existing Instance plain_guts.

(** A POST of unknown length, with cookies, connection-level headers and a
    trailer; its body comes in two reads. *)
Definition post : Request :=
  mkRequest (bs "POST") (bs "HTTP/3.0") (bs "a.example") (bs "/x?y=1") []
    (list_to_map [(bs "cookie", [bs "a=1"; bs "b=2"]); (bs "Connection", [bs "close"]);
                  (bs "Transfer-Encoding", [bs "gzip"]); (bs "Accept", [bs " */* "])])
    (list_to_map [(bs "X-Sum", [])]) (-1).
Definition post_body : script := [(bs "hello ", None); (bs "world", Some [EOF])].
Definition post_trailer : Header := list_to_map [(bs "X-Sum", [bs "42"])].
Definition post_lines : gostr :=
  match http1Lines post with Ok l => l | Err _ => [] end.
Definition post_sent : sent :=
  default (mkSent [] None 0 false) (sendBody post (trailerNames (r_Trailer post)) post_body post_trailer (fun _ => None)).

Lemma http3_request_forwarded_witness :
  concat (s_writes post_sent) = bs "6" ++ CRLF ++ bs "hello " ++ CRLF ++ bs "5" ++ CRLF ++ bs "world" ++ CRLF ++
                       bs "0" ++ CRLF ++ bs "X-Sum: 42" ++ CRLF ++ CRLF /\
  exists m, parse_message (framed post_lines post (trailerNames (r_Trailer post)) ++ concat (s_writes post_sent) ++ bs "GET") =
    Some (m, bs "GET") /\ m_body m = bs "hello world" /\ m_trailer m = [(bs "X-Sum", bs "42")] /\
    m_fields m = [(bs "Host", bs "a.example"); (bs "Accept", bs "*/*"); (bs "Cookie", bs "a=1; b=2");
                  (bs "Trailer", bs "X-Sum"); (bs "Transfer-Encoding", bs "chunked")].
Proof.
  split; [vm_compute; reflexivity|].
  destruct (http3_request_forwarded post post_lines post_body post_trailer (fun _ => None) post_sent (bs "GET"))
    as [Hp _]; [vm_compute; reflexivity|vm_compute; reflexivity|vm_compute; reflexivity|].
  eexists. split; [exact Hp|]. split_and!; vm_compute; reflexivity.
Defined.

Definition socket : Request :=
  mkRequest (bs "CONNECT") (bs "websocket") (bs "a.example") (bs "/chat") []
    (list_to_map [(bs "Sec-Websocket-Key", [bs "theirs"]); (bs "Upgrade", [bs "h2c"])]) ∅ (-1).
Definition socket_head : gostr :=
  match webSocketHead socket (bs "b3Vycw==") with Ok h => h | Err _ => [] end.

Lemma websocket_head_forwarded_witness :
  exists fields, parse_message socket_head = Some (mkMessage (bs "GET") (bs "/chat") fields [] [], []) /\
  fields_of (bs "Sec-WebSocket-Key") fields = [bs "b3Vycw=="].
Proof.
  destruct (websocket_head_forwarded socket (bs "b3Vycw==") socket_head []) as (fs & Hp & Hk & _).
  - intros k Hk. cbn [socket r_Header] in Hk. destruct (decide (k = bs "Sec-Websocket-Key")) as [->|H1]; [reflexivity|].
    destruct (decide (k = bs "Upgrade")) as [->|H2]; [reflexivity|]. destruct Hk. apply not_elem_of_list_to_map.
    simpl. rewrite !elem_of_cons, elem_of_nil. tauto.
  - reflexivity.
  - vm_compute. reflexivity.
  - exists fs. rewrite app_nil_r in Hp. split; [exact Hp|exact Hk].
Defined.
End Http1Witness.
