(* ===== verification/Quic.v ===== *)
(** * QUIC connections ([cappedListener], [connActivity] and [serveHTTP3Until] of
      [internal/edge/http3.go])

    Each accepted connection takes a slot of the global cap until it closes, and
    is closed once it has had no request in progress for too long, or when the
    edge's HTTP/3 server stops.  The state is all connections with the clock and
    how far [serveHTTP3Until] is; events are the critical sections of the code,
    timers firing, and time passing.  Timer functions run on goroutines of their
    own, so one that has started can be overtaken by a request. *)

From S2P Require Import Prelude GoStrings H3Pool.
#[local] Open Scope Z_scope.

(** ** [cappedListener.Accept] *)

Inductive accept_result := Accepted | ShuttingDown | TooMany.

(** What becomes of one connection [quic.Listener.Accept] returned; [stopped] is
    whether the context has ended. *)
Definition accept_one (draining stopped : bool) (sem : semaphore) : semaphore * accept_result :=
  if draining || stopped then (sem, ShuttingDown)
  else
    let '(sem, ok) := tryAcquire sem in
    if negb ok then (sem, TooMany) else (sem, Accepted).

(** The loop: the connections turned away before the one that is returned, or
    all of them when the listener fails after the last. *)
Fixpoint Accept (draining : bool) (arrivals : list (nat * bool)) (sem : semaphore)
    : semaphore * list (nat * accept_result) * option nat :=
  match arrivals with
  | [] => (sem, [], None)
  | (id, stopped) :: arrivals =>
      match accept_one draining stopped sem with
      | (sem, Accepted) => (sem, [], Some id)
      | (sem, why) => let '(sem, l, r) := Accept draining arrivals sem in (sem, (id, why) :: l, r)
      end
  end.

(** ** [connActivity] *)

(** [timer] is when the timer fires, if it is running; [fired] how many of its
    functions have started and wait for the lock.  [since] (since when no
    request is in progress) and [released] (whether the slot was given back) are
    not in the code's record. *)
Record connActivity := mkActivity {
  active : Z;
  timer : option Z;
  fired : nat;
  gone : bool;
  since : Z;
  released : bool;
}.

Definition newConnActivity (now first : Z) : connActivity := mkActivity 0 (Some (now + first)) 0 false now false.

Definition begin (a : connActivity) : connActivity :=
  mkActivity (active a + 1) None (fired a) (gone a) (since a) (released a).

(** The func [begin] returns. *)
Definition end_ (now idle : Z) (a : connActivity) : connActivity :=
  let active := active a - 1 in
  mkActivity active
    (if (active =? 0) && negb (gone a) then Some (now + idle) else timer a)
    (fired a) (gone a) (if active =? 0 then now else since a) (released a).

(** The timer function. *)
Definition idle_check (a : connActivity) : connActivity :=
  mkActivity (active a) (timer a) (pred (fired a)) (gone a || (active a =? 0)) (since a) (released a).

Definition expire (a : connActivity) : connActivity :=
  mkActivity (active a) None (S (fired a)) (gone a) (since a) (released a).

(** ** The system *)

(** Where [serveHTTP3Until] is: serving; inside [srv.Shutdown], which waits for
    requests until the drain time is over; and past it, or after the server
    failed, where [srv.Close] and [tr.Close] close what is left. *)
Inductive stop_why := ServeFailed | RequestsDone | DrainOver (until : Z).
Inductive stage := Serving | Draining (until : Z) | Stopping (why : stop_why).

(** [ln.draining]. *)
Definition draining (g : stage) : bool := match g with Draining _ | Stopping (RequestsDone | DrainOver _) => true | _ => false end.

Record state := mkState {
  now : Z;
  sem : semaphore;
  tcp : Z;                                  (* slots TCP connections hold *)
  phase : stage;
  quics : gmap nat connActivity;
}.

Definition with_conn (id : nat) (f : connActivity -> connActivity) (s : state) : state :=
  mkState (now s) (sem s) (tcp s) (phase s) (alter f id (quics s)).

Inductive event :=
| Arrive (id : nat) (stopped : bool)
| Begin (id : nat)
| End (id : nat)
| Expire (id : nat)
| RunTimer (id : nat)
| PeerCloses (id : nat)
| StopTimer (id : nat)                      (* context.AfterFunc: a.timer.Stop *)
| ReleaseSlot (id : nat)                    (* context.AfterFunc: sem.release *)
| TcpTakes
| TcpReleases
| Drain (budget : Z)                        (* ctx ends: Shutdown, with [drain_timeout] *)
| Stop (why : stop_why)                     (* Shutdown returns, or ServeListener fails *)
| EdgeCloses (id : nat)                     (* Shutdown, srv.Close or tr.Close closes it *)
| Tick (t : Z).

Section system.
Context (first idle : Z).

(** Time passes only up to the next timer, and not while something that is due
    has not run.  While it drains, the server closes a connection once its
    requests are done; [Shutdown] itself returns when there are none, or at the
    end of the drain time. *)
Definition due_after (t : Z) (a : connActivity) : Prop :=
  fired a = 0%nat /\ (forall d, timer a = Some d -> t <= d) /\ (gone a = true -> released a = true).

Definition enabled (e : event) (s : state) : Prop :=
  match e with
  | Arrive id _ => quics s !! id = None /\ match phase s with Stopping _ => False | _ => True end
  | Begin id | PeerCloses id => is_Some (quics s !! id)
  | End id => exists a, quics s !! id = Some a /\ 0 < active a
  | Expire id => exists a d, quics s !! id = Some a /\ timer a = Some d /\ d <= now s
  | RunTimer id => exists a, quics s !! id = Some a /\ (0 < fired a)%nat
  | StopTimer id => exists a, quics s !! id = Some a /\ gone a = true
  | ReleaseSlot id => exists a, quics s !! id = Some a /\ gone a = true /\ released a = false
  | TcpTakes => True
  | Drain _ => phase s = Serving
  | Stop ServeFailed => phase s = Serving
  | Stop RequestsDone => (exists t, phase s = Draining t) /\
      forall id a, quics s !! id = Some a -> gone a = false -> active a = 0
  | Stop (DrainOver t) => phase s = Draining t /\ t <= now s
  | EdgeCloses id => exists a, quics s !! id = Some a /\
      match phase s with Serving => False | Draining _ => active a = 0 | Stopping _ => True end
  | TcpReleases => 0 < tcp s
  | Tick t => now s <= t /\ forall id a, quics s !! id = Some a -> due_after t a
  end.

Definition close_gone (a : connActivity) : connActivity :=
  mkActivity (active a) (timer a) (fired a) true (since a) (released a).
Definition stop_timer (a : connActivity) : connActivity :=
  mkActivity (active a) None (fired a) (gone a) (since a) (released a).
Definition give_back (a : connActivity) : connActivity :=
  mkActivity (active a) (timer a) (fired a) (gone a) (since a) true.

Definition exec (e : event) (s : state) : state :=
  match e with
  | Arrive id stopped =>
      match accept_one (draining (phase s)) stopped (sem s) with
      | (sem', Accepted) =>
          mkState (now s) sem' (tcp s) (phase s) (<[id := newConnActivity (now s) first]> (quics s))
      | (sem', _) => mkState (now s) sem' (tcp s) (phase s) (quics s)
      end
  | Begin id => with_conn id begin s
  | End id => with_conn id (end_ (now s) idle) s
  | Expire id => with_conn id expire s
  | RunTimer id => with_conn id idle_check s
  | PeerCloses id => with_conn id close_gone s
  | StopTimer id => with_conn id stop_timer s
  | ReleaseSlot id =>
      let s := with_conn id give_back s in
      mkState (now s) (release (sem s)) (tcp s) (phase s) (quics s)
  | TcpTakes =>
      let '(sem', ok) := tryAcquire (sem s) in
      mkState (now s) sem' (if ok then tcp s + 1 else tcp s) (phase s) (quics s)
  | TcpReleases => mkState (now s) (release (sem s)) (tcp s - 1) (phase s) (quics s)
  | Drain budget => mkState (now s) (sem s) (tcp s) (Draining (now s + budget)) (quics s)
  | Stop why => mkState (now s) (sem s) (tcp s) (Stopping why) (quics s)
  | EdgeCloses id => with_conn id close_gone s
  | Tick t => mkState t (sem s) (tcp s) (phase s) (quics s)
  end.

Definition step : state -> state -> Prop := steps enabled exec.

Definition initial (t0 : Z) (max : Z) : state := mkState t0 (newSemaphore max) 0 Serving ∅.

(** ** Invariants *)

Definition holds (a : connActivity) : bool := negb (released a).

(** A quiet connection's end is due: its timer runs, or its function does. *)
Definition bound : Z := Z.max first idle.
Definition watched (t : Z) (a : connActivity) : Prop :=
  gone a = false -> active a = 0 ->
  t <= since a + bound /\ ((0 < fired a)%nat \/ exists d, timer a = Some d /\ t <= d <= since a + bound).

Record conn_ok (t : Z) (a : connActivity) : Prop := {
  ok_active : 0 <= active a;
  ok_watched : watched t a;
  ok_released : released a = true -> gone a = true;
}.

Record Inv (max : Z) (s : state) : Prop := {
  inv_conns : forall id a, quics s !! id = Some a -> conn_ok (now s) a;
  inv_slots : match sem s with
              | None => max <= 0
              | Some m => cap m = max /\ used m = tcp s + Z.of_nat (count_if holds (quics s)) /\ used m <= max
              end;
  inv_tcp : 0 <= tcp s;
  inv_over : forall t, phase s = Stopping (DrainOver t) -> t <= now s;
}.

Context (Hfirst : 0 <= first) (Hidle : 0 <= idle).

(** What one connection's own events keep. *)
Lemma conn_ok_step t a : conn_ok t a ->
  conn_ok t (begin a) /\ (0 < active a -> conn_ok t (end_ t idle a)) /\ (forall d, timer a = Some d -> d <= t -> conn_ok t (expire a)) /\
  conn_ok t (idle_check a) /\ conn_ok t (close_gone a) /\ (gone a = true -> conn_ok t (stop_timer a)) /\
  (gone a = true -> conn_ok t (give_back a)).
Proof.
  intros [Ha Hw Hr]. unfold watched, bound in Hw. split_and!.
  - split; simpl; [lia| |done]. intros _ ?. simpl in *. lia.
  - intros Hpos. split; simpl; [lia| |done]. unfold watched, bound. simpl. intros Hg H0. rewrite Hg, H0. simpl.
    split; [lia|]. right. eexists. split; [done|]. lia.
  - intros d Hd Ht. split; simpl; [done| |done]. unfold watched, bound. simpl. intros Hg H0. destruct (Hw Hg H0). split; [lia|left; lia].
  - split; simpl; [done| |intros H; by rewrite (Hr H)]. unfold watched. simpl. intros [_ Hn]%orb_false_elim H0. rewrite H0 in Hn. done.
  - by split.
  - intros Hg. split; simpl; [done| |done]. intros Hg' _. simpl in Hg'. congruence.
  - intros Hg. by split.
Qed.

Lemma new_ok t : conn_ok t (newConnActivity t first).
Proof.
  split; simpl; [lia| |done]. unfold watched, bound. simpl. intros _ _. split; [lia|]. right. eexists. split; [done|lia].
Qed.

Lemma watched_later t t' a : due_after t' a -> t <= t' -> watched t a -> watched t' a.
Proof.
  intros (Hf & Hd & _) Ht Hw Hg H0. destruct (Hw Hg H0) as [H1 [H2|(d & Hd' & H2)]]; [lia|].
  specialize (Hd d Hd'). split; [lia|]. right. exists d. split; [done|lia].
Qed.

(** Events on one connection. *)
Lemma with_conn_inv max id f s : Inv max s ->
  (forall a, quics s !! id = Some a -> conn_ok (now s) (f a) /\ holds (f a) = holds a) -> Inv max (with_conn id f s).
Proof.
  intros [Hc Hs Ht Hov] Hf. destruct (quics s !! id) as [a|] eqn:E.
  - destruct (Hf a eq_refl) as [Hok Hh].
    assert (Hq : quics (with_conn id f s) = <[id := f a]> (quics s)).
    { apply map_eq. intros j. simpl. destruct (decide (id = j)) as [->|].
      - by rewrite lookup_alter_eq, E, lookup_insert_eq.
      - by rewrite lookup_alter_ne, lookup_insert_ne. }
    split; simpl.
    + intros j b. simpl in Hq. rewrite Hq, lookup_insert. case_decide; [by intros [= <-]|apply Hc].
    + simpl in Hq. rewrite Hq. pose proof (count_if_update holds (quics s) id a (f a) E) as Hcu. rewrite Hh in Hcu.
      destruct (sem s); [|done]. destruct Hs as (? & ? & ?). split_and!; [done|lia|done].
    + done.
    + done.
  - assert (Hq : alter f id (quics s) = quics s) by (apply alter_id; intros ? Hx; congruence).
    split; simpl; rewrite ?Hq; done.
Qed.

Lemma accept_inv max id stopped s : quics s !! id = None -> Inv max s -> Inv max (exec (Arrive id stopped) s).
Proof.
  intros Hn [Hc Hs Ht Hov]. simpl. unfold accept_one. destruct (_ || _); [by split|].
  destruct (sem s) as [m|] eqn:Es; simpl.
  - destruct (used m <? cap m) eqn:E; simpl; b2p; [|split; simpl; rewrite ?Es; done]. destruct Hs as (Hs1 & Hs2 & Hs3).
    split; simpl; [|rewrite count_if_new by done; simpl; split_and!; lia|done|done].
    intros j b. rewrite lookup_insert. case_decide; [intros [= <-]; apply new_ok|apply Hc].
  - split; simpl; [|done|done|done].
    intros j b. rewrite lookup_insert. case_decide; [intros [= <-]; apply new_ok|apply Hc].
Qed.

Lemma release_inv max id a s : quics s !! id = Some a -> gone a = true -> released a = false ->
  Inv max s -> Inv max (exec (ReleaseSlot id) s).
Proof.
  intros E Hg Hr [Hc Hs Ht Hov].
  assert (Hq : alter give_back id (quics s) = <[id := give_back a]> (quics s)).
  { apply map_eq. intros j. destruct (decide (id = j)) as [->|].
    - by rewrite lookup_alter_eq, E, lookup_insert_eq.
    - by rewrite lookup_alter_ne, lookup_insert_ne. }
  pose proof (count_if_update holds (quics s) id a (give_back a) E) as Hcu. unfold holds in Hcu at 2 4. rewrite Hr in Hcu. simpl in Hcu.
  split; simpl; rewrite ?Hq; [| |done|done].
  - intros j b. rewrite lookup_insert. case_decide; [|apply Hc]. intros [= <-].
    by apply (conn_ok_step (now s) a (Hc id a E)).
  - destruct (sem s); simpl; [|done]. destruct Hs as (? & ? & ?). split_and!; [done|lia|lia].
Qed.

Lemma step_inv max e s : enabled e s -> Inv max s -> Inv max (exec e s).
Proof.
  intros He HI. pose proof (fun id a Ha => conn_ok_step (now s) a (inv_conns _ _ HI id a Ha)) as Hstep.
  destruct e as [id stopped|id|id|id|id|id|id|id| | |budget|why|id|t]; simpl in He.
  - apply accept_inv; [apply He|done].
  - apply with_conn_inv; [done|]. intros a Ha. by destruct (Hstep id a Ha) as (? & _).
  - apply with_conn_inv; [done|]. destruct He as (b & Hb & Hpos). intros a Ha. assert (b = a) as -> by congruence. split; [by apply (Hstep id a Ha)|done].
  - apply with_conn_inv; [done|]. destruct He as (b & d & Hb & Hd & Hle). intros a Ha. assert (b = a) as -> by congruence. split; [|done].
    by destruct (Hstep id a Ha) as (_ & _ & Hx & _); apply (Hx d).
  - apply with_conn_inv; [done|]. intros a Ha. by destruct (Hstep id a Ha) as (_ & _ & _ & ? & _).
  - apply with_conn_inv; [done|]. intros a Ha. by destruct (Hstep id a Ha) as (_ & _ & _ & _ & ? & _).
  - apply with_conn_inv; [done|]. destruct He as (b & Hb & Hg). intros a Ha. assert (b = a) as -> by congruence. split; [|done].
    by destruct (Hstep id a Ha) as (_ & _ & _ & _ & _ & Hx & _); apply Hx.
  - destruct He as (a & Ha & Hg & Hr). by apply (release_inv max id a).
  - destruct HI as [Hc Hs Ht Hov]. simpl. destruct (sem s) as [m|] eqn:Es; simpl.
    + destruct Hs as (? & ? & ?). destruct (used m <? cap m) eqn:E; simpl; b2p; (split; simpl; [done| |lia|done]);
        rewrite ?Es; split_and!; lia.
    + split; simpl; [done|done|lia|done].
  - destruct HI as [Hc Hs Ht Hov]. split; simpl; [done| |lia|done]. destruct (sem s); simpl; [|done]. destruct Hs as (? & ? & ?). split_and!; lia.
  - destruct HI. by split.
  - destruct HI as [Hc Hs Ht Hov]. split; simpl; [done..|]. intros t [= ->]. by destruct He.
  - apply with_conn_inv; [done|]. intros a Ha. by destruct (Hstep id a Ha) as (_ & _ & _ & _ & ? & _).
  - destruct HI as [Hc Hs Ht Hov]. destruct He as [Hle Hdue]. split; simpl; [|done|done|intros u Hu; specialize (Hov u Hu); lia].
    intros id a Ha. destruct (Hc id a Ha). split; [done| |done]. eapply watched_later; [by eapply Hdue|done|done].
Qed.

Lemma quic_initial_inv t0 max : Inv max (initial t0 max).
Proof.
  split; simpl; [intros id a; by rewrite lookup_empty| |lia|done]. unfold newSemaphore. destruct (_ <=? _) eqn:E; b2p; [done|].
  simpl. rewrite count_if_empty. split_and!; lia.
Qed.

Lemma reachable_inv t0 max s : rtc step (initial t0 max) s -> Inv max s.
Proof. intros Hr. eapply steps_invariant; [|exact Hr|apply quic_initial_inv]. intros e s' He. by apply step_inv. Qed.
End system.

(** ** Time goes on *)

Section progress.
Context (first idle : Z).







End progress.


(** ** Properties *)


(** [C40] The cap holds: the slots in use are those of TCP connections and of
    QUIC connections whose close has not given theirs back, never more than
    [max_connections]; a connection turned away takes none. *)
Theorem quic_slots_exact (first idle t0 max : Z) (s : state)
    (Hfirst : 0 <= first) (Hidle : 0 <= idle) (Hmax : 0 < max) (Hr : rtc (step first idle) (initial t0 max) s) :
  exists m, sem s = Some m /\ cap m = max /\ used m = tcp s + Z.of_nat (count_if holds (quics s)) /\ used m <= max.
Proof.
  destruct (reachable_inv first idle Hfirst Hidle t0 max s Hr) as [_ Hs _].
  destruct (sem s) as [m|]; [|lia]. exists m. tauto.
Qed.

(** ** Witnesses *)

Module QuicWitness.
(** Two slots: one connection is served a request and goes quiet, a second never
    sends one and is closed by its timer, a third is turned away meanwhile. *)
Definition schedule : list event :=
  [Arrive 1 false; Begin 1; Arrive 2 false; Arrive 3 false; Tick 10; Expire 2; RunTimer 2; ReleaseSlot 2; End 1; Tick 25].
Definition after : state := foldl (fun s e => exec 10 30 e s) (initial 0 2) schedule.

Lemma reached : rtc (step 10 30) (initial 0 2) after.
Proof.
  unfold after, schedule. cbn [foldl].
  rtc_step (Arrive 1 false) ltac:(split; [reflexivity|exact I]). rtc_step (Begin 1) ltac:(vm_compute; eauto).
  rtc_step (Arrive 2 false) ltac:(split; [reflexivity|exact I]). rtc_step (Arrive 3 false) ltac:(split; [reflexivity|exact I]).
  assert (Hdue : forall t s, map_Forall (fun _ a => due_after t a) (quics s) ->
    forall id a, quics s !! id = Some a -> due_after t a) by (intros t s Hm id a Ha; exact (Hm id a Ha)).
  rtc_step (Tick 10) ltac:(split; [vm_compute; discriminate|]; apply Hdue; apply map_Forall_to_list; vm_compute;
    repeat constructor; vm_compute; intros; simplify_eq; try done).
  rtc_step (Expire 2) ltac:(do 2 eexists; split_and!; [reflexivity|reflexivity|vm_compute; discriminate]).
  rtc_step (RunTimer 2) ltac:(eexists; split; [reflexivity|vm_compute; lia]).
  rtc_step (ReleaseSlot 2) ltac:(eexists; split_and!; reflexivity).
  rtc_step (End 1) ltac:(eexists; split; [reflexivity|vm_compute; reflexivity]).
  rtc_step (Tick 25) ltac:(split; [vm_compute; discriminate|]; apply Hdue; apply map_Forall_to_list; vm_compute;
    repeat constructor; vm_compute; intros; simplify_eq; try done).
  apply rtc_refl.
Qed.


Lemma quic_slots_exact_witness : exists m, sem after = Some m /\ used m = 1.
Proof.
  destruct (quic_slots_exact 10 30 0 2 after) as (m & Hm & _ & Hu & _); [lia|lia|lia|exact reached|].
  exists m. split; [exact Hm|]. rewrite Hu. vm_compute. reflexivity.
Defined.
End QuicWitness.
