(* ===== verification/H3Body.v ===== *)
(** * Bodies and responses of HTTP/3 requests ([internal/edge/http3.go])

    The readers and copy loops around one exchange: the look at a body of unknown
    length ([peekBody]), the body held in memory ([holdBody]), the limit on a
    response head ([headLimit]), the loop over interim responses
    ([readResponse]) and the copy of a response to the client
    ([copyResponse]). *)

From S2P Require Import Prelude GoStrings Numeral IO HttpHead Http1.
#[local] Open Scope Z_scope.

(** ** [peekBody] *)

(** The first read of a body, started ahead of time: what it returned and what
    is left ([None] if it has not returned), whether it had returned when it was
    looked at, and whether its bytes have been taken. *)
Record peekedBody := mkPeeked {
  pk_first : option (gostr * option error * script);
  pk_seen : bool;
  pk_taken : bool;
}.

Definition peekBody (body : script) (in_time : bool) : peekedBody :=
  mkPeeked (Read 512 body) (in_time && bool_decide (is_Some (Read 512 body))) false.

(** [length]: [-1] means chunked. *)
Definition peeked_length (p : peekedBody) : Z :=
  match pk_first p with
  | Some (buf, Some e, _) => if pk_seen p && errors_is e EOF then Z.of_nat (length buf) else -1
  | _ => -1
  end.

(** [peekedBody.Read]; [None] while it waits. *)
Definition peeked_read (cap : nat) (p : peekedBody) : option (gostr * option error * peekedBody) :=
  '(buf, err, rest) ← pk_first p;
  let read_on :=
    '(c, e, rest) ← Read cap rest; Some (c, e, mkPeeked (Some ([], err, rest)) (pk_seen p) true) in
  if pk_taken p then read_on
  else
    match buf with
    | [] =>
        match err with
        | Some e => Some ([], Some e, mkPeeked (Some ([], err, rest)) (pk_seen p) true)
        | None => read_on
        end
    | _ => Some (take cap buf, None, mkPeeked (Some (drop cap buf, err, rest)) (pk_seen p) false)
    end.

(** The script a peeked body reads like. *)
Definition peeked_script (p : peekedBody) : script :=
  match pk_first p with
  | None => []
  | Some (buf, err, rest) =>
      if pk_taken p then rest
      else (match buf with [] => [] | _ => [(buf, None)] end) ++
           (match err with Some e => [([], Some e)] | None => [] end) ++ rest
  end.

(** ** [holdBody] *)

Definition maxHeldBody : Z := Z.shiftl 64 10.

(** [io.ReadFull] on single reads; [None] is a read that does not return. *)
Fixpoint read_full (fuel n : nat) (got : gostr) (s : script) : option (result error (gostr * script)) :=
  if (n <=? length got)%nat then Some (Ok (got, s))
  else
    match fuel with
    | O => None
    | S fuel =>
        '(c, err, s) ← Read (n - length got) s;
        let got := got ++ c in
        match err with
        | Some e =>
            if (n <=? length got)%nat then Some (Ok (got, s))
            else Some (Err (if error_eq e EOF && (0 <? length got)%nat then [ErrUnexpectedEOF] else e))
        | None => read_full fuel n got s
        end
    end.

(** Whether a body may be held. *)
Definition holdable `{Unicode} (r : Request) (trailers : list gostr) : bool :=
  negb ((0 <? length trailers)%nat || expectsContinue r || (r_ContentLength r <? 0) || (maxHeldBody <? r_ContentLength r)).

(** [holdBody]: the bytes held, whether the body counts as held, and the error;
    [bounded] is whether a read deadline could be set. *)
Definition holdBody `{Unicode} (r : Request) (trailers : list gostr) (body : script) (bounded : bool)
    : option (result error (gostr * bool)) :=
  if negb (holdable r trailers) then Some (Ok ([], false))
  else if r_ContentLength r =? 0 then Some (Ok ([], true))
  else if negb bounded then Some (Ok ([], false))
  else
    o ← read_full (S (script_size body)) (Z.to_nat (r_ContentLength r)) [] body;
    Some (match o with Ok (b, _) => Ok (b, true) | Err e => Err e end).

(** ** [headLimit] *)

Record headLimit := mkLimit { hl_left : Z; hl_freed : bool }.

Definition headLimitBytes : Z := maxHeaderBytes + Z.shiftl 32 10.

Definition newHeadLimit : headLimit := mkLimit headLimitBytes false.
Definition limit_done (h : headLimit) : headLimit := mkLimit (hl_left h) true.
Definition limit_reset (h : headLimit) : headLimit := mkLimit headLimitBytes (hl_freed h).

Inductive limit_error := HeadTooLarge | ReadError (e : error).

Definition limit_read (cap : nat) (h : headLimit) (s : script)
    : option (gostr * option limit_error * headLimit * script) :=
  if hl_freed h then '(c, e, s) ← Read cap s; Some (c, option_map ReadError e, h, s)
  else if hl_left h <=? 0 then Some ([], Some HeadTooLarge, h, s)
  else
    '(c, e, s) ← Read (min cap (Z.to_nat (hl_left h))) s;
    Some (c, option_map ReadError e, mkLimit (hl_left h - Z.of_nat (length c)) false, s).

(** ** [readResponse] *)

(** A response as [http.ReadResponse] gives it; [rp_Trailer] is known once the
    body has been read. *)
Record Response := mkResponse {
  StatusCode : Z;
  rp_Header : Header;
  rp_ContentLength : Z;
  rp_Close : bool;
  rp_Body : script;
  rp_Trailer : Header;
}.

Inductive response_error := RespRead (e : error) | InvalidStatus (code : Z) | UnexpectedSwitch.

(** The loop over what successive calls of [http.ReadResponse] return: the
    interim responses passed on, and the outcome; [None] while it waits for
    one. *)
Fixpoint readResponse (upgrade : bool) (answers : list (result error Response))
    : option (list Response * result response_error Response) :=
  match answers with
  | [] => None
  | Err e :: _ => Some ([], Err (RespRead e))
  | Ok resp :: answers =>
      if StatusCode resp <? 100 then Some ([], Err (InvalidStatus (StatusCode resp)))
      else if (StatusCode resp =? 101) && upgrade then Some ([], Ok resp)
      else if StatusCode resp =? 101 then Some ([], Err UnexpectedSwitch)
      else if (100 <=? StatusCode resp) && (StatusCode resp <? 200)
      then '(l, o) ← readResponse upgrade answers; Some (resp :: l, o)
      else Some ([], Ok resp)
  end.

Definition isTunnelGone (err : response_error) : bool :=
  match err with
  | RespRead e => errors_is e EOF || errors_is e ErrUnexpectedEOF || IsTeardown e
  | _ => false
  end.

Definition isTimeout (err : response_error) : bool :=
  match err with
  | RespRead e => errors_is e ErrDeadlineExceeded || errors_is e NetTimeout
  | _ => false
  end.

(** ** [copyResponse] *)

(** What was written to the client and the error; [wr i] is the error of the
    [i]-th write. *)
Fixpoint copy_response (fuel : nat) (wr : nat -> option error) (i : nat) (src : script)
    : option (list gostr * option error) :=
  match fuel with
  | O => None
  | S fuel =>
      '(c, err, src) ← Read (Z.to_nat (Z.shiftl 32 10)) src;
      let next (i : nat) :=
        match err with
        | Some e => Some ([], if errors_is e EOF then None else Some e)
        | None => copy_response fuel wr i src
        end in
      match c with
      | [] => next i
      | _ =>
          match wr i with
          | Some e => Some ([], Some e)
          | None => '(l, e) ← next (S i); Some (c :: l, e)
          end
      end
  end.

Definition copyResponse (wr : nat -> option error) (src : script) : option (list gostr * option error) :=
  copy_response (S (script_size src)) wr 0 src.

(** ** Facts *)

(** The error a script ends in. *)
Fixpoint end_error (s : script) : option error :=
  match s with
  | [] => None
  | (_, None) :: s => end_error s
  | (_, Some e) :: _ => Some e
  end.

Lemma Read_end_error cap s c e s' : Read cap s = Some (c, e, s') ->
  end_error s = match e with None => end_error s' | Some _ => e end.
Proof.
  destruct s as [|[d f] s]; simpl; [done|]. destruct (_ <=? _)%nat; intros [= <- <- <-]; by destruct f.
Qed.

(** A peeked body reads as its script does. *)
Lemma peeked_read_sim cap p :
  match peeked_read cap p, Read cap (peeked_script p) with
  | Some (c, e, p'), Some (c', e', s') => c = c' /\ e = e' /\ peeked_script p' = s'
  | None, None => True
  | _, _ => False
  end.
Proof.
  destruct p as [[[[buf err] rest]|] seen taken]; unfold peeked_read, peeked_script; cbn [pk_first pk_seen pk_taken mbind option_bind]; [|done].
  destruct taken; [by destruct (Read cap rest) as [[[]]|]|].
  destruct buf as [|b buf]; cbn [app].
  - destruct err as [e|]; cbn [app]; [done|]. by destruct (Read cap rest) as [[[]]|].
  - cbn [Read]. destruct (length (b :: buf) <=? cap)%nat eqn:E; b2p.
    + rewrite take_ge, drop_ge by done. split_and!; [done|done|]. by destruct err.
    + split_and!; [done|done|]. destruct (drop cap (b :: buf)) eqn:Ed; [|by destruct err].
      apply (f_equal length) in Ed. rewrite length_drop in Ed. simpl in *. lia.
Qed.

Lemma until_end_app_None c s : until_end ((c, None) :: s) = c ++ until_end s.
Proof. done. Qed.

Lemma peekBody_script body t :
  until_end (peeked_script (peekBody body t)) = until_end body /\
  end_error (peeked_script (peekBody body t)) = end_error body.
Proof.
  unfold peekBody, peeked_script. cbn [pk_first pk_taken]. destruct (Read 512 body) as [[[buf err] rest]|] eqn:ER.
  - rewrite (Read_until_end _ _ _ _ _ ER), (Read_end_error _ _ _ _ _ ER).
    destruct buf, err; simpl; by rewrite ?app_nil_r.
  - destruct body as [|[d e] body]; [done|]. simpl in ER. by destruct (_ <=? _)%nat.
Qed.

Lemma peeked_length_exact body t : 0 <= peeked_length (peekBody body t) ->
  Z.of_nat (length (until_end body)) = peeked_length (peekBody body t) /\
  exists e, end_error body = Some e /\ errors_is e EOF = true.
Proof.
  unfold peeked_length, peekBody. cbn [pk_first pk_seen]. destruct (Read 512 body) as [[[buf [e|]] rest]|] eqn:ER; try lia.
  destruct (_ && errors_is e EOF) eqn:E; [|lia]. apply andb_prop in E as [_ E]. intros _.
  rewrite (Read_until_end _ _ _ _ _ ER), (Read_end_error _ _ _ _ _ ER), app_nil_r. eauto.
Qed.

Lemma read_full_spec fuel n got s b s' : read_full fuel n got s = Some (Ok (b, s')) -> (length got <= n)%nat ->
  b = take n (got ++ until_end s) /\ length b = n.
Proof.
  revert got s; induction fuel as [|fuel IH]; intros got s; cbn [read_full]; intros Hr Hg.
  - destruct (n <=? length got)%nat eqn:E; [|done]. b2p. injection Hr as <- <-.
    assert (Hn : length got = n) by lia. split; [|done]. by rewrite <- Hn, take_app_length.
  - destruct (n <=? length got)%nat eqn:E; b2p.
    { injection Hr as <- <-. assert (Hn : length got = n) by lia. split; [|done]. by rewrite <- Hn, take_app_length. }
    destruct (Read _ s) as [[[c err] s1]|] eqn:ER; [|done]. cbn [mbind option_bind] in Hr.
    pose proof (Read_cap _ _ _ _ _ ER) as Hcap. rewrite (Read_until_end _ _ _ _ _ ER), app_assoc.
    assert (Hlen : (length (got ++ c) <= n)%nat) by (rewrite length_app; lia).
    destruct err as [e|]; [|by apply (IH (got ++ c) s1)].
    destruct (n <=? length (got ++ c))%nat eqn:E2; [|by destruct (_ && _)]. b2p. injection Hr as <- <-.
    assert (Hn : length (got ++ c) = n) by lia. split; [|done]. by rewrite <- Hn, take_app_length.
Qed.

(** A held body is the whole body, and small. *)
Lemma holdBody_exact `{Unicode} r trailers body bounded b : holdBody r trailers body bounded = Some (Ok (b, true)) ->
  trailers = [] /\ 0 <= r_ContentLength r <= maxHeldBody /\ Z.of_nat (length b) = r_ContentLength r /\
  b = take (Z.to_nat (r_ContentLength r)) (until_end body).
Proof.
  unfold holdBody. destruct (holdable r trailers) eqn:Eh; cbn [negb]; [|done].
  unfold holdable in Eh. apply negb_true_iff in Eh.
  apply orb_false_elim in Eh as [[[Ht _]%orb_false_elim H0]%orb_false_elim Hm]. b2p.
  assert (Htr : trailers = []) by (destruct trailers; [done|simpl in *; lia]).
  destruct (r_ContentLength r =? 0) eqn:Ez; b2p.
  { intros [= <-]. rewrite Ez. split_and!; try done; unfold maxHeldBody; simpl; lia. }
  destruct bounded; cbn [negb]; [|done]. destruct (read_full _ _ _ _) as [[[b' s']|e]|] eqn:Er; cbn [mbind option_bind]; [|done|done].
  intros [= <-]. apply read_full_spec in Er as [Hb Hl]; [|simpl; lia]. split_and!; [done|lia|lia|lia|done].
Qed.

(** A response that was copied without an error is all there, up to its end. *)
Lemma copy_response_spec fuel wr i src l : copy_response fuel wr i src = Some (l, None) ->
  concat l = until_end src /\ exists e, end_error src = Some e /\ errors_is e EOF = true.
Proof.
  revert i src l; induction fuel as [|fuel IH]; intros i src l; cbn [copy_response]; [done|].
  destruct (Read _ src) as [[[c err] src']|] eqn:ER; [|done]. cbn [mbind option_bind].
  rewrite (Read_until_end _ _ _ _ _ ER), (Read_end_error _ _ _ _ _ ER).
  assert (Hnext : forall j l, match err with
      | Some e => Some ([], if errors_is e EOF then None else Some e)
      | None => copy_response fuel wr j src' end = Some (l, None) ->
    concat l = match err with None => until_end src' | Some _ => [] end /\
    exists e, match err with None => end_error src' | Some _ => err end = Some e /\ errors_is e EOF = true).
  { intros j l0 Hl. destruct err as [e|]; [|by eapply IH]. destruct (errors_is e EOF) eqn:Ee; [|done].
    injection Hl as <-. split; [done|]. eauto. }
  destruct c as [|a c]; [apply Hnext|].
  destruct (wr i); [done|]. match goal with |- context [mbind _ ?x] => destruct x as [[l0 e0]|] eqn:E end; [|done].
  cbn [mbind option_bind]. intros [= <- ->]. apply Hnext in E as [Hb He]. split; [|done]. simpl. by rewrite Hb.
Qed.

(** *** The head limit *)

(** The bytes of successive reads with buffers of the given sizes, until one
    fails or waits. *)
Fixpoint limit_reads (caps : list nat) (h : headLimit) (s : script) : gostr :=
  match caps with
  | [] => []
  | cap :: caps =>
      match limit_read cap h s with
      | Some (c, None, h, s) => c ++ limit_reads caps h s
      | Some (c, Some _, _, _) => c
      | None => []
      end
  end.

(** Before the head has ended a service gets at most the limit's bytes into
    memory, however it sends them. *)
Lemma limit_reads_bound caps h s : hl_freed h = false ->
  Z.of_nat (length (limit_reads caps h s)) <= Z.max 0 (hl_left h).
Proof.
  revert h s; induction caps as [|cap caps IH]; intros h s Hf; cbn [limit_reads]; [simpl; lia|].
  unfold limit_read. rewrite Hf. destruct (hl_left h <=? 0) eqn:E; b2p; [simpl; lia|].
  destruct (Read _ s) as [[[c e] s']|] eqn:ER; [|simpl; lia]. apply Read_cap in ER. cbn [mbind option_bind].
  destruct e; cbn [option_map]; [lia|]. rewrite length_app.
  specialize (IH (mkLimit (hl_left h - Z.of_nat (length c)) false) s' eq_refl). cbn [hl_left] in IH. lia.
Qed.

(** *** Responses *)

Lemma readResponse_final upgrade answers l resp : readResponse upgrade answers = Some (l, Ok resp) ->
  (200 <= StatusCode resp \/ upgrade = true /\ StatusCode resp = 101) /\
  Forall (fun i => 100 <= StatusCode i < 200 /\ StatusCode i <> 101) l.
Proof.
  revert l; induction answers as [|[r|e] answers IH]; intros l; cbn [readResponse]; [done| |done].
  destruct (_ <? 100) eqn:E1; [done|]. destruct (_ =? 101) eqn:E2; b2p.
  - destruct upgrade; cbn [andb]; intros; simplify_eq. split; [by right|constructor].
  - cbn [andb]. destruct (100 <=? _) eqn:E3, (_ <? 200) eqn:E4; cbn [andb]; b2p; try lia.
    + destruct (readResponse upgrade answers) as [[l0 o]|]; [|done]. cbn [mbind option_bind]. intros [= <- ->].
      destruct (IH _ eq_refl). split; [done|]. by constructor.
    + intros [= <- <-]. split; [left; lia|constructor].
Qed.

(** ** The look at a body changes nothing *)

(** A reader's run with buffers of the given sizes: the bytes it got and the
    error that ended it. *)
Fixpoint run_reads {S} (rd : nat -> S -> option (gostr * option error * S)) (caps : list nat) (s : S)
    : list gostr * option error :=
  match caps with
  | [] => ([], None)
  | cap :: caps =>
      match rd cap s with
      | None => ([], None)
      | Some (c, Some e, _) => ([c], Some e)
      | Some (c, None, s) => let '(l, e) := run_reads rd caps s in (c :: l, e)
      end
  end.

(** Readers that answer alike until one fails give the same runs. *)
Lemma run_reads_sim {S T} (rd : nat -> S -> option (gostr * option error * S)) (rd' : nat -> T -> option (gostr * option error * T))
    (R : S -> T -> Prop) caps s t :
  (forall cap s t, R s t -> match rd cap s, rd' cap t with
     | Some (c, e, s), Some (c', e', t) => c = c' /\ e = e' /\ (e = None -> R s t)
     | None, None => True
     | _, _ => False
     end) -> R s t -> run_reads rd caps s = run_reads rd' caps t.
Proof.
  intros Hsim. revert s t; induction caps as [|cap caps IH]; intros s t Hst; cbn [run_reads]; [done|].
  specialize (Hsim cap s t Hst). destruct (rd cap s) as [[[c e] s']|], (rd' cap t) as [[[c' e'] t']|]; [|done|done|done].
  destruct Hsim as (<- & <- & Hs). destruct e; [done|]. by rewrite (IH s' t' (Hs eq_refl)).
Qed.

Lemma run_peeked caps p : run_reads peeked_read caps p = run_reads Read caps (peeked_script p).
Proof.
  apply (run_reads_sim _ _ (fun p s => peeked_script p = s)); [|done]. intros cap q _ <-.
  pose proof (peeked_read_sim cap q) as Hs.
  by destruct (peeked_read cap q) as [[[c e] p']|], (Read cap (peeked_script q)) as [[[c' e'] s']|]; naive_solver.
Qed.

(** What a run gets is the start of the body, and all of it once it ends. *)
Lemma run_reads_spec caps s l e : run_reads Read caps s = (l, e) ->
  prefix (concat l) (until_end s) /\ (forall err, e = Some err -> concat l = until_end s /\ end_error s = Some err).
Proof.
  revert s l e; induction caps as [|cap caps IH]; intros s l e; cbn [run_reads].
  { intros [= <- <-]. split; [apply prefix_nil|done]. }
  destruct (Read cap s) as [[[c err] s']|] eqn:ER; [|intros [= <- <-]; split; [apply prefix_nil|done]].
  rewrite (Read_until_end _ _ _ _ _ ER), (Read_end_error _ _ _ _ _ ER). destruct err as [err|].
  { intros [= <- <-]. cbn [concat]. split; [done|]. by intros ? [= <-]. }
  destruct (run_reads Read caps s') as [l' e'] eqn:E. intros [= <- <-]. destruct (IH _ _ _ E) as [Hp He]. cbn [concat].
  split; [by apply prefix_app|]. intros err Herr. destruct (He err Herr) as [Hc Hend]. by rewrite Hc.
Qed.

(** Looking at a body before its framing is chosen changes nothing: through
    buffers of any sizes, whether the look was in time or not, the reader of a
    peeked body gets the client's bytes in order, and when it is told that the
    body ended, it has had all of them and the client's own error; and a length
    is announced only when it is the body's exact length and the body ended
    cleanly. *)
Theorem peeked_body_exact (body : script) (in_time : bool) (caps : list nat) :
  let p := peekBody body in_time in
  let '(l, e) := run_reads peeked_read caps p in
  prefix (concat l) (until_end body) /\
  (forall err, e = Some err -> concat l = until_end body /\ end_error body = Some err) /\
  (peeked_length p = -1 \/
   peeked_length p = Z.of_nat (length (until_end body)) /\ exists err, end_error body = Some err /\ errors_is err EOF = true).
Proof.
  intros p. destruct (run_reads peeked_read caps p) as [l e] eqn:E. rewrite run_peeked in E.
  apply run_reads_spec in E as [Hp He]. destruct (peekBody_script body in_time) as [Hu Hend]. fold p in Hu, Hend.
  rewrite Hu, Hend in *. split_and!; [done|done|]. destruct (Z.le_gt_cases 0 (peeked_length p)) as [Hle|Hlt].
  - right. by destruct (peeked_length_exact _ _ Hle) as [-> ?].
  - left. unfold peeked_length in *. destruct (pk_first p) as [[[buf [err|]] rest]|]; try lia. destruct (_ && _); lia.
Qed.
