(* ===== verification/Pki.v ===== *)
(** * Certificates and fingerprints ([internal/pki/pki.go])

    Agents are told apart by the fingerprint of their certificate: the SHA-256 of
    its DER in standard base64.  The base64 codec is modelled as the standard
    library's; hashing, PEM and X.509 come in as a class. *)

From S2P Require Import Prelude GoStrings.
#[local] Open Scope Z_scope.

(** ** [base64.StdEncoding] *)

Definition alphabet : gostr := bs "ABCDEFGHIJKLMNOPQRSTUVWXYZabcdefghijklmnopqrstuvwxyz0123456789+/".

Definition b64_char (n : N) : ascii := nth (N.to_nat n) alphabet "A"%char.
Definition b64_value (c : ascii) : option N := N.of_nat <$> index_by (ceq c) alphabet.

(** Three bytes as one number, and its four digits. *)
Definition word24 (a b c : ascii) : N := (code a * 65536 + code b * 256 + code c)%N.
Definition digit6 (w : N) (i : N) : N := ((w / 64 ^ (3 - i)) mod 64)%N.

Fixpoint EncodeToString (s : gostr) : gostr :=
  match s with
  | a :: b :: c :: s =>
      let w := word24 a b c in
      b64_char (digit6 w 0) :: b64_char (digit6 w 1) :: b64_char (digit6 w 2) :: b64_char (digit6 w 3) :: EncodeToString s
  | [a; b] =>
      let w := word24 a b (byte 0) in
      [b64_char (digit6 w 0); b64_char (digit6 w 1); b64_char (digit6 w 2); "="%char]
  | [a] =>
      let w := word24 a (byte 0) (byte 0) in
      [b64_char (digit6 w 0); b64_char (digit6 w 1); "="%char; "="%char]
  | [] => []
  end.

Definition byte_at (w : N) (i : N) : ascii := byte ((w / 256 ^ (2 - i)) mod 256).
Definition word_of (a b c d : N) : N := (a * 262144 + b * 4096 + c * 64 + d)%N.

(** Four digits at a time; padding only at the end.  The bits a padded quantum
    leaves over are not looked at. *)
Fixpoint decode_quanta (s : gostr) : option gostr :=
  match s with
  | [] => Some []
  | c0 :: c1 :: c2 :: c3 :: s =>
      a ← b64_value c0;
      b ← b64_value c1;
      match b64_value c2, b64_value c3 with
      | Some c, Some d =>
          let w := word_of a b c d in
          t ← decode_quanta s; Some (byte_at w 0 :: byte_at w 1 :: byte_at w 2 :: t)
      | Some c, None =>
          if ceq c3 "="%char && beq s [] then
            let w := word_of a b c 0 in Some [byte_at w 0; byte_at w 1]
          else None
      | None, _ =>
          if ceq c2 "="%char && ceq c3 "="%char && beq s [] then Some [byte_at (word_of a b 0 0) 0] else None
      end
  | _ => None
  end.

(** [DecodeString] skips line breaks. *)
Definition DecodeString (s : gostr) : option gostr :=
  decode_quanta (List.filter (fun c => negb (ceq c CR || ceq c LF)) s).

(** ** Fingerprints *)

(** [crypto/sha256], [encoding/pem] and [crypto/x509], with what their
    documentation promises.  [key_type] is what [ParsePKCS8PrivateKey] returns:
    [true] for an Ed25519 key. *)
Record certificate := mkCertificate { Raw : gostr; IsCA : bool }.

Class Crypto := {
  sha256 : gostr -> gostr;
  sha256_size : forall s, length (sha256 s) = 32%nat;
  sha1 : gostr -> gostr;
  pem_decode : gostr -> option gostr;
  pem_encode : gostr -> gostr -> gostr;
  pem_round : forall t b, pem_decode (pem_encode t b) = Some b;
  ParseCertificate : gostr -> option certificate;
  parse_key : gostr -> option bool;
}.

Inductive fp_error := NoPrefix | NotBase64 | WrongSize (n : nat).

Definition fp_prefix : gostr := bs "SHA256:".

Definition ValidateFingerprint (s : gostr) : result fp_error () :=
  if negb (HasPrefix s fp_prefix) then Err NoPrefix
  else match DecodeString (drop (length fp_prefix) s) with
       | None => Err NotBase64
       | Some raw => if negb (length raw =? 32)%nat then Err (WrongSize (length raw)) else Ok ()
       end.

Section pki.
Context `{Crypto}.

Definition Fingerprint (cert : certificate) : gostr := fp_prefix ++ EncodeToString (sha256 (Raw cert)).

Inductive ca_error := NoCertPEM | BadCert | NotCA | NoKeyPEM | BadKey | NotEd25519.

Definition parseCertPEM (certPEM : gostr) : result ca_error certificate :=
  match pem_decode certPEM with
  | None => Err NoCertPEM
  | Some b => match ParseCertificate b with Some c => Ok c | None => Err BadCert end
  end.

Definition FingerprintPEM (certPEM : gostr) : result ca_error gostr :=
  let? cert := parseCertPEM certPEM in Ok (Fingerprint cert).

Definition LoadCA (certPEM keyPEM : gostr) : result ca_error certificate :=
  let? cert := parseCertPEM certPEM in
  if negb (IsCA cert) then Err NotCA
  else match pem_decode keyPEM with
       | None => Err NoKeyPEM
       | Some b =>
           match parse_key b with
           | None => Err BadKey
           | Some false => Err NotEd25519
           | Some true => Ok cert
           end
       end.
End pki.

(** *** The templates certificates are issued from *)

Inductive key_usage := DigitalSignature | CertSign | CRLSign.
Inductive ext_usage := ServerAuth | ClientAuth.

Record template := mkTemplate {
  t_name : gostr;
  t_usage : list key_usage;
  t_ext : list ext_usage;
  t_ca : bool;
  t_ips : list Z;
  t_dns : list gostr;
  t_years : Z;
}.

Definition CreateCA : template := mkTemplate (bs "Coen CA") [CertSign; CRLSign] [] true [] [] 10.
(** [ip] is what [net.ParseIP] makes of the host. *)
Definition IssueServer (ip : option Z) (host : gostr) : template :=
  mkTemplate host [DigitalSignature] [ServerAuth] false
    (match ip with Some a => [a] | None => [] end) (match ip with Some _ => [] | None => [host] end) 1.
Definition IssueClient (name : gostr) : template := mkTemplate name [DigitalSignature] [ClientAuth] false [] [] 1.

(** ** Reading back *)

#[local] Ltac Zify.zify_post_hook ::= Z.to_euclidean_division_equations.

Lemma b64_value_char n : (n < 64)%N -> b64_value (b64_char n) = Some n.
Proof.
  intros Hn. assert (Hc : exists k : nat, (k < 64)%nat /\ n = N.of_nat k) by (exists (N.to_nat n); lia).
  destruct Hc as (k & Hk & ->). do 64 (destruct k as [|k]; [reflexivity|]). lia.
Qed.

Lemma b64_pad : b64_value "="%char = None.
Proof. reflexivity. Qed.

Lemma code_lt c : (code c < 256)%N.
Proof. by destruct c as [[] [] [] [] [] [] [] []]. Qed.

Lemma byte_code c : byte (code c) = c.
Proof. apply ascii_N_embedding. Qed.

Lemma digit6_lt w i : (digit6 w i < 64)%N.
Proof. apply N.mod_lt. done. Qed.

(** The digits make up the number again. *)
Lemma word_digits a b c : word_of (digit6 (word24 a b c) 0) (digit6 (word24 a b c) 1)
  (digit6 (word24 a b c) 2) (digit6 (word24 a b c) 3) = word24 a b c.
Proof.
  pose proof (code_lt a). pose proof (code_lt b). pose proof (code_lt c).
  assert (Hw : (word24 a b c < 16777216)%N) by (unfold word24; lia). generalize dependent (word24 a b c).
  intros w Hw. unfold word_of, digit6. change (64 ^ (3 - 0))%N with 262144%N. change (64 ^ (3 - 1))%N with 4096%N.
  change (64 ^ (3 - 2))%N with 64%N. change (64 ^ (3 - 3))%N with 1%N. rewrite N.div_1_r. lia.
Qed.

Lemma word_bytes a b c : byte_at (word24 a b c) 0 = a /\ byte_at (word24 a b c) 1 = b /\ byte_at (word24 a b c) 2 = c.
Proof.
  pose proof (code_lt a). pose proof (code_lt b). pose proof (code_lt c). unfold byte_at.
  change (256 ^ (2 - 0))%N with 65536%N. change (256 ^ (2 - 1))%N with 256%N. change (256 ^ (2 - 2))%N with 1%N.
  rewrite N.div_1_r. unfold word24.
  replace (((code a * 65536 + code b * 256 + code c) / 65536) mod 256)%N with (code a) by lia.
  replace (((code a * 65536 + code b * 256 + code c) / 256) mod 256)%N with (code b) by lia.
  replace ((code a * 65536 + code b * 256 + code c) mod 256)%N with (code c) by lia.
  by rewrite !byte_code.
Qed.

Lemma triple_ind (P : gostr -> Prop) :
  P [] -> (forall a, P [a]) -> (forall a b, P [a; b]) -> (forall a b c s, P s -> P (a :: b :: c :: s)) -> forall s, P s.
Proof.
  intros H0 H1 H2 H3. fix IH 1. intros [|a [|b [|c s]]]; [done|done|done|]. apply H3, IH.
Qed.

Lemma digit6_tail a b : digit6 (word24 a b (byte 0)) 3 = 0%N /\ digit6 (word24 a (byte 0) (byte 0)) 2 = 0%N.
Proof.
  unfold digit6, word24. change (code (byte 0)) with 0%N. change (64 ^ (3 - 3))%N with 1%N. change (64 ^ (3 - 2))%N with 64%N.
  pose proof (code_lt a). pose proof (code_lt b). lia.
Qed.

Lemma pad_end (b : bool) : ceq "="%char "="%char && b = b.
Proof. done. Qed.

Lemma decode_quanta_encode s : decode_quanta (EncodeToString s) = Some s.
Proof.
  induction s as [|a|a b|a b c s IH] using triple_ind; [done|..]; cbn [EncodeToString decode_quanta].
  - destruct (digit6_tail a (byte 0)) as [T3 T2]. rewrite !b64_value_char by apply digit6_lt. rewrite b64_pad. cbn [mbind option_bind].
    pose proof (word_digits a (byte 0) (byte 0)) as Hw. rewrite T2, T3 in Hw. rewrite Hw. cbn iota. by rewrite (proj1 (word_bytes _ _ _)).
  - destruct (digit6_tail a b) as [T3 _]. rewrite !b64_value_char by apply digit6_lt. rewrite b64_pad. cbn [mbind option_bind].
    pose proof (word_digits a b (byte 0)) as Hw. rewrite T3 in Hw. rewrite Hw, pad_end. cbn iota. destruct (word_bytes a b (byte 0)) as (-> & -> & _). done.
  - rewrite !b64_value_char by apply digit6_lt. cbn [mbind option_bind]. rewrite word_digits, IH. cbn [mbind option_bind].
    by destruct (word_bytes a b c) as (-> & -> & ->).
Qed.

Definition line_break (c : ascii) : bool := ceq c CR || ceq c LF.

Lemma b64_char_all (P : ascii -> bool) n : forallb P alphabet = true -> (n < 64)%N -> P (b64_char n) = true.
Proof.
  intros HP Hn. unfold b64_char. apply (proj1 (forallb_forall P alphabet) HP), nth_In.
  change (length alphabet) with 64%nat. lia.
Qed.

(** What holds of the alphabet and of the padding holds of an encoding. *)
Lemma encode_all (P : ascii -> bool) s : forallb P alphabet = true -> P "="%char = true -> forallb P (EncodeToString s) = true.
Proof.
  intros HP Heq. induction s as [|a|a b|a b c s IH] using triple_ind; cbn [EncodeToString forallb]; [done|..];
    rewrite !(b64_char_all P) by (done || apply digit6_lt); by rewrite ?Heq, ?IH.
Qed.

Lemma encode_plain s : Forall (fun c => line_break c = false) (EncodeToString s).
Proof.
  pose proof (encode_all (fun c => negb (line_break c)) s eq_refl eq_refl) as H.
  apply Forall_forall. intros c Hc. apply negb_true_iff. by apply (proj1 (forallb_forall _ _) H), list_elem_of_In.
Qed.

Lemma decode_encode s : DecodeString (EncodeToString s) = Some s.
Proof.
  unfold DecodeString. assert (Hf : forall l, Forall (fun c => line_break c = false) l ->
    List.filter (fun c => negb (ceq c CR || ceq c LF)) l = l).
  { induction 1 as [|c l Hc Hl IH]; [done|]. cbn [List.filter]. unfold line_break in Hc. by rewrite Hc, IH. }
  rewrite Hf by apply encode_plain. apply decode_quanta_encode.
Qed.

(** ** Properties *)

(** The fingerprint that identifies an agent is well formed, and tells
    certificates apart exactly as SHA-256 does: two certificates have the same
    fingerprint if and only if their digests are equal. *)
Theorem fingerprint_faithful `{Crypto} (c1 c2 : certificate) :
  ValidateFingerprint (Fingerprint c1) = Ok () /\
  (Fingerprint c1 = Fingerprint c2 <-> sha256 (Raw c1) = sha256 (Raw c2)).
Proof.
  split.
  - unfold ValidateFingerprint, Fingerprint. rewrite HasPrefix_app, drop_app_length, decode_encode. by rewrite sha256_size.
  - unfold Fingerprint. split; [|by intros ->]. intros He%app_inv_head.
    apply (f_equal DecodeString) in He. rewrite !decode_encode in He. by injection He.
Qed.

(** [ValidateFingerprint] also takes strings [Fingerprint] never prints: the
    last digit may carry bits that are not looked at, and line breaks are
    skipped. *)
Lemma validate_accepts_other_forms :
  let zeros := EncodeToString (repeat (byte 0) 32) in
  let odd := bs "SHA256:" ++ take 42 zeros ++ bs "B=" in
  let broken := bs "SHA256:" ++ [LF] ++ zeros in
  ValidateFingerprint odd = Ok () /\ ValidateFingerprint broken = Ok () /\
  forall `{Crypto} c, Fingerprint c <> odd /\ Fingerprint c <> broken.
Proof.
  split_and!; [vm_compute; reflexivity|vm_compute; reflexivity|]. intros Hcr c. unfold Fingerprint. split; intros He%app_inv_head.
  - generalize dependent (sha256 (Raw c)). intros d He. pose proof (decode_encode d) as Hd. rewrite He in Hd.
    vm_compute in Hd. injection Hd as <-. vm_compute in He. done.
  - pose proof (encode_plain (sha256 (Raw c))) as Hp. rewrite He in Hp. by inversion Hp.
Qed.

(** A certificate is usable for one side of the tunnel only, and cannot sign. *)
Lemma issued_roles ip host name :
  t_ext (IssueServer ip host) = [ServerAuth] /\ t_ext (IssueClient name) = [ClientAuth] /\
  t_ca (IssueServer ip host) = false /\ t_ca (IssueClient name) = false /\
  CertSign ∉ t_usage (IssueServer ip host) /\ CertSign ∉ t_usage (IssueClient name).
Proof. split_and!; try done; simpl; rewrite elem_of_cons, elem_of_nil; intros [?|?]; done. Qed.

(** ** Witnesses *)

(** An instance for closed examples: a digest that keeps the first bytes, and
    armour that is the block itself. *)
Definition toy_crypto : Crypto.
Proof.
  refine {| sha256 := fun s => take 32 (s ++ repeat (byte 0) 32); sha1 := fun s => take 20 (s ++ repeat (byte 0) 20);
            pem_decode := Some; pem_encode := fun _ b => b;
            ParseCertificate := fun der => Some (mkCertificate der true); parse_key := fun _ => Some true |}; [|done].
  intros s. rewrite length_take, length_app, repeat_length. lia.
Defined.

Module PkiWitness.
#[local] Existing Instance toy_crypto.

Lemma fingerprint_faithful_witness :
  Fingerprint (mkCertificate (bs "one") true) <> Fingerprint (mkCertificate (bs "two") true).
Proof.
  destruct (fingerprint_faithful (mkCertificate (bs "one") true) (mkCertificate (bs "two") true)) as [_ [Hf _]].
  intros He. apply Hf in He. vm_compute in He. discriminate He.
Defined.
End PkiWitness.
