(* ===== verification/H3Start.v ===== *)
(** * Starting HTTP/3 ([newHTTP3], [resetKey], [h3Idle], [countingConn] of
      [internal/edge/http3.go], [publicCert], [startHTTP3] of
      [internal/edge/edge.go])

    What the edge sets up before it serves HTTP/3: the ingress certificate, loaded
    once for both ingresses, the QUIC transport with its stateless reset key and
    limits, and what it leaves behind when that fails.  Then the limits are put
    under the QUIC connections of [Quic.v].  HMAC is written out over the hash of
    [Pki.v]'s class; the QUIC library takes the settings. *)

From S2P Require Import Prelude GoStrings IO Route Config Obs Pki H3Pool Dispatch HttpHead Quic.
#[local] Open Scope Z_scope.

(** ** The ingress certificate *)

(** A loaded pair: the certificates and the private key. *)
Record key_pair := mkPair { chain : gostr; PrivateKey : gostr }.

Inductive start_error := LoadPublicCert (e : gostr) | H3Listen (e : gostr).

(** [publicCert]: [pubCert] is what [once] has stored, [load] what loading the
    files gives now. *)
Definition publicCert (load : result gostr key_pair) (pubCert : option (result start_error key_pair)) :
    option (result start_error key_pair) * result start_error key_pair :=
  let r := match pubCert with
           | Some r => r
           | None => match load with Ok c => Ok c | Err e => Err (LoadPublicCert e) end
           end in
  (Some r, r).

(** Calls one after the other, the files changing in between. *)
Fixpoint publicCerts (loads : list (result gostr key_pair)) (pubCert : option (result start_error key_pair)) :
    list (result start_error key_pair) :=
  match loads with
  | [] => []
  | l :: ls => let '(st, r) := publicCert l pubCert in r :: publicCerts ls st
  end.

Section start.
Context `{Crypto}.
(** [x509.MarshalPKCS8PrivateKey] *)
Context (MarshalPKCS8 : gostr -> option gostr).

(** ** The stateless reset key *)

(** HMAC with SHA-256, whose blocks have 64 bytes. *)
Definition block : nat := 64.
Definition xor_with (b : N) (k : gostr) : gostr := map (fun c => byte (N.lxor (code c) b)) k.
Definition hmac_key (key : gostr) : gostr :=
  let k := if (block <? length key)%nat then sha256 key else key in
  k ++ repeat (byte 0) (block - length k).
Definition hmac (key msg : gostr) : gostr :=
  let k := hmac_key key in sha256 (xor_with 92 k ++ sha256 (xor_with 54 k ++ msg)).

Definition resetKey (cert : key_pair) : option gostr :=
  match MarshalPKCS8 (PrivateKey cert) with
  | None => None
  | Some der => Some (take 32 (hmac der (bs "coen quic stateless reset key") ++ repeat (byte 0) 32))
  end.

(** ** The server and its listener *)

Definition defaultHTTP3Idle : Z := 30 * second.
Definition maxStreamsPerConn : Z := 100.

Definition h3Idle (i : IngressConfig) : Z := if 0 <? IdleTimeout i then IdleTimeout i else defaultHTTP3Idle.

(** The transport, the QUIC settings and the server's; [first] and [idle] are
    what each connection's [newConnActivity] gets. *)
Record h3_settings := mkSettings {
  StatelessResetKey : option gostr;
  h3_cert : key_pair;
  HandshakeIdleTimeout : Z;
  MaxIdleTimeout : Z;
  KeepAlivePeriod : Z;
  MaxIncomingStreams : Z;
  MaxHeaderBytes : Z;
  first_within : Z;
  idle_after : Z;
}.

(** [newHTTP3]; [listens] is what [tr.Listen] says, and the second result whether
    the transport was closed again. *)
Definition newHTTP3 (i : IngressConfig) (cert : key_pair) (listens : option gostr) : result gostr h3_settings * bool :=
  let idle := IdleTimeout i in
  let idle := if idle <=? 0 then defaultHTTP3Idle else idle in
  match listens with
  | Some e => (Err e, true)
  | None =>
      (Ok (mkSettings (resetKey cert) cert (readHeaderDeadline (ReadHeaderTimeout i)) defaultHTTP3Idle (defaultHTTP3Idle ÷ 3)
             maxStreamsPerConn maxHeaderBytes (readHeaderDeadline (ReadHeaderTimeout i)) idle), false)
  end.

(** [startHTTP3] on a socket with local address [addr]: the certificate state, the
    daemon's state, and the settings served with. *)
Definition startHTTP3 (i : IngressConfig) (addr : gostr) (load : result gostr key_pair) (listens : option gostr)
    (pubCert : option (result start_error key_pair)) (st : State) :
    option (result start_error key_pair) * State * result start_error h3_settings :=
  let '(pubCert, c) := publicCert load pubCert in
  match c with
  | Err e => (pubCert, st, Err e)
  | Ok cert =>
      match (newHTTP3 i cert listens).1 with
      | Err e => (pubCert, st, Err (H3Listen e))
      | Ok s => (pubCert, SetHTTP3Listen addr st, Ok s)
      end
  end.

(** *** [countingConn]: its totals and what it has reported, [true] for [in] *)

Record countingConn := mkCounting { inTotal : Z; outTotal : Z; reports : list (bool * Z) }.

Definition counted_write (n : Z) (c : countingConn) : countingConn :=
  mkCounting (i64 (inTotal c + n)) (outTotal c) (reports c ++ [(true, n)]).
Definition counted_read (n : Z) (c : countingConn) : countingConn :=
  mkCounting (inTotal c) (i64 (outTotal c + n)) (reports c ++ [(false, n)]).
Definition counted (w : bool * Z) : countingConn -> countingConn := if w.1 then counted_write w.2 else counted_read w.2.

(** ** Properties *)

(** However often it is asked for, and whatever becomes of the files, the
    certificate is what the first call got. *)
Lemma publicCerts_same loads r : Forall (eq r) (publicCerts loads (Some r)).
Proof. induction loads as [|l ls IH]; [constructor|]. cbn. by constructor. Qed.

Lemma resetKey_size cert k : resetKey cert = Some k -> length k = 32%nat.
Proof.
  unfold resetKey. destruct (MarshalPKCS8 _); [|done]. intros [= <-]. unfold hmac. rewrite length_take, length_app, sha256_size. lia.
Qed.

(** The totals are the sums of what was reported, modulo [2^64]. *)
Definition reported_bytes (into : bool) (l : list (bool * Z)) : Z :=
  foldr Z.add 0 (map snd (List.filter (fun p => Bool.eqb p.1 into) l)).

Lemma reported_app into l l' : reported_bytes into (l ++ l') = reported_bytes into l + reported_bytes into l'.
Proof.
  unfold reported_bytes. rewrite List.filter_app, map_app. induction (map snd (List.filter _ l)) as [|x xs IH]; simpl; [done|]. lia.
Qed.

Theorem counts_all (ws : list (bool * Z)) :
  let c := foldl (fun c w => counted w c) (mkCounting 0 0 []) ws in
  reports c = ws /\ inTotal c = i64 (reported_bytes true ws) /\ outTotal c = i64 (reported_bytes false ws).
Proof.
  cbv zeta. induction ws as [|[b n] ws IH] using rev_ind; [done|]. rewrite foldl_app. cbn [foldl].
  destruct IH as (Hr & Hi & Ho). destruct b; cbn [counted fst snd counted_write counted_read reports inTotal outTotal];
    rewrite Hr, !reported_app, ?Hi, ?Ho; unfold reported_bytes at 2 4; cbn; rewrite ?Z.add_0_r, ?i64_add_l; auto.
Qed.

(** HTTP/3 starts whole or not at all, and holds its connections to its limits.
    The TCP ingress and HTTP/3 serve one certificate, even when the files were
    replaced in between; a start that fails leaves the daemon's state as it was and
    closes its transport; one that succeeds has a reset key that depends on the
    certificate's private key alone, so that it is the same after a restart, sends
    keep-alives well within QUIC's own idle timeout, and closes every connection
    without a request after [read_header_timeout] or [idle_timeout], whatever they
    are set to. *)
Theorem http3_starts (i : IngressConfig) (addr : gostr) (load load' : result gostr key_pair) (listens : option gostr) (st : State) :
  let '(pub, tcp) := publicCert load None in
  let '(pub', st', r) := startHTTP3 i addr load' listens pub st in
  match r with
  | Err e => st' = st /\ (tcp = Err e \/ exists c m, tcp = Ok c /\ (newHTTP3 i c listens) = (Err m, true) /\ e = H3Listen m)
  | Ok s =>
      tcp = Ok (h3_cert s) /\ strs st' http3Listen = Some addr /\
      (forall c, PrivateKey c = PrivateKey (h3_cert s) -> resetKey c = StatelessResetKey s) /\
      0 < KeepAlivePeriod s /\ 2 * KeepAlivePeriod s < MaxIdleTimeout s /\ 0 < HandshakeIdleTimeout s /\ idle_after s = h3Idle i /\
      forall t0 max q id a, rtc (step (first_within s) (idle_after s)) (initial t0 max) q ->
        quics q !! id = Some a -> gone a = false -> active a = 0 -> now q <= since a + Z.max (first_within s) (idle_after s)
  end.
Proof.
  unfold startHTTP3, publicCert, newHTTP3. destruct load as [c|e]; [|by auto]. destruct listens as [m|]; cbn [fst snd].
  - split; [done|]. right. by exists c, m.
  - cbn [h3_cert KeepAlivePeriod MaxIdleTimeout HandshakeIdleTimeout idle_after first_within StatelessResetKey].
    assert (Hf : 0 < readHeaderDeadline (ReadHeaderTimeout i)) by (unfold readHeaderDeadline; destruct (_ <=? _) eqn:E; b2p; done).
    set (idle := if IdleTimeout i <=? 0 then _ else _).
    assert (Hi : 0 < idle) by (unfold idle; destruct (_ <=? _) eqn:E; b2p; done).
    split_and!; try done.
    + intros c' E. unfold resetKey. by rewrite E.
    + unfold idle, h3Idle. destruct (_ <=? _) eqn:E, (0 <? _) eqn:E2; b2p; (done || lia).
    + intros t0 max q id a Hr Ha Hg H0.
      pose proof (reachable_inv (readHeaderDeadline (ReadHeaderTimeout i)) idle ltac:(lia) ltac:(lia) t0 max q Hr) as HI.
      by apply (ok_watched _ _ _ _ (inv_conns _ _ _ _ HI id a Ha)).
Qed.
End start.
