(* ===== verification/H3Serve.v ===== *)
(** * Serving an HTTP/3 request ([serveHTTP3], [openH3Stream], [h3Exchange] and
    [serveHTTP3WebSocket] of [internal/edge/http3.go] and [http3ws.go])

    One request from its arrival to its answer, composed of the head and body
    conversions ([Http1], [H3Body]), the route's slot and dispatch.  What the
    network, the client and the service answer is the input; what the handler
    does is a list of effects, in order. *)

From S2P Require Import Prelude GoStrings Numeral IO Balance HttpHead H3Pool Route Obs Registry Tunnel Dispatch Edge Pki Http1 H3Body.
#[local] Open Scope Z_scope.

Inductive h3_effect :=
| HPage (code : Z) (reason detail : gostr)        (* fail *)
| HFailure (r : Reason) (route : option gostr)    (* state.Failure, rs.stats.Failure *)
| HAbort                                          (* panic(http.ErrAbortHandler) *)
| HInterim (code : Z) (h : Header)
| HRespond (code : Z) (h : Header)                (* w.WriteHeader *)
| HWrite (l : list gostr)                         (* response bytes to the client *)
| HTrailers (h : Header)
| HRequest                                        (* rs.stats.HTTP3Request *)
| HSlot | HUnslot                                 (* a slot of the route's cap taken, released *)
| HDispatch (e : effect)
| HStreamClose                                    (* stream.Close, before it is a tunnelStream *)
| HSessionClosed (c : agentConn)                  (* chosen.stat.StreamClosed *)
| HCommit (c : agentConn)
| HOpened (c : agentConn)                         (* state.StreamOpenedHTTP3; the stream holds slot and reservation *)
| HTake (ts : tunnelStream)                       (* h3pool.take *)
| HHead (head : gostr)                            (* the head is written to the stream *)
| HBody (l : list gostr)                          (* body bytes written to the stream *)
| HAddIn (n : Z)
| HCloseStream                                    (* ts.close *)
| HKeep                                           (* h3pool.put *)
| HBridge.                                        (* WebSocket frames both ways *)

Definition refused_page (r : refusal) : h3_effect :=
  match r with
  | noAgent => HPage 502 (bs "Bad Gateway") (bs "No agent connected")
  | streamFailed => HPage 502 (bs "Bad Gateway") (bs "Tunnel stream failed")
  end.

(** ** [openH3Stream] *)

(** What opening a stream meets: whether the route gave a slot in time, whether
    the client had given up when it did not, the dispatch, and the error of a
    version 1 head's write. *)
Record open_env := mkOpen {
  o_slot : bool;
  o_gone : bool;
  o_dispatch : dispatch_env;
  o_wait : Z;
  o_fuel : nat;
  o_write : option error;
}.

Inductive open_result := StreamOpen (c : agentConn) | OpenAnswered | OpenAborted.

Definition openH3Stream (rs : routeState) (head : gostr) (e : open_env) : option (list h3_effect * open_result) :=
  if negb (o_slot e) then
    Some (if o_gone e then ([HAbort], OpenAborted)
          else ([HFailure ReasonRouteMaxConnections (Some (rs_key rs));
                 HPage 503 (bs "Service Unavailable") (bs "Too many connections")], OpenAnswered))
  else
    '(d, l) ← dispatch (rs_balance rs) (o_wait e) (o_dispatch e) (o_fuel e);
    let l := HSlot :: map HDispatch l in
    match d with
    | Err refused => Some (l ++ [HUnslot; refused_page refused], OpenAnswered)
    | Ok c =>
        match (if c_v2 c then None else o_write e) with
        | Some _ =>
            Some (l ++ [HHead head; HStreamClose; HSessionClosed c; HUnslot; HFailure Obs.ReasonStreamError (Some (rs_key rs));
                        refused_page streamFailed], OpenAnswered)
        | None => Some (l ++ (if c_v2 c then [] else [HHead head]) ++ [HCommit c; HOpened c], StreamOpen c)
        end
    end.

(** ** [h3Exchange] *)

(** How far the upload goroutine is: running (and whether it waits for the
    client), past setting its flags, or over. *)
Inductive upload_view := Uploading (waiting : bool) | Flagged | UploadOver.

Definition upload_done (v : upload_view) : bool := match v with UploadOver => true | _ => false end.
Definition upload_waits (v : upload_view) : bool := match v with Uploading w => w | _ => false end.
Definition flags_set (v : upload_view) : bool := match v with Uploading _ => false | _ => true end.

(** What an exchange meets: the errors of writing the head and the body, the
    trailer when the body has ended, the upload when the response's head came or
    failed, the responses read, whether a byte of them came back, whether the
    client was gone then, the errors of writes to the client, and at the end the
    upload, the bytes read beyond the response and whether the client had reset
    the request. *)
Record exchange_env := mkExchange {
  x_head : option error;
  x_writes : nat -> option error;
  x_trailer : Header;
  x_view : upload_view;
  x_answers : list (result error Response);
  x_out : bool;
  x_gone : bool;
  x_client : nat -> option error;
  x_end : upload_view;
  x_buffered : Z;
  x_cancelled : bool;
}.

Inductive x_result := XRetry | XDone | XAborted.

(** A request as it is sent. *)
Record h3_request := mkH3 {
  q_r : Request;
  q_lines : gostr;
  q_trailers : list gostr;
  q_memory : bool;
  q_body : script;
}.

Definition q_head (q : h3_request) : gostr := framed (q_lines q) (q_r q) (q_trailers q).

(** The upload of [q], when it ends by itself. *)
Definition upload `{HttpGuts} (q : h3_request) (e : exchange_env) : option sent :=
  sendBody (q_r q) (q_trailers q) (q_body q) (x_trailer e) (x_writes e).

(** [clientBodyFailed]: the body broke off or came short. *)
Definition client_failed (q : h3_request) (o : option sent) : bool :=
  match o with
  | Some o =>
      match s_err o with
      | None => false
      | Some err =>
          let cl := r_ContentLength (q_r q) in
          s_failed o || (0 <? cl) && (Z.of_nat (s_read o) <? cl) && errors_is err EOF
      end
  | None => false
  end.

(** How far the upload can be: one that waits for the client is not over. *)
Definition view_of (o : option sent) (v : upload_view) : upload_view :=
  match o, v with None, Flagged | None, UploadOver => Uploading false | _, _ => v end.

Definition upload_failed (o : option sent) : bool :=
  match o with Some o => match s_err o with Some _ => true | None => false end | None => false end.

(** The headers of a response as they go to the client: a missing Content-Type
    is left out, not guessed. *)
Definition response_header `{Unicode} (resp : Response) : Header :=
  let h := copyResponseHeader ∅ (rp_Header resp) in
  match rp_Header resp !! bs "Content-Type" with Some _ => h | None => <[bs "Content-Type" := []]> h end.

Definition response_trailer `{HttpGuts} (resp : Response) : Header :=
  base.filter (fun kv => ValidTrailerHeader kv.1 = true) (rp_Trailer resp).

Section exchange.
Context `{Unicode} `{HttpGuts}.

(** How a response that could not be read ends the exchange. *)
Definition response_failed (rs : routeState) (q : h3_request) (reused : bool) (o : option sent) (e : exchange_env)
    (err : response_error) : list h3_effect * x_result :=
  let v := if q_memory q then UploadOver else view_of o (x_view e) in
  let failed := negb (q_memory q) && flags_set v && client_failed q o in
  if reused && negb (x_out e) && isTunnelGone err && negb (x_gone e) then ([], XRetry)
  else if x_gone e || failed then ([HAbort], XAborted)
  else if isTimeout err && negb (upload_done v) && upload_waits v then ([HAbort], XAborted)
  else if isTimeout err then
    ([HFailure ReasonResponseTimeout (Some (rs_key rs));
      HPage 504 (bs "Gateway Timeout") (bs "No response from the service in time")], XDone)
  else if isTunnelGone err then
    ([HFailure Obs.ReasonStreamError (Some (rs_key rs)); HPage 502 (bs "Bad Gateway") (bs "Tunnel stream failed")], XDone)
  else
    ([HFailure ReasonBadResponse (Some (rs_key rs));
      HPage 502 (bs "Bad Gateway") (bs "Invalid response from the service")], XDone).

(** Whether the stream is kept after a whole response. *)
Definition keeps (q : h3_request) (pool : bool) (o : option sent) (e : exchange_env) (resp : Response) : bool :=
  let v := view_of o (if q_memory q then UploadOver else x_end e) in
  pool && negb (rp_Close resp) && upload_done v && negb (upload_failed o) && (x_buffered e =? 0) && negb (x_cancelled e).

(** A response whose head was read. *)
Definition relay (q : h3_request) (pool : bool) (o : option sent) (e : exchange_env) (resp : Response)
    : option (list h3_effect * x_result) :=
  '(wl, werr) ← copyResponse (x_client e) (rp_Body resp);
  let l := [HRespond (StatusCode resp) (response_header resp); HWrite wl] in
  Some (match werr with
        | Some _ => (l ++ [HAbort; HCloseStream], XAborted)
        | None => (l ++ [HTrailers (response_trailer resp); if keeps q pool o e resp then HKeep else HCloseStream], XDone)
        end).

(** [h3Exchange]; [pool] is whether the connection has a pool. *)
Definition h3Exchange (rs : routeState) (q : h3_request) (pool reused : bool) (e : exchange_env)
    : option (list h3_effect * x_result) :=
  match (if reused then x_head e else None) with
  | Some _ => Some ([HCloseStream], XRetry)
  | None =>
      let l0 := if reused then [HHead (q_head q)] else [HAddIn (Z.of_nat (length (q_head q)))] in
      let o := upload q e in
      if q_memory q && reused && upload_failed o
      then Some (l0 ++ [HBody (match o with Some o => s_writes o | None => [] end); HCloseStream], XRetry)
      else
        let l0 := l0 ++ [HBody (match o with Some o => s_writes o | None => [] end)] in
        '(interim, answer) ← readResponse false (x_answers e);
        let l0 := l0 ++ map (fun i => HInterim (StatusCode i) (copyResponseHeader ∅ (rp_Header i))) interim in
        match answer with
        | Err err =>
            let '(l, r) := response_failed rs q reused o e err in Some (l0 ++ l ++ [HCloseStream], r)
        | Ok resp => '(l, r) ← relay q pool o e resp; Some (l0 ++ l, r)
        end
  end.

(** ** [serveHTTP3] *)

(** The loop over streams: [kept] is the stream [h3pool.take] gives the first
    round, the list what each round meets. *)
Fixpoint serve_rounds (rs : routeState) (q : h3_request) (pool : bool) (kept : option tunnelStream) (sent : bool)
    (rounds : list (open_env * exchange_env)) : option (list h3_effect) :=
  match rounds with
  | [] => None
  | (oe, xe) :: rounds =>
      let exchange (reused : bool) :=
        '(l, r) ← h3Exchange rs q pool reused xe;
        let l := (if sent then [] else [HRequest]) ++ l in
        match r with
        | XRetry => l' ← serve_rounds rs q pool None true rounds; Some (l ++ l')
        | _ => Some l
        end in
      match kept with
      | Some ts => l ← exchange true; Some (HTake ts :: l)
      | None =>
          '(lo, ro) ← openH3Stream rs (q_head q) oe;
          match ro with
          | StreamOpen _ => l ← exchange false; Some (lo ++ l)
          | _ => Some lo
          end
      end
  end.

(** What a WebSocket meets: the responses read, whether the client was gone if
    that failed, and the errors of writes to the client. *)
Record ws_env := mkWs { w_answers : list (result error Response); w_gone : bool; w_client : nat -> option error }.

(** What a request meets. *)
Record serve_env := mkServe {
  v_key : gostr;                                (* newWebSocketKey *)
  v_in_time : bool;                             (* the peek returned within peekWait *)
  v_bounded : bool;                             (* a read deadline could be set *)
  v_pool : bool;
  v_kept : option tunnelStream;                 (* what h3pool.take would give *)
  v_rounds : list (open_env * exchange_env);
  v_open : open_env;                            (* a WebSocket's stream *)
  v_ws : ws_env;
}.

Definition bad_upgrade (rs : routeState) (detail : gostr) : list h3_effect :=
  [HFailure ReasonBadResponse (Some (rs_key rs)); HPage 502 (bs "Bad Gateway") detail].

Definition guid : gostr := bs "258EAFA5-E914-47DA-95CA-C5AB0DC85B11".

Definition webSocketAccept `{Crypto} (key : gostr) : gostr := EncodeToString (sha1 (key ++ guid)).

(** [serveHTTP3WebSocket]. *)
Definition serveHTTP3WebSocket `{Crypto} (rs : routeState) (key : gostr) (e : ws_env) : option (list h3_effect) :=
  '(_, answer) ← readResponse true (w_answers e);
  match answer with
  | Err err =>
      Some (if w_gone e then [HAbort]
            else [HFailure (if isTunnelGone err then Obs.ReasonStreamError else ReasonBadResponse) (Some (rs_key rs));
                  HPage 502 (bs "Bad Gateway") (bs "Invalid response from the service")])
  | Ok resp =>
      if StatusCode resp =? 101 then
        if negb (beq (header_Get (rp_Header resp) (bs "Sec-Websocket-Accept")) (webSocketAccept key))
        then Some (bad_upgrade rs (bs "Invalid response from the service"))
        else
          Some [HRespond 200 (header_Del (copyResponseHeader ∅ (rp_Header resp)) (bs "Sec-Websocket-Accept")); HBridge]
      else if StatusCode resp <? 300 then Some (bad_upgrade rs (bs "The service did not accept the WebSocket"))
      else
        '(wl, werr) ← copyResponse (w_client e) (rp_Body resp);
        Some ([HRespond (StatusCode resp) (response_header resp); HWrite wl] ++
              match werr with Some _ => [HAbort] | None => [] end)
  end.

Definition with_length (r : Request) (n : Z) : Request :=
  mkRequest (r_Method r) (r_Proto r) (r_Host r) (r_uri r) (r_url r) (r_Header r) (r_Trailer r) n.

(** The body after the look at it, with the length to announce; [None] when its
    stream failed. *)
Definition peeked (r : Request) (body : script) (in_time : bool) : option (script * Z) :=
  if (r_ContentLength r <? 0) && (length (trailerNames (r_Trailer r)) =? 0)%nat && negb (expectsContinue r) then
    let p := peekBody body in_time in
    match pk_first p with
    | Some (_, Some err, _) =>
        if pk_seen p && negb (errors_is err EOF) then None else Some (peeked_script p, peeked_length p)
    | _ => Some (peeked_script p, peeked_length p)
    end
  else Some (body, r_ContentLength r).

(** [serveHTTP3]. *)
Definition serveHTTP3 `{Crypto} (routes : Matcher routeState) (r : Request) (body : script) (e : serve_env)
    : option (list h3_effect) :=
  let ws := isWebSocketConnect r in
  if beq (r_Method r) (bs "CONNECT") && negb ws
  then Some [HPage 501 (bs "Not Implemented") (bs "CONNECT is not supported")]
  else
    match (if ws then webSocketHead r (v_key e) else http1Lines r) with
    | Err _ => Some [HFailure ReasonBadRequest None; HPage 400 (bs "Bad Request") (bs "Malformed request")]
    | Ok lines =>
        match Match routes (Normalize (r_Host r)) with
        | None => Some [HFailure ReasonNoRoute None; HPage 404 (bs "Not Found") (bs "No route for host")]
        | Some rs =>
            if noHTTP3 rs then
              Some [HFailure ReasonHTTP3Off (Some (rs_key rs));
                    HPage 421 (bs "Misdirected Request") (bs "Not served over HTTP/3")]
            else if ws then
              '(lo, ro) ← openH3Stream rs lines (v_open e);
              match ro with
              | StreamOpen _ =>
                  l ← serveHTTP3WebSocket rs (v_key e) (v_ws e);
                  Some (lo ++ [HRequest; HAddIn (Z.of_nat (length lines))] ++ l ++ [HCloseStream])
              | _ => Some lo
              end
            else
              match peeked r body (v_in_time e) with
              | None => Some [HAbort]
              | Some (body, len) =>
                  let r := with_length r len in
                  let trailers := trailerNames (r_Trailer r) in
                  held ← holdBody r trailers body (v_bounded e);
                  match held with
                  | Err _ => Some [HAbort]
                  | Ok (b, memory) =>
                      let q := mkH3 r lines trailers memory (if memory then [(b, None); ([], Some [EOF])] else body) in
                      let kept := if memory && idempotent r && v_pool e then v_kept e else None in
                      serve_rounds rs q (v_pool e) kept false (v_rounds e)
                  end
              end
        end
    end.
End exchange.

(** [refuseNoHTTP3]: whether a QUIC handshake for a server name is refused. *)
Definition refuseNoHTTP3 `{Unicode} (routes : Matcher routeState) (name : gostr) : bool :=
  match Match routes name with Some rs => noHTTP3 rs | None => false end.

(** ** Reading a trace *)

Definition weigh (w : h3_effect -> Z) (l : list h3_effect) : Z := foldr (fun e n => w e + n) 0 l.

Lemma weigh_app w l1 l2 : weigh w (l1 ++ l2) = weigh w l1 + weigh w l2.
Proof. unfold weigh. induction l1 as [|e l1 IH]; simpl; [lia|]. rewrite IH. lia. Qed.

Lemma weigh_map {A} w (f : A -> h3_effect) l : (forall x, w (f x) = 0) -> weigh w (map f l) = 0.
Proof. intros Hw. induction l as [|x l IH]; simpl; [done|]. rewrite Hw. lia. Qed.

(** Final answers, aborts, and requests counted. *)
Definition w_status (e : h3_effect) : Z := match e with HPage _ _ _ | HRespond _ _ => 1 | _ => 0 end.
Definition w_abort (e : h3_effect) : Z := match e with HAbort => 1 | _ => 0 end.
Definition w_request (e : h3_effect) : Z := match e with HRequest => 1 | _ => 0 end.
(** Error pages, less the failures counted; a refused CONNECT is not one. *)
Definition w_page (e : h3_effect) : Z :=
  match e with
  | HPage code _ _ => if code =? 501 then 0 else 1
  | HFailure _ _ | HDispatch (Failure _) => -1
  | _ => 0
  end.
(** Slots and reservations, less those that were given back or passed to an open
    stream. *)
Definition w_slot (e : h3_effect) : Z := match e with HSlot => 1 | HUnslot | HOpened _ => -1 | _ => 0 end.
Definition w_held (d : agentConn) (e : h3_effect) : Z :=
  match e with
  | HDispatch e => net_of d e
  | HSessionClosed c | HOpened c => if bool_decide (c = d) then -1 else 0
  | _ => 0
  end.
(** Streams in use: taken or opened, less closed or kept. *)
Definition w_stream (e : h3_effect) : Z :=
  match e with HTake _ | HOpened _ => 1 | HCloseStream | HKeep => -1 | _ => 0 end.
(** Heads that went to an agent. *)
Definition w_send (e : h3_effect) : Z := match e with HHead _ | HDispatch (SendHead _) => 1 | _ => 0 end.

(** What stays even on every path. *)
Inductive even : (h3_effect -> Z) -> Prop :=
| even_page : even w_page
| even_slot : even w_slot
| even_held d : even (w_held d).

Lemma weigh_dispatch balance wait env fuel d l : dispatch balance wait env fuel = Some (d, l) ->
  weigh w_status (map HDispatch l) = 0 /\ weigh w_abort (map HDispatch l) = 0 /\ weigh w_request (map HDispatch l) = 0 /\
  weigh w_slot (map HDispatch l) = 0 /\ weigh w_stream (map HDispatch l) = 0 /\
  weigh w_page (map HDispatch l) = match d with Ok _ => 0 | Err _ => -1 end /\
  (forall x, weigh (w_held x) (map HDispatch l) = match d with Ok c => if bool_decide (c = x) then 1 else 0 | Err _ => 0 end) /\
  weigh w_send (map HDispatch l) = Z.of_nat (count is_head l).
Proof.
  intros Hd. destruct (dispatch_loop_trace _ _ _ _ _ _ _ _ Hd) as [Hnet _ Hfail].
  split_and!; try (by apply weigh_map).
  - assert (Hp : weigh w_page (map HDispatch l) = - Z.of_nat (count is_failure l)).
    { clear. unfold count. induction l as [|e l IH]; [done|]. cbn [map weigh foldr List.filter]. fold (weigh w_page (map HDispatch l)).
      rewrite IH. destruct e; simpl; lia. }
    rewrite Hp, Hfail. by destruct d.
  - intros x. rewrite <- Hnet. unfold weigh, net. clear. induction l as [|e l IH]; [done|]. simpl. by rewrite IH.
  - clear. unfold count. induction l as [|e l IH]; [done|]. cbn [map weigh foldr List.filter]. fold (weigh w_send (map HDispatch l)).
    rewrite IH. destruct e; simpl; lia.
Qed.

(** Slot, dispatch, and what follows. *)
Lemma weigh_open balance wait env fuel d l0 tail : dispatch balance wait env fuel = Some (d, l0) ->
  weigh w_status ((HSlot :: map HDispatch l0) ++ tail) = weigh w_status tail /\
  weigh w_abort ((HSlot :: map HDispatch l0) ++ tail) = weigh w_abort tail /\
  weigh w_request ((HSlot :: map HDispatch l0) ++ tail) = weigh w_request tail /\
  weigh w_stream ((HSlot :: map HDispatch l0) ++ tail) = weigh w_stream tail /\
  weigh w_slot ((HSlot :: map HDispatch l0) ++ tail) = 1 + weigh w_slot tail /\
  weigh w_page ((HSlot :: map HDispatch l0) ++ tail) = match d with Ok _ => 0 | Err _ => -1 end + weigh w_page tail /\
  (forall x, weigh (w_held x) ((HSlot :: map HDispatch l0) ++ tail) =
     match d with Ok c => if bool_decide (c = x) then 1 else 0 | Err _ => 0 end + weigh (w_held x) tail) /\
  weigh w_send ((HSlot :: map HDispatch l0) ++ tail) = Z.of_nat (count is_head l0) + weigh w_send tail.
Proof.
  intros Ed. destruct (weigh_dispatch _ _ _ _ _ _ Ed) as (W1 & W2 & W3 & W4 & W5 & W6 & W7 & W8).
  change ((HSlot :: map HDispatch l0) ++ tail) with ([HSlot] ++ (map HDispatch l0 ++ tail)).
  rewrite !weigh_app, W1, W2, W3, W4, W5, W6, W8. split_and!; try (simpl; lia). intros x. rewrite !weigh_app, W7. simpl. lia.
Qed.

(** What opening a stream does. *)
Definition opens (r : open_result) : Z := match r with StreamOpen _ => 1 | _ => 0 end.

Lemma open_trace rs head e l r : openH3Stream rs head e = Some (l, r) ->
  weigh w_status l = (match r with OpenAnswered => 1 | _ => 0 end) /\
  weigh w_abort l = (match r with OpenAborted => 1 | _ => 0 end) /\
  weigh w_request l = 0 /\ weigh w_stream l = opens r /\ (forall w, even w -> weigh w l = 0) /\ 0 <= weigh w_send l <= 1.
Proof.
  unfold openH3Stream. destruct (o_slot e); cbn [negb].
  2: { destruct (o_gone e); intros [= <- <-]; split_and!; try done; by intros w []. }
  destruct (dispatch _ _ _ _) as [[d l0]|] eqn:Ed; [|done]. cbn [mbind option_bind].
  destruct (dispatch_loop_trace _ _ _ _ _ _ _ _ Ed) as [_ Hheads _].
  pose proof (fun tail => weigh_open _ _ _ _ _ _ tail Ed) as Hcase.
  destruct d as [c|refused].
  - pose proof (dispatch_loop_sent _ _ _ _ _ _ _ _ Ed) as Hsent. unfold head_sent in Hsent. unfold count in *.
    destruct (match c_v2 c with true => None | false => o_write e end) eqn:Ew; intros Heq.
    + destruct (c_v2 c) eqn:Ev; [done|]. rewrite Hsent in *.
      set (tail := [HHead head; HStreamClose; HSessionClosed c; HUnslot;
        HFailure Obs.ReasonStreamError (Some (rs_key rs)); refused_page streamFailed]) in *.
      assert (Hl : l = (HSlot :: map HDispatch l0) ++ tail /\ r = OpenAnswered) by (split; congruence). destruct Hl as [-> ->].
      destruct (Hcase tail) as (C1 & C2 & C3 & C4 & C5 & C6 & C7 & C8).
      rewrite C1, C2, C3, C4, C8. split_and!; try (simpl; lia). intros w Hw. destruct Hw as [| |x];
        [rewrite C6; done|rewrite C5; done|rewrite C7; simpl; by case_bool_decide].
    + set (tail := (if c_v2 c then [] else [HHead head]) ++ [HCommit c; HOpened c]) in *.
      assert (Hl : l = (HSlot :: map HDispatch l0) ++ tail /\ r = StreamOpen c) by (split; congruence). destruct Hl as [-> ->].
      destruct (Hcase tail) as (C1 & C2 & C3 & C4 & C5 & C6 & C7 & C8).
      rewrite C1, C2, C3, C4, C8, Hsent. split_and!; try (destruct (c_v2 c); simpl; lia).
      intros w Hw. destruct Hw as [| |x];
        [rewrite C6; by destruct (c_v2 c)|rewrite C5; by destruct (c_v2 c)|rewrite C7; destruct (c_v2 c); simpl; by case_bool_decide].
  - intros Heq. set (tail := [HUnslot; refused_page refused]) in *.
    assert (Hl : l = (HSlot :: map HDispatch l0) ++ tail /\ r = OpenAnswered) by (split; congruence). destruct Hl as [-> ->].
    destruct (Hcase tail) as (C1 & C2 & C3 & C4 & C5 & C6 & C7 & C8).
    rewrite C1, C2, C3, C4, C8. split_and!; try (destruct refused; simpl; lia).
    intros w Hw. destruct Hw as [| |x]; [rewrite C6; by destruct refused|rewrite C5; by destruct refused|rewrite C7; by destruct refused].
Qed.

Section traces.
Context `{Unicode} `{HttpGuts}.

(** What an exchange does with its stream and its client. *)
Definition answers (r : x_result) (status abort : Z) : Prop :=
  match r with
  | XRetry => status = 0 /\ abort = 0
  | XDone => status = 1 /\ abort = 0
  | XAborted => 0 <= status <= 1 /\ abort = 1
  end.

Lemma response_failed_trace rs q reused o e err l r : response_failed rs q reused o e err = (l, r) ->
  answers r (weigh w_status l) (weigh w_abort l) /\ weigh w_request l = 0 /\ weigh w_stream l = 0 /\
  (forall w, even w -> weigh w l = 0) /\ weigh w_send l = 0 /\ (r = XRetry -> reused = true /\ x_out e = false).
Proof.
  unfold response_failed. destruct (reused && _ && _ && _) eqn:E.
  { intros [= <- <-]. split_and!; try done. intros _. apply andb_prop in E as [[[-> E]%andb_prop _]%andb_prop _].
    by apply negb_true_iff in E. }
  repeat split_match; intros [= <- <-]; split_and!; try done; try (by intros w []); simpl; lia.
Qed.

Lemma relay_trace q pool o e resp l r : relay q pool o e resp = Some (l, r) ->
  answers r (weigh w_status l) (weigh w_abort l) /\ weigh w_request l = 0 /\ weigh w_stream l = -1 /\
  (forall w, even w -> weigh w l = 0) /\ weigh w_send l = 0 /\ r <> XRetry.
Proof.
  unfold relay. destruct (copyResponse _ _) as [[wl werr]|]; [|done]. cbn [mbind option_bind].
  destruct werr; [|destruct (keeps _ _ _ _ _)]; intros [= <- <-]; split_and!; try done; try (by intros w []); simpl; lia.
Qed.

Lemma exchange_trace rs q pool reused e l r : h3Exchange rs q pool reused e = Some (l, r) ->
  answers r (weigh w_status l) (weigh w_abort l) /\ weigh w_request l = 0 /\ weigh w_stream l = -1 /\
  (forall w, even w -> weigh w l = 0) /\ 0 <= weigh w_send l <= (if reused then 1 else 0) /\
  (r = XRetry -> reused = true /\ (weigh w_send l = 0 \/ x_out e = false \/ q_memory q = true /\ upload_failed (upload q e) = true)).
Proof.
  unfold h3Exchange. destruct (match reused with true => x_head e | false => None end) eqn:Eh.
  { intros [= <- <-]. destruct reused; [|done]. split_and!; try done; [by intros w []|]. auto. }
  set (l0 := if reused then [HHead (q_head q)] else [HAddIn (Z.of_nat (length (q_head q)))]).
  assert (Hl0 : weigh w_status l0 = 0 /\ weigh w_abort l0 = 0 /\ weigh w_request l0 = 0 /\ weigh w_stream l0 = 0 /\
    (forall w, even w -> weigh w l0 = 0) /\ weigh w_send l0 = (if reused then 1 else 0)).
  { unfold l0. destruct reused; split_and!; try done; by intros w []. }
  clearbody l0. destruct Hl0 as (A1 & A2 & A3 & A4 & A5 & A6).
  set (body := HBody _). destruct (q_memory q && reused && upload_failed (upload q e)) eqn:Em.
  { intros [= <- <-]. apply andb_prop in Em as [[Hm ->]%andb_prop Hu].
    rewrite !weigh_app, A1, A2, A3, A4, A6. split_and!; try done; [|intros _; split; [done|]; tauto].
    intros w Hw. rewrite weigh_app, A5 by done. by destruct Hw. }
  destruct (readResponse false (x_answers e)) as [[interim answer]|]; [|done]. cbn [mbind option_bind].
  set (pre := (l0 ++ [body]) ++ map _ interim).
  assert (Hp : weigh w_status pre = 0 /\ weigh w_abort pre = 0 /\ weigh w_request pre = 0 /\ weigh w_stream pre = 0 /\
    (forall w, even w -> weigh w pre = 0) /\ weigh w_send pre = (if reused then 1 else 0)).
  { unfold pre. rewrite !weigh_app, !weigh_map, A1, A2, A3, A4, A6 by done. split_and!; try (simpl; lia).
    intros w Hw. rewrite !weigh_app, A5, weigh_map by (done || by destruct Hw). by destruct Hw. }
  clearbody pre. destruct Hp as (P1 & P2 & P3 & P4 & P5 & P6). destruct answer as [resp|err].
  - destruct (relay q pool (upload q e) e resp) as [[l1 r1]|] eqn:Er; [|done]. cbn [mbind option_bind]. intros [= <- <-].
    apply relay_trace in Er as (R1 & R2 & R3 & R4 & R5 & R6). rewrite !weigh_app, P1, P2, P3, P4, P6.
    split_and!; [by rewrite !Z.add_0_l|lia|lia| |destruct reused; lia|destruct reused; lia|done].
    intros w Hw. by rewrite weigh_app, P5, R4.
  - destruct (response_failed rs q reused (upload q e) e err) as [l1 r1] eqn:Er. intros [= <- <-].
    apply response_failed_trace in Er as (R1 & R2 & R3 & R4 & R5 & R6). rewrite !weigh_app, P1, P2, P3, P4, P6, R2, R3, R5.
    split_and!; [by rewrite !Z.add_0_l, !Z.add_0_r|done|done| |destruct reused; simpl; lia|destruct reused; simpl; lia|].
    + intros w Hw. rewrite !weigh_app, P5, R4 by done. by destruct Hw.
    + intros Hr. destruct (R6 Hr). auto.
Qed.

(** The books of one request: at most one final answer, and an abort where there
    is none; as many failures counted as error pages; slots, reservations and
    streams all accounted for; and the request counted at most once. *)
Record balanced (requests : Z) (l : list h3_effect) : Prop := {
  bal_status : 0 <= weigh w_status l <= 1;
  bal_abort : 0 <= weigh w_abort l <= 1;
  bal_some : 1 <= weigh w_status l + weigh w_abort l;
  bal_request : 0 <= weigh w_request l <= requests;
  bal_stream : weigh w_stream l = 0;
  bal_even : forall w, even w -> weigh w l = 0;
}.

(** A round's stream, then its exchange; [pre] acquires the stream. *)
Lemma round_balanced pre (sent : bool) l r requests : answers r (weigh w_status l) (weigh w_abort l) -> r <> XRetry ->
  weigh w_request l = 0 -> weigh w_stream l = -1 -> (forall w, even w -> weigh w l = 0) ->
  weigh w_status pre = 0 -> weigh w_abort pre = 0 -> weigh w_request pre = 0 -> weigh w_stream pre = 1 ->
  (forall w, even w -> weigh w pre = 0) -> requests = (if sent then 0 else 1) ->
  balanced requests (pre ++ (if sent then [] else [HRequest]) ++ l).
Proof.
  intros Ha Hr L3 L4 L5 P1 P2 P3 P4 P5 Hq. assert (Hreq : forall w, weigh w (if sent then [] else [HRequest]) = if sent then 0 else w HRequest)
    by (intros w; destruct sent; simpl; lia).
  split; rewrite ?weigh_app, ?Hreq, ?P1, ?P2, ?P3, ?P4, ?L3, ?L4; unfold answers in Ha.
  1-5: destruct r; [done|..]; destruct sent; cbn [w_status w_abort w_request w_stream]; lia.
  intros w Hw. rewrite !weigh_app, P5, L5, Hreq by done. destruct sent; [done|]. by destruct Hw.
Qed.

Definition asked (sent : bool) : Z := if sent then 0 else 1.

(** A round on a fresh stream is the last. *)
Lemma fresh_round rs q pool sent oe xe rounds l : serve_rounds rs q pool None sent ((oe, xe) :: rounds) = Some l ->
  balanced (asked sent) l /\ 0 <= weigh w_send l <= 1.
Proof.
  cbn [serve_rounds]. destruct (openH3Stream rs (q_head q) oe) as [[lo ro]|] eqn:Eo; [|done]. cbn [mbind option_bind].
  apply open_trace in Eo as (O1 & O2 & O3 & O4 & O5 & O6). destruct ro as [c| |].
  - destruct (h3Exchange rs q pool false xe) as [[l1 r1]|] eqn:Ex; [|done]. cbn [mbind option_bind].
    apply exchange_trace in Ex as (X1 & X2 & X3 & X4 & X5 & X6).
    assert (Hr : r1 <> XRetry) by (intros Hr; by destruct (X6 Hr)).
    destruct r1; [done|..]; intros [= <-]; (split; [by eapply round_balanced|]);
      rewrite !weigh_app; destruct sent; simpl in *; lia.
  - intros [= <-]. split; [|lia]. split; rewrite ?O1, ?O2, ?O3, ?O4; unfold asked; destruct sent; simpl; lia || done.
  - intros [= <-]. split; [|lia]. split; rewrite ?O1, ?O2, ?O3, ?O4; unfold asked; destruct sent; simpl; lia || done.
Qed.

(** What must hold when a request went out twice. *)
Definition nothing_came (q : h3_request) (xe : exchange_env) : Prop :=
  x_out xe = false \/ q_memory q = true /\ upload_failed (upload q xe) = true.

Lemma rounds_trace rs q pool kept rounds l : serve_rounds rs q pool kept false rounds = Some l ->
  balanced 1 l /\ 0 <= weigh w_send l <= 2 /\
  (weigh w_send l = 2 -> kept <> None /\ exists oe xe rest, rounds = (oe, xe) :: rest /\ nothing_came q xe).
Proof.
  destruct rounds as [|[oe xe] rounds]; [done|]. destruct kept as [ts|].
  2: { intros Hs. destruct (fresh_round _ _ _ _ _ _ _ _ Hs). split_and!; [done|lia|lia|lia]. }
  cbn [serve_rounds]. destruct (h3Exchange rs q pool true xe) as [[l1 r1]|] eqn:Ex; [|done]. cbn [mbind option_bind].
  apply exchange_trace in Ex as (X1 & X2 & X3 & X4 & X5 & X6). destruct r1.
  - destruct rounds as [|[oe2 xe2] rounds]; [done|].
    destruct (serve_rounds rs q pool None true ((oe2, xe2) :: rounds)) as [l2|] eqn:E2; [|done].
    apply fresh_round in E2 as [[B1 B2 B3 B4 B5 B6] S2]. cbn [mbind option_bind]. intros [= <-].
    change (HTake ts :: (HRequest :: l1) ++ l2) with ([HTake ts; HRequest] ++ (l1 ++ l2)).
    destruct X1 as [X1 X1']. unfold asked in B4.
    assert (Hw : forall w, weigh w ([HTake ts; HRequest] ++ (l1 ++ l2)) = w (HTake ts) + w HRequest + weigh w l1 + weigh w l2)
      by (intros w; rewrite !weigh_app; simpl; lia).
    split; [|split].
    + split; rewrite ?Hw, ?X1, ?X1', ?X2, ?X3; cbn [w_status w_abort w_request w_stream]; try lia.
      intros w He. rewrite Hw, X4, B6 by done. by destruct He.
    + rewrite Hw. cbn [w_send]. lia.
    + rewrite Hw. cbn [w_send]. intros Htwo. split; [done|]. exists oe, xe, ((oe2, xe2) :: rounds). split; [done|].
      destruct (X6 eq_refl) as [_ [?|?]]; [lia|done].
  - intros [= <-]. assert (Hb : balanced 1 ([HTake ts] ++ [HRequest] ++ l1))
      by (apply (round_balanced [HTake ts] false l1 XDone); try done; by intros w []).
    split; [done|]. change (HTake ts :: HRequest :: l1) with ([HTake ts; HRequest] ++ l1). rewrite weigh_app. simpl. lia.
  - intros [= <-]. assert (Hb : balanced 1 ([HTake ts] ++ [HRequest] ++ l1))
      by (apply (round_balanced [HTake ts] false l1 XAborted); try done; by intros w []).
    split; [done|]. change (HTake ts :: HRequest :: l1) with ([HTake ts; HRequest] ++ l1). rewrite weigh_app. simpl. lia.
Qed.

(** The upgrade of a WebSocket. *)
Lemma websocket_trace `{Crypto} rs key e l : serveHTTP3WebSocket rs key e = Some l ->
  0 <= weigh w_status l <= 1 /\ 0 <= weigh w_abort l <= 1 /\ 1 <= weigh w_status l + weigh w_abort l /\
  weigh w_request l = 0 /\ weigh w_stream l = 0 /\ (forall w, even w -> weigh w l = 0) /\ weigh w_send l = 0.
Proof.
  unfold serveHTTP3WebSocket. destruct (readResponse true _) as [[i answer]|]; [|done]. cbn [mbind option_bind].
  destruct answer as [resp|err].
  - destruct (StatusCode resp =? 101); [destruct (negb _)|destruct (StatusCode resp <? 300)].
    4: { destruct (copyResponse _ _) as [[wl [werr|]]|]; [..|done]; cbn [mbind option_bind]; intros [= <-];
           split_and!; try (simpl; lia); by intros w []. }
    all: intros [= <-]; split_and!; try (simpl; lia); by intros w [].
  - destruct (w_gone e); intros [= <-]; split_and!; try (simpl; lia); by intros w [].
Qed.

(** A request that ends before it has a stream. *)
Lemma refused_balanced f r code reason detail : code <> 501 -> balanced 1 [HFailure f r; HPage code reason detail].
Proof.
  intros Hc. split; try (simpl; lia). intros w Hw. destruct Hw; [|done|done]. simpl.
  by rewrite (proj2 (Z.eqb_neq _ _) Hc).
Qed.

Lemma abort_balanced : balanced 1 [HAbort].
Proof. split; try (simpl; lia). by intros w []. Qed.

(** A WebSocket on its stream. *)
Lemma websocket_balanced `{Crypto} rs head key oe we lo ro l : openH3Stream rs head oe = Some (lo, ro) ->
  match ro with
  | StreamOpen _ =>
      l ← serveHTTP3WebSocket rs key we;
      Some (lo ++ [HRequest; HAddIn (Z.of_nat (length head))] ++ l ++ [HCloseStream])
  | _ => Some lo
  end = Some l -> balanced 1 l /\ 0 <= weigh w_send l <= 1.
Proof.
  intros (O1 & O2 & O3 & O4 & O5 & O6)%open_trace. destruct ro as [c| |].
  2-3: intros [= <-]; split; [|lia]; split; rewrite ?O1, ?O2, ?O3, ?O4; done || (simpl; lia).
  destruct (serveHTTP3WebSocket rs key we) as [l1|] eqn:Ew; [|done]. cbn [mbind option_bind]. intros [= <-].
  apply websocket_trace in Ew as (W1 & W2 & W3 & W4 & W5 & W6 & W7).
  set (m := HAddIn _). change (lo ++ HRequest :: m :: l1 ++ [HCloseStream]) with (lo ++ [HRequest; m] ++ l1 ++ [HCloseStream]).
  split; [|rewrite !weigh_app, W7; simpl; lia].
  split; rewrite ?weigh_app, ?O1, ?O2, ?O3, ?O4, ?W4, ?W5; try (simpl; lia).
  intros w Hw. rewrite !weigh_app, O5, W6 by done. by destruct Hw.
Qed.

(** The request as [serve_rounds] gets it. *)
Definition sendable (r : Request) (lines : gostr) (body : script) (len : Z) (b : gostr) (memory : bool) : h3_request :=
  let r := with_length r len in
  mkH3 r lines (trailerNames (r_Trailer r)) memory (if memory then [(b, None); ([], Some [EOF])] else body).

(** What the look at the body and the attempt to hold it gave. *)
Definition held_as (r : Request) (body : script) (e : serve_env) (body1 : script) (len : Z) (b : gostr) (memory : bool) : Prop :=
  peeked r body (v_in_time e) = Some (body1, len) /\
  holdBody (with_length r len) (trailerNames (r_Trailer r)) body1 (v_bounded e) = Some (Ok (b, memory)).

(** How a request is served: turned away, as a WebSocket, or in rounds. *)
Inductive served (r : Request) (body : script) (e : serve_env) : list h3_effect -> Prop :=
| served_refused l : balanced 1 l -> weigh w_send l = 0 -> served r body e l
| served_websocket l : balanced 1 l -> 0 <= weigh w_send l <= 1 -> served r body e l
| served_rounds rs lines body1 len b memory kept l :
    http1Lines r = Ok lines -> held_as r body e body1 len b memory ->
    kept = (if memory && idempotent r && v_pool e then v_kept e else None) ->
    serve_rounds rs (sendable r lines body1 len b memory) (v_pool e) kept false (v_rounds e) = Some l -> served r body e l.

Lemma serve_cases `{Crypto} routes r body e l : serveHTTP3 routes r body e = Some l -> served r body e l.
Proof.
  unfold serveHTTP3. destruct (beq _ _ && negb _).
  { intros [= <-]. apply served_refused; [|done]. split; try (simpl; lia). by intros w []. }
  destruct (match isWebSocketConnect r with true => _ | false => _ end) as [lines|] eqn:El.
  2: { intros [= <-]. by apply served_refused; [apply refused_balanced|]. }
  destruct (Match routes _) as [rs|].
  2: { intros [= <-]. by apply served_refused; [apply refused_balanced|]. }
  destruct (noHTTP3 rs).
  { intros [= <-]. by apply served_refused; [apply refused_balanced|]. }
  destruct (isWebSocketConnect r).
  { destruct (openH3Stream rs lines (v_open e)) as [[lo ro]|] eqn:Eo; [|done]. cbn [mbind option_bind]. intros Hl.
    destruct (websocket_balanced _ _ _ _ _ _ _ _ Eo Hl). by apply served_websocket. }
  destruct (peeked r body (v_in_time e)) as [[body1 len]|] eqn:Ep.
  2: { intros [= <-]. by apply served_refused; [apply abort_balanced|]. }
  destruct (holdBody _ _ _ _) as [[[b memory]|err]|] eqn:Eh; [..|done]; cbn [mbind option_bind].
  - intros Hl. by eapply served_rounds.
  - intros [= <-]. by apply served_refused; [apply abort_balanced|].
Qed.

(** [C8] Every HTTP/3 request is settled, on every path: the client gets exactly
    one final answer, or its stream is reset (an answer that cannot be finished
    is cut, never left as if complete); every error page but a refused CONNECT
    has one failure counted; every slot of the route's cap and every reservation
    on an agent is given back or passed to an open stream; every stream opened
    or taken from the pool is closed or kept; and the request is counted at most
    once, however many streams it took. *)
Theorem h3_request_settled `{Crypto} (routes : Matcher routeState) (r : Request) (body : script) (e : serve_env)
    (l : list h3_effect) (Hl : serveHTTP3 routes r body e = Some l) : balanced 1 l.
Proof.
  destruct (serve_cases _ _ _ _ _ Hl) as [|l|rs lines body1 len b memory kept l _ _ _ Hr]; [done|done|].
  by apply rounds_trace in Hr as [Hb _].
Qed.

(** [C17] No request runs twice unless that is safe: at most two heads go to
    agents, and a second one only for an idempotent request without trailers
    whose body is in memory, first sent on a kept stream on which nothing came
    back. *)
Theorem h3_runs_once `{Crypto} (routes : Matcher routeState) (r : Request) (body : script) (e : serve_env)
    (l : list h3_effect) (Hl : serveHTTP3 routes r body e = Some l) :
  0 <= weigh w_send l <= 2 /\
  (weigh w_send l = 2 ->
   idempotent r = true /\ v_pool e = true /\ is_Some (v_kept e) /\
   exists oe xe rest lines body1 len b, v_rounds e = (oe, xe) :: rest /\ http1Lines r = Ok lines /\
     held_as r body e body1 len b true /\ nothing_came (sendable r lines body1 len b true) xe).
Proof.
  destruct (serve_cases _ _ _ _ _ Hl) as [|l|rs lines body1 len b memory kept l Hh Hb Hk Hr]; [lia|lia|].
  apply rounds_trace in Hr as (_ & Hs & H2). split; [done|]. intros Htwo. destruct (H2 Htwo) as (Hkept & oe & xe & rest & Hv & Hn).
  destruct (memory && idempotent r && v_pool e) eqn:E; [|by destruct (Hkept Hk)].
  apply andb_prop in E as [[-> Hi]%andb_prop Hp]. subst kept. split_and!; [done|done|destruct (v_kept e); [by eexists|done]|].
  by exists oe, xe, rest, lines, body1, len, b.
Qed.

(** *** Two rounds are enough *)

Lemma fresh_never_retries rs q pool e l r : h3Exchange rs q pool false e = Some (l, r) -> r <> XRetry.
Proof. intros (_ & _ & _ & _ & _ & Hr)%exchange_trace ->. by destruct (Hr eq_refl). Qed.

Lemma fresh_round_last rs q pool sent round rest :
  serve_rounds rs q pool None sent (round :: rest) = serve_rounds rs q pool None sent [round].
Proof.
  destruct round as [oe xe]. cbn [serve_rounds]. destruct (openH3Stream rs (q_head q) oe) as [[lo ro]|]; [|done].
  cbn [mbind option_bind]. destruct ro; [|done|done].
  destruct (h3Exchange rs q pool false xe) as [[l r]|] eqn:E; [|done]. cbn [mbind option_bind].
  pose proof (fresh_never_retries _ _ _ _ _ _ E). by destruct r.
Qed.

Lemma rounds_two rs q pool kept r1 r2 rest :
  serve_rounds rs q pool kept false (r1 :: r2 :: rest) = serve_rounds rs q pool kept false [r1; r2].
Proof.
  destruct kept as [ts|]; [|by rewrite fresh_round_last, (fresh_round_last _ _ _ _ _ [r2])].
  pose proof (fresh_round_last rs q pool true r2 rest) as Hf. destruct r1 as [oe xe]. cbn [serve_rounds] in *.
  destruct (h3Exchange rs q pool true xe) as [[l r]|]; [|done]. cbn [mbind option_bind]. destruct r; [|done|done]. by rewrite Hf.
Qed.

(** A round returns when its dispatch and its exchange do. *)
Definition returns (rs : routeState) (q : h3_request) (pool : bool) (round : open_env * exchange_env) : Prop :=
  is_Some (openH3Stream rs (q_head q) round.1) /\ forall reused, is_Some (h3Exchange rs q pool reused round.2).

Lemma fresh_round_returns rs q pool sent round rest : returns rs q pool round ->
  is_Some (serve_rounds rs q pool None sent (round :: rest)).
Proof.
  destruct round as [oe xe]. intros [[[lo ro] Ho] Hx]. cbn [serve_rounds fst snd] in *. rewrite Ho. cbn [mbind option_bind].
  destruct ro; [|by eexists|by eexists]. destruct (Hx false) as [[l r] E]. rewrite E. cbn [mbind option_bind].
  pose proof (fresh_never_retries _ _ _ _ _ _ E). destruct r; [done|by eexists|by eexists].
Qed.

(** Two streams are always enough: a request whose dispatches and exchanges
    return is settled within two rounds of the loop, and nothing beyond the
    second is ever used. *)
Theorem h3_two_rounds (rs : routeState) (q : h3_request) (pool : bool) (kept : option tunnelStream)
    (r1 r2 : open_env * exchange_env) (rest : list (open_env * exchange_env))
    (H1 : returns rs q pool r1) (H2 : returns rs q pool r2) :
  exists l, serve_rounds rs q pool kept false (r1 :: r2 :: rest) = Some l /\
            serve_rounds rs q pool kept false [r1; r2] = Some l.
Proof.
  rewrite rounds_two. destruct kept as [ts|].
  2: { destruct (fresh_round_returns _ _ _ false _ [r2] H1) as [l E]. eauto. }
  destruct (fresh_round_returns _ _ _ true _ [] H2) as [l2 E2]. destruct r1 as [oe xe]. destruct H1 as [_ Hx].
  destruct (Hx true) as [[l r] E]. cbn [snd] in E. generalize dependent [r2]. intros tail E2.
  cbn [serve_rounds]. rewrite E. cbn [mbind option_bind].
  destruct r; [|by eexists|by eexists]. rewrite E2. by eexists.
Qed.

(** *** What is kept *)

Lemma exchange_kept rs q pool reused e l r : h3Exchange rs q pool reused e = Some (l, r) -> HKeep ∈ l ->
  exists interim resp wl, readResponse false (x_answers e) = Some (interim, Ok resp) /\
    copyResponse (x_client e) (rp_Body resp) = Some (wl, None) /\ keeps q pool (upload q e) e resp = true /\
    HWrite wl ∈ l /\ r = XDone.
Proof.
  unfold h3Exchange. destruct (match reused with true => x_head e | false => None end).
  { intros [= <- <-]. set_solver. }
  set (l0 := if reused then [HHead (q_head q)] else _). assert (Hl0 : HKeep ∉ l0) by (unfold l0; destruct reused; set_solver).
  clearbody l0. set (body := HBody _). assert (Hb : HKeep <> body) by done. clearbody body.
  destruct (_ && _ && _); [intros [= <- <-]; set_solver|].
  destruct (readResponse false _) as [[interim answer]|]; [|done]. cbn [mbind option_bind].
  set (early := map _ interim). assert (Hi : HKeep ∉ early).
  { unfold early. rewrite list_elem_of_fmap. by intros (? & ? & _). }
  clearbody early. destruct answer as [resp|err].
  - unfold relay. destruct (copyResponse _ _) as [[wl werr]|] eqn:Ec; [|done]. cbn [mbind option_bind].
    destruct werr; [intros [= <- <-]; set_solver|]. destruct (keeps _ _ _ _ _) eqn:Ek; [intros [= <- <-]|intros [= <- <-]; set_solver].
    intros _. exists interim, resp, wl. split_and!; try done. set_solver.
  - destruct (response_failed _ _ _ _ _ _) as [l1 r1] eqn:Er. unfold response_failed in Er.
    intros [= <- <-]. repeat (case_match; try done); simplify_eq; set_solver.
Qed.

(** [C20] Only a clean stream is kept for the connection's next request: the
    whole request had gone up, and its bytes are exactly one HTTP/1.1 message,
    so that whatever is sent next starts a message of its own; the whole
    response had come down and gone to the client, its end seen, with nothing
    read beyond it; the service had not asked to close; and the client had not
    reset the request. *)
Theorem h3_kept_clean (rs : routeState) (q : h3_request) (pool reused : bool) (e : exchange_env) (l : list h3_effect) (r : x_result)
    (next : gostr) (Hx : h3Exchange rs q pool reused e = Some (l, r)) (Hk : HKeep ∈ l)
    (Hl : http1Lines (q_r q) = Ok (q_lines q)) (Ht : q_trailers q = trailerNames (r_Trailer (q_r q))) :
  exists o m resp wl,
    upload q e = Some o /\ s_err o = None /\
    Http11.parse_message (q_head q ++ concat (s_writes o) ++ next) = Some (m, next) /\
    (exists interim, readResponse false (x_answers e) = Some (interim, Ok resp)) /\
    HWrite wl ∈ l /\ concat wl = until_end (rp_Body resp) /\
    (exists err, end_error (rp_Body resp) = Some err /\ errors_is err EOF = true) /\
    rp_Close resp = false /\ x_buffered e = 0 /\ x_cancelled e = false.
Proof.
  destruct (exchange_kept _ _ _ _ _ _ _ Hx Hk) as (interim & resp & wl & Hresp & [Hw He]%copy_response_spec & Hkeep & Hin & ->).
  unfold keeps in Hkeep. apply andb_prop in Hkeep as [[[[[_ Hc]%andb_prop Hd]%andb_prop Hf]%andb_prop Hb]%andb_prop Hx'].
  destruct (upload q e) as [o|] eqn:Eu; [|by destruct (if q_memory q then UploadOver else x_end e)].
  cbn [upload_failed] in Hf. destruct (s_err o) eqn:Ee; [done|]. unfold upload in Eu. rewrite Ht in Eu.
  eexists o, _, resp, wl. split_and!; [done|done| |eauto|done|done|done|by apply negb_true_iff|b2p; lia|by apply negb_true_iff].
  unfold q_head. rewrite Ht. by eapply parse_forwarded.
Qed.
End traces.

(** ** Witnesses *)

Module H3ServeWitness.
#[local] Existing Instance ascii_only.
#[local] Existing Instance plain_guts.
#[local] Existing Instance toy_crypto.

Definition rs : routeState := mkRouteState (bs "a.example") BalanceRoundRobin false.
Definition routes : Matcher routeState := mkMatcher {[ bs "a.example" := rs ]} [] None.
Definition get : Request := mkRequest (bs "GET") (bs "HTTP/3.0") (bs "a.example") (bs "/") [] ∅ ∅ 0.
Definition get_lines : gostr := match http1Lines get with Ok l => l | Err _ => [] end.
Definition get_sent : h3_request := sendable get get_lines [] 0 [] true.
Definition stale : tunnelStream := mkTS 7 1 0 (bs "a.example").

(** A kept stream that had closed, and then a fresh one that answers. *)
Definition gone : exchange_env :=
  mkExchange None (fun _ => None) ∅ UploadOver [Err [EOF]] false false (fun _ => None) UploadOver 0 false.
Definition hello : Response :=
  mkResponse 200 (list_to_map [(bs "Content-Length", [bs "2"])]) 2 false [(bs "hi", Some [EOF])] ∅.
Definition fine : exchange_env :=
  mkExchange None (fun _ => None) ∅ UploadOver [Ok hello] true false (fun _ => None) UploadOver 0 false.
Definition opening : open_env := mkOpen true false DispatchWitness.world second 5 None.
Definition env : serve_env :=
  mkServe (bs "key") true true true (Some stale) [(opening, gone); (opening, fine)] opening (mkWs [] false (fun _ => None)).
Definition trace : list h3_effect := default [] (serveHTTP3 routes get [([], Some [EOF])] env).

Lemma trace_eq : serveHTTP3 routes get [([], Some [EOF])] env = Some trace.
Proof. vm_compute. reflexivity. Qed.

Lemma h3_request_settled_witness : last trace = Some HKeep /\ balanced 1 trace.
Proof. split; [vm_compute; reflexivity|]. apply (h3_request_settled routes get [([], Some [EOF])] env trace trace_eq). Defined.

Lemma h3_runs_once_witness : weigh w_send trace = 2 /\ idempotent get = true.
Proof.
  split; [vm_compute; reflexivity|].
  destruct (h3_runs_once routes get [([], Some [EOF])] env trace trace_eq) as [_ H2].
  destruct H2 as [Hi _]; [vm_compute; reflexivity|exact Hi].
Defined.

Lemma rounds_return : returns rs get_sent true (opening, gone) /\ returns rs get_sent true (opening, fine).
Proof. repeat split; try (intros []); eexists; vm_compute; reflexivity. Qed.

Lemma h3_two_rounds_witness :
  exists l, serve_rounds rs get_sent true (Some stale) false [(opening, gone); (opening, fine)] = Some l.
Proof.
  destruct (h3_two_rounds rs get_sent true (Some stale) (opening, gone) (opening, fine) [] (proj1 rounds_return) (proj2 rounds_return))
    as (l & Hl & _). exists l. exact Hl.
Defined.

Lemma h3_kept_clean_witness : exists o m, upload get_sent fine = Some o /\
  Http11.parse_message (q_head get_sent ++ concat (s_writes o) ++ bs "GET") = Some (m, bs "GET").
Proof.
  destruct (h3_kept_clean rs get_sent true true fine
    (match h3Exchange rs get_sent true true fine with Some (l, _) => l | None => [] end) XDone (bs "GET")) as (o & m & resp & wl & Hu & _ & Hp & _).
  - vm_compute. reflexivity.
  - apply list_elem_of_In. vm_compute. do 5 right. left. reflexivity.
  - vm_compute. reflexivity.
  - vm_compute. reflexivity.
  - exists o, m. split; [exact Hu|exact Hp].
Defined.
End H3ServeWitness.
