(* ===== verification/Handoff.v ===== *)
(** * Replacing a running agent ([internal/handoff/handoff.go], [internal/cli/replace.go])

    On a reload the running agent (the predecessor) starts a new process (the
    successor), which reports when it is prepared; the predecessor then retires
    from the edge's pool, tells systemd that the successor is the service's main
    process, and gives it the go-ahead.  The two processes, any number of reloads
    and a shutdown at any moment are one step relation. *)

From S2P Require Import Prelude GoStrings Numeral IO Agent.
#[local] Open Scope Z_scope.

(** ** The environment *)

Definition envFDs : gostr := bs "COEN_HANDOFF_FDS".
Definition msgPrepared : ascii := "P"%char.
Definition msgGo : ascii := "G"%char.

(** The environment a started process gets: a later entry replaces an earlier
    one of its name. *)
Definition start_env (env : gmap gostr gostr) : gmap gostr gostr := <[envFDs := bs "3,4"]> env.

(** The descriptors of the go-ahead and of the report. *)
Record Predecessor := mkPredecessor { goAhead : Z; prepared : Z }.

Inductive env_error := NotTwo (v : gostr) | BadFD (v p : gostr).

Definition parse_fd (v p : gostr) : result env_error Z :=
  match Atoi p with
  | Some n => if n <? 3 then Err (BadFD v p) else Ok n
  | None => Err (BadFD v p)
  end.

(** [FromEnv]: the environment it leaves, and the predecessor, if there is one. *)
Definition FromEnv (env : gmap gostr gostr) : gmap gostr gostr * result env_error (option Predecessor) :=
  match env !! envFDs with
  | None => (env, Ok None)
  | Some v =>
      (delete envFDs env,
       match Split v (bs ",") with
       | [p0; p1] =>
           let? n0 := parse_fd v p0 in
           let? n1 := parse_fd v p1 in Ok (Some (mkPredecessor n0 n1))
       | _ => Err (NotTwo v)
       end)
  end.

(** ** Waiting *)

(** What a one-byte read under a timeout gives. *)
Inductive waited := Message (b : ascii) | ReadFails (e : error) | TimedOut.
#[export] Instance waited_eq_dec : EqDecision waited.
Proof. solve_decision. Defined.

Inductive prepared_error := Unexpected (b : ascii) | ExitedEarly | Stopped (e : error) | NotInTime.

(** [WaitPrepared]: on an error the successor has been killed and waited for. *)
Definition WaitPrepared (w : waited) : option prepared_error :=
  match w with
  | Message b => if ceq b msgPrepared then None else Some (Unexpected b)
  | ReadFails e => Some (if errors_is e EOF || errors_is e ErrUnexpectedEOF then ExitedEarly else Stopped e)
  | TimedOut => Some NotInTime
  end.

(** [WaitGo]: whether the go-ahead came. *)
Definition WaitGo (w : waited) : bool := match w with Message b => ceq b msgGo | _ => false end.

(** [awaitTurn]: what a starting process does, given its environment, whether
    its report was written, and what the wait gave. *)
Inductive turn := NormalStart | TakingOver | StartingAnyway.
Inductive turn_error := BadEnv (e : env_error) | ReportFailed.

Definition awaitTurn (env : gmap gostr gostr) (reported : bool) (w : waited) : result turn_error turn :=
  match (FromEnv env).2 with
  | Err e => Err (BadEnv e)
  | Ok None => Ok NormalStart
  | Ok (Some _) => if negb reported then Err ReportFailed else Ok (if WaitGo w then TakingOver else StartingAnyway)
  end.

(** ** The two processes *)

(** Where a call of [replace] is; [p] is its successor's process id. *)
Inductive replace_error := AlreadyShuttingDown | UnderWay | SpawnFailed | NotPrepared (e : prepared_error) | BeganShutdown | SteppedAside.

Inductive pc :=
| AtCtx | AtBusy | AtSpawn
| AtWait (p : nat) | AtCheck (p : nat) | AtRegister (p : nat) | AtDraining (p : nat) | AtCancel (p : nat)
| Failed (e : replace_error)
| Replaced (p : nat).

(** A successor: whether it runs, has reported, has been given the go-ahead, and
    whether it has gone on to connect, on the go-ahead or without it. *)
Record succ := mkSucc { alive : bool; reported : bool; told : bool; working : option bool }.

(** Where [handOver] is. *)
Inductive handover := NotYet | AtExited (p : nat) | AtNotify (p : nat) | AtGo (p : nat) | Over (p : nat).

(** [main] is the process systemd was told is the main one; [exit] the
    predecessor's exit, [true] for a failure; [term] is whether it was told to
    stop from outside, which is not in the code's state. *)
Record state := mkState {
  agent : Agent;
  ctx_done : bool;
  busy : bool;
  handoverFailed : bool;
  s_draining : bool;
  calls : gmap nat pc;
  succs : gmap nat succ;
  main : option nat;
  cb : handover;
  exit : option bool;
  term : bool;
}.

Definition set_agent (a : Agent) (s : state) : state :=
  mkState a (ctx_done s) (busy s) (handoverFailed s) (s_draining s) (calls s) (succs s) (main s) (cb s) (exit s) (term s).
Definition cancel (s : state) : state :=
  mkState (agent s) true (busy s) (handoverFailed s) (s_draining s) (calls s) (succs s) (main s) (cb s) (exit s) (term s).
Definition set_busy (b : bool) (s : state) : state :=
  mkState (agent s) (ctx_done s) b (handoverFailed s) (s_draining s) (calls s) (succs s) (main s) (cb s) (exit s) (term s).
Definition set_failed (s : state) : state :=
  mkState (agent s) (ctx_done s) (busy s) true (s_draining s) (calls s) (succs s) (main s) (cb s) (exit s) (term s).
Definition set_draining (s : state) : state :=
  mkState (agent s) (ctx_done s) (busy s) (handoverFailed s) true (calls s) (succs s) (main s) (cb s) (exit s) (term s).
Definition set_call (i : nat) (c : pc) (s : state) : state :=
  mkState (agent s) (ctx_done s) (busy s) (handoverFailed s) (s_draining s) (<[i := c]> (calls s)) (succs s) (main s) (cb s) (exit s) (term s).
Definition set_succ (p : nat) (u : succ) (s : state) : state :=
  mkState (agent s) (ctx_done s) (busy s) (handoverFailed s) (s_draining s) (calls s) (<[p := u]> (succs s)) (main s) (cb s) (exit s) (term s).
Definition set_main (p : nat) (s : state) : state :=
  mkState (agent s) (ctx_done s) (busy s) (handoverFailed s) (s_draining s) (calls s) (succs s) (Some p) (cb s) (exit s) (term s).
Definition set_cb (c : handover) (s : state) : state :=
  mkState (agent s) (ctx_done s) (busy s) (handoverFailed s) (s_draining s) (calls s) (succs s) (main s) c (exit s) (term s).
Definition set_exit (b : bool) (s : state) : state :=
  mkState (agent s) (ctx_done s) (busy s) (handoverFailed s) (s_draining s) (calls s) (succs s) (main s) (cb s) (Some b) (term s).
Definition set_term (s : state) : state :=
  mkState (agent s) (ctx_done s) (busy s) (handoverFailed s) (s_draining s) (calls s) (succs s) (main s) (cb s) (exit s) true.

Definition no_succ : succ := mkSucc false false false None.
Definition the_succ (p : nat) (s : state) : succ := default no_succ (succs s !! p).

(** [Stop]: the successor has exited when it returns. *)
Definition Stop (p : nat) (s : state) : state :=
  let u := the_succ p s in set_succ p (mkSucc false (reported u) (told u) (working u)) s.

(** *** [replace] *)

(** What the next statement of a call meets. *)
Inductive answer := Spawned (p : nat) | SpawnError | Waited (w : waited) | Plain.

(** A failing return: the replacement is no longer under way. *)
Definition abandon (i : nat) (e : replace_error) (s : state) : state := set_call i (Failed e) (set_busy false s).

Definition replace_step (i : nat) (c : pc) (a : answer) (s : state) : state :=
  match c, a with
  | AtCtx, _ => set_call i (if ctx_done s then Failed AlreadyShuttingDown else AtBusy) s
  | AtBusy, _ => if busy s then set_call i (Failed UnderWay) s else set_call i AtSpawn (set_busy true s)
  | AtSpawn, Spawned p => set_call i (AtWait p) (set_succ p (mkSucc true false false None) s)
  | AtSpawn, _ => abandon i SpawnFailed s
  | AtWait p, Waited w =>
      match WaitPrepared w with
      | Some e => abandon i (NotPrepared e) (Stop p s)
      | None => set_call i (AtCheck p) s
      end
  | AtCheck p, _ => if ctx_done s then abandon i BeganShutdown (Stop p s) else set_call i (AtRegister p) s
  | AtRegister p, _ =>
      let '(a, ok) := SetOnRetired p (agent s) in
      if negb ok then abandon i SteppedAside (Stop p s) else set_call i (AtDraining p) (set_agent a s)
  | AtDraining p, _ => set_call i (AtCancel p) (set_draining s)
  | AtCancel p, _ => set_call i (Replaced p) (cancel s)
  | _, _ => s
  end.

(** *** [handOver]; [ok] is whether the notification, or the write of the
    go-ahead, succeeds *)
Definition handOver_step (ok : bool) (s : state) : state :=
  match cb s with
  | AtExited p => if alive (the_succ p s) then set_cb (AtNotify p) s else set_cb (Over p) (set_failed s)
  | AtNotify p => if ok then set_cb (AtGo p) (set_main p s) else set_cb (Over p) (Stop p (set_failed s))
  | AtGo p =>
      let u := the_succ p s in
      set_cb (Over p) (if ok then set_succ p (mkSucc (alive u) (reported u) true (working u)) s else s)
  | NotYet | Over _ => s
  end.

(** [runDaemon]'s result once the agent's [Run] has returned. *)
Definition failed (s : state) : bool := handoverFailed s.

Inductive event :=
| Hup (i : nat)
| Replace (i : nat) (a : answer)
| Terminate                               (* SIGTERM *)
| Retire                                  (* the agent's shutdown reaches [retired] *)
| HandOver (ok : bool)
| Exit
| Report (p : nat)                        (* the successor's Prepared *)
| Die (p : nat)
| TakeTurn (p : nat) (w : waited).        (* its WaitGo returns, and it goes on *)

Definition fits (c : pc) (a : answer) (s : state) : Prop :=
  match c, a with
  | AtSpawn, Spawned p => succs s !! p = None
  | AtSpawn, SpawnError => True
  | AtWait p, Waited (Message b) => b = msgPrepared /\ reported (the_succ p s) = true
  | AtWait p, Waited (ReadFails e) => alive (the_succ p s) = false
  | AtWait p, Waited TimedOut => True
  | (AtCtx | AtBusy | AtCheck _ | AtRegister _ | AtDraining _ | AtCancel _), Plain => True
  | _, _ => False
  end.

Definition is_over (c : handover) : Prop := match c with NotYet | Over _ => True | _ => False end.

Definition enabled (e : event) (s : state) : Prop :=
  match e with
  | Hup i => calls s !! i = None /\ exit s = None
  | Replace i a => exit s = None /\ exists c, calls s !! i = Some c /\ fits c a s
  | Terminate => exit s = None
  | Retire => exit s = None /\ ctx_done s = true
  | HandOver _ => exit s = None
  | Exit => exit s = None /\ retiredDone (agent s) = true /\ is_over (cb s)
  | Report p => exists u, succs s !! p = Some u /\ alive u = true /\ exit s = None
  | Die p => exists u, succs s !! p = Some u
  | TakeTurn p w => exists u, succs s !! p = Some u /\ alive u = true /\ reported u = true /\ working u = None /\
      match w with
      | Message b => b = msgGo /\ told u = true
      | ReadFails _ => exit s <> None
      | TimedOut => True
      end
  end.

Definition exec (e : event) (s : state) : state :=
  match e with
  | Hup i => set_call i AtCtx s
  | Replace i a => match calls s !! i with Some c => replace_step i c a s | None => s end
  | Terminate => set_term (cancel (set_draining s))
  | Retire =>
      let '(a, f) := retired (agent s) in
      let s := set_agent a s in
      match f with Some p => set_cb (AtExited p) s | None => s end
  | HandOver ok => handOver_step ok s
  | Exit => set_exit (failed s) s
  | Report p => let u := the_succ p s in set_succ p (mkSucc (alive u) true (told u) (working u)) s
  | Die p => Stop p s
  | TakeTurn p w => let u := the_succ p s in set_succ p (mkSucc (alive u) (reported u) (told u) (Some (WaitGo w))) s
  end.

Definition step : state -> state -> Prop := steps enabled exec.

Definition initial (a : Agent) : state := mkState a false false false false ∅ ∅ None NotYet None false.

(** ** The invariant *)

(** The successor of a replacement that is under way or done; whether it must
    have reported; and whether it is registered to take over. *)
Definition pid (c : pc) : option nat :=
  match c with AtWait p | AtCheck p | AtRegister p | AtDraining p | AtCancel p | Replaced p => Some p | _ => None end.
Definition holds (c : pc) : bool := match c with AtCtx | AtBusy | Failed _ => false | _ => true end.
Definition ready (c : pc) : bool := match c with AtCheck _ | AtRegister _ | AtDraining _ | AtCancel _ | Replaced _ => true | _ => false end.
Definition registered (c : pc) : option nat := match c with AtDraining p | AtCancel p | Replaced p => Some p | _ => None end.

(** What is so at each point of [handOver]. *)
Definition handover_ok (s : state) : Prop :=
  match cb s with
  | NotYet => (retiredDone (agent s) = true -> onRetired (agent s) = None) /\ main s = None /\ handoverFailed s = false
  | AtExited p | AtNotify p =>
      retiredDone (agent s) = true /\ onRetired (agent s) = Some p /\ main s = None /\ handoverFailed s = false
  | AtGo p => retiredDone (agent s) = true /\ onRetired (agent s) = Some p /\ main s = Some p /\ handoverFailed s = false
  | Over p => retiredDone (agent s) = true /\ onRetired (agent s) = Some p /\
      (main s = Some p /\ handoverFailed s = false \/
       main s = None /\ handoverFailed s = true /\ alive (the_succ p s) = false)
  end.

Record calls_ok (s : state) : Prop := {
  i_hold : forall i c, calls s !! i = Some c -> holds c = true -> busy s = true;
  i_one : forall i j c d, calls s !! i = Some c -> calls s !! j = Some d -> holds c = true -> holds d = true -> i = j;
  i_succ : forall i c p, calls s !! i = Some c -> pid c = Some p -> is_Some (succs s !! p) /\
    (ready c = true -> reported (the_succ p s) = true);
  i_alive : forall p, alive (the_succ p s) = true -> exists i c, calls s !! i = Some c /\ pid c = Some p;
  i_reg : forall i c p, calls s !! i = Some c -> registered c = Some p -> onRetired (agent s) = Some p;
  i_reg' : forall p, onRetired (agent s) = Some p -> exists i c, calls s !! i = Some c /\ registered c = Some p;
  i_ctx : ctx_done s = true -> term s = true \/ exists i p, calls s !! i = Some (Replaced p);
}.

Record rest_ok (s : state) : Prop := {
  i_ret : retiredDone (agent s) = true -> ctx_done s = true;
  i_cb : handover_ok s;
  i_told : forall p, told (the_succ p s) = true -> main s = Some p /\ cb s = Over p;
  i_work : forall p, working (the_succ p s) = Some true -> told (the_succ p s) = true;
  i_exit : forall b, exit s = Some b -> b = handoverFailed s /\ retiredDone (agent s) = true /\ is_over (cb s);
}.

Lemma pid_holds c p : pid c = Some p -> holds c = true.
Proof. by destruct c. Qed.
Lemma registered_pid c p : registered c = Some p -> pid c = Some p /\ ready c = true.
Proof. by destruct c. Qed.

Lemma the_succ_set p q u s : the_succ q (set_succ p u s) = if decide (p = q) then u else the_succ q s.
Proof. unfold the_succ. simpl. rewrite lookup_insert. by case_decide. Qed.

Lemma the_succ_stop p q s : the_succ q (Stop p s) =
  if decide (p = q) then mkSucc false (reported (the_succ p s)) (told (the_succ p s)) (working (the_succ p s)) else the_succ q s.
Proof. unfold Stop. cbn zeta. by rewrite the_succ_set. Qed.

(** A change to one successor that does not bring it to life nor takes its
    report back keeps what is known of the calls. *)
Lemma set_succ_calls p u s : calls_ok s -> is_Some (succs s !! p) ->
  (alive u = true -> alive (the_succ p s) = true) -> (reported (the_succ p s) = true -> reported u = true) ->
  calls_ok (set_succ p u s).
Proof.
  intros [H1 H2 H3 H4 H5 H6 H7] Hp Ha Hr. split; try done.
  - intros i c q Hc Hq. destruct (H3 _ _ _ Hc Hq) as [Hs Hrep]. rewrite the_succ_set. split.
    + simpl. rewrite lookup_insert. by case_decide; [eexists|].
    + case_decide; [subst; eauto|done].
  - intros q. rewrite the_succ_set. case_decide as Hd; [subst q; intros Hal; by apply H4, Ha|apply H4].
Qed.

Lemma set_succ_rest p u s : rest_ok s -> (told u = true -> told (the_succ p s) = true) ->
  (alive u = true -> alive (the_succ p s) = true) ->
  (working u = Some true -> told u = true) -> rest_ok (set_succ p u s).
Proof.
  intros [H1 H2 H3 H4 H5] Ht Ha Hw. split; try done.
  - unfold handover_ok in *. simpl. destruct (cb s) as [|q|q|q|q]; try done.
    destruct H2 as (? & ? & [?|(? & ? & Hdead)]); split_and!; auto. right. split_and!; [done|done|].
    rewrite the_succ_set. case_decide; [subst q|done]. destruct (alive u) eqn:E; [|done]. specialize (Ha eq_refl). congruence.
  - intros q. rewrite the_succ_set. case_decide; [subst q; intros Hx; by apply H3, Ht|apply H3].
  - intros q. rewrite the_succ_set. case_decide; [done|apply H4].
Qed.

Lemma Stop_ok p s : calls_ok s -> rest_ok s -> is_Some (succs s !! p) -> calls_ok (Stop p s) /\ rest_ok (Stop p s).
Proof.
  intros Hc Hr Hp. unfold Stop. cbn zeta. split; [by apply set_succ_calls|]. apply set_succ_rest; try done. apply (i_work s Hr).
Qed.

(** One call moves on: what its new place must satisfy. *)
Lemma set_call_ok i c s : calls_ok s ->
  (holds c = true -> busy s = true /\ forall j d, calls s !! j = Some d -> holds d = true -> i = j) ->
  (forall p, pid c = Some p -> is_Some (succs s !! p) /\ (ready c = true -> reported (the_succ p s) = true)) ->
  (forall d p, calls s !! i = Some d -> pid d = Some p -> pid c <> Some p -> alive (the_succ p s) = false) ->
  (forall p, registered c = Some p -> onRetired (agent s) = Some p) ->
  (forall d p, calls s !! i = Some d -> registered d = Some p -> registered c = Some p) ->
  (forall p, calls s !! i <> Some (Replaced p)) ->
  calls_ok (set_call i c s).
Proof.
  intros [H1 H2 H3 H4 H5 H6 H7] Hh Hp Hd Hr Hr' Hn. split; simpl.
  - intros j d. rewrite lookup_insert. case_decide; [intros [= <-] Hx; by apply Hh|apply H1].
  - intros j k d e. rewrite !lookup_insert. repeat case_decide; try congruence.
    + intros [= <-] Hk Hx Hy. destruct (Hh Hx) as [_ Ho]. by specialize (Ho _ _ Hk Hy).
    + intros Hj [= <-] Hx Hy. destruct (Hh Hy) as [_ Ho]. by specialize (Ho _ _ Hj Hx).
    + apply H2.
  - intros j d p. rewrite lookup_insert. case_decide; [intros [= <-]; apply Hp|apply H3].
  - intros p Hal. destruct (H4 p Hal) as (j & d & Hj & Hpid). destruct (decide (i = j)) as [->|Hne].
    + exists j, c. rewrite lookup_insert_eq. split; [done|]. destruct (decide (pid c = Some p)) as [|Hnp]; [done|].
      change (alive (the_succ p s) = true) in Hal. by rewrite (Hd _ _ Hj Hpid Hnp) in Hal.
    + exists j, d. by rewrite lookup_insert_ne.
  - intros j d p. rewrite lookup_insert. case_decide; [intros [= <-]; apply Hr|apply H5].
  - intros p Hon. destruct (H6 p Hon) as (j & d & Hj & Hreg). destruct (decide (i = j)) as [->|Hne].
    + exists j, c. rewrite lookup_insert_eq. by eauto.
    + exists j, d. by rewrite lookup_insert_ne.
  - intros Hc. destruct (H7 Hc) as [|(j & p & Hj)]; [by left|right]. exists j, p. rewrite lookup_insert_ne; [done|].
    intros ->. by apply (Hn p).
Qed.

Lemma set_call_rest i c s : rest_ok s -> rest_ok (set_call i c s).
Proof. intros [H1 H2 H3 H4 H5]. by split. Qed.

(** The holder gives up: its successor, if any, has exited. *)
Lemma abandon_ok i c e s : calls_ok s -> rest_ok s -> calls s !! i = Some c -> holds c = true -> registered c = None ->
  (forall p, pid c = Some p -> alive (the_succ p s) = false) ->
  calls_ok (abandon i e s) /\ rest_ok (abandon i e s).
Proof.
  intros Hc Hr Hi Hh Hreg Hdead. split; [|destruct Hr; by split]. pose proof Hc as [H1 H2 H3 H4 H5 H6 H7].
  unfold abandon. split; simpl.
  - intros j d. rewrite lookup_insert. case_decide as Hd; [by intros [= <-]|]. intros Hj Hx. destruct Hd. by apply (H2 i j c d).
  - intros j k d f. rewrite !lookup_insert. repeat case_decide; try (intros; simplify_eq; done). apply H2.
  - intros j d p. rewrite lookup_insert. case_decide; [by intros [= <-]|apply H3].
  - intros p Hal. destruct (H4 p Hal) as (j & d & Hj & Hpid). exists j, d. rewrite lookup_insert_ne; [done|].
    intros ->. assert (d = c) as -> by congruence. change (alive (the_succ p s) = true) in Hal. by rewrite (Hdead p Hpid) in Hal.
  - intros j d p. rewrite lookup_insert. case_decide; [by intros [= <-]|apply H5].
  - intros p Hon. destruct (H6 p Hon) as (j & d & Hj & Hreg'). exists j, d. rewrite lookup_insert_ne; [done|]. intros ->. congruence.
  - intros Hx. destruct (H7 Hx) as [|(j & p & Hj)]; [by left|right]. exists j, p. rewrite lookup_insert_ne; [done|].
    intros ->. assert (c = Replaced p) as -> by congruence. done.
Qed.

Lemma cancel_ok s : calls_ok s -> rest_ok s -> (term s = true \/ exists i p, calls s !! i = Some (Replaced p)) ->
  calls_ok (cancel s) /\ rest_ok (cancel s).
Proof. intros [] [] Ht. by split; split. Qed.

Lemma set_draining_ok s : calls_ok s -> rest_ok s -> calls_ok (set_draining s) /\ rest_ok (set_draining s).
Proof. intros [] []. by split; split. Qed.

(** A new successor. *)
Lemma spawn_ok i p s : calls_ok s -> rest_ok s -> calls s !! i = Some AtSpawn -> succs s !! p = None ->
  let s' := set_call i (AtWait p) (set_succ p (mkSucc true false false None) s) in calls_ok s' /\ rest_ok s'.
Proof.
  intros Hc Hr Hi Hf s'. assert (Hfresh : the_succ p s = no_succ) by (unfold the_succ; by rewrite Hf).
  assert (Hts : forall q, the_succ q s' = if decide (p = q) then mkSucc true false false None else the_succ q s)
    by (intros q; apply (the_succ_set p q _ s)).
  assert (Hne : forall j d q, calls s !! j = Some d -> pid d = Some q -> p <> q).
  { intros j d q Hj Hq ->. destruct (i_succ s Hc j d q Hj Hq) as [[? Hs] _]. congruence. }
  pose proof Hc as [H1 H2 H3 H4 H5 H6 H7]. split; split.
  - intros j d. simpl. rewrite lookup_insert. case_decide; [intros _ _; by apply (H1 i AtSpawn)|apply H1].
  - intros j k d f. simpl. rewrite !lookup_insert. repeat case_decide; try congruence; [| |apply H2].
    + intros [= <-] Hk _ Hh. subst j. by apply (H2 i k AtSpawn f).
    + intros Hj [= <-] Hh _. subst k. by apply (H2 j i d AtSpawn).
  - intros j d q. rewrite Hts. simpl. rewrite !lookup_insert. destruct (decide (i = j)) as [->|].
    + intros [= <-] [= ->]. by rewrite !decide_True.
    + intros Hj Hq. rewrite !decide_False by (by eapply Hne). by apply (H3 j d q).
  - intros q. rewrite Hts. simpl. destruct (decide (p = q)) as [->|].
    + intros _. exists i, (AtWait q). by rewrite lookup_insert_eq.
    + intros Hal. destruct (H4 q Hal) as (j & d & Hj & Hq). exists j, d. rewrite lookup_insert_ne; [done|]. intros ->. simplify_eq.
  - intros j d q. simpl. rewrite lookup_insert. case_decide; [by intros [= <-]|apply H5].
  - intros q Hon. destruct (H6 q Hon) as (j & d & Hj & Hq). exists j, d. simpl. rewrite lookup_insert_ne; [done|]. intros ->. simplify_eq.
  - intros Hx. destruct (H7 Hx) as [|(j & q & Hj)]; [by left|right]. exists j, q. simpl. rewrite lookup_insert_ne; [done|]. intros ->. simplify_eq.
  - apply (i_ret s Hr).
  - pose proof (i_cb s Hr) as Hcb. unfold handover_ok in *. simpl. destruct (cb s) as [|q|q|q|q] eqn:Ecb; try done.
    destruct Hcb as (? & Hon & [?|(? & ? & Hd)]); split_and!; auto. right. split_and!; [done|done|]. rewrite Hts.
    destruct (H6 q Hon) as (j & d & Hj & [Hq _]%registered_pid). by rewrite decide_False by (by eapply Hne).
  - intros q. rewrite Hts. case_decide; [done|apply (i_told s Hr)].
  - intros q. rewrite Hts. case_decide; [done|apply (i_work s Hr)].
  - apply (i_exit s Hr).
Qed.

(** The successor of the one replacement under way is registered. *)
Lemma register_ok i p s : calls_ok s -> rest_ok s -> calls s !! i = Some (AtRegister p) -> retiredDone (agent s) = false ->
  let s' := set_call i (AtDraining p) (set_agent (set_retired (Some p) (retiredDone (agent s)) (agent s)) s) in calls_ok s' /\ rest_ok s'.
Proof.
  intros Hc Hr Hi Hnr s'. pose proof Hc as [H1 H2 H3 H4 H5 H6 H7].
  assert (Hother : forall j d, calls s !! j = Some d -> holds d = true -> j = i) by (intros j d Hj Hd; by apply (H2 j i d (AtRegister p))).
  split; split; simpl.
  - intros j d. rewrite lookup_insert. case_decide; [intros _ _; by apply (H1 i (AtRegister p))|apply H1].
  - intros j k d f. rewrite !lookup_insert. repeat case_decide; try congruence; [| |apply H2].
    + intros [= <-] Hk _ Hh. subst j. symmetry. by apply (Hother k f).
    + intros Hj [= <-] Hh _. subst k. by apply (Hother j d).
  - intros j d q. rewrite lookup_insert. case_decide; [|apply H3]. intros [= <-] [= <-].
    destruct (H3 _ _ p Hi eq_refl). auto.
  - intros q Hal. destruct (H4 q Hal) as (j & d & Hj & Hq). exists i, (AtDraining p). rewrite lookup_insert_eq.
    assert (j = i) as -> by (eapply Hother; [done|by eapply pid_holds]). by simplify_eq.
  - intros j d q. rewrite lookup_insert. case_decide as Hd; [by intros [= <-] [= <-]|]. intros Hj [Hq _]%registered_pid.
    destruct Hd. symmetry. eapply Hother; [done|by eapply pid_holds].
  - intros q [= <-]. exists i, (AtDraining p). by rewrite lookup_insert_eq.
  - intros Hx. destruct (H7 Hx) as [|(j & q & Hj)]; [by left|right]. exists j, q. rewrite lookup_insert_ne; [done|]. intros ->. simplify_eq.
  - apply (i_ret s Hr).
  - pose proof (i_cb s Hr) as Hcb. unfold handover_ok in *. simpl. destruct (cb s); destruct Hcb; try congruence. by split; [rewrite Hnr|].
  - apply (i_told s Hr).
  - apply (i_work s Hr).
  - intros b Hb. destruct (i_exit s Hr b Hb) as (? & Hrd & ?). congruence.
Qed.

(** *** Every event *)

Lemma replace_step_ok i c a s : calls_ok s -> rest_ok s -> calls s !! i = Some c -> fits c a s ->
  calls_ok (replace_step i c a s) /\ rest_ok (replace_step i c a s).
Proof.
  intros Hc Hr Hi Hf.
  assert (Hmove : forall c', holds c = true -> pid c' = pid c ->
    (forall p, pid c' = Some p -> ready c' = true -> reported (the_succ p s) = true) -> registered c' = registered c ->
    (forall p, c <> Replaced p) -> calls_ok (set_call i c' s) /\ rest_ok (set_call i c' s)).
  { intros c' Hh Hp Hrd Hreg Hn. split; [|by apply set_call_rest]. apply set_call_ok; try done.
    - intros _. split; [by eapply i_hold|]. intros j d Hj Hd. by apply (i_one s Hc i j c d).
    - intros p Hpid. split; [|by apply Hrd]. rewrite Hp in Hpid. by destruct (i_succ s Hc i c p Hi Hpid).
    - intros d p Hd Hpd Hnp. simplify_eq. congruence.
    - intros p Hrg. rewrite Hreg in Hrg. by eapply i_reg.
    - intros d p Hd Hrg. simplify_eq. by rewrite Hreg.
    - intros p He. by destruct (Hn p); simplify_eq. }
  assert (Hrep : forall p, pid c = Some p -> ready c = true -> reported (the_succ p s) = true)
    by (intros p Hp; apply (i_succ s Hc i c p Hi Hp)).
  assert (Hdrop : forall p e, pid c = Some p -> registered c = None -> calls_ok (abandon i e (Stop p s)) /\ rest_ok (abandon i e (Stop p s))).
  { intros p e Hp Hreg. destruct (i_succ s Hc i c p Hi Hp) as [Hs _]. destruct (Stop_ok p s Hc Hr Hs).
    apply (abandon_ok i c); try done; [by eapply pid_holds|]. intros q Hq. simplify_eq. rewrite the_succ_stop. by case_decide. }
  assert (Hquit : forall c', holds c = false -> holds c' = false -> pid c = None -> registered c = None -> pid c' = None -> registered c' = None ->
    calls_ok (set_call i c' s) /\ rest_ok (set_call i c' s)).
  { intros c' Hh Hh' Hp Hg Hp' Hg'. split; [|by apply set_call_rest]. apply set_call_ok; try done; try congruence;
      try (intros d q Hd; simplify_eq; congruence). intros q Hq. by destruct c; simplify_eq. }
  destruct c as [| | |p|p|p|p|p|e|p]; cbn [replace_step].
  - by destruct (ctx_done s); apply Hquit.
  - destruct (busy s) eqn:Eb; [by apply Hquit|].
    assert (Hnone : forall j d, calls s !! j = Some d -> holds d = false).
    { intros j d Hj. destruct (holds d) eqn:E; [|done]. rewrite (i_hold s Hc j d Hj E) in Eb. done. }
    split; [|by apply set_call_rest; destruct Hr; split]. apply set_call_ok; simpl; try done; try congruence;
      try (intros d q Hd; simplify_eq; done).
    + destruct Hc; split; try done.
    + intros _. split; [done|]. intros j d Hj Hd. rewrite (Hnone j d Hj) in Hd. done.
  - destruct a as [p| |w|]; try done; [by apply spawn_ok|]. by apply (abandon_ok i AtSpawn).
  - destruct a as [|?|w|]; try done. destruct w as [b|er|]; cbn [WaitPrepared fits] in *; [|by apply Hdrop|by apply Hdrop].
    destruct Hf as [-> Hf]. apply Hmove; try done. by intros q [= <-].
  - destruct (ctx_done s); [by apply Hdrop|by apply Hmove].
  - unfold SetOnRetired. destruct (retiredDone (agent s)) eqn:E; [by apply Hdrop|]. cbn [negb]. rewrite <- E. by apply register_ok.
  - change (set_call i (AtCancel p) (set_draining s)) with (set_draining (set_call i (AtCancel p) s)).
    destruct (Hmove (AtCancel p)); try done. by apply set_draining_ok.
  - change (set_call i (Replaced p) (cancel s)) with (cancel (set_call i (Replaced p) s)).
    destruct (Hmove (Replaced p)); try done. apply cancel_ok; [done|done|]. right. exists i, p. simpl. by rewrite lookup_insert_eq.
  - by destruct a.
  - by destruct a.
Qed.

Lemma handOver_step_ok ok s : calls_ok s -> rest_ok s -> exit s = None ->
  calls_ok (handOver_step ok s) /\ rest_ok (handOver_step ok s).
Proof.
  intros Hc Hr Hx. pose proof Hr as [Hret Hcb Htold Hwork _].
  assert (Hsome : forall p, onRetired (agent s) = Some p -> is_Some (succs s !! p)).
  { intros p Hon. destruct (i_reg' s Hc p Hon) as (i & c & Hi & [Hp _]%registered_pid). by destruct (i_succ s Hc i c p Hi Hp). }
  unfold handOver_step, handover_ok in *. destruct (cb s) as [|p|p|p|p] eqn:Ecb; [done| | | |done].
  - destruct Hcb as (Hrd & Hon & Hm & Hf). destruct (alive (the_succ p s)) eqn:Ea.
    + split; [by destruct Hc; split|]. split; try done; simpl; [|congruence]. intros q Hq. destruct (Htold q Hq). congruence.
    + split; [by destruct Hc; split|]. split; try done; simpl; [| |congruence].
      * unfold handover_ok. simpl. auto 10.
      * intros q Hq. destruct (Htold q Hq). congruence.
  - destruct Hcb as (Hrd & Hon & Hm & Hf). destruct ok.
    + split; [by destruct Hc; split|]. split; try done; simpl; [|congruence]. intros q Hq. destruct (Htold q Hq). congruence.
    + destruct (Stop_ok p s Hc Hr (Hsome p Hon)) as [Hc' Hr']. split; [by destruct Hc'; split|].
      assert (Hto : forall q, told (the_succ q (Stop p s)) = true -> False).
      { intros q Hq. destruct (i_told _ Hr' q Hq) as [Hmain _]. simpl in Hmain. congruence. }
      split; try done; simpl; [| | |congruence].
      * unfold handover_ok. simpl. split_and!; try done. right. split_and!; try done.
        change (the_succ p _) with (the_succ p (Stop p s)). rewrite the_succ_stop. by case_decide.
      * intros q Hq. by destruct (Hto q Hq).
      * exact (i_work _ Hr').
  - destruct Hcb as (Hrd & Hon & Hm & Hf). destruct ok.
    + set (u := mkSucc (alive (the_succ p s)) (reported (the_succ p s)) true (working (the_succ p s))).
      assert (Hc' : calls_ok (set_succ p u s)) by (apply set_succ_calls; auto). split; [by destruct Hc'; split|].
      assert (Hts : forall q, the_succ q (set_cb (Over p) (set_succ p u s)) = if decide (p = q) then u else the_succ q s)
        by (intros q; apply (the_succ_set p q u s)).
      split; try done; [| | |simpl; congruence].
      * unfold handover_ok. simpl. auto.
      * intros q. rewrite Hts. case_decide; [by subst|]. intros Hq. destruct (Htold q Hq). congruence.
      * intros q. rewrite Hts. case_decide; [done|apply Hwork].
    + split; [by destruct Hc; split|]. split; try done; simpl; [unfold handover_ok; simpl; auto| |congruence].
      intros q Hq. destruct (Htold q Hq). congruence.
Qed.

Lemma retire_ok s : calls_ok s -> rest_ok s -> exit s = None -> ctx_done s = true ->
  calls_ok (exec Retire s) /\ rest_ok (exec Retire s).
Proof.
  intros Hc Hr Hx Hd. pose proof Hr as [Hret Hcb Htold Hwork _]. simpl. unfold retired.
  destruct (retiredDone (agent s)) eqn:E.
  { assert (Hs : set_agent (agent s) s = s) by (by destruct s). by rewrite Hs. }
  assert (Hcs : cb s = NotYet) by (unfold handover_ok in Hcb; destruct (cb s); [done|..]; destruct Hcb; congruence).
  unfold handover_ok in Hcb. rewrite Hcs in Hcb. destruct Hcb as (_ & Hm & Hf).
  assert (Hto : forall q, told (the_succ q s) = true -> False) by (intros q Hq; destruct (Htold q Hq); congruence).
  destruct (onRetired (agent s)) as [p|] eqn:Eon; (split; [destruct Hc; split; simpl; try done; by rewrite <- Eon|]);
    split; simpl; try done; try congruence.
  all: try (intros q Hq; by destruct (Hto q)). unfold handover_ok. simpl. by rewrite Hcs.
Qed.

Lemma exec_ok e s : enabled e s -> calls_ok s /\ rest_ok s -> calls_ok (exec e s) /\ rest_ok (exec e s).
Proof.
  intros He [Hc Hr]. destruct e as [i|i a| | |ok| |p|p|p w]; cbn [enabled exec] in *.
  - split; [|by apply set_call_rest]. destruct He as [Hi _]. by apply set_call_ok; try congruence.
  - destruct He as (_ & c & Hi & Hf). rewrite Hi. by apply replace_step_ok.
  - destruct Hc, Hr. split; split; simpl; auto.
  - destruct He. by apply retire_ok.
  - by apply handOver_step_ok.
  - destruct He as (_ & Hrd & Hov). destruct Hc, Hr. split; split; simpl; try done. by intros b [= <-].
  - destruct He as (u & Hu & Ha & _). split; [apply set_succ_calls; auto; by eexists|].
    apply set_succ_rest; try done. apply (i_work s Hr).
  - destruct He as (u & Hu). apply Stop_ok; [done|done|by eexists].
  - destruct He as (u & Hu & Ha & Hrep & Hw & Hcase). assert (Hts : the_succ p s = u) by (unfold the_succ; by rewrite Hu).
    split; [apply set_succ_calls; auto; by eexists|]. apply set_succ_rest; try done. rewrite Hts. cbn [working told].
    intros [= Hgo]. unfold WaitGo in Hgo. destruct w; [by destruct Hcase|done|done].
Qed.

Lemma initial_ok a : retiredDone a = false -> onRetired a = None -> calls_ok (initial a) /\ rest_ok (initial a).
Proof.
  intros Hd Ho. split; split; simpl; try done; try congruence; unfold handover_ok; simpl; auto; by intros p.
Qed.

Lemma reachable_ok a s : retiredDone a = false -> onRetired a = None -> rtc step (initial a) s -> calls_ok s /\ rest_ok s.
Proof.
  intros Hd Ho Hs. apply (steps_invariant enabled exec (fun s => calls_ok s /\ rest_ok s) (initial a) s); [|done|by apply initial_ok].
  intros e x He Hx. by apply exec_ok.
Qed.

(** ** Properties *)

Lemma one_alive s p q : calls_ok s -> alive (the_succ p s) = true -> alive (the_succ q s) = true -> p = q.
Proof.
  intros Hc Hp Hq. destruct (i_alive s Hc p Hp) as (i & c & Hi & Hpi), (i_alive s Hc q Hq) as (j & d & Hj & Hpj).
  assert (i = j) as -> by (eapply (i_one s Hc); eauto using pid_holds). simplify_eq. congruence.
Qed.

(** A stop nobody asked for is one for a replacement that had reported. *)
Lemma stop_is_reload s : calls_ok s -> ctx_done s = true -> term s = false ->
  exists p, onRetired (agent s) = Some p /\ reported (the_succ p s) = true.
Proof.
  intros Hc Hx Ht. destruct (i_ctx s Hc Hx) as [|(i & p & Hi)]; [congruence|]. exists p.
  split; [by eapply (i_reg s Hc)|]. by apply (i_succ s Hc i (Replaced p)).
Qed.

Lemma working_main s p : rest_ok s -> working (the_succ p s) = Some true -> main s = Some p /\ retiredDone (agent s) = true.
Proof.
  intros Hr Hw. apply (i_work s Hr) in Hw. destruct (i_told s Hr p Hw) as [Hm Hov]. split; [done|].
  pose proof (i_cb s Hr) as Hcb. unfold handover_ok in Hcb. rewrite Hov in Hcb. by destruct Hcb.
Qed.

Lemma clean_exit_main s : calls_ok s -> rest_ok s -> exit s = Some false -> term s = false ->
  exists p, main s = Some p /\ reported (the_succ p s) = true.
Proof.
  intros Hc Hr Hx Ht. destruct (i_exit s Hr _ Hx) as (Hf & Hrd & Hov).
  destruct (stop_is_reload s Hc (i_ret s Hr Hrd) Ht) as (p & Hon & Hrep). exists p.
  pose proof (i_cb s Hr) as Hcb. unfold handover_ok in Hcb.
  destruct (cb s) as [|q|q|q|q]; try done; [by destruct Hcb as [Hn _]; rewrite Hn in Hon|].
  destruct Hcb as (_ & Hon' & [[Hm _]|(_ & Hf' & _)]); simplify_eq; [done|congruence].
Qed.

(** [C10] A reload never runs two replacements and tells systemd the truth:
    whatever the order of reloads, a stop from outside, crashes and timeouts, at
    most one replacement runs; a replacement that goes on because it got the
    go-ahead does so only after the running agent's shutdown has passed its
    [retired] call and systemd was told that the replacement is the main process
    (one that gets no go-ahead goes on without it when its wait ends, as
    [awaitTurn] has it); a running agent that nobody told to stop shuts down only
    for a replacement that had reported ready and is registered to take over, and
    then exits with success only when systemd had been told of that replacement;
    and whenever it exits with a failure, so that systemd restarts the service,
    no replacement is left running. *)
Theorem handoff_safe (a : Agent) (s : state) (Hd : retiredDone a = false) (Ho : onRetired a = None)
    (Hs : rtc step (initial a) s) :
  (forall p q, alive (the_succ p s) = true -> alive (the_succ q s) = true -> p = q) /\
  (forall p, working (the_succ p s) = Some true -> main s = Some p /\ retiredDone (agent s) = true) /\
  (ctx_done s = true -> term s = false ->
     exists p, onRetired (agent s) = Some p /\ reported (the_succ p s) = true) /\
  (exit s = Some false -> term s = false -> exists p, main s = Some p /\ reported (the_succ p s) = true) /\
  (exit s = Some true -> forall p, alive (the_succ p s) = false).
Proof.
  destruct (reachable_ok a s Hd Ho Hs) as [Hc Hr]. pose proof (i_cb s Hr) as Hcb. unfold handover_ok in Hcb.
  split_and!; [by intros p q; apply one_alive|by intros p; apply working_main|by apply stop_is_reload|by apply clean_exit_main|].
  - intros Hx p. destruct (i_exit s Hr _ Hx) as (Hf & Hrd & Hov). destruct (cb s) as [|q|q|q|q]; try done; [destruct Hcb as (_ & _ & ?); congruence|].
    destruct Hcb as (_ & Hon & [[_ ?]|(_ & _ & Hdead)]); [congruence|]. destruct (alive (the_succ p s)) eqn:Ea; [|done].
    destruct (i_reg' s Hc q Hon) as (i & c & Hi & [Hq _]%registered_pid), (i_alive s Hc p Ea) as (j & d & Hj & Hp).
    assert (i = j) as -> by (eapply (i_one s Hc); eauto using pid_holds). simplify_eq. congruence.
Qed.

(** *** Reloads that have not registered a replacement *)

(** No reload has come as far as registering its replacement: each is still
    before that statement, or has failed. *)
Definition unregistered (s : state) : Prop := forall i c, calls s !! i = Some c -> registered c = None.

(** Where a call is after a statement: it holds on to its turn or gives it back,
    and a registered one stays registered. *)
Lemma replace_moves i c a s : calls s !! i = Some c -> exists c',
  calls (replace_step i c a s) = <[i := c']> (calls s) /\
  (is_Some (registered c) -> is_Some (registered c')) /\
  (busy (replace_step i c a s) = true -> holds c' = true \/ busy s = true /\ holds c = false).
Proof.
  intros Hi. assert (Hid : exists c', calls s = <[i := c']> (calls s) /\ (is_Some (registered c) -> is_Some (registered c')) /\
    (busy s = true -> holds c' = true \/ busy s = true /\ holds c = false)).
  { exists c. rewrite insert_id by done. destruct (holds c) eqn:E; split_and!; auto. }
  destruct c as [| | |p|p|p|p|p|e|p]; cbn [replace_step];
    try (destruct a as [q| |w|]); try exact Hid; try (destruct (WaitPrepared w)); try (destruct (SetOnRetired p (agent s)) as [ag []]);
    try (destruct (ctx_done s)); try (destruct (busy s) eqn:Eb); simpl; rewrite ?Eb; eexists; (split; [reflexivity|]); simpl;
    split; auto; by intros [? [=]].
Qed.

Lemma exec_calls e s : enabled e s -> calls (exec e s) = calls s \/ exists i c',
  calls (exec e s) = <[i := c']> (calls s) /\ forall c, calls s !! i = Some c -> is_Some (registered c) -> is_Some (registered c').
Proof.
  intros He. destruct e as [i|i a| | |ok| |p|p|p w]; cbn [enabled exec] in *; auto.
  - right. exists i, AtCtx. destruct He as [Hi _]. split; [done|]. congruence.
  - destruct He as (_ & c & Hi & _). rewrite Hi. right. destruct (replace_moves i c a s Hi) as (c' & ? & ? & _).
    exists i, c'. split; [done|]. intros c0 Hc0. by simplify_eq.
  - left. destruct (retired (agent s)) as [ag [p|]]; done.
  - left. unfold handOver_step. by repeat case_match.
Qed.

Lemma unregistered_back e s : enabled e s -> unregistered (exec e s) -> unregistered s.
Proof.
  intros He Hn i c Hi. destruct (exec_calls e s He) as [E|(j & c' & E & Hr)].
  - apply (Hn i). by rewrite E.
  - destruct (decide (j = i)) as [->|Hne].
    + destruct (registered c) as [p|] eqn:Er; [|done]. destruct (Hr c Hi) as [q Hq]; [by rewrite Er|].
      rewrite (Hn i c') in Hq; [done|]. by rewrite E, lookup_insert_eq.
    + apply (Hn i). by rewrite E, lookup_insert_ne.
Qed.

(** What the process was started with is as it was. *)
Definition untouched (a0 : Agent) (s : state) : Prop :=
  agent s = a0 /\ ctx_done s = false /\ s_draining s = false /\ main s = None /\ handoverFailed s = false /\
  cb s = NotYet /\ exit s = None.

(** Nobody's turn is forgotten. *)
Definition turn_held (s : state) : Prop := busy s = true -> exists i c, calls s !! i = Some c /\ holds c = true.

Lemma exec_turn e s : enabled e s -> turn_held s -> turn_held (exec e s).
Proof.
  intros He Ht. unfold turn_held in *. destruct e as [i|i a| | |ok| |p|p|p w]; cbn [enabled exec] in *; try exact Ht.
  - destruct He as [Hi _]. intros Hb. destruct (Ht Hb) as (j & c & Hj & Hh). exists j, c. simpl. by rewrite lookup_insert_ne by congruence.
  - destruct He as (_ & c & Hi & _). rewrite Hi. destruct (replace_moves i c a s Hi) as (c' & E & _ & Hb). rewrite E.
    intros [Hh|[Hb' Hn]]%Hb; [exists i, c'; by rewrite lookup_insert_eq|].
    destruct (Ht Hb') as (j & d & Hj & Hh). exists j, d. rewrite lookup_insert_ne; [done|]. intros ->. congruence.
  - destruct (retired (agent s)) as [ag [p|]]; exact Ht.
  - unfold handOver_step. repeat case_match; exact Ht.
Qed.

(** A statement that leaves its call unregistered touches nothing but the turn
    and the successors. *)
Lemma replace_untouched i c a s : unregistered (replace_step i c a s) -> calls s !! i = Some c ->
  let s' := replace_step i c a s in
  agent s' = agent s /\ ctx_done s' = ctx_done s /\ s_draining s' = s_draining s /\ main s' = main s /\
  handoverFailed s' = handoverFailed s /\ cb s' = cb s /\ exit s' = exit s.
Proof.
  intros Hn Hi s'. subst s'. specialize (Hn i).
  assert (Hno : forall x, calls (replace_step i c a s) !! i = Some x -> registered x = None) by exact Hn.
  destruct c as [| | |p|p|p|p|p|e|p]; cbn [replace_step] in *.
  - done.
  - by destruct (busy s).
  - by destruct a.
  - destruct a as [q| |w|]; try done. by destruct (WaitPrepared w).
  - destruct (ctx_done s) eqn:E; simpl; by rewrite E.
  - destruct (SetOnRetired p (agent s)) as [ag []]; [|done]. simpl in Hno. by specialize (Hno _ (lookup_insert_eq _ _ _)).
  - simpl in Hno. by specialize (Hno _ (lookup_insert_eq _ _ _)).
  - simpl in Hno. by specialize (Hno _ (lookup_insert_eq _ _ _)).
  - by destruct a.
  - by destruct a.
Qed.

Lemma replace_term i c a s : term (replace_step i c a s) = term s.
Proof.
  destruct c as [| | |p|p|p|p|p|e|p]; cbn [replace_step]; try done; try (by destruct a).
  - by destruct (busy s).
  - destruct a as [q| |w|]; try done. by destruct (WaitPrepared w).
  - by destruct (ctx_done s).
  - by destruct (SetOnRetired p (agent s)) as [ag []].
Qed.

Lemma unregistered_untouched a0 s : retiredDone a0 = false -> onRetired a0 = None -> rtc step (initial a0) s ->
  unregistered s -> term s = false -> untouched a0 s.
Proof.
  intros Hd Ho Hs.
  apply (steps_invariant enabled exec (fun s => unregistered s -> term s = false -> untouched a0 s) (initial a0) s); [|exact Hs|done].
  intros e x He IH Hn Ht.
  assert (Hu : untouched a0 x).
  { apply IH; [by eapply unregistered_back|]. destruct e as [i|i a| | |ok| |p|p|p w]; cbn [exec] in Ht; try done.
    - destruct He as (_ & c & Hi & _). by rewrite Hi, replace_term in Ht.
    - revert Ht. by destruct (retired (agent x)) as [ag [p|]].
    - unfold handOver_step in Ht. by repeat case_match. }
  destruct Hu as (H1 & H2 & H3 & H4 & H5 & H6 & H7).
  destruct e as [i|i a| | |ok| |p|p|p w]; cbn [exec enabled] in *; unfold untouched; try (by split_and!).
  - destruct He as (_ & c & Hi & _). rewrite Hi in *.
    destruct (replace_untouched i c a x Hn Hi) as (-> & -> & -> & -> & -> & -> & ->). by split_and!.
  - destruct He as [_ He]. congruence.
  - unfold handOver_step. rewrite H6. by split_and!.
  - destruct He as (_ & He & _). congruence.
Qed.

(** The statement a call fails at. *)
Lemma failing_statement i c a e s : calls s !! i = Some c -> (forall e', c <> Failed e') ->
  calls (replace_step i c a s) !! i = Some (Failed e) ->
  let s' := replace_step i c a s in
  registered c = None /\ agent s' = agent s /\ ctx_done s' = ctx_done s /\ s_draining s' = s_draining s /\
  main s' = main s /\ handoverFailed s' = handoverFailed s /\ (forall p, pid c = Some p -> alive (the_succ p s') = false).
Proof.
  intros Hi Hc Hfail s'. subst s'.
  assert (Hstop : forall p q e', Some p = Some q -> alive (the_succ q (abandon i e' (Stop p s))) = false).
  { intros p q e' [= <-]. change (alive (the_succ p (Stop p s)) = false). rewrite the_succ_stop. by case_decide. }
  destruct c as [| | |p|p|p|p|p|e'|p]; cbn [replace_step pid registered] in *.
  all: try (by destruct (Hc e')); try (simpl in Hfail; rewrite lookup_insert_eq in Hfail; discriminate Hfail).
  - done.
  - destruct (busy s); simpl in Hfail; rewrite lookup_insert_eq in Hfail; done.
  - destruct a; simpl in Hfail; rewrite lookup_insert_eq in Hfail; done.
  - destruct a as [| |w|]; try (simpl in Hfail; congruence). destruct (WaitPrepared w); [split_and!; auto|].
    simpl in Hfail. by rewrite lookup_insert_eq in Hfail.
  - destruct (ctx_done s) eqn:E; [split_and!; try done; auto|]. simpl in Hfail. by rewrite lookup_insert_eq in Hfail.
  - destruct (SetOnRetired p (agent s)) as [ag []]; cbn [negb] in *; [|split_and!; auto].
    simpl in Hfail. by rewrite lookup_insert_eq in Hfail.
  - destruct a; simpl in Hfail; congruence.
Qed.

(** The next reload is let through to the start of its replacement. *)
Lemma next_reload_starts s i : calls s !! i = None -> exit s = None -> ctx_done s = false -> busy s = false ->
  exists s', rtc step s s' /\ calls s' !! i = Some AtSpawn.
Proof.
  intros Hi Hx Hc Hb. set (s1 := exec (Hup i) s).
  assert (E1 : calls s1 !! i = Some AtCtx) by apply lookup_insert_eq.
  set (s2 := replace_step i AtCtx Plain s1). assert (E2 : calls s2 !! i = Some AtBusy) by (unfold s2; simpl; rewrite Hc; apply lookup_insert_eq).
  exists (replace_step i AtBusy Plain s2). split.
  - assert (S1 : step s s1) by (by exists (Hup i)).
    assert (S2 : step s1 s2) by (exists (Replace i Plain); split; [split; [done|by exists AtCtx]|cbn [exec]; by rewrite E1]).
    assert (S3 : step s2 (replace_step i AtBusy Plain s2)) by (exists (Replace i Plain); split; [split; [done|by exists AtBusy]|cbn [exec]; by rewrite E2]).
    eapply rtc_l; [exact S1|]. eapply rtc_l; [exact S2|]. by apply rtc_once.
  - simpl. rewrite Hb. apply lookup_insert_eq.
Qed.

(** [C34] A reload that fails changes nothing.  As long as every reload so far
    has failed, at whichever statement and however they interleaved, or is still
    before it registers its replacement, and nobody told the agent to stop: the
    agent, its context, its draining flag and what systemd was told are those the
    process started with, it has not exited, only a reload that is still at work
    has a replacement running, and when none is at work no replacement runs and a
    next reload is let through to start one.  A reload that fails while another
    one is under way or done, or after a stop from outside, changes none of these
    either when it fails, and has stopped its replacement; one that has
    registered its replacement does not fail any more. *)
Theorem failed_reload_harmless (a0 : Agent) (s : state) (Hd : retiredDone a0 = false) (Ho : onRetired a0 = None)
    (Hs : rtc step (initial a0) s) :
  (unregistered s -> term s = false ->
     agent s = a0 /\ ctx_done s = false /\ s_draining s = false /\ main s = None /\ handoverFailed s = false /\
     exit s = None /\
     (forall p, alive (the_succ p s) = true -> exists i c, calls s !! i = Some c /\ pid c = Some p) /\
     ((forall i c, calls s !! i = Some c -> exists e, c = Failed e) ->
        (forall p, alive (the_succ p s) = false) /\
        forall i, calls s !! i = None -> exists s', rtc step s s' /\ calls s' !! i = Some AtSpawn)) /\
  (forall i c a e, calls s !! i = Some c -> (forall e', c <> Failed e') ->
     calls (replace_step i c a s) !! i = Some (Failed e) ->
     let s' := replace_step i c a s in
     registered c = None /\ agent s' = agent s /\ ctx_done s' = ctx_done s /\ s_draining s' = s_draining s /\
     main s' = main s /\ handoverFailed s' = handoverFailed s /\ (forall p, pid c = Some p -> alive (the_succ p s') = false)).
Proof.
  destruct (reachable_ok a0 s Hd Ho Hs) as [Hcs _]. split.
  - intros Hn Ht. destruct (unregistered_untouched a0 s Hd Ho Hs Hn Ht) as (H1 & H2 & H3 & H4 & H5 & H6 & H7).
    split_and!; try done; [apply (i_alive s Hcs)|]. intros Hall. split.
    + intros p. destruct (alive (the_succ p s)) eqn:Ea; [|done]. destruct (i_alive s Hcs p Ea) as (i & c & Hi & Hp).
      destruct (Hall i c Hi) as [e ->]. done.
    + intros i Hi. apply next_reload_starts; try done. destruct (busy s) eqn:Eb; [|done].
      assert (Hth : turn_held s) by (apply (steps_invariant enabled exec turn_held (initial a0) s); [apply exec_turn|done|done]).
      destruct (Hth Eb) as (j & c & Hj & Hh). destruct (Hall j c Hj) as [e ->]. done.
  - intros i c a e. by apply failing_statement.
Qed.

(** [handOver] ends, whatever its calls answer. *)
Lemma handOver_ends s : exit s = None -> exists s', rtc step s s' /\ is_over (cb s') /\ exit s' = None /\ agent s' = agent s.
Proof.
  intros Hx. assert (Hstep : forall x, exit x = None -> step x (handOver_step false x)) by (intros x Hx'; by exists (HandOver false)).
  assert (Hgo : forall x p, exit x = None -> cb x = AtGo p ->
    exists s', rtc step x s' /\ is_over (cb s') /\ exit s' = None /\ agent s' = agent x).
  { intros x p Hx' Hc. exists (handOver_step false x). split; [by apply rtc_once, Hstep|]. unfold handOver_step. by rewrite Hc. }
  assert (Hnot : forall x p, exit x = None -> cb x = AtNotify p ->
    exists s', rtc step x s' /\ is_over (cb s') /\ exit s' = None /\ agent s' = agent x).
  { intros x p Hx' Hc. exists (handOver_step false x). split; [by apply rtc_once, Hstep|]. unfold handOver_step. by rewrite Hc. }
  destruct (cb s) as [|p|p|p|p] eqn:Ec; [exists s; by rewrite Ec| |by eapply Hnot|by eapply Hgo|exists s; by rewrite Ec].
  destruct (alive (the_succ p s)) eqn:Ea.
  - destruct (Hnot (set_cb (AtNotify p) s) p Hx eq_refl) as (s' & Hs & Ho & He & Hag). exists s'. split; [|done].
    eapply rtc_l; [|exact Hs]. exists (HandOver true). split; [done|]. simpl. unfold handOver_step. by rewrite Ec, Ea.
  - exists (handOver_step false s). split; [by apply rtc_once, Hstep|]. unfold handOver_step. by rewrite Ec, Ea.
Qed.

(** An agent that is to stop can always finish: from every reachable state in
    which its context has ended and it has not exited, its own remaining steps
    lead to its exit, whatever became of the replacement. *)
Theorem stopping_agent_exits (a : Agent) (s : state) (Hs : rtc step (initial a) s) (Hx : exit s = None) (Hc : ctx_done s = true) :
  exists s' b, rtc step s s' /\ exit s' = Some b.
Proof.
  set (s1 := exec Retire s). assert (H1 : step s s1) by (by exists Retire).
  assert (Hr : retiredDone (agent s1) = true /\ exit s1 = None).
  { unfold s1. simpl. unfold retired. destruct (retiredDone (agent s)) eqn:E; [by rewrite <- E|]. by destruct (onRetired (agent s)). }
  destruct Hr as [Hr Hx1]. destruct (handOver_ends s1 Hx1) as (s2 & H2 & Ho & Hx2 & Ha).
  exists (exec Exit s2), (failed s2). split; [|done]. eapply rtc_l; [exact H1|]. eapply rtc_r; [exact H2|].
  exists Exit. split; [|done]. simpl. by rewrite Ha.
Qed.

(** A started replacement finds its predecessor and takes it out of its
    environment, so that its own replacement finds it in turn; a process started
    otherwise starts normally; and a replacement that could report always goes
    on: taking over on the go-ahead, and without it when the wait ends. *)
Theorem replacement_finds_predecessor (env : gmap gostr gostr) (w : waited) (Hnone : env !! envFDs = None) :
  FromEnv (start_env env) = (env, Ok (Some (mkPredecessor 3 4))) /\
  FromEnv env = (env, Ok None) /\ awaitTurn env false w = Ok NormalStart /\
  awaitTurn (start_env env) true w = Ok (if decide (w = Message msgGo) then TakingOver else StartingAnyway).
Proof.
  assert (Hf : FromEnv (start_env env) = (env, Ok (Some (mkPredecessor 3 4)))).
  { unfold FromEnv, start_env. rewrite lookup_insert_eq, delete_insert_id by done. by vm_compute. }
  assert (Hn : FromEnv env = (env, Ok None)) by (unfold FromEnv; by rewrite Hnone).
  unfold awaitTurn. rewrite Hf, Hn. split_and!; try done. cbn [negb snd]. unfold WaitGo.
  destruct w as [b|e|]; try (by rewrite decide_False). destruct (ceq b msgGo) eqn:E.
  - apply ceq_true in E as ->. by rewrite decide_True.
  - rewrite decide_False; [done|]. intros [= ->]. by vm_compute in E.
Qed.

(** ** Witnesses *)

Module HandoffWitness.
Definition a0 : Agent := AgentWitness.started.1.

(** A reload that succeeds, up to the old agent's exit. *)
Definition script : list event :=
  [Hup 0; Replace 0 Plain; Replace 0 Plain; Replace 0 (Spawned 7); Report 7; Replace 0 (Waited (Message msgPrepared));
   Replace 0 Plain; Replace 0 Plain; Replace 0 Plain; Replace 0 Plain; Retire; HandOver true; HandOver true; HandOver true;
   TakeTurn 7 (Message msgGo); Exit].
Definition run (n : nat) : state := foldl (fun s e => exec e s) (initial a0) (take n script).

(** Guards of closed states. *)
Ltac play := apply plays_reach; vm_compute;
  repeat match goal with |- _ /\ _ => split | |- exists _, _ => eexists end; first [reflexivity | exact I | vm_compute; repeat split].

Lemma run_reaches : rtc step (initial a0) (run 16).
Proof. play. Qed.

Lemma handoff_safe_witness : exit (run 16) = Some false /\ exists p, main (run 16) = Some p /\ reported (the_succ p (run 16)) = true.
Proof.
  split; [vm_compute; reflexivity|].
  destruct (handoff_safe a0 (run 16) eq_refl eq_refl run_reaches) as (_ & _ & _ & He & _).
  apply He; vm_compute; reflexivity.
Defined.

(** A replacement that exits before it is prepared. *)
Definition broken : state := foldl (fun s e => exec e s) (initial a0) (take 4 script ++ [Die 7]).
Lemma broken_reached : rtc step (initial a0) broken.
Proof. play. Qed.

(** The reload has failed by then, and another one may start. *)
Definition failed_once : state := exec (Replace 0 (Waited (ReadFails [EOF]))) broken.
Lemma failed_reached : rtc step (initial a0) failed_once.
Proof.
  eapply rtc_r; [exact broken_reached|]. exists (Replace 0 (Waited (ReadFails [EOF]))). split; [|done].
  split; [reflexivity|]. exists (AtWait 7). split; vm_compute; reflexivity.
Qed.
Lemma failed_calls i c : calls failed_once !! i = Some c -> c = Failed (NotPrepared ExitedEarly).
Proof.
  assert (calls failed_once = {[0%nat := Failed (NotPrepared ExitedEarly)]}) as -> by (vm_compute; reflexivity).
  by intros [_ <-]%lookup_singleton_Some.
Qed.

Lemma failed_reload_harmless_witness :
  calls failed_once !! 0%nat = Some (Failed (NotPrepared ExitedEarly)) /\ agent failed_once = a0 /\
  exists s', rtc step failed_once s' /\ calls s' !! 1%nat = Some AtSpawn.
Proof.
  split; [vm_compute; reflexivity|].
  destruct (failed_reload_harmless a0 failed_once eq_refl eq_refl failed_reached) as [Hu _].
  destruct Hu as (Ha & _ & _ & _ & _ & _ & _ & Hall);
    [intros i c Hc; rewrite (failed_calls i c Hc); reflexivity|vm_compute; reflexivity|].
  split; [exact Ha|]. destruct Hall as [_ Hnext]; [intros i c Hc; exists (NotPrepared ExitedEarly); exact (failed_calls i c Hc)|].
  apply Hnext. vm_compute. reflexivity.
Defined.

Definition stopping : state := exec Terminate (initial a0).
Lemma stopping_agent_exits_witness : exists s' b, rtc step stopping s' /\ exit s' = Some b.
Proof.
  apply (stopping_agent_exits a0 stopping); [|reflexivity|reflexivity].
  apply rtc_once. exists Terminate. split; reflexivity.
Defined.

Lemma replacement_finds_predecessor_witness : awaitTurn (start_env ∅) true (Message msgGo) = Ok TakingOver.
Proof. exact (proj2 (proj2 (proj2 (replacement_finds_predecessor ∅ (Message msgGo) eq_refl)))). Defined.
End HandoffWitness.
