(* ===== verification/Lifecycle.v ===== *)
(** * The edge's life ([internal/edge/edge.go])

    Building the edge from its configuration ([New]), opening and closing its
    listeners ([Run], [ServeWithHTTP3]), the accept loops, telling agents from
    clients on a shared port ([ingressTLSConfig], [takeAgent], and the tunnel's
    TLS configuration in [internal/tunnel/tls.go]), the order of shutdown, and
    taking an agent's session out of service ([evict], [retire]) across the
    registry, the session, the counters and the kept streams. *)

From S2P Require Import Prelude GoStrings IO Route Registry AgentConn H3Pool Config Obs Edge.
#[local] Open Scope Z_scope.

(** ** [New] *)

(** The edge's [routeState]; [er_state] is the part handlers look at. *)
Record edge_route := mkEdgeRouteState {
  er_fps : list gostr;
  er_label : gostr;
  er_state : Edge.routeState;
  er_sem : semaphore;
}.

Record edge := mkEdge {
  e_allowed : gset gostr;
  e_reg : registry;
  e_sem : semaphore;
  e_routes : Matcher edge_route;
  e_pool : h3Pool;
  e_altSvc : gostr;
}.

Definition route_of `{Unicode} (r : EdgeRoute) : edge_route :=
  mkEdgeRouteState (Fingerprints r) (Join (Fingerprints r) (bs ","))
    (mkRouteState (Normalize (r_Host r)) (BalanceMode r) (negb (ServesHTTP3 r))) (newSemaphore (r_MaxConnections r)).

(** [New]; [material] is what loading the certificates gave, with the
    fingerprint of the edge's own certificate when it is known. *)
Definition New `{Unicode} (c : EdgeConfig) (material : option (option gostr)) (st : State) : option (edge * State) :=
  match material with
  | None => None
  | Some leaf =>
      let st := match leaf with Some fp => SetSelfFingerprint fp st | None => st end in
      let allowed := AllowedFingerprints c in
      let reg := mkRegistry ∅ ∅ ∅ ∅ (SharedFingerprints c) false 0 in
      let st := ExpectAgents allowed st in
      let st := foldl (fun st r => Obs.Route (Normalize (r_Host r)) st) st (Routes c) in
      Some (mkEdge allowed reg (newSemaphore (i_MaxConnections (Ingress c)))
              (Build (map (fun r => mkEntry (r_Host r) (route_of r)) (Routes c))) newH3Pool [], st)
  end.

(** ** Telling agents from clients *)

Definition ALPNv2 : gostr := bs "coen/2".

(** What a TLS server asks of a client and offers it. *)
Inductive served_cert := TunnelCert | PublicCert.
Record tls_config := mkTLSConfig { srv_cert : served_cert; client_cert : bool; tls13 : bool; NextProtos : list gostr }.

(** [tunnel.ServerTLSConfig]: the configuration for a client that offers [protos]. *)
Definition tunnel_base : tls_config := mkTLSConfig TunnelCert true true [ALPNv2].
Definition ServerTLSConfig (protos : list gostr) : tls_config :=
  if bool_decide (ALPNv2 ∈ protos) then tunnel_base
  else mkTLSConfig (srv_cert tunnel_base) (client_cert tunnel_base) (tls13 tunnel_base) [].

(** Go's choice of protocol: none when a side offers none; [None] ends the
    handshake. *)
Definition negotiate (srv cli : list gostr) : option gostr :=
  match srv, cli with
  | [], _ | _, [] => Some []
  | _, _ => List.find (fun p => bool_decide (p ∈ cli)) srv
  end.

(** [ingressTLSConfig]: the configuration, and whether the connection is marked
    as the tunnel's. *)
Definition ingressTLSConfig (share : bool) (protos : list gostr) : tls_config * bool :=
  let public := mkTLSConfig PublicCert false false [] in
  if share then
    if negb (bool_decide (ALPNv2 ∈ protos)) then (public, false)
    else (ServerTLSConfig protos, true)
  else (public, false).

(** [takeAgent] on a TLS connection of the ingress, once its handshake ran:
    whether it is served as an agent's. *)
Definition takeAgent (share marked : bool) : bool := if negb share then false else marked.

(** ** The accept loop *)

(** What one round of the loop meets: a connection and whether the context has
    ended after it, or an error and whether the context had ended then, or ends
    during the pause. *)
Inductive accept_round := Conn (id : nat) (ended : bool) | AcceptError (ended in_pause : bool).

(** [acceptLoop]: the connections handed to the handler, and whether it
    returned. *)
Fixpoint acceptLoop (l : list accept_round) : list nat * bool :=
  match l with
  | [] => ([], false)
  | Conn id ended :: l => if ended then ([id], true) else let '(h, r) := acceptLoop l in (id :: h, r)
  | AcceptError ended in_pause :: l => if ended || in_pause then ([], true) else acceptLoop l
  end.

Lemma acceptLoop_keeps l : Forall (fun r => match r with Conn _ e => e = false | AcceptError e p => e || p = false end) l ->
  acceptLoop l = (omap (fun r => match r with Conn id _ => Some id | AcceptError _ _ => None end) l, false).
Proof.
  induction 1 as [|r l Hr Hl IH]; [done|]. destruct r as [id e|e p]; cbn [acceptLoop]; rewrite Hr, IH; done.
Qed.

(** ** Listeners and shutdown *)

Inductive listener := LTunnel | LIngress | LHTTP3.
#[export] Instance listener_eq_dec : EqDecision listener.
Proof. solve_decision. Defined.
#[export] Instance listener_countable : Countable listener.
Proof.
  refine (inj_countable' (fun l => match l with LTunnel => 0 | LIngress => 1 | LHTTP3 => 2 end%nat)
            (fun n => match n with O => LTunnel | S O => LIngress | _ => LHTTP3 end) _). by intros [].
Defined.

Inductive life :=
| Listen (l : listener)
| Close (l : listener)
| SetHTTP3 (on : bool)           (* state.SetHTTP3Listen *)
| Advertise (v : gostr)          (* altSvc.Store *)
| Accepting                      (* the accept loops run *)
| Drained                        (* drain has returned *)
| CloseKept                      (* h3pool.closeAll *)
| CloseSessions.                 (* reg.closeAll *)

Inductive run_error := TunnelListen | IngressListen | HTTP3ListenErr | HTTP3Start.

(** What [Run] meets: which listeners open, whether the public certificate
    loads, whether HTTP/3 starts, and whether it ends before the edge stops. *)
Record run_env := mkRunEnv {
  ok_tunnel : bool;
  ok_ingress : bool;
  ok_public : bool;
  ok_udp : bool;
  ok_start : bool;
  udp_port : Z;
  h3_dies : bool;
}.

(** [listenIngress] *)
Definition listenIngress (mode : gostr) (e : run_env) : bool :=
  if beq mode (bs "standalone") then ok_public e && ok_ingress e
  else if beq mode (bs "proxied") then ok_ingress e
  else false.

(** [serveHTTP3Until], when HTTP/3 ends by itself, and when the edge stops. *)
Definition serveHTTP3Until (dies : bool) : list life :=
  if dies then [Advertise []; SetHTTP3 false; Close LHTTP3] else [CloseKept].

(** [ServeWithHTTP3]; [tun] and [h3] are whether those listeners are there. *)
Definition ServeWithHTTP3 `{Unicode} (i : IngressConfig) (tun h3 : bool) (e : run_env) : list life * option run_error :=
  let closeTun := if tun then [Close LTunnel] else [] in
  if h3 && negb (ok_start e) then (closeTun ++ [Close LIngress; Close LHTTP3], Some HTTP3Start)
  else
    ((if h3 then [SetHTTP3 true; Advertise (AltSvcHeaderFor i (udp_port e))] else []) ++ [Accepting] ++
     (if h3 && h3_dies e then serveHTTP3Until true else []) ++
     closeTun ++ [Close LIngress] ++
     (if h3 && negb (h3_dies e) then serveHTTP3Until false else []) ++
     [Drained; CloseSessions] ++ (if h3 then [Close LHTTP3] else []), None).

(** [Run] *)
Definition Run `{Unicode} (c : EdgeConfig) (e : run_env) : list life * option run_error :=
  let tun := negb (beq (tn_Listen (Tunnel c)) []) in
  let closeTun := if tun then [Close LTunnel] else [] in
  if tun && negb (ok_tunnel e) then ([], Some TunnelListen)
  else
    let l := if tun then [Listen LTunnel] else [] in
    if negb (listenIngress (Mode (Ingress c)) e) then (l ++ closeTun, Some IngressListen)
    else
      let l := l ++ [Listen LIngress] in
      let h3 := Enabled (i_HTTP3 (Ingress c)) in
      if h3 && negb (ok_udp e) then (l ++ closeTun ++ [Close LIngress], Some HTTP3ListenErr)
      else
        let l := l ++ if h3 then [Listen LHTTP3] else [] in
        let '(l', err) := ServeWithHTTP3 (Ingress c) tun h3 e in (l ++ l', err).

(** [obs.DrainWait] from [t0]: when it returns, if the handlers are done at
    [th]. *)
Definition DrainWait (timeout t0 th : Z) : Z :=
  if 0 <? timeout then Z.min (Z.max t0 th) (t0 + timeout) else t0.

(** When [reg.closeAll] runs, if the accept loop returned at [t0], the handlers
    are done at [th] and HTTP/3 at [t3]. *)
Definition close_time (drain t0 th t3 : Z) : Z :=
  let budget := t0 + drain in
  let t1 := DrainWait drain t0 th in
  Z.min (Z.max t1 t3) (Z.max t1 budget).

(** ** Taking a session out of service *)

(** What [evict] and [retire] act on; [w_conn] holds the sessions' own records. *)
Record service := mkService {
  w_reg : registry;
  w_conn : gmap nat AgentConn.conn;
  w_pool : h3Pool;
  w_state : State;
}.

(** [retire], with the kept streams it closes; [stat] is the session's
    counters. *)
Definition retire (c : agentConn) (stat : option nat) (w : service) : service * list nat :=
  match w_conn w !! c_id c with
  | None => (w, [])
  | Some cn =>
      let '(cn, already) := retire_mark cn in
      let conns := <[c_id c := cn]> (w_conn w) in
      if already then (mkService (w_reg w) conns (w_pool w) (w_state w), [])
      else
        let '(p, streams) := H3Pool.closeAgent (c_id c) (w_pool w) in
        (mkService (Registry.take (c_fp c) (c_sess c) (w_reg w)) conns p (session_SetDraining stat (w_state w)), streams)
  end.

(** [evict], and whether it closes the session; [closed] is whether it is
    closed already. *)
Definition evict (c : agentConn) (stat : nat) (closed : bool) (w : service) : service * bool :=
  (mkService (Registry.take (c_fp c) (c_sess c) (w_reg w)) (w_conn w) (w_pool w) (AgentDisconnected stat (w_state w)),
   negb closed).

(** ** Properties *)

(** The edge serves what its configuration says: on an edge built from a
    validated configuration, the route of any host is one of the configured
    routes that cover it, not outranked by another; it has agents, every one of
    them on the allow-list (so a certificate no route names never gets a
    session), and a certificate may be shared exactly when its route says so;
    the registry starts out empty and sound. *)
Theorem new_edge_config `{Unicode} `{Net} (c : EdgeConfig) (m : option (option gostr)) (st st' : State) (e : edge)
    (Hv : Validate c = Ok tt) (Hn : New c m st = Some (e, st')) :
  (forall host er, Match (e_routes e) host = Some er ->
     exists r, r ∈ Routes c /\ er = route_of r /\ covers (classify (r_Host r)) (Normalize host) = true /\
       (forall r', r' ∈ Routes c -> covers (classify (r_Host r')) (Normalize host) = true ->
          outranks (classify (r_Host r')) (classify (r_Host r)) = false) /\
       er_fps er <> [] /\
       forall fp, fp ∈ er_fps er -> fp ∈ e_allowed e /\ (fp ∈ shared (e_reg e) <-> AllowSharedCert r = true)) /\
  (forall fp, fp ∈ e_allowed e <-> exists r, r ∈ Routes c /\ fp ∈ Fingerprints r) /\ reg_inv (e_reg e).
Proof.
  unfold New in Hn. destruct m as [leaf|]; [|done]. injection Hn as <- <-. cbn [e_routes e_allowed e_reg shared].
  destruct (Validate_parts c Hv) as (_ & HF & Hsh & _). rewrite Forall_forall in HF. split_and!.
  - intros host er (en & (Hin & Hcov & Hbest) & <-)%match_sound. apply list_elem_of_fmap in Hin as (r & -> & Hr). exists r.
    cbn [Pattern Value] in *. split_and!; try done.
    + intros r' Hr'. apply (Hbest (mkEntry (r_Host r') (route_of r'))). apply list_elem_of_fmap. by exists r'.
    + by destruct (HF r Hr) as (_ & (Hne & _) & _).
    + intros fp Hfp. split; [apply AllowedFingerprints_elem; by exists r|]. rewrite SharedFingerprints_elem. split.
      * intros (r' & Hr' & Hs' & Hfp'). by rewrite (Hsh r r' fp).
      * intros Hs. by exists r.
  - apply AllowedFingerprints_elem.
  - destruct newRegistry_inv. by split.
Qed.

(** Agents and clients are never mixed up on a shared port: a connection is
    served as an agent's exactly when sharing is on and the client offered the
    tunnel's protocol, and then its TLS handshake was the tunnel's, with the
    tunnel's certificate and a verified client certificate; any other client got
    the public certificate.  On the tunnel itself every client must present a
    certificate, and the handshake settles on version 2 exactly when the client
    offers it, while no offer of protocols ends it. *)
Theorem shared_port_split (share : bool) (protos : list gostr) :
  let '(cfg, marked) := ingressTLSConfig share protos in
  (takeAgent share marked = true <-> share = true /\ ALPNv2 ∈ protos) /\
  (if takeAgent share marked
   then srv_cert cfg = TunnelCert /\ client_cert cfg = true /\ tls13 cfg = true /\ negotiate (NextProtos cfg) protos = Some ALPNv2
   else srv_cert cfg = PublicCert /\ client_cert cfg = false) /\
  client_cert (ServerTLSConfig protos) = true /\ tls13 (ServerTLSConfig protos) = true /\
  negotiate (NextProtos (ServerTLSConfig protos)) protos = Some (if bool_decide (ALPNv2 ∈ protos) then ALPNv2 else []).
Proof.
  assert (Hneg : bool_decide (ALPNv2 ∈ protos) = true -> negotiate [ALPNv2] protos = Some ALPNv2).
  { intros Hb. destruct protos as [|p ps]; [by vm_compute in Hb|]. unfold negotiate. cbn [List.find]. by rewrite Hb. }
  unfold ingressTLSConfig, ServerTLSConfig, takeAgent. destruct share, (bool_decide (ALPNv2 ∈ protos)) eqn:E; cbn; b2p;
    split_and!; naive_solver.
Qed.

(** *** Listeners *)

Record stage := mkStage { open_now : gset listener; alt : gostr; sessions_open : bool }.

Definition live_on (s : stage) (x : life) : stage :=
  match x with
  | Listen l => mkStage ({[l]} ∪ open_now s) (alt s) (sessions_open s)
  | Close l => mkStage (open_now s ∖ {[l]}) (alt s) (sessions_open s)
  | Advertise v => mkStage (open_now s) v (sessions_open s)
  | CloseSessions => mkStage (open_now s) (alt s) false
  | _ => s
  end.

(** HTTP/3 is advertised on the ingress only while its listener is there; agent
    sessions are closed only once no listener lets anything in. *)
Definition orderly (s : stage) : bool :=
  (beq (alt s) [] || bool_decide (LHTTP3 ∈ open_now s) || negb (bool_decide (LIngress ∈ open_now s))) &&
  (sessions_open s || negb (bool_decide (LIngress ∈ open_now s)) && negb (bool_decide (LTunnel ∈ open_now s))).

Definition at_stage (n : nat) (l : list life) : stage := foldl live_on (mkStage ∅ [] true) (firstn n l).

Fixpoint all_orderly (s : stage) (l : list life) : bool :=
  orderly s && match l with [] => true | x :: l => all_orderly (live_on s x) l end.

Lemma all_orderly_at s l n : all_orderly s l = true -> orderly (foldl live_on s (firstn n l)) = true.
Proof.
  revert s l; induction n as [|n IH]; intros s l; destruct l as [|x l]; cbn [all_orderly firstn foldl]; intros Hl; apply andb_prop in Hl as [Ho Hl];
    try done. by apply IH.
Qed.

(** The edge starts and stops in order: whichever listener fails to open, and
    whether or not HTTP/3 ends early, every listener that was open is closed
    when [Run] returns; at every moment HTTP/3 is advertised to clients only
    while its port is open; agent sessions are closed only when neither clients
    nor agents can come in any more, and they are closed exactly when the start
    succeeded. *)
Theorem edge_life_orderly `{Unicode} (c : EdgeConfig) (e : run_env) :
  let '(l, err) := Run c e in
  (forall n, orderly (at_stage n l) = true) /\
  open_now (at_stage (length l) l) = ∅ /\ (err = None <-> sessions_open (at_stage (length l) l) = false).
Proof.
  destruct (Run c e) as [l err] eqn:E. cut (all_orderly (mkStage ∅ [] true) l = true /\ open_now (foldl live_on (mkStage ∅ [] true) l) = ∅ /\
    (err = None <-> sessions_open (foldl live_on (mkStage ∅ [] true) l) = false)).
  { intros (H1 & H2 & H3). unfold at_stage. rewrite firstn_all. split; [|done]. intros n. by apply all_orderly_at. }
  revert E. unfold Run, ServeWithHTTP3, serveHTTP3Until. generalize (AltSvcHeaderFor (Ingress c) (udp_port e)). intros v.
  destruct (negb (beq (tn_Listen (Tunnel c)) [])), (ok_tunnel e), (listenIngress (Mode (Ingress c)) e), (Enabled (i_HTTP3 (Ingress c))),
    (ok_udp e), (ok_start e), (h3_dies e); cbn [andb negb]; intros [= <- <-]; destruct v as [|a v]; (split; [vm_compute; reflexivity|]);
    (split; [vm_compute; reflexivity|]); vm_compute; split; done.
Qed.

(** Shutdown uses its budget and no more: agent sessions are closed within
    the drain budget; before it is spent, only when every request in flight, over
    TCP and HTTP/3, has finished; and as soon as they all have. *)
Theorem shutdown_within_budget (drain t0 th t3 : Z) (Hd : 0 <= drain) :
  let tc := close_time drain t0 th t3 in
  t0 <= tc <= t0 + drain /\
  (tc < t0 + drain -> th <= tc /\ t3 <= tc) /\
  (th <= t0 + drain -> t3 <= t0 + drain -> 0 < drain -> tc = Z.max t0 (Z.max th t3)).
Proof. unfold close_time, DrainWait. destruct (0 <? drain) eqn:E; b2p; lia. Qed.

(** *** Out of service *)

(** A draining agent is out of service everywhere at once: after [retire] no
    stream is opened on its session and no route finds it among its candidates,
    while every other session stays where it was; of the streams kept for later
    HTTP/3 requests exactly those to this agent are closed; its counters say it
    is draining; registry and pool stay sound; and a second call changes
    nothing. *)
Theorem retire_everywhere (closed : session -> bool) (c : agentConn) (stat : nat) (x : AgentSession) (cn : AgentConn.conn) (w : service)
    (Hc : w_conn w !! c_id c = Some cn) (Hfirst : AgentConn.retired cn = false) (Hx : sessions (w_state w) !! stat = Some x)
    (Hreg : reg_inv (w_reg w)) (Hpool : pool_inv (w_pool w)) :
  let '(w', streams) := retire c (Some stat) w in
  (forall id, exists cn', w_conn w' !! c_id c = Some cn' /\ open_begin id cn' = Err errRetired) /\
  (forall fps d, d ∈ (candidates closed fps (w_reg w')).1 <->
     d ∈ (candidates closed fps (w_reg w)).1 /\ ~ (c_fp d = c_fp c /\ c_sess d = c_sess c)) /\
  (forall id, id ∈ streams <-> exists i, waiting (w_pool w) id i /\ ts_agent (is_ts i) = c_id c) /\
  (forall id i, waiting (w_pool w') id i <-> waiting (w_pool w) id i /\ ts_agent (is_ts i) <> c_id c) /\
  (exists x', sessions (w_state w') !! stat = Some x' /\ as_draining x' = true /\ as_active x' = as_active x) /\
  reg_inv (w_reg w') /\ pool_inv (w_pool w') /\
  retire c (Some stat) w' = (w', []).
Proof.
  unfold retire. rewrite Hc. cbn [retire_mark]. rewrite Hfirst. destruct (closeAgent (c_id c) (w_pool w)) as [p streams] eqn:Ep.
  pose proof (closeAgent_inv (c_id c) _ Hpool) as Hp'. rewrite Ep in Hp'. unfold closeAgent in Ep.
  destruct (removeWhere_spec _ _ _ _ (pi_core _ Hpool) Ep) as (_ & _ & Hgone & Hleft). cbn [w_conn w_reg w_pool w_state].
  destruct (removeLocked_spec (c_fp c) (c_sess c) (w_reg w)) as (_ & _ & Hinv). split_and!.
  - intros id. rewrite lookup_insert_eq. eexists. split; [done|]. done.
  - intros fps d. unfold candidates. cbn [fst]. rewrite !list_elem_of_In, !filter_In, !in_flat_map. unfold Registry.take.
    split.
    + intros ((fp & Hfp & Hd) & Hcl). apply list_elem_of_In in Hd. rewrite removeLocked_elem in Hd by done. destruct Hd as [Hd Hne].
      destruct (inv_pool_elem _ _ _ Hreg Hd) as [Hdf _]. split; [split; [exists fp; split; [done|by apply list_elem_of_In]|done]|].
      intros [Hf Hs]. apply Hne. split; congruence.
    + intros (((fp & Hfp & Hd) & Hcl) & Hne). split; [|done]. exists fp. split; [done|]. apply list_elem_of_In. apply list_elem_of_In in Hd.
      rewrite removeLocked_elem by done. split; [done|]. intros [<- Hs]. apply Hne. by destruct (inv_pool_elem _ _ _ Hreg Hd).
  - intros id. rewrite Hgone. by setoid_rewrite Nat.eqb_eq.
  - intros id i. rewrite Hleft. by rewrite Nat.eqb_neq.
  - simpl. rewrite lookup_alter_eq, Hx. by eexists.
  - by apply Hinv.
  - done.
  - rewrite lookup_insert_eq. cbn. by rewrite insert_insert_eq.
Qed.

(** ** Witnesses *)

Module LifecycleWitness.
#[local] Existing Instance ascii_only.
#[local] Existing Instance ConfigWitness.no_net.

Definition built : edge * State :=
  default (mkEdge ∅ newRegistry None (mkMatcher ∅ [] None) newH3Pool [], NewState [] 0)
    (New ConfigWitness.c1 (Some None) (NewState (bs "edge") 0)).

Lemma new_edge_config_witness : exists er, Match (e_routes built.1) (bs "a.example") = Some er /\ er_fps er <> [].
Proof.
  destruct (new_edge_config ConfigWitness.c1 (Some None) (NewState (bs "edge") 0) built.2 built.1) as [Hm _].
  - vm_compute. reflexivity.
  - reflexivity.
  - eexists. split; [vm_compute; reflexivity|]. edestruct (Hm (bs "a.example")) as (r & _ & _ & _ & _ & Hne & _); [vm_compute; reflexivity|exact Hne].
Defined.

Lemma shutdown_within_budget_witness : close_time 10 100 104 107 = 107.
Proof. apply (shutdown_within_budget 10 100 104 107); lia. Defined.

(** The only session of a certificate, with no stream kept. *)
Definition w0 : service :=
  mkService (Registry.w_reg RegistryWitness.w1) {[ 1%nat := AgentConn.newConn ]} newH3Pool
    (NewAgentSession 5 RegistryWitness.fpA [] 0 (NewState (bs "edge") 0)).

Lemma retire_everywhere_witness :
  let '(w', _) := retire RegistryWitness.c1 (Some 5%nat) w0 in (candidates (fun _ => false) [RegistryWitness.fpA] (w_reg w')).1 = [] /\ reg_inv (w_reg w').
Proof.
  pose proof (retire_everywhere (fun _ => false) RegistryWitness.c1 5 (mkAgentSession RegistryWitness.fpA [] 0 0 false) AgentConn.newConn w0
    eq_refl eq_refl eq_refl (reg_steps_inv _ _ RegistryWitness.reach1 (initial_inv ∅)) newH3Pool_inv) as Hw.
  destruct (retire RegistryWitness.c1 (Some 5%nat) w0) as [w' streams] eqn:E.
  split; [|exact (proj1 (proj2 (proj2 (proj2 (proj2 (proj2 Hw))))))].
  vm_compute in E. injection E as <- _. vm_compute. reflexivity.
Defined.
End LifecycleWitness.
