(* ===== verification/Journal.v ===== *)
(** * Logs ([internal/obs/log.go], [internal/obs/journal.go])

    Levels and formats, and the handler that renders a record as one line for
    journald.  Attribute values come from the network; the line stays one line
    and can be read back whatever they hold. *)

From S2P Require Import Prelude GoStrings Numeral.
#[local] Open Scope Z_scope.

(** ** Levels and formats *)

Definition LevelTrace : Z := -8.
Definition LevelDebug : Z := -4.
Definition LevelInfo : Z := 0.
Definition LevelWarn : Z := 4.
Definition LevelError : Z := 8.

Definition ParseLevel `{Unicode} (s : gostr) : option Z :=
  let l := ToLower s in
  if beq l (bs "trace") then Some LevelTrace
  else if beq l (bs "debug") then Some LevelDebug
  else if beq l (bs "info") || beq l [] then Some LevelInfo
  else if beq l (bs "warn") || beq l (bs "warning") then Some LevelWarn
  else if beq l (bs "error") then Some LevelError
  else None.

(** [resolveFormat]; [journal] is what [writerIsJournalStream] says. *)
Definition resolveFormat `{Unicode} (format : gostr) (journal : bool) : gostr :=
  let l := ToLower format in
  if beq l (bs "text") || beq l (bs "json") || beq l (bs "journal") then l
  else if beq l [] then (if journal then bs "journal" else bs "text")
  else format.

Inductive log_error := UnknownLevel (s : gostr) | UnknownFormat (s : gostr).

(** [NewLogger]: the level and the handler's name. *)
Definition NewLogger `{Unicode} (level format : gostr) (journal : bool) : result log_error (Z * gostr) :=
  match ParseLevel level with
  | None => Err (UnknownLevel level)
  | Some l =>
      let f := resolveFormat format journal in
      if beq f (bs "json") || beq f (bs "text") || beq f (bs "journal") then Ok (l, f) else Err (UnknownFormat format)
  end.

(** ** [JOURNAL_STREAM] *)

Definition parseJournalStream (s : gostr) : option (Z * Z) :=
  match IndexByte s ":"%char with
  | None => None
  | Some i =>
      if (i =? 0)%nat || (i =? length s - 1)%nat then None
      else
        d ← ParseUint (take i s);
        n ← ParseUint (drop (S i) s);
        Some (d, n)
  end.

(** [writerIsJournalStream]; [file] is the writer's device and inode, when it is
    a file that can be looked at. *)
Definition writerIsJournalStream (env : gostr) (file : option (Z * Z)) : bool :=
  if beq env [] then false
  else match file, parseJournalStream env with
       | Some (dev, ino), Some (d, n) => (dev =? d) && (ino =? n)
       | _, _ => false
       end.

(** ** Correlation ids ([internal/obs/id.go]) *)

(** [hex.EncodeToString] *)
Definition hex_encode (b : gostr) : gostr := concat (map (fun c => [hex_char (code c / 16); hex_char (code c mod 16)]) b).

(** [binary.BigEndian.PutUint64] of a 64-bit number. *)
Definition be64 (n : Z) : gostr := map (fun k => byte (Z.to_N (Z.land (Z.shiftr n (8 * Z.of_nat k)) 255))) [7; 6; 5; 4; 3; 2; 1; 0]%nat.

(** [NewID]; [rnd] is what [rand.Read] filled six bytes with, [None] when it
    failed, [now] the time in nanoseconds. *)
Definition NewID (rnd : option gostr) (now : Z) : gostr :=
  hex_encode (match rnd with Some b => take 6 b | None => drop 2 (be64 (u64 now)) end).

Lemma hex_encode_inj a b : hex_encode a = hex_encode b -> a = b.
Proof.
  revert b; induction a as [|x a IH]; intros [|y b]; unfold hex_encode; cbn [map concat app]; try done.
  intros [= H1 H2 H3]. assert (Hd : forall m n, (m < 16)%N -> (n < 16)%N -> hex_char m = hex_char n -> m = n).
  { intros m n Hm Hn E. pose proof (digit_value_hex m Hm) as E1. rewrite E, (digit_value_hex n Hn) in E1. by injection E1. }
  assert (Hb : forall c, (code c < 256)%N) by (intros c; apply N_ascii_bounded).
  assert (code x / 16 = code y / 16 /\ code x mod 16 = code y mod 16)%N as [E1 E2].
  { split; apply Hd; try done; try (by apply N.mod_lt); apply N.Div0.div_lt_upper_bound; [apply (Hb x)|apply (Hb y)]. }
  f_equal; [|by apply IH]. rewrite <- (ascii_N_embedding x), <- (ascii_N_embedding y). f_equal.
  unfold code in *. rewrite (N.div_mod' (N_of_ascii x) 16), (N.div_mod' (N_of_ascii y) 16). by rewrite E1, E2.
Qed.

(** An id is twelve digits, and two ids are the same only for the same bytes. *)
Lemma NewID_distinct a b now now' : length a = 6%nat -> length b = 6%nat ->
  length (NewID (Some a) now) = 12%nat /\ (NewID (Some a) now = NewID (Some b) now' -> a = b) /\ length (NewID None now) = 12%nat.
Proof.
  intros Ha Hb. assert (Hl : forall l, length (hex_encode l) = (2 * length l)%nat).
  { induction l as [|c l IH]; [done|]. unfold hex_encode in *. cbn [map concat]. rewrite length_app, IH. cbn [length]. lia. }
  unfold NewID. rewrite !take_ge by lia. rewrite Hl, Ha. split_and!; [done|apply hex_encode_inj|]. rewrite Hl. done.
Qed.

(** ** The journal handler *)

(** [strconv.Quote] and [strconv.QuotedPrefix] with [Unquote], as documented: a
    quoted string is a Go literal, so it holds no control character and can be
    told from what follows it. *)
Class Quoting := {
  Quote : gostr -> gostr;
  unquote_prefix : gostr -> option (gostr * gostr);
  quote_starts : forall s, exists t, Quote s = byte 34 :: t;
  quote_plain : forall s c, c ∈ Quote s -> (32 <= code c)%N;
  quote_empty : Quote [] = [byte 34; byte 34];
  quote_prefix : forall s rest, unquote_prefix (Quote s ++ rest) = Some (s, rest);
}.

(** An attribute: a value as text ([None] is the zero [slog.Value]), or a
    group. *)
Inductive attr :=
| Attr (key : gostr) (value : option gostr)
| Group (key : gostr) (attrs : list attr).

Definition join_key (group key : gostr) : gostr := if beq group [] then key else group ++ bs "." ++ key.

(** A byte that makes a value quoted.  (Runes of more than one byte never do.) *)
Definition needs_quote (c : ascii) : bool :=
  (code c <=? 32)%N || ceq c (byte 34) || ceq c "="%char || ceq c ","%char.

Section handler.
Context `{Quoting}.

Definition journalQuote (s : gostr) : gostr :=
  match s with
  | [] => [byte 34; byte 34]
  | _ => if existsb needs_quote s then Quote s else s
  end.

Definition pair_text (k v : gostr) : gostr := bs ", " ++ k ++ bs "=" ++ journalQuote v.

Fixpoint appendAttr (group : gostr) (a : attr) : gostr :=
  match a with
  | Group key attrs =>
      let sub := if beq key [] then group else join_key group key in
      concat (map (appendAttr sub) attrs)
  | Attr key value =>
      match value with
      | None => if beq key [] then [] else pair_text (join_key group key) (bs "<nil>")
      | Some v => pair_text (join_key group key) v
      end
  end.

Definition journalPrefix (l : Z) : gostr :=
  if LevelError <=? l then bs "<3>"
  else if LevelWarn <=? l then bs "<4>"
  else if LevelInfo <=? l then bs "<6>"
  else bs "<7>".

Definition dots_to_spaces (s : gostr) : gostr := map (fun c => if ceq c "."%char then " "%char else c) s.

(** A handler's attributes and group. *)
Record journalHandler := mkHandler { h_level : Z; h_attrs : list attr; h_group : gostr }.

Definition Enabled (h : journalHandler) (l : Z) : bool := h_level h <=? l.
Definition WithAttrs (h : journalHandler) (attrs : list attr) : journalHandler :=
  match attrs with [] => h | _ => mkHandler (h_level h) (h_attrs h ++ attrs) (h_group h) end.
Definition WithGroup (h : journalHandler) (name : gostr) : journalHandler :=
  if beq name [] then h
  else mkHandler (h_level h) (h_attrs h) (if beq (h_group h) [] then name else h_group h ++ bs "." ++ name).

(** [Handle]: what is written for a record. *)
Definition Handle (h : journalHandler) (l : Z) (msg : gostr) (attrs : list attr) : gostr :=
  journalPrefix l ++ dots_to_spaces msg ++
  concat (map (appendAttr (h_group h)) (h_attrs h ++ attrs)) ++ [LF].
End handler.

(** ** Reading a line back *)

(** The attributes of a record as keys and values. *)
Fixpoint pairs (group : gostr) (a : attr) : list (gostr * gostr) :=
  match a with
  | Group key attrs => concat (map (pairs (if beq key [] then group else join_key group key)) attrs)
  | Attr key None => if beq key [] then [] else [(join_key group key, bs "<nil>")]
  | Attr key (Some v) => [(join_key group key, v)]
  end.

Definition stops (c : ascii) : bool := ceq c ","%char || ceq c LF.

(** The longest start of [s] without a byte [p] stops at, and the rest. *)
Fixpoint span (p : ascii -> bool) (s : gostr) : gostr * gostr :=
  match s with
  | [] => ([], [])
  | c :: t => if p c then ([], s) else let '(a, b) := span p t in (c :: a, b)
  end.

Section reading.
Context `{Quoting}.

Definition parse_value (s : gostr) : option (gostr * gostr) :=
  match s with
  | c :: _ => if ceq c (byte 34) then unquote_prefix s else Some (span stops s)
  | [] => None
  end.

Fixpoint parse_pairs (fuel : nat) (s : gostr) : option (list (gostr * gostr)) :=
  match fuel with
  | O => None
  | S fuel =>
      if beq s [LF] then Some []
      else if HasPrefix s (bs ", ") then
        let '(k, t) := span (ceq "="%char) (drop 2 s) in
        '(v, t) ← parse_value (drop 1 t);
        l ← parse_pairs fuel t;
        Some ((k, v) :: l)
      else None
  end.

Definition parse_line (s : gostr) : option (gostr * gostr * list (gostr * gostr)) :=
  let '(msg, t) := span stops (drop 3 s) in
  l ← parse_pairs (length t) t;
  Some (take 3 s, msg, l).

(** Keys and messages come from the program's own text. *)
Definition key_ok (k : gostr) : Prop := "="%char ∉ k /\ LF ∉ k.
Definition msg_ok (m : gostr) : Prop := ","%char ∉ m /\ LF ∉ m.

Lemma span_app p a c t : Forall (fun x => p x = false) a -> p c = true -> span p (a ++ c :: t) = (a, c :: t).
Proof. intros Ha Hc. induction Ha as [|x a Hx Ha IH]; simpl; [by rewrite Hc|]. by rewrite Hx, IH. Qed.

Lemma appendAttr_pairs a : forall group, appendAttr group a = concat (map (fun kv => pair_text kv.1 kv.2) (pairs group a)).
Proof.
  revert a. fix IH 1. intros [key [v|]|key attrs] group; cbn [appendAttr pairs].
  - simpl. by rewrite app_nil_r.
  - destruct (beq key []); simpl; [done|]. by rewrite app_nil_r.
  - set (sub := if beq key [] then group else join_key group key). clearbody sub.
    induction attrs as [|a attrs IHl]; [done|]. cbn [map concat]. rewrite map_app, concat_app. f_equal; [apply IH|apply IHl].
Qed.

Lemma journalQuote_no_LF v : LF ∉ journalQuote v.
Proof.
  unfold journalQuote. destruct v as [|c v]; [by apply (bool_decide_unpack _)|]. destruct (existsb _ _) eqn:E.
  - intros Hl%quote_plain. by vm_compute in Hl.
  - intros Hl. apply not_true_iff_false in E. apply E, existsb_exists. exists LF. split; [by apply list_elem_of_In|done].
Qed.

(** A value is read back up to what follows it. *)
Lemma parse_value_quote v c t : stops c = true -> parse_value (journalQuote v ++ c :: t) = Some (v, c :: t).
Proof.
  intros Hc. unfold journalQuote. destruct v as [|a v].
  - cbn [app parse_value]. change (ceq (byte 34) (byte 34)) with true. cbn iota.
    change (byte 34 :: byte 34 :: c :: t) with ([byte 34; byte 34] ++ c :: t). by rewrite <- quote_empty, quote_prefix.
  - destruct (existsb needs_quote (a :: v)) eqn:E.
    + destruct (quote_starts (a :: v)) as [u Hu]. rewrite Hu. cbn [app parse_value]. change (ceq (byte 34) (byte 34)) with true.
      cbn iota. change (byte 34 :: u ++ c :: t) with ((byte 34 :: u) ++ c :: t). by rewrite <- Hu, quote_prefix.
    + assert (Hn : forall x, x ∈ a :: v -> needs_quote x = false).
      { intros x Hx. apply not_true_iff_false. intros Hq. apply not_true_iff_false in E. apply E, existsb_exists.
        exists x. split; [by apply list_elem_of_In|done]. }
      cbn [app parse_value]. assert (Ha : ceq a (byte 34) = false).
      { specialize (Hn a ltac:(by left)). unfold needs_quote in Hn. b2p. done. }
      rewrite Ha. f_equal. change (a :: v ++ c :: t) with ((a :: v) ++ c :: t). apply span_app; [|done].
      apply Forall_forall. intros x Hx%Hn. unfold needs_quote in Hx. unfold stops. b2p.
      apply orb_false_intro; [done|]. apply ceq_false. intros ->. by vm_compute in *.
Qed.

Lemma parse_pairs_text kvs fuel : Forall (fun kv => key_ok kv.1) kvs ->
  (length kvs < fuel)%nat -> parse_pairs fuel (concat (map (fun kv => pair_text kv.1 kv.2) kvs) ++ [LF]) = Some kvs.
Proof.
  intros Hk. revert fuel; induction Hk as [|[k v] kvs [Hk _] Hks IH]; intros fuel Hf; (destruct fuel as [|fuel]; [simpl in Hf; lia|]).
  { done. }
  cbn [map concat parse_pairs length fst snd] in *.
  set (rest := concat _) in *. assert (Hrest : exists c t, rest ++ [LF] = c :: t /\ stops c = true).
  { unfold rest. destruct kvs as [|[k2 v2] kvs]; simpl; eauto. }
  destruct Hrest as (c & t & Hrest & Hc).
  replace ((pair_text k v ++ rest) ++ [LF])
    with (bs ", " ++ (k ++ "="%char :: (journalQuote v ++ c :: t)))
    by (unfold pair_text; rewrite <- Hrest, <- !app_assoc; done).
  assert (Hb : beq (bs ", " ++ k ++ "="%char :: journalQuote v ++ c :: t) [LF] = false) by (by apply beq_false).
  rewrite Hb, HasPrefix_app. change (drop 2 (bs ", " ++ ?x)) with x.
  rewrite span_app; [|apply Forall_forall; intros x Hx; apply ceq_false; by intros <-|done].
  change (drop 1 ("="%char :: ?x)) with x. rewrite parse_value_quote by done. cbn [mbind option_bind]. rewrite <- Hrest, IH by lia. done.
Qed.

Lemma pairs_text_length kvs : (length kvs <= length (concat (map (fun kv => pair_text kv.1 kv.2) kvs)))%nat.
Proof. induction kvs as [|[k v] kvs IH]; simpl; [lia|]. rewrite !length_app. lia. Qed.

(** A log record is one line that reads back, whatever the values in it: for
    any attribute values, which come from clients and agents, the journal gets
    exactly one line per record (nothing in a value can start a line of its own),
    and the priority, the event and every key with its value can be read back
    from it. *)
Theorem journal_line_roundtrip (h : journalHandler) (l : Z) (msg : gostr) (attrs : list attr)
    (Hm : msg_ok msg)
    (Hk : Forall (fun kv => key_ok kv.1) (concat (map (pairs (h_group h)) (h_attrs h ++ attrs)))) :
  (exists body, Handle h l msg attrs = body ++ [LF] /\ LF ∉ body) /\
  parse_line (Handle h l msg attrs) =
    Some (journalPrefix l, dots_to_spaces msg, concat (map (pairs (h_group h)) (h_attrs h ++ attrs))).
Proof.
  unfold Handle. set (all := h_attrs h ++ attrs) in *. set (kvs := concat (map (pairs (h_group h)) all)) in *.
  assert (Htext : concat (map (appendAttr (h_group h)) all) = concat (map (fun kv => pair_text kv.1 kv.2) kvs)).
  { unfold kvs. clear. induction all as [|a all IH]; [done|]. cbn [map concat]. by rewrite map_app, concat_app, IH, appendAttr_pairs. }
  rewrite Htext. clear Htext. clearbody kvs. destruct Hm as [Hcomma HLF].
  assert (Hp : length (journalPrefix l) = 3%nat /\ LF ∉ journalPrefix l).
  { unfold journalPrefix. repeat case_match; split; try done; by apply (bool_decide_unpack _). }
  destruct Hp as [Hpl Hpn].
  assert (Hd : Forall (fun x => stops x = false) (dots_to_spaces msg)).
  { unfold dots_to_spaces. apply Forall_map, Forall_forall. intros c Hc. destruct (ceq c "."%char); [done|].
    unfold stops. apply orb_false_intro; apply ceq_false; intros ->; done. }
  split.
  - exists (journalPrefix l ++ dots_to_spaces msg ++ concat (map (fun kv => pair_text kv.1 kv.2) kvs)). split; [by rewrite <- !app_assoc|].
    rewrite !elem_of_app. intros [?|[Hx|Hx]]; [done| |].
    + rewrite Forall_forall in Hd. specialize (Hd _ Hx). by vm_compute in Hd.
    + revert Hx. clear -Hk. induction Hk as [|[k v] kvs [_ Hlf] Hks IH]; [set_solver|]. cbn [map concat]. unfold pair_text at 1.
      rewrite !elem_of_app. intros [[Hx|[?|[Hx|Hx]]]|?]; [by vm_compute in Hx; set_solver|done|by vm_compute in Hx; set_solver|by apply journalQuote_no_LF in Hx|done].
  - unfold parse_line.
    assert (Hsplit : forall x, take 3 (journalPrefix l ++ x) = journalPrefix l /\ drop 3 (journalPrefix l ++ x) = x).
    { intros x. rewrite <- Hpl. by rewrite take_app_length, drop_app_length. }
    rewrite !(proj1 (Hsplit _)), !(proj2 (Hsplit _)).
    set (rest := concat _ ++ [LF]). assert (Hrest : exists c t, rest = c :: t /\ stops c = true).
    { unfold rest. destruct kvs as [|[k2 v2] kvs]; simpl; eauto. }
    destruct Hrest as (c & t & Hrest & Hc). rewrite Hrest, span_app, <- Hrest by done. unfold rest.
    rewrite parse_pairs_text; [done|done|]. rewrite length_app. pose proof (pairs_text_length kvs). simpl. lia.
Qed.
End reading.

Lemma parseJournalStream_print d n : 0 <= d < 2 ^ 64 -> 0 <= n < 2 ^ 64 ->
  parseJournalStream (Itoa d ++ bs ":" ++ Itoa n) = Some (d, n).
Proof.
  intros Hd Hn. unfold parseJournalStream.
  assert (Hne : forall z, 0 <= z -> Itoa z <> []).
  { intros z Hz He. pose proof (parse_Itoa z Hz) as Hp. by rewrite He in Hp. }
  assert (Hi : IndexByte (Itoa d ++ bs ":" ++ Itoa n) ":"%char = Some (length (Itoa d))).
  { unfold IndexByte. apply index_by_Some. split.
    - exists ":"%char. by rewrite lookup_app_r, Nat.sub_diag by lia.
    - intros j y Hj. rewrite lookup_app_l by lia. intros Hy%list_elem_of_lookup_2. apply ceq_false. intros <-.
      by apply (Itoa_avoid d ":"%char) in Hy; [|lia|]. }
  rewrite Hi. assert (H1 : (length (Itoa d) =? 0)%nat = false) by (apply Nat.eqb_neq; destruct (Itoa d) eqn:E; [by apply Hne in E; [|lia]|simpl; lia]).
  assert (H2 : (length (Itoa d) =? length (Itoa d ++ bs ":" ++ Itoa n) - 1)%nat = false).
  { apply Nat.eqb_neq. rewrite !length_app. destruct (Itoa n) eqn:E; [by apply Hne in E; [|lia]|simpl; lia]. }
  rewrite H1, H2. cbn [orb]. rewrite take_app_length, ParseUint_Itoa by done. cbn [mbind option_bind].
  replace (drop (S (length (Itoa d))) (Itoa d ++ bs ":" ++ Itoa n)) with (Itoa n).
  - by rewrite ParseUint_Itoa.
  - rewrite drop_app_ge by lia. by replace (S (length (Itoa d)) - length (Itoa d))%nat with 1%nat by lia.
Qed.

(** ** Witnesses *)

(** A quoting for closed examples: every byte as two hexadecimal digits. *)
Module JournalWitness.
Definition hex2 (c : ascii) : gostr := [hex_char (code c / 16); hex_char (code c mod 16)].
Fixpoint unhex (s : gostr) : option (gostr * gostr) :=
  match s with
  | q :: s' =>
      if ceq q (byte 34) then Some ([], s')
      else match s' with
           | d :: t =>
               a ← digit_value q;
               b ← digit_value d;
               '(l, r) ← unhex t;
               Some (byte (a * 16 + b) :: l, r)
           | [] => None
           end
  | [] => None
  end.

Lemma hex2_ok c rest : unhex (hex2 c ++ rest) = ('(l, r) ← unhex rest; Some (c :: l, r)).
Proof. revert rest. by each_byte c. Qed.

Definition hex_quoting : Quoting.
Proof.
  refine {| Quote := fun s => byte 34 :: concat (map hex2 s) ++ [byte 34];
            unquote_prefix := fun s => match s with [] => None | _ :: t => unhex t end |}.
  - intros s. by eexists.
  - intros s c. rewrite elem_of_cons, elem_of_app. intros [->|[Hc|Hc]]; [done| |apply list_elem_of_singleton in Hc as ->; done].
    apply list_elem_of_In, in_concat in Hc as (l & Hl & Hc). apply in_map_iff in Hl as (d & <- & _).
    apply list_elem_of_In in Hc. revert c Hc. each_byte d; intros c Hc; apply elem_of_cons in Hc as [->|Hc%list_elem_of_singleton]; try (by vm_compute);
      subst; by vm_compute.
  - done.
  - intros s rest. cbn [app]. rewrite <- app_assoc. induction s as [|c s IH]; [done|].
    cbn [map concat]. rewrite <- app_assoc. by rewrite hex2_ok, IH.
Defined.

#[local] Existing Instance hex_quoting.
Definition handler : journalHandler := WithAttrs (mkHandler LevelInfo [] []) [Attr (bs "conn_id") (Some (bs "c1"))].
(** A host that tries to forge a line. *)
Definition forged : gostr := bs "a" ++ [LF] ++ bs "<3>forged, x=1".

Lemma journal_line_roundtrip_witness :
  parse_line (Handle handler LevelWarn (bs "ingress.no_route") [Attr (bs "host") (Some forged); Group (bs "tls") [Attr (bs "v") None]]) =
  Some (bs "<4>", bs "ingress no_route", [(bs "conn_id", bs "c1"); (bs "host", forged); (bs "tls.v", bs "<nil>")]).
Proof.
  apply (journal_line_roundtrip handler LevelWarn (bs "ingress.no_route") [Attr (bs "host") (Some forged); Group (bs "tls") [Attr (bs "v") None]]).
  - split; apply (bool_decide_unpack _); vm_compute; exact I.
  - repeat constructor; apply (bool_decide_unpack _); vm_compute; exact I.
Defined.
End JournalWitness.
