(* ===== verification/Admin.v ===== *)
(** * The admin socket ([internal/admin/admin.go], [lock_unix.go])

    Daemons come and go on one socket path: a newer one replaces the path while
    an older one still drains, and the older one removes it on exit only if it is
    its own.  Their file operations interleave, so they are a step relation.  The
    requests on the socket ([handle]) and its clients ([SetLevel]) follow. *)

From S2P Require Import Prelude GoStrings IO HttpHead Journal.
#[local] Open Scope Z_scope.

(** ** The socket path *)

Inductive lockState := lockHeld | lockUnavailable | lockContended.

(** A socket file: which start created it, and its inode, which is what
    [os.SameFile] compares. *)
Record sock := mkSock { start_of : nat; ino : nat }.

(** Where a daemon's [Serve] is, with the file it created; [ours] is what [os.Stat]
    gave after [Listen], [None] when it failed. *)
Inductive at_ :=
| Locking
| Removing (st : lockState) | Listening (st : lockState) (start : nat)
| Statting (st : lockState) (file : sock) | Unlocking (st : lockState) (file : sock) (ours : option nat)
| Serving (file : sock) (ours : option nat)
| Closing (file : sock) (ours : option nat)
| ExitLocking (file : sock) (ours : option nat)
| Checking (st : lockState) (file : sock) (ours : option nat)
| ExitRemoving (st : lockState) (file : sock)
| ExitUnlocking (st : lockState)
| Returned.

(** The path's file, the lock's holder, the starts that have cleared the path, and
    the daemons. *)
Record fs := mkFs {
  path : option sock;
  lock : option nat;
  starts : nat;
  daemons : gmap nat at_;
}.

Definition at_d (d : nat) (a : at_) (s : fs) : fs := mkFs (path s) (lock s) (starts s) (<[d := a]> (daemons s)).

(** [lockSocketPath] by [d]: its outcome is [lockHeld] only while nobody holds
    the lock. *)
Definition take_lock (d : nat) (st : lockState) (s : fs) : fs :=
  match st with lockHeld => mkFs (path s) (Some d) (starts s) (daemons s) | _ => s end.
Definition unlock (d : nat) (st : lockState) (s : fs) : fs :=
  match st with lockHeld => mkFs (path s) None (starts s) (daemons s) | _ => s end.
Definition remove (s : fs) : fs := mkFs None (lock s) (starts s) (daemons s).

(** The [os.Remove] of a start, whatever is on the path. *)
Definition clear (s : fs) : fs := mkFs None (lock s) (S (starts s)) (daemons s).

(** [net.Listen], with the inode the file system gives. *)
Definition listen (start i : nat) (s : fs) : fs := mkFs (Some (mkSock start i)) (lock s) (starts s) (daemons s).

Inductive event :=
| Start (d : nat)
| Lock (d : nat) (st : lockState)
| Go (d : nat)                            (* the next statement *)
| Listen (d i : nat) | ListenFails (d : nat)
| StatFails (d : nat)
| Stop (d : nat)                          (* the context ends, Accept fails, or Chmod does *)
| Killed (d : nat).                       (* the process ends, and its lock with it *)

(** [Serve], one statement at a time. *)
Definition serve_step (d : nat) (a : at_) (s : fs) : fs :=
  match a with
  | Removing st => at_d d (Listening st (starts s)) (clear s)
  | Statting st f => at_d d (Unlocking st f (ino <$> path s)) s
  | Unlocking st f ours => at_d d (Serving f ours) (unlock d st s)
  | Closing f ours => at_d d (ExitLocking f ours) s
  | Checking st f ours =>
      match st with
      | lockContended => at_d d (ExitUnlocking st) s
      | _ =>
          match path s, ours with
          | Some cur, Some o => at_d d (if (ino cur =? o)%nat then ExitRemoving st f else ExitUnlocking st) s
          | _, _ => at_d d (ExitUnlocking st) s
          end
      end
  | ExitRemoving st f => at_d d (ExitUnlocking st) (remove s)
  | ExitUnlocking st => at_d d Returned (unlock d st s)
  | Locking | Listening _ _ | Serving _ _ | ExitLocking _ _ | Returned => s
  end.

(** Whether a daemon holds the lock, and the file it has created and not given
    up. *)
Definition held (st : lockState) : bool := match st with lockHeld => true | _ => false end.
Definition holding (a : at_) : bool :=
  match a with
  | Removing st | Listening st _ | Statting st _ | Unlocking st _ _ | Checking st _ _ | ExitRemoving st _ | ExitUnlocking st => held st
  | _ => false
  end.
Definition file_of (a : at_) : option sock :=
  match a with
  | Statting _ f | Unlocking _ f _ | Serving f _ | Closing f _ | ExitLocking f _ | Checking _ f _ | ExitRemoving _ f => Some f
  | _ => None
  end.

(** The file of a listener that is open: a stop may close it at once. *)
Definition open_file (a : at_) : option sock :=
  match a with Statting _ f | Unlocking _ f _ | Serving f _ => Some f | _ => None end.

(** No daemon's [by_] file has this inode. *)
Definition unused (by_ : at_ -> option sock) (i : nat) (s : fs) : Prop :=
  forall d a f, daemons s !! d = Some a -> by_ a = Some f -> ino f <> i.

Definition lock_allowed (d : nat) (st : lockState) (s : fs) : Prop :=
  match st with lockHeld => lock s = None | lockContended => exists e, lock s = Some e /\ e <> d | lockUnavailable => True end.

(** An inode is given out only if no file has it: neither the path's (a [Listen]
    on a path that exists fails) nor that of an open listener, on the path or
    not. *)
Definition enabled (e : event) (s : fs) : Prop :=
  match e with
  | Start d => daemons s !! d = None
  | Lock d st => (daemons s !! d = Some Locking \/ exists f o, daemons s !! d = Some (ExitLocking f o)) /\ lock_allowed d st s
  | Go d => exists a, daemons s !! d = Some a /\
      match a with Locking | Listening _ _ | Serving _ _ | ExitLocking _ _ | Returned => False | _ => True end
  | Listen d i => (exists st n, daemons s !! d = Some (Listening st n)) /\ path s = None /\ unused open_file i s
  | ListenFails d => exists st n, daemons s !! d = Some (Listening st n)
  | StatFails d => exists st f, daemons s !! d = Some (Statting st f) \/ exists o, daemons s !! d = Some (Checking st f o)
  | Stop d => exists f o, daemons s !! d = Some (Serving f o)
  | Killed d => exists a, daemons s !! d = Some a
  end.

Definition exec (e : event) (s : fs) : fs :=
  match e with
  | Start d => at_d d Locking s
  | Lock d st =>
      match daemons s !! d with
      | Some Locking => at_d d (Removing st) (take_lock d st s)
      | Some (ExitLocking f o) => at_d d (Checking st f o) (take_lock d st s)
      | _ => s
      end
  | Go d => match daemons s !! d with Some a => serve_step d a s | None => s end
  | Listen d i => match daemons s !! d with Some (Listening st n) => at_d d (Statting st (mkSock n i)) (listen n i s) | _ => s end
  | ListenFails d => match daemons s !! d with Some (Listening st _) => at_d d Returned (unlock d st s) | _ => s end
  | StatFails d =>
      match daemons s !! d with
      | Some (Statting st f) => at_d d (Unlocking st f None) s
      | Some (Checking st _ _) => at_d d (ExitUnlocking st) s
      | _ => s
      end
  | Stop d => match daemons s !! d with Some (Serving f o) => at_d d (Closing f o) s | _ => s end
  | Killed d =>
      match daemons s !! d with
      | Some a => at_d d Returned (if holding a then unlock d lockHeld s else s)
      | None => s
      end
  end.

Definition step : fs -> fs -> Prop := steps enabled exec.

Definition initial : fs := mkFs None None 0 ∅.

(** Locking works, and no daemon that starts waits out a stuck one. *)
Definition locks (e : event) (s : fs) : Prop :=
  match e with
  | Lock d st => st = lockHeld \/ st = lockContended /\ daemons s !! d <> Some Locking
  | _ => True
  end.

(** The inode of a closed socket is not given out again while its daemon has yet
    to look at the path. *)
Definition not_reused (e : event) (s : fs) : Prop := match e with Listen _ i => unused file_of i s | _ => True end.

(** ** Requests *)

Definition maxRequestBytes : nat := Z.to_nat (Z.shiftl 4 10).

(** The first line of a request, if it ends within the limit. *)
Definition request_line (input : gostr) : option gostr :=
  i ← IndexByte (take maxRequestBytes input) LF;
  Some (take (S i) input).

Inductive answer := NoAnswer | Snapshot | Text (s : gostr).

(** [handle]: the answer and the level afterwards; [bad] is how a level's error
    is spelled. *)
Definition handle `{Unicode} (bad : gostr -> gostr) (input : gostr) (level : Z) : answer * Z :=
  match request_line input with
  | None => (NoAnswer, level)
  | Some line =>
      match Fields line with
      | [] => (NoAnswer, level)
      | cmd :: args =>
          if beq cmd (bs "status") then (Snapshot, level)
          else if beq cmd (bs "level") then
            match args with
            | [l] =>
                match ParseLevel l with
                | Some lvl => (Text (bs "ok" ++ [LF]), lvl)
                | None => (Text (bs "error: " ++ bad l ++ [LF]), level)
                end
            | _ => (Text (bs "error: usage: level <name>" ++ [LF]), level)
            end
          else (Text (bs "error: unknown command" ++ [LF]), level)
      end
  end.

(** [SetLevel] (the client): what it sends, and whether an answer is success. *)
Definition level_request (level : gostr) : gostr := bs "level " ++ level ++ [LF].
Definition level_set `{Unicode} (a : answer) : bool :=
  match a with Text t => beq (TrimSpace t) (bs "ok") | _ => false end.

(** ** The path's invariant *)

(** Whoever works on the path holds the lock, and [ours] is the file's inode. *)
Definition good (a : at_) : Prop :=
  match a with
  | Removing st | Listening st _ | Statting st _ | Unlocking st _ _ | ExitRemoving st _ => st = lockHeld
  | Checking st _ _ | ExitUnlocking st => st <> lockUnavailable
  | _ => True
  end /\
  match a with
  | Unlocking _ f ours | Serving f ours | Closing f ours | ExitLocking f ours | Checking _ f ours => forall o, ours = Some o -> o = ino f
  | _ => True
  end.

(** What is so of the path where a daemon works on it. *)
Definition now_ok (p : option sock) (n : nat) (a : at_) : Prop :=
  match a with
  | Listening _ m => p = None /\ S m = n
  | Statting _ f | ExitRemoving _ f => p = Some f
  | _ => True
  end.

(** What is so of a daemon's file: it is on the path if no start came after, and
    no other file with its inode is. *)
Definition file_ok (p : option sock) (n : nat) (f : sock) : Prop :=
  (start_of f < n)%nat /\ (S (start_of f) = n -> p = Some f) /\ forall g, p = Some g -> ino g = ino f -> g = f.

Record each (p : option sock) (n : nat) (a : at_) : Prop := {
  e_good : good a;
  e_now : now_ok p n a;
  e_file : forall f, file_of a = Some f -> file_ok p n f;
}.

Record Inv (s : fs) : Prop := {
  i_lock : forall d, lock s = Some d <-> exists a, daemons s !! d = Some a /\ holding a = true;
  i_each : forall d a, daemons s !! d = Some a -> each (path s) (starts s) a;
  i_ino : forall d e a b f g, daemons s !! d = Some a -> daemons s !! e = Some b -> file_of a = Some f -> file_of b = Some g ->
    ino f = ino g -> d = e;
}.

(** Two daemons never hold the lock together. *)
Lemma one_holds s d e a b : Inv s -> daemons s !! d = Some a -> daemons s !! e = Some b -> holding a = true -> holding b = true -> d = e.
Proof.
  intros Hi Hd He Ha Hb. assert (Hl : lock s = Some d) by (apply (i_lock s Hi); eauto).
  assert (lock s = Some e) by (apply (i_lock s Hi); eauto). congruence.
Qed.

(** Whoever does not hold the lock keeps what is so of it when the path changes,
    as long as that is so of its file. *)
Lemma each_other p n p' n' b : holding b = false -> each p n b -> (forall f, file_of b = Some f -> file_ok p n f -> file_ok p' n' f) ->
  each p' n' b.
Proof.
  intros Hh [Hg Hn Hf] Hk. split; [done| |auto]. destruct b; try done; destruct Hg as [-> _]; done.
Qed.

(** A daemon moves to [a'], the path to [p'] and the starts to [n']. *)
Lemma move_ok d a a' p' n' s : Inv s -> daemons s !! d = Some a -> each p' n' a' ->
  (holding a' = true -> holding a = true \/ lock s = None) ->
  p' = path s /\ n' = starts s \/
    holding a = true /\ (forall e b f, e <> d -> daemons s !! e = Some b -> file_of b = Some f -> file_ok (path s) (starts s) f -> file_ok p' n' f) ->
  (forall f, file_of a' = Some f -> file_of a = Some f \/ unused file_of (ino f) s) ->
  Inv (mkFs p' (if holding a' then Some d else if holding a then None else lock s) n' (<[d := a']> (daemons s))).
Proof.
  intros Hi Hd He' Hlock Hp Hf. pose proof Hi as [H1 H2 H3]. split; simpl.
  - intros e. setoid_rewrite lookup_insert. destruct (decide (d = e)) as [<-|Hne].
    + destruct (holding a') eqn:E'; [split; [by eauto|done]|]. split; [|by intros (b & [= <-] & ?); congruence].
      destruct (holding a) eqn:E; [done|]. intros (b & Hb & ?)%H1. congruence.
    + rewrite <- H1.
      assert (Hx : holding a = true -> lock s = Some d) by (intros; apply H1; eauto).
      destruct (holding a') eqn:E'; [|destruct (holding a)]; [split; [congruence|]|split; [done|]; intros; specialize (Hx eq_refl); congruence|done].
      intros Hl. destruct (Hlock eq_refl) as [Ha|Hn]; [specialize (Hx Ha)|]; congruence.
  - intros e b. rewrite lookup_insert. case_decide as Hde; [by intros [= <-]|]. intros He.
    destruct Hp as [[-> ->]|[Ha Hk]]; [by apply (H2 e)|]. apply (each_other (path s) (starts s)); [|by apply (H2 e)|].
    + destruct (holding b) eqn:Eb; [|done]. by destruct Hde; eapply one_holds.
    + intros f Hfb. by apply (Hk e b f).
  - intros e g b c f h. rewrite !lookup_insert. repeat case_decide; try congruence.
    + intros [= <-] Hgc Hfa Hfc Hino. subst e. destruct (Hf f Hfa) as [Hfa'|Hu]; [by eapply (H3 d g a c)|]. by destruct (Hu g c h Hgc Hfc).
    + intros Heb [= <-] Hfb Hfa Hino. subst g. destruct (Hf h Hfa) as [Hfa'|Hu]; [by eapply (H3 e d b a)|]. by destruct (Hu e b f Heb Hfb).
    + apply H3.
Qed.

(** Runs in which locking works, no daemon that starts waits out a stuck one, and
    no inode is used again too early. *)
Definition orderly (e : event) (s : fs) : Prop := enabled e s /\ locks e s /\ not_reused e s.

Lemma start_ok d s : Inv s -> daemons s !! d = None -> Inv (at_d d Locking s).
Proof.
  intros [H1 H2 H3] Hd. split; simpl.
  - intros e. rewrite H1. setoid_rewrite lookup_insert. destruct (decide (d = e)) as [<-|]; [|done].
    rewrite Hd. naive_solver.
  - intros e b. rewrite lookup_insert. case_decide; [by intros [= <-]|apply H2].
  - intros e g b c f h. rewrite !lookup_insert. repeat case_decide; try (intros; simplify_eq; done). apply H3.
Qed.

(** A move that leaves the path alone and the daemon's file, or gives it up. *)
Lemma stay_ok d a a' s : Inv s -> daemons s !! d = Some a -> good a' -> now_ok (path s) (starts s) a' ->
  (holding a' = true -> holding a = true \/ lock s = None) -> file_of a' = file_of a \/ file_of a' = None ->
  Inv (mkFs (path s) (if holding a' then Some d else if holding a then None else lock s) (starts s) (<[d := a']> (daemons s))).
Proof.
  intros Hi Hd Hg Hn Hl Hf. apply (move_ok d a a' _ _ s); auto.
  - split; [done|done|]. intros f Hfa. apply (e_file _ _ _ (i_each s Hi d a Hd)). destruct Hf; congruence.
  - intros f Hfa. left. destruct Hf; congruence.
Qed.

(** The same where it holds the lock before and after, or neither. *)
Lemma keep_ok d a a' s : Inv s -> daemons s !! d = Some a -> good a' -> now_ok (path s) (starts s) a' ->
  holding a' = holding a -> file_of a' = file_of a \/ file_of a' = None -> Inv (at_d d a' s).
Proof.
  intros Hi Hd Hg Hn Hh Hf. pose proof (stay_ok d a a' s Hi Hd Hg Hn) as Hs. rewrite Hh in Hs. unfold at_d.
  assert (Hx : holding a = true -> lock s = Some d) by (intros; apply (i_lock s Hi); eauto).
  destruct (holding a); [rewrite Hx by done|]; auto.
Qed.

Lemma file_ok_cleared p n f : file_ok p n f -> file_ok None (S n) f.
Proof. intros (Hl & _). split_and!; [lia|lia|done]. Qed.

Ltac moves := first [done | by left | by right | by intros; auto | idtac].

Lemma serve_step_ok d a s : Inv s -> daemons s !! d = Some a -> Inv (serve_step d a s).
Proof.
  intros Hi Hd. destruct (i_each s Hi d a Hd) as [[Hg Ho] Hn Hf].
  assert (Hx : holding a = true -> lock s = Some d) by (intros; apply (i_lock s Hi); eauto).
  destruct a as [|st|st m|st f|st f ours|f ours|f ours|f ours|st f ours|st f|st|]; cbn [serve_step]; try done.
  - subst st. unfold at_d, clear. cbn [lock starts path daemons]. rewrite Hx by done.
    apply (move_ok d (Removing lockHeld) (Listening lockHeld _) _ _ s); [done|done|by split|by left| |done].
    right. split; [done|]. intros e b g _ _ _. apply file_ok_cleared.
  - subst st. simpl in Hn. apply (keep_ok d (Statting lockHeld f)); [done|done| |done|done|by left]. split; [done|].
    rewrite Hn. cbn. congruence.
  - subst st. apply (stay_ok d (Unlocking lockHeld f ours) (Serving f ours) s); moves.
  - apply (keep_ok d (Closing f ours)); moves.
  - assert (Hun : Inv (at_d d (ExitUnlocking st) s)) by (apply (keep_ok d (Checking st f ours)); moves).
    destruct st; [|done|done]. destruct (path s) as [cur|] eqn:Ep; [|done]. destruct ours as [o|]; [|done].
    destruct (ino cur =? o)%nat eqn:E; [|done]. b2p. apply (keep_ok d (Checking lockHeld f (Some o))); [done|done|done| |done|by left].
    destruct (Hf f eq_refl) as (_ & _ & Hsame). cbn. rewrite Ep. f_equal. apply Hsame; [done|]. rewrite E. by apply Ho.
  - subst st. simpl in Hn. unfold at_d, remove. cbn [lock starts path daemons]. rewrite Hx by done.
    apply (move_ok d (ExitRemoving lockHeld f) (ExitUnlocking lockHeld) _ _ s); [done|done|by split|by left| |done].
    right. split; [done|]. intros e b g Hne He Hfb (Hl & Hp & _). split_and!; [done| |done]. intros HS. specialize (Hp HS).
    destruct Hne. assert (g = f) as -> by congruence. by eapply (i_ino s Hi e d b).
  - destruct st; [|done|]; cbn [unlock].
    + apply (stay_ok d (ExitUnlocking lockHeld) Returned s); moves.
    + apply (keep_ok d (ExitUnlocking lockContended)); moves.
Qed.

(** A new socket, under the lock, with an inode of its own. *)
Lemma listen_ok d i n s : Inv s -> daemons s !! d = Some (Listening lockHeld n) -> unused file_of i s ->
  Inv (at_d d (Statting lockHeld (mkSock n i)) (listen n i s)).
Proof.
  intros Hi Hd Hu. destruct (i_each s Hi d _ Hd) as [_ [Hp Hm] _]. unfold at_d, listen. cbn [lock starts path daemons].
  assert (lock s = Some d) as -> by (apply (i_lock s Hi); eauto).
  apply (move_ok d (Listening lockHeld n) (Statting lockHeld (mkSock n i)) _ _ s); moves.
  - split; [done|done|]. intros f [= <-]. split_and!; [cbn; lia|done|]. by intros g [= <-].
  - right. split; [done|]. intros e b f _ He Hfb (Hl & Hlast & _). split_and!; [done| |].
    + intros HS. rewrite Hlast in Hp by done. done.
    + intros g [= <-] Hino. cbn in Hino. by destruct (Hu e b f He Hfb).
  - intros f [= <-]. by right.
Qed.

Lemma exec_inv e s : orderly e s -> Inv s -> Inv (exec e s).
Proof.
  intros (He & Hlk & Hre) Hi. destruct e as [d|d st|d|d i|d|d|d|d]; cbn [enabled locks not_reused exec] in *.
  - by apply start_ok.
  - destruct He as [[Hd|(f & o & Hd)] Hal]; rewrite Hd; destruct (i_each s Hi d _ Hd) as [[_ Ho] _ _].
    + destruct Hlk as [->|[_ []]]; [|done]. apply (stay_ok d Locking (Removing lockHeld) s); moves.
    + destruct Hlk as [->|[-> _]]; [apply (stay_ok d (ExitLocking f o) (Checking lockHeld f o) s)|apply (keep_ok d (ExitLocking f o))]; moves.
  - destruct He as (a & Hd & _). rewrite Hd. by apply serve_step_ok.
  - destruct He as ((st & n & Hd) & _). rewrite Hd. destruct (i_each s Hi d _ Hd) as [[Hg _] _ _]. cbn in Hg. subst st. by apply listen_ok.
  - destruct He as (st & n & Hd). rewrite Hd. destruct (i_each s Hi d _ Hd) as [[Hg _] _ _]. cbn in Hg. subst st.
    apply (stay_ok d (Listening lockHeld n) Returned s); moves.
  - destruct He as (st & f & [Hd|(o & Hd)]); rewrite Hd; destruct (i_each s Hi d _ Hd) as [[Hg _] _ _]; cbn in Hg.
    + subst st. apply (keep_ok d (Statting lockHeld f)); moves.
    + apply (keep_ok d (Checking st f o)); moves.
  - destruct He as (f & o & Hd). rewrite Hd. destruct (i_each s Hi d _ Hd) as [[_ Ho] _ _]. apply (keep_ok d (Serving f o)); moves.
  - destruct He as (a & Hd). rewrite Hd. pose proof (stay_ok d a Returned s Hi Hd) as Hs. cbn [holding] in Hs.
    destruct (holding a) eqn:E; (apply Hs || (apply (keep_ok d a); rewrite ?E)); moves.
Qed.

Lemma fs_initial_inv : Inv initial.
Proof. split; [|done|done]. intros d. split; [done|]. by intros (a & ? & _). Qed.

(** [C32] A daemon that exits never takes another's admin socket away.  Every start
    clears the path, whosever socket is there, before it listens; after that, in
    any interleaving of daemons that start, stop, fail to listen or to [Stat], or
    are killed, on one path: no two work on the path at once; the check a daemon
    makes on exit, under the lock, finds its inode on the path exactly if the
    socket there is the one it created, so that the removal that follows removes
    that one; and a daemon's socket stays on the path until it exits, or a later
    start clears the path.  Assumed of these runs: the lock file can be locked,
    no start finds the lock contended for the whole of its wait, and the inode of
    a socket whose listener is closed is not given to a new socket before its
    daemon has made its check. *)
Theorem newest_socket_kept (s : fs) (Hs : rtc (steps orderly exec) initial s) :
  (forall d e a b, daemons s !! d = Some a -> daemons s !! e = Some b -> holding a = true -> holding b = true -> d = e) /\
  (forall d st f o, daemons s !! d = Some (Checking st f (Some o)) -> (exists g, path s = Some g /\ ino g = o) <-> path s = Some f) /\
  (forall d st f, daemons s !! d = Some (ExitRemoving st f) -> path s = Some f) /\
  (forall d a f, daemons s !! d = Some a -> file_of a = Some f -> S (start_of f) = starts s -> path s = Some f).
Proof.
  assert (Hi : Inv s) by (eapply (steps_invariant orderly exec Inv); [apply exec_inv|done|apply fs_initial_inv]).
  split_and!.
  - intros d e a b. by apply one_holds.
  - intros d st f o Hd. destruct (i_each s Hi d _ Hd) as [[_ Ho] _ Hf]. destruct (Hf f eq_refl) as (_ & _ & Hsame).
    rewrite (Ho o eq_refl). split; [|by eauto]. intros (g & Hg & Hino). by rewrite Hg, (Hsame g).
  - intros d st f Hd. by destruct (i_each s Hi d _ Hd).
  - intros d a f Hd Hfa. by apply (e_file _ _ _ (i_each s Hi d a Hd)).
Qed.

Definition unused_in (by_ : at_ -> option sock) (i : nat) (s : fs) : bool :=
  forallb (fun kv => match by_ kv.2 with Some f => negb (ino f =? i)%nat | None => true end) (map_to_list (daemons s)).

Lemma unused_ok by_ i s : unused_in by_ i s = true -> unused by_ i s.
Proof.
  unfold unused_in. rewrite forallb_forall. intros Hu d a f Hd Hf. apply elem_of_map_to_list, list_elem_of_In in Hd.
  specialize (Hu _ Hd). cbn in Hu. rewrite Hf in Hu. by b2p.
Qed.

(** A step of a script can be taken. *)
Ltac takes := cbn [enabled locks not_reused lock_allowed];
  lazymatch goal with
  | |- _ /\ _ => split; takes
  | |- unused _ _ _ => apply unused_ok; vm_compute; reflexivity
  | |- exists _, _ => eexists; takes
  | |- _ \/ _ => first [left; takes | right; takes]
  | |- _ <> _ => vm_compute; discriminate
  | |- _ => first [exact I | vm_compute; reflexivity | vm_compute; exact I]
  end.

(** The conditions are needed.  A daemon that starts although another is stuck on
    the path can lose its socket: the stuck one may remove it after its check. *)
Definition contended : list event :=
  [Start 1; Lock 1 lockHeld; Go 1; Listen 1 0; Go 1; Go 1; Stop 1; Go 1; Lock 1 lockHeld; Go 1;
   Start 2; Lock 2 lockContended; Go 2; Listen 2 1; Go 2; Go 2; Go 1].

(** And a daemon whose socket got the inode of one that an older daemon has closed
    can lose it to that one, although every lock was held: the older one is
    replaced, stops and closes its listener; another daemon starts; then the
    older one compares. *)
Definition reused : list event :=
  [Start 1; Lock 1 lockHeld; Go 1; Listen 1 0; Go 1; Go 1; Start 2; Lock 2 lockHeld; Go 2; Listen 2 1; Go 2; Go 2;
   Stop 1; Go 1; Start 3; Lock 3 lockHeld; Go 3; Listen 3 0; Go 3; Go 3; Lock 1 lockHeld; Go 1; Go 1].

Definition played (l : list event) : fs := foldl (fun s e => exec e s) initial l.

Lemma contended_start_can_lose : rtc step initial (played contended) /\
  daemons (played contended) !! 2%nat = Some (Serving (mkSock 1 1) (Some 1%nat)) /\ path (played contended) = None.
Proof. split; [|split; vm_compute; reflexivity]. apply plays_reach. unfold contended. repeat (split; [takes|]); exact I. Qed.

Lemma reused_inode_can_lose : rtc (steps (fun e s => enabled e s /\ locks e s) exec) initial (played reused) /\
  daemons (played reused) !! 3%nat = Some (Serving (mkSock 2 0) (Some 0%nat)) /\ path (played reused) = None.
Proof. split; [|split; vm_compute; reflexivity]. apply plays_reach. unfold reused. repeat (split; [takes|]); exact I. Qed.

(** ** The log level over the socket *)

Lemma trim_left_suffix p s : exists a, s = a ++ trim_left p s.
Proof.
  induction s as [|c s [a Ha]]; [by exists []|]. cbn [trim_left]. destruct (p c); [exists (c :: a); simpl; congruence|by exists []].
Qed.

Lemma trim_right_prefix p s : exists b, s = trim_right p s ++ b.
Proof.
  unfold trim_right. destruct (trim_left_suffix p (reverse s)) as [a Ha]. exists (reverse a).
  rewrite <- reverse_app, <- Ha. by rewrite reverse_involutive.
Qed.

(** Setting the level over the socket does what it says: for any one-word
    level, the client reports success exactly when the name is a level, and the
    daemon's level is then that level; otherwise the client reports an error and
    the level is unchanged. *)
Theorem admin_level_set `{Unicode} (bad : gostr -> gostr) (x : gostr) (level : Z)
    (Ha : is_ascii x = true) (Hw : Forall (fun c => space_byte c = false) x) (Hne : x <> [])
    (Hlen : (length x + 7 <= maxRequestBytes)%nat) (Hbad : is_ascii (bad x) = true) :
  let '(a, level') := handle bad (level_request x) level in
  level_set a = bool_decide (is_Some (ParseLevel x)) /\ level' = default level (ParseLevel x).
Proof.
  assert (Hline : request_line (level_request x) = Some (level_request x)).
  { unfold request_line, level_request. rewrite take_ge by (rewrite !length_app; simpl; lia).
    assert (Hi : IndexByte (bs "level " ++ x ++ [LF]) LF = Some (6 + length x)%nat).
    { unfold IndexByte. apply index_by_Some. split.
      - exists LF. rewrite !lookup_app_r by (simpl; lia).
        by replace (6 + length x - length (bs "level ") - length x)%nat with 0%nat by (simpl; lia).
      - intros j y Hj. rewrite (app_assoc (bs "level ") x). rewrite lookup_app_l by (rewrite length_app; simpl; lia).
        intros Hy%list_elem_of_lookup_2. apply ceq_false. intros <-. apply elem_of_app in Hy as [Hy|Hy].
        + revert Hy. apply (bool_decide_unpack _). vm_compute. exact I.
        + rewrite Forall_forall in Hw. specialize (Hw _ Hy). by vm_compute in Hw. }
    rewrite Hi. cbn [mbind option_bind]. f_equal. apply take_ge. rewrite !length_app. simpl. lia. }
  unfold handle. rewrite Hline.
  assert (Hfields : Fields (level_request x) = [bs "level"; x]).
  { unfold Fields, level_request. assert (Hasc : is_ascii (bs "level " ++ x ++ [LF]) = true).
    { unfold is_ascii in *. by rewrite !forallb_app, Ha. }
    rewrite Hasc. change (bs "level " ++ x ++ [LF]) with (bs "level" ++ (" "%char :: x ++ [LF])).
    rewrite fields_word by (repeat constructor). change (fields_from ([] ++ bs "level") (" "%char :: ?t)) with (bs "level" :: fields_from [] t).
    rewrite fields_word by done. cbn. by destruct x. }
  rewrite Hfields. change (beq (bs "level") (bs "status")) with false. change (beq (bs "level") (bs "level")) with true. cbn iota.
  destruct (ParseLevel x) as [lvl|]; [done|]. split; [|done]. cbn [level_set].
  rewrite bool_decide_eq_false_2 by (intros [? ?]; done). apply beq_false.
  unfold TrimSpace. assert (Hasc : is_ascii (bs "error: " ++ bad x ++ [LF]) = true).
  { unfold is_ascii in *. by rewrite !forallb_app, Hbad. }
  rewrite Hasc. change (trim_left space_byte (bs "error: " ++ ?t)) with (bs "error: " ++ t).
  destruct (trim_right_prefix space_byte (bs "error: " ++ bad x ++ [LF])) as [b Hb]. intros He. rewrite He in Hb. done.
Qed.

(** ** Witnesses *)

Module AdminWitness.
#[local] Existing Instance ascii_only.

(** A newer daemon replaces the path while an older one drains; then the older
    one exits, up to its check; then it returns. *)
Definition to_check : list event :=
  [Start 1; Lock 1 lockHeld; Go 1; Listen 1 7; Go 1; Go 1; Start 2; Lock 2 lockHeld; Go 2; Listen 2 8; Go 2; Go 2;
   Stop 1; Go 1; Lock 1 lockHeld].

Lemma checking_reached : rtc (steps orderly exec) initial (played to_check).
Proof. apply plays_reach. unfold to_check. repeat (split; [unfold orderly; takes|]); exact I. Qed.
Lemma returned_reached : rtc (steps orderly exec) initial (played (to_check ++ [Go 1; Go 1])).
Proof. apply plays_reach. unfold to_check. cbn [app]. repeat (split; [unfold orderly; takes|]); exact I. Qed.

Lemma newest_socket_kept_witness :
  (daemons (played to_check) !! 1%nat = Some (Checking lockHeld (mkSock 0 7) (Some 7%nat)) /\
   ~ exists g, path (played to_check) = Some g /\ ino g = 7%nat) /\
  daemons (played (to_check ++ [Go 1; Go 1])) !! 1%nat = Some Returned /\
  path (played (to_check ++ [Go 1; Go 1])) = Some (mkSock 1 8).
Proof.
  assert (H1 : daemons (played to_check) !! 1%nat = Some (Checking lockHeld (mkSock 0 7) (Some 7%nat))) by (vm_compute; reflexivity).
  split; [split; [exact H1|]|split; [vm_compute; reflexivity|]].
  - intros Hg. apply (proj1 (proj2 (newest_socket_kept _ checking_reached)) 1%nat lockHeld (mkSock 0 7) 7%nat H1) in Hg.
    vm_compute in Hg. discriminate Hg.
  - apply (proj2 (proj2 (proj2 (newest_socket_kept _ returned_reached))) 2%nat (Serving (mkSock 1 8) (Some 8%nat)) (mkSock 1 8));
      vm_compute; reflexivity.
Defined.

Lemma admin_level_set_witness :
  level_set (handle (fun l => l) (level_request (bs "WARN")) 0).1 = true /\ (handle (fun l => l) (level_request (bs "WARN")) 0).2 = LevelWarn.
Proof.
  assert (Hlen : (length (bs "WARN") + 7 <= maxRequestBytes)%nat) by (apply Nat.leb_le; vm_compute; reflexivity).
  assert (Hw : Forall (fun c => space_byte c = false) (bs "WARN")) by (repeat constructor).
  pose proof (admin_level_set (fun l => l) (bs "WARN") 0 eq_refl Hw ltac:(discriminate) Hlen eq_refl) as Hx.
  destruct (handle (fun l => l) (level_request (bs "WARN")) 0) as [a l]. exact Hx.
Defined.
End AdminWitness.
