(* ===== verification/Daemon.v ===== *)
(** * Running a daemon and finding it ([internal/cli/run.go], [detect.go],
      [detect_linux.go], [status.go], and [internal/metrics/probe.go])

    The metrics port a draining predecessor still holds, the log level on SIGHUP,
    and how [coen status] finds the running daemon and its admin socket. *)

From S2P Require Import Prelude GoStrings Numeral IO Config Obs Metrics Journal.
#[local] Open Scope Z_scope.

(** ** Probing a metrics address *)

Record Holder := mkHolder { h_Role : gostr; h_Draining : bool }.

Definition probeLimit : nat := Z.to_nat (Z.shiftl 1 20).

(** [probeOne]: the answer of one request, [None] when it failed, or a status and
    a body. *)
Definition probeOne `{Unicode} (resp : option (Z * gostr)) : option Holder :=
  match resp with
  | None => None
  | Some (status, body) =>
      let body := take probeLimit body in
      if negb (status =? 200) then None
      else match BuildInfoRole body with
           | None => None
           | Some role => Some (mkHolder role (Draining body))
           end
  end.

(** [Probe]: the answers of the hosts, in the order they come; the first daemon
    found counts. *)
Fixpoint first_found (l : list (option Holder)) : option Holder :=
  match l with [] => None | Some h :: _ => Some h | None :: l => first_found l end.

Definition Probe `{Unicode} `{Net} (addr : gostr) (ask : gostr -> Z -> option (Z * gostr)) : option Holder :=
  match SplitListen addr with
  | Err _ => None
  | Ok (host, port) => first_found (map (fun h => probeOne (ask h port)) (LoopbackHosts host))
  end.

Definition ServesRole (h : option Holder) (role : gostr) : bool := match h with Some h => beq (h_Role h) role | None => false end.

(** [drainingPredecessor] of what the probe found. *)
Definition drainingPredecessor (h : option Holder) (role : gostr) : bool :=
  match h with Some h => beq (h_Role h) role && h_Draining h | None => false end.

(** ** Binding the metrics port *)

Inductive listen_result := Bound | InUse | OtherError.

Inductive binding := MetricsOff | BoundNow | RetryAddr | BindFails.

(** The metrics listener in [runDaemon]. *)
Definition bindMetrics (addr : gostr) (l : listen_result) (h : option Holder) (role : gostr) : binding :=
  if beq addr [] then MetricsOff
  else match l with
       | Bound => BoundNow
       | InUse => if drainingPredecessor h role then RetryAddr else BindFails
       | OtherError => BindFails
       end.

(** What one round of [await] meets: whether the context had ended before the
    tick, the bind, the probe, the second bind, and whether the context has ended
    by then. *)
Record await_round := mkRound {
  aw_stop : bool;
  aw_listen : listen_result;
  aw_probe : option Holder;
  aw_again : listen_result;
  aw_stop2 : bool;
}.

Inductive awaited := Waiting | Listener | NoMetrics.

(** [await] without a listener yet; [Waiting] is a loop that has not ended. *)
Fixpoint await (role : gostr) (rounds : list await_round) : awaited :=
  match rounds with
  | [] => Waiting
  | r :: rounds =>
      if aw_stop r then NoMetrics
      else match aw_listen r with
           | Bound => Listener
           | l =>
               if match l with InUse => drainingPredecessor (aw_probe r) role | _ => false end then await role rounds
               else match aw_again r with Bound => Listener | _ => NoMetrics end
           end
  end.

(** [SIGHUP] without a replacer in [serveDaemon]; [level] is what the
    configuration file says now. *)
Definition on_hup `{Unicode} (level : option gostr) (current : Z) : Z :=
  match level with
  | None => current
  | Some s => match ParseLevel s with Some l => l | None => current end
  end.

(** ** Finding the daemon *)

Record daemon := mkDaemon { d_pid : Z; d_role : gostr; d_config : gostr }.

Definition slash : ascii := "/"%char.

(** [filepath.Base] *)
Definition Base (s : gostr) : gostr :=
  match s with
  | [] => bs "."
  | _ =>
      let s := trim_right (ceq slash) s in
      let s := match LastIndexByte s slash with Some i => drop (S i) s | None => s end in
      match s with [] => [slash] | _ => s end
  end.

(** [filepath.Join] of the configuration directory and a file name. *)
Definition default_config (role : gostr) : gostr := bs "/etc/coen/" ++ role ++ bs ".yaml".

Fixpoint configFromArgs (args : list gostr) (role : gostr) : gostr :=
  match args with
  | [] => default_config role
  | a :: rest =>
      match (if beq a (bs "--config") then head rest else None) with
      | Some c => c
      | None => match CutPrefix a (bs "--config=") with Some c => c | None => configFromArgs rest role end
      end
  end.

Definition parseDaemon (pid : Z) (argv : list gostr) : option daemon :=
  match argv with
  | exe :: role :: args =>
      if negb (beq (Base exe) (bs "coen")) then None
      else if negb (beq role (bs "edge")) && negb (beq role (bs "agent")) then None
      else Some (mkDaemon pid role (configFromArgs args role))
  | _ => None
  end.

Definition NUL : ascii := byte 0.

Definition splitNUL (b : gostr) : list gostr := List.filter (fun p => negb (beq p [])) (Split b [NUL]).

(** An entry of [/proc]: its name, its command line and where its executable
    link points, when they can be read. *)
Record proc_entry := mkProc { p_name : gostr; p_cmdline : option gostr; p_exe : option gostr }.

Definition proc_daemon (e : proc_entry) : option daemon :=
  pid ← Atoi (p_name e);
  raw ← p_cmdline e;
  match splitNUL raw with
  | [] => None
  | a0 :: args => parseDaemon pid (default a0 (p_exe e) :: args)
  end.

(** [enumerateDaemons] on Linux. *)
Definition enumerateDaemons (entries : list proc_entry) : list daemon := omap proc_daemon entries.

(** [enumerateDaemons] on macOS: the lines of [ps]. *)
Definition ps_daemon `{Unicode} (line : gostr) : option daemon :=
  match Fields line with
  | f0 :: (_ :: _) as args => pid ← Atoi f0; parseDaemon pid args
  | _ => None
  end.

Definition enumerateDaemons_darwin `{Unicode} (out : gostr) : list daemon := omap ps_daemon (Split out [LF]).

Inductive detect_error := errNoDaemon | BothRoles.

Definition detectRole (ds : list daemon) : result detect_error (gostr * gostr) :=
  let byRole := foldl (fun m d => <[d_role d := d]> m) (∅ : gmap gostr daemon) ds in
  match map_to_list byRole with
  | [] => Err errNoDaemon
  | [(_, d)] => Ok (d_role d, d_config d)
  | _ => Err BothRoles
  end.

(** ** The socket of [coen status] *)

Inductive status_error := NoneRunning | Ambiguous | BadRole (r : gostr) | LoadFails | NoSocket.

(** [resolveStatusSocket]; [socketOf] is what a role's configuration file names
    as its admin socket, [None] when it cannot be read. *)
Definition adminSocketFromConfig (socketOf : gostr -> gostr -> option gostr) (role path : gostr) : result status_error gostr :=
  if beq role (bs "edge") || beq role (bs "agent") then
    match socketOf role path with
    | None => Err LoadFails
    | Some s => if beq s [] then Err NoSocket else Ok s
    end
  else Err (BadRole role).

Definition resolveStatusSocket (socketOf : gostr -> gostr -> option gostr) (role cfgPath : gostr) (ds : list daemon)
    : result status_error gostr :=
  let? (role, cfgPath) :=
    if beq role [] then
      match detectRole ds with
      | Err errNoDaemon => Err NoneRunning
      | Err BothRoles => Err Ambiguous
      | Ok (r, c) => Ok (r, if beq cfgPath [] then c else cfgPath)
      end
    else Ok (role, cfgPath) in
  adminSocketFromConfig socketOf role (if beq cfgPath [] then default_config role else cfgPath).

(** ** Facts *)

Lemma trim_right_none p s c : p c = false -> trim_right p (s ++ [c]) = s ++ [c].
Proof.
  intros Hc. unfold trim_right. rewrite reverse_snoc. cbn [trim_left]. by rewrite Hc, reverse_cons, reverse_involutive.
Qed.

Lemma Base_of dir name c : slash ∉ name -> slash <> c -> Base (dir ++ bs "/" ++ name ++ [c]) = name ++ [c].
Proof.
  intros Hn Hc. assert (Hne : dir ++ bs "/" ++ name ++ [c] <> []) by (by destruct dir).
  unfold Base. destruct (dir ++ bs "/" ++ name ++ [c]) as [|x t] eqn:E; [done|]. rewrite <- E. clear E Hne x t.
  rewrite !(app_assoc _ _ [c]). rewrite trim_right_none by (by apply ceq_false). rewrite <- !app_assoc.
  change (dir ++ bs "/" ++ name ++ [c]) with (dir ++ slash :: (name ++ [c])). rewrite LastIndexByte_app.
  - rewrite drop_app_ge by lia. replace (S (length dir) - length dir)%nat with 1%nat by lia.
    change (drop 1 (slash :: ?t)) with t. by destruct name.
  - rewrite elem_of_app, list_elem_of_singleton. naive_solver.
Qed.

(** The command line of a process as the kernel shows it. *)
Definition cmdline (argv : list gostr) : gostr := concat (map (fun a => a ++ [NUL]) argv).

Lemma splitNUL_cmdline argv : Forall (fun a => a <> [] /\ NUL ∉ a) argv -> splitNUL (cmdline argv) = argv.
Proof.
  intros Ha. assert (Hj : cmdline argv = Join (argv ++ [[]]) [NUL]).
  { clear Ha. unfold cmdline. induction argv as [|a argv IH]; [done|]. cbn [map concat app Join]. rewrite IH.
    destruct argv; cbn [app]; by rewrite <- app_assoc. }
  unfold splitNUL. rewrite Hj. assert (Hs : Split (Join (argv ++ [[]]) [NUL]) [NUL] = argv ++ [[]]).
  { destruct argv as [|a argv]; [done|]. cbn [app]. apply Split_byte. change (a :: argv ++ [[]]) with ((a :: argv) ++ [[]]).
    apply Forall_app. split; [|repeat constructor; set_solver]. eapply Forall_impl; [exact Ha|]. by intros x [_ ?]. }
  rewrite Hs, List.filter_app. cbn. rewrite app_nil_r. clear Hj Hs. induction Ha as [|a argv [Hne _] Ha IH]; [done|]. cbn [List.filter].
  rewrite (proj2 (beq_false a []) Hne). cbn [negb]. by rewrite IH.
Qed.

(** ** Properties *)

(** What a probe finds at a daemon's own metrics endpoint. *)
Lemma probe_own `{Unicode} `{FloatFormat} d version : s_Role (d_Snapshot d) = edge_role \/ s_Role (d_Snapshot d) = agent_role ->
  (length (Encode (Collect d version)) <= probeLimit)%nat ->
  probeOne (Some (200, Encode (Collect d version))) = Some (mkHolder (s_Role (d_Snapshot d)) (d_Draining d)).
Proof.
  intros Hr Hl. unfold probeOne. rewrite take_ge by done. destruct (encode_reads_back d version Hr) as [-> ->]. done.
Qed.

(** A restarted daemon gets its metrics port from the instance it replaces,
    and from nobody else: when the port is held by a draining daemon of its role,
    whose metrics page the probe reads, it starts and waits, for as many rounds
    as that daemon drains, and takes the port when it is free; when the holder is
    not draining, or of the other role, or not a daemon at all, the start
    fails. *)
Theorem metrics_port_passed_on `{Unicode} `{FloatFormat} (addr : gostr) (d : Detail) (version : gostr) (k : nat)
    (again : listen_result) (stop2 : bool)
    (Haddr : addr <> []) (Hrole : s_Role (d_Snapshot d) = edge_role \/ s_Role (d_Snapshot d) = agent_role)
    (Hlen : (length (Encode (Collect d version)) <= probeLimit)%nat) :
  let h := probeOne (Some (200, Encode (Collect d version))) in
  let held := mkRound false InUse h again stop2 in
  let free := mkRound false Bound None again stop2 in
  forall role,
    (bindMetrics addr InUse h role = RetryAddr <-> role = s_Role (d_Snapshot d) /\ d_Draining d = true) /\
    (bindMetrics addr InUse h role = RetryAddr -> await role (repeat held k ++ [free]) = Listener) /\
    bindMetrics addr InUse None role = BindFails.
Proof.
  intros h held free role. unfold bindMetrics. rewrite (proj2 (beq_false addr []) Haddr). unfold held, h in *.
  rewrite (probe_own d version Hrole Hlen). cbn [drainingPredecessor h_Role h_Draining].
  assert (Hdec : (beq (s_Role (d_Snapshot d)) role && d_Draining d = true <-> role = s_Role (d_Snapshot d) /\ d_Draining d = true)).
  { rewrite andb_true_iff, beq_true. clear. split; intros [E Hd]; by rewrite E. }
  split_and!; [|intros Hb; induction k as [|k IH]; cbn [repeat app await aw_stop aw_listen aw_probe]; [done|]|done].
  - rewrite <- Hdec. by destruct (beq _ _ && _).
  - cbn [drainingPredecessor h_Role h_Draining]. destruct (beq _ _ && _); [by apply IH|done].
Qed.

Lemma enumerate_one before e after d : Forall (fun x => proc_daemon x = None) (before ++ after) -> proc_daemon e = Some d ->
  enumerateDaemons (before ++ e :: after) = [d].
Proof.
  intros [Hb Ha]%Forall_app He. unfold enumerateDaemons. rewrite omap_app. cbn [omap list_omap]. rewrite He.
  assert (Hnil : forall l, Forall (fun x => proc_daemon x = None) l -> omap proc_daemon l = []).
  { induction 1 as [|x l Hx Hl IH]; [done|]. cbn. by rewrite Hx. }
  by rewrite (Hnil _ Hb), Hnil.
Qed.

(** The status command finds the running daemon: when one process of the
    host runs an executable named coen as an edge or agent with a configuration
    file, detection gives its role and that file, whatever else runs, and the
    admin socket asked is the one that file names. *)
Theorem running_daemon_found (socketOf : gostr -> gostr -> option gostr) (pid : Z) (dir a0 role cfg : gostr) (before after : list proc_entry)
    (Hpid : 0 <= pid < 2 ^ 63) (Hrole : role = bs "edge" \/ role = bs "agent")
    (Hargs : Forall (fun a => a <> [] /\ NUL ∉ a) [a0; cfg])
    (Hothers : Forall (fun x => proc_daemon x = None) (before ++ after)) :
  let e := mkProc (Itoa pid) (Some (cmdline [a0; role; bs "--config"; cfg])) (Some (dir ++ bs "/coen")) in
  detectRole (enumerateDaemons (before ++ e :: after)) = Ok (role, cfg) /\
  resolveStatusSocket socketOf [] [] (enumerateDaemons (before ++ e :: after)) = adminSocketFromConfig socketOf role cfg.
Proof.
  intros e. apply Forall_cons in Hargs as [Ha0 [Hcfg _]%Forall_cons].
  assert (Hd : proc_daemon e = Some (mkDaemon pid role cfg)).
  { unfold proc_daemon, e. cbn [p_name p_cmdline p_exe]. rewrite Atoi_Itoa by lia. cbn [mbind option_bind].
    rewrite splitNUL_cmdline.
    - assert (Hb : Base (dir ++ bs "/coen") = bs "coen") by (apply (Base_of dir (bs "coe") "n"%char); [apply (bool_decide_unpack _); by vm_compute|done]).
      change (default a0 (Some ?x)) with x. unfold parseDaemon. rewrite Hb. by destruct Hrole as [-> | ->].
    - repeat constructor; try (by destruct Ha0); try (by destruct Hcfg); try done;
        destruct Hrole as [-> | ->]; try done; apply (bool_decide_unpack _); by vm_compute. }
  rewrite (enumerate_one _ _ _ _ Hothers Hd).
  assert (Hdet : detectRole [mkDaemon pid role cfg] = Ok (role, cfg)).
  { unfold detectRole. cbn [foldl d_role]. by rewrite insert_empty, map_to_list_singleton. }
  split; [done|]. unfold resolveStatusSocket. change (beq [] []) with true. cbn iota. rewrite Hdet.
  cbn [rbind]. by rewrite (proj2 (beq_false cfg []) (proj1 Hcfg)).
Qed.

(** A field of text: not empty, of ASCII bytes, none a space. *)
Definition plain_field (a : gostr) : Prop := a <> [] /\ is_ascii a = true /\ Forall (fun c => space_byte c = false) a.

Lemma fields_spaced l : Forall plain_field l -> forall pad, Forall (fun c => space_byte c = true) pad ->
  fields_from [] (pad ++ Join l (bs " ")) = l.
Proof.
  intros Hl pad Hp. induction Hp as [|c pad Hc _ IH]; [|cbn [app fields_from]; by rewrite Hc]. cbn [app].
  induction Hl as [|a l (Hne & _ & Ha) Hl IH]; [done|]. destruct l as [|b l].
  - cbn [Join]. rewrite <- (app_nil_r a) at 1. rewrite fields_word by done. by destruct a.
  - change (Join (a :: b :: l) (bs " ")) with (a ++ " "%char :: Join (b :: l) (bs " ")). rewrite fields_word by done.
    cbn [fields_from app]. change (space_byte " "%char) with true. cbn iota. rewrite IH. by destruct a.
Qed.

(** Both systems find the same daemon: what [ps] prints of a process whose
    arguments hold no spaces is read as its entry in [/proc] is. *)
Theorem same_daemon `{Unicode} (pid : Z) (pad a0 : gostr) (args : list gostr)
    (Hpid : 0 <= pid < 2 ^ 63) (Hpad : Forall (fun c => c = " "%char) pad)
    (Hargs : Forall (fun a => plain_field a /\ NUL ∉ a) (a0 :: args)) :
  ps_daemon (pad ++ Join (Itoa pid :: a0 :: args) (bs " ")) = proc_daemon (mkProc (Itoa pid) (Some (cmdline (a0 :: args))) None).
Proof.
  assert (Hdig : Forall (fun c => ascii_byte c = true /\ space_byte c = false) (Itoa pid)).
  { pose proof (parse_Itoa pid (proj1 Hpid)) as Hp. unfold parse_number in Hp. destruct (Itoa pid) as [|c t] eqn:E; [done|]. rewrite <- E in *.
    apply digits_chars in Hp. eapply Forall_impl; [exact Hp|]. intros x. by destruct x as [[] [] [] [] [] [] [] []]; vm_compute. }
  assert (Hid : plain_field (Itoa pid)).
  { split_and!; [intros E; pose proof (Atoi_Itoa pid Hpid) as Ha; by rewrite E in Ha| |eapply Forall_impl; [exact Hdig|by intros ? []]].
    apply forallb_forall. intros x Hx. rewrite Forall_forall in Hdig. by apply Hdig, list_elem_of_In. }
  assert (Hall : Forall plain_field (Itoa pid :: a0 :: args)) by (constructor; [done|]; eapply Forall_impl; [exact Hargs|by intros ? []]).
  assert (Hasc : is_ascii (pad ++ Join (Itoa pid :: a0 :: args) (bs " ")) = true).
  { unfold is_ascii. rewrite forallb_app. apply andb_true_iff. split.
    - apply forallb_forall. intros x Hx%list_elem_of_In. rewrite Forall_forall in Hpad. by rewrite (Hpad x Hx).
    - clear -Hall. induction Hall as [|a l (_ & Ha & _) Hl IH]; [done|]. destruct l as [|b l]; [done|].
      change (Join (a :: b :: l) (bs " ")) with (a ++ " "%char :: Join (b :: l) (bs " ")). rewrite forallb_app. cbn [forallb].
      unfold is_ascii in Ha. by rewrite Ha, IH. }
  unfold ps_daemon, Fields. rewrite Hasc, fields_spaced; [|done|eapply Forall_impl; [exact Hpad|by intros ? ->]].
  unfold proc_daemon. cbn [p_name p_cmdline p_exe]. destruct (Atoi (Itoa pid)); [|done]. cbn [mbind option_bind].
  rewrite splitNUL_cmdline; [done|]. eapply Forall_impl; [exact Hargs|]. by intros ? [[]].
Qed.

(** A daemon whose binary was replaced on disk is not found: the kernel then
    shows its executable with a suffix. *)
Lemma upgraded_daemon_not_found pid dir a0 role cfg :
  proc_daemon (mkProc (Itoa pid) (Some (cmdline [a0; role; bs "--config"; cfg])) (Some (dir ++ bs "/coen (deleted)"))) = None.
Proof.
  unfold proc_daemon. cbn [p_name p_cmdline p_exe]. destruct (Atoi (Itoa pid)); [|done]. cbn [mbind option_bind].
  destruct (splitNUL _) as [|x args]; [done|]. change (default x (Some ?y)) with y. unfold parseDaemon. destruct args as [|y args]; [done|].
  assert (Hb : Base (dir ++ bs "/coen (deleted)") = bs "coen (deleted)")
    by (apply (Base_of dir (bs "coen (deleted") ")"%char); [apply (bool_decide_unpack _); by vm_compute|done]).
  by rewrite Hb.
Qed.

(** ** Witnesses *)

Module DaemonWitness.
#[local] Existing Instance ascii_only.
#[local] Existing Instance MetricsWitness.plain_format.

Lemma metrics_port_passed_on_witness :
  bindMetrics (bs ":9464") InUse (probeOne (Some (200, Encode (Collect MetricsWitness.shown [])))) (bs "edge") = RetryAddr.
Proof.
  assert (Hlen : (length (Encode (Collect MetricsWitness.shown [])) <= probeLimit)%nat).
  { unfold probeLimit. rewrite <- (Nat2Z.id (length _)). apply Z2Nat.inj_le; [lia|done|]. vm_compute. discriminate. }
  apply (metrics_port_passed_on (bs ":9464") MetricsWitness.shown [] 0 Bound false ltac:(discriminate) (or_introl eq_refl) Hlen (bs "edge")).
  split; reflexivity.
Defined.

Lemma running_daemon_found_witness :
  detectRole (enumerateDaemons [mkProc (bs "sys") None None; mkProc (bs "12") (Some (bs "vi")) None;
    mkProc (Itoa 42) (Some (cmdline [bs "coen"; bs "agent"; bs "--config"; bs "/tmp/a.yaml"])) (Some (bs "/usr/bin" ++ bs "/coen"))])
  = Ok (bs "agent", bs "/tmp/a.yaml").
Proof.
  apply (running_daemon_found (fun _ _ => None) 42 (bs "/usr/bin") (bs "coen") (bs "agent") (bs "/tmp/a.yaml")
    [mkProc (bs "sys") None None; mkProc (bs "12") (Some (bs "vi")) None] []).
  - lia.
  - right. reflexivity.
  - repeat constructor; try discriminate; apply (bool_decide_unpack _); vm_compute; exact I.
  - repeat constructor; vm_compute; reflexivity.
Defined.
End DaemonWitness.
