(* ===== verification/Proxy.v ===== *)
(** * Pipes and proxies ([internal/proxy/proxy.go], [internal/proxy/conn.go],
    [internal/netx/connect.go])

    The bytes between two connections: the connection that gives back bytes
    already read ([WithPrefix]), the pipe that copies in both directions until
    one ends ([PipeProgress], with [io.Copy] round by round), and the CONNECT
    exchange with an HTTP proxy on the way to the edge ([connect], [Dial]). *)

From S2P Require Import Prelude GoStrings Numeral IO Config Http1 H3Body Pki.
#[local] Open Scope Z_scope.
Import Http11.

(** ** [PrefixConn] *)

(** The readers of the [io.MultiReader] that are left: the prefix, and the
    connection. *)
Record PrefixConn := mkPrefixConn { pf_left : option gostr; pf_conn : option script }.

Definition WithPrefix (c : script) (prefix : gostr) : PrefixConn := mkPrefixConn (Some prefix) (Some c).

(** [multiReader.Read] once the connection is its first reader: an [EOF] drops
    it, and is returned, as it was the last. *)
Definition read_conn (cap : nat) (conn : option script) : option (gostr * option error * option script) :=
  match conn with
  | None => Some ([], Some [EOF], None)
  | Some s =>
      '(c, e, s) ← Read cap s;
      match e with
      | Some err => if error_eq err EOF then Some (c, Some [EOF], None) else Some (c, e, Some s)
      | None => Some (c, None, Some s)
      end
  end.

(** A [bytes.Reader] with bytes left never fails; one without is at its end and
    is dropped. *)
Definition prefix_read (cap : nat) (p : PrefixConn) : option (gostr * option error * PrefixConn) :=
  match pf_left p with
  | Some ((_ :: _) as l) => Some (take cap l, None, mkPrefixConn (Some (drop cap l)) (pf_conn p))
  | _ => '(c, e, conn) ← read_conn cap (pf_conn p); Some (c, e, mkPrefixConn None conn)
  end.

(** ** [IdleConn] *)

(** [bump]: the deadline set at [now], if any. *)
Definition bump (idle now : Z) (deadline : option Z) : option Z := if 0 <? idle then Some (now + idle) else deadline.

(** ** [io.Copy] *)

Definition copyBuffer : nat := Z.to_nat (Z.shiftl 32 10).

(** One direction: what its source will deliver, what was written, the count
    [io.Copy] keeps, the counts reported, and, once it has returned, its
    error. *)
Record half := mkHalf {
  src : script;
  written : gostr;
  count : Z;
  reports : list Z;
  ended : option (option error);
}.

(** [progressWriter.Write] of [n] bytes. *)
Definition report (n : Z) (l : list Z) : list Z := if 0 <? n then l ++ [n] else l.

(** The end of a round: an error of the read ends the copy, [EOF] without one. *)
Definition after_round (er : option error) : option (option error) :=
  match er with
  | None => None
  | Some e => Some (if error_eq e EOF then None else Some e)
  end.

(** A round: read, write what was read ([w] is what the write returns), and go
    on or stop. *)
Definition copy_round (w : Z * option error) (h : half) : option half :=
  '(c, er, s) ← Read copyBuffer (src h);
  match c with
  | [] => Some (mkHalf s (written h) (count h) (reports h) (after_round er))
  | _ =>
      let nr := Z.of_nat (length c) in
      let '(nw, ew) := w in
      let wr := written h ++ take (Z.to_nat nw) c in
      let rp := report nw (reports h) in
      let bad := (nw <? 0) || (nr <? nw) in
      let ew := match ew with None => if bad then Some [OtherError 0] else None | _ => ew end in
      let nw := if bad then 0 else nw in
      let cnt := count h + nw in
      Some (mkHalf s wr cnt rp
              (match ew with
               | Some _ => Some ew
               | None => if negb (nr =? nw) then Some (Some [ErrShortWrite]) else after_round er
               end))
  end.

(** A read on a connection that was closed meanwhile. *)
Definition copy_closed (e : error) (h : half) : half :=
  mkHalf (src h) (written h) (count h) (reports h) (after_round (Some e)).

(** ** [PipeProgress] *)

Inductive dir := AToB | BToA.
#[export] Instance dir_eq_dec : EqDecision dir.
Proof. solve_decision. Defined.

(** Where the caller is: waiting for the first end, closing [a], closing [b],
    waiting for the second, returned. *)
Inductive main :=
| First
| CloseA (e1 : option error)
| CloseB (e1 : option error)
| Second (e1 : option error)
| Returned (aToB bToA : Z) (err : option error).

Record pipe := mkPipe { ab : half; ba : half; errc : list (option error); at_ : main }.

Definition half_of (d : dir) (p : pipe) : half := match d with AToB => ab p | BToA => ba p end.
Definition set_half (d : dir) (h : half) (p : pipe) : pipe :=
  match d with
  | AToB => mkPipe h (ba p) (errc p) (at_ p)
  | BToA => mkPipe (ab p) h (errc p) (at_ p)
  end.

(** A goroutine whose copy has returned sends its error. *)
Definition send_end (d : dir) (p : pipe) : pipe :=
  match ended (half_of d p) with
  | Some e => mkPipe (ab p) (ba p) (errc p ++ [e]) (at_ p)
  | None => p
  end.

(** The errors a pipe is expected to end in. *)
Definition quiet (e : error) : bool := errors_is e EOF || errors_is e ErrClosed || errors_is e ErrClosedPipe.

(** The error returned: the first that is not expected. *)
Definition pipe_error (e1 e2 : option error) : option error :=
  match e1 with
  | Some e => if quiet e then match e2 with Some f => if quiet f then None else e2 | None => None end else e1
  | None => match e2 with Some f => if quiet f then None else e2 | None => None end
  end.

Definition main_step (p : pipe) : pipe :=
  match at_ p, errc p with
  | First, e :: q => mkPipe (ab p) (ba p) q (CloseA e)
  | CloseA e1, q => mkPipe (ab p) (ba p) q (CloseB e1)
  | CloseB e1, q => mkPipe (ab p) (ba p) q (Second e1)
  | Second e1, e2 :: q => mkPipe (ab p) (ba p) q (Returned (count (ab p)) (count (ba p)) (pipe_error e1 e2))
  | _, _ => p
  end.

(** Whether the source of a direction is closed. *)
Definition src_closed (d : dir) (p : pipe) : bool :=
  match at_ p, d with
  | Second _, _ | Returned _ _ _, _ => true
  | CloseB _, AToB => true
  | _, _ => false
  end.

Inductive event := Round (d : dir) (w : Z * option error) | OnClosed (d : dir) (e : error) | Main.

(** What an [io.Writer] promises: as many bytes as it says, and an error if they
    are fewer than it was given. *)
Definition write_ok (w : Z * option error) (given : Z) : Prop := 0 <= w.1 <= given /\ (w.1 < given -> w.2 <> None).

Definition enabled (ev : event) (p : pipe) : Prop :=
  match ev with
  | Round d w => ended (half_of d p) = None /\
      match Read copyBuffer (src (half_of d p)) with
      | Some (c, _, _) => write_ok w (Z.of_nat (length c))
      | None => False
      end
  | OnClosed d _ => ended (half_of d p) = None /\ src_closed d p = true
  | Main => match at_ p with First | Second _ => errc p <> [] | CloseA _ | CloseB _ => True | Returned _ _ _ => False end
  end.

Definition exec (ev : event) (p : pipe) : pipe :=
  match ev with
  | Round d w =>
      match copy_round w (half_of d p) with
      | Some h => send_end d (set_half d h p)
      | None => p
      end
  | OnClosed d e => send_end d (set_half d (copy_closed e (half_of d p)) p)
  | Main => main_step p
  end.

Definition step : pipe -> pipe -> Prop := steps enabled exec.

Definition new_half (s : script) : half := mkHalf s [] 0 [] None.
Definition initial (a b : script) : pipe := mkPipe (new_half a) (new_half b) [] First.

(** ** [connect] *)

(** The proxy's URL: [url.URL.Host] and the user information beside the parts
    the configuration looks at. *)
Record proxy_url := mkProxyURL { pu : URL; pu_Host : gostr; pu_User : option (gostr * gostr) }.

Definition connect_request (addr : gostr) (via : proxy_url) : gostr :=
  bs "CONNECT " ++ addr ++ bs " HTTP/1.1" ++ CRLF ++ bs "Host: " ++ addr ++ CRLF ++
  match pu_User via with
  | Some (user, pass) => bs "Proxy-Authorization: Basic " ++ EncodeToString (user ++ bs ":" ++ pass) ++ CRLF
  | None => []
  end ++ CRLF.

Inductive connect_error :=
| SendConnect (e : error)
| ReadAnswer (e : error)
| ErrProxyAuth
| ConnectRefused (code : Z).

(** The connection as the answer was read from it: what [http.ReadResponse]
    returned (the status code), the bytes the buffered reader took in beyond the
    head, and the connection after them. *)
Record answered := mkAnswered { an_status : result error Z; an_buffered : gostr; an_rest : script }.

(** What [connect] returns: the connection itself, or one with a prefix. *)
Inductive tunnel_conn := Plain (s : script) | Prefixed (p : PrefixConn).

Definition connect (write_err : option error) (a : answered) : result connect_error tunnel_conn :=
  match write_err with
  | Some e => Err (SendConnect e)
  | None =>
      match an_status a with
      | Err e => Err (ReadAnswer e)
      | Ok code =>
          if negb (code / 100 =? 2) then if code =? 407 then Err ErrProxyAuth else Err (ConnectRefused code)
          else if (0 <? length (an_buffered a))%nat then Ok (Prefixed (WithPrefix (an_rest a) (an_buffered a)))
          else Ok (Plain (an_rest a))
      end
  end.

Definition tunnel_read (cap : nat) (t : tunnel_conn) : option (gostr * option error * tunnel_conn) :=
  match t with
  | Plain s => '(c, e, s) ← Read cap s; Some (c, e, Plain s)
  | Prefixed p => '(c, e, p) ← prefix_read cap p; Some (c, e, Prefixed p)
  end.

(** *** The buffered reader *)

(** Where a response head ends: after its first empty line. *)
Fixpoint head_length (start : bool) (s : gostr) : option nat :=
  match s with
  | [] => None
  | c :: s =>
      if ceq c LF then if start then Some 1%nat else S <$> head_length true s
      else if start && ceq c CR && (match s with d :: _ => ceq d LF | [] => false end) then Some 2%nat
      else S <$> head_length false s
  end.

(** The reader takes in arrivals until a head is there (the status line is never
    empty, so the search starts inside a line); [parse] is what [http.ReadResponse]
    makes of the head. A failed connection fails again, so an error that came
    with bytes is met again after them. *)
Fixpoint read_answer (parse : gostr -> result error Z) (caps : list nat) (got : gostr) (s : script) : option answered :=
  match head_length false got with
  | Some n => Some (mkAnswered (parse (take n got)) (drop n got) s)
  | None =>
      match caps with
      | [] => None
      | cap :: caps =>
          '(c, e, s) ← Read cap s;
          match e with
          | None => read_answer parse caps (got ++ c) s
          | Some err =>
              match head_length false (got ++ c) with
              | Some n => Some (mkAnswered (parse (take n (got ++ c))) (drop n (got ++ c)) (([], Some err) :: s))
              | None => Some (mkAnswered (Err (if error_eq err EOF then [ErrUnexpectedEOF] else err)) [] s)
              end
          end
      end
  end.

(** ** [Dial] *)

Definition proxyAddr (via : proxy_url) : gostr :=
  if beq (u_Port (pu via)) []
  then JoinHostPort (Hostname (pu via)) (if beq (Scheme (pu via)) (bs "https") then bs "443" else bs "80")
  else pu_Host via.

Inductive dial_error :=
| DialFailed (e : error)
| DialProxy (addr : gostr) (e : error)
| ProxyTLS (addr : gostr) (e : error)
| NoConnectAnswer (addr : gostr)
| DialCancelled
| ProxyRefused (addr : gostr) (e : connect_error).

(** What the network does: the dial, TLS to the proxy, the exchange, and whether
    the context had ended when it was over ([Some true]: at its deadline). *)
Record dial_env := mkDialEnv {
  de_dial : gostr -> result error script;
  de_tls : option error;
  de_connect : script -> result connect_error tunnel_conn;
  de_ended : option bool;
}.

(** The address dialled, whether the connection was closed again, and the
    result. *)
Definition Dial (addr : gostr) (via : option proxy_url) (e : dial_env) : gostr * bool * result dial_error tunnel_conn :=
  match via with
  | None => (addr, false, match de_dial e addr with Ok s => Ok (Plain s) | Err err => Err (DialFailed err) end)
  | Some u =>
      let pa := proxyAddr u in
      match de_dial e pa with
      | Err err => (pa, false, Err (DialProxy pa err))
      | Ok s =>
          match (if beq (Scheme (pu u)) (bs "https") then de_tls e else None) with
          | Some err => (pa, true, Err (ProxyTLS pa err))
          | None =>
              match de_ended e with
              | Some late => (pa, true, Err (if late then NoConnectAnswer pa else DialCancelled))
              | None =>
                  match de_connect e s with
                  | Err err => (pa, true, Err (ProxyRefused pa err))
                  | Ok t => (pa, false, Ok t)
                  end
              end
          end
      end
  end.

(** ** Facts *)

(** *** Prefixed connections *)

(** The script a prefixed connection reads like. *)
Definition prefix_script (p : PrefixConn) : script :=
  (match pf_left p with Some ((_ :: _) as l) => [(l, None)] | _ => [] end) ++
  (match pf_conn p with Some s => s | None => [([], Some [EOF])] end).

Definition tunnel_script (t : tunnel_conn) : script :=
  match t with Plain s => s | Prefixed p => prefix_script p end.

Lemma prefix_read_sim cap p :
  match prefix_read cap p, Read cap (prefix_script p) with
  | Some (c, e, p'), Some (c', e', s') => c = c' /\ e = e' /\ (e = None -> prefix_script p' = s')
  | None, None => True
  | _, _ => False
  end.
Proof.
  destruct p as [l u]. unfold prefix_read, prefix_script. cbn [pf_left pf_conn].
  assert (Hconn : match '(c, e, conn) ← read_conn cap u; Some (c, e, mkPrefixConn None conn),
                        Read cap (match u with Some s => s | None => [([], Some [EOF])] end) with
    | Some (c, e, p'), Some (c', e', s') => c = c' /\ e = e' /\ (e = None ->
        (match pf_left p' with Some ((_ :: _) as l) => [(l, None)] | _ => [] end) ++
        (match pf_conn p' with Some s => s | None => [([], Some [EOF])] end) = s')
    | None, None => True
    | _, _ => False
    end).
  { destruct u as [s|]; cbn [read_conn]; [|done]. destruct (Read cap s) as [[[c [err|]] s']|]; cbn [mbind option_bind]; [|done|done].
    destruct (error_eq err EOF) eqn:E; cbn [mbind option_bind pf_left pf_conn]; [|done].
    unfold error_eq in E. by apply bool_decide_eq_true in E as ->. }
  destruct l as [[|b l]|]; [exact Hconn| |exact Hconn].
  cbn [Read app]. destruct (length (b :: l) <=? cap)%nat eqn:E; b2p.
  - by rewrite take_ge, drop_ge by done.
  - split_and!; [done|done|]. intros _. destruct (drop cap (b :: l)) eqn:Ed; [|done].
    apply (f_equal length) in Ed. rewrite length_drop in Ed. simpl in *. lia.
Qed.

Lemma tunnel_run caps t : run_reads tunnel_read caps t = run_reads Read caps (tunnel_script t).
Proof.
  apply (run_reads_sim _ _ (fun t s => tunnel_script t = s)); [|done]. clear. intros cap [s|p] _ <-; cbn [tunnel_read tunnel_script].
  - by destruct (Read cap s) as [[[c e] s']|].
  - pose proof (prefix_read_sim cap p) as Hs.
    by destruct (prefix_read cap p) as [[[c e] p']|], (Read cap (prefix_script p)) as [[[c' e'] s']|]; naive_solver.
Qed.

(** *** The answer *)

Lemma head_length_app start s x n : head_length start s = Some n -> head_length start (s ++ x) = Some n /\ (n <= length s)%nat.
Proof.
  revert start n; induction s as [|c s IH]; intros start n; cbn [head_length app length]; [done|].
  assert (Hrec : forall b, S <$> head_length b s = Some n -> S <$> head_length b (s ++ x) = Some n /\ (n <= S (length s))%nat).
  { intros b Hn. destruct (head_length b s) as [k|] eqn:E; [|done]. simplify_eq/=. destruct (IH _ _ E) as [-> ?]. split; [done|lia]. }
  destruct (ceq c LF); [destruct start; [intros [= <-]; split; [done|lia]|apply Hrec]|].
  destruct s as [|d s]; cbn [app] in *; [by rewrite andb_false_r|].
  destruct (start && ceq c CR && ceq d LF); [intros [= <-]; split; [done|simpl; lia]|apply Hrec].
Qed.

(** What was read of the connection to get the answer: a head, and then what
    the tunnel gets. *)
Lemma read_answer_spec parse caps got s a : read_answer parse caps got s = Some a ->
  (exists e, an_status a = Err e) \/
  exists n, head_length false (got ++ until_end s) = Some n /\ an_status a = parse (take n (got ++ until_end s)) /\
    drop n (got ++ until_end s) = an_buffered a ++ until_end (an_rest a) /\ end_error (an_rest a) = end_error s.
Proof.
  revert got s; induction caps as [|cap caps IH]; intros got s; cbn [read_answer];
    (destruct (head_length false got) as [n|] eqn:En;
     [intros [= <-]; right; exists n; destruct (head_length_app _ _ (until_end s) _ En) as [-> Hle];
      cbn [an_status an_buffered an_rest]; by rewrite take_app_le, drop_app_le|]); [done|].
  destruct (Read cap s) as [[[c e] s']|] eqn:ER; [|done]. cbn [mbind option_bind].
  rewrite (Read_until_end _ _ _ _ _ ER), (Read_end_error _ _ _ _ _ ER). destruct e as [err|].
  - rewrite app_nil_r. destruct (head_length false (got ++ c)) as [n|] eqn:En'; intros [= <-]; [|left; eauto].
    right. exists n. cbn [an_status an_buffered an_rest until_end end_error]. by rewrite app_nil_r.
  - rewrite app_assoc. apply IH.
Qed.

(** *** The request *)

Lemma encode_graph x : forallb graph_byte (EncodeToString x) = true.
Proof. by apply encode_all. Qed.

Definition connect_fields (addr : gostr) (via : proxy_url) : list (gostr * gostr) :=
  (bs "Host", addr) ::
  match pu_User via with
  | Some (user, pass) => [(bs "Proxy-Authorization", bs "Basic " ++ EncodeToString (user ++ bs ":" ++ pass))]
  | None => []
  end.

Lemma connect_request_text addr via rest : connect_request addr via ++ rest =
  (bs "CONNECT" ++ bs " " ++ addr ++ bs " HTTP/1.1") ++ CRLF ++ (field_text (connect_fields addr via) ++ CRLF ++ rest).
Proof.
  unfold connect_request, connect_fields, field_text. cbn [map concat]. unfold as_line, field_line. cbn [fst snd].
  destruct (pu_User via) as [[user pass]|]; cbn [map concat]; rewrite ?app_nil_r, <- ?app_assoc; reflexivity.
Qed.

Lemma basic_trimmed c x : trim_ows (bs "Basic " ++ EncodeToString (c :: x)) = bs "Basic " ++ EncodeToString (c :: x).
Proof.
  unfold trim_ows. rewrite trim_left_id by (intros ? [= <-]; done). apply trim_right_id. intros d Hd.
  assert (Hne : EncodeToString (c :: x) <> []) by (destruct x as [|? [|??]]; discriminate).
  rewrite last_app in Hd. destruct (last (EncodeToString (c :: x))) as [e|] eqn:El; [|by apply last_None in El].
  simplify_eq. apply last_Some_elem_of in El. by apply graph_plain, (proj1 (forallb_elem graph_byte _) (encode_graph (c :: x))).
Qed.

Lemma connect_fields_writable addr via : forallb graph_byte addr = true -> Forall writable (connect_fields addr via).
Proof.
  intros Ha. constructor; [split; [done|by eapply forallb_avoid]|].
  destruct (pu_User via) as [[user pass]|]; repeat constructor. cbn [snd]. rewrite not_elem_of_app.
  split; [apply (bool_decide_unpack _); by vm_compute|by eapply forallb_avoid; [apply encode_graph|]].
Qed.

(** The request read back as one message. *)
Lemma connect_parsed addr via rest : addr <> [] -> forallb graph_byte addr = true ->
  parse_message (connect_request addr via ++ rest) =
    Some (mkMessage (bs "CONNECT") addr (map as_read (connect_fields addr via)) [] [], rest).
Proof.
  intros Hne Ha. rewrite connect_request_text.
  rewrite parse_head; [|done|done|by eapply forallb_avoid|by eapply forallb_avoid|by apply connect_fields_writable].
  unfold connect_fields. by destruct (pu_User via) as [[user pass]|].
Qed.

(** The tunnel's bytes: those after the head of the answer. *)
Lemma connect_script s a t n : connect None a = Ok t ->
  drop n (until_end s) = an_buffered a ++ until_end (an_rest a) -> end_error (an_rest a) = end_error s ->
  until_end (tunnel_script t) = drop n (until_end s) /\ end_error (tunnel_script t) = end_error s.
Proof.
  unfold connect. destruct (an_status a) as [code|]; [|done]. destruct (code / 100 =? 2); cbn [negb]; [|by destruct (_ =? 407)].
  destruct (an_buffered a) as [|b l]; cbn [length Nat.ltb Nat.leb]; intros [= <-] -> <-; [done|].
  by cbn [tunnel_script prefix_script WithPrefix pf_left pf_conn app until_end end_error].
Qed.

(** [C31] A tunnel through an HTTP proxy is transparent: for any address of
    printable characters and any credentials, line breaks included, the proxy
    reads one CONNECT request for the address and credentials that decode to
    the configured ones; and on the connection [connect] returns, buffers of
    any sizes get exactly the bytes that follow the head of a 2xx answer,
    whichever of them had arrived with it, and then the connection's own
    error. *)
Theorem connect_transparent (addr rest : gostr) (via : proxy_url) (parse : gostr -> result error Z)
    (caps caps' : list nat) (s : script) (a : answered) (t : tunnel_conn)
    (Haddr : addr <> []) (Hgraph : forallb graph_byte addr = true)
    (Hr : read_answer parse caps [] s = Some a) (Hc : connect None a = Ok t) :
  (exists fields,
     parse_message (connect_request addr via ++ rest) = Some (mkMessage (bs "CONNECT") addr fields [] [], rest) /\
     fields_of (bs "Host") fields = [addr] /\
     match pu_User via with
     | None => fields_of (bs "Proxy-Authorization") fields = []
     | Some (user, pass) => exists cred, fields_of (bs "Proxy-Authorization") fields = [bs "Basic " ++ cred] /\
         DecodeString cred = Some (user ++ bs ":" ++ pass)
     end) /\
  (exists n code,
     head_length false (until_end s) = Some n /\ parse (take n (until_end s)) = Ok code /\ code / 100 = 2 /\
     let '(l, e) := run_reads tunnel_read caps' t in
     prefix (concat l) (drop n (until_end s)) /\
     (forall err, e = Some err -> concat l = drop n (until_end s) /\ end_error s = Some err)).
Proof.
  split.
  - exists (map as_read (connect_fields addr via)). split; [by apply connect_parsed|].
    unfold connect_fields. rewrite <- (trim_ows_graph addr Hgraph) at 2.
    destruct (pu_User via) as [[user pass]|]; (split; [done|]); [|done].
    exists (EncodeToString (user ++ bs ":" ++ pass)). split; [|apply decode_encode].
    destruct (user ++ bs ":" ++ pass) as [|c x] eqn:E; [by destruct user|]. by rewrite <- (basic_trimmed c x) at 2.
  - pose proof (read_answer_spec _ _ _ _ _ Hr) as [[e He]|(n & Hn & Hst & Hd & He)].
    { unfold connect in Hc. by rewrite He in Hc. }
    cbn [app] in *. destruct (connect_script _ _ _ _ Hc Hd He) as [Hu Hend].
    assert (Hcode : exists code, an_status a = Ok code /\ code / 100 = 2).
    { unfold connect in Hc. destruct (an_status a) as [code|]; [|done]. exists code. split; [done|].
      destruct (code / 100 =? 2) eqn:E; [by b2p|]. cbn [negb] in Hc. by destruct (_ =? 407). }
    destruct Hcode as (code & Hcode & H2). exists n, code. split_and!; [done|congruence|done|].
    rewrite tunnel_run. destruct (run_reads Read caps' (tunnel_script t)) as [l e] eqn:E.
    apply run_reads_spec in E. by rewrite Hu, Hend in E.
Qed.

(** *** The pipe *)

Definition source (d : dir) (a b : script) : script := match d with AToB => a | BToA => b end.
Definition sum (l : list Z) : Z := foldr Z.add 0 l.

(** All of a source, to its end, has been written. *)
Definition complete (s0 : script) (h : half) : Prop := written h = until_end s0 /\ end_error s0 = Some [EOF].

Record half_ok (s0 : script) (closed : bool) (h : half) : Prop := {
  hk_count : count h = Z.of_nat (length (written h));
  hk_reports : sum (reports h) = count h;
  hk_prefix : prefix (written h) (until_end s0);
  hk_running : ended h = None -> until_end s0 = written h ++ until_end (src h) /\ end_error s0 = end_error (src h);
  hk_complete : ended h = Some None -> closed = true \/ complete s0 h;
}.

Lemma report_sum n l : 0 <= n -> sum (report n l) = sum l + n.
Proof.
  intros Hn. unfold report. destruct (0 <? n) eqn:E; b2p; [|lia].
  unfold sum. induction l as [|m l IH]; simpl in *; lia.
Qed.

Lemma after_round_quiet er : after_round er = Some None -> er = Some [EOF].
Proof.
  destruct er as [e|]; cbn [after_round]; [|done]. destruct (error_eq e EOF) eqn:E; [|done].
  unfold error_eq in E. by apply bool_decide_eq_true in E as ->.
Qed.

Lemma copy_round_ok s0 closed w h h' : half_ok s0 closed h -> ended h = None -> copy_round w h = Some h' ->
  match Read copyBuffer (src h) with Some (c, _, _) => write_ok w (Z.of_nat (length c)) | None => False end -> half_ok s0 closed h'.
Proof.
  intros [Hcount Hrep Hpre Hrun _] Hen. destruct (Hrun Hen) as [Hu He]. unfold copy_round. clear Hrun.
  destruct (Read copyBuffer (src h)) as [[[c er] s]|] eqn:ER; [|done]. cbn [mbind option_bind].
  rewrite (Read_until_end _ _ _ _ _ ER) in Hu. rewrite (Read_end_error _ _ _ _ _ ER) in He. clear ER.
  destruct c as [|x c].
  { intros [= <-] _. cbn [app] in Hu. split; cbn [count written reports ended src]; [done|done|done| |].
    - destruct er; [done|]. by intros _.
    - intros ->%after_round_quiet. right. split; [|done]. cbn [written]. by rewrite Hu, app_nil_r. }
  destruct w as [nw ew]. intros Hs [Hw Hshort]. cbn [fst snd] in *.
  replace ((nw <? 0) || (Z.of_nat (length (x :: c)) <? nw)) with false in Hs
    by (symmetry; apply orb_false_intro; apply Z.ltb_ge; lia).
  assert (Hlen : count h + nw = Z.of_nat (length (written h ++ take (Z.to_nat nw) (x :: c))))
    by (rewrite length_app, length_take; lia).
  assert (Hp : prefix (written h ++ take (Z.to_nat nw) (x :: c)) (until_end s0)).
  { rewrite Hu. apply prefix_app. etrans; [|by eapply prefix_app_r]. apply prefix_take. }
  assert (Hfull : ew = None -> take (Z.to_nat nw) (x :: c) = x :: c).
  { intros Hew. apply take_ge. destruct (Z.lt_ge_cases nw (Z.of_nat (length (x :: c)))) as [Hlt|]; [by apply Hshort in Hlt|lia]. }
  injection Hs as <-. split; cbn [count written reports ended src]; [done|rewrite report_sum by lia; lia|done| |].
  - destruct ew; [done|]. destruct (negb _); [done|]. rewrite (Hfull eq_refl). destruct er; [done|]. intros _.
    by rewrite <- app_assoc.
  - destruct ew; [done|]. destruct (negb _); [done|]. rewrite (Hfull eq_refl). intros ->%after_round_quiet.
    right. unfold complete. cbn [written]. by rewrite app_nil_r in Hu.
Qed.

(** The errors of the directions that have ended, those the caller has received
    and those waiting in the channel. *)
Definition ends_of (p : pipe) : list (option error) := omap id [ended (ab p); ended (ba p)].
Definition received (m : main) : list (option error) :=
  match m with First => [] | CloseA e1 | CloseB e1 | Second e1 => [e1] | Returned _ _ _ => [] end.

Record pipe_ok (a b : script) (p : pipe) : Prop := {
  pk_half : forall d, half_ok (source d a b) (src_closed d p) (half_of d p);
  pk_errc : match at_ p with
    | Returned n m err => exists e1 e2, [e1; e2] ≡ₚ ends_of p /\ n = count (ab p) /\ m = count (ba p) /\ err = pipe_error e1 e2
    | m => received m ++ errc p ≡ₚ ends_of p
    end;
  pk_first : at_ p <> First ->
    exists d e, ended (half_of d p) = Some e /\ (e = None -> complete (source d a b) (half_of d p));
}.

Lemma ends_of_elem e p : e ∈ ends_of p <-> exists d, ended (half_of d p) = Some e.
Proof.
  unfold ends_of. destruct (ended (ab p)) as [x|] eqn:Ea, (ended (ba p)) as [y|] eqn:Eb; cbn [omap list_omap id];
    rewrite ?elem_of_cons, ?elem_of_nil; split; intros H; destruct_or?; try destruct H as [[] H]; cbn [half_of] in *; simplify_eq; auto;
    first [by exists AToB | by exists BToA | congruence].
Qed.

Lemma ends_of_set d h p : ended (half_of d p) = None -> forall e, ended h = Some e ->
  ends_of (set_half d h p) ≡ₚ ends_of p ++ [e].
Proof.
  destruct d; unfold ends_of; cbn [set_half half_of ab ba]; intros -> e ->; cbn [omap list_omap id app].
  - destruct (ended (ba p)); cbn [omap list_omap id app]; [apply Permutation_swap|done].
  - by destruct (ended (ab p)).
Qed.

(** A direction that takes a round, or finds its source closed. *)
Lemma set_half_ok a b d h p : pipe_ok a b p -> ended (half_of d p) = None -> half_ok (source d a b) (src_closed d p) h ->
  pipe_ok a b (send_end d (set_half d h p)).
Proof.
  intros [Hh Hc Hf] Hen Hok.
  assert (Hret : forall n m err, at_ p <> Returned n m err).
  { intros n m err Ep. rewrite Ep in Hc. destruct Hc as (e1 & e2 & Hp & _). apply Permutation_length in Hp. revert Hp. unfold ends_of.
    destruct d; cbn [half_of] in Hen; rewrite Hen; [by destruct (ended (ba p))|by destruct (ended (ab p))]. }
  assert (Hat : at_ (send_end d (set_half d h p)) = at_ p) by (unfold send_end; destruct (ended (half_of d (set_half d h p))); by destruct d).
  assert (Hhalf : forall d', half_of d' (send_end d (set_half d h p)) = if decide (d' = d) then h else half_of d' p).
  { intros d'. unfold send_end. destruct (ended (half_of d (set_half d h p))); by destruct d, d'. }
  assert (Hself : half_of d (set_half d h p) = h) by (by destruct d).
  split.
  - intros d'. assert (Hsc : src_closed d' (send_end d (set_half d h p)) = src_closed d' p) by (unfold src_closed; by rewrite Hat).
    rewrite Hhalf, Hsc. destruct (decide (d' = d)) as [->|]; [done|apply Hh].
  - assert (Hq : forall r, r ++ errc p ≡ₚ ends_of p -> r ++ errc (send_end d (set_half d h p)) ≡ₚ ends_of (send_end d (set_half d h p))).
    { intros r Hr. unfold send_end. rewrite Hself. destruct (ended h) as [e|] eqn:Ee.
      - change (ends_of (mkPipe _ _ _ _)) with (ends_of (set_half d h p)). rewrite (ends_of_set _ _ _ Hen _ Ee), <- Hr.
        cbn [errc]. rewrite app_assoc. by destruct d.
      - unfold ends_of in *. destruct d; cbn [set_half half_of ab ba errc] in *; by rewrite Ee; rewrite Hen in Hr. }
    rewrite Hat. destruct (at_ p) eqn:Ep; [by apply Hq..|by destruct (Hret _ _ _ eq_refl)].
  - rewrite Hat. intros Hne. destruct (Hf Hne) as (d' & e & Hd & Hcomp). exists d', e. rewrite Hhalf.
    destruct (decide (d' = d)) as [->|]; [congruence|done].
Qed.

Lemma half_ok_mono s0 c c' h : half_ok s0 c h -> (c = true -> c' = true) -> half_ok s0 c' h.
Proof. intros [H1 H2 H3 H4 H5] Hc. split; [done..|]. intros He. destruct (H5 He); auto. Qed.

Lemma main_step_ok a b p : enabled Main p -> pipe_ok a b p -> pipe_ok a b (main_step p).
Proof.
  intros He [Hh Hc Hf]. unfold enabled in He. unfold main_step. destruct (at_ p) as [|e1|e1|e1|n m err] eqn:Ep; [| | | |done].
  - destruct (errc p) as [|e q] eqn:Eq; [done|]. split; cbn [at_ errc received app].
    + intros d. specialize (Hh d). unfold src_closed in *. rewrite Ep in Hh. by destruct d.
    + exact Hc.
    + intros _. assert (Hin : e ∈ ends_of p) by (rewrite <- Hc; by left).
      apply ends_of_elem in Hin as [d Hd]. exists d, e. split; [by destruct d|]. intros ->.
      destruct (hk_complete _ _ _ (Hh d) Hd) as [Hcl|Hcomp]; [|by destruct d].
      unfold src_closed in Hcl. by rewrite Ep in Hcl.
  - split; cbn [at_ errc received]; [|exact Hc|].
    + intros d. apply (half_ok_mono _ _ _ _ (Hh d)). unfold src_closed. rewrite Ep. by destruct d.
    + intros _. by apply Hf.
  - split; cbn [at_ errc received]; [|exact Hc|].
    + intros d. apply (half_ok_mono _ _ _ _ (Hh d)). unfold src_closed. rewrite Ep. by destruct d.
    + intros _. by apply Hf.
  - destruct (errc p) as [|e2 q] eqn:Eq; [done|]. split; cbn [at_ errc].
    + intros d. apply (half_ok_mono _ _ _ _ (Hh d)). unfold src_closed. rewrite Ep. by destruct d.
    + assert (q = []) as ->.
      { apply Permutation_length in Hc. revert Hc. unfold ends_of. cbn [received app length].
        destruct (ended (ab p)), (ended (ba p)); cbn; destruct q; done. }
      by exists e1, e2.
    + intros _. by apply Hf.
Qed.

Lemma pipe_exec_ok a b ev p : enabled ev p -> pipe_ok a b p -> pipe_ok a b (exec ev p).
Proof.
  destruct ev as [d w|d e|]; cbn [enabled exec]; [| |apply main_step_ok].
  - intros [Hen Hw] Hp. destruct (copy_round w (half_of d p)) as [h|] eqn:Ec; [|done].
    apply set_half_ok; [done|done|]. eapply copy_round_ok; [apply (pk_half _ _ _ Hp)|done|done|done].
  - intros [Hen Hcl] Hp. apply set_half_ok; [done|done|]. destruct (pk_half _ _ _ Hp d) as [Hc Hr Hpre _ _].
    split; cbn [copy_closed count written reports ended src]; [done|done|done|done|]. by left.
Qed.

Lemma pipe_reachable_ok a b p : rtc step (initial a b) p -> pipe_ok a b p.
Proof.
  intros Hs. apply (steps_invariant enabled exec (pipe_ok a b) (initial a b)); [intros; by apply pipe_exec_ok|done|].
  split; [|cbn; reflexivity|done]. intros d. by destruct d; split; cbn; try apply prefix_nil.
Qed.

Lemma pipe_error_quiet e1 e2 : pipe_error e1 e2 = None <-> Forall (fun e => match e with Some e => quiet e = true | None => True end) [e1; e2].
Proof.
  rewrite !Forall_cons, Forall_nil. unfold pipe_error.
  destruct e1 as [e|], e2 as [f|]; try destruct (quiet e) eqn:E; try destruct (quiet f) eqn:F; naive_solver.
Qed.

Definition has_returned (p : pipe) : Prop := exists n m err, at_ p = Returned n m err.

Lemma main_runs p : enabled Main p -> step p (main_step p).
Proof. intros He. by exists Main. Qed.

(** Once both connections are closed the other direction ends, and the pipe
    returns. *)
Lemma second_returns a b p e1 : pipe_ok a b p -> at_ p = Second e1 -> exists p', rtc step p p' /\ has_returned p'.
Proof.
  intros Hok Ep. pose proof (pk_errc _ _ _ Hok) as Hc. rewrite Ep in Hc. cbn [received app] in Hc.
  assert (Hlast : forall q e r, at_ q = Second e1 -> errc q = e :: r -> exists p', rtc step q p' /\ has_returned p').
  { intros q e r Hq He. exists (main_step q). split.
    - apply rtc_once, main_runs. cbn [enabled]. by rewrite Hq, He.
    - unfold has_returned, main_step. rewrite Hq, He. by do 3 eexists. }
  destruct (errc p) as [|e r] eqn:Eq; [|by eapply Hlast].
  assert (Hd : exists d, ended (half_of d p) = None).
  { apply Permutation_length in Hc. revert Hc. unfold ends_of.
    destruct (ended (ab p)) eqn:Ea; [|by exists AToB]. destruct (ended (ba p)) eqn:Eb; [done|by exists BToA]. }
  destruct Hd as [d Hd]. set (q := exec (OnClosed d [ErrClosed]) p).
  destruct (Hlast q (Some [ErrClosed]) []) as (p' & Hp' & Hret).
  - unfold q. by destruct d.
  - unfold q. destruct d; cbn; by rewrite Eq.
  - exists p'. split; [|done]. eapply rtc_l; [|exact Hp']. exists (OnClosed d [ErrClosed]). split; [|done].
    split; [done|]. unfold src_closed. rewrite Ep. by destruct d.
Qed.

Lemma main_forward a b p (m : main) : pipe_ok a b p -> enabled Main p -> at_ (main_step p) = m ->
  (forall q, pipe_ok a b q -> at_ q = m -> exists p', rtc step q p' /\ has_returned p') ->
  exists p', rtc step p p' /\ has_returned p'.
Proof.
  intros Hok He Hm Hq. destruct (Hq (main_step p)) as (p' & Hp' & Hr); [by apply main_step_ok|done|].
  exists p'. split; [|done]. eapply rtc_l; [by apply main_runs|done].
Qed.

Lemma pipe_returns a b p d : pipe_ok a b p -> ended (half_of d p) <> None -> exists p', rtc step p p' /\ has_returned p'.
Proof.
  intros Hok Hd.
  assert (HB : forall q e, pipe_ok a b q -> at_ q = CloseB e -> exists p', rtc step q p' /\ has_returned p').
  { intros q e Hq Hat. apply (main_forward a b q (Second e)); [done|cbn; by rewrite Hat|unfold main_step; by rewrite Hat|].
    intros r Hr He. by eapply second_returns. }
  assert (HA : forall q e, pipe_ok a b q -> at_ q = CloseA e -> exists p', rtc step q p' /\ has_returned p').
  { intros q e Hq Hat. apply (main_forward a b q (CloseB e)); [done|cbn; by rewrite Hat|unfold main_step; by rewrite Hat|].
    intros r Hr He. by eapply HB. }
  destruct (at_ p) as [|e|e|e|n m err] eqn:Ep; [|by eapply HA|by eapply HB|by eapply second_returns|exists p; split; [done|by do 3 eexists]].
  pose proof (pk_errc _ _ _ Hok) as Hc. rewrite Ep in Hc. cbn [received app] in Hc. destruct (ended (half_of d p)) as [e|] eqn:Ee; [|done].
  assert (Hin : e ∈ errc p) by (rewrite Hc; apply ends_of_elem; eauto).
  destruct (errc p) as [|e1 q] eqn:Eq; [by apply elem_of_nil in Hin|].
  apply (main_forward a b p (CloseA e1)); [done|cbn; by rewrite Ep, Eq|unfold main_step; by rewrite Ep, Eq|].
  intros r Hr He. by eapply HA.
Qed.

(** [C15] A pipe carries bytes faithfully and always ends: in every reachable
    state each direction has written the first bytes of its source, in order,
    and the progress reported for it sums to exactly those; the connections are
    closed only after a direction has ended, which without an error has then
    written its source to the end; what the pipe returns are the counts of the
    bytes written, and no error exactly when both directions ended in an
    expected way; and once one direction has ended, the pipe can return. *)
Theorem pipe_exact (a b : script) (p : pipe) (Hp : rtc step (initial a b) p) :
  (forall d, let h := half_of d p in
     prefix (written h) (until_end (source d a b)) /\ sum (reports h) = Z.of_nat (length (written h))) /\
  (forall d, src_closed d p = true -> exists d e, ended (half_of d p) = Some e /\
     (e = None -> written (half_of d p) = until_end (source d a b) /\ end_error (source d a b) = Some [EOF])) /\
  (forall n m err, at_ p = Returned n m err ->
     n = Z.of_nat (length (written (ab p))) /\ m = Z.of_nat (length (written (ba p))) /\
     exists e1 e2, [e1; e2] ≡ₚ ends_of p /\
       (err = None <-> Forall (fun e => match e with Some e => quiet e = true | None => True end) [e1; e2])) /\
  (forall d, ended (half_of d p) <> None -> exists p', rtc step p p' /\ has_returned p').
Proof.
  apply pipe_reachable_ok in Hp as Hok. split_and!.
  - intros d h. destruct (pk_half _ _ _ Hok d) as [Hc Hr Hpre _ _]. split; [done|]. unfold h. by rewrite Hr.
  - intros d Hcl. apply (pk_first _ _ _ Hok). intros Ep. unfold src_closed in Hcl. by rewrite Ep in Hcl.
  - intros n m err Ep. pose proof (pk_errc _ _ _ Hok) as Hc. rewrite Ep in Hc. destruct Hc as (e1 & e2 & Hp2 & -> & -> & ->).
    split_and!; [apply (hk_count _ _ _ (pk_half _ _ _ Hok AToB))|apply (hk_count _ _ _ (pk_half _ _ _ Hok BToA))|].
    exists e1, e2. split; [done|apply pipe_error_quiet].
  - intros d. by apply pipe_returns with (a := a) (b := b).
Qed.

(** A failed [Dial] leaves no connection open, and one that succeeds closes
    nothing. *)
Lemma dial_closes addr via e : let '(_, closed, r) := Dial addr via e in
  match r with
  | Ok _ => closed = false
  | Err (DialFailed _) | Err (DialProxy _ _) => closed = false
  | Err _ => closed = true
  end.
Proof.
  unfold Dial. destruct via as [u|]; [|by destruct (de_dial e addr)].
  destruct (de_dial e _); [|done]. destruct (if beq _ _ then _ else _); [done|].
  destruct (de_ended e) as [[]|]; [done|done|]. by destruct (de_connect e _).
Qed.

(** ** Witnesses *)

Module ProxyWitness.
Definition via : proxy_url :=
  mkProxyURL (mkURL (bs "http") (bs "proxy") (bs "3128") [] [] []) (bs "proxy:3128") (Some (bs "ann", bs "s3:cret")).
Definition ok_parse (h : gostr) : result error Z := if HasPrefix h (bs "HTTP/1.1 200 ") then Ok 200 else Err [OtherError 0].
Definition answer : script :=
  [(bs "HTTP/1.1 200 OK" ++ CRLF, None); (CRLF ++ bs "abc", None); (bs "de", Some [EOF])].
Definition got : answered := mkAnswered (Ok 200) (bs "abc") [(bs "de", Some [EOF])].
Definition tunnel : tunnel_conn := Prefixed (WithPrefix [(bs "de", Some [EOF])] (bs "abc")).

Lemma connect_transparent_witness :
  run_reads tunnel_read [2; 2; 2]%nat tunnel = ([bs "ab"; bs "c"; bs "de"], Some [EOF]) /\
  exists fields, parse_message (connect_request (bs "edge:443") via ++ bs "x") =
    Some (mkMessage (bs "CONNECT") (bs "edge:443") fields [] [], bs "x").
Proof.
  split; [reflexivity|].
  destruct (connect_transparent (bs "edge:443") (bs "x") via ok_parse [4096; 4096]%nat [2; 2; 2]%nat answer got tunnel
    ltac:(discriminate) ltac:(vm_compute; reflexivity) ltac:(vm_compute; reflexivity) ltac:(vm_compute; reflexivity)) as [(fields & Hf & _) _].
  by exists fields.
Defined.

Definition up : script := [(bs "hello", None); ([], Some [EOF])].
Definition down : script := [(bs "hi", None)].
Definition play : list event :=
  [Round AToB (5, None); Round BToA (2, None); Round AToB (0, None); Main; Main; Main; OnClosed BToA [ErrClosed]; Main].
Definition piped : pipe := foldl (fun p e => exec e p) (initial up down) play.

Lemma piped_reached : rtc step (initial up down) piped.
Proof. apply plays_reach. vm_compute. repeat (split; try done). Qed.

Lemma pipe_exact_witness : at_ piped = Returned 5 2 None /\ written (ab piped) = bs "hello".
Proof.
  destruct (pipe_exact up down piped piped_reached) as (_ & _ & Hr & _).
  split; [vm_compute; reflexivity|]. destruct (Hr 5 2 None); vm_compute; reflexivity.
Defined.
End ProxyWitness.
