(* ===== verification/Doctor.v ===== *)
(** * The doctor ([internal/doctor/doctor.go], [internal/tunnel/material.go],
    [countFailures] of [internal/cli/doctor.go])

    The checks [coen doctor] makes of an edge's or agent's host, against what
    the host answers: files, certificates, ports, the running daemon's admin
    socket and metrics endpoint, and the network. *)

From S2P Require Import Prelude GoStrings Numeral IO Route Registry AgentConn H3Pool Config Obs Edge Pki Lifecycle Daemon Proxy.
#[local] Open Scope Z_scope.

(** ** What the host answers *)

(** The causes of a failed bind the doctor tells apart. *)
Inductive bind_cause := EACCES | EADDRNOTAVAIL | EADDRINUSE | OtherCause.
Record bind_error := mkBindError { be_cause : bind_cause; be_text : gostr }.

(** [None] is success where an error's text is returned.  [h_shake] is the TLS
    handshake with the edge: its certificate's fingerprint, and whether the clock
    is within its validity (with the text for when it is not).  [h_bind] is a bind
    of a process that listens on nothing yet; [h_clash a b] is whether a TCP
    address [b] cannot be bound while [a] is listened on, as when they are equal
    (with a port other than 0). *)
Record host := mkHost {
  h_stat : gostr -> option gostr;
  h_read : gostr -> result gostr gostr;
  h_certs : gostr -> bool;
  h_pair : gostr -> gostr -> option gostr;
  h_bind : bool -> gostr -> option bind_error;
  h_clash : gostr -> gostr -> bool;
  h_status : gostr -> option Snapshot;
  h_probe : gostr -> option Holder;
  h_lookup : gostr -> option gostr;
  h_dial : gostr -> option gostr;
  h_edge : gostr -> option (bool * gostr);
  h_shake : result gostr (gostr * bool * gostr);
  h_fp_text : fp_error -> gostr;
  h_addr_text : gostr -> addr_error -> gostr;
  h_redacted : gostr;
}.

(** ** Results *)

Record Result := mkResult { Name : gostr; OK : bool; Detail : gostr; Hint : gostr }.

Definition ok (name detail : gostr) : Result := mkResult name true detail [].
Definition fail (name detail hint : gostr) : Result := mkResult name false detail hint.

Definition countFailures (rs : list Result) : nat := length (List.filter (fun r => negb (OK r)) rs).

Section checks.
Context `{Unicode} `{Net} (h : host).

(** [tunnel.LoadMaterial] *)
Definition LoadMaterial (ca cert key : gostr) : bool :=
  match h_read h ca with
  | Err _ => false
  | Ok pem => if negb (h_certs h pem) then false else match h_pair h cert key with Some _ => false | None => true end
  end.

Definition checkFile (name path : gostr) : Result :=
  match h_stat h path with
  | Some e => fail name e (bs "check the path exists and is readable by the coen user")
  | None => ok name path
  end.

Definition bindHint (c : bind_cause) (fallback : gostr) : gostr :=
  match c with
  | EACCES => bs "permission denied: ports below 1024 need root or CAP_NET_BIND_SERVICE"
  | EADDRNOTAVAIL => bs "the address is not assigned to this host; use one of its own addresses or a wildcard"
  | EADDRINUSE => if negb (beq fallback []) then fallback else bs "another process holds the port; pick a free one"
  | OtherCause => bs "check the address: the host must be resolvable and the port valid"
  end.

(** [ours] is the note, and whether the running daemon holds the address. *)
Definition bindCheck (name : gostr) (udp : bool) (addr : gostr) (ours : gostr * bool) (hint : gostr) : Result :=
  match h_bind h udp addr with
  | None => ok name addr
  | Some e =>
      if match be_cause e with EADDRNOTAVAIL => false | _ => ours.2 end
      then ok name (addr ++ bs " (" ++ ours.1 ++ bs ")")
      else fail name (be_text e) (bindHint (be_cause e) hint)
  end.

Definition checkBind (name addr adminSocket : gostr) : Result :=
  bindCheck name false addr
    (if beq adminSocket [] then ([], false)
     else (bs "in use by the running coen daemon", match h_status h adminSocket with Some _ => true | None => false end))
    (bs "another process may hold the port, or you lack permission to bind it (:443 needs CAP_NET_BIND_SERVICE)").

Definition checkUDPBind (name addr adminSocket : gostr) : Result :=
  bindCheck name true addr
    (if beq adminSocket [] then ([], false)
     else (bs "in use by the running coen edge's HTTP/3",
           match h_status h adminSocket with
           | Some snap => negb (beq (Obs.HTTP3Listen snap) []) && ListenersOverlap (Obs.HTTP3Listen snap) addr
           | None => false
           end))
    (bs "another process may hold the UDP port, or you lack permission to bind it (:443 needs CAP_NET_BIND_SERVICE)").

Definition checkMetricsBind (addr role : gostr) : Result :=
  bindCheck (bs "bind: metrics") false addr
    (bs "in use by the running coen " ++ role ++ bs "'s metrics endpoint", ServesRole (h_probe h addr) role) [].

(** ** [CheckEdge] *)

Definition quicBufferSize : Z := Z.shiftl 7 20.
Definition procNetCore : gostr := bs "/proc/sys/net/core".

Definition udp_name : gostr := bs "http3: udp buffers".

(** The limits that are too low; [None] where one cannot be read. *)
Fixpoint low_buffers (dir : gostr) (files : list gostr) : option (list gostr) :=
  match files with
  | [] => Some []
  | f :: files =>
      match h_read h (dir ++ bs "/" ++ f) with
      | Err _ => None
      | Ok b =>
          n ← Atoi (TrimSpace b);
          low ← low_buffers dir files;
          Some (if n <? quicBufferSize then (bs "net.core." ++ f ++ bs "=" ++ Itoa n) :: low else low)
      end
  end.

Definition udpBuffers (dir : gostr) : option Result :=
  low ← low_buffers dir [bs "rmem_max"; bs "wmem_max"];
  Some (match low with
        | [] => ok udp_name (bs "large enough for QUIC")
        | _ => ok udp_name (Join low (bs ", ") ++ bs " is below the " ++ Itoa quicBufferSize ++
                            bs " bytes QUIC asks for; raise it with sysctl for full HTTP/3 throughput")
        end).

(** The first fingerprint of a route that is not well formed. *)
Fixpoint bad_fingerprint (fps : list gostr) : option (gostr * fp_error) :=
  match fps with
  | [] => None
  | fp :: fps => match ValidateFingerprint fp with Err e => Some (fp, e) | Ok _ => bad_fingerprint fps end
  end.

Definition fingerprint_check (r : EdgeRoute) : Result :=
  let name := bs "config: fingerprint " ++ r_Host r in
  let fps := Fingerprints r in
  match bad_fingerprint fps with
  | Some (fp, e) => fail name (fp ++ bs ": " ++ h_fp_text h e)
                      (bs "each agent fingerprint must be the SHA256:... value printed by `coen cert agent`")
  | None => if (1 <? length fps)%nat then ok name (Itoa (Z.of_nat (length fps)) ++ bs " agents, well-formed")
            else ok name (bs "well-formed")
  end.

Definition ca_parse (ca hint : gostr) : Result :=
  match h_read h ca with
  | Err e => fail (bs "pki: ca parse") e hint
  | Ok pem => if negb (h_certs h pem) then fail (bs "pki: ca parse") (bs "no certificates found in CA PEM") (bs "ca.crt is not a valid PEM certificate")
              else ok (bs "pki: ca parse") (bs "valid")
  end.

Definition pair_check (name cert key hint : gostr) : Result :=
  match h_pair h cert key with Some e => fail name e hint | None => ok name (bs "loaded") end.

Definition CheckEdge (c : EdgeConfig) : list Result :=
  let t := Tunnel c in
  let i := Ingress c in
  let sock := Socket (e_Admin c) in
  [checkFile (bs "pki: ca") (tn_CA t); checkFile (bs "pki: edge cert") (tn_Cert t); checkFile (bs "pki: edge key") (tn_Key t);
   ca_parse (tn_CA t) (bs "run `coen cert init`");
   pair_check (bs "pki: edge keypair") (tn_Cert t) (tn_Key t) (bs "re-issue with `coen cert edge`")] ++
  (if beq (Mode i) (bs "standalone")
   then [pair_check (bs "pki: public cert") (t_Cert (i_TLS i)) (t_Key (i_TLS i)) (bs "provide a valid public PEM cert/key")] else []) ++
  map fingerprint_check (Routes c) ++
  (if negb (beq (tn_Listen t) []) then [checkBind (bs "bind: tunnel") (tn_Listen t) sock] else []) ++
  (if ShareIngress t
   then [ok (bs "tunnel: shared ingress") (bs "agents may also connect to " ++ i_Listen i ++
           bs " (agents from v0.4.0 on; older ones need tunnel.listen)")] else []) ++
  [checkBind (bs "bind: ingress") (i_Listen i) sock] ++
  (if Config.Enabled (i_HTTP3 i)
   then checkUDPBind (bs "bind: http3 (udp)") (Config.HTTP3Listen i) sock ::
        match udpBuffers procNetCore with Some r => [r] | None => [] end else []) ++
  (if negb (beq (m_Listen (Metrics c)) []) then [checkMetricsBind (m_Listen (Metrics c)) (bs "edge")] else []).

(** ** [CheckAgent] *)

(** The connections it makes: to the edge, and to a service. *)
Inductive contact := ToEdge (addr : gostr) | ToService (addr : gostr).

Definition agentLiveTunnel (socket : gostr) : option gostr :=
  if beq socket [] then None
  else match h_status h socket with
       | Some snap => if negb (TunnelConnected snap) then None else Some (PeerFingerprint snap)
       | None => None
       end.

Definition pin_check (pin fp : gostr) : list Result :=
  if negb (beq pin []) && negb (beq pin fp)
  then [fail (bs "mtls: pin") (bs "got " ++ fp ++ bs " want " ++ pin) (bs "update edge_fingerprint or the edge certificate")]
  else [].

Definition service_check (r : AgentRoute) : Result :=
  let name := bs "service: reach " ++ a_Host r in
  match h_dial h (Service r) with
  | Some e => fail name e (bs "start the local service or fix the route's service address")
  | None => ok name (Service r)
  end.

(** Reachability of the edge: the results, the contacts, and whether the checks
    go on. *)
Definition reach_edge (c : AgentConfig) (host_ port : gostr) (via : option URL) : list Result * list contact * bool :=
  let addr := JoinHostPort host_ port in
  match agentLiveTunnel (Socket (a_Admin c)) with
  | Some fp =>
      ([ok (bs "net: tcp reach") (addr ++ bs " (the running agent's tunnel is live)");
        ok (bs "mtls: handshake") (bs "verified via the running agent's live tunnel to edge " ++ fp)] ++
       pin_check (EdgeFingerprint (Edge c)) fp, [], true)
  | None =>
      match h_edge h addr with
      | Some (auth, e) =>
          let hint :=
            if auth : bool then bs "set the proxy's user:password in edge.proxy (percent-encode special characters)"
            else match via with
                 | Some _ => bs "check edge.proxy, and that the proxy allows CONNECT to port " ++ port ++ bs " (many allow only 443)"
                 | None => bs "open port " ++ port ++ bs " on the edge / firewall"
                 end in
          ([fail (bs "net: tcp reach") e hint], [ToEdge addr], false)
      | None =>
          let reach := match via with Some _ => addr ++ bs " through proxy " ++ h_redacted h | None => addr end in
          (ok (bs "net: tcp reach") reach ::
           match h_shake h with
           | Err e => [fail (bs "mtls: handshake") e (bs "verify the CA matches on both hosts and the edge cert covers " ++ host_)]
           | Ok (fp, valid, text) =>
               ok (bs "mtls: handshake") (bs "transport TLS ok, edge fingerprint " ++ fp ++
                 bs " (route authorization is enforced by the edge, not verified here)") ::
               pin_check (EdgeFingerprint (Edge c)) fp ++
               [if valid : bool then ok (bs "time: cert validity") (bs "within the edge certificate window")
                else fail (bs "time: cert validity") text (bs "check the system clock (NTP) or re-issue the certificate")]
           end, [ToEdge addr], true)
      end
  end.

Definition resolve_check (host_ : gostr) (via : option URL) : Result :=
  match via with
  | Some u =>
      match h_lookup h (Hostname u) with
      | Some e => fail (bs "dns: resolve proxy") e (bs "check the host in edge.proxy")
      | None => ok (bs "dns: resolve proxy") (Hostname u ++ bs " (the proxy resolves " ++ host_ ++ bs ")")
      end
  | None =>
      match h_lookup h host_ with
      | Some e => fail (bs "dns: resolve edge") e (bs "check the hostname or use an IP")
      | None => ok (bs "dns: resolve edge") host_
      end
  end.

Definition CheckAgent (c : AgentConfig) : list Result * list contact :=
  let e := Edge c in
  let out :=
    [checkFile (bs "pki: ca") (er_CA e); checkFile (bs "pki: client cert") (er_Cert e); checkFile (bs "pki: client key") (er_Key e)] ++
    (if negb (beq (EdgeFingerprint e) [])
     then [match ValidateFingerprint (EdgeFingerprint e) with
           | Err err => fail (bs "config: edge_fingerprint") (h_fp_text h err)
                          (bs "edge_fingerprint must be a SHA256:... value, or empty to disable pinning")
           | Ok _ => ok (bs "config: edge_fingerprint") (bs "well-formed")
           end] else []) ++
    (if negb (beq (m_Listen (a_Metrics c)) []) then [checkMetricsBind (m_Listen (a_Metrics c)) (bs "agent")] else []) in
  let ca := ca_parse (er_CA e) (bs "run `coen cert init` to create the CA") in
  if negb (OK ca) then (out ++ [ca], [])
  else
    let out := out ++ [pair_check (bs "pki: client keypair") (er_Cert e) (er_Key e)
                         (bs "cert/key mismatch or unreadable; re-issue with `coen cert agent`")] in
    match SplitHostPort (Address e) with
    | Err err => (out ++ [fail (bs "dns: edge address") (h_addr_text h (Address e) err) (bs "edge.address must be host:port")], [])
    | Ok (host_, port) =>
        let via := ProxyURL e in
        let '(rs, contacts, on) := reach_edge c host_ port via in
        let out := out ++ [resolve_check host_ via] ++ rs in
        if negb on then (out, contacts)
        else (out ++ map service_check (a_Routes c), contacts ++ map (fun r => ToService (Service r)) (a_Routes c))
    end.
End checks.

(** ** Properties *)

Lemma no_failures rs : countFailures rs = 0%nat <-> Forall (fun r => OK r = true) rs.
Proof.
  unfold countFailures. induction rs as [|r rs IH]; [done|]. rewrite Forall_cons, <- IH. cbn [List.filter].
  destruct (OK r); cbn [negb length]; naive_solver.
Qed.

Section edge.
Context `{Unicode} `{Net} (h : host).

(** A bind check that passes where no daemon holds the address: it can be
    bound. *)
Lemma bindCheck_ok name udp addr ours hint : OK (bindCheck h name udp addr ours hint) = true -> ours.2 = false -> h_bind h udp addr = None.
Proof.
  unfold bindCheck. intros Hok Hours. destruct (h_bind h udp addr) as [e|]; [|done]. rewrite Hours in Hok. by destruct (be_cause e).
Qed.

Lemma bad_fingerprint_none fps : bad_fingerprint fps = None -> Forall (fun fp => ValidateFingerprint fp = Ok ()) fps.
Proof.
  induction fps as [|fp fps IH]; cbn [bad_fingerprint]; [constructor|].
  destruct (ValidateFingerprint fp) as [[]|] eqn:E; [|done]. intros Hb. constructor; auto.
Qed.

Lemma Validate_mode c : Validate c = Ok tt -> Mode (Ingress c) = bs "standalone" \/ Mode (Ingress c) = bs "proxied".
Proof.
  unfold Validate. intros (? & Hm & _)%rbind_ok. destruct (beq (Mode (Ingress c)) standalone) eqn:E1; [left; by apply beq_true|].
  destruct (beq (Mode (Ingress c)) proxied) eqn:E2; [right; by apply beq_true|done].
Qed.

(** A TCP listener, in a process that listens on the addresses in [held]. *)
Definition free_beside (held : list gostr) (addr : gostr) : bool :=
  negb (existsb (fun a => h_clash h a addr) held) && match h_bind h false addr with None => true | Some _ => false end.

Definition given (addr : gostr) : list gostr := if beq addr [] then [] else [addr].

(** The listeners [Run] meets on the host: the process listens on the addresses in
    [held] already, and on the tunnel's when it opens the ingress. *)
Definition env_of (c : EdgeConfig) (held : list gostr) (starts dies : bool) (port : Z) : run_env :=
  let tun := tn_Listen (Tunnel c) in
  mkRunEnv (free_beside held tun) (free_beside (held ++ given tun) (i_Listen (Ingress c)))
    (match h_pair h (t_Cert (i_TLS (Ingress c))) (t_Key (i_TLS (Ingress c))) with None => true | Some _ => false end)
    (match h_bind h true (Config.HTTP3Listen (Ingress c)) with None => true | Some _ => false end) starts port dies.

(** Whether two of the addresses an edge listens on over TCP clash: the later one
    in the order it opens them cannot be bound beside the earlier. *)
Definition clashing (c : EdgeConfig) : bool :=
  let m := given (m_Listen (Metrics c)) in
  let t := given (tn_Listen (Tunnel c)) in
  existsb (fun a => existsb (h_clash h a) (t ++ [i_Listen (Ingress c)])) m ||
  existsb (fun a => h_clash h a (i_Listen (Ingress c))) t.

Definition listen_of (addr : gostr) : listen_result :=
  match h_bind h false addr with
  | None => Bound
  | Some e => match be_cause e with EADDRINUSE => InUse | _ => Daemon.OtherError end
  end.

(** The only error once everything is open is the one of HTTP/3's start. *)
Lemma serve_error i tun h3 e err : (ServeWithHTTP3 i tun h3 e).2 = Some err -> err = HTTP3Start /\ ok_start e = false.
Proof. unfold ServeWithHTTP3. destruct h3, (ok_start e); cbn [andb negb snd]; naive_solver. Qed.

(** A [Run] whose listeners all open. *)
Lemma Run_opened c e :
  beq (tn_Listen (Tunnel c)) [] = true \/ ok_tunnel e = true -> listenIngress (Mode (Ingress c)) e = true ->
  Config.Enabled (i_HTTP3 (Ingress c)) = false \/ ok_udp e = true ->
  (Run c e).2 = (ServeWithHTTP3 (Ingress c) (negb (beq (tn_Listen (Tunnel c)) [])) (Config.Enabled (i_HTTP3 (Ingress c))) e).2.
Proof.
  intros Ht Hi Hu. unfold Run. rewrite Hi. cbn [negb].
  assert (negb (beq (tn_Listen (Tunnel c)) []) && negb (ok_tunnel e) = false) as -> by (by destruct Ht as [-> | ->]; [|rewrite andb_false_r]).
  assert (Config.Enabled (i_HTTP3 (Ingress c)) && negb (ok_udp e) = false) as -> by (by destruct Hu as [-> | ->]; [|rewrite andb_false_r]).
  by destruct (ServeWithHTTP3 _ _ _ _).
Qed.

(** What clashes on an edge that listens on its metrics port, or on nothing. *)
Lemma clash_free c held addr : clashing c = false -> held = given (m_Listen (Metrics c)) \/ held = [] ->
  addr = tn_Listen (Tunnel c) /\ beq addr [] = false \/ addr = i_Listen (Ingress c) ->
  existsb (fun a => h_clash h a addr) held = false.
Proof.
  unfold clashing. rewrite orb_false_iff. intros [Hm _] [-> | ->]; [|done].
  unfold given in *. destruct (beq (m_Listen (Metrics c)) []); [done|]. cbn [existsb] in *. rewrite orb_false_r in *.
  rewrite existsb_app, orb_false_iff in Hm. cbn [existsb] in Hm. rewrite orb_false_r in Hm.
  intros [[-> E]| ->]; [|tauto]. rewrite E in Hm. cbn [existsb] in Hm. rewrite orb_false_r in Hm. tauto.
Qed.

(** An edge the doctor passes starts: on a host where no daemon is running,
    if every check passes for a validated configuration, the tunnel's
    certificates load and the edge is built, the metrics port can be bound, and
    every listener [Run] needs can be opened beside it, unless two of the
    addresses clash, so that nothing else can stop the start but HTTP/3 itself;
    and the fingerprint of every agent of every route is well formed. *)
Theorem doctor_edge_starts (c : EdgeConfig) (leaf : option gostr) (st : State) (held : list gostr) (starts dies : bool) (port : Z)
    (Hv : Validate c = Ok tt) (Hok : countFailures (CheckEdge h c) = 0%nat)
    (Hheld : held = given (m_Listen (Metrics c)) \/ held = [])
    (Hidle : forall s, h_status h s = None) (Hnone : forall a, h_probe h a = None) :
  is_Some (New c (if LoadMaterial h (tn_CA (Tunnel c)) (tn_Cert (Tunnel c)) (tn_Key (Tunnel c)) then Some leaf else None) st) /\
  (forall err, (Run c (env_of c held starts dies port)).2 = Some err ->
     err = HTTP3Start /\ starts = false \/ (err = TunnelListen \/ err = IngressListen) /\ clashing c = true) /\
  bindMetrics (m_Listen (Metrics c)) (listen_of (m_Listen (Metrics c))) (h_probe h (m_Listen (Metrics c))) (bs "edge") <> BindFails /\
  Forall (fun r => Forall (fun fp => ValidateFingerprint fp = Ok ()) (Fingerprints r)) (Routes c).
Proof.
  apply no_failures in Hok. unfold CheckEdge in Hok. rewrite !Forall_app in Hok.
  destruct Hok as (Hfiles & Hpub & Hfp & Htun & _ & Hing & Hudp & Hmet).
  assert (Htb : beq (tn_Listen (Tunnel c)) [] = false -> h_bind h false (tn_Listen (Tunnel c)) = None).
  { intros E. rewrite E in Htun. apply Forall_cons in Htun as [Htun _]. eapply bindCheck_ok; [exact Htun|]. rewrite Hidle. by destruct (beq (Socket (e_Admin c)) []). }
  assert (Hib : h_bind h false (i_Listen (Ingress c)) = None).
  { apply Forall_cons in Hing as [Hing _]. eapply bindCheck_ok; [exact Hing|]. rewrite Hidle. by destruct (beq (Socket (e_Admin c)) []). }
  assert (Hub : Config.Enabled (i_HTTP3 (Ingress c)) = true -> h_bind h true (Config.HTTP3Listen (Ingress c)) = None).
  { intros E. rewrite E in Hudp. apply Forall_cons in Hudp as [Hudp _]. eapply bindCheck_ok; [exact Hudp|]. rewrite Hidle. by destruct (beq (Socket (e_Admin c)) []). }
  split_and!.
  - do 3 apply Forall_cons in Hfiles as [_ Hfiles]. apply Forall_cons in Hfiles as [Hca Hpair].
    apply Forall_cons in Hpair as [Hpair _]. unfold LoadMaterial. unfold ca_parse in Hca. unfold pair_check in Hpair.
    destruct (h_read h _) as [pem|]; [|done]. destruct (h_certs h pem); cbn [negb] in *; [|done]. by destruct (h_pair h _ _).
  - intros err. destruct (clashing c) eqn:Ecl.
    + assert (H2 : Config.Enabled (i_HTTP3 (Ingress c)) && negb (ok_udp (env_of c held starts dies port)) = false).
      { destruct (Config.Enabled (i_HTTP3 (Ingress c))) eqn:E; [|done]. cbn [env_of ok_udp]. by rewrite Hub. }
      unfold Run. rewrite H2. destruct (_ && negb (ok_tunnel _)); [cbn [snd]; naive_solver|].
      destruct (negb (listenIngress _ _)); [cbn [snd]; naive_solver|].
      destruct (ServeWithHTTP3 _ _ _ _) as [l' err'] eqn:Es. cbn [snd]. intros ->. left.
      apply (serve_error (Ingress c) _ _ (env_of c held starts dies port) err (f_equal snd Es)).
    + intros Hx. left. revert Hx. rewrite (Run_opened c (env_of c held starts dies port)).
      { apply (serve_error (Ingress c) _ _ (env_of c held starts dies port)). }
      * destruct (beq (tn_Listen (Tunnel c)) []) eqn:E; [by left|right]. cbn [env_of ok_tunnel]. unfold free_beside.
        by rewrite (clash_free c held), (Htb eq_refl) by auto.
      * unfold listenIngress. cbn [env_of ok_public ok_ingress]. unfold free_beside. rewrite Hib, existsb_app, (clash_free c held) by auto.
        unfold clashing in Ecl. apply orb_false_iff in Ecl as [_ ->]. cbn [orb negb andb].
        destruct (Validate_mode c Hv) as [Em|Em]; rewrite Em in *; [|done].
        apply Forall_cons in Hpub as [Hpub _]. unfold pair_check in Hpub. cbn in Hpub |- *. by destruct (h_pair h _ _).
      * destruct (Config.Enabled (i_HTTP3 (Ingress c))) eqn:E; [right|by left]. cbn [env_of ok_udp]. by rewrite Hub.
  - unfold bindMetrics, listen_of. destruct (beq (m_Listen (Metrics c)) []) eqn:E; [done|]. cbn [negb] in Hmet. apply Forall_cons in Hmet as [Hmet _].
    apply bindCheck_ok in Hmet; [by rewrite Hmet|]. cbn [snd]. by rewrite Hnone.
  - apply Forall_forall. intros r Hr. rewrite Forall_map, Forall_forall in Hfp. specialize (Hfp r Hr). cbn in Hfp. unfold fingerprint_check in Hfp.
    apply bad_fingerprint_none. by destruct (bad_fingerprint _) as [[]|].
Qed.
End edge.

Section agent.
Context `{Unicode} `{Net} (h : host).

Definition is_edge (x : contact) : bool := match x with ToEdge _ => true | ToService _ => false end.

(** The edge's fingerprint, from the live tunnel or the handshake. *)
Definition seen_fp (c : AgentConfig) : option gostr :=
  match agentLiveTunnel h (Socket (a_Admin c)) with
  | Some fp => Some fp
  | None => match h_shake h with Ok (fp, _, _) => Some fp | Err _ => None end
  end.

Lemma pin_check_ok pin fp : Forall (fun r => OK r = true) (pin_check pin fp) -> pin = [] \/ pin = fp.
Proof.
  unfold pin_check. destruct (beq pin []) eqn:E1; [left; by apply beq_true|]. destruct (beq pin fp) eqn:E2; [right; by apply beq_true|].
  cbn [negb andb]. intros [Hf _]%Forall_cons. done.
Qed.

Lemma reach_edge_spec c host_ port via rs cs on : reach_edge h c host_ port via = (rs, cs, on) ->
  let addr := JoinHostPort host_ port in
  (match agentLiveTunnel h (Socket (a_Admin c)) with Some _ => cs = [] | None => cs = [ToEdge addr] end) /\
  (Forall (fun r => OK r = true) rs -> on = true /\
    (is_Some (agentLiveTunnel h (Socket (a_Admin c))) \/ h_edge h addr = None) /\
    exists fp, seen_fp c = Some fp /\ (EdgeFingerprint (Edge c) = [] \/ EdgeFingerprint (Edge c) = fp)).
Proof.
  unfold reach_edge, seen_fp. destruct (agentLiveTunnel h _) as [fp|].
  - intros [= <- <- <-]. split; [done|]. intros [_ [_ Hp%pin_check_ok]%Forall_cons]%Forall_cons. split_and!; [done|left; by eexists|]. by exists fp.
  - destruct (h_edge h _) as [[auth e]|] eqn:Ee.
    + intros [= <- <- <-]. split; [done|]. intros [Hf _]%Forall_cons. done.
    + destruct (h_shake h) as [[[fp valid] text]|e]; intros [= <- <- <-]; (split; [done|]); intros [_ Hrs]%Forall_cons.
      * apply Forall_cons in Hrs as [_ [Hp%pin_check_ok _]%Forall_app]. split_and!; [done|by right|]. by exists fp.
      * by apply Forall_cons in Hrs as [Hf _].
Qed.

Lemma service_contacts l : List.filter is_edge (map (fun r => ToService (Service r)) l) = [].
Proof. by induction l. Qed.

(** The doctor observes an agent without disturbing its edge, and what it
    passes works: with the local agent's tunnel up it makes no connection to the
    edge, and otherwise at most one, to the configured address; and when every
    check passes, the tunnel's certificates load, the edge was reached (or the
    live tunnel shows it), its certificate is the pinned one if one is pinned,
    and every route's service accepts connections. *)
Theorem doctor_agent_sound (c : AgentConfig) (rs : list Result) (cs : list contact) (Hc : CheckAgent h c = (rs, cs)) :
  (is_Some (agentLiveTunnel h (Socket (a_Admin c))) -> List.filter is_edge cs = []) /\
  (List.filter is_edge cs = [] \/ exists host_ port, SplitHostPort (Address (Edge c)) = Ok (host_, port) /\
     List.filter is_edge cs = [ToEdge (JoinHostPort host_ port)]) /\
  (countFailures rs = 0%nat ->
     LoadMaterial h (er_CA (Edge c)) (er_Cert (Edge c)) (er_Key (Edge c)) = true /\
     (exists host_ port, SplitHostPort (Address (Edge c)) = Ok (host_, port) /\
        (is_Some (agentLiveTunnel h (Socket (a_Admin c))) \/ h_edge h (JoinHostPort host_ port) = None)) /\
     (exists fp, seen_fp c = Some fp /\ (EdgeFingerprint (Edge c) = [] \/ EdgeFingerprint (Edge c) = fp)) /\
     Forall (fun r => h_dial h (Service r) = None) (a_Routes c)).
Proof.
  unfold CheckAgent in Hc. rewrite no_failures. set (ca := ca_parse h _ _) in Hc.
  match type of Hc with context [(?o ++ [ca], [])] => remember o as out eqn:Hout; clear Hout end.
  destruct (OK ca) eqn:Eca; cbn [negb] in Hc.
  2:{ injection Hc as <- <-. split_and!; [done|by left|]. rewrite Forall_app. intros [_ [Hf _]%Forall_cons]. congruence. }
  destruct (SplitHostPort (Address (Edge c))) as [[host_ port]|err] eqn:Es.
  2:{ injection Hc as <- <-. split_and!; [done|by left|]. rewrite Forall_app. intros [_ [Hf _]%Forall_cons]. done. }
  destruct (reach_edge h c host_ port (ProxyURL (Edge c))) as [[rs0 cs0] on] eqn:Er.
  destruct (reach_edge_spec _ _ _ _ _ _ _ Er) as [Hcs Hrs].
  assert (Hcon : List.filter is_edge cs = List.filter is_edge cs0).
  { destruct on; cbn [negb] in Hc; injection Hc as <- <-; [|done]. by rewrite List.filter_app, service_contacts, app_nil_r. }
  rewrite Hcon. split_and!.
  - intros [fp Hfp]. rewrite Hfp in Hcs. by rewrite Hcs.
  - destruct (agentLiveTunnel h _) in Hcs; rewrite Hcs; [by left|]. right. by exists host_, port.
  - intros Hall.
    assert (Hparts : exists rest, rs = (rest ++ [pair_check h (bs "pki: client keypair") (er_Cert (Edge c)) (er_Key (Edge c))
        (bs "cert/key mismatch or unreadable; re-issue with `coen cert agent`")]) ++
        ([resolve_check h host_ (ProxyURL (Edge c))] ++ rs0) ++ (if on then map (service_check h) (a_Routes c) else [])).
    { exists out. destruct on; cbn [negb] in Hc; injection Hc as <- <-; by rewrite ?app_nil_r, <- ?app_assoc. }
    destruct Hparts as [rest ->]. rewrite !Forall_app in Hall.
    destruct Hall as ((_ & Hpair) & (_ & Hrs0) & Hsv). destruct (Hrs Hrs0) as (-> & Hreach & Hfp).
    apply Forall_cons in Hpair as [Hpair _]. split_and!; [|by exists host_, port|done|].
    + unfold LoadMaterial. unfold ca, ca_parse in Eca. unfold pair_check in Hpair.
      destruct (h_read h _) as [pem|]; [|done]. destruct (h_certs h pem); cbn [negb] in *; [|done]. by destruct (h_pair h _ _).
    + rewrite Forall_map in Hsv. eapply Forall_impl; [exact Hsv|]. intros r Hr. cbn in Hr. unfold service_check in Hr. by destruct (h_dial h _).
Qed.
End agent.

(** ** Witnesses *)

Module DoctorWitness.
#[local] Existing Instance ascii_only.
#[local] Existing Instance ConfigWitness.no_net.

(** A host on which everything is in place and nothing runs. *)
Definition fresh : host :=
  mkHost (fun _ => None) (fun _ => Ok []) (fun _ => true) (fun _ _ => None) (fun _ _ => None) beq (fun _ => None) (fun _ => None)
    (fun _ => None) (fun _ => None) (fun _ => None) (Ok (bs "SHA256:E", true, [])) (fun _ => []) (fun _ _ => []) [].

Definition zeros : gostr := fp_prefix ++ EncodeToString (repeat (byte 0) 32).
Definition edge1 : EdgeConfig :=
  ConfigWitness.conf [mkEdgeRoute (bs "a.example") zeros [] [] false 0 None].

Lemma doctor_edge_starts_witness : (Run edge1 (env_of fresh edge1 [] true false 443)).2 = None /\
  Forall (fun r => Forall (fun fp => ValidateFingerprint fp = Ok ()) (Fingerprints r)) (Routes edge1).
Proof.
  split; [vm_compute; reflexivity|].
  refine (proj2 (proj2 (proj2 (doctor_edge_starts fresh edge1 None (NewState (bs "edge") 0) [] true false 443 _ _ _ _ _))));
    [vm_compute; reflexivity|vm_compute; reflexivity|by right|reflexivity|reflexivity].
Defined.

Lemma doctor_agent_sound_witness :
  h_edge fresh (bs "edge:7443") = None /\ Forall (fun r => h_dial fresh (Service r) = None) (a_Routes ConfigWitness.agent1).
Proof.
  split; [reflexivity|]. destruct (CheckAgent fresh ConfigWitness.agent1) as [rs cs] eqn:E.
  refine (proj2 (proj2 (proj2 (proj2 (proj2 (doctor_agent_sound fresh ConfigWitness.agent1 rs cs E)) _)))).
  vm_compute in E. injection E as <- _. vm_compute. reflexivity.
Defined.
End DoctorWitness.
