(* ===== verification/Errpage.v ===== *)
(** * Error pages ([internal/errpage/errpage.go])

    The page every error response carries, with [html/template]'s escaping of
    the values in it, and the HTTP/1.1 response around it. *)

From S2P Require Import Prelude GoStrings Numeral IO Http1.
#[local] Open Scope Z_scope.
Import Http11.

(** ** [html/template] *)

(** The escaper of text and of title text; values are written byte by byte, as
    what it replaces is ASCII. *)
Definition html_replacement (c : ascii) : gostr :=
  if ceq c (byte 0) then [byte 239; byte 191; byte 189]
  else if ceq c (byte 34) then bs "&#34;"
  else if ceq c "&"%char then bs "&amp;"
  else if ceq c "'"%char then bs "&#39;"
  else if ceq c "+"%char then bs "&#43;"
  else if ceq c "<"%char then bs "&lt;"
  else if ceq c ">"%char then bs "&gt;"
  else [c].

Definition html_escape (s : gostr) : gostr := flat_map html_replacement s.

(** The text of the template; an apostrophe stands for a double quote, which it
    does not contain otherwise. *)
Definition quoted (s : string) : gostr := map (fun c => if ceq c "'"%char then byte 34 else c) (bs s).

Definition page_head : gostr := quoted "<!doctype html>
<html lang='en'>
<head>
<meta charset='utf-8'>
<meta name='viewport' content='width=device-width, initial-scale=1'>
<meta name='color-scheme' content='light'>
<title>".

Definition page_style : gostr := quoted "</title>
<style>
html,body{height:100%;margin:0}
body{display:flex;flex-direction:column;align-items:center;justify-content:center;
min-height:100%;box-sizing:border-box;padding:2rem;text-align:center;
font-family:system-ui,-apple-system,'Segoe UI',Roboto,Helvetica,Arial,sans-serif;
color:#111;background:#fff}
.code{font-size:5rem;font-weight:700;line-height:1;letter-spacing:-.02em}
.reason{font-size:1.5rem;color:#444;margin-top:.5rem}
.detail{font-size:1rem;color:#777;margin-top:1rem}
.footer{font-size:.8rem;color:#999;margin-top:2.5rem}
.footer .id{font-family:ui-monospace,SFMono-Regular,Menlo,Consolas,monospace}
</style>
</head>
<body>
<div class='code'>".

Definition page_reason : gostr := quoted "</div>
<div class='reason'>".

Definition page_detail : gostr := quoted "<div class='detail'>".

Definition page_footer : gostr := quoted "
<div class='footer'>Coen &middot; conn <span class='id'>".

Definition page_end : gostr := quoted "</span></div>
</body>
</html>
".

(** [Render] *)
Definition Render (code : Z) (reason detail connID : gostr) : gostr :=
  page_head ++ html_escape (Itoa code) ++ bs " " ++ html_escape reason ++ page_style ++
  html_escape (Itoa code) ++ page_reason ++ html_escape reason ++ bs "</div>" ++ [LF] ++
  (if negb (beq detail []) then page_detail ++ html_escape detail ++ bs "</div>" else []) ++
  page_footer ++ html_escape connID ++ page_end.

(** [Write]: the bytes written. *)
Definition Write (code : Z) (reason detail connID : gostr) : gostr :=
  let body := Render code reason detail connID in
  bs "HTTP/1.1 " ++ Itoa code ++ bs " " ++ reason ++ CRLF ++
  bs "Content-Type: text/html; charset=utf-8" ++ CRLF ++
  bs "Content-Length: " ++ Itoa (Z.of_nat (length body)) ++ CRLF ++
  bs "Connection: close" ++ CRLF ++ CRLF ++ body.

(** ** Reading it back *)

(** A client reading a response: its status line, then a head and body as of any
    message. *)
Definition parse_response (s : gostr) : option (gostr * list (gostr * gostr) * gostr * gostr) :=
  '(l, s) ← next_line s;
  '(fs, s) ← parse_fields (S (length s)) s;
  f ← message_framing fs;
  '(m, s) ← parse_body [] [] fs f s;
  Some (l, fs, m_body m, s).

(** Undoing the escapes. *)
Definition entities : list (gostr * ascii) :=
  [(bs "&#34;", byte 34); (bs "&amp;", "&"%char); (bs "&#39;", "'"%char); (bs "&#43;", "+"%char); (bs "&lt;", "<"%char); (bs "&gt;", ">"%char)].

Fixpoint unescape (fuel : nat) (s : gostr) : gostr :=
  match fuel, s with
  | S fuel, c :: t =>
      match List.find (fun e => HasPrefix s e.1) entities with
      | Some e => e.2 :: unescape fuel (drop (length e.1) s)
      | None => c :: unescape fuel t
      end
  | _, _ => []
  end.

(** The bytes that make markup. *)
Definition markup (c : ascii) : bool := ceq c "<"%char || ceq c ">"%char || ceq c (byte 34).

(** ** Facts *)

Lemma html_escape_cons c s : html_escape (c :: s) = html_replacement c ++ html_escape s.
Proof. done. Qed.

Lemma html_escape_plain s : List.filter markup (html_escape s) = [].
Proof.
  induction s as [|c s IH]; [done|]. rewrite html_escape_cons, List.filter_app, IH, app_nil_r. clear. by each_byte c.
Qed.

Lemma unescape_replacement fuel c rest : c <> byte 0 -> unescape (S fuel) (html_replacement c ++ rest) = c :: unescape fuel rest.
Proof. intros Hc. each_byte c; by destruct rest. Qed.

Lemma html_unescape_escape s fuel : byte 0 ∉ s -> (length s <= fuel)%nat -> unescape fuel (html_escape s) = s.
Proof.
  revert fuel; induction s as [|c s IH]; intros fuel Hs Hf; [by destruct fuel|].
  destruct fuel as [|fuel]; [simpl in Hf; lia|]. rewrite html_escape_cons, unescape_replacement by (intros ->; apply Hs; by left).
  rewrite IH; [done|intros Hin; apply Hs; by right|simpl in Hf; lia].
Qed.

Definition response_fields (n : nat) : list (gostr * gostr) :=
  [(bs "Content-Type", bs "text/html; charset=utf-8"); (bs "Content-Length", Itoa (Z.of_nat n)); (bs "Connection", bs "close")].

Lemma write_text code reason detail connID rest :
  Write code reason detail connID ++ rest =
  (bs "HTTP/1.1 " ++ Itoa code ++ bs " " ++ reason) ++ CRLF ++
  (field_text (response_fields (length (Render code reason detail connID))) ++ CRLF ++ (Render code reason detail connID ++ rest)).
Proof.
  unfold Write. generalize (Render code reason detail connID) as body. intros body.
  unfold response_fields, field_text. cbn [map concat]. unfold as_line, field_line. cbn [fst snd].
  rewrite ?app_nil_r, <- ?app_assoc. reflexivity.
Qed.

(** An error page is one response and shows what it was given: whatever the
    detail and the connection id hold, a client reads exactly one response with
    the status line of the code and reason, the length its body has, and that
    body, and nothing of what follows belongs to it; no value adds markup to the
    page, and each, unescaped, is the text it was (without NUL bytes). *)
Theorem error_page_framed (code : Z) (reason detail connID rest : gostr) (Hcode : 0 <= code) (Hreason : LF ∉ reason) :
  (exists fields, parse_response (Write code reason detail connID ++ rest) =
     Some (bs "HTTP/1.1 " ++ Itoa code ++ bs " " ++ reason, fields, Render code reason detail connID, rest) /\
     fields_of (bs "Connection") fields = [bs "close"]) /\
  List.filter markup (Render code reason detail connID) =
    List.filter markup (Render 0 [] (if beq detail [] then [] else bs "x") []) /\
  (forall v, byte 0 ∉ v -> unescape (length v) (html_escape v) = v).
Proof.
  split_and!.
  - set (body := Render code reason detail connID). exists (map as_read (response_fields (length body))). split; [|reflexivity].
    unfold parse_response. rewrite write_text. fold body.
    rewrite next_line_app; [|rewrite !not_elem_of_app; split_and!; [|by apply Itoa_avoid| |done]; apply (bool_decide_unpack _); by vm_compute].
    cbn [mbind option_bind]. rewrite parse_fields_all.
    2:{ unfold response_fields. repeat constructor; try (apply (bool_decide_unpack _); by vm_compute). apply Itoa_avoid; [lia|done]. }
    cbn [mbind option_bind].
    assert (Hf : message_framing (map as_read (response_fields (length body))) = Some (Sized (length body))).
    { unfold message_framing. change (fields_of (bs "Transfer-Encoding") _) with ([] : list gostr).
      change (fields_of (bs "Content-Length") _) with [trim_ows (Itoa (Z.of_nat (length body)))].
      rewrite trim_ows_Itoa by lia. cbn iota beta. rewrite parse_Itoa by lia. cbn [mbind option_bind]. do 2 f_equal. lia. }
    rewrite Hf. cbn [mbind option_bind parse_body]. rewrite (proj2 (Nat.ltb_ge _ _)) by (rewrite length_app; lia).
    rewrite take_app_length, drop_app_length. reflexivity.
  - unfold Render. rewrite !List.filter_app, !html_escape_plain. destruct (beq detail []); cbn [negb]; [reflexivity|].
    rewrite !List.filter_app, !html_escape_plain. reflexivity.
  - intros v Hv. by apply html_unescape_escape.
Qed.

(** ** Witnesses *)

Module ErrpageWitness.
Lemma error_page_framed_witness :
  exists fields body, parse_response (Write 502 (bs "Bad Gateway") (bs "<b>") (bs "c1") ++ bs "x") =
    Some (bs "HTTP/1.1 502 Bad Gateway", fields, body, bs "x").
Proof.
  destruct (error_page_framed 502 (bs "Bad Gateway") (bs "<b>") (bs "c1") (bs "x")) as [(fields & Hf & _) _];
    [lia|apply (bool_decide_unpack _); vm_compute; exact I|].
  exists fields. eexists. exact Hf.
Defined.
End ErrpageWitness.
