(* ===== verification/Isolation.v ===== *)
(** * Routes and sessions together

    What dispatching relies on from whoever keeps the agents' sessions, as a
    class; what dispatching then promises, proved against the class; the
    registry as its instance; and the two composed with the edge's
    configuration: a request only ever touches agents its route names. *)

From S2P Require Import Prelude GoStrings IO Route Registry Balance Tunnel Config Obs Edge Lifecycle.
From S2P Require Import Dispatch.
#[local] Open Scope Z_scope.

(** ** The interface *)

(** A keeper of sessions: its sound states, the sessions it offers for
    fingerprints (live ones, and dead ones to clean up), and what it promises of
    them. *)
Class SessionSource (S : Type) := {
  src_ok : S -> Prop;
  src_candidates : S -> list gostr -> list agentConn * list agentConn;
  src_holds : S -> agentConn -> Prop;
  src_live : S -> agentConn -> Prop;
  src_named : forall s fps c, src_ok s ->
    c ∈ (src_candidates s fps).1 \/ c ∈ (src_candidates s fps).2 -> c_fp c ∈ fps /\ src_holds s c;
  src_fresh : forall s fps c, c ∈ (src_candidates s fps).1 -> src_live s c;
}.

(** ** What dispatching does with it *)

(** The session an effect acts on. *)
Definition session_of (x : effect) : option agentConn :=
  match x with
  | Reserve c | Release c | CloseStream c | Evict c | Retire c | CoolFor c _ | Warm c _ | Try c _ | SendPreamble c | SendHead c => Some c
  | Failure _ | AgentWait => None
  end.

Section within.
Context (P Q : agentConn -> Prop).

(** Effects only on sessions with [P]. *)
Definition within (l : list effect) : Prop := Forall (fun x => forall c, session_of x = Some c -> P c) l.

Lemma within_app l1 l2 : within (l1 ++ l2) <-> within l1 /\ within l2.
Proof. apply Forall_app. Qed.

Lemma within_evict ds : Forall P ds -> within (map Evict ds).
Proof. unfold within. rewrite Forall_map. intros H. eapply Forall_impl; [exact H|]. by intros c Hc ? [= <-]. Qed.

Lemma within_one c l : P c -> Forall (fun x => session_of x = Some c) l -> within l.
Proof. intros Hc Hl. eapply Forall_impl; [exact Hl|]. intros x Hx d Hd. congruence. Qed.

Lemma tryAgent_one c a : Forall (fun x => session_of x = Some c) (tryAgent c a).2.
Proof. unfold tryAgent, fail, stalledAfter. repeat case_match; simplify_eq/=; repeat constructor; repeat case_match; repeat constructor. Qed.

(** The candidates of every look have [P], the live ones [Q] too. *)
Definition offers (env : once_env) : Prop :=
  forall k, Forall (fun c => P c /\ Q c) (o_cands env k).1 /\ Forall P (o_cands env k).2.

Lemma untried_within env k tried cands l : offers env -> untried env k tried = (cands, l) -> Forall (fun c => P c /\ Q c) cands /\ within l.
Proof.
  intros Ho. unfold untried. destruct (o_cands env k) as [live dead] eqn:E. intros [= <- <-].
  destruct (Ho k) as [Hl Hd]. rewrite E in Hl, Hd. split; [|by apply within_evict].
  rewrite Forall_forall in *. intros c Hc. apply Hl. apply list_elem_of_In, filter_In in Hc as [Hc _]. by apply list_elem_of_In.
Qed.

Lemma attempt_wait_within env k c cands tried n w aw cands' l : offers env -> Forall (fun c => P c /\ Q c) cands ->
  attempt_wait env k c cands tried n w = (aw, cands', l) -> Forall (fun c => P c /\ Q c) cands' /\ within l.
Proof.
  intros Ho Hc. unfold attempt_wait. destruct (_ && _); [|intros [= <- <- <-]; split; [done|constructor]].
  destruct (1 <? n); [|intros [= <- <- <-]; split; [done|constructor]].
  destruct (untried env (S k) tried) as [fresh l0] eqn:Eu. destruct (untried_within _ _ _ _ _ Ho Eu) as [Hf Hl].
  destruct fresh; intros [= <- <- <-]; (split; [|done]); [done|]. by apply Forall_app.
Qed.

Lemma once_loop_within balance env fuel k cands tried a u w l : offers env -> Forall (fun c => P c /\ Q c) cands ->
  once_loop balance env fuel k cands tried a u = Some (w, l) -> within l /\ forall c, w = Dispatched c -> P c /\ Q c.
Proof.
  intros Ho. revert k cands tried a u l; induction fuel as [|fuel IH]; intros k cands tried a u l Hc; [done|]. cbn [once_loop].
  assert (Hstop : forall l0, within l0 -> (if u =? a then Some (noAgentWhy, l0) else Some (StreamError, l0 ++ [Failure ReasonStreamError])) = Some (w, l) ->
    within l /\ forall c, w = Dispatched c -> P c /\ Q c).
  { intros l0 Hl0. destruct (u =? a); intros [= <- <-]; (split; [|done]); [done|]. apply within_app. split; [done|]. by repeat constructor. }
  destruct (_ <=? 0); [apply (Hstop []); constructor|].
  unfold pickReserve. destruct (pick _ _ _ _ _) as [[c tried']|] eqn:Ep.
  - destruct (pick_fresh _ _ _ _ _ _ _ Ep) as (Hin & _ & _).
    assert (HPQ : P c /\ Q c) by (rewrite Forall_forall in Hc; by apply Hc).
    destruct (attempt_wait _ _ _ _ _ _ _) as [[aw cands'] l2] eqn:Ea.
    destruct (attempt_wait_within _ _ _ _ _ _ _ _ _ _ Ho Hc Ea) as [Hc' Hl2].
    pose proof (tryAgent_one c (o_answers env k)) as Ht. destruct (tryAgent c (o_answers env k)) as [o l3].
    assert (Hl : within ([Reserve c] ++ l2 ++ Try c aw :: l3)).
    { apply within_app. split; [apply (within_one c); [apply HPQ|by repeat constructor]|]. apply within_app. split; [done|].
      apply (within_one c); [apply HPQ|]. by constructor. }
    assert (Hrec : forall a u, (once_loop balance env fuel (S k) cands' tried' a u ≫= λ '(w, l'), Some (w, ([Reserve c] ++ l2 ++ Try c aw :: l3) ++ l')) = Some (w, l) ->
      within l /\ forall c, w = Dispatched c -> P c /\ Q c).
    { intros a' u'. destruct (once_loop _ _ _ _ _ _ _ _) as [[w' l']|] eqn:El; [|done]. intros [= <- <-].
      destruct (IH _ _ _ _ _ _ Hc' El) as [Hl' Hw]. split; [|done].
      change (within ((Reserve c :: l2 ++ Try c aw :: l3) ++ l')). by apply within_app. }
    destruct o; [|apply Hrec|apply Hrec|].
    + intros [= <- <-]. split; [|by intros d [= <-]]. change (within ((Reserve c :: l2 ++ Try c aw :: l3) ++ [Warm c (cool_until (o_loads env k) c)])).
      apply within_app. split; [done|].
      apply (within_one c); [apply HPQ|by repeat constructor].
    + intros [= <- <-]. split; [|done]. change (within ((Reserve c :: l2 ++ Try c aw :: l3) ++ [Failure ReasonStreamError])).
      apply within_app. split; [done|by repeat constructor].
  - destruct (untried env (S k) tried) as [fresh l2] eqn:Eu. destruct (untried_within _ _ _ _ _ Ho Eu) as [Hf Hl2].
    destruct fresh as [|f fs]; [by apply Hstop|].
    destruct (once_loop _ _ _ _ _ _ _ _) as [[w' l']|] eqn:El; [|done]. intros [= <- <-].
    destruct (IH _ _ _ _ _ _ Hf El) as [Hl' Hw]. split; [by apply within_app|done].
Qed.

Lemma dispatchOnce_within balance env fuel w l : offers env -> dispatchOnce balance env fuel = Some (w, l) ->
  within l /\ forall c, w = Dispatched c -> P c /\ Q c.
Proof.
  intros Ho. unfold dispatchOnce. destruct (untried env 0 ∅) as [cands l0] eqn:Eu.
  destruct (untried_within _ _ _ _ _ Ho Eu) as [Hc Hl0]. destruct cands as [|c cs]; [by intros [= <- <-]|].
  destruct (negb _); [intros [= <- <-]; split; [|done]; apply within_app; split; [done|by repeat constructor]|].
  destruct (once_loop _ _ _ _ _ _ _ _) as [[w' l']|] eqn:El; [|done]. intros [= <- <-].
  destruct (once_loop_within _ _ _ _ _ _ _ _ _ _ Ho Hc El) as [Hl' Hw]. split; [by apply within_app|done].
Qed.

Lemma dispatch_loop_within balance wait env fuel j until r l : (forall j, offers (d_round env j)) ->
  dispatch_loop balance wait env fuel j until = Some (r, l) -> within l /\ forall c, r = Ok c -> P c /\ Q c.
Proof.
  intros Ho. revert j until r l; induction fuel as [|fuel IH]; intros j until r l; [done|]. cbn [dispatch_loop].
  destruct (dispatchOnce _ _ _) as [[w l1]|] eqn:Eo; [|done]. cbn [mbind option_bind].
  destruct (dispatchOnce_within _ _ _ _ _ (Ho j) Eo) as [Hl1 Hw].
  assert (Hwait : forall (o : option (result refusal agentConn * list effect)) (l2 : list effect), within l2 ->
    o = Some (r, l) ->
    o = Some (Err noAgent, l1 ++ l2 ++ [Failure ReasonNoAgent]) \/
    (exists u, o = ('(r, l3) ← dispatch_loop balance wait env fuel (S j) u; Some (r, l1 ++ l2 ++ l3))) ->
    within l /\ forall c, r = Ok c -> P c /\ Q c).
  { intros o l2 Hl2 Ho1 [Ho2|[u Ho2]]; rewrite Ho2 in Ho1; clear Ho2.
    - injection Ho1 as <- <-. split; [|done]. rewrite !within_app. split_and!; [done|done|by repeat constructor].
    - destruct (dispatch_loop _ _ _ _ _ _) as [[r3 l3]|] eqn:Er; [|done]. injection Ho1 as -> <-.
      destruct (IH _ _ _ _ Er) as [Hl3 Hr]. split; [|done]. by rewrite !within_app. }
  assert (Hagain : forall x, (let clock := d_clock env j in
      let '(until, l2) := match until with
        | None => if 0 <? wait then (Some (clock + wait), [AgentWait]) else (None, [])
        | Some u => (Some u, []) end in
      let left := match until with Some u => u - clock | None => 0 end in
      let refuse := Some (Err noAgent, l1 ++ l2 ++ [Failure ReasonNoAgent]) in
      if 0 <? left then match d_wake env j with
        | WakeJoined | WakeTimer => '(r, l3) ← dispatch_loop balance wait env fuel (S j) until; Some (r, l1 ++ l2 ++ l3)
        | WakeCtx | WakeStopping => refuse end
      else refuse) = x -> x = Some (r, l) -> within l /\ forall c, r = Ok c -> P c /\ Q c).
  { intros x <- Hx. assert (Hn : within []) by constructor. assert (Hw1 : within [AgentWait]) by (by repeat constructor).
    destruct until as [u|]; [|destruct (0 <? wait)]; cbv zeta beta iota in Hx;
      [apply (Hwait _ [] Hn Hx)|apply (Hwait _ _ Hw1 Hx)|apply (Hwait _ [] Hn Hx)];
      destruct (0 <? _); try destruct (d_wake env j); eauto. }
  destruct w as [c| | | | |]; try (by eapply Hagain); intros [= <- <-]; (split; [done|]); [|done..].
  intros d [= <-]. by apply Hw.
Qed.
End within.

(** ** Dispatching from a source *)

Section client.
Context {S : Type} `{SessionSource S} (fps : list gostr) (looks : nat -> nat -> S).

(** The rounds look at sound states of the source. *)
Definition fed (env : dispatch_env) : Prop :=
  forall j k, src_ok (looks j k) /\ o_cands (d_round env j) k = src_candidates (looks j k) fps.

Definition held_at (c : agentConn) : Prop := c_fp c ∈ fps /\ exists j k, src_holds (looks j k) c.
Definition live_at (c : agentConn) : Prop := exists j k, src_live (looks j k) c.

Lemma fed_offers env j : fed env -> offers held_at live_at (d_round env j).
Proof.
  intros Hf k. destruct (Hf j k) as [Hok ->].
  assert (Hheld : forall c, c ∈ (src_candidates (looks j k) fps).1 \/ c ∈ (src_candidates (looks j k) fps).2 -> held_at c).
  { intros c Hc. destruct (src_named _ _ _ Hok Hc). split; eauto. }
  split; apply Forall_forall; intros c Hc; [|by apply Hheld; right].
  split; [by apply Hheld; left|]. exists j, k. by eapply src_fresh.
Qed.

(** Whatever keeps the sessions, dispatching acts only on sessions it held for
    the route, and hands out one that was live when it was looked at. *)
Lemma dispatch_within_source balance wait env fuel r l : fed env -> dispatch balance wait env fuel = Some (r, l) ->
  within held_at l /\ forall c, r = Ok c -> held_at c /\ live_at c.
Proof. intros Hf. apply dispatch_loop_within. intros j. by apply fed_offers. Qed.
End client.

(** ** The registry as the source *)

#[export] Instance registry_source : SessionSource world.
Proof.
  refine (Build_SessionSource world (fun w => reg_inv (Registry.w_reg w))
    (fun w fps => candidates (isClosed w) fps (Registry.w_reg w))
    (fun w c => c ∈ pool (Registry.w_reg w) (c_fp c)) (fun w c => isClosed w (c_sess c) = false) _ _).
  - intros w fps c Hinv Hc.
    assert (Hin : In c (flat_map (pool (Registry.w_reg w)) fps)).
    { unfold candidates in Hc. cbn [fst snd] in Hc. by destruct Hc as [Hc|Hc]; apply list_elem_of_In, filter_In in Hc as [Hc _]. }
    apply in_flat_map in Hin as (fp & Hfp%list_elem_of_In & Hp%list_elem_of_In).
    destruct (inv_pool_elem _ _ _ Hinv Hp) as [-> _]. done.
  - intros w fps c Hc. unfold candidates in Hc. cbn [fst] in Hc.
    apply list_elem_of_In, filter_In in Hc as [_ Hc]. by apply negb_true_iff.
Defined.

(** ** With the configuration *)

(** [C3] Requests stay on their route: on an edge built from a validated
    configuration, whatever agents connect, leave or are refused meanwhile, a
    request for a host is dispatched only over sessions whose certificate the
    configured route that covers the host names; every session it reserves,
    tries, sends the request to, cools down or evicts is such a session, pooled
    in the registry when it was looked up and on the edge's allow-list; and the
    one that is handed the request was open then. *)
Theorem request_stays_on_route `{Unicode} `{Net} (c : EdgeConfig) (m : option (option gostr)) (st st' : State) (e : edge)
    (host : gostr) (er : edge_route) (looks : nat -> nat -> world) (balance : gostr) (wait : Z) (env : dispatch_env) (fuel : nat)
    (r : result refusal agentConn) (l : list effect)
    (Hv : Validate c = Ok tt) (Hn : Lifecycle.New c m st = Some (e, st')) (Hm : Match (e_routes e) host = Some er)
    (Hreach : forall j k, rtc Registry.step (Registry.initial (shared (e_reg e))) (looks j k))
    (Henv : forall j k, o_cands (d_round env j) k = candidates (isClosed (looks j k)) (er_fps er) (Registry.w_reg (looks j k)))
    (Hd : dispatch balance wait env fuel = Some (r, l)) :
  exists route, route ∈ Routes c /\ covers (classify (r_Host route)) (Normalize host) = true /\
    (forall x s, x ∈ l -> session_of x = Some s ->
       c_fp s ∈ Fingerprints route /\ c_fp s ∈ e_allowed e /\ exists j k, s ∈ pool (Registry.w_reg (looks j k)) (c_fp s)) /\
    (forall s, r = Ok s -> c_fp s ∈ Fingerprints route /\ exists j k, isClosed (looks j k) (c_sess s) = false).
Proof.
  unfold Lifecycle.New in Hn. destruct m as [leaf|]; [|done]. injection Hn as <- <-. cbn [e_routes e_allowed e_reg shared] in *.
  apply match_sound in Hm as (en & (Hin & Hcov & _) & <-). apply list_elem_of_fmap in Hin as (route & -> & Hr).
  cbn [Pattern Value route_of er_fps] in *. exists route. split_and!; [done|done|..].
  all: destruct (dispatch_within_source (Fingerprints route) looks balance wait env fuel r l) as [Hw Hs]; [|done|].
  - intros j k. split; [|apply Henv]. by apply (reg_steps_inv _ _ (Hreach j k)), Registry.initial_inv.
  - intros x s Hx Hsx. unfold within in Hw. rewrite Forall_forall in Hw. destruct (Hw x Hx s Hsx) as (Hfp & j & k & Hp).
    split_and!; [done|apply AllowedFingerprints_elem; by exists route|by exists j, k].
  - intros j k. split; [|apply Henv]. by apply (reg_steps_inv _ _ (Hreach j k)), Registry.initial_inv.
  - intros s Hrs. by destruct (Hs s Hrs) as [[Hfp _] Hlive].
Qed.

(** ** Witnesses *)

Module IsolationWitness.
#[local] Existing Instance ascii_only.
#[local] Existing Instance ConfigWitness.no_net.

(** The edge of [LifecycleWitness], one agent connected, and a request that it
    takes. *)
Definition look : world := RegistryWitness.w1.
Definition once : once_env :=
  mkOnce 0 (fun k => Z.of_nat k) (fun _ => candidates (isClosed look) [RegistryWitness.fpA] (Registry.w_reg look))
    (fun _ => DispatchWitness.calm) (fun _ => DispatchWitness.takes) true 0.
Definition the_env : dispatch_env := mkDispatch (fun _ => once) (fun _ => 10%nat) (fun j => Z.of_nat j) (fun _ => WakeJoined).
Definition route_a : edge_route := route_of (ConfigWitness.mkroute "a.example" "SHA256:A").

Lemma request_stays_on_route_witness :
  exists route, route ∈ Routes ConfigWitness.c1 /\ c_fp RegistryWitness.c1 ∈ Fingerprints route.
Proof.
  destruct (request_stays_on_route ConfigWitness.c1 (Some None) (NewState (bs "edge") 0) LifecycleWitness.built.2 LifecycleWitness.built.1
    (bs "a.example") route_a (fun _ _ => look) BalanceRoundRobin second the_env 5 (Ok RegistryWitness.c1)
    [Reserve RegistryWitness.c1; Try RegistryWitness.c1 (2 * acceptWait); SendHead RegistryWitness.c1; Warm RegistryWitness.c1 0])
    as (route & Hin & _ & _ & Hr).
  - vm_compute. reflexivity.
  - reflexivity.
  - vm_compute. reflexivity.
  - intros _ _. exact RegistryWitness.reach1.
  - reflexivity.
  - vm_compute. reflexivity.
  - exists route. split; [exact Hin|exact (proj1 (Hr _ eq_refl))].
Defined.
End IsolationWitness.
