(* ===== verification/WebSocket.v ===== *)
(** * The bytes of a WebSocket over HTTP/3 ([internal/edge/http3ws.go])

    After the upgrade [serveHTTP3WebSocket] copies frames both ways in two
    goroutines, and ends them when the service is done, when the client breaks
    off, or some time after the client has ended its side: a step relation over
    the two copies, the handler and the clock. *)

From S2P Require Import Prelude GoStrings IO Http1 H3Body Proxy.
#[local] Open Scope Z_scope.

(** In nanoseconds. *)
Definition closeGrace : Z := 5 * 10 ^ 9.

(** ** The copy to the client ([copyResponse]) *)

Record down_half := mkDown { dn_src : script; dn_written : gostr; dn_ended : option (option error) }.

Definition response_end (er : option error) : option (option error) :=
  match er with
  | None => None
  | Some e => Some (if errors_is e EOF then None else Some e)
  end.

(** A round of its loop; [w] is what the write to the client returns. *)
Definition response_round (w : Z * option error) (h : down_half) : option down_half :=
  '(c, er, s) ← Read copyBuffer (dn_src h);
  match c with
  | [] => Some (mkDown s (dn_written h) (response_end er))
  | _ => Some (mkDown s (dn_written h ++ take (Z.to_nat w.1) c)
                 (match w.2 with Some e => Some (Some e) | None => response_end er end))
  end.

(** ** The handler *)

Inductive at_handler :=
| Waiting                                  (* the first select *)
| Grace (until : Z)                        (* the client is done; the second select *)
| AbortTunnel (up_done : bool)
| CloseBody (up_done : bool)
| ExpireWrites (up_done : bool)
| WaitDown (up_done : bool)
| WaitUp
| Done.

(** [up_at] records when the copy to the tunnel ended. *)
Record bridge := mkBridge { up : half; down : down_half; handler : at_handler; clock : Z; up_at : Z }.

(** Whether the handler has ended the tunnel stream, the body, and writes to the
    client. *)
Definition stage (h : at_handler) : nat :=
  match h with
  | Waiting | Grace _ | AbortTunnel _ => 0
  | CloseBody _ => 1
  | ExpireWrites _ => 2
  | WaitDown _ | WaitUp | Done => 3
  end.

Inductive event :=
| UpRound (w : Z * option error)           (* a round of the copy to the tunnel *)
| UpEnds (e : error)                       (* its read or write ends: body or tunnel closed *)
| DownRound (w : Z * option error)         (* a round of the copy to the client *)
| DownEnds (e : error)                     (* its read or write ends: tunnel closed or deadline expired *)
| SeeDown | SeeUp | Timer                  (* the handler's selects *)
| Go                                       (* its next statement *)
| Tick (d : Z).

Definition set_up (h : half) (b : bridge) : bridge := mkBridge h (down b) (handler b) (clock b) (clock b).
Definition set_down (h : down_half) (b : bridge) : bridge := mkBridge (up b) h (handler b) (clock b) (up_at b).
Definition set_handler (h : at_handler) (b : bridge) : bridge := mkBridge (up b) (down b) h (clock b) (up_at b).

Definition enabled (ev : event) (b : bridge) : Prop :=
  match ev with
  | UpRound w => ended (up b) = None /\
      match Read copyBuffer (src (up b)) with Some (c, _, _) => write_ok w (Z.of_nat (length c)) | None => False end
  | UpEnds _ => ended (up b) = None /\ (1 <= stage (handler b))%nat
  | DownRound w => dn_ended (down b) = None /\
      match Read copyBuffer (dn_src (down b)) with Some (c, _, _) => write_ok w (Z.of_nat (length c)) | None => False end
  | DownEnds _ => dn_ended (down b) = None /\ (1 <= stage (handler b))%nat
  | SeeDown => dn_ended (down b) <> None /\ match handler b with Waiting | Grace _ => True | _ => False end
  | SeeUp => ended (up b) <> None /\ handler b = Waiting
  | Timer => match handler b with Grace t => t <= clock b | _ => False end
  | Go =>
      match handler b with
      | AbortTunnel _ | CloseBody _ | ExpireWrites _ => True
      | WaitDown _ => dn_ended (down b) <> None
      | WaitUp => ended (up b) <> None
      | _ => False
      end
  | Tick d => 0 <= d
  end.

Definition exec (ev : event) (b : bridge) : bridge :=
  match ev with
  | UpRound w => match copy_round w (up b) with Some h => set_up h b | None => b end
  | UpEnds e => set_up (copy_closed e (up b)) b
  | DownRound w => match response_round w (down b) with Some h => set_down h b | None => b end
  | DownEnds e => set_down (mkDown (dn_src (down b)) (dn_written (down b)) (response_end (Some e))) b
  | SeeDown => set_handler (match handler b with Grace _ => AbortTunnel true | _ => AbortTunnel false end) b
  | SeeUp => set_handler (match ended (up b) with Some None => Grace (clock b + closeGrace) | _ => AbortTunnel true end) b
  | Timer => set_handler (AbortTunnel true) b
  | Go =>
      set_handler (match handler b with
                   | AbortTunnel u => CloseBody u
                   | CloseBody u => ExpireWrites u
                   | ExpireWrites u => WaitDown u
                   | WaitDown u => if u then Done else WaitUp
                   | WaitUp => Done
                   | h => h
                   end) b
  | Tick d => mkBridge (up b) (down b) (handler b) (clock b + d) (up_at b)
  end.

Definition step : bridge -> bridge -> Prop := steps enabled exec.

(** [buffered] are the bytes that came with the service's 101. *)
Definition initial (client : script) (buffered : gostr) (service : script) (t0 : Z) : bridge :=
  mkBridge (new_half client) (mkDown ((buffered, None) :: service) [] None) Waiting t0 t0.

(** ** The invariant *)

Record down_ok (s0 : script) (aborted : bool) (h : down_half) : Prop := {
  dk_prefix : prefix (dn_written h) (until_end s0);
  dk_running : dn_ended h = None -> until_end s0 = dn_written h ++ until_end (dn_src h) /\ end_error s0 = end_error (dn_src h);
  dk_complete : dn_ended h = Some None -> aborted = true \/
    dn_written h = until_end s0 /\ exists e, end_error s0 = Some e /\ errors_is e EOF = true;
}.

(** Why the handler ends the connections: a side that has ended, or the time it
    gave the service after the client's clean end. *)
Definition ends_for (b : bridge) : Prop :=
  dn_ended (down b) <> None \/
  (exists e, ended (up b) = Some (Some e)) \/
  (ended (up b) = Some None /\ up_at b + closeGrace <= clock b).

Definition aborted (b : bridge) : bool := (1 <=? stage (handler b))%nat.

Record bridge_ok (client service : script) (b : bridge) : Prop := {
  bk_up : half_ok client (aborted b) (up b);
  bk_down : down_ok service (aborted b) (down b);
  bk_at : up_at b <= clock b;
  bk_handler : match handler b with
    | Waiting => True
    | Grace t => ended (up b) = Some None /\ up_at b + closeGrace <= t
    | AbortTunnel u => ends_for b /\ (u = true -> ended (up b) <> None)
    | CloseBody u | ExpireWrites u | WaitDown u => u = true -> ended (up b) <> None
    | WaitUp => dn_ended (down b) <> None
    | Done => dn_ended (down b) <> None /\ ended (up b) <> None
    end;
}.

Lemma response_round_ok s0 ab w h h' : down_ok s0 ab h -> dn_ended h = None -> response_round w h = Some h' ->
  match Read copyBuffer (dn_src h) with Some (c, _, _) => write_ok w (Z.of_nat (length c)) | None => False end -> down_ok s0 ab h'.
Proof.
  intros [Hpre Hrun _] Hen. destruct (Hrun Hen) as [Hu He]. unfold response_round. clear Hrun.
  destruct (Read copyBuffer (dn_src h)) as [[[c er] s]|] eqn:ER; [|done]. cbn [mbind option_bind].
  rewrite (Read_until_end _ _ _ _ _ ER) in Hu. rewrite (Read_end_error _ _ _ _ _ ER) in He. clear ER.
  assert (Hend : response_end er = Some None -> exists e, er = Some e /\ errors_is e EOF = true).
  { destruct er as [e|]; cbn [response_end]; [|done]. destruct (errors_is e EOF) eqn:E; [|done]. eauto. }
  destruct c as [|x c].
  { intros [= <-] _. cbn [app] in Hu. split; cbn [dn_written dn_ended dn_src]; [done|by destruct er|].
    intros (e & -> & Hq)%Hend. right. rewrite Hu, app_nil_r. eauto. }
  destruct w as [nw ew]. cbn [fst snd]. intros [= <-] [Hw Hshort]. cbn [fst snd] in *.
  assert (Hfull : ew = None -> take (Z.to_nat nw) (x :: c) = x :: c).
  { intros Hew. apply take_ge. destruct (Z.lt_ge_cases nw (Z.of_nat (length (x :: c)))) as [Hlt|]; [by apply Hshort in Hlt|lia]. }
  split; cbn [dn_written dn_ended dn_src].
  - rewrite Hu. apply prefix_app. etrans; [|by eapply prefix_app_r]. apply prefix_take.
  - destruct ew; [done|]. rewrite (Hfull eq_refl). destruct er; [done|]. intros _. by rewrite <- app_assoc.
  - destruct ew; [done|]. rewrite (Hfull eq_refl). intros (e & -> & Hq)%Hend. right. rewrite app_nil_r in Hu. eauto.
Qed.

Lemma down_ok_mono s0 c c' h : down_ok s0 c h -> (c = true -> c' = true) -> down_ok s0 c' h.
Proof. intros [H1 H2 H3] Hc. split; [done..|]. intros He. destruct (H3 He); auto. Qed.

(** The handler moves on. *)
Lemma set_handler_ok client service h b : bridge_ok client service b -> (aborted b = true -> aborted (set_handler h b) = true) ->
  match h with
  | Waiting => True
  | Grace t => ended (up b) = Some None /\ up_at b + closeGrace <= t
  | AbortTunnel u => ends_for b /\ (u = true -> ended (up b) <> None)
  | CloseBody u | ExpireWrites u | WaitDown u => u = true -> ended (up b) <> None
  | WaitUp => dn_ended (down b) <> None
  | Done => dn_ended (down b) <> None /\ ended (up b) <> None
  end -> bridge_ok client service (set_handler h b).
Proof.
  intros [Hu Hd Ha _] Hm Hh. split; [by eapply half_ok_mono|by eapply down_ok_mono|done|done].
Qed.

Lemma set_up_ok client service h b : bridge_ok client service b -> ended (up b) = None -> half_ok client (aborted b) h ->
  bridge_ok client service (set_up h b).
Proof.
  intros [Hu Hd Ha Hh] Hen Hok. split; [done|done|cbn; lia|]. cbn [handler set_up].
  destruct (handler b) as [|t|u|u|u|u| |] eqn:Eh; cbn [up down set_up]; [done|destruct Hh; congruence| | | | |done|by destruct Hh].
  - destruct Hh as [Hf Hu']. split; [|intros ->; by destruct (Hu' eq_refl)]. unfold ends_for in *. cbn.
    destruct Hf as [Hf|[[e Hf]|[Hf _]]]; [by left|congruence|congruence].
  - intros ->. by destruct (Hh eq_refl).
  - intros ->. by destruct (Hh eq_refl).
  - intros ->. by destruct (Hh eq_refl).
Qed.

Lemma set_down_ok client service h b : bridge_ok client service b -> dn_ended (down b) = None -> down_ok service (aborted b) h ->
  bridge_ok client service (set_down h b).
Proof.
  intros [Hu Hd Ha Hh] Hen Hok. split; [done|done|done|]. cbn [handler set_down].
  destruct (handler b) as [|t|u|u|u|u| |] eqn:Eh; cbn [up down set_down]; [done|done| |done|done|done|done|by destruct Hh].
  destruct Hh as [Hf Hu']. split; [|done]. unfold ends_for in *. cbn. destruct Hf as [Hf|Hf]; [done|by right].
Qed.

Lemma bridge_exec_ok client service ev b : enabled ev b -> bridge_ok client service b -> bridge_ok client service (exec ev b).
Proof.
  intros He Hok. pose proof (bk_handler _ _ _ Hok) as Hh. destruct ev as [w|e|w|e| | | | |d]; cbn [enabled exec] in *.
  - destruct He as [Hen Hw]. destruct (copy_round w (up b)) as [h|] eqn:Ec; [|done]. apply set_up_ok; [done|done|].
    eapply copy_round_ok; [apply (bk_up _ _ _ Hok)|done|done|done].
  - destruct He as [Hen Hs]. apply set_up_ok; [done|done|]. destruct (bk_up _ _ _ Hok) as [Hc Hr Hp _ _].
    split; cbn [copy_closed count written reports ended src]; [done|done|done|done|]. intros _. left. unfold aborted. by apply Nat.leb_le.
  - destruct He as [Hen Hw]. destruct (response_round w (down b)) as [h|] eqn:Ec; [|done]. apply set_down_ok; [done|done|].
    eapply response_round_ok; [apply (bk_down _ _ _ Hok)|done|done|done].
  - destruct He as [Hen Hs]. apply set_down_ok; [done|done|]. destruct (bk_down _ _ _ Hok) as [Hp _ _].
    split; cbn [dn_written dn_ended dn_src]; [done|done|]. intros _. left. unfold aborted. by apply Nat.leb_le.
  - destruct He as [Hd Hw]. unfold aborted. destruct (handler b) as [|t|u|u|u|u| |] eqn:Eh; try done;
      (apply set_handler_ok; [done|unfold aborted; by rewrite Eh|]); (split; [by left|]); [done|]. destruct Hh as [Hu _]. by rewrite Hu.
  - destruct He as [Hu Hw]. rewrite Hw in *. destruct (ended (up b)) as [[e|]|] eqn:Eu; [| |done];
      (apply set_handler_ok; [done|unfold aborted; by rewrite Hw|]).
    + split; [right; left; by exists e|by rewrite Eu].
    + split; [done|]. pose proof (bk_at _ _ _ Hok). lia.
  - destruct (handler b) as [|t|u|u|u|u| |] eqn:Eh; try done. destruct Hh as [Hu Ht].
    apply set_handler_ok; [done|unfold aborted; by rewrite Eh|]. split; [|by rewrite Hu]. right; right. split; [done|lia].
  - destruct (handler b) as [|t|u|u|u|u| |] eqn:Eh; try done; try destruct u;
      (apply set_handler_ok; [done|unfold aborted; by rewrite Eh|]); try done; try tauto; auto.
  - destruct Hok as [Hu Hd Ha _]. split; [done|done|cbn; lia|]. cbn [handler up down up_at clock].
    destruct (handler b) as [|t|u|u|u|u| |] eqn:Eh; try done. destruct Hh as [Hf Hu']. split; [|done].
    unfold ends_for in *. cbn. destruct Hf as [Hf|[Hf|[Hf Ht]]]; [by left|by right; left|right; right; split; [done|lia]].
Qed.

Lemma bridge_reachable_ok client buffered service t0 b : rtc step (initial client buffered service t0) b ->
  bridge_ok client ((buffered, None) :: service) b.
Proof.
  intros Hs. apply (steps_invariant enabled exec (bridge_ok client ((buffered, None) :: service)) (initial client buffered service t0));
    [intros; by apply bridge_exec_ok|done|].
  split; [|..|cbn; lia|done]; split; cbn; try done; apply prefix_nil.
Qed.

(** Once the handler has left its selects, its steps and the ends it causes lead
    to its return. *)
Lemma handler_finishes b : match handler b with Waiting | Grace _ => False | _ => True end ->
  exists b', rtc step b b' /\ handler b' = Done.
Proof.
  assert (Hgo : forall b h, enabled Go b -> handler (exec Go b) = h ->
    (forall b, handler b = h -> exists b', rtc step b b' /\ handler b' = Done) -> exists b', rtc step b b' /\ handler b' = Done).
  { intros c h He Hh Hn. destruct (Hn (exec Go c) Hh) as (b' & Hr & Hd). exists b'. split; [|done]. eapply rtc_l; [by exists Go|done]. }
  assert (HU : forall b, handler b = WaitUp -> exists b', rtc step b b' /\ handler b' = Done).
  { intros c Hc. assert (Hup : exists c', rtc step c c' /\ handler c' = WaitUp /\ ended (up c') <> None).
    { destruct (ended (up c)) as [e|] eqn:E; [exists c; split_and!; [done|done|by rewrite E]|].
      exists (exec (UpEnds [ErrClosed]) c). split_and!; [|done|done]. apply rtc_once. exists (UpEnds [ErrClosed]).
      split; [|done]. split; [done|]. rewrite Hc. cbn. lia. }
    destruct Hup as (c' & Hr & Hw & Hu). exists (exec Go c'). split; [|cbn; by rewrite Hw].
    etrans; [exact Hr|]. apply rtc_once. exists Go. split; [|done]. cbn. by rewrite Hw. }
  assert (HD : forall u b, handler b = WaitDown u -> exists b', rtc step b b' /\ handler b' = Done).
  { intros u c Hc. assert (Hdn : exists c', rtc step c c' /\ handler c' = WaitDown u /\ dn_ended (down c') <> None).
    { destruct (dn_ended (down c)) as [e|] eqn:E; [exists c; split_and!; [done|done|by rewrite E]|].
      exists (exec (DownEnds [ErrClosed]) c). split_and!; [|done|done]. apply rtc_once. exists (DownEnds [ErrClosed]).
      split; [|done]. split; [done|]. rewrite Hc. cbn. lia. }
    destruct Hdn as (c' & Hr & Hw & Hd).
    assert (Hfin : exists b', rtc step c' b' /\ handler b' = Done).
    { apply (Hgo c' (if u then Done else WaitUp)); [cbn; by rewrite Hw|cbn; by rewrite Hw|]. intros d Hh.
      destruct u; [by exists d|by apply HU]. }
    destruct Hfin as (b' & Hr' & Hb'). exists b'. split; [by etrans|done]. }
  assert (HE : forall u b, handler b = ExpireWrites u -> exists b', rtc step b b' /\ handler b' = Done).
  { intros u c Hc. apply (Hgo c (WaitDown u)); [cbn; by rewrite Hc|cbn; by rewrite Hc|apply HD]. }
  assert (HC : forall u b, handler b = CloseBody u -> exists b', rtc step b b' /\ handler b' = Done).
  { intros u c Hc. apply (Hgo c (ExpireWrites u)); [cbn; by rewrite Hc|cbn; by rewrite Hc|apply HE]. }
  intros Hb. destruct (handler b) as [|t|u|u|u|u| |] eqn:Eh; try done; [|by eapply HC|by eapply HE|by eapply HD|by apply HU|by exists b].
  apply (Hgo b (CloseBody u)); [cbn; by rewrite Eh|cbn; by rewrite Eh|apply HC].
Qed.

(** It leaves them once a side has ended, at the latest when the service's time
    is over. *)
Lemma step_finishes ev b : enabled ev b -> (exists b', rtc step (exec ev b) b' /\ handler b' = Done) ->
  exists b', rtc step b b' /\ handler b' = Done.
Proof. intros He (b' & Hr & Hd). exists b'. split; [|done]. eapply rtc_l; [by exists ev|done]. Qed.

Lemma grace_finishes b t : handler b = Grace t -> exists b', rtc step b b' /\ handler b' = Done.
Proof.
  intros Hb. apply (step_finishes (Tick (Z.max 0 (t - clock b)))); [cbn; lia|].
  apply (step_finishes Timer); [cbn; rewrite Hb; lia|]. by apply handler_finishes.
Qed.

Lemma selects_finish b : ended (up b) <> None \/ dn_ended (down b) <> None -> exists b', rtc step b b' /\ handler b' = Done.
Proof.
  intros Hend. destruct (handler b) as [|t|u|u|u|u| |] eqn:Eh; try (by apply handler_finishes; rewrite Eh); [|by eapply grace_finishes].
  destruct Hend as [Hu|Hd].
  - apply (step_finishes SeeUp); [done|]. destruct (ended (up b)) as [[e|]|] eqn:Eu; [| |done].
    + apply handler_finishes. cbn. by rewrite Eu.
    + apply (grace_finishes _ (clock b + closeGrace)). cbn. by rewrite Eu.
  - apply (step_finishes SeeDown); [split; [done|by rewrite Eh]|]. apply handler_finishes. cbn. by rewrite Eh.
Qed.

(** [C39] A WebSocket's closing handshake can finish, and nothing outlives it: in
    every reachable state the service has got the first bytes the client sent
    and the client the first bytes the service sent, those that came with its
    101 included, in order; the handler ends the connections only after the
    service's side has ended, the client's has broken off, or, after the client
    ended it cleanly, the service has had [closeGrace] to end its own, and a side
    that had ended cleanly by then was copied to its end; the handler returns
    only when neither copy runs any more; and once a side has ended it can
    return. *)
Theorem websocket_bridge (client service : script) (buffered : gostr) (t0 : Z) (b : bridge)
    (Hb : rtc step (initial client buffered service t0) b) :
  prefix (written (up b)) (until_end client) /\ prefix (dn_written (down b)) (buffered ++ until_end service) /\
  (forall u, handler b = AbortTunnel u ->
     (exists e, ended (up b) = Some (Some e)) \/
     (ended (up b) = Some None /\ up_at b + closeGrace <= clock b) \/
     (exists o, dn_ended (down b) = Some o /\ (o = None -> dn_written (down b) = buffered ++ until_end service))) /\
  (ended (up b) = Some None -> (1 <= stage (handler b))%nat \/ written (up b) = until_end client) /\
  (handler b = Done -> ended (up b) <> None /\ dn_ended (down b) <> None) /\
  (ended (up b) <> None \/ dn_ended (down b) <> None -> exists b', rtc step b b' /\ handler b' = Done).
Proof.
  pose proof (bridge_reachable_ok _ _ _ _ _ Hb) as Hok. destruct (Hok) as [Hu Hd Ha Hh]. split_and!.
  - apply (hk_prefix _ _ _ Hu).
  - apply (dk_prefix _ _ _ Hd).
  - intros u Eh. rewrite Eh in Hh. destruct Hh as [[Hf|[Hf|Hf]] _]; [|by left|by right; left].
    right; right. destruct (dn_ended (down b)) as [o|] eqn:Ed; [|done]. exists o. split; [done|]. intros ->.
    destruct (dk_complete _ _ _ Hd Ed) as [Hab|[Hc _]]; [|done]. unfold aborted in Hab. by rewrite Eh in Hab.
  - intros Eu. destruct (hk_complete _ _ _ Hu Eu) as [Hab|[Hc _]]; [left|by right]. by apply Nat.leb_le.
  - intros Eh. rewrite Eh in Hh. by destruct Hh.
  - apply selects_finish.
Qed.

(** ** Witnesses *)

Module WebSocketWitness.
(** The client ends its side, the service answers and ends its own. *)
Definition client : script := [(bs "bye", Some [EOF])].
Definition service : script := [(bs "bye too", Some [EOF])].
Definition play : list event :=
  [DownRound (2, None); UpRound (3, None); SeeUp; DownRound (7, None); SeeDown; Go; Go; Go; Go].
Definition bridged : bridge := foldl (fun b e => exec e b) (initial client (bs "hi") service 0) play.

Lemma bridged_reached : rtc step (initial client (bs "hi") service 0) bridged.
Proof. apply plays_reach. vm_compute. repeat (split; try done). Qed.

Lemma websocket_bridge_witness : handler bridged = Done /\ ended (up bridged) <> None /\ dn_written (down bridged) = bs "hibye too".
Proof.
  destruct (websocket_bridge client service (bs "hi") 0 bridged bridged_reached) as (_ & _ & _ & _ & Hd & _).
  assert (Hdone : handler bridged = Done) by (vm_compute; reflexivity).
  split; [exact Hdone|]. split; [exact (proj1 (Hd Hdone))|vm_compute; reflexivity].
Defined.
End WebSocketWitness.
