(* ===== verification/Drain.v ===== *)
(** * The drain of a session, both ends together
    ([RequestDrain] and [ServeControl] of [internal/tunnel/control.go],
    [retireForDrain] of [internal/edge/edge.go], [shutdownSession] of
    [internal/agent/agent.go])

    An agent that stops asks the edge, on a control stream, to be taken out of
    the pool, waits for the acknowledgement, sends GoAway, and then takes the
    streams still queued.  Here the edge's side ([AgentConn]), the agent's
    shutdown ([Agent.shutdownSession], run event by event) and the yamux session
    between them run together, interleaved in every way.  Of yamux the model
    takes only what the source says it relies on ([Session]): frames arrive in
    the order they were sent, [OpenStream] has sent the opening frame when it
    returns a stream, and a session that has sent GoAway resets what is opened
    on it later. *)

From S2P Require Import Prelude GoStrings IO Tunnel Config Obs Route Agent AgentConn.
#[local] Open Scope Z_scope.

(** ** Waiting for the acknowledgement *)

(** [netx.Bounded]: [fn] is when the function returns and with what ([None] is
    never); at the very deadline the select may take either. *)
Definition Bounded {A} (d : Z) (fn : option (Z * A)) (tie : bool) : option A :=
  match fn with
  | None => None
  | Some (t, a) => if (t <? d) || ((t =? d) && tie) then Some a else None
  end.

Definition boundGrace : Z := 100 * millisecond.

(** [RequestDrain]: [opened] is when [OpenStream] returned and whether it gave a
    stream, [wrote] whether the request could be written, [answer] what came
    back and when its first line was complete (a read still waiting at the
    deadline fails there); times count from the start. *)
Record ask_env := mkAsk {
  opened : option (Z * bool);
  wrote : bool;
  answer_at : Z;
  answer : IO.stream;
}.

Definition ask_returns (timeout : Z) (e : ask_env) : option (Z * bool) :=
  match opened e with
  | None => None
  | Some (t, false) => Some (t, false)
  | Some (t, true) =>
      if negb (wrote e) then Some (t, false)
      else if Z.max t timeout <? answer_at e then Some (Z.max t timeout, false)
      else Some (Z.max t (answer_at e), (requestDrain true true (answer e)).2)
  end.

Definition RequestDrain (timeout : Z) (e : ask_env) (tie : bool) : bool :=
  match Bounded (timeout + boundGrace) (ask_returns timeout e) tie with
  | Some ok => ok
  | None => false
  end.

(** [ServeControl]: control streams one at a time until the session closes;
    what each one carries gives what the edge does, in order. *)
Definition ServeControl (streams : list IO.stream) : list control_step :=
  concat (map serveControlStream streams).

(** ** The session *)

(** What the edge's session sends: the frame that opens stream [id], or bytes on
    the agent's control stream. *)
Inductive frame := FOpen (id : nat) | FData (b : gostr).

#[export] Instance frame_eq_dec : EqDecision frame.
Proof. solve_decision. Defined.

(** What the code relies on of a yamux session, in one direction: frames are
    received in the order they were sent. *)
Class Session (W : Type) := {
  s_new : W;
  s_send : frame -> W -> W;
  s_recv : W -> option (frame * W);
  s_sent : W -> list frame;
  s_got : W -> list frame;
  new_sent : s_sent s_new = [];
  send_sent f s : s_sent (s_send f s) = s_sent s ++ [f];
  send_got f s : s_got (s_send f s) = s_got s;
  recv_sent s f s' : s_recv s = Some (f, s') -> s_sent s' = s_sent s;
  recv_got s f s' : s_recv s = Some (f, s') -> s_got s' = s_got s ++ [f];
  in_order s : s_got s `prefix_of` s_sent s;
}.

(** A control stream on the edge: none, the steps left of
    [serveControlStream], or inside [retireForDrain] after the mark and while it
    waits on a channel. *)
Inductive control :=
| CIdle
| CSteps (l : list control_step)
| CRetired (l : list control_step)
| CWait (ch : nat) (l : list control_step).

Section drain.
Context {W : Type} `{Session W}.

(** [conn_of] is the edge's [agentConn]; [early] is set when a drain was
    acknowledged because [RetireWait] was over; [up] are the control streams the
    agent opened, with what they carry.  On the agent, [todo] is what is left of
    [shutdownSession]; [heard] the bytes read on its control stream; [goaway]
    and [gone] whether GoAway was called and has taken effect; [mainOn] whether
    the main accept loop runs; [queue] is the accept queue; [out] the streams
    taken from it, in order, with whether they went to [serveStream]; [reset]
    those opened too late. *)
Record sys := mkSys {
  conn_of : conn;
  down : W;
  ctl : control;
  early : bool;
  up : list gostr;
  todo : list shut_event;
  asking : bool;
  heard : gostr;
  acked : bool;
  goaway : bool;
  gone : bool;
  mainOn : bool;
  ended : bool;
  queue : list nat;
  out : list (nat * bool);
  reset : list nat;
}.

Definition start (prog : list shut_event) : sys :=
  mkSys newConn s_new CIdle false [] prog false [] false false false true false [] [] [].

(** One record per side of an update. *)
Definition on_edge (c : conn) (d : W) (k : control) (ea : bool) (u : list gostr) (s : sys) : sys :=
  mkSys c d k ea u (todo s) (asking s) (heard s) (acked s) (goaway s) (gone s) (mainOn s) (ended s)
    (queue s) (out s) (reset s).
Definition on_session (d : W) (h : gostr) (q r : list nat) (s : sys) : sys :=
  mkSys (conn_of s) d (ctl s) (early s) (up s) (todo s) (asking s) h (acked s) (goaway s) (gone s)
    (mainOn s) (ended s) q (out s) r.
Definition on_agent (u : list gostr) (t : list shut_event) (ask ack ga mo en : bool) (q : list nat)
    (o : list (nat * bool)) (s : sys) : sys :=
  mkSys (conn_of s) (down s) (ctl s) (early s) u t ask (heard s) ack ga (gone s) mo en q o (reset s).

(** ** Steps *)

Inductive sys_event :=
| EEdge (e : AgentConn.event)   (* a critical section of the edge's session *)
| EFrame (id : nat)             (* an open in flight sends its opening frame *)
| EControl                      (* ServeControl takes the next control stream *)
| EControlDone
| ERetire                       (* onDrain: retire *)
| ELook                         (* retireForDrain looks at the opens *)
| EWoken                        (* its channel is closed *)
| EWaited                       (* RetireWait is over *)
| EAck                          (* the acknowledgement is written *)
| NDeliver                      (* a frame arrives at the agent *)
| NGoAway                       (* the agent's GoAway takes effect *)
| ANoise (b : gostr)            (* another control stream *)
| AAsk (sent : bool)            (* RequestDrain starts *)
| AHear                         (* it reads the acknowledgement *)
| ANoAck                        (* it returns without one *)
| ARetired | AGoAway | AStop | AAwait
| AMain                         (* the main loop takes a stream *)
| ABacklog                      (* the backlog loop takes a stream *)
| AEnd                          (* the backlog loop finds none for backlogQuiet *)
| ADrained                      (* drainStreamsFor returns *)
| AClosed.                      (* session.Close *)

Definition is_drain (e : AgentConn.event) : bool := match e with EvDrain => true | _ => false end.

(** A control stream carries its bytes and then its end. *)
Definition ctl_stream (b : gostr) : IO.stream := mkStream b [EOF].

Definition sys_enabled (e : sys_event) (s : sys) : Prop :=
  match e with
  | EEdge e => AgentConn.enabled e (conn_of s) /\ is_drain e = false /\
      (forall id, e = EvFinish id true -> FOpen id ∈ s_sent (down s))
  | EFrame id => FOpen id ∉ s_sent (down s) /\
      exists o, opens (conn_of s) !! id = Some o /\ finished o = false
  | EControl => ctl s = CIdle /\ up s <> []
  | EControlDone => ctl s = CSteps []
  | ERetire => exists l, ctl s = CSteps (OnDrain :: l)
  | ELook => exists l, ctl s = CRetired l
  | EWoken => exists ch l, ctl s = CWait ch l /\ ch ∈ woken (conn_of s)
  | EWaited => exists ch l, ctl s = CWait ch l
  | EAck => exists b l, ctl s = CSteps (WriteAck b :: l)
  | NDeliver => is_Some (s_recv (down s))
  | NGoAway => goaway s = true
  | ANoise b => serveControlStream (ctl_stream b) = []
  | AAsk _ => asking s = false /\ exists t l, todo s = SRequestDrain t false :: l
  | AHear => asking s = true /\ (exists t l, todo s = SRequestDrain t false :: l) /\
      (requestDrain true true (ctl_stream (heard s))).2 = true
  | ANoAck => asking s = true /\ exists t l, todo s = SRequestDrain t false :: l
  | ARetired => exists l, todo s = SRetired :: l
  | AGoAway => exists t l, todo s = SGoAway t false :: l
  | AStop => exists l, todo s = SStopAccept :: l
  | AAwait => exists l, todo s = SAwaitMain :: l
  | AMain => mainOn s = true /\ queue s <> []
  | ABacklog => exists id q l, queue s = id :: q /\ (todo s = SServe id :: l \/ todo s = SRefuse id :: l)
  | AEnd => queue s = [] /\ exists l, todo s = SRefuseNew :: l
  | ADrained => exists d l, todo s = SDrain d :: l
  | AClosed => exists l, todo s = SClose :: l
  end.

Definition set_ctl (k : control) (s : sys) : sys := on_edge (conn_of s) (down s) k (early s) (up s) s.
Definition set_todo (s : sys) : sys :=
  on_agent (up s) (tail (todo s)) false (acked s) (goaway s) (mainOn s) (ended s) (queue s) (out s) s.

(** The agent's session takes the next frame. *)
Definition deliver (s : sys) : sys :=
  match s_recv (down s) with
  | None => s
  | Some (FData b, d) => on_session d (heard s ++ b) (queue s) (reset s) s
  | Some (FOpen id, d) =>
      if gone s then on_session d (heard s) (queue s) (reset s ++ [id]) s
      else on_session d (heard s) (queue s ++ [id]) (reset s) s
  end.

Definition sys_exec (e : sys_event) (s : sys) : sys :=
  match e with
  | EEdge e => on_edge (AgentConn.exec e (conn_of s)) (down s) (ctl s) (early s) (up s) s
  | EFrame id => on_edge (conn_of s) (s_send (FOpen id) (down s)) (ctl s) (early s) (up s) s
  | EControl =>
      match up s with
      | [] => s
      | b :: u => on_edge (conn_of s) (down s) (CSteps (serveControlStream (ctl_stream b))) (early s) u s
      end
  | EControlDone => set_ctl CIdle s
  | ERetire =>
      match ctl s with
      | CSteps (OnDrain :: l) => on_edge (retire_mark (conn_of s)).1 (down s) (CRetired l) (early s) (up s) s
      | _ => s
      end
  | ELook =>
      match ctl s with
      | CRetired l =>
          let '(c, ch) := drain_wait (conn_of s) in
          on_edge c (down s) (match ch with Some ch => CWait ch l | None => CSteps l end) (early s) (up s) s
      | _ => s
      end
  | EWoken => match ctl s with CWait _ l => set_ctl (CSteps l) s | _ => s end
  | EWaited =>
      match ctl s with
      | CWait _ l => on_edge (conn_of s) (down s) (CSteps l) true (up s) s
      | _ => s
      end
  | EAck =>
      match ctl s with
      | CSteps (WriteAck b :: l) => on_edge (conn_of s) (s_send (FData b) (down s)) (CSteps l) (early s) (up s) s
      | _ => s
      end
  | NDeliver => deliver s
  | NGoAway =>
      mkSys (conn_of s) (down s) (ctl s) (early s) (up s) (todo s) (asking s) (heard s) (acked s) (goaway s)
        true (mainOn s) (ended s) (queue s) (out s) (reset s)
  | ANoise b =>
      on_agent (up s ++ [b]) (todo s) (asking s) (acked s) (goaway s) (mainOn s) (ended s) (queue s) (out s) s
  | AAsk sent =>
      on_agent (if sent then up s ++ [drainRequest] else up s) (todo s) true (acked s) (goaway s) (mainOn s)
        (ended s) (queue s) (out s) s
  | AHear => on_agent (up s) (tail (todo s)) false true (goaway s) (mainOn s) (ended s) (queue s) (out s) s
  | ANoAck | ARetired | AAwait | ADrained | AClosed => set_todo s
  | AGoAway => on_agent (up s) (tail (todo s)) false (acked s) true (mainOn s) (ended s) (queue s) (out s) s
  | AStop => on_agent (up s) (tail (todo s)) false (acked s) (goaway s) false (ended s) (queue s) (out s) s
  | AMain =>
      match queue s with
      | [] => s
      | id :: q => on_agent (up s) (todo s) (asking s) (acked s) (goaway s) (mainOn s) (ended s) q (out s ++ [(id, true)]) s
      end
  | ABacklog =>
      match queue s, todo s with
      | id :: q, SServe _ :: l => on_agent (up s) l false (acked s) (goaway s) (mainOn s) (ended s) q (out s ++ [(id, true)]) s
      | id :: q, SRefuse _ :: l => on_agent (up s) l false (acked s) (goaway s) (mainOn s) (ended s) q (out s ++ [(id, false)]) s
      | _, _ => s
      end
  | AEnd => on_agent (up s) (tail (todo s)) false (acked s) (goaway s) (mainOn s) true (queue s) (out s) s
  end.

Definition sys_step : sys -> sys -> Prop := steps sys_enabled sys_exec.

(** ** Invariant *)

Definition opens_of (l : list frame) : list nat :=
  omap (fun f => match f with FOpen id => Some id | FData _ => None end) l.

(** The streams whose opening frames were sent before the first acknowledgement. *)
Fixpoint before_ack (l : list frame) : list nat :=
  match l with FOpen id :: l => id :: before_ack l | _ => [] end.

(** No open that may still be used is in flight, and none can begin. *)
Definition drained (c : conn) : Prop := retired c = true /\ count_val live_open (opens c) = 0%nat.

(** The edge gave up on open [id]. *)
Definition given_up (c : conn) (id : nat) : Prop := exists o, opens c !! id = Some o /\ abandoned o = true.

Definition ctl_ok (c : conn) (k : control) (ea : bool) : Prop :=
  match k with
  | CSteps (WriteAck _ :: _) => retired c = true /\ (ea = false -> drained c)
  | CRetired _ | CWait _ _ => retired c = true
  | _ => True
  end.

(** The shutdown asks before it sends GoAway, and never again. *)
Fixpoint asks_once (l : list shut_event) : Prop :=
  match l with
  | [] => True
  | e :: l =>
      match e with
      | SGoAway _ _ | SRefuseNew => Forall (fun e => forall t b, e <> SRequestDrain t b) l
      | _ => True
      end /\ asks_once l
  end.

Definition no_ask (l : list shut_event) : Prop := Forall (fun e => forall t b, e <> SRequestDrain t b) l.

(** The edge's side: its session, the frames it has sent, the control stream and
    whether an acknowledgement was early. *)
Record edge_inv (c : conn) (sent : list frame) (k : control) (ea : bool) : Prop := {
  ei_conn : conn_inv c;
  ei_known : forall id, id ∈ opens_of sent -> is_Some (opens c !! id);
  ei_once : NoDup (opens_of sent);
  ei_ctl : ctl_ok c k ea;
  ei_acked : forall b, FData b ∈ sent -> retired c = true /\ (ea = false -> drained c);
  ei_late : ea = false -> forall l1 b l2 id, sent = l1 ++ FData b :: l2 -> id ∈ opens_of l2 -> given_up c id;
}.

(** The agent's side: what arrived before GoAway took effect is taken or queued,
    what arrived later was reset. *)
Record agent_inv (s : sys) : Prop := {
  ai_prog : asks_once (todo s);
  ai_goaway : goaway s || ended s = true -> no_ask (todo s);
  ai_gone : gone s = true -> goaway s = true;
  ai_asking : asking s = true -> exists t l, todo s = SRequestDrain t false :: l;
  ai_heard : heard s <> [] -> exists b, FData b ∈ s_got (down s);
  ai_got : exists d1 d2, s_got (down s) = d1 ++ d2 /\ map fst (out s) ++ queue s = opens_of d1 /\
    reset s = opens_of d2 /\ (gone s = false -> d2 = []) /\ (acked s = true -> exists b, FData b ∈ d1);
  ai_ended : ended s = true -> acked s = true -> early s = false ->
    forall id, id ∈ opens_of (s_sent (down s)) -> ~ given_up (conn_of s) id -> id ∈ map fst (out s);
  ai_before : ended s = true -> acked s = true ->
    forall id, id ∈ before_ack (s_sent (down s)) -> id ∈ map fst (out s);
}.

Record sys_inv (s : sys) : Prop := { si_edge : edge_inv (conn_of s) (s_sent (down s)) (ctl s) (early s); si_agent : agent_inv s }.

(** ** Lemmas *)

Lemma opens_of_app l1 l2 : opens_of (l1 ++ l2) = opens_of l1 ++ opens_of l2.
Proof. apply omap_app. Qed.

Lemma opens_of_elem id l : id ∈ opens_of l <-> FOpen id ∈ l.
Proof.
  unfold opens_of. rewrite list_elem_of_omap. split; [|by exists (FOpen id)].
  intros ([i|b] & Hin & [= ->]). done.
Qed.

Lemma before_ack_opens id l : id ∈ before_ack l -> id ∈ opens_of l.
Proof.
  induction l as [|[i|b] l IH]; simpl; [done| |by intros ?%elem_of_nil].
  rewrite !elem_of_cons. naive_solver.
Qed.

(** After an acknowledgement they are settled. *)
Lemma before_ack_app b l l' : FData b ∈ l -> before_ack (l ++ l') = before_ack l.
Proof.
  induction l as [|[i|c] l IH]; simpl; [by intros ?%elem_of_nil| |done].
  intros [[=]|Hin]%elem_of_cons. by rewrite IH.
Qed.

Lemma exec_opens e c id o : AgentConn.enabled e c -> opens c !! id = Some o ->
  exists o', opens (AgentConn.exec e c) !! id = Some o' /\ (abandoned o = true -> abandoned o' = true).
Proof.
  intros He Ho. destruct e as [i|i st|i now| | |u cur]; simpl in *.
  - unfold open_begin. repeat case_match; simplify_eq; eauto. simpl.
    rewrite lookup_insert_ne by congruence. eauto.
  - unfold open_finish. destruct He as (o' & Hi & _). rewrite Hi, (proj2 (wake_same _)). simpl.
    destruct (decide (i = id)) as [->|]; [rewrite lookup_insert_eq|rewrite lookup_insert_ne by done]; simplify_eq; eauto.
  - unfold open_timeout. destruct He as (o' & Hi & _). rewrite Hi. destruct (finished o'); [eauto|].
    simpl. rewrite coolDownFor_opens, (proj2 (wake_same _)). simpl.
    destruct (decide (i = id)) as [->|]; [rewrite lookup_insert_eq|rewrite lookup_insert_ne by done]; simplify_eq; eauto.
  - eauto.
  - unfold drain_wait. repeat split_match; simpl; eauto.
  - destruct (cool_same u cur c) as (_ & _ & _ & ->). eauto.
Qed.

Lemma given_up_exec e c id : AgentConn.enabled e c -> given_up c id -> given_up (AgentConn.exec e c) id.
Proof. intros He (o & Ho & Ha). destruct (exec_opens e c id o He Ho) as (o' & ? & ?). exists o'. auto. Qed.

Lemma drained_exec e c : AgentConn.enabled e c -> conn_inv c -> drained c -> drained (AgentConn.exec e c).
Proof.
  intros He Hc [Hr Hl]. split; [by apply exec_retired|].
  pose proof (exec_live_le e c Hr He Hc). lia.
Qed.

(** An unfinished open on a drained session is one the edge gave up on. *)
Lemma drained_given_up c id o : conn_inv c -> drained c -> opens c !! id = Some o -> finished o = false -> given_up c id.
Proof.
  intros Hc [_ Hl] Ho Hf. exists o. split; [done|].
  destruct (inv_shape c (inv_counts c Hc) id o Ho) as [?|[-> | ->]]; [congruence| |done].
  pose proof (count_val_delete live_open live_open _ _ Ho) as Hd. rewrite decide_True in Hd by done. lia.
Qed.

(** A critical section of the edge's session keeps its side. *)
Lemma edge_exec_inv e c sent k ea :
  AgentConn.enabled e c -> edge_inv c sent k ea -> edge_inv (AgentConn.exec e c) sent k ea.
Proof.
  intros He [Hc Hk Ho Hct Ha Hl]. split; [by apply conn_exec_inv| |done| | |].
  - intros id Hid. destruct (Hk id Hid) as [o Hid']. destruct (exec_opens e c id o He Hid') as (o' & ? & _). eauto.
  - unfold ctl_ok in *. repeat case_match; first [done | by apply exec_retired | destruct Hct; auto using drained_exec, exec_retired].
  - intros b Hb. destruct (Ha b Hb). split; [by apply exec_retired|auto using drained_exec].
  - intros E l1 b l2 id Hs Hid. eauto using given_up_exec.
Qed.

(** So does a move of the control stream to a point where it may be. *)
Lemma edge_ctl_inv c sent k k' ea ea' :
  (ea' = false -> ea = false) -> ctl_ok c k' ea' -> edge_inv c sent k ea -> edge_inv c sent k' ea'.
Proof. intros Hea Hk' [Hc Hk Ho _ Ha Hl]. split; eauto. intros b Hb. destruct (Ha b Hb). auto. Qed.

Lemma last_split {A} (l1 l2 l : list A) x y : l1 ++ x :: l2 = l ++ [y] ->
  (l2 = [] /\ x = y /\ l1 = l) \/ exists l2', l2 = l2' ++ [y] /\ l = l1 ++ x :: l2'.
Proof.
  destruct l2 as [|z l2 _] using rev_ind; intros E.
  - left. by apply app_inj_tail in E as [-> ->].
  - right. exists l2. rewrite app_comm_cons, app_assoc in E. by apply app_inj_tail in E as [<- ->].
Qed.

(** An open in flight sends its frame: after an acknowledgement it is one the
    edge has given up on. *)
Lemma edge_frame_inv id o c sent k ea :
  FOpen id ∉ sent -> opens c !! id = Some o -> finished o = false ->
  edge_inv c sent k ea -> edge_inv c (sent ++ [FOpen id]) k ea.
Proof.
  intros Hn Hid Hf [Hc Hk Ho Hct Ha Hl]. split; [done| | |done| |].
  - intros i. rewrite opens_of_app, elem_of_app. intros [?| ->%list_elem_of_singleton]; eauto.
  - rewrite opens_of_app. apply NoDup_app. split_and!; [done| |apply NoDup_singleton].
    intros i Hi ->%list_elem_of_singleton. by apply opens_of_elem in Hi.
  - intros b Hb. apply elem_of_app in Hb as [Hb|[=]%list_elem_of_singleton]; eauto.
  - intros E l1 b l2 i Hs Hi. symmetry in Hs. apply last_split in Hs as [(-> & [=] & _)|(l2' & -> & ->)].
    rewrite opens_of_app, elem_of_app in Hi. destruct Hi as [Hi| ->%list_elem_of_singleton]; [by eapply Hl|].
    eapply drained_given_up; eauto. apply (Ha b); [|done]. apply elem_of_app. right. by left.
Qed.

(** The acknowledgement is written on a drained session. *)
Lemma edge_ack_inv b l c sent ea :
  edge_inv c sent (CSteps (WriteAck b :: l)) ea -> ctl_ok c (CSteps l) ea ->
  edge_inv c (sent ++ [FData b]) (CSteps l) ea.
Proof.
  intros [Hc Hk Ho Hct Ha Hl] Hl'. split; [done| | |done| |].
  - intros i. rewrite opens_of_app, app_nil_r. auto.
  - by rewrite opens_of_app, app_nil_r.
  - intros _ _. exact Hct.
  - intros E l1 b' l2 i Hs Hi. symmetry in Hs. apply last_split in Hs as [(-> & _ & _)|(l2' & -> & ->)]; [by apply elem_of_nil in Hi|].
    rewrite opens_of_app, app_nil_r in Hi. eauto.
Qed.

(** [retireForDrain] goes on only on a drained session, unless it waited in vain. *)
Lemma look_drained c : conn_inv c -> retired c = true -> (drain_wait c).2 = None -> drained (drain_wait c).1.
Proof.
  intros Hc Hr. unfold drain_wait. destruct (_ =? 0) eqn:E; b2p; [|by destruct (idle c)].
  intros _. split; [done|]. simpl. pose proof (live_is_count c (inv_counts c Hc)). lia.
Qed.

Lemma woken_drained c ch : conn_inv c -> retired c = true -> ch ∈ woken c -> drained c.
Proof.
  intros Hc Hr Hch. split; [done|]. pose proof (live_is_count c (inv_counts c Hc)).
  destruct (inv_waiters c Hc) as [_ Hw _ _]. destruct Hw; [set_solver|lia].
Qed.

Lemma steps_ctl_ok c l (ea : bool) : retired c = true -> (ea = false -> drained c) -> ctl_ok c (CSteps l) ea.
Proof. intros Hr Hd. by destruct l as [|[] ?]. Qed.

(** Every step keeps the edge's side. *)
Lemma sys_edge_inv e s : sys_enabled e s ->
  edge_inv (conn_of s) (s_sent (down s)) (ctl s) (early s) ->
  let s' := sys_exec e s in edge_inv (conn_of s') (s_sent (down s')) (ctl s') (early s').
Proof.
  intros He Hi. destruct e; cbn [sys_exec sys_enabled] in *; try exact Hi.
  - destruct He as [He _]. exact (edge_exec_inv _ _ _ _ _ He Hi).
  - destruct He as (Hn & o & Ho & Hf). simpl. rewrite send_sent. by eapply edge_frame_inv.
  - destruct (up s) as [|b u]; [done|]. eapply edge_ctl_inv; [| |exact Hi]; [done|]. simpl.
    unfold serveControlStream. destruct (ReadString _ _). by destruct (_ || _).
  - eapply edge_ctl_inv; [| |exact Hi]; [done|]. done.
  - destruct He as [l Hl]. rewrite Hl. eapply edge_ctl_inv; [| |exact (edge_exec_inv EvRetire _ _ _ _ I Hi)]; done.
  - destruct He as [l Hl]. rewrite Hl. pose proof (ei_ctl _ _ _ _ Hi) as Hr. rewrite Hl in Hr.
    pose proof (look_drained _ (ei_conn _ _ _ _ Hi) Hr) as Hd.
    pose proof (edge_exec_inv EvDrain _ _ _ _ Hr Hi) as Hx. simpl in Hx.
    destruct (drain_wait (conn_of s)) as [c ch] eqn:E. simpl in *.
    eapply edge_ctl_inv; [| |exact Hx]; [done|]. pose proof (exec_retired EvDrain _ Hr) as Hr'. simpl in *. rewrite E in Hr'.
    destruct ch; [done|apply steps_ctl_ok; auto].
  - destruct He as (ch & l & Hl & Hw). rewrite Hl. pose proof (ei_ctl _ _ _ _ Hi) as Hr. rewrite Hl in Hr.
    eapply edge_ctl_inv; [| |exact Hi]; [done|]. apply steps_ctl_ok; [done|]. intros _.
    by eapply woken_drained; [apply (ei_conn _ _ _ _ Hi)| |].
  - destruct He as (ch & l & Hl). rewrite Hl. pose proof (ei_ctl _ _ _ _ Hi) as Hr. rewrite Hl in Hr.
    eapply edge_ctl_inv; [| |exact Hi]; [done|]. by apply steps_ctl_ok.
  - destruct He as (b & l & Hl). rewrite Hl in *. simpl. rewrite send_sent.
    eapply edge_ack_inv; [exact Hi|]. by destruct (ei_ctl _ _ _ _ Hi); apply steps_ctl_ok.
  - unfold deliver. destruct (s_recv (down s)) as [[[id|b] d]|] eqn:E; [|simpl|done];
      [destruct (gone s); simpl|]; by erewrite recv_sent.
  - by destruct (queue s).
  - by destruct (queue s) as [|? ?], (todo s) as [|[] ?].
Qed.

(** The agent has read an acknowledgement, so one was sent. *)
Lemma acked_sent s : agent_inv s -> acked s = true -> exists b, FData b ∈ s_sent (down s).
Proof.
  intros Ha Hk. destruct (ai_got s Ha) as (d1 & d2 & Hg & _ & _ & _ & Hd). destruct (Hd Hk) as [b Hb].
  exists b. apply (elem_of_prefix (s_got (down s))); [|apply in_order]. rewrite Hg. apply elem_of_app. by left.
Qed.

(** A step of the edge keeps the agent's side, if it does not add a stream in use
    after the acknowledgement. *)
Lemma agent_edge_inv c d k ea u s : agent_inv s -> s_got d = s_got (down s) -> (ea = false -> early s = false) ->
  (acked s = true -> ea = false -> forall id, id ∈ opens_of (s_sent d) -> ~ given_up c id ->
     id ∈ opens_of (s_sent (down s)) /\ ~ given_up (conn_of s) id) ->
  (acked s = true -> before_ack (s_sent d) = before_ack (s_sent (down s))) ->
  agent_inv (on_edge c d k ea u s).
Proof.
  intros [Hp Hg Hgo Has Hh Hgot He Hb] Hd Hea Hid Hbe. split; simpl; rewrite ?Hd; try done.
  - intros En Ak Ea id Hin Hng. destruct (Hid Ak Ea id Hin Hng) as [? ?]. auto.
  - intros En Ak. rewrite Hbe by done. auto.
Qed.

Lemma before_ack_sent f s : agent_inv s -> acked s = true -> before_ack (s_sent (s_send f (down s))) = before_ack (s_sent (down s)).
Proof. intros Ha Hk. destruct (acked_sent s Ha Hk) as [b Hb]. rewrite send_sent. by eapply before_ack_app. Qed.

Lemma agent_same_sent c k ea u s : agent_inv s -> (ea = false -> early s = false) ->
  (forall id, given_up (conn_of s) id -> given_up c id) -> agent_inv (on_edge c (down s) k ea u s).
Proof. intros Ha Hea Hg. apply agent_edge_inv; [done..| |done]. intros _ _ id Hin Hn. auto. Qed.

Lemma agent_deliver_inv s : agent_inv s -> agent_inv (deliver s).
Proof.
  intros [Hp Hg Hgo Has Hh (d1 & d2 & Hd & Ho & Hr & Hn & Hk) He Hbe]. unfold deliver.
  destruct (s_recv (down s)) as [[f d]|] eqn:E; [|split; eauto 10].
  pose proof (recv_got _ _ _ E) as Hd'. pose proof (recv_sent _ _ _ E) as Hs'.
  destruct f as [id|b]; [destruct (gone s) eqn:Eg|];
    (split; simpl; rewrite ?Hd', ?Hs'; [done|done|intros; apply Hgo; congruence|done| |..]).
  - intros H0. destruct (Hh H0) as [b Hb]. exists b. apply elem_of_app. by left.
  - exists d1, (d2 ++ [FOpen id]). rewrite opens_of_app, Hr.
    split_and!; [by rewrite Hd, app_assoc|done|done|congruence|done].
  - done.
  - done.
  - intros H0. destruct (Hh H0) as [b Hb]. exists b. apply elem_of_app. by left.
  - rewrite (Hn eq_refl), app_nil_r in Hd. exists (d1 ++ [FOpen id]), [].
    rewrite Hd, !app_nil_r, opens_of_app, app_assoc, Ho, Hr, (Hn eq_refl). split_and!; [done..|].
    intros H0. destruct (Hk H0) as [b Hb]. exists b. apply elem_of_app. by left.
  - done.
  - done.
  - intros _. exists b. apply elem_of_app. right. by left.
  - destruct (gone s) eqn:Eg.
    + exists d1, (d2 ++ [FData b]). rewrite opens_of_app, app_nil_r.
      split_and!; [by rewrite Hd, app_assoc|done|done|congruence|done].
    + rewrite (Hn eq_refl), app_nil_r in Hd. exists (d1 ++ [FData b]), [].
      rewrite Hd, !app_nil_r, opens_of_app, app_nil_r, Ho, Hr, (Hn eq_refl). split_and!; [done..|].
      intros H0. destruct (Hk H0) as [b' Hb]. exists b'. apply elem_of_app. by left.
  - done.
  - done.
Qed.

(** An answer is read only from bytes that arrived. *)
Lemma answer_heard b : (requestDrain true true (ctl_stream b)).2 = true -> b <> [].
Proof. by intros H0 ->. Qed.

Lemma no_ask_tail e l : no_ask (e :: l) -> no_ask l.
Proof. by inversion 1. Qed.

(** The agent's own steps along its shutdown. *)
Lemma agent_own_inv u t ask ga mo en q o s : agent_inv s ->
  asks_once t -> (ga || en = true -> no_ask t) -> (gone s = true -> ga = true) ->
  (ask = true -> exists x l, t = SRequestDrain x false :: l) ->
  map fst o ++ q = map fst (out s) ++ queue s ->
  (en = true -> acked s = true -> early s = false -> forall id, id ∈ opens_of (s_sent (down s)) ->
     ~ given_up (conn_of s) id -> id ∈ map fst o) ->
  (en = true -> acked s = true -> forall id, id ∈ before_ack (s_sent (down s)) -> id ∈ map fst o) ->
  agent_inv (on_agent u t ask (acked s) ga mo en q o s).
Proof.
  intros [Hp Hg Hgo Has Hh Hgot He Hb] H1 H2 H3 H4 H5 H6 H7. split; simpl; try done. by rewrite H5.
Qed.

(** Once the acknowledgement was read, every stream opened and not given up on
    has arrived before GoAway. *)
Lemma in_use_arrived s : sys_inv s -> acked s = true -> early s = false ->
  forall id, id ∈ opens_of (s_sent (down s)) -> ~ given_up (conn_of s) id -> id ∈ map fst (out s) ++ queue s.
Proof.
  intros [He Ha] Hk Hea id Hid Hng. destruct (ai_got s Ha) as (d1 & d2 & Hg & -> & _ & _ & Hd).
  destruct (Hd Hk) as [b Hb]. apply list_elem_of_split in Hb as (l1 & l2 & ->).
  destruct (in_order (down s)) as [rest Hs]. rewrite Hg, <- !app_assoc in Hs. cbn [app] in Hs.
  rewrite Hs, opens_of_app, elem_of_app in Hid. rewrite opens_of_app, elem_of_app.
  destruct Hid as [?|Hid]; [by left|]. exfalso. by eapply Hng, (ei_late _ _ _ _ He Hea).
Qed.

(** What was opened before the acknowledgement has arrived in any case. *)
Lemma before_arrived s : sys_inv s -> acked s = true ->
  forall id, id ∈ before_ack (s_sent (down s)) -> id ∈ map fst (out s) ++ queue s.
Proof.
  intros [_ Ha] Hk id Hid. destruct (ai_got s Ha) as (d1 & d2 & Hg & -> & _ & _ & Hd). destruct (Hd Hk) as [b Hb].
  destruct (in_order (down s)) as [rest Hs]. rewrite Hg, <- app_assoc in Hs. rewrite Hs, (before_ack_app b) in Hid by done.
  by apply before_ack_opens.
Qed.

Lemma ended_before s (o : list (nat * bool)) : sys_inv s ->
  (forall id, id ∈ map fst (out s) -> id ∈ map fst o) ->
  ended s = true -> acked s = true -> forall id, id ∈ before_ack (s_sent (down s)) -> id ∈ map fst o.
Proof. intros [_ Ha] Ho En Hk id Hid. apply Ho. by apply (ai_before s Ha). Qed.

Lemma ended_use s (o : list (nat * bool)) : sys_inv s ->
  (forall id, id ∈ map fst (out s) -> id ∈ map fst o) ->
  ended s = true -> acked s = true -> early s = false -> forall id, id ∈ opens_of (s_sent (down s)) ->
    ~ given_up (conn_of s) id -> id ∈ map fst o.
Proof. intros [_ Ha] Ho En Hk Hea id Hid Hng. apply Ho. by apply (ai_ended s Ha). Qed.

Ltac own_step Hi Ha :=
  apply agent_own_inv; [exact Ha|..|try (apply ended_use; [exact Hi|done])|try (apply ended_before; [exact Hi|done])].

(** A step that only goes on along the shutdown. *)
Lemma agent_go_on u ga mo s e l : sys_inv s -> todo s = e :: l ->
  (ga = true -> goaway s = true \/ exists t, e = SGoAway t false) -> (goaway s = true -> ga = true) ->
  agent_inv (on_agent u l false (acked s) ga mo (ended s) (queue s) (out s) s).
Proof.
  intros Hi Ht Hga Hga'. pose proof (si_agent s Hi) as Ha.
  pose proof (ai_prog s Ha) as Hp. rewrite Ht in Hp. pose proof (ai_goaway s Ha) as Hn. rewrite Ht in Hn.
  own_step Hi Ha; [apply Hp| |intros; by apply Hga', (ai_gone s Ha)|done|done].
  intros [E|E]%orb_true_iff; [|apply (no_ask_tail e), Hn; rewrite E; by destruct (goaway s)].
  destruct (Hga E) as [Eg|[t ->]]; [apply (no_ask_tail e), Hn; by rewrite Eg|apply Hp].
Qed.

(** A stream leaves the queue. *)
Lemma agent_take u t ask mo s id q (served : bool) : sys_inv s -> queue s = id :: q ->
  (t = todo s /\ ask = asking s \/ exists e, todo s = e :: t /\ ask = false) ->
  agent_inv (on_agent u t ask (acked s) (goaway s) mo (ended s) q (out s ++ [(id, served)]) s).
Proof.
  intros Hi Hq Ht. pose proof (si_agent s Hi) as Ha. apply agent_own_inv; [exact Ha|..].
  - destruct Ht as [[-> _]|(e & E & _)]; [apply (ai_prog s Ha)|]. pose proof (ai_prog s Ha) as Hp. rewrite E in Hp. apply Hp.
  - intros E. apply (ai_goaway s Ha) in E. destruct Ht as [[-> _]|(e & E' & _)]; [done|]. rewrite E' in E. by apply no_ask_tail in E.
  - apply (ai_gone s Ha).
  - destruct Ht as [[-> ->]|(e & _ & ->)]; [apply (ai_asking s Ha)|done].
  - by rewrite map_app, Hq, <- app_assoc.
  - apply ended_use; [done|]. intros i Hin. rewrite map_app. apply elem_of_app. by left.
  - apply ended_before; [done|]. intros i Hin. rewrite map_app. apply elem_of_app. by left.
Qed.

(** The acknowledgement is read before GoAway and before the end. *)
Lemma agent_hear s : sys_enabled AHear s -> sys_inv s -> agent_inv (sys_exec AHear s).
Proof.
  intros (_ & (t & l & Ht) & Hr) Hi. pose proof (si_agent s Hi) as Ha.
  assert (Hno : goaway s || ended s = false).
  { destruct (goaway s || ended s) eqn:E; [|done]. apply (ai_goaway s Ha) in E. rewrite Ht in E.
    inversion E as [|? ? Hx]. by destruct (Hx t false). }
  apply orb_false_iff in Hno as [Hga Hen].
  destruct Ha as [Hp Hg Hgo Has Hh (d1 & d2 & Hd & Ho & Hrs & Hn & Hk) He Hbe]. rewrite Ht in Hp.
  assert (Hgn : gone s = false) by (destruct (gone s); [by rewrite Hgo in Hga|done]).
  split; simpl; rewrite ?Ht; try done.
  - apply Hp.
  - by rewrite Hga, Hen.
  - exists d1, d2. rewrite (Hn Hgn), app_nil_r in Hd. split_and!; [by rewrite (Hn Hgn), app_nil_r|done..|].
    intros _. rewrite <- Hd. by apply Hh, answer_heard.
  - by rewrite Hen.
  - by rewrite Hen.
Qed.

(** The backlog is over. *)
Lemma agent_end s : sys_enabled AEnd s -> sys_inv s -> agent_inv (sys_exec AEnd s).
Proof.
  intros (Hq & l & Ht) Hi. pose proof (si_agent s Hi) as Ha. simpl. rewrite Ht.
  pose proof (ai_prog s Ha) as Hp. rewrite Ht in Hp.
  apply agent_own_inv; [exact Ha|apply Hp|intros _; apply Hp|apply (ai_gone s Ha)|done|done|..].
  - intros _ Hk Hea id Hid Hng. pose proof (in_use_arrived s Hi Hk Hea id Hid Hng) as Hin.
    by rewrite Hq, app_nil_r in Hin.
  - intros _ Hk id Hid. pose proof (before_arrived s Hi Hk id Hid) as Hin. by rewrite Hq, app_nil_r in Hin.
Qed.

Lemma sys_agent_inv e s : sys_enabled e s -> sys_inv s -> agent_inv (sys_exec e s).
Proof.
  intros Hen Hi. pose proof (si_edge s Hi) as Hed. pose proof (si_agent s Hi) as Ha.
  destruct e; cbn [sys_exec sys_enabled] in *.
  - apply agent_same_sent; [done..|]. intros id. by apply given_up_exec, Hen.
  - destruct Hen as (Hn & o & Ho & Hf). apply agent_edge_inv; [done|apply send_got|done| |by apply before_ack_sent].
    intros Hk Hea i. rewrite send_sent, opens_of_app, elem_of_app. intros [?| ->%list_elem_of_singleton] Hg; [done|].
    destruct Hg. destruct (acked_sent s Ha Hk) as [b Hb].
    eapply drained_given_up; [apply (ei_conn _ _ _ _ Hed)|by apply (ei_acked _ _ _ _ Hed b)|done|done].
  - destruct (up s); [done|]. by apply agent_same_sent.
  - by apply agent_same_sent.
  - destruct Hen as [l ->]. by apply agent_same_sent.
  - destruct Hen as [l ->]. assert (opens (drain_wait (conn_of s)).1 = opens (conn_of s)) as Ho by (unfold drain_wait; by repeat split_match).
    destruct (drain_wait (conn_of s)) as [c ch]. simpl in Ho. apply agent_same_sent; [done..|].
    unfold given_up. by rewrite Ho.
  - destruct Hen as (ch & l & -> & _). by apply agent_same_sent.
  - destruct Hen as (ch & l & ->). by apply agent_same_sent.
  - destruct Hen as (b & l & ->). apply agent_edge_inv; [done|apply send_got|done| |by apply before_ack_sent].
    intros _ _ i. by rewrite send_sent, opens_of_app, app_nil_r.
  - by apply agent_deliver_inv.
  - destruct Ha as [Hp Hg Hgo Has Hh (d1 & d2 & Hd & Ho & Hr & Hn & Hk) He Hbe]. split; simpl; try done.
    exists d1, d2. by split_and!.
  - own_step Hi Ha; [apply (ai_prog s Ha)|apply (ai_goaway s Ha)|apply (ai_gone s Ha)|apply (ai_asking s Ha)|done].
  - destruct Hen as (_ & t & l & Ht). own_step Hi Ha;
      [apply (ai_prog s Ha)|apply (ai_goaway s Ha)|apply (ai_gone s Ha)|eauto|done].
  - by apply agent_hear.
  - destruct Hen as (_ & t & l & Ht). unfold set_todo. rewrite Ht. eapply agent_go_on; eauto.
  - destruct Hen as (l & Ht). unfold set_todo. rewrite Ht. eapply agent_go_on; eauto.
  - destruct Hen as (t & l & Ht). rewrite Ht. eapply agent_go_on; eauto.
  - destruct Hen as (l & Ht). rewrite Ht. eapply agent_go_on; eauto.
  - destruct Hen as (l & Ht). unfold set_todo. rewrite Ht. eapply agent_go_on; eauto.
  - destruct Hen as [_ Hq]. destruct (queue s) as [|id q] eqn:E; [done|]. eapply agent_take; eauto.
  - destruct Hen as (id & q & l & Hq & [Ht|Ht]); rewrite Hq, Ht; eapply agent_take; eauto.
  - by apply agent_end.
  - destruct Hen as (d & l & Ht). unfold set_todo. rewrite Ht. eapply agent_go_on; eauto.
  - destruct Hen as (l & Ht). unfold set_todo. rewrite Ht. eapply agent_go_on; eauto.
Qed.

Lemma sys_exec_inv e s : sys_enabled e s -> sys_inv s -> sys_inv (sys_exec e s).
Proof. intros He Hi. split; [by apply sys_edge_inv, Hi|by apply sys_agent_inv]. Qed.

(** The shutdown of a session with the handoff asks once, before GoAway. *)
Lemma handoff_asks_once budget e : v2 e = true -> is_closed e = false -> minHandoff <= budget ->
  asks_once (shutdownSession budget e).
Proof.
  intros Hv Hc Hb. unfold shutdownSession. rewrite Hv, Hc. cbn [negb].
  assert (0 < minHandoff) by done.
  replace (budget <=? 0) with false by (symmetry; b2p; lia).
  replace (budget <? minHandoff) with false by (symmetry; b2p; lia). cbn [orb].
  set (rest := [SRefuseNew; SDrain _; SClose] ++ []).
  assert (Hno : no_ask (take_backlog budget (backlog e) ++ rest)).
  { apply Forall_app. split; [|unfold rest; repeat constructor; by intros].
    apply Forall_map, Forall_true. intros [i t]. by case_match. }
  assert (Hon : asks_once (take_backlog budget (backlog e) ++ rest)).
  { unfold take_backlog. induction (backlog e) as [|[i t] q IH]; simpl.
    - split_and!; try done. repeat constructor; by intros.
    - split; [by destruct (budget - t <? minServe)|]. apply IH. by inversion Hno. }
  rewrite <- app_assoc. simpl. split_and!; try done. 
  constructor; [by intros|]. constructor; [by intros|]. done.
Qed.

Lemma start_inv prog : asks_once prog -> sys_inv (start prog).
Proof.
  intros Hp. pose proof conn_new_inv as Hc. assert (Hg : s_got s_new = []) by (apply prefix_nil_inv; rewrite <- new_sent; apply in_order).
  split; split; simpl; rewrite ?new_sent, ?Hg; try done.
  - intros id Hid. by apply elem_of_nil in Hid.
  - constructor.
  - intros b Hb. by apply elem_of_nil in Hb.
  - intros _ l1 b l2 id E. by destruct l1.
  - by exists [], [].
Qed.

Lemma sys_reach_inv prog s : asks_once prog -> rtc sys_step (start prog) s -> sys_inv s.
Proof.
  intros Hp Hs. eapply (steps_invariant sys_enabled sys_exec); [apply sys_exec_inv|exact Hs|].
  by apply start_inv.
Qed.

(** ** Properties *)

(** What becomes of the streams the edge opens. *)
Definition streams_kept (s : sys) : Prop :=
  (forall id o, opens (conn_of s) !! id = Some o -> abandoned o = false ->
     finished o = true /\
     (FOpen id ∈ s_sent (down s) -> id ∈ map fst (out s) ++ queue s /\ (ended s = true -> id ∈ map fst (out s)))) /\
  (forall id, id ∈ reset s -> given_up (conn_of s) id).

Lemma acked_keeps_streams s : sys_inv s -> acked s = true -> early s = false -> drained (conn_of s) /\ streams_kept s.
Proof.
  intros Hi Hk Hea. destruct (Hi) as [He Ha]. destruct (acked_sent s Ha Hk) as [b Hsb].
  pose proof (proj2 (ei_acked _ _ _ _ He b Hsb) Hea) as Hd. pose proof (ei_conn _ _ _ _ He) as Hcn. split; [done|]. split.
  - intros id o Ho Hab.
    assert (Hng : ~ given_up (conn_of s) id) by (intros (o' & Ho' & ?); simplify_eq; congruence).
    split; [|intros Hf%opens_of_elem; split; [by apply in_use_arrived|intros En; by apply (ai_ended s Ha)]].
    destruct (finished o) eqn:Ef; [done|]. destruct Hng. by eapply drained_given_up.
  - intros id Hid. destruct (ai_got s Ha) as (d1 & d2 & Hg & _ & Hr & _ & Hd1). rewrite Hr in Hid.
    destruct (Hd1 Hk) as [b' Hb']. apply list_elem_of_split in Hb' as (l1 & l2 & ->).
    destruct (in_order (down s)) as [rest Hsent]. rewrite Hg, <- !app_assoc in Hsent. cbn [app] in Hsent.
    eapply (ei_late _ _ _ _ He Hea); [exact Hsent|]. rewrite !opens_of_app, !elem_of_app. auto.
Qed.

(** A stream whose opening frame was sent before the acknowledgement. *)
Definition opened_before_kept (s : sys) : Prop :=
  forall id, id ∈ before_ack (s_sent (down s)) ->
    id ∈ map fst (out s) ++ queue s /\ id ∉ reset s /\ (ended s = true -> id ∈ map fst (out s)).

Lemma arrivals_prefix s : sys_inv s -> map fst (out s) ++ queue s ++ reset s `prefix_of` opens_of (s_sent (down s)) /\
  NoDup (map fst (out s) ++ queue s ++ reset s).
Proof.
  intros [He Ha].
  assert (Hpre : map fst (out s) ++ queue s ++ reset s `prefix_of` opens_of (s_sent (down s))).
  { destruct (ai_got s Ha) as (d1 & d2 & Hg & Ho & Hr & _ & _). rewrite app_assoc, Ho, Hr, <- opens_of_app, <- Hg.
    destruct (in_order (down s)) as [r ->]. rewrite opens_of_app. by apply prefix_app_r. }
  split; [done|]. eapply sublist_NoDup; [apply (ei_once _ _ _ _ He)|]. destruct Hpre as [r ->]. by apply sublist_inserts_r.
Qed.

Lemma acked_keeps_before s : sys_inv s -> acked s = true -> AgentConn.retired (conn_of s) = true /\ opened_before_kept s.
Proof.
  intros Hi Hk. destruct (acked_sent s (si_agent s Hi) Hk) as [b Hb]. split; [exact (proj1 (ei_acked _ _ _ _ (si_edge s Hi) b Hb))|].
  intros id Hid. pose proof (before_arrived s Hi Hk id Hid) as Hin. split_and!; [done| |intros En; by apply (ai_before s (si_agent s Hi))].
  destruct (arrivals_prefix s Hi) as [_ Hnd]. rewrite app_assoc in Hnd. apply NoDup_app in Hnd as (_ & Hnd & _). by apply Hnd.
Qed.

(** [C11] No stream is lost in a drain of a version 2 session with time for the
    handoff (at least [minHandoff]): whatever the order in which the edge's opens,
    its retirement, the agent's shutdown and the frames between them run, once
    the agent has read the acknowledgement the edge's session is retired, and
    every stream whose opening frame was sent before the acknowledgement was
    taken by the agent or is in its accept queue, was not reset, and was taken
    once the backlog loop is over.  Unless the edge acknowledged because its wait
    ([RetireWait]) was over, moreover, no open is left that may be used, every
    stream the edge opened and uses was taken or is queued in the same way, and
    what the agent's session resets after GoAway are only opens the edge had
    given up on.  Streams arrive once each, in the order they were opened. *)
Theorem drain_loses_nothing (budget : Z) (e : shut_env) (s : sys)
    (Hv : v2 e = true) (Hc : is_closed e = false) (Hb : minHandoff <= budget)
    (Hs : rtc sys_step (start (shutdownSession budget e)) s) (Hk : acked s = true) :
  AgentConn.retired (conn_of s) = true /\ opened_before_kept s /\
  (early s = false -> liveOpensLocked (conn_of s) = 0 /\ streams_kept s) /\
  NoDup (map fst (out s) ++ queue s ++ reset s) /\
  map fst (out s) ++ queue s ++ reset s `prefix_of` opens_of (s_sent (down s)).
Proof.
  assert (Hi : sys_inv s) by (eapply sys_reach_inv; [by apply handoff_asks_once|exact Hs]).
  destruct (acked_keeps_before s Hi Hk) as [Hr Hbe]. destruct (arrivals_prefix s Hi) as [Hp Hnd]. split_and!; [done|done| |done|done].
  intros Hea. destruct (acked_keeps_streams s Hi Hk Hea) as [[_ Hd] Hst]. split; [|done].
  pose proof (live_is_count _ (inv_counts _ (ei_conn _ _ _ _ (si_edge s Hi)))). lia.
Qed.

(** The timing of the handshake is consistent: with time for a handoff, an
    acknowledgement the edge sends no later than [RetireWait] after it has the
    request is heard, if the way there and back takes no longer than
    [RetireWait]. *)
Theorem ack_in_time (budget there wait back t : Z) (rest : gostr) (er : error) (tie : bool)
    (Hb : minHandoff <= budget) (Hw : 0 <= wait <= RetireWait) (Ht : 0 <= t <= there) (Hr : 0 <= back)
    (Hrtt : there + back <= RetireWait) :
  RequestDrain (Z.min drainAckTimeout (budget ÷ 2))
    (mkAsk (Some (t, true)) true (there + wait + back) (mkStream (drainAck ++ rest) er)) tie = true.
Proof.
  pose proof (handoff_waits budget Hb) as [[_ Ha] _].
  assert (Hq : (requestDrain true true (mkStream (drainAck ++ rest) er)).2 = true).
  { apply (drain_handshake [] [] _ er); [by apply not_elem_of_nil|eauto]. }
  unfold RequestDrain, ask_returns. cbn [opened answer_at answer wrote negb].
  set (aw := Z.min drainAckTimeout (budget ÷ 2)) in *. unfold MinAckWait in Ha.
  destruct (Z.max t aw <? there + wait + back) eqn:E; b2p; [lia|]. rewrite Hq. cbn [Bounded].
  assert (0 < boundGrace) by done.
  by replace (Z.max t (there + wait + back) <? aw + boundGrace) with true by (symmetry; b2p; lia).
Qed.
End drain.

(** ** Witnesses *)

(** A session as a queue: what was received and what is still on its way. *)
#[export, refine] Instance fifo : Session (list frame * list frame) := {|
  s_new := ([], []);
  s_send f s := (s.1, s.2 ++ [f]);
  s_recv s := match s.2 with [] => None | f :: w => Some (f, (s.1 ++ [f], w)) end;
  s_sent s := s.1 ++ s.2;
  s_got s := s.1;
  new_sent := _; send_sent := _; send_got := _; recv_sent := _; recv_got := _; in_order := _;
|}.
Proof.
  - done.
  - intros. simpl. by rewrite app_assoc.
  - done.
  - intros [g [|x w]] f s' [= <- <-]. simpl. by rewrite <- app_assoc.
  - intros [g [|x w]] f s' [= <- <-]. done.
  - intros s. by apply prefix_app_r.
Defined.

Module DrainWitness.
Definition leaves : shut_env := mkShut true false [(2%nat, second)] (2 * second).
Definition budget : Z := 10 * second.

(** Stream 1 is opened and served; stream 2 is being opened when the agent asks
    to drain: the edge waits for it, acknowledges, and the agent takes it from
    the queue before it stops. *)
Definition run : list sys_event :=
  [EEdge (EvBegin 1); EFrame 1; EEdge (EvFinish 1 true); NDeliver; AMain; EEdge (EvBegin 2);
   AAsk true; EControl; ERetire; ELook; EFrame 2; EEdge (EvFinish 2 true); EWoken; EAck; EControlDone;
   NDeliver; NDeliver; AHear; ARetired; AGoAway; NGoAway; AStop; AAwait; ABacklog; AEnd].

Definition last : sys := foldl (fun s e => sys_exec e s) (start (W := list frame * list frame) (shutdownSession budget leaves)) run.

Ltac dec := refine (bool_decide_unpack _ _); vm_compute; exact I.
Ltac ok := cbn [sys_enabled AgentConn.enabled is_drain]; split_and?;
  first [ dec | (vm_compute; by eauto 8)
        | (let x := fresh in let E := fresh in intros x E; first [discriminate E | injection E as <-; dec])
        | (eexists; split; vm_compute; reflexivity) | (do 2 eexists; split; [vm_compute; reflexivity|dec])
        | (do 3 eexists; split; [vm_compute; reflexivity|vm_compute; by auto])].

Lemma reach_last : rtc sys_step (start (W := list frame * list frame) (shutdownSession budget leaves)) last.
Proof.
  apply plays_reach. unfold run.
  repeat (cbn [plays]; split; [solve [ok]|]). exact I.
Qed.

Lemma drain_loses_nothing_witness :
  out last = [(1%nat, true); (2%nat, true)] /\ reset last = [] /\ ended last = true /\ early last = false /\
  liveOpensLocked (conn_of last) = 0 /\
  map fst (out last) ++ queue last ++ reset last `prefix_of` opens_of (s_sent (down last)).
Proof.
  assert (Hea : early last = false) by (vm_compute; reflexivity).
  split; [vm_compute; reflexivity|]. split; [vm_compute; reflexivity|]. split; [vm_compute; reflexivity|]. split; [exact Hea|].
  destruct (drain_loses_nothing budget leaves last eq_refl eq_refl ltac:(vm_compute; discriminate) reach_last
    ltac:(vm_compute; reflexivity)) as (_ & _ & Hl & _ & Hp).
  split; [exact (proj1 (Hl Hea))|exact Hp].
Defined.

Lemma ack_in_time_witness :
  RequestDrain (Z.min drainAckTimeout (budget ÷ 2))
    (mkAsk (Some (0, true)) true (200 * millisecond + RetireWait + 300 * millisecond) (mkStream (drainAck ++ []) [EOF]))
    true = true.
Proof.
  apply (ack_in_time budget (200 * millisecond) RetireWait (300 * millisecond) 0 [] [EOF] true);
    vm_compute; try split; discriminate.
Defined.
End DrainWitness.
