(* ===== verification/Reload.v ===== *)
(** * A reload, from the signal to the old process's exit
    ([replace] of [internal/cli/replace.go], [shutdownSession] and [retired] of
    [internal/agent/agent.go], [retire] and [retireForDrain] of
    [internal/edge/edge.go], [registry.go])

    The parts of a reload run together here: the two agent processes
    ([Handoff]), the old agent's session with the edge while it drains
    ([Drain]), and the edge's pool ([Registry]), in which the replacement
    registers with the certificate the old agent still uses.  The parts meet
    where the code makes them meet: the shutdown of a session begins when the
    process's context ends; its call of [retired] is the handover, which runs to
    its end before GoAway is sent; [Run] returns, and the process exits, only
    after the shutdown; and the edge's [retire] is a mark under the session's
    lock followed by [take] under the registry's, two critical sections between
    which anything may happen.  Otherwise the three run interleaved in every
    way. *)

From S2P Require Import Prelude GoStrings IO Tunnel Config Obs Route Registry AgentConn Agent Handoff Drain.
#[local] Open Scope Z_scope.

Section reload.
Context {W : Type} `{Session W}.

(** The old agent's connection as the edge's registry knows it. *)
Context (old : agentConn).

(** [taking] is the caller of [retire] that set the mark and has not yet taken
    the session out of the pool: the drain request ([ByDrain]), or a request or
    a newcomer that met the agent's GoAway ([ByGoAway]). *)
Inductive retirer := ByDrain | ByGoAway.

Record whole := mkWhole { ho : Handoff.state; dr : sys (W := W); rg : world; taking : option retirer }.

Definition set_ho (h : Handoff.state) (x : whole) : whole := mkWhole h (dr x) (rg x) (taking x).
Definition set_rg (w : world) (x : whole) : whole := mkWhole (ho x) (dr x) w (taking x).

(** [retire] of the edge: who is to take the session out of the pool after the
    mark; nobody when it was marked already. *)
Definition takes (by_whom : retirer) (x : whole) : option retirer :=
  if (retire_mark (conn_of (dr x))).2 then taking x else Some by_whom.

Definition set_dr (e : sys_event) (x : whole) : whole :=
  mkWhole (ho x) (sys_exec e (dr x)) (rg x)
    (match e with
     | ERetire => takes ByDrain x
     | EEdge EvRetire => takes ByGoAway x
     | _ => taking x
     end).

(** ** Steps *)

Inductive whole_event :=
| RProcess (e : Handoff.event)   (* the two processes *)
| RSession (e : sys_event)       (* the old session, at both ends *)
| RPool (e : Registry.event)     (* other critical sections of the registry *)
| RRetired                       (* the shutdown calls [retired] *)
| RTake.                         (* [retire] goes on to [take] *)

(** The old session was tracked and registered before; its certificate stays
    with its session. *)
Definition not_again (e : Registry.event) : Prop :=
  match e with
  | ETrack _ s => s <> c_sess old
  | ERegister c => c_sess c <> c_sess old
  | _ => True
  end.

Definition whole_enabled (e : whole_event) (x : whole) : Prop :=
  match e with
  | RProcess e => Handoff.enabled e (ho x) /\
      match e with
      | Retire => todo (dr x) = []         (* Run returns: its deferred call *)
      | Exit => todo (dr x) = []
      | _ => True
      end
  | RSession e => sys_enabled e (dr x) /\
      match e with
      | AAsk _ => ctx_done (ho x) = true
      | ARetired => False                  (* [RRetired] *)
      | AGoAway => is_over (cb (ho x))
      | ELook => taking x <> Some ByDrain
      | EEdge EvRetire => goaway (dr x) = true \/ AgentConn.retired (conn_of (dr x)) = true
      | _ => True
      end
  | RPool e => Registry.enabled e (rg x) /\ not_again e
  | RRetired => Handoff.enabled Retire (ho x) /\ sys_enabled ARetired (dr x)
  | RTake => is_Some (taking x)
  end.

Definition whole_exec (e : whole_event) (x : whole) : whole :=
  match e with
  | RProcess e => set_ho (Handoff.exec e (ho x)) x
  | RSession e => set_dr e x
  | RPool e => set_rg (Registry.exec e (rg x)) x
  | RRetired => set_dr ARetired (set_ho (Handoff.exec Retire (ho x)) x)
  | RTake => mkWhole (ho x) (dr x) (Registry.exec (ETake (c_fp old) (c_sess old)) (rg x)) None
  end.

Definition whole_step : whole -> whole -> Prop := steps whole_enabled whole_exec.

(** An agent that serves on a session which is in the pool. *)
Definition serving (a : Agent) (prog : list shut_event) (w : world) : whole :=
  mkWhole (Handoff.initial a) (start prog) w None.

(** ** Each part on its own *)

Lemma whole_ho e x : whole_enabled e x -> ho (whole_exec e x) = ho x \/
  exists h, Handoff.enabled h (ho x) /\ ho (whole_exec e x) = Handoff.exec h (ho x).
Proof. destruct e; cbn [whole_enabled whole_exec ho set_ho set_dr set_rg]; auto; intros [He _]; eauto. Qed.

Lemma whole_dr e x : whole_enabled e x -> dr (whole_exec e x) = dr x \/
  exists d, sys_enabled d (dr x) /\ dr (whole_exec e x) = sys_exec d (dr x).
Proof.
  destruct e; cbn [whole_enabled whole_exec dr set_ho set_dr set_rg]; auto; [intros [He _]|intros [_ He]]; eauto.
Qed.

Lemma whole_rg e x : whole_enabled e x -> rg (whole_exec e x) = rg x \/
  exists r, Registry.enabled r (rg x) /\ not_again r /\ rg (whole_exec e x) = Registry.exec r (rg x).
Proof.
  destruct e; cbn [whole_enabled whole_exec rg set_ho set_dr set_rg]; auto; [intros [He Hn]; eauto|].
  intros _. right. by exists (ETake (c_fp old) (c_sess old)).
Qed.

(** What the parts keep on their own. *)
Record parts_ok (x : whole) : Prop := {
  p_calls : calls_ok (ho x);
  p_rest : rest_ok (ho x);
  p_sys : sys_inv (dr x);
  p_reg : reg_inv (w_reg (rg x));
}.

Lemma whole_parts e x : whole_enabled e x -> parts_ok x -> parts_ok (whole_exec e x).
Proof.
  intros He [Hc Hr Hs Hg].
  assert (Hh : calls_ok (ho (whole_exec e x)) /\ rest_ok (ho (whole_exec e x))).
  { destruct (whole_ho e x He) as [->|(h & Hh & ->)]; [done|]. by apply exec_ok. }
  split; [apply Hh|apply Hh| |].
  - destruct (whole_dr e x He) as [->|(d & Hd & ->)]; [done|]. by apply sys_exec_inv.
  - destruct (whole_rg e x He) as [->|(r & Hn & _ & ->)]; [done|]. by apply reg_exec_inv.
Qed.

(** ** How far the shutdown is *)

(** The entry of the shutdown an event of the session completes. *)
Definition pops (d : sys_event) (e : shut_event) : bool :=
  match d, e with
  | (AHear | ANoAck), SRequestDrain _ _ | ARetired, SRetired | AGoAway, SGoAway _ _ | AStop, SStopAccept
  | AAwait, SAwaitMain | ABacklog, (SServe _ | SRefuse _) | AEnd, SRefuseNew | ADrained, SDrain _ | AClosed, SClose => true
  | _, _ => false
  end.

Definition is_goaway (d : sys_event) : bool := match d with AGoAway => true | _ => false end.
Definition is_end (d : sys_event) : bool := match d with AEnd => true | _ => false end.
Definition is_hear (d : sys_event) : bool := match d with AHear => true | _ => false end.

Lemma sys_moves d s : sys_enabled d s ->
  goaway (sys_exec d s) = goaway s || is_goaway d /\ ended (sys_exec d s) = ended s || is_end d /\
  acked (sys_exec d s) = acked s || is_hear d /\
  (todo (sys_exec d s) = todo s /\ is_end d = false /\ is_goaway d = false /\ is_hear d = false \/
   exists e, todo s = e :: todo (sys_exec d s) /\ pops d e = true).
Proof.
  destruct d; cbn [sys_enabled sys_exec is_goaway is_end is_hear]; rewrite ?orb_false_r, ?orb_true_r; intros Hd.
  all: try (split_and!; [done..|]; by left).
  - destruct (up s); split_and!; auto.
  - destruct Hd as [l ->]. split_and!; auto.
  - destruct Hd as [l ->]. destruct (drain_wait _). split_and!; auto.
  - destruct Hd as (ch & l & -> & _). split_and!; auto.
  - destruct Hd as (ch & l & ->). split_and!; auto.
  - destruct Hd as (b & l & ->). split_and!; auto.
  - unfold deliver. destruct (s_recv _) as [[[id|b] w]|]; [destruct (gone s)|..]; split_and!; auto.
  - destruct Hd as (_ & (t & l & Ht) & _). simpl. rewrite Ht. split_and!; eauto.
  - destruct Hd as (_ & t & l & Ht). simpl. rewrite Ht. split_and!; eauto.
  - destruct Hd as (l & Ht). simpl. rewrite Ht. split_and!; eauto.
  - destruct Hd as (t & l & Ht). simpl. rewrite Ht. split_and!; eauto.
  - destruct Hd as (l & Ht). simpl. rewrite Ht. split_and!; eauto.
  - destruct Hd as (l & Ht). simpl. rewrite Ht. split_and!; eauto.
  - destruct (queue s); split_and!; auto.
  - destruct Hd as (id & q & l & -> & [->| ->]); simpl; split_and!; eauto.
  - destruct Hd as (_ & l & Ht). simpl. rewrite Ht. split_and!; eauto.
  - destruct Hd as (d & l & Ht). simpl. rewrite Ht. split_and!; eauto.
  - destruct Hd as (l & Ht). simpl. rewrite Ht. split_and!; eauto.
Qed.

(** What is left after [retired] was called: no other request, no other call,
    and the end of the backlog. *)
Definition after_retired (rest : list shut_event) : Prop :=
  Forall (fun e => (forall t b, e <> SRequestDrain t b) /\ e <> SRetired) rest /\ SRefuseNew ∈ rest.

Definition at_ask (rest : list shut_event) (x : whole) : Prop :=
  (exists t, todo (dr x) = SRequestDrain t false :: SRetired :: rest) /\ acked (dr x) = false.
Definition at_retired (rest : list shut_event) (x : whole) : Prop := todo (dr x) = SRetired :: rest.

Definition script_ok (rest : list shut_event) (x : whole) : Prop :=
  ((at_ask rest x \/ at_retired rest x) /\ retiredDone (agent (ho x)) = false /\ goaway (dr x) = false /\ ended (dr x) = false \/
   todo (dr x) `suffix_of` rest /\ retiredDone (agent (ho x)) = true) /\
  (ended (dr x) = false -> SRefuseNew ∈ todo (dr x)).

Lemma process_retiredDone e h : (e = Retire -> retiredDone (agent h) = true) ->
  retiredDone (agent (Handoff.exec e h)) = retiredDone (agent h).
Proof.
  intros He. destruct e as [i|i a| | |ok| |p|p|p w]; simpl; try done.
  - destruct (calls h !! i) as [c|]; [|done]. destruct c, a as [| |w|]; simpl; try done;
      repeat (case_match; try done); unfold SetOnRetired in *; by repeat case_match; simplify_eq/=.
  - unfold Agent.retired. rewrite (He eq_refl). by apply He.
  - unfold handOver_step. by repeat case_match.
Qed.

Lemma retire_retiredDone h : retiredDone (agent (Handoff.exec Retire h)) = true.
Proof. simpl. unfold Agent.retired. destruct (retiredDone (agent h)) eqn:E; [done|]. by destruct (onRetired (agent h)). Qed.

(** Once [retired] was called, the request is over. *)
Lemma asked_before_retired rest x t b : after_retired rest -> script_ok rest x -> retiredDone (agent (ho x)) = true ->
  SRequestDrain t b ∉ todo (dr x).
Proof.
  intros [Hno _] [[(_ & ? & _)|[[k ->] _]] _] Hrd Hin; [congruence|]. apply Forall_app in Hno as [_ Hno].
  rewrite Forall_forall in Hno. destruct (Hno _ Hin) as [Hn _]. by destruct (Hn t b).
Qed.

(** A step of the session goes on along the script. *)
Lemma session_script rest d x : after_retired rest -> sys_enabled d (dr x) -> d <> ARetired ->
  script_ok rest x -> script_ok rest (set_dr d x).
Proof.
  intros [Hno Hre] Hd Hn [Hs He]. destruct (sys_moves d (dr x) Hd) as (Hga & Hen & Hak & Hm).
  unfold script_ok, at_ask, at_retired, set_dr in *. cbn [dr ho]. rewrite Hga, Hen, Hak.
  destruct Hm as [(-> & -> & -> & ->)|(e & Ht & Hp)]; [by rewrite !orb_false_r|].
  assert (Hne : ended (dr x) || is_end d = false -> SRefuseNew ∈ todo (sys_exec d (dr x))).
  { intros [E1 E2]%orb_false_iff. specialize (He E1). rewrite Ht in He. apply elem_of_cons in He as [<-|?]; [|done].
    by destruct d. }
  split; [|done]. destruct Hs as [([[[t Hask] _]|Hret] & Hrd & Hg & Hend)|[Hsuf Hrd]].
  - left. rewrite Ht in Hask. injection Hask as -> Hl. rewrite Hg, Hend. destruct d; try done; simpl; auto.
  - rewrite Ht in Hret. injection Hret as -> Hl. by destruct d.
  - right. split; [|done]. rewrite Ht in Hsuf. by apply suffix_cons_l in Hsuf.
Qed.

Lemma retired_script rest x : after_retired rest -> sys_enabled ARetired (dr x) -> script_ok rest x ->
  script_ok rest (whole_exec RRetired x).
Proof.
  intros [Hno Hre] [l Hl] [Hs He]. unfold script_ok, at_ask, at_retired in *. cbn [whole_exec set_dr set_ho dr ho].
  rewrite retire_retiredDone. simpl. rewrite Hl in *. cbn [tail].
  split; [|intros E; specialize (He E); by apply elem_of_cons in He as [|]]. right. split; [|done].
  destruct Hs as [([[[t [=]] _]|[= ->]] & _)|[Hsuf _]]; [done|].
  exfalso. destruct Hsuf as [k ->]. apply Forall_app in Hno as [_ Hno]. apply Forall_cons in Hno as [[_ Hx] _]. done.
Qed.

Lemma whole_script rest e x : after_retired rest -> whole_enabled e x -> script_ok rest x -> script_ok rest (whole_exec e x).
Proof.
  intros Hr He Hs. destruct e as [e|d|r| |].
  - destruct He as [_ He]. assert (Hk : e = Retire -> retiredDone (agent (ho x)) = true).
    { intros ->. destruct Hs as [[([[[t Hl] _]|Hl] & _)|[_ ?]] _]; [unfold at_retired in *; congruence..|done]. }
    unfold script_ok, at_ask, at_retired in *. cbn [whole_exec set_ho dr ho]. by rewrite process_retiredDone.
  - destruct He as [Hd Hg]. apply session_script; [done..| |done]. by intros ->.
  - done.
  - destruct He as [_ Hd]. by apply retired_script.
  - done.
Qed.

(** ** The pool *)

(** The old session is in no pool. *)
Definition out_of_pool (w : world) : Prop := forall fp c, c ∈ pool (w_reg w) fp -> c_sess c <> c_sess old.

(** Sessions enter a pool only by registering. *)
Lemma exec_pool e w fp c : reg_inv (w_reg w) -> c ∈ pool (w_reg (Registry.exec e w)) fp ->
  c ∈ pool (w_reg w) fp \/ e = ERegister c.
Proof.
  intros Hr. destruct e as [fp0 s|c0|fp0|fp0 s|s|s|]; simpl; auto.
  - unfold track. destruct (closing _); [by left|]. by destruct (_ <=? _); left.
  - pose proof (registerConn_decides (isClosed w) (c_fp c0) c0 (w_reg w)) as Hd. cbv zeta in Hd.
    destruct (registerConn _ _ c0 _) as [[r' res] n]. destruct Hd as (_ & Hin & Hout & Hoth). simpl.
    destruct (decide (fp = c_fp c0)) as [->|Hne]; [|rewrite Hoth; auto].
    assert (Hres : res = Registry.registered \/ res <> Registry.registered) by (destruct res; auto).
    destruct Hres as [E|E]; [destruct (Hin E) as [-> _]|destruct (Hout E) as [-> _]].
    + intros [Hl|Hl]%elem_of_app; [left; by apply elem_of_filter_bool in Hl as [? _]|].
      apply list_elem_of_singleton in Hl as ->. by right.
    + intros Hl. left. by apply elem_of_filter_bool in Hl as [? _].
  - unfold hasLiveExclusive. destruct (liveLocked _ _ _) as [r' live] eqn:E. left. by eapply liveLocked_shrink.
  - intros Hl. apply removeLocked_elem in Hl as [? _]; [by left|done].
  - unfold drop. destruct (all (w_reg w) !! s) as [[f j]|]; [|by left]. intros Hl. left.
    apply (removeLocked_elem f s (w_reg w) c fp); [done|]. destruct j; exact Hl.
Qed.

Lemma out_exec e w : reg_inv (w_reg w) -> not_again e -> out_of_pool w -> out_of_pool (Registry.exec e w).
Proof.
  intros Hr Hn Ho fp c Hc. destruct (exec_pool e w fp c Hr Hc) as [Hc'| ->]; [by eapply Ho|done].
Qed.

(** It never is in another certificate's pool. *)
Definition own_pool (w : world) : Prop := forall fp c, c ∈ pool (w_reg w) fp -> c_sess c = c_sess old -> fp = c_fp old.

Lemma own_exec e w : reg_inv (w_reg w) -> not_again e -> own_pool w -> own_pool (Registry.exec e w).
Proof. intros Hr Hn Ho fp c Hc Hs. destruct (exec_pool e w fp c Hr Hc) as [Hc'| ->]; [by eapply Ho|done]. Qed.

Lemma take_out w : reg_inv (w_reg w) -> own_pool w -> out_of_pool (Registry.exec (ETake (c_fp old) (c_sess old)) w).
Proof.
  intros Hr Ho fp c Hc Hs. apply removeLocked_elem in Hc as [Hc Hn]; [|done]. by apply Hn; rewrite (Ho fp c).
Qed.

Lemma pooled_own w : reg_inv (w_reg w) -> phase_of (w_reg w) (c_sess old) = Some (c_fp old, Pooled) -> own_pool w.
Proof.
  intros Hr Hp fp c Hc Hs. apply inv_pool_elem in Hc as [_ Hc]; [|done]. unfold phase_of in Hp. rewrite <- Hs, Hc in Hp.
  by injection Hp as ->.
Qed.

(** The control stream is past the edge's mark. *)
Definition past (k : control) : Prop :=
  match k with CSteps (WriteAck _ :: _) | CRetired _ | CWait _ _ => True | _ => False end.

Definition answered (s : sys (W := W)) : Prop := exists b, FData b ∈ s_sent (down s).

(** A marked session is out of the pool, or about to be taken out by the one
    that marked it; before GoAway only the drain request marks, and it answers
    after it has taken the session out. *)
Record pool_ok (x : whole) : Prop := {
  o_own : own_pool (rg x);
  o_out : taking x = None -> AgentConn.retired (conn_of (dr x)) = true -> out_of_pool (rg x);
  o_drain : taking x = Some ByDrain -> (exists l, ctl (dr x) = CRetired l) /\ ~ answered (dr x);
  o_goaway : taking x = Some ByGoAway -> goaway (dr x) = true;
  o_marked : is_Some (taking x) \/ past (ctl (dr x)) \/ answered (dr x) -> AgentConn.retired (conn_of (dr x)) = true;
  o_acked : acked (dr x) = true -> out_of_pool (rg x);
}.

Lemma pool_ok_rg x e : parts_ok x -> not_again e -> pool_ok x -> pool_ok (set_rg (Registry.exec e (rg x)) x).
Proof.
  intros [_ _ _ Hr] Hn [H1 H2 H3 H4 H5 H6]. split; simpl; auto using own_exec, out_exec.
Qed.

Lemma pool_ok_take x : parts_ok x -> pool_ok x -> pool_ok (whole_exec RTake x).
Proof.
  intros [_ _ _ Hr] [H1 H2 H3 H4 H5 H6].
  split; cbn [whole_exec ho dr rg taking]; try done; auto using take_out.
  - by apply own_exec.
  - intros [[? [=]]|?]; auto.
Qed.

(** A step of the session that marks nothing. *)
Lemma pool_ok_same s x : AgentConn.retired (conn_of s) = AgentConn.retired (conn_of (dr x)) ->
  (past (ctl s) -> past (ctl (dr x))) -> (taking x = Some ByDrain -> ctl s = ctl (dr x)) ->
  (answered s -> answered (dr x) \/ past (ctl (dr x)) /\ taking x <> Some ByDrain) ->
  (goaway (dr x) = true -> goaway s = true) -> (acked s = true -> acked (dr x) = true \/ out_of_pool (rg x)) ->
  pool_ok x -> pool_ok (mkWhole (ho x) s (rg x) (taking x)).
Proof.
  intros Hr Hp Hc Ha Hg Hk [H1 H2 H3 H4 H5 H6]. split; simpl; rewrite ?Hr; auto.
  - intros E. destruct (H3 E) as [[l Hl] Hn]. split; [exists l; by rewrite Hc|].
    intros [?|[_ ?]]%Ha; done.
  - intros [?|[?|[?|[? _]]%Ha]]; auto.
  - intros E. destruct (Hk E); auto.
Qed.

(** A step of the session that calls [retire]. *)
Lemma pool_ok_mark s x by_whom : AgentConn.retired (conn_of s) = true ->
  (answered s -> answered (dr x)) -> (goaway (dr x) = true -> goaway s = true) -> acked s = acked (dr x) ->
  (taking x = Some ByDrain -> ctl s = ctl (dr x)) ->
  (AgentConn.retired (conn_of (dr x)) = false ->
     match by_whom with ByDrain => exists l, ctl s = CRetired l | ByGoAway => goaway s = true end) ->
  pool_ok x -> pool_ok (mkWhole (ho x) s (rg x) (takes by_whom x)).
Proof.
  intros Hr Ha Hg Hk Hc Hn [H1 H2 H3 H4 H5 H6]. unfold takes, retire_mark. cbn [snd].
  destruct (AgentConn.retired (conn_of (dr x))) eqn:E; split; cbn [dr rg taking ho]; auto; rewrite ?Hk; try done.
  - intros Et. destruct (H3 Et) as [[l Hl] Hna]. split; [exists l; by rewrite Hc|]. auto.
  - intros [= ->]. split; [by apply Hn|]. intros Hs%Ha. discriminate H5; auto.
  - intros [= ->]. by apply Hn.
Qed.

Lemma exec_retired_same e c : e <> EvRetire -> AgentConn.retired (AgentConn.exec e c) = AgentConn.retired c.
Proof.
  destruct e as [i|i st|i now| | |u cur]; intros He; simpl; try done.
  - unfold open_begin. by repeat case_match; simplify_eq/=.
  - unfold open_finish. case_match; [|done]. by rewrite (proj1 (wake_same _)).
  - unfold open_timeout. repeat case_match; try done. simpl. unfold coolDownFor.
    rewrite (proj1 (cool_same _ _ _)). by rewrite (proj1 (wake_same _)).
  - unfold drain_wait. by repeat case_match.
  - by rewrite (proj1 (cool_same _ _ _)).
Qed.
Lemma control_not_past st : ~ past (CSteps (serveControlStream st)).
Proof. unfold serveControlStream. destruct (ReadString _ _). destruct (_ || _); by intros []. Qed.

(** The acknowledgement is read before GoAway, when the edge has answered. *)
Lemma hear_out rest x : after_retired rest -> sys_enabled AHear (dr x) -> parts_ok x -> script_ok rest x -> pool_ok x ->
  out_of_pool (rg x).
Proof.
  intros [Hno _] (_ & (t & l & Ht) & Hr) [_ _ Hs _] [Hsc _] Ho.
  assert (Hg : goaway (dr x) = false).
  { destruct Hsc as [(_ & _ & ? & _)|[[k ->] _]]; [done|]. rewrite Ht in Hno. apply Forall_app in Hno as [_ Hno].
    apply Forall_cons in Hno as [[Hx _] _]. by destruct (Hx t false). }
  assert (Ha : answered (dr x)).
  { destruct (ai_heard _ (si_agent _ Hs) (answer_heard _ Hr)) as [b Hb]. exists b.
    eapply elem_of_prefix; [exact Hb|apply in_order]. }
  destruct (taking x) as [[]|] eqn:E; [by destruct (o_drain x Ho E)|by rewrite (o_goaway x Ho E) in Hg|].
  apply (o_out x Ho E), (o_marked x Ho). auto.
Qed.

Lemma control_free x : pool_ok x -> (forall l, ctl (dr x) <> CRetired l) -> taking x <> Some ByDrain.
Proof. intros Ho Hn E. destruct (o_drain x Ho E) as [[l Hl] _]. by eapply Hn. Qed.

(** Sending an open is not an answer. *)
Lemma answered_open id s w u c k ea : answered (on_edge c (s_send (FOpen id) w) k ea u s) -> exists b, FData b ∈ s_sent w.
Proof. intros [b Hb]. simpl in Hb. rewrite send_sent in Hb. apply elem_of_app in Hb as [?|[=]%list_elem_of_singleton]; eauto. Qed.

Lemma session_pool rest d x : after_retired rest -> whole_enabled (RSession d) x -> parts_ok x -> script_ok rest x ->
  pool_ok x -> pool_ok (set_dr d x).
Proof.
  intros Hr [Hd Hg] Hp Hs Ho. pose proof (control_free x Ho) as Hf.
  destruct d as [e| | | | | | | | | | |b|b| | | | | | | | | | |]; cbn [sys_enabled] in Hd.
  - destruct e; try (apply pool_ok_same; auto; apply exec_retired_same; done).
    apply pool_ok_mark; auto. intros E. destruct Hg as [?|Hg]; [done|congruence].
  - apply pool_ok_same; auto. intros ?%answered_open. by left.
  - destruct Hd as [Hi Hu]. apply pool_ok_same; auto; simpl; destruct (up (dr x)) as [|u us]; auto.
    + by intros ?%control_not_past.
    + intros E. destruct Hf; [by rewrite Hi|done].
  - apply pool_ok_same; auto; [by intros []|]. intros E. destruct Hf; [by rewrite Hd|done].
  - destruct Hd as [l Hl]. apply pool_ok_mark; cbn [sys_exec]; rewrite ?Hl; auto; [|by eauto].
    intros E. destruct Hf; [by rewrite Hl|done].
  - destruct Hd as [l Hl]. apply pool_ok_same; cbn [sys_exec]; rewrite ?Hl; simpl; auto; unfold drain_wait.
    all: repeat case_match; simplify_eq; auto; done.
  - destruct Hd as (ch & l & Hl & _). assert (Hn : taking x <> Some ByDrain) by (apply Hf; by rewrite Hl).
    apply pool_ok_same; cbn [sys_exec]; rewrite ?Hl; simpl; auto; done.
  - destruct Hd as (ch & l & Hl). assert (Hn : taking x <> Some ByDrain) by (apply Hf; by rewrite Hl).
    apply pool_ok_same; cbn [sys_exec]; rewrite ?Hl; simpl; auto; done.
  - destruct Hd as (b & l & Hl). assert (Hn : taking x <> Some ByDrain) by (apply Hf; by rewrite Hl).
    apply pool_ok_same; cbn [sys_exec]; rewrite ?Hl; simpl; auto; done.
  - apply pool_ok_same; cbn [sys_exec]; unfold deliver, answered;
      (destruct (s_recv (down (dr x))) as [[[id|b] w]|] eqn:E; [destruct (gone (dr x))|..]); simpl; auto;
      rewrite (recv_sent _ _ _ E); auto.
  - by apply pool_ok_same; auto.
  - by apply pool_ok_same; auto.
  - by apply pool_ok_same; auto.
  - apply pool_ok_same; auto. intros _. right. by eapply hear_out.
  - by apply pool_ok_same; auto.
  - done.
  - apply pool_ok_same; auto.
  - by apply pool_ok_same; auto.
  - by apply pool_ok_same; auto.
  - apply pool_ok_same; cbn [sys_exec]; destruct (queue (dr x)); auto.
  - apply pool_ok_same; cbn [sys_exec]; destruct (queue (dr x)), (todo (dr x)) as [|[] ?]; auto.
  - by apply pool_ok_same; auto.
  - by apply pool_ok_same; auto.
  - by apply pool_ok_same; auto.
Qed.

(** ** The whole *)

(** The process exits after its shutdown. *)
Definition exit_ok (x : whole) : Prop := exit (ho x) <> None -> todo (dr x) = [].

Record whole_inv (rest : list shut_event) (x : whole) : Prop := {
  w_parts : parts_ok x; w_script : script_ok rest x; w_pool : pool_ok x; w_exit : exit_ok x }.

Lemma process_exit e h : exit (Handoff.exec e h) = exit h \/ e = Exit.
Proof.
  destruct e as [i|i a| | |ok| |p|p|p w]; simpl; auto; left.
  - destruct (calls h !! i) as [c|]; [|done]. destruct c, a as [| |w|]; simpl; try done; by repeat (case_match; try done).
  - unfold Agent.retired. by repeat case_match.
  - unfold handOver_step. by repeat case_match.
Qed.

Lemma whole_exit e x : whole_enabled e x -> exit_ok x -> exit_ok (whole_exec e x).
Proof.
  intros He Hx. unfold exit_ok in *. destruct e as [e|d|r| |]; cbn [whole_exec set_ho set_dr set_rg ho dr].
  - destruct (process_exit e (ho x)) as [->| ->]; [done|]. intros _. apply He.
  - intros E. specialize (Hx E). destruct He as [Hd _]. destruct (sys_moves d _ Hd) as (_ & _ & _ & [[-> _]|(s & Hs & _)]); [done|].
    by rewrite Hx in Hs.
  - done.
  - destruct He as [[He _] [l Hl]]. destruct (process_exit Retire (ho x)) as [->|[=]]. by rewrite He.
  - done.
Qed.

Lemma whole_exec_inv rest e x : after_retired rest -> whole_enabled e x -> whole_inv rest x -> whole_inv rest (whole_exec e x).
Proof.
  intros Hr He [Hp Hs Ho Hx]. split; [by eapply whole_parts|by eapply whole_script| |by eapply whole_exit].
  destruct e as [e|d|r| |].
  - destruct Ho. by split.
  - by eapply session_pool.
  - destruct He. by apply pool_ok_rg.
  - destruct He as [_ He]. destruct Ho. by split.
  - by apply pool_ok_take.
Qed.

Lemma handoff_script budget e : v2 e = true -> is_closed e = false -> minHandoff <= budget ->
  exists t rest, shutdownSession budget e = SRequestDrain t false :: SRetired :: rest /\ after_retired rest.
Proof.
  intros Hv Hc Hb. unfold shutdownSession. rewrite Hv, Hc. cbn [negb]. assert (0 < minHandoff) by done.
  replace (budget <=? 0) with false by (symmetry; b2p; lia).
  replace (budget <? minHandoff) with false by (symmetry; b2p; lia). cbn [orb].
  do 2 eexists. split; [reflexivity|]. split.
  - repeat (apply Forall_cons; split; [by split|]). apply Forall_app. split; [|by repeat constructor].
    apply Forall_map, Forall_true. intros [i t]. by case_match.
  - do 3 right. apply elem_of_app. right. left.
Qed.

Lemma serving_inv a budget e w : retiredDone a = false -> onRetired a = None ->
  v2 e = true -> is_closed e = false -> minHandoff <= budget ->
  reg_inv (w_reg w) -> phase_of (w_reg w) (c_sess old) = Some (c_fp old, Pooled) ->
  exists rest, after_retired rest /\ whole_inv rest (serving a (shutdownSession budget e) w).
Proof.
  intros Hd Ho Hv Hc Hb Hr Hp. destruct (handoff_script budget e Hv Hc Hb) as (t & rest & Ht & Hrest).
  exists rest. split; [done|]. destruct (initial_ok a Hd Ho). split.
  - split; [done..| |done]. by apply start_inv, handoff_asks_once.
  - split; simpl; rewrite Ht; [|intros _; right; right; apply Hrest]. left. split; [|done]. left. by split; [exists t|].
  - split; simpl; try done; [by apply pooled_own|]. intros [[? [=]]|[[]|[b Hb']]]. simpl in Hb'. rewrite new_sent in Hb'.
    by apply elem_of_nil in Hb'.
  - by intros [].
Qed.

(** The old session does not stand in the way of a newcomer. *)
Lemma not_refused_for_old w c : out_of_pool w -> c_fp c = c_fp old ->
  (registerConn (isClosed w) (c_fp c) c (w_reg w)).1.2 = refusedDuplicate ->
  exists c', c' ∈ pool (w_reg w) (c_fp old) /\ isClosed w (c_sess c') = false /\ c_sess c' <> c_sess old.
Proof.
  intros Ho Hf. unfold registerConn. destruct (liveLocked _ _ _) as [r' live] eqn:E.
  apply liveLocked_spec in E as (-> & _). destruct (_ || _); [done|].
  destruct (duplicateLocked _ _ _) eqn:E; [|by destruct (_ <=? _)]. intros _.
  unfold duplicateLocked in E. apply andb_true_iff in E as [_ E]. rewrite Hf in E.
  destruct (List.filter _ _) as [|c' l] eqn:El; [done|]. exists c'.
  assert (Hin : c' ∈ c' :: l) by left. rewrite <- El in Hin. apply elem_of_filter_bool in Hin as [Hin Hcl].
  split_and!; [done|by apply negb_true_iff|by eapply Ho].
Qed.

(** [C9] A reload is seamless from the edge's pool to the old process's exit, for
    an agent with a version 2 session in the pool and at least [minHandoff] of
    drain time.  Whatever the order of the two processes, the session's drain, the
    edge's requests and other agents: once the old agent has read the edge's
    acknowledgement, its session is in no pool, so that a replacement with the
    same certificate is refused as a duplicate only on account of a third session;
    every stream whose opening frame was sent before the acknowledgement was taken
    by the old agent or is in its queue, and, unless the edge acknowledged because
    its wait was over, so was every stream the edge opened and uses, and none but
    those the edge had given up on was reset.  A replacement that works on the
    go-ahead is the service's main process, and the old agent's drain request is
    over by then.  When the old process has exited, its backlog loop is over, so
    that it has taken all of those streams; and unless it was told to stop from
    outside, it exits with success only when its replacement has reported ready
    and is the main process. *)
Theorem seamless_reload (sh : gset gostr) (a : Agent) (budget : Z) (e : shut_env) (w : world) (x : whole)
    (Hd : retiredDone a = false) (Ho : onRetired a = None)
    (Hv : v2 e = true) (Hc : is_closed e = false) (Hb : minHandoff <= budget)
    (Hw : rtc Registry.step (Registry.initial sh) w)
    (Hold : phase_of (w_reg w) (c_sess old) = Some (c_fp old, Pooled))
    (Hx : rtc whole_step (serving a (shutdownSession budget e) w) x) :
  (acked (dr x) = true ->
     (forall fp c, c ∈ pool (w_reg (rg x)) fp -> c_sess c <> c_sess old) /\
     (forall c, c_fp c = c_fp old ->
        (registerConn (isClosed (rg x)) (c_fp c) c (w_reg (rg x))).1.2 = refusedDuplicate ->
        exists c', c' ∈ pool (w_reg (rg x)) (c_fp old) /\ isClosed (rg x) (c_sess c') = false /\ c_sess c' <> c_sess old) /\
     opened_before_kept (dr x) /\ (early (dr x) = false -> streams_kept (dr x))) /\
  (forall p, working (the_succ p (ho x)) = Some true -> main (ho x) = Some p /\ forall t b, SRequestDrain t b ∉ todo (dr x)) /\
  (forall b, exit (ho x) = Some b -> ended (dr x) = true /\
     (b = false -> term (ho x) = false -> exists p, main (ho x) = Some p /\ reported (the_succ p (ho x)) = true)).
Proof.
  assert (Hr : reg_inv (w_reg w)) by (by eapply reg_steps_inv, initial_inv).
  destruct (serving_inv a budget e w) as (rest & Hrest & H0); [done..|].
  assert (Hi : whole_inv rest x).
  { eapply (steps_invariant whole_enabled whole_exec (whole_inv rest)); [|exact Hx|done]. intros. by apply whole_exec_inv. }
  destruct Hi as [[Hca Hre Hsy Hrg] Hs Hp Hex]. split_and!.
  - intros Hk. pose proof (o_acked x Hp Hk) as Hout. split_and!; [exact Hout| |by apply acked_keeps_before|].
    + intros c. by apply not_refused_for_old.
    + intros Hea. by apply acked_keeps_streams.
  - intros p Hwk. destruct (working_main _ p Hre Hwk) as [Hm Hrd]. split; [done|]. intros t b.
    by eapply asked_before_retired.
  - intros b Hb'. split; [|intros ->; by apply clean_exit_main]. destruct (ended (dr x)) eqn:En; [done|].
    apply (proj2 Hs) in En. rewrite Hex in En; [by apply elem_of_nil in En|congruence].
Qed.

End reload.

(** ** Witness *)

Module ReloadWitness.
Import RegistryWitness.

(** A reload while one stream is served and another is being opened: the old
    session drains and leaves the pool, the replacement gets the go-ahead, its
    session joins with the same exclusive certificate, and the old process takes
    its last stream and exits. *)
Definition script : list whole_event :=
  map RProcess (firstn 10 HandoffWitness.script) ++
  map RSession (firstn 9 DrainWitness.run) ++ [RTake] ++ map RSession (firstn 9 (skipn 9 DrainWitness.run)) ++
  [RRetired] ++ map RProcess (firstn 4 (skipn 11 HandoffWitness.script)) ++
  [RPool (ETrack fpA 2); RPool (ERegister c2)] ++
  map RSession (skipn 19 DrainWitness.run ++ [ADrained; AClosed]) ++ [RProcess Exit].

Definition from : whole (W := list frame * list frame) :=
  serving HandoffWitness.a0 (shutdownSession DrainWitness.budget DrainWitness.leaves) w1.
Definition until (n : nat) : whole := foldl (fun x e => whole_exec c1 e x) from (firstn n script).
Definition last : whole := until 45.

(** Guards of closed states. *)
Ltac process := vm_compute; repeat match goal with |- _ /\ _ => split | |- exists _, _ => eexists end;
  first [reflexivity | exact I | discriminate | vm_compute; repeat split].
Ltac guard_ok := cbn [whole_enabled];
  first [ solve [split; [solve [DrainWitness.ok] | first [exact I | (vm_compute; by auto) | (vm_compute; discriminate)]]]
        | solve [process] ].

Lemma reload_reached : rtc (whole_step c1) from last.
Proof. apply plays_reach. unfold script. cbn [map app firstn skipn HandoffWitness.script DrainWitness.run].
  repeat (cbn [plays]; split; [solve [guard_ok]|]). exact I.
Qed.

Lemma seamless_reload_witness :
  exit (ho last) = Some false /\ out (dr last) = [(1%nat, true); (2%nat, true)] /\
  pool (w_reg (rg last)) fpA = [c2] /\ ended (dr last) = true /\
  (forall c, c_fp c = fpA -> (registerConn (isClosed (rg last)) (c_fp c) c (w_reg (rg last))).1.2 = refusedDuplicate ->
     exists c', c' ∈ pool (w_reg (rg last)) fpA /\ isClosed (rg last) (c_sess c') = false /\ c_sess c' <> 1%nat).
Proof.
  split; [vm_compute; reflexivity|]. split; [vm_compute; reflexivity|]. split; [vm_compute; reflexivity|].
  destruct (seamless_reload c1 ∅ HandoffWitness.a0 DrainWitness.budget DrainWitness.leaves w1 last eq_refl eq_refl eq_refl eq_refl
    ltac:(vm_compute; discriminate) reach1 ltac:(vm_compute; reflexivity) reload_reached) as (Hp & _ & Hx).
  split.
  - apply (Hx false). vm_compute. reflexivity.
  - apply (Hp ltac:(vm_compute; reflexivity)).
Defined.
End ReloadWitness.
