(* ===== verification/Process.v ===== *)
(** * The life of a daemon process ([internal/cli/run.go],
      [internal/metrics/server.go])

    [runDaemon] and [serveDaemon]: the goroutines around a daemon's [Run], each
    step by step, in several processes that share the metrics port and the public
    port: the shutdown signal, which marks the state as draining and then cancels
    the context; the metrics server, which may have to wait for the port; the
    admin socket; the log level; and the main goroutine, which stops the side
    servers only when [Run] has returned, and waits for them.  What a probe of the
    metrics port finds is what the process there would answer, as text. *)

From S2P Require Import Prelude GoStrings Numeral IO Config Obs Metrics Journal Daemon.
#[local] Open Scope Z_scope.

(** ** The metrics endpoint *)

Definition ContentType : gostr := bs "text/plain; version=0.0.4; charset=utf-8".

Record response := mkResponse { r_status : Z; r_header : list (gostr * gostr); r_body : gostr }.

Definition metrics_path : gostr := bs "/metrics".

(** [Handler] on a request for a clean path: the pattern [GET /metrics] takes GET
    and HEAD; of an answer to HEAD only the header is sent. *)
Definition Handler `{FloatFormat} (d : Detail) (version meth path : gostr) : response :=
  if negb (beq path metrics_path) then mkResponse 404 [] []
  else if beq meth (bs "GET") || beq meth (bs "HEAD") then
    let body := Encode (Collect d version) in
    mkResponse 200
      [(bs "Content-Type", ContentType); (bs "Content-Length", Itoa (Z.of_nat (length body)))]
      (if beq meth (bs "GET") then body else [])
  else mkResponse 405 [(bs "Allow", bs "GET, HEAD")] [].

(** ** A process *)

(** The main goroutine: binding the metrics port, probing its holder, about to
    start the side servers, in [Run], [Run] has returned with or without an error,
    the side servers are told to stop, the process has exited, or was killed. *)
Inductive main_pc := MainBind | MainProbe | MainServe | MainRun | MainBack (failed : bool) | MainWait (failed : bool)
| MainExit (failed : bool) | MainKilled.

(** The goroutine of the shutdown signal. *)
Inductive term_pc := TermIdle | TermSignalled | TermMarked | TermDone.

(** The metrics goroutine: none, bound and about to serve, serving, between two
    binds, probing after a failed bind, about to bind once more, shutting down
    with its listener closed, and over. *)
Inductive met_pc := MetOff | MetBound | MetServing | MetAwait | MetProbe | MetAgain | MetClosing | MetDone.

Inductive adm_pc := AdmOff | AdmServing | AdmDone.

(** [listening] is whether [Run] holds the public port, [listened] whether it ever
    did. *)
Record proc := mkProc {
  st : State;
  o_metrics : bool;
  o_socket : bool;
  lv : Z;
  ctx : bool;
  lifetime : bool;
  main : main_pc;
  termg : term_pc;
  met : met_pc;
  adm : adm_pc;
  listening : bool;
  listened : bool;
}.

(** The start of [runDaemon]. *)
Definition boot (role : gostr) (now : Z) (metrics socket : bool) (level : Z) : proc :=
  mkProc (NewState role now) metrics socket level false false MainBind TermIdle MetOff AdmOff false false.

Definition set_st (s : State) (p : proc) : proc :=
  mkProc s (o_metrics p) (o_socket p) (lv p) (ctx p) (lifetime p) (main p) (termg p) (met p) (adm p) (listening p) (listened p).
Definition set_lv (l : Z) (p : proc) : proc :=
  mkProc (st p) (o_metrics p) (o_socket p) l (ctx p) (lifetime p) (main p) (termg p) (met p) (adm p) (listening p) (listened p).
Definition set_ctx (p : proc) : proc :=
  mkProc (st p) (o_metrics p) (o_socket p) (lv p) true (lifetime p) (main p) (termg p) (met p) (adm p) (listening p) (listened p).
Definition set_lifetime (p : proc) : proc :=
  mkProc (st p) (o_metrics p) (o_socket p) (lv p) (ctx p) true (main p) (termg p) (met p) (adm p) (listening p) (listened p).
Definition set_main (m : main_pc) (p : proc) : proc :=
  mkProc (st p) (o_metrics p) (o_socket p) (lv p) (ctx p) (lifetime p) m (termg p) (met p) (adm p) (listening p) (listened p).
Definition set_term (t : term_pc) (p : proc) : proc :=
  mkProc (st p) (o_metrics p) (o_socket p) (lv p) (ctx p) (lifetime p) (main p) t (met p) (adm p) (listening p) (listened p).
Definition set_met (m : met_pc) (p : proc) : proc :=
  mkProc (st p) (o_metrics p) (o_socket p) (lv p) (ctx p) (lifetime p) (main p) (termg p) m (adm p) (listening p) (listened p).
Definition set_adm (a : adm_pc) (p : proc) : proc :=
  mkProc (st p) (o_metrics p) (o_socket p) (lv p) (ctx p) (lifetime p) (main p) (termg p) (met p) a (listening p) (listened p).
Definition set_listening (b e : bool) (p : proc) : proc :=
  mkProc (st p) (o_metrics p) (o_socket p) (lv p) (ctx p) (lifetime p) (main p) (termg p) (met p) (adm p) b e.

(** ** Steps of a process *)

(** What a process sees of the others: whether the metrics port and the public
    port are free, and what a probe of the metrics port finds. *)
Record view := mkView { met_free : bool; pub_free : bool; found : option Holder }.

(** What a step does to a port. *)
Inductive port_act := Keep | Take | Release.

Inductive pevent :=
| PBind | PProbe | PCut | PServe
| PSignal | PMark | PCancel
| PHup (level : option gostr)
| PWork (op : obs_event)
| RListen | RFails | RClose | RReturn
| PStop | PExit | PKill
| MServe | MTick | MEnd | MProbe | MCut | MAgain | MShut | MOver
| AShut.

Definition is_draining (op : obs_event) : bool := match op with ODraining => true | _ => false end.

(** A process that has neither exited nor been killed. *)
Definition runs (p : proc) : bool := match main p with MainExit _ | MainKilled => false | _ => true end.

(** The start of the side servers in [serveDaemon], and [notifyReady]. *)
Definition serve (p : proc) : proc := set_main MainRun (set_adm (if o_socket p then AdmServing else AdmOff) p).

(** Whether the wait group of the side servers is done. *)
Definition side_done (p : proc) : bool :=
  match met p with MetOff | MetDone => true | _ => false end && match adm p with AdmOff | AdmDone => true | _ => false end.

(** Whether the metrics goroutine holds the port. *)
Definition holds_met (m : met_pc) : bool := match m with MetBound | MetServing => true | _ => false end.

Section steps.
Context `{Unicode}.

(** The main goroutine; the address is any that is not empty.  A probe runs under
    the context and is cut short ([PCut]) when a shutdown signal comes first. *)
Definition main_step (v : view) (e : pevent) (p : proc) : option (proc * port_act * port_act) :=
  match e, main p with
  | PBind, MainBind =>
      if negb (o_metrics p) then Some (set_main MainServe p, Keep, Keep)
      else if met_free v then Some (set_main MainServe (set_met MetBound p), Take, Keep)
      else Some (set_main MainProbe p, Keep, Keep)
  | PProbe, MainProbe =>
      match bindMetrics (bs ":9464") InUse (found v) (role (st p)) with
      | RetryAddr => Some (set_main MainServe (set_met MetAwait p), Keep, Keep)
      | _ => Some (set_main (MainExit true) p, Keep, Keep)
      end
  | PCut, MainProbe => if ctx p then Some (set_main (MainExit true) p, Keep, Keep) else None
  | PServe, MainServe => Some (serve p, Keep, Keep)
  | RListen, MainRun =>
      if pub_free v && negb (listening p) && negb (ctx p) then Some (set_listening true true p, Keep, Take) else None
  | RFails, MainRun => if listened p then None else Some (set_main (MainBack true) p, Keep, Keep)
  | RClose, MainRun => if listening p && ctx p then Some (set_listening false (listened p) p, Keep, Release) else None
  | RReturn, MainRun => if negb (listening p) && ctx p then Some (set_main (MainBack false) p, Keep, Keep) else None
  | PStop, MainBack f => Some (set_main (MainWait f) (set_lifetime p), Keep, Keep)
  | PExit, MainWait f => if side_done p then Some (set_main (MainExit f) p, Keep, Keep) else None
  | _, _ => None
  end.

(** The goroutine of the shutdown signal: the mark comes before the cancel. *)
Definition term_step (e : pevent) (p : proc) : option proc :=
  match e, termg p with
  | PSignal, TermIdle => Some (set_term TermSignalled p)
  | PMark, TermSignalled => Some (set_term TermMarked (set_st (SetDraining (st p)) p))
  | PCancel, TermMarked => Some (set_term TermDone (set_ctx p))
  | _, _ => None
  end.

(** The metrics goroutine: [await] step by step, then [metrics.Serve].  With both
    a tick and the end of [lifetime] ready, its select takes either ([MTick],
    [MEnd]); the end of [lifetime] may cut its probe short ([MCut]). *)
Definition met_step (v : view) (e : pevent) (p : proc) : option (proc * port_act) :=
  match e, met p with
  | MServe, MetBound => Some (set_met MetServing p, Keep)
  | MTick, MetAwait =>
      if met_free v then Some (set_met MetServing p, Take) else Some (set_met MetProbe p, Keep)
  | MEnd, MetAwait => if lifetime p then Some (set_met MetDone p, Keep) else None
  | MProbe, MetProbe =>
      Some (set_met (if drainingPredecessor (found v) (role (st p)) then MetAwait else MetAgain) p, Keep)
  | MCut, MetProbe => if lifetime p then Some (set_met MetAgain p, Keep) else None
  | MAgain, MetAgain =>
      if met_free v then Some (set_met MetServing p, Take) else Some (set_met MetDone p, Keep)
  | MShut, MetServing => if lifetime p then Some (set_met MetClosing p, Release) else None
  | MOver, MetClosing => Some (set_met MetDone p, Keep)
  | _, _ => None
  end.

(** The other goroutines: the admin socket, the log level, the data path. *)
Definition side_step (e : pevent) (p : proc) : option proc :=
  match e with
  | AShut => if lifetime p && match adm p with AdmServing => true | _ => false end then Some (set_adm AdmDone p) else None
  | PHup level => if lifetime p then None else match main p with MainRun | MainBack _ => Some (set_lv (on_hup level (lv p)) p) | _ => None end
  | PWork op => if is_draining op then None else Some (set_st (obs_exec op (st p)) p)
  | _ => None
  end.

(** A step of one process; [None] when it cannot be taken.  The side servers start
    in [serveDaemon]. *)
Definition pstep (v : view) (e : pevent) (p : proc) : option (proc * port_act * port_act) :=
  if negb (runs p) then None
  else match e with
       | PKill => Some (set_listening false (listened p) (set_met MetDone (set_main MainKilled p)),
                        if holds_met (met p) then Release else Keep, if listening p then Release else Keep)
       | PSignal | PMark | PCancel => (fun q => (q, Keep, Keep)) <$> term_step e p
       | MServe | MTick | MEnd | MProbe | MCut | MAgain | MShut | MOver =>
           match main p with
           | MainBind | MainProbe | MainServe => None
           | _ => (fun '(q, a) => (q, a, Keep)) <$> met_step v e p
           end
       | AShut | PHup _ | PWork _ => (fun q => (q, Keep, Keep)) <$> side_step e p
       | _ => main_step v e p
       end.
End steps.

(** ** Several processes *)

Section world.
Context `{Unicode} `{FloatFormat}.
Variable version : gostr.

(** The holders of the two ports may be processes that are not daemons. *)
Record world := mkWorld { procs : gmap nat proc; met_holder : option nat; pub_holder : option nat }.

(** The orders in which a probed process visits its maps. *)
Record orders := mkOrders { o_routes : list gostr; o_agents : list nat; o_expected : list gostr }.

(** What a scrape of process [p] answers, and what a probe of the metrics port
    finds: the page of the process that serves it, nothing when no daemon does. *)
Definition page (o : orders) (p : proc) : response :=
  Handler (detail (o_routes o) (o_agents o) (o_expected o) (st p)) version (bs "GET") metrics_path.

Definition probe (o : orders) (w : world) : option Holder :=
  match met_holder w with
  | None => None
  | Some i =>
      match procs w !! i with
      | Some p =>
          match met p with
          | MetServing => probeOne (Some (r_status (page o p), r_body (page o p)))
          | _ => None
          end
      | None => None
      end
  end.

Definition see (o : orders) (w : world) : view :=
  mkView (bool_decide (met_holder w = None)) (bool_decide (pub_holder w = None)) (probe o w).

Definition act (a : port_act) (i : nat) (h : option nat) : option nat :=
  match a with Keep => h | Take => Some i | Release => None end.

Inductive wevent :=
| WSpawn (i : nat) (role : gostr) (now : Z) (metrics socket : bool) (level : Z)
| WStep (i : nat) (o : orders) (e : pevent).

Definition wstep (e : wevent) (w : world) : option world :=
  match e with
  | WSpawn i role now metrics socket level =>
      match procs w !! i with
      | Some _ => None
      | None =>
          if bool_decide (met_holder w = Some i \/ pub_holder w = Some i) then None
          else Some (mkWorld (<[i := boot role now metrics socket level]> (procs w)) (met_holder w) (pub_holder w))
      end
  | WStep i o e =>
      match procs w !! i with
      | None => None
      | Some p =>
          match pstep (see o w) e p with
          | None => None
          | Some (p', m, b) => Some (mkWorld (<[i := p']> (procs w)) (act m i (met_holder w)) (act b i (pub_holder w)))
          end
      end
  end.

Definition w_enabled (e : wevent) (w : world) : Prop := is_Some (wstep e w).
Definition w_exec (e : wevent) (w : world) : world := default w (wstep e w).
Definition world_step : world -> world -> Prop := steps w_enabled w_exec.
End world.

(** ** Invariants *)





Section inv.
Context `{Unicode}.






End inv.

Section reach.
Context `{Unicode} `{FloatFormat} (version : gostr).




(** No daemon yet; strangers may hold the ports. *)
Definition empty_world (m b : option nat) : world := mkWorld ∅ m b.


(** ** Properties *)





End reach.

(** ** Witnesses *)

Module ProcessWitness.
#[local] Existing Instance ascii_only.
#[local] Existing Instance MetricsWitness.plain_format.

Definition any : orders := mkOrders [] [] [].
Definition on (i : nat) (e : pevent) : wevent := WStep i any e.

(** An edge starts and serves; a second one starts while the first drains. *)
Definition first_half : list wevent :=
  [WSpawn 1 edge_role 0 true true 0; on 1 PBind; on 1 PServe; on 1 MServe; on 1 RListen;
   WSpawn 2 edge_role 9 true true 0; on 1 PSignal; on 1 PMark; on 1 PCancel; on 1 RClose; on 2 PBind].

Definition play (l : list wevent) : world := foldl (fun w e => w_exec [] e w) (empty_world None None) l.

Ltac plays_on := apply plays_reach; repeat (split; [eexists; vm_compute; reflexivity|]); exact I.


Definition nobody : proc := boot [] 0 false false 0.
Definition the (i : nat) (w : world) : proc := default nobody (procs w !! i).


(** The predecessor's metrics server stops between the replacement's bind and its
    probe. *)
Definition second_half : list wevent := [on 1 RReturn; on 1 PStop; on 1 MShut].

Lemma race_reach : rtc (world_step []) (empty_world None None) (play (first_half ++ second_half)).
Proof. plays_on. Qed.

(** The start of a replacement has no second try: a draining predecessor that
    leaves between the replacement's bind and its probe makes the start fail on a
    port that is free by then.  ([await] tries once more in the same situation.) *)
Lemma restart_race : exists w n,
  rtc (world_step []) (empty_world None None) w /\ procs w !! 2%nat = Some n /\ main n = MainProbe /\
  met_holder w = None /\ pstep (see [] any w) PProbe n = Some (set_main (MainExit true) n, Keep, Keep).
Proof.
  exists (play (first_half ++ second_half)), (the 2 (play (first_half ++ second_half))).
  split; [exact race_reach|]. split_and!; vm_compute; reflexivity.
Qed.
End ProcessWitness.
