(* ===== verification/Files.v ===== *)
(** * Paths and files (what [internal/cli] and [internal/config] use of
      [path/filepath] and [os])

    The lexical path functions, by path elements, and a file system with the calls
    the code makes.  Symbolic links and permissions other than a refusal are not
    part of it.  Every call can fail, and a failing write can leave a file half
    written. *)

From S2P Require Import Prelude GoStrings Numeral IO Config Obs Metrics Journal Daemon.

(** ** Paths *)

Definition sep : gostr := [slash].
Definition dot : gostr := bs ".".
Definition dotdot : gostr := bs "..".

(** The elements [Clean] keeps; [stack] holds those so far, the last first. *)
Fixpoint clean_elems (rooted : bool) (stack l : list gostr) : list gostr :=
  match l with
  | [] => reverse stack
  | e :: l =>
      if beq e [] || beq e dot then clean_elems rooted stack l
      else if beq e dotdot then
        match stack with
        | [] => clean_elems rooted (if rooted then [] else [e]) l
        | t :: s => clean_elems rooted (if beq t dotdot then e :: stack else s) l
        end
      else clean_elems rooted (e :: stack) l
  end.

(** A path from its elements. *)
Definition render (rooted : bool) (es : list gostr) : gostr :=
  if rooted then sep ++ Join es sep else match es with [] => dot | _ => Join es sep end.

Definition is_rooted (p : gostr) : bool := HasPrefix p sep.

(** [filepath.Clean] *)
Definition Clean (p : gostr) : gostr :=
  match p with
  | [] => dot
  | _ => render (is_rooted p) (clean_elems (is_rooted p) [] (Split p sep))
  end.

(** [filepath.Join] *)
Fixpoint PathJoin (l : list gostr) : gostr :=
  match l with
  | [] => []
  | [] :: l => PathJoin l
  | _ => Clean (Join l sep)
  end.

(** [filepath.Dir] *)
Definition PathDir (p : gostr) : gostr :=
  Clean (match LastIndexByte p slash with Some i => take (S i) p | None => [] end).

(** [filepath.Ext] *)
Definition Ext (p : gostr) : gostr :=
  match LastIndexByte p "."%char with
  | None => []
  | Some i => if bool_decide (slash ∈ drop i p) then [] else drop i p
  end.

(** ** Lemmas on paths *)

(** Every string is the join of its parts. *)
Lemma byte_parts c s : exists l ls, Forall (fun l => c ∉ l) (l :: ls) /\ s = Join (l :: ls) [c].
Proof.
  induction s as [|x s (l & ls & Hf & ->)]; [exists [], []; split; [repeat constructor; apply not_elem_of_nil|done]|].
  destruct (decide (x = c)) as [->|Hne].
  - exists [], (l :: ls). split; [constructor; [apply not_elem_of_nil|done]|done].
  - apply Forall_cons in Hf as [Hl Hls]. exists (x :: l), ls. split; [constructor; [set_solver|done]|]. by destruct ls.
Qed.

Lemma Join_snoc l ls x c : Join ((l :: ls) ++ [x]) [c] = Join (l :: ls) [c] ++ c :: x.
Proof.
  revert l; induction ls as [|m ls IH]; intros l; [done|].
  change (Join ((l :: m :: ls) ++ [x]) [c]) with (l ++ c :: Join ((m :: ls) ++ [x]) [c]). rewrite IH.
  change (Join (l :: m :: ls) [c]) with (l ++ c :: Join (m :: ls) [c]). by rewrite <- app_assoc.
Qed.

(** A proper name of an entry in a directory. *)
Definition plain (n : gostr) : Prop := slash ∉ n /\ n <> [] /\ n <> dot /\ n <> dotdot.

Lemma Split_name d n : slash ∉ n -> Split (d ++ slash :: n) sep = Split d sep ++ [n].
Proof.
  intros Hn. destruct (byte_parts slash d) as (l & ls & Hf & ->). rewrite <- Join_snoc.
  change ((l :: ls) ++ [n]) with (l :: (ls ++ [n])). rewrite !Split_byte; [done|done|].
  apply Forall_cons in Hf as [Hl Hls]. constructor; [done|]. apply Forall_app. split; [done|by apply Forall_singleton].
Qed.

Lemma clean_name rooted l n : forall stack, plain n ->
  clean_elems rooted stack (l ++ [n]) = clean_elems rooted stack l ++ [n].
Proof.
  induction l as [|e l IH]; intros stack (Hs & He & Hd & Hdd); cbn [app clean_elems].
  - apply beq_false in He, Hd, Hdd. rewrite He, Hd, Hdd. cbn [orb]. by rewrite reverse_cons.
  - assert (plain n) by done. repeat case_match; by apply IH.
Qed.

(** The elements of a cleaned path: proper names, after some [..] when it is
    relative. *)
Definition normal (rooted : bool) (es : list gostr) : Prop :=
  exists k names, es = repeat dotdot k ++ names /\ Forall plain names /\ (rooted = true -> k = 0%nat).

Lemma normal_snoc rooted es n : plain n -> normal rooted es -> normal rooted (es ++ [n]).
Proof.
  intros Hn (k & names & -> & Hf & Hk). exists k, (names ++ [n]). rewrite <- app_assoc. split_and!; [done| |done].
  apply Forall_app. split; [done|by apply Forall_singleton].
Qed.

Lemma repeat_snoc {A} (a : A) k : repeat a (S k) = repeat a k ++ [a].
Proof. apply repeat_cons. Qed.

Lemma clean_normal rooted l : Forall (fun e => slash ∉ e) l -> forall stack, normal rooted (reverse stack) ->
  normal rooted (clean_elems rooted stack l).
Proof.
  induction 1 as [|e l He Hl IH]; intros stack Hs; cbn [clean_elems]; [done|].
  destruct (beq e [] || beq e dot) eqn:E1; [by apply IH|]. apply orb_false_iff in E1 as [E1 E2].
  destruct (beq e dotdot) eqn:E3.
  - apply beq_true in E3 as ->. destruct stack as [|t s].
    + apply IH. destruct rooted; [done|]. exists 1%nat, []. done.
    + destruct Hs as (k & names & Hs & Hf & Hk). rewrite reverse_cons in Hs. apply IH.
      destruct names as [|x names _] using rev_ind.
      * rewrite app_nil_r in Hs. destruct k as [|k]; [by destruct (reverse s)|].
        rewrite repeat_snoc in Hs. apply app_inj_tail in Hs as [Hr ->]. rewrite (proj2 (beq_true _ _) eq_refl), !reverse_cons, Hr.
        exists (S (S k)), []. rewrite app_nil_r, !repeat_snoc. split_and!; [done..|intros Hx; by specialize (Hk Hx)].
      * rewrite app_assoc in Hs. apply app_inj_tail in Hs as [Hs ->]. apply Forall_app in Hf as [Hf Hx].
        apply Forall_cons in Hx as [(_ & _ & _ & Hx) _]. rewrite (proj2 (beq_false _ _) Hx), Hs. by exists k, names.
  - apply beq_false in E1, E2, E3. apply IH. rewrite reverse_cons. by apply normal_snoc.
Qed.

Lemma clean_names rooted names : Forall plain names -> forall stack,
  clean_elems rooted stack names = reverse stack ++ names.
Proof.
  induction 1 as [|n names (_ & He & Hd & Hdd) Hf IH]; intros stack; cbn [clean_elems]; [by rewrite app_nil_r|].
  apply beq_false in He, Hd, Hdd. rewrite He, Hd, Hdd. cbn [orb]. by rewrite IH, reverse_cons, <- app_assoc.
Qed.

Lemma clean_dotdots names k : forall j,
  clean_elems false (repeat dotdot j) (repeat dotdot k ++ names) = clean_elems false (repeat dotdot (j + k)) names.
Proof.
  induction k as [|k IH]; intros j; [by rewrite Nat.add_0_r|]. cbn [repeat app clean_elems].
  change (beq dotdot [] || beq dotdot dot) with false. change (beq dotdot dotdot) with true. cbv iota.
  rewrite Nat.add_succ_r. destruct j as [|j]; [apply (IH 1%nat)|]. cbn [repeat].
  change (beq dotdot dotdot) with true. cbv iota. apply (IH (S (S j))).
Qed.

(** Cleaning keeps clean elements. *)
Lemma clean_id rooted es : normal rooted es -> clean_elems rooted [] es = es.
Proof.
  intros (k & names & -> & Hf & Hk). destruct rooted.
  - rewrite (Hk eq_refl). cbn [repeat app]. by apply clean_names.
  - change [] with (repeat dotdot 0). rewrite clean_dotdots, clean_names by done. cbn [Nat.add]. f_equal.
    clear. induction k as [|k IH]; [done|]. rewrite repeat_snoc at 1. by rewrite reverse_snoc, IH.
Qed.

(** What a path stands for. *)
Definition parts (p : gostr) : bool * list gostr :=
  match p with [] => (false, []) | _ => (is_rooted p, clean_elems (is_rooted p) [] (Split p sep)) end.

Lemma Clean_parts p : Clean p = render (parts p).1 (parts p).2.
Proof. by destruct p. Qed.

Lemma Split_free d : Forall (fun e => slash ∉ e) (Split d sep).
Proof. destruct (byte_parts slash d) as (l & ls & Hf & ->). by rewrite Split_byte. Qed.

Lemma parts_normal p : normal (parts p).1 (parts p).2.
Proof.
  assert (normal false []) by (by exists 0%nat, []). destruct p as [|x p]; [done|]. cbn [parts fst snd].
  apply clean_normal; [apply Split_free|]. exists 0%nat, []. done.
Qed.

Lemma normal_free rooted es : normal rooted es -> Forall (fun e => slash ∉ e) es /\ Forall (fun e => e <> []) es.
Proof.
  intros (k & names & -> & Hf & _). split; apply Forall_app; split.
  - clear. induction k; constructor; [by apply (bool_decide_unpack _)|done].
  - eapply Forall_impl; [exact Hf|]. by intros e [? _].
  - clear. induction k; constructor; done.
  - eapply Forall_impl; [exact Hf|]. by intros e (_ & ? & _).
Qed.

Lemma is_rooted_render rooted es : normal rooted es -> is_rooted (render rooted es) = rooted /\ render rooted es <> [].
Proof.
  intros Hn. destruct (normal_free _ _ Hn) as [Hs Hne].
  destruct rooted; [split; [apply HasPrefix_app|done]|].
  destruct es as [|e es]; [done|]. cbn [render]. apply Forall_cons in Hs as [He _], Hne as [He' _].
  destruct e as [|x e]; [done|]. assert (x <> slash) by (intros E; apply He; rewrite E; by left).
  assert (Hx : forall t, is_rooted (x :: t) = false).
  { intros t. unfold is_rooted. destruct (HasPrefix (x :: t) sep) eqn:E; [|done]. apply HasPrefix_spec in E as [u Eu]. by injection Eu as Eu _. }
  destruct es; split; try apply Hx; done.
Qed.

(** The path of clean elements has those elements. *)
Lemma parts_render rooted es : normal rooted es -> parts (render rooted es) = (rooted, es).
Proof.
  intros Hn. destruct (is_rooted_render rooted es Hn) as [Hr Hne]. destruct (normal_free _ _ Hn) as [Hs _].
  unfold parts. destruct (render rooted es) as [|x p] eqn:E; [done|]. rewrite Hr, <- E. f_equal. clear E Hr Hne x p.
  destruct rooted; cbn [render].
  - change (sep ++ Join es sep) with ([] ++ slash :: Join es sep).
    destruct es as [|e es]; [done|].
    change ([] ++ slash :: Join (e :: es) sep) with (Join ([] :: e :: es) sep).
    unfold sep. rewrite Split_byte by (constructor; [apply not_elem_of_nil|done]). change (clean_elems true [] ([] :: e :: es)) with (clean_elems true [] (e :: es)).
    by apply clean_id.
  - destruct es as [|e es]; [done|]. unfold sep. rewrite Split_byte by done. by apply clean_id.
Qed.

Lemma Clean_render rooted es : normal rooted es -> Clean (render rooted es) = render rooted es.
Proof. intros Hn. by rewrite Clean_parts, parts_render. Qed.

Lemma is_rooted_app x p t : is_rooted ((x :: p) ++ t) = is_rooted (x :: p).
Proof. unfold is_rooted, sep. cbn [app HasPrefix]. destruct (ceq slash x); [|done]. by destruct p, t. Qed.

(** Joining a proper name adds an element. *)
Lemma PathJoin_name d n : plain n -> PathJoin [d; n] = render (parts d).1 ((parts d).2 ++ [n]).
Proof.
  intros Hn. destruct (Hn) as (Hs & Hne & _). destruct d as [|x d].
  - cbn [PathJoin parts fst snd]. destruct n as [|y n]; [done|]. rewrite Clean_parts. change (Join [y :: n] sep) with (y :: n).
    assert (Hp : parts (render false [y :: n]) = (false, [y :: n])).
    { apply parts_render. exists 0%nat, [y :: n]. split_and!; [done|by apply Forall_singleton|done]. }
    change (render false [y :: n]) with (y :: n) in Hp. by rewrite Hp.
  - cbn [PathJoin]. change (Join [x :: d; n] sep) with ((x :: d) ++ slash :: n). rewrite Clean_parts.
    set (p := x :: d). assert (Hr : is_rooted (p ++ slash :: n) = is_rooted p) by apply is_rooted_app.
    assert (Hp : parts (p ++ slash :: n) = ((parts p).1, (parts p).2 ++ [n])).
    { unfold p. cbn [parts app]. change (x :: d ++ slash :: n) with (p ++ slash :: n). rewrite Hr, Split_name, clean_name by done. done. }
    by rewrite Hp.
Qed.

Lemma render_name rooted es n : normal rooted es ->
  render rooted (es ++ [n]) = (if rooted then sep else []) ++ match es with [] => [] | _ => Join es sep ++ sep end ++ n.
Proof.
  intros _. destruct es as [|e es]; [by destruct rooted|].
  assert (Hj : Join ((e :: es) ++ [n]) sep = (Join (e :: es) sep ++ sep) ++ n) by (unfold sep; by rewrite Join_snoc, <- app_assoc).
  destruct rooted; cbn [render]; rewrite Hj; [done|]. by destruct es.
Qed.

Lemma clean_empty rooted l : forall stack, clean_elems rooted stack (l ++ [[]]) = clean_elems rooted stack l.
Proof.
  induction l as [|e l IH]; intros stack; cbn [app clean_elems]; [done|]. repeat case_match; apply IH.
Qed.

Lemma Clean_slash p : p <> [] -> Clean (p ++ sep) = Clean p.
Proof.
  intros Hp. rewrite !Clean_parts. f_equal; destruct p as [|x p]; try done; cbn [parts app fst snd].
  all: change (x :: p ++ sep) with ((x :: p) ++ slash :: []); rewrite ?Split_name by apply not_elem_of_nil.
  - apply is_rooted_app.
  - rewrite is_rooted_app. apply clean_empty.
Qed.

(** The directory and the name of a joined path. *)
Lemma PathDir_name rooted es n : normal rooted es -> plain n -> PathDir (render rooted (es ++ [n])) = render rooted es.
Proof.
  intros Hn (Hs & _). rewrite render_name by done. unfold PathDir.
  assert (Htake : forall a, LastIndexByte (a ++ slash :: n) slash = Some (length a) /\ take (S (length a)) (a ++ slash :: n) = a ++ sep).
  { intros a. split; [by apply LastIndexByte_app|]. change (a ++ slash :: n) with (a ++ sep ++ n). rewrite app_assoc.
    apply take_app_length'. rewrite length_app. simpl. lia. }
  destruct es as [|e es].
  - destruct rooted.
    + change (sep ++ [] ++ n) with ([] ++ slash :: n). destruct (Htake []) as [-> ->]. reflexivity.
    + cbn [app]. by rewrite LastIndexByte_None.
  - rewrite <- !app_assoc. change (sep ++ n) with (slash :: n). rewrite app_assoc.
    set (a := (if rooted then sep else []) ++ Join (e :: es) sep).
    assert (Ha : a = render rooted (e :: es)) by (unfold a; by destruct rooted).
    destruct (Htake a) as [-> ->]. rewrite Clean_slash; [|rewrite Ha; by apply is_rooted_render].
    rewrite Ha. by apply Clean_render.
Qed.

Lemma Base_name rooted es n : normal rooted es -> plain n -> Base (render rooted (es ++ [n])) = n.
Proof.
  intros Hn (Hs & Hne & _). rewrite render_name by done. destruct n as [|c n _] using rev_ind; [done|].
  apply not_elem_of_app in Hs as [Hs Hc]. assert (slash <> c) by (intros E; apply Hc; rewrite E; by left).
  destruct es as [|e es]; [destruct rooted; cbn [app]|].
  - by apply (Base_of []).
  - unfold Base. destruct (n ++ [c]) as [|y t] eqn:E; [by destruct n|]. rewrite <- E.
    rewrite trim_right_none by (by apply ceq_false). rewrite LastIndexByte_None; [by rewrite E|].
    rewrite elem_of_app, list_elem_of_singleton. naive_solver.
  - rewrite <- !app_assoc, app_assoc. by apply Base_of.
Qed.

(** The file of a proper name in a directory. *)
Lemma PathJoin_split d n : plain n -> Base (PathJoin [d; n]) = n /\ PathDir (PathJoin [d; n]) = Clean d.
Proof.
  intros Hn. rewrite PathJoin_name by done. pose proof (parts_normal d) as Hd.
  rewrite Base_name, PathDir_name by done. by rewrite Clean_parts.
Qed.

Lemma PathJoin_clean d n : plain n -> PathJoin [Clean d; n] = PathJoin [d; n].
Proof.
  intros Hn. rewrite !PathJoin_name by done. rewrite Clean_parts, parts_render by apply parts_normal. done.
Qed.

(** ** The file system *)

Inductive node := Dir | File (content : gostr) | Special.
#[export] Instance node_eq_dec : EqDecision node.
Proof. solve_decision. Defined.

(** By clean path. *)
Abbreviation fs := (gmap gostr node).

(** What the system allows: opening for writing or creating at a path, and what a
    write that fails half-way leaves there. *)
Record os_env := mkOs { allow : gostr -> bool; torn : gostr -> option gostr }.

Inductive os_error := NotExist | OtherErr.

(** The root, the working directory and its ancestors are always there. *)
Definition base_dir (p : gostr) : bool := forallb (beq dotdot) (parts p).2.

Definition node_at (d : fs) (p : gostr) : option node :=
  match d !! p with
  | Some n => Some n
  | None => if base_dir p then Some Dir else None
  end.

Definition Stat (d : fs) (p : gostr) : option node := node_at d (Clean p).

Definition ReadFile (d : fs) (p : gostr) : result os_error gostr :=
  match node_at d (Clean p) with
  | Some (File c) => Ok c
  | None => Err NotExist
  | _ => Err OtherErr
  end.

(** [os.WriteFile]: whether it succeeded. *)
Definition WriteFile (o : os_env) (p content : gostr) (d : fs) : fs * bool :=
  let p := Clean p in
  if negb (allow o p) then (d, false)
  else match node_at d (PathDir p), node_at d p with
       | Some Dir, Some Dir => (d, false)
       | Some Dir, Some Special => (d, true)
       | Some Dir, _ =>
           match torn o p with
           | Some left_ => (<[p := File left_]> d, false)
           | None => (<[p := File content]> d, true)
           end
       | _, _ => (d, false)
       end.

(** [os.MkdirAll], from the outermost directory in. *)
Fixpoint mkdirs (o : os_env) (rooted : bool) (above todo : list gostr) (d : fs) : fs * bool :=
  match todo with
  | [] => (d, true)
  | e :: todo =>
      let q := render rooted (above ++ [e]) in
      match node_at d q with
      | Some Dir => mkdirs o rooted (above ++ [e]) todo d
      | Some _ => (d, false)
      | None => if allow o q then mkdirs o rooted (above ++ [e]) todo (<[q := Dir]> d) else (d, false)
      end
  end.

Definition MkdirAll (o : os_env) (p : gostr) (d : fs) : fs * bool := mkdirs o (parts p).1 [] (parts p).2 d.

(** [os.ReadDir]: the entries, by name, and whether each is a directory. *)
Definition entry_of (dir : gostr) (kv : gostr * node) : option (gostr * bool) :=
  if beq (PathDir kv.1) dir && negb (beq kv.1 dir)
  then Some (Base kv.1, bool_decide (kv.2 = Dir)) else None.

Definition by_entry (a b : gostr * bool) : bool := str_lt a.1 b.1.

Definition ReadDir (d : fs) (p : gostr) : result os_error (list (gostr * bool)) :=
  match node_at d (Clean p) with
  | Some Dir => Ok (stable_sort by_entry (omap (entry_of (Clean p)) (map_to_list d)))
  | Some _ => Err OtherErr
  | None => Err NotExist
  end.

(** ** Lemmas on the file system *)

(** Nothing that was there is changed or taken away, except at the paths [ps]. *)
Definition grows (ps : list gostr) (d d' : fs) : Prop :=
  forall p n, p ∉ ps -> node_at d p = Some n -> node_at d' p = Some n.

Lemma grows_refl ps d : grows ps d d.
Proof. by intros p n _. Qed.

Lemma grows_trans ps d d' d'' : grows ps d d' -> grows ps d' d'' -> grows ps d d''.
Proof. intros H1 H2 p n Hp Hn. auto. Qed.

Lemma grows_mono ps d d' : grows [] d d' -> grows ps d d'.
Proof. intros Hg p n _. apply Hg, not_elem_of_nil. Qed.

Lemma node_at_insert d p q x : node_at (<[p := x]> d) q = if decide (p = q) then Some x else node_at d q.
Proof. unfold node_at. case_decide; [subst; by rewrite lookup_insert_eq|by rewrite lookup_insert_ne]. Qed.

Lemma grows_new d p x : node_at d p = None -> grows [] d (<[p := x]> d).
Proof. intros Hp q n _ Hn. rewrite node_at_insert. case_decide; congruence. Qed.

Lemma WriteFile_grows o p c d : grows [Clean p] d (WriteFile o p c d).1.
Proof.
  assert (Hi : forall x, grows [Clean p] d (<[Clean p := File x]> d)).
  { intros x q n Hq Hn. rewrite node_at_insert. case_decide; [|done]. subst. destruct Hq. by left. }
  unfold WriteFile. repeat case_match; simpl; auto using grows_refl.
Qed.

(** A write changes nothing but a regular file. *)
Lemma WriteFile_new o p c d : (forall x, node_at d (Clean p) <> Some (File x)) -> grows [] d (WriteFile o p c d).1.
Proof.
  intros Hp. unfold WriteFile. destruct (negb _); [apply grows_refl|].
  destruct (node_at d (PathDir (Clean p))) as [[]|]; try apply grows_refl.
  destruct (node_at d (Clean p)) as [[|x|]|] eqn:E; try apply grows_refl; [by destruct (Hp x)|].
  destruct (torn o (Clean p)); by apply grows_new.
Qed.

(** A write that succeeds: the file is there, or the path is something else one
    can write to; and writing it again succeeds. *)
Lemma WriteFile_ok o p c d d' : WriteFile o p c d = (d', true) ->
  (node_at d' (Clean p) = Some (File c) \/ node_at d' (Clean p) = Some Special /\ d' = d) /\
  (forall d'', grows [] d' d'' -> node_at d'' (Clean p) = Some Special -> WriteFile o p c d'' = (d'', true)).
Proof.
  unfold WriteFile. destruct (negb (allow o (Clean p))); [done|].
  destruct (node_at d (PathDir (Clean p))) as [[]|] eqn:Ed; try done. intros Hw.
  assert (Hdir : node_at d' (PathDir (Clean p)) = Some Dir \/ PathDir (Clean p) = Clean p /\ node_at d (Clean p) = Some Dir).
  { destruct (decide (PathDir (Clean p) = Clean p)) as [E|E]; [right; split; [done|by rewrite <- E]|left].
    repeat case_match; simplify_eq; try done; rewrite node_at_insert, decide_False; auto. }
  split.
  - destruct (node_at d (Clean p)) as [[]|] eqn:E; repeat case_match; simplify_eq; auto;
      left; by rewrite node_at_insert, decide_True.
  - intros d'' Hg Hs. destruct Hdir as [Hdir|[_ Hd]]; [|rewrite Hd in Hw; done].
    by rewrite (Hg _ _ (not_elem_of_nil _) Hdir), Hs.
Qed.

Lemma mkdirs_grows o r todo : forall above d, grows [] d (mkdirs o r above todo d).1.
Proof.
  induction todo as [|e todo IH]; intros above d; cbn [mkdirs]; [apply grows_refl|].
  destruct (node_at d _) as [[]|] eqn:E; try apply grows_refl; [apply IH|].
  destruct (allow o _); [|apply grows_refl]. eapply grows_trans; [by apply grows_new|apply IH].
Qed.

Lemma MkdirAll_grows o p d : grows [] d (MkdirAll o p d).1.
Proof. apply mkdirs_grows. Qed.

(** Directories stay. *)
Definition keeps_dirs (d d' : fs) : Prop := forall p, node_at d p = Some Dir -> node_at d' p = Some Dir.

Lemma grows_dirs d d' : grows [] d d' -> keeps_dirs d d'.
Proof. intros Hg p. apply Hg, not_elem_of_nil. Qed.

Lemma WriteFile_other o p c d q : q <> Clean p -> node_at (WriteFile o p c d).1 q = node_at d q.
Proof.
  intros Hq. unfold WriteFile. repeat case_match; simpl; try done; rewrite node_at_insert, decide_False; congruence.
Qed.

Lemma WriteFile_dirs o p c d : keeps_dirs d (WriteFile o p c d).1.
Proof.
  intros q Hq. destruct (decide (Clean p = q)) as [<-|Hne].
  - unfold WriteFile. rewrite Hq. by repeat case_match.
  - apply (WriteFile_grows o p c d); [|done]. rewrite list_elem_of_singleton. congruence.
Qed.

(** Directories that were made are there, and are not made again. *)
Lemma mkdirs_again o r todo : forall above d d' d'', mkdirs o r above todo d = (d', true) -> keeps_dirs d' d'' ->
  mkdirs o r above todo d'' = (d'', true) /\ (todo <> [] -> node_at d'' (render r (above ++ todo)) = Some Dir).
Proof.
  induction todo as [|e todo IH]; intros above d d' d'' Hm Hg; cbn [mkdirs] in *; [by simplify_eq|].
  assert (Hex : exists d1, mkdirs o r (above ++ [e]) todo d1 = (d', true) /\ node_at d1 (render r (above ++ [e])) = Some Dir).
  { destruct (node_at d _) as [[]|] eqn:E; try done; [eauto|]. destruct (allow o _); [|done].
    eexists. split; [exact Hm|]. by rewrite node_at_insert, decide_True. }
  destruct Hex as (d1 & Hm1 & H1). pose proof (mkdirs_grows o r todo (above ++ [e]) d1) as Hg1. rewrite Hm1 in Hg1.
  assert (H2 : node_at d'' (render r (above ++ [e])) = Some Dir) by (apply Hg; by apply grows_dirs in Hg1 as ->).
  rewrite H2. destruct (IH _ _ _ _ Hm1 Hg) as [-> Hd]. split; [done|]. intros _.
  destruct todo as [|e' todo]; [done|]. rewrite <- app_assoc in Hd. by apply Hd.
Qed.

Lemma MkdirAll_again o p d d' d'' : MkdirAll o p d = (d', true) -> keeps_dirs d' d'' -> MkdirAll o p d'' = (d'', true).
Proof. intros Hm Hg. by eapply mkdirs_again. Qed.

Lemma normal_prefix r a b : normal r (a ++ b) -> normal r a.
Proof.
  intros (k & names & E & Hf & Hk). destruct (decide (length a <= k)%nat) as [Hl|Hl].
  - exists (length a), []. rewrite app_nil_r. split_and!; [|done|intros Hr; specialize (Hk Hr); lia].
    apply (f_equal (take (length a))) in E. rewrite take_app_length, take_app_le in E by (rewrite repeat_length; lia).
    rewrite E. clear -Hl. revert Hl. generalize (length a). induction k as [|k IH]; intros [|m] Hm; try done; try lia.
    cbn [repeat take length]. f_equal. apply IH. lia.
  - exists k, (take (length a - k) names). split_and!; [|by apply Forall_take|done].
    apply (f_equal (take (length a))) in E. rewrite take_app_length, take_app_ge in E by (rewrite repeat_length; lia).
    by rewrite repeat_length in E.
Qed.

(** [q] is [p] or a directory above it. *)
Definition above_or_at (p q : gostr) : Prop := exists k, q = render (parts p).1 (take k (parts p).2).

Lemma mkdirs_touch o r todo q : forall above d,
  (forall k, q <> render r (above ++ take k todo)) -> node_at (mkdirs o r above todo d).1 q = node_at d q.
Proof.
  induction todo as [|e todo IH]; intros above d Hq; cbn [mkdirs]; [done|].
  assert (Hq' : forall k, q <> render r ((above ++ [e]) ++ take k todo)).
  { intros k. rewrite <- app_assoc. apply (Hq (S k)). }
  destruct (node_at d _) as [[]|]; try done; [by apply IH|]. destruct (allow o _); [|done].
  rewrite IH by done. rewrite node_at_insert, decide_False; [done|]. intros E. destruct (Hq 1%nat). by rewrite <- E.
Qed.

Lemma MkdirAll_touch o p q d : ~ above_or_at p q -> node_at (MkdirAll o p d).1 q = node_at d q.
Proof. intros Hq. apply mkdirs_touch. intros k ->. apply Hq. by exists k. Qed.

(** What was not there is a directory afterwards, if anything. *)
Lemma mkdirs_new o r todo q : forall above d, node_at d q = None ->
  node_at (mkdirs o r above todo d).1 q = None \/ node_at (mkdirs o r above todo d).1 q = Some Dir.
Proof.
  induction todo as [|e todo IH]; intros above d Hq; cbn [mkdirs]; [by left|].
  destruct (node_at d (render r (above ++ [e]))) as [[]|]; try (by left); [by apply IH|]. destruct (allow o _); [|by left].
  destruct (decide (render r (above ++ [e]) = q)) as [E|E].
  - right. apply (mkdirs_grows o r todo (above ++ [e]) _ q Dir (not_elem_of_nil _)). by rewrite node_at_insert, decide_True.
  - apply IH. by rewrite node_at_insert, decide_False.
Qed.

(** A name is not above the directory it is in, nor above another name there. *)
Lemma name_not_above d n : plain n -> ~ above_or_at d (PathJoin [d; n]).
Proof.
  intros Hn [k E]. rewrite PathJoin_name in E by done. pose proof (parts_normal d) as Hd.
  apply (f_equal parts) in E. rewrite !parts_render in E; [|eapply normal_prefix; by rewrite take_drop|by apply normal_snoc].
  injection E as E. apply (f_equal length) in E. rewrite length_app, length_take in E. simpl in E. lia.
Qed.

Lemma name_not_above_name d m n : plain m -> plain n -> m <> n -> ~ above_or_at (PathJoin [d; m]) (PathJoin [d; n]).
Proof.
  intros Hm Hn Hne [k E]. rewrite !PathJoin_name in E by done. pose proof (parts_normal d) as Hd.
  pose proof (normal_snoc _ _ _ Hm Hd) as Hdm. rewrite parts_render in E by done. cbn [fst snd] in E.
  apply (f_equal parts) in E. rewrite !parts_render in E; [|eapply normal_prefix; by rewrite take_drop|by apply normal_snoc].
  injection E as E. pose proof (f_equal length E) as El. rewrite length_app, length_take, length_app in El. simpl in El.
  rewrite take_ge in E by (rewrite length_app; simpl; lia). apply app_inj_tail in E as [_ E]. congruence.
Qed.

(** The key of an entry: a proper name in some directory. *)
Definition entry_path (p : gostr) : Prop :=
  exists rooted es n, normal rooted es /\ plain n /\ p = render rooted (es ++ [n]).

Definition wf_fs (d : fs) : Prop := forall p x, d !! p = Some x -> entry_path p.

Lemma entry_split p : entry_path p -> p = PathJoin [PathDir p; Base p] /\ plain (Base p) /\ Clean p = p /\ PathDir p <> p.
Proof.
  intros (r & es & n & Hn & Hp & ->). rewrite PathDir_name, Base_name by done.
  assert (Hn' := normal_snoc _ _ _ Hp Hn). split_and!; [|done|by apply Clean_render|].
  - rewrite PathJoin_name by done. by rewrite (parts_render r es).
  - intros E. apply (f_equal parts) in E. rewrite !parts_render in E by done. injection E as E.
    apply (f_equal length) in E. rewrite length_app in E. simpl in E. lia.
Qed.

(** A clean path is an entry or a base directory. *)
Lemma clean_entry p : base_dir (Clean p) = false -> entry_path (Clean p).
Proof.
  rewrite Clean_parts. destruct (parts_normal p) as (k & names & Hes & Hf & Hk). intros Hb.
  unfold base_dir in Hb. rewrite parts_render in Hb by apply parts_normal. cbn [snd] in Hb. rewrite Hes in *.
  destruct names as [|n names _] using rev_ind.
  - rewrite app_nil_r in Hb. exfalso. clear -Hb. induction k as [|k IH]; [done|].
    cbn [repeat forallb] in Hb. change (beq dotdot dotdot) with true in Hb. auto.
  - apply Forall_app in Hf as [Hf Hn]. apply Forall_cons in Hn as [Hn _].
    exists (parts p).1, (repeat dotdot k ++ names), n. rewrite app_assoc. split_and!; [|done|done]. exists k, names. by split_and!.
Qed.

Lemma WriteFile_wf o p c d : wf_fs d -> wf_fs (WriteFile o p c d).1.
Proof.
  intros Hd. unfold WriteFile.
  assert (Hi : node_at d (Clean p) <> Some Dir -> forall x, wf_fs (<[Clean p := File x]> d)).
  { intros Hn x q y. destruct (decide (Clean p = q)) as [<-|]; [|rewrite lookup_insert_ne by done; apply Hd].
    intros _. destruct (d !! Clean p) as [z|] eqn:E; [by eapply Hd|]. apply clean_entry.
    unfold node_at in Hn. rewrite E in Hn. by destruct (base_dir (Clean p)). }
  destruct (negb (allow o (Clean p))); [done|].
  destruct (node_at d (PathDir (Clean p))) as [[]|]; try done.
  destruct (node_at d (Clean p)) as [[]|] eqn:E; try done; destruct (torn o (Clean p)); apply Hi; congruence.
Qed.

Lemma mkdirs_wf o r todo : forall above d, normal r (above ++ todo) -> wf_fs d -> wf_fs (mkdirs o r above todo d).1.
Proof.
  induction todo as [|e todo IH]; intros above d Hn Hd; cbn [mkdirs]; [done|].
  assert (Hn' : normal r ((above ++ [e]) ++ todo)) by by rewrite <- app_assoc.
  assert (Hae : normal r (above ++ [e])) by (by eapply normal_prefix).
  destruct (node_at d _) as [[]|] eqn:E; try done; [by apply IH|].
  destruct (allow o _); [|done]. apply IH; [done|]. intros q y.
  destruct (decide (render r (above ++ [e]) = q)) as [<-|]; [|rewrite lookup_insert_ne by done; apply Hd].
  intros _. rewrite <- (Clean_render _ _ Hae). apply clean_entry. rewrite Clean_render by done.
  unfold node_at in E. by repeat case_match.
Qed.
