(* ===== verification/DropIn.v ===== *)
(** * Configuration from disk ([internal/config/dropin.go], [load.go])

    The drop-in directory of a configuration file, the fragments in it, and the
    loading of the two configurations from files; what the files hold is decoded by
    the YAML library, a parameter here.  Nothing is written: an entry that is a
    symbolic link stands for what reading it gives, a file's content or something
    that cannot be read as a file ([Special]). *)

From S2P Require Import Prelude GoStrings Numeral IO Route Config Obs Metrics Journal Daemon Files.

Definition yaml_ext : gostr := bs ".yaml".

(** [dropInDir] *)
Definition dropInDir (path : gostr) : gostr :=
  let base := Base path in
  let name := TrimSuffix base (Ext base) in
  PathJoin [PathDir path; name ++ bs ".d"].

Definition dropInLabel (base full : gostr) : gostr := PathJoin [Base (dropInDir base); Base full].

Inductive load_error :=
| ReadFails (path : gostr) | ParseFails (path : gostr) | DirFails (dir : gostr) | Invalid (e : config_error).

(** [dropInFiles] *)
Definition dropInFiles (d : fs) (path : gostr) : result load_error (list gostr) :=
  let dir := dropInDir path in
  match ReadDir d dir with
  | Err NotExist => Ok []
  | Err OtherErr => Err (DirFails dir)
  | Ok entries =>
      Ok (sort_strings (map (fun e => PathJoin [dir; e.1])
            (List.filter (fun e => negb e.2 && beq (Ext e.1) yaml_ext) entries)))
  end.

(** [strictDecode] into a value of type [A]: the library rejects unknown keys; an
    empty document decodes to nothing. *)
Definition strictDecodeFile {A} (decode : gostr -> option A) (d : fs) (path : gostr) : result load_error A :=
  match ReadFile d path with
  | Err _ => Err (ReadFails path)
  | Ok b => match decode b with Some a => Ok a | None => Err (ParseFails path) end
  end.

(** The loop of [readDropIns]. *)
Fixpoint read_each {R} (decode : gostr -> option (list R)) (d : fs) (path : gostr) (files : list gostr)
    : result load_error (list (gostr * list R)) :=
  match files with
  | [] => Ok []
  | f :: files =>
      let? routes := strictDecodeFile decode d f in
      let? rest := read_each decode d path files in
      Ok ((dropInLabel path f, routes) :: rest)
  end.

Definition readDropIns {R} (decode : gostr -> option (list R)) (d : fs) (path : gostr)
    : result load_error (list (gostr * list R)) :=
  let? files := dropInFiles d path in read_each decode d path files.

Section load.
Context `{Unicode} `{Net}.

Definition invalid {A} (r : result config_error A) : result load_error A :=
  match r with Ok a => Ok a | Err e => Err (Invalid e) end.

(** [LoadEdge] and [LoadAgent] from the file at [path]. *)
Definition LoadEdgeFile (decode : gostr -> option EdgeConfig) (fragment : gostr -> option (list EdgeRoute))
    (d : fs) (path : gostr) : result load_error EdgeConfig :=
  let? c := strictDecodeFile decode d path in
  let? files := readDropIns fragment d path in
  invalid (LoadEdge (Base path) c files).

Definition LoadAgentFile (decode : gostr -> option AgentConfig) (fragment : gostr -> option (list AgentRoute))
    (d : fs) (path : gostr) : result load_error AgentConfig :=
  let? c := strictDecodeFile decode d path in
  let? files := readDropIns fragment d path in
  invalid (LoadAgent (Base path) c files).
End load.

(** [EdgeLogLevel] and [EdgeAdminSocket], and those of the agent: the base file
    alone, not validated. *)
Definition EdgeLogLevel (decode : gostr -> option EdgeConfig) (d : fs) (path : gostr) : result load_error gostr :=
  let? c := strictDecodeFile decode d path in Ok (Level (e_Log c)).
Definition AgentLogLevel (decode : gostr -> option AgentConfig) (d : fs) (path : gostr) : result load_error gostr :=
  let? c := strictDecodeFile decode d path in Ok (Level (a_Log c)).
Definition EdgeAdminSocket (decode : gostr -> option EdgeConfig) (d : fs) (path : gostr) : result load_error gostr :=
  let? c := strictDecodeFile decode d path in Ok (Socket (e_Admin c)).
Definition AgentAdminSocket (decode : gostr -> option AgentConfig) (d : fs) (path : gostr) : result load_error gostr :=
  let? c := strictDecodeFile decode d path in Ok (Socket (a_Admin c)).

(** ** Lemmas *)

Lemma Ext_snoc base ext : "."%char ∉ ext -> slash ∉ ext -> Ext (base ++ "."%char :: ext) = "."%char :: ext.
Proof.
  intros Hd Hs. unfold Ext. rewrite LastIndexByte_app, drop_app_length by done.
  rewrite bool_decide_eq_false_2; [done|]. by intros [?|?]%elem_of_cons.
Qed.

Lemma plain_ext base ext : slash ∉ base -> slash ∉ ext -> ext <> [] -> "."%char ∉ ext -> plain (base ++ "."%char :: ext).
Proof.
  intros Hb He Hne Hd. destruct ext as [|c ext _] using rev_ind; [done|].
  assert (c <> "."%char) by (intros ->; apply Hd; set_solver).
  split_and!.
  - rewrite elem_of_app, elem_of_cons. naive_solver.
  - by destruct base.
  - intros E. change dot with ([] ++ ["."%char]) in E. rewrite app_comm_cons, app_assoc in E. by apply app_inj_tail in E as [_ ?].
  - intros E. change dotdot with (["."%char] ++ ["."%char]) in E. rewrite app_comm_cons, app_assoc in E. by apply app_inj_tail in E as [_ ?].
Qed.

(** The drop-in directory of [<dir>/<base>.yaml] is [<dir>/<base>.d]. *)
Lemma dropInDir_of dir base : slash ∉ base ->
  dropInDir (PathJoin [dir; base ++ yaml_ext]) = PathJoin [dir; base ++ bs ".d"].
Proof.
  intros Hb. assert (Hp : plain (base ++ yaml_ext)) by (apply plain_ext; [done|by apply (bool_decide_unpack _)..]).
  unfold dropInDir. destruct (PathJoin_split dir _ Hp) as [-> ->].
  unfold yaml_ext at 1 2. change (bs ".yaml") with ("."%char :: bs "yaml").
  rewrite Ext_snoc by by apply (bool_decide_unpack _). rewrite TrimSuffix_hit. apply PathJoin_clean.
  apply plain_ext; [done|by apply (bool_decide_unpack _)..].
Qed.

(** A file a drop-in is read from. *)
Definition is_drop_in (d : fs) (path f : gostr) : Prop :=
  PathDir f = dropInDir path /\ Ext (Base f) = yaml_ext /\ exists x, d !! f = Some x /\ x <> Dir.

Lemma Clean_idem p : Clean (Clean p) = Clean p.
Proof. rewrite (Clean_parts p). apply Clean_render, parts_normal. Qed.

Lemma dropInDir_clean path : Clean (dropInDir path) = dropInDir path.
Proof.
  unfold dropInDir. assert (Hd : PathDir path <> []).
  { unfold PathDir. rewrite Clean_parts. apply is_rooted_render, parts_normal. }
  destruct (PathDir path) as [|x p] eqn:E; [done|]. apply Clean_idem.
Qed.

(** The drop-ins among the entries of a file system, before they are sorted. *)
Definition drop_in_key (path : gostr) (kv : gostr * node) : option gostr :=
  if beq (PathDir kv.1) (dropInDir path) && negb (bool_decide (kv.2 = Dir)) && beq (Ext (Base kv.1)) yaml_ext
  then Some kv.1 else None.

Lemma drop_in_keys path l : Forall (fun kv => entry_path kv.1) l ->
  map (fun e => PathJoin [dropInDir path; e.1])
    (List.filter (fun e => negb e.2 && beq (Ext e.1) yaml_ext) (omap (entry_of (dropInDir path)) l)) =
  omap (drop_in_key path) l.
Proof.
  induction 1 as [|[p x] l Hp Hl IH]; [done|]. cbn [omap list_omap]. unfold drop_in_key at 1, entry_of at 1. cbn [fst snd] in *.
  destruct (entry_split p Hp) as (Hj & _ & _ & Hne).
  destruct (beq (PathDir p) (dropInDir path)) eqn:E; [|exact IH]. apply beq_true in E.
  rewrite (proj2 (beq_false p (dropInDir path))) by congruence. cbn [andb negb List.filter fst snd].
  destruct (bool_decide (x = Dir)); [exact IH|]. cbn [negb andb].
  destruct (beq (Ext (Base p)) yaml_ext); [|exact IH]. cbn [map fst]. rewrite <- E, <- Hj. f_equal. rewrite E. exact IH.
Qed.

Lemma drop_in_keys_elem d path f : f ∈ omap (drop_in_key path) (map_to_list d) <-> is_drop_in d path f.
Proof.
  rewrite list_elem_of_omap. unfold drop_in_key, is_drop_in. split.
  - intros ([p x] & Hin & Hk). apply elem_of_map_to_list in Hin. cbn [fst snd] in Hk.
    destruct (_ && _ && _) eqn:E in Hk; [|done]. injection Hk as <-.
    rewrite !andb_true_iff, !beq_true, negb_true_iff, bool_decide_eq_false in E. destruct E as [[? ?] ?]. eauto 10.
  - intros (Hd & He & x & Hx & Hn). exists (f, x). rewrite elem_of_map_to_list. split; [done|]. cbn [fst snd].
    by rewrite Hd, He, !(proj2 (beq_true _ _) eq_refl), bool_decide_eq_false_2.
Qed.

Lemma drop_in_keys_nodup d path : NoDup (omap (drop_in_key path) (map_to_list d)).
Proof.
  pose proof (NoDup_fst_map_to_list d) as Hn. revert Hn. generalize (map_to_list d). intros l.
  induction l as [|[p x] l IH]; cbn [fmap list_fmap omap list_omap]; intros Hn; [constructor|].
  apply NoDup_cons in Hn as [Hp Hn]. specialize (IH Hn). unfold drop_in_key at 1. cbn [fst snd].
  destruct (_ && _ && _); [|done]. constructor; [|done]. rewrite list_elem_of_omap. intros ([q y] & Hin & Hk).
  unfold drop_in_key in Hk. cbn [fst snd] in Hk. destruct (_ && _ && _) in Hk; [|done]. injection Hk as ->.
  apply Hp. apply list_elem_of_fmap. by exists (p, y).
Qed.

Lemma sort_same (l l' : list gostr) : l ≡ₚ l' -> sort_strings l = sort_strings l'.
Proof. by apply (sort_unique id). Qed.

(** The drop-ins of a directory that is there, in order. *)
Lemma dropInFiles_keys d path : wf_fs d -> node_at d (dropInDir path) = Some Dir ->
  dropInFiles d path = Ok (sort_strings (omap (drop_in_key path) (map_to_list d))).
Proof.
  intros Hd Hn. unfold dropInFiles, ReadDir. rewrite dropInDir_clean, Hn. f_equal. apply sort_same.
  rewrite <- drop_in_keys.
  - apply Permutation_map, filter_perm, stable_sort_perm.
  - apply Forall_forall. intros [p x] Hin%elem_of_map_to_list. by eapply Hd.
Qed.

Lemma dropInFiles_spec d path files : wf_fs d -> node_at d (dropInDir path) = Some Dir -> dropInFiles d path = Ok files ->
  StronglySorted (fun a b => str_lt a b = true) files /\ forall f, f ∈ files <-> is_drop_in d path f.
Proof.
  intros Hd Hn. rewrite dropInFiles_keys by done. intros [= <-]. split.
  - pose proof (sort_strict id str_lt (omap (drop_in_key path) (map_to_list d))) as Hs. rewrite !list_fmap_id in Hs.
    apply Hs; [done|apply drop_in_keys_nodup].
  - intros f. unfold sort_strings. rewrite stable_sort_perm. apply drop_in_keys_elem.
Qed.

(** Two file systems that agree on what a configuration is read from: the file,
    whether its drop-in directory is there, and the [.yaml] files in it. *)
Record same_config (path : gostr) (d d' : fs) : Prop := {
  sc_file : node_at d (Clean path) = node_at d' (Clean path);
  sc_dir : node_at d (dropInDir path) = node_at d' (dropInDir path);
  sc_drop : forall f x, PathDir f = dropInDir path -> Ext (Base f) = yaml_ext -> x <> Dir ->
    d !! f = Some x <-> d' !! f = Some x;
}.

(** A new entry that is no drop-in. *)
Lemma same_config_new path d k x : d !! k = None -> k <> Clean path -> k <> dropInDir path ->
  (x <> Dir -> beq (PathDir k) (dropInDir path) && beq (Ext (Base k)) yaml_ext = false) -> same_config path d (<[k := x]> d).
Proof.
  intros Hk Hp Hd Hx. split.
  - unfold node_at. by rewrite lookup_insert_ne.
  - unfold node_at. by rewrite lookup_insert_ne.
  - intros f y Hf He Hy. destruct (decide (k = f)) as [<-|]; [|by rewrite lookup_insert_ne].
    rewrite lookup_insert_eq, Hk. split; [done|]. intros [= ->]. specialize (Hx Hy).
    by rewrite Hf, He, !(proj2 (beq_true _ _) eq_refl) in Hx.
Qed.

Lemma same_config_trans path d d' d'' : same_config path d d' -> same_config path d' d'' -> same_config path d d''.
Proof.
  intros [H1 H2 H3] [H4 H5 H6]. split; [congruence|congruence|]. intros f x Hf He Hx. rewrite H3 by done. by apply H6.
Qed.

Lemma wf_new d k x : wf_fs d -> Clean k = k -> base_dir k = false -> wf_fs (<[k := x]> d).
Proof.
  intros Hd Hk Hb p y. destruct (decide (k = p)) as [<-|]; [|rewrite lookup_insert_ne by done; apply Hd].
  intros _. rewrite <- Hk. apply clean_entry. by rewrite Hk.
Qed.

Lemma same_files d d' path : wf_fs d -> wf_fs d' -> same_config path d d' -> dropInFiles d path = dropInFiles d' path.
Proof.
  intros Hd Hd' [_ Hdir Hdrop]. destruct (node_at d (dropInDir path)) as [[]|] eqn:E.
  - rewrite !dropInFiles_keys by done. f_equal. apply sort_same.
    apply NoDup_Permutation; [apply drop_in_keys_nodup..|]. intros f. rewrite !drop_in_keys_elem. unfold is_drop_in.
    split; intros (H1 & H2 & x & H3 & H4); split_and!; try done; exists x; (split; [by apply (Hdrop f x)|done]).
  - unfold dropInFiles, ReadDir. by rewrite dropInDir_clean, <- Hdir, E.
  - unfold dropInFiles, ReadDir. by rewrite dropInDir_clean, <- Hdir, E.
  - unfold dropInFiles, ReadDir. by rewrite dropInDir_clean, <- Hdir, E.
Qed.

Lemma read_each_same {R} (decode : gostr -> option (list R)) d d' path files :
  (forall f, f ∈ files -> ReadFile d f = ReadFile d' f) -> read_each decode d path files = read_each decode d' path files.
Proof.
  induction files as [|f files IH]; intros Hf; [done|]. cbn [read_each]. unfold strictDecodeFile.
  rewrite (Hf f) by by left. rewrite IH; [done|]. intros g Hg. apply Hf. by right.
Qed.

Lemma same_drop_ins {R} (decode : gostr -> option (list R)) d d' path : wf_fs d -> wf_fs d' -> same_config path d d' ->
  readDropIns decode d path = readDropIns decode d' path.
Proof.
  intros Hd Hd' Hs. unfold readDropIns. rewrite <- (same_files d d' path Hd Hd' Hs).
  destruct (dropInFiles d path) as [files|] eqn:E; [|done]. cbn [rbind]. apply read_each_same. intros f Hf.
  destruct (node_at d (dropInDir path)) as [[]|] eqn:En.
  2-4: (unfold dropInFiles, ReadDir in E; rewrite dropInDir_clean, En in E; simplify_eq; by apply elem_of_nil in Hf).
  apply (dropInFiles_spec d path files Hd En E) in Hf as (H1 & H2 & x & H3 & H4).
  destruct (entry_split f (Hd _ _ H3)) as (_ & _ & Hc & _).
  unfold ReadFile, node_at. by rewrite Hc, H3, (proj1 (sc_drop _ _ _ Hs f x H1 H2 H4) H3).
Qed.

(** What the loop read: each file's content, decoded, under its label. *)
Lemma read_each_ok {R} (decode : gostr -> option (list R)) d path files l : read_each decode d path files = Ok l ->
  Forall2 (fun f e => exists b, ReadFile d f = Ok b /\ decode b = Some e.2 /\ e.1 = dropInLabel path f) files l.
Proof.
  revert l. induction files as [|f files IH]; intros l; cbn [read_each]; [intros [= <-]; constructor|].
  unfold strictDecodeFile. destruct (ReadFile d f) as [b|] eqn:Er; [|done]. cbn [rbind].
  destruct (decode b) as [routes|] eqn:Ed; [|done]. cbn [rbind].
  destruct (read_each decode d path files) as [rest|]; [|done]. intros [= <-]. constructor; [eauto|by apply IH].
Qed.

(** The drop-ins a configuration has: none without the directory. *)
Definition drop_ins (d : fs) (path f : gostr) : Prop := node_at d (dropInDir path) = Some Dir /\ is_drop_in d path f.

(** What [dropInFiles] lists in each case. *)
Lemma dropInFiles_cases d path : wf_fs d ->
  match node_at d (dropInDir path) with
  | Some Dir | None => exists files, dropInFiles d path = Ok files /\
      StronglySorted (fun a b => str_lt a b = true) files /\ forall f, f ∈ files <-> drop_ins d path f
  | Some _ => dropInFiles d path = Err (DirFails (dropInDir path))
  end.
Proof.
  intros Hd. unfold drop_ins. destruct (node_at d (dropInDir path)) as [[]|] eqn:E.
  - eexists. split; [by apply dropInFiles_keys|].
    destruct (dropInFiles_spec d path _ Hd E (dropInFiles_keys d path Hd E)) as [Hs Hf]. split; [done|].
    intros f. rewrite Hf. by split; [|intros []].
  - unfold dropInFiles, ReadDir. by rewrite dropInDir_clean, E.
  - unfold dropInFiles, ReadDir. by rewrite dropInDir_clean, E.
  - exists []. unfold dropInFiles, ReadDir. rewrite dropInDir_clean, E. split_and!; [done|constructor|].
    intros f. rewrite elem_of_nil. naive_solver.
Qed.

Section properties.
Context `{Unicode} `{Net}.

Lemma LoadEdgeFile_from (decode : gostr -> option EdgeConfig) (fragment : gostr -> option (list EdgeRoute)) d path files :
  dropInFiles d path = Ok files ->
  LoadEdgeFile decode fragment d path =
    (let? base := strictDecodeFile decode d path in
     let? parsed := read_each fragment d path files in invalid (LoadEdge (Base path) base parsed)).
Proof. intros Hf. unfold LoadEdgeFile, readDropIns. by rewrite Hf. Qed.

Lemma loaded_ok (decode : gostr -> option EdgeConfig) (fragment : gostr -> option (list EdgeRoute)) d path files c :
  (let? base := strictDecodeFile decode d path in
   let? parsed := read_each fragment d path files in invalid (LoadEdge (Base path) base parsed)) = Ok c ->
  Validate c = Ok tt /\ NoDup (map (fun r => Normalize (r_Host r)) (Routes c)) /\
  exists b base parsed, ReadFile d path = Ok b /\ decode b = Some base /\
    Forall2 (fun f e => exists b, ReadFile d f = Ok b /\ fragment b = Some e.2 /\ e.1 = dropInLabel path f) files parsed /\
    Routes c = Routes base ++ flat_map snd parsed.
Proof.
  unfold strictDecodeFile. destruct (ReadFile d path) as [b|] eqn:Er; [|done]. cbn [rbind].
  destruct (decode b) as [base|] eqn:Eb; [|done]. cbn [rbind].
  destruct (read_each fragment d path files) as [parsed|] eqn:Ep; [|done]. cbn [rbind].
  unfold invalid. destruct (LoadEdge (Base path) base parsed) as [c'|] eqn:El; [|done]. intros [= ->].
  destruct (LoadEdge_sound _ _ _ _ El) as (Hr & Hn & Hv & _).
  split_and!; [done|done|]. exists b, base, parsed. split_and!; [done|done|by apply read_each_ok|done].
Qed.

(** [C29] A configuration is read from its file and its drop-ins, and from nothing
    else.  Its drop-ins are the [.yaml] entries directly in the directory [<name>.d]
    next to it that are not directories, by file name, and none when there is no
    such directory; something else in its place is an error.  Loading is reading
    and decoding the file, then each of them, and validating what they make; what
    loads is valid, with the routes of the file followed by those of the drop-ins.
    Any change elsewhere on the disk, in other entries of that directory, or in how
    the directory is listed, leaves the result, or the error, the same. *)
Theorem load_reads_its_files (decode : gostr -> option EdgeConfig) (fragment : gostr -> option (list EdgeRoute))
    (d d' : fs) (path : gostr) (Hd : wf_fs d) (Hd' : wf_fs d') (Hsame : same_config path d d') :
  LoadEdgeFile decode fragment d path = LoadEdgeFile decode fragment d' path /\
  match node_at d (dropInDir path) with
  | Some Dir | None => exists files,
      StronglySorted (fun a b => str_lt a b = true) files /\ (forall f, f ∈ files <-> drop_ins d path f) /\
      LoadEdgeFile decode fragment d path =
        (let? base := strictDecodeFile decode d path in
         let? parsed := read_each fragment d path files in invalid (LoadEdge (Base path) base parsed)) /\
      (forall c, LoadEdgeFile decode fragment d path = Ok c ->
         Validate c = Ok tt /\ NoDup (map (fun r => Normalize (r_Host r)) (Routes c)) /\
         exists b base parsed, ReadFile d path = Ok b /\ decode b = Some base /\
           Forall2 (fun f e => exists b, ReadFile d f = Ok b /\ fragment b = Some e.2 /\ e.1 = dropInLabel path f) files parsed /\
           Routes c = Routes base ++ flat_map snd parsed)
  | Some _ => forall c, LoadEdgeFile decode fragment d path <> Ok c
  end.
Proof.
  split.
  - unfold LoadEdgeFile. rewrite (same_drop_ins fragment d d' path Hd Hd' Hsame).
    unfold strictDecodeFile, ReadFile. by rewrite (sc_file _ _ _ Hsame).
  - pose proof (dropInFiles_cases d path Hd) as Hc. destruct (node_at d (dropInDir path)) as [[]|].
    2,3: intros c; unfold LoadEdgeFile, readDropIns; rewrite Hc; by destruct (strictDecodeFile _ _ _).
    all: destruct Hc as (files & Hf & H1 & H2); exists files; split_and!; [done|done|by apply LoadEdgeFile_from|];
      intros c; rewrite (LoadEdgeFile_from _ _ _ _ _ Hf); apply loaded_ok.
Qed.
End properties.

(** ** Witnesses *)

Module DropInWitness.
#[local] Existing Instance ascii_only.
#[local] Existing Instance ConfigWitness.no_net.

Definition free : os_env := mkOs (fun _ => true) (fun _ => None).

(** [/etc/coen/edge.yaml] with two drop-ins, a backup and a directory beside
    them. *)
Definition path : gostr := bs "/etc/coen/edge.yaml".
Definition written (p c : string) (d : fs) : fs := (WriteFile free (bs p) (bs c) d).1.
Definition disk : fs :=
  written "/etc/coen/edge.d/b.yaml" "b" (written "/etc/coen/edge.d/a.yaml" "a" (written "/etc/coen/edge.yaml" "base"
    (MkdirAll free (bs "/etc/coen/edge.d") ∅).1)).
Definition junk : gostr := bs "/etc/coen/edge.d/b.yaml~".
Definition subdir : gostr := bs "/etc/coen/edge.d/c.yaml".
Definition disk' : fs := <[subdir := Dir]> (<[junk := File (bs "junk")]> disk).

Definition decode (b : gostr) : option EdgeConfig :=
  if beq b (bs "base") then Some (ConfigWitness.conf [ConfigWitness.mkroute "base.example" "SHA256:A"]) else None.
Definition fragment (b : gostr) : option (list EdgeRoute) :=
  if beq b (bs "a") then Some [ConfigWitness.mkroute "a.example" "SHA256:A"]
  else if beq b (bs "b") then Some [ConfigWitness.mkroute "b.example" "SHA256:B"] else None.

Lemma disk_wf : wf_fs disk.
Proof.
  unfold disk, written. do 3 apply WriteFile_wf. apply mkdirs_wf; [apply parts_normal|]. by intros p x Hx%lookup_empty_Some.
Qed.

Lemma load_reads_its_files_witness :
  LoadEdgeFile decode fragment disk path = LoadEdgeFile decode fragment disk' path /\
  match LoadEdgeFile decode fragment disk' path with
  | Ok c => map r_Host (Routes c) = [bs "base.example"; bs "a.example"; bs "b.example"]
  | Err _ => False
  end.
Proof.
  split; [|vm_compute; reflexivity].
  refine (proj1 (load_reads_its_files decode fragment disk disk' path disk_wf _ _)).
  - apply wf_new; [apply wf_new; [exact disk_wf|vm_compute; reflexivity..]|vm_compute; reflexivity..].
  - eapply same_config_trans; apply same_config_new; try (vm_compute; reflexivity); vm_compute; done.
Defined.
End DropInWitness.
