(* ===== verification/Install.v ===== *)
(** * Installing the service ([internal/cli/install.go])

    The service definition from its template, the example configuration, and the
    directories, written to the file system of [Files.v].  The embedded assets are
    a parameter. *)

From S2P Require Import Prelude GoStrings Numeral IO Route Config Obs Metrics Journal Daemon Files DropIn.

(** ** Templates *)

(** What [text/template] does with the actions the assets use: [{{.Name}}] is the
    value of a key, and anything else between braces is not understood here. *)
Definition action (data : gmap gostr gostr) (a : gostr) : option gostr :=
  match a with
  | c :: name => if ceq c "."%char then Some (default (bs "<no value>") (data !! name)) else None
  | [] => None
  end.

(** Each round consumes an action, so [length s] rounds are enough. *)
Fixpoint template_rounds (fuel : nat) (data : gmap gostr gostr) (s : gostr) : option gostr :=
  match fuel with
  | O => None
  | S fuel =>
      match Cut s (bs "{{") with
      | (_, _, false) => Some s
      | (text, rest, true) =>
          match Cut rest (bs "}}") with
          | (_, _, false) => None
          | (a, rest, true) =>
              v ← action data a; t ← template_rounds fuel data rest; Some (text ++ v ++ t)
          end
      end
  end.

Definition renderTemplate (s : gostr) (data : gmap gostr gostr) : option gostr := template_rounds (S (length s)) data s.

(** ** The service definition *)

Definition linux : gostr := bs "linux".
Definition darwin : gostr := bs "darwin".

Inductive install_error := BadRole | Unsupported (goos : gostr) | NoAsset (name : gostr) | BadTemplate | WriteFailed (p : gostr).

Definition asset (assets : gostr -> option gostr) (name : gostr) : result install_error gostr :=
  match assets name with Some a => Ok a | None => Err (NoAsset name) end.

Definition rendered (s : gostr) (data : gmap gostr gostr) : result install_error gostr :=
  match renderTemplate s data with Some t => Ok t | None => Err BadTemplate end.

Definition renderService (assets : gostr -> option gostr) (goos role bin configPath : gostr)
    : result install_error (gostr * gostr) :=
  if beq goos linux then
    let? tmpl := asset assets (bs "assets/coen-" ++ role ++ bs ".service") in
    let? content := rendered tmpl (<[bs "Bin" := bin]> (<[bs "Config" := configPath]> ∅)) in
    Ok (bs "coen-" ++ role ++ bs ".service", content)
  else if beq goos darwin then
    let? tmpl := asset assets (bs "assets/coen.plist") in
    let label := bs "com.coen." ++ role in
    let? content := rendered tmpl
      (<[bs "Label" := label]> (<[bs "Bin" := bin]> (<[bs "Role" := role]> (<[bs "Config" := configPath]>
        (<[bs "LogPath" := bs "/var/log/coen-" ++ role ++ bs ".log"]> ∅))))) in
    Ok (label ++ bs ".plist", content)
  else Err (Unsupported goos).

Definition defaultUnitDir (goos : gostr) : gostr :=
  if beq goos darwin then bs "/Library/LaunchDaemons" else bs "/etc/systemd/system".

Definition startCommand (goos role unitPath : gostr) : gostr :=
  if beq goos darwin then bs "sudo launchctl bootstrap system " ++ unitPath else bs "sudo systemctl enable --now coen-" ++ role.

(** ** The command *)

Record install_opts := mkInstall { o_unitDir : gostr; o_configDir : gostr; o_bin : gostr; o_force : bool }.

(** What it says: the unit was left alone, the service user is missing, and where
    things are. *)
Inductive say := KeptUnit (p : gostr) | NoServiceUser | Installed (unit config start : gostr).

(** [checkServiceUser]; [users] is whether user and group [coen] are there. *)
Definition checkServiceUser (users : bool * bool) : list say :=
  if users.1 && users.2 then [] else [NoServiceUser].

(** A step that may fail ends the command with what it has done so far. *)
Definition try_fs {A : Type} (x : fs * bool) (p : gostr) (k : fs -> fs * result install_error A) : fs * result install_error A :=
  if x.2 then k x.1 else (x.1, Err (WriteFailed p)).

Definition is_regular (n : option node) : bool := match n with Some (File _) => true | _ => false end.

Section install.
Context (assets : gostr -> option gostr) (o : os_env) (goos : gostr) (users : bool * bool).

Definition configPath (c : install_opts) (role : gostr) : gostr := PathJoin [o_configDir c; role ++ bs ".yaml"].

(** The example configuration, unless there is one. *)
Definition install_config (c : install_opts) (role unitPath : gostr) (said : list say) (d : fs)
    : fs * result install_error (list say) :=
  let config := configPath c role in
  let done_ d := (d, Ok (said ++ (if beq goos linux then checkServiceUser users else [])
                           ++ [Installed unitPath config (startCommand goos role unitPath)])) in
  match Stat d config with
  | Some _ => done_ d
  | None =>
      match asset assets (bs "assets/" ++ role ++ bs ".yaml") with
      | Err e => (d, Err e)
      | Ok example => try_fs (WriteFile o config example d) config done_
      end
  end.

Definition install_unit (c : install_opts) (unitPath content : gostr) (d : fs) (k : list say -> fs -> fs * result install_error (list say))
    : fs * result install_error (list say) :=
  if is_regular (Stat d unitPath) && negb (o_force c) then k [KeptUnit unitPath] d
  else try_fs (WriteFile o unitPath content d) unitPath (k []).

(** [newInstallCmd]'s [RunE]. *)
Definition install (c : install_opts) (role : gostr) (d : fs) : fs * result install_error (list say) :=
  if negb (beq role (bs "edge")) && negb (beq role (bs "agent")) then (d, Err BadRole)
  else
    let unitDir := if beq (o_unitDir c) [] then defaultUnitDir goos else o_unitDir c in
    match renderService assets goos role (o_bin c) (configPath c role) with
    | Err e => (d, Err e)
    | Ok (filename, content) =>
        try_fs (MkdirAll o unitDir d) unitDir (fun d =>
        let unitPath := PathJoin [unitDir; filename] in
        install_unit c unitPath content d (fun said d =>
        try_fs (MkdirAll o (o_configDir c) d) (o_configDir c) (fun d =>
        let dropIns := PathJoin [o_configDir c; role ++ bs ".d"] in
        try_fs (MkdirAll o dropIns d) dropIns (fun d =>
        install_config c role unitPath said d))))
    end.
End install.

(** ** Lemmas *)

Lemma try_fs_grows {A : Type} (ps : list gostr) (d : fs) (x : fs * bool) (p : gostr) (k : fs -> fs * result install_error A) : grows ps d x.1 ->
  (grows ps d x.1 -> grows ps d (k x.1).1) -> grows ps d (try_fs x p k).1.
Proof. intros Hx Hk. unfold try_fs. destruct x.2; auto. Qed.

Lemma try_fs_ok {A : Type} (x : fs * bool) (p : gostr) (k : fs -> fs * result install_error A) (a : A) : (try_fs x p k).2 = Ok a ->
  x = (x.1, true) /\ try_fs x p k = k x.1.
Proof. unfold try_fs. destruct x as [d [|]]; done. Qed.

Definition set_force (b : bool) (c : install_opts) : install_opts := mkInstall (o_unitDir c) (o_configDir c) (o_bin c) b.

Section facts.
Context (assets : gostr -> option gostr) (o : os_env) (goos : gostr) (users : bool * bool).
Implicit Types (c : install_opts) (role : gostr) (d : fs).

Lemma install_config_grows c role unitPath said d :
  grows [] d (install_config assets o goos users c role unitPath said d).1.
Proof.
  unfold install_config. destruct (Stat d (configPath c role)) eqn:E; [apply grows_refl|].
  destruct (asset _ _); [|apply grows_refl]. apply try_fs_grows; [|done]. apply WriteFile_new. intros x. unfold Stat in E. congruence.
Qed.

(** The example is written when there was nothing, and the rest does not depend on
    it. *)
Lemma install_config_ok c role unitPath said d d' out :
  install_config assets o goos users c role unitPath said d = (d', Ok out) ->
  (node_at d (Clean (configPath c role)) = None -> exists example,
     assets (bs "assets/" ++ role ++ bs ".yaml") = Some example /\
     node_at d' (Clean (configPath c role)) = Some (File example)) /\
  (forall said', exists out', install_config assets o goos users c role unitPath said' d' = (d', Ok out')).
Proof.
  unfold install_config. destruct (Stat d (configPath c role)) as [n|] eqn:E.
  - intros [= <- <-]. unfold Stat in *. rewrite E. split; [done|]. intros said'. eauto.
  - unfold asset. destruct (assets _) as [example|] eqn:Ea; [|done]. intros Ht.
    pose proof (try_fs_ok (WriteFile o (configPath c role) example d) (configPath c role) _ out (f_equal snd Ht)) as [Hw Ht'].
    rewrite Ht' in Ht. injection Ht as <- <-. destruct (WriteFile_ok _ _ _ _ _ Hw) as [Hn _].
    assert (Hf : node_at (WriteFile o (configPath c role) example d).1 (Clean (configPath c role)) = Some (File example)).
    { destruct Hn as [?|[Hn Hd]]; [done|]. unfold Stat in E. rewrite Hd in Hn. congruence. }
    split; [eauto|]. intros said'. unfold Stat. rewrite Hf. eauto.
Qed.

(** The unit: kept or written; afterwards it is there and is not written again. *)
Lemma install_unit_ok c unitPath content d k d' out :
  install_unit o c unitPath content d k = (d', Ok out) -> exists d1 said,
    k said d1 = (d', Ok out) /\
    (node_at d (Clean unitPath) = None \/ node_at d (Clean unitPath) = Some Dir ->
       node_at d1 (Clean unitPath) = Some (File content)) /\
    keeps_dirs d d1 /\
    (forall q, q <> Clean unitPath -> node_at d1 q = node_at d q) /\
    (forall d'' k', grows [] d1 d'' -> exists said', install_unit o (set_force false c) unitPath content d'' k' = k' said' d'').
Proof.
  unfold install_unit. destruct (is_regular (Stat d unitPath) && negb (o_force c)) eqn:E.
  - intros Hk. exists d, [KeptUnit unitPath]. apply andb_true_iff in E as [E _]. unfold Stat in E.
    destruct (node_at d (Clean unitPath)) as [[|x|]|] eqn:En; try done. split_and!; [done|by intros [?|?]|by intros q|done|].
    intros d'' k' Hg. exists [KeptUnit unitPath]. unfold Stat. by rewrite (Hg _ _ (not_elem_of_nil _) En).
  - intros Ht. pose proof (try_fs_ok (WriteFile o unitPath content d) unitPath (k []) out (f_equal snd Ht)) as [Hw Ht'].
    rewrite Ht' in Ht. exists (WriteFile o unitPath content d).1, []. destruct (WriteFile_ok _ _ _ _ _ Hw) as [Hn Hag].
    split_and!; [done| | | |].
    + intros Hno. destruct Hn as [?|[Hn Hd]]; [done|]. rewrite Hd in Hn. destruct Hno; congruence.
    + apply WriteFile_dirs.
    + intros q Hq. by apply WriteFile_other.
    + intros d'' k' Hg. destruct Hn as [Hn|[Hn _]]; pose proof (Hg _ _ (not_elem_of_nil _) Hn) as Hn'.
      * exists [KeptUnit unitPath]. unfold Stat. by rewrite Hn'.
      * exists []. unfold Stat. rewrite Hn'. cbn [is_regular andb]. by rewrite (Hag d'' Hg Hn').
Qed.
End facts.

Definition unit_dir (goos : gostr) (c : install_opts) : gostr :=
  if beq (o_unitDir c) [] then defaultUnitDir goos else o_unitDir c.

(** ** Properties *)

Section properties.
Context (assets : gostr -> option gostr) (o : os_env) (goos : gostr) (users : bool * bool).

Lemma install_grows c role d filename content :
  renderService assets goos role (o_bin c) (configPath c role) = Ok (filename, content) ->
  grows (if o_force c then [Clean (PathJoin [unit_dir goos c; filename])] else []) d
    (install assets o goos users c role d).1.
Proof.
  intros Hr. unfold install. destruct (_ && _); [apply grows_refl|]. rewrite Hr. fold (unit_dir goos c).
  set (ps := if o_force c then _ else _). set (unit := PathJoin [unit_dir goos c; filename]) in *.
  assert (Hstep : forall x p k d0, grows ps d d0 -> grows [] d0 x.1 -> (forall d1, grows ps d d1 -> grows ps d (k d1).1) ->
    grows ps d (@try_fs (list say) x p k).1).
  { intros x p k d0 H0 Hx Hk. apply try_fs_grows; [|intros; by apply Hk].
    eapply grows_trans; [exact H0|by apply grows_mono]. }
  eapply Hstep; [apply grows_refl|apply MkdirAll_grows|]. intros d1 H1.
  assert (Hrest : forall said d2, grows ps d d2 -> grows ps d
    (try_fs (MkdirAll o (o_configDir c) d2) (o_configDir c) (fun d2 =>
     try_fs (MkdirAll o (PathJoin [o_configDir c; role ++ bs ".d"]) d2) (PathJoin [o_configDir c; role ++ bs ".d"])
       (fun d2 => install_config assets o goos users c role unit said d2))).1).
  { intros said d2 H2. eapply Hstep; [exact H2|apply MkdirAll_grows|]. intros d3 H3.
    eapply Hstep; [exact H3|apply MkdirAll_grows|]. intros d4 H4.
    eapply grows_trans; [exact H4|apply grows_mono, install_config_grows]. }
  unfold install_unit. destruct (is_regular (Stat d1 unit) && negb (o_force c)) eqn:E; [by apply Hrest|].
  apply try_fs_grows; [|apply Hrest]. eapply grows_trans; [exact H1|].
  unfold ps. destruct (o_force c); [apply WriteFile_grows|]. apply WriteFile_new. intros x Hx.
  unfold Stat in E. by rewrite Hx in E.
Qed.

(** The service definition is never taken for a configuration. *)
Lemma renderService_name (role bin config filename content : gostr) : slash ∉ role ->
  renderService assets goos role bin config = Ok (filename, content) -> plain filename /\ ~ exists r, filename = r ++ bs ".yaml".
Proof.
  intros Hs Hr. assert (Hf : exists base ext, filename = base ++ "."%char :: ext /\ slash ∉ base /\ ext ∈ [bs "service"; bs "plist"]).
  { unfold renderService in Hr. destruct (beq goos linux); [|destruct (beq goos darwin); [|done]];
      apply rbind_ok in Hr as (tm & _ & Hr); apply rbind_ok in Hr as (ct & _ & Hr); injection Hr as <- _.
    - exists (bs "coen-" ++ role), (bs "service"). split; [done|]. split; [|by left].
      intros [Hin|?]%elem_of_app; [|done]. revert Hin. by apply (bool_decide_unpack _).
    - exists (bs "com.coen." ++ role), (bs "plist"). split; [done|]. split; [|by right; left].
      intros [Hin|?]%elem_of_app; [|done]. revert Hin. by apply (bool_decide_unpack _). }
  destruct Hf as (base & ext & -> & Hb & He).
  assert (He' : slash ∉ ext /\ ext <> [] /\ "."%char ∉ ext /\ ext <> bs "yaml").
  { apply elem_of_cons in He as [->|He%list_elem_of_singleton]; [by apply (bool_decide_unpack _)|subst; by apply (bool_decide_unpack _)]. }
  destruct He' as (H1 & H2 & H3 & H4). split; [by apply plain_ext|]. intros [r E].
  apply (f_equal Ext) in E. rewrite Ext_snoc in E by done.
  change (bs ".yaml") with ("."%char :: bs "yaml") in E. rewrite Ext_snoc in E by by apply (bool_decide_unpack _).
  by injection E.
Qed.

Lemma MkdirAll_name (dir n : gostr) (d d' d'' : fs) : plain n -> MkdirAll o (PathJoin [dir; n]) d = (d', true) -> keeps_dirs d' d'' ->
  node_at d'' (PathJoin [dir; n]) = Some Dir.
Proof.
  intros Hn. unfold MkdirAll. rewrite (PathJoin_name dir n Hn).
  rewrite parts_render by (apply normal_snoc; [done|apply parts_normal]). cbn [fst snd]. intros Hm Hg.
  apply (mkdirs_again _ _ _ _ _ _ _ Hm Hg). by destruct (parts dir).2.
Qed.

(** The file systems an installation that succeeds goes through. *)
Lemma install_stages (c : install_opts) (role : gostr) (d d5 : fs) (filename content : gostr) (said : list say) :
  let upath := PathJoin [unit_dir goos c; filename] in
  let drop := PathJoin [o_configDir c; role ++ bs ".d"] in
  renderService assets goos role (o_bin c) (configPath c role) = Ok (filename, content) ->
  install assets o goos users c role d = (d5, Ok said) -> exists d1 d2 d3 d4 said2,
    slash ∉ role /\ MkdirAll o (unit_dir goos c) d = (d1, true) /\
    (node_at d1 (Clean upath) = None \/ node_at d1 (Clean upath) = Some Dir -> node_at d2 (Clean upath) = Some (File content)) /\
    keeps_dirs d1 d2 /\ (forall q, q <> Clean upath -> node_at d2 q = node_at d1 q) /\
    (forall d'' k', grows [] d2 d'' -> exists said', install_unit o (set_force false c) upath content d'' k' = k' said' d'') /\
    MkdirAll o (o_configDir c) d2 = (d3, true) /\ MkdirAll o drop d3 = (d4, true) /\
    install_config assets o goos users c role upath said2 d4 = (d5, Ok said).
Proof.
  intros upath drop Hr Ei. unfold install in Ei. destruct (negb (beq role _) && _) eqn:Erole; [done|].
  rewrite Hr in Ei. fold (unit_dir goos c) in Ei. fold upath in Ei.
  pose proof (try_fs_ok (MkdirAll o (unit_dir goos c) d) (unit_dir goos c) _ said (f_equal snd Ei)) as [Hm1 E1].
  rewrite E1 in Ei. clear E1.
  apply install_unit_ok in Ei as (d2 & said2 & Ei & Hunit & Hg2 & Hoth & Hagain).
  pose proof (try_fs_ok (MkdirAll o (o_configDir c) d2) (o_configDir c) _ said (f_equal snd Ei)) as [Hm3 E3].
  rewrite E3 in Ei. clear E3.
  pose proof (try_fs_ok (MkdirAll o drop (MkdirAll o (o_configDir c) d2).1) drop _ said (f_equal snd Ei)) as [Hm4 E4].
  fold drop in Ei. rewrite E4 in Ei. clear E4. exists (MkdirAll o (unit_dir goos c) d).1, d2.
  do 3 eexists. split_and!; [|done|exact Hunit|exact Hg2|exact Hoth|exact Hagain|exact Hm3|exact Hm4|exact Ei].
  apply andb_false_iff in Erole as [E|E]; apply negb_false_iff, beq_true in E as ->; by apply (bool_decide_unpack _).
Qed.

(** With the directories, the unit and the configuration there, an installation
    changes nothing. *)
Lemma install_again (c : install_opts) (role : gostr) (d1 d2 d3 d4 d5 d : fs) (filename content : gostr) (said0 said2 : list say) :
  let upath := PathJoin [unit_dir goos c; filename] in
  let drop := PathJoin [o_configDir c; role ++ bs ".d"] in
  renderService assets goos role (o_bin c) (configPath c role) = Ok (filename, content) ->
  negb (beq role (bs "edge")) && negb (beq role (bs "agent")) = false ->
  MkdirAll o (unit_dir goos c) d = (d1, true) -> keeps_dirs d1 d2 ->
  (forall d'' k', grows [] d2 d'' -> exists said', install_unit o (set_force false c) upath content d'' k' = k' said' d'') ->
  MkdirAll o (o_configDir c) d2 = (d3, true) -> MkdirAll o drop d3 = (d4, true) ->
  install_config assets o goos users c role upath said2 d4 = (d5, Ok said0) ->
  exists said', install assets o goos users (set_force false c) role d5 = (d5, Ok said').
Proof.
  intros upath drop Hr Hrole Hm1 Hd12 Hagain Hm3 Hm4 Ei.
  pose proof (install_config_grows assets o goos users c role upath said2 d4) as Hg5. rewrite Ei in Hg5. cbn [fst] in Hg5.
  pose proof (MkdirAll_grows o drop d3) as Hg4. rewrite Hm4 in Hg4.
  pose proof (MkdirAll_grows o (o_configDir c) d2) as Hg3. rewrite Hm3 in Hg3. cbn [fst] in *.
  assert (Hg35 : grows [] d3 d5) by (eapply grows_trans; [exact Hg4|exact Hg5]).
  assert (Hg25 : grows [] d2 d5) by (eapply grows_trans; [exact Hg3|exact Hg35]).
  unfold install. rewrite Hrole. change (configPath (set_force false c) role) with (configPath c role).
  change (o_bin (set_force false c)) with (o_bin c). rewrite Hr. change (o_unitDir (set_force false c)) with (o_unitDir c).
  fold (unit_dir goos c). change (o_configDir (set_force false c)) with (o_configDir c). fold upath drop.
  destruct (Hagain d5 (fun said d => try_fs (MkdirAll o (o_configDir c) d) (o_configDir c) (fun d =>
    try_fs (MkdirAll o drop d) drop (fun d => install_config assets o goos users (set_force false c) role upath said d))) Hg25) as [said' Hu].
  destruct (install_config_ok _ _ _ _ _ _ _ _ _ _ _ Ei) as [_ Hconf']. destruct (Hconf' said') as [out' Hc']. exists out'.
  assert (Hd15 : keeps_dirs d1 d5) by (intros q Hq; apply grows_dirs in Hg25; auto).
  unfold try_fs at 1. rewrite (MkdirAll_again _ _ _ _ d5 Hm1 Hd15). cbn [fst snd].
  etransitivity; [exact Hu|]. unfold try_fs.
  rewrite (MkdirAll_again _ _ _ _ d5 Hm3 (grows_dirs _ _ Hg35)). cbn [fst snd].
  rewrite (MkdirAll_again _ _ _ _ d5 Hm4 (grows_dirs _ _ Hg5)). cbn [fst snd]. exact Hc'.
Qed.

(** Neither the directories nor the unit touch the configuration. *)
Lemma config_untouched (c : install_opts) (role filename content : gostr) (d d2 : fs) : slash ∉ role ->
  renderService assets goos role (o_bin c) (configPath c role) = Ok (filename, content) ->
  ~ above_or_at (unit_dir goos c) (configPath c role) ->
  let upath := PathJoin [unit_dir goos c; filename] in
  let d1 := (MkdirAll o (unit_dir goos c) d).1 in
  let d3 := (MkdirAll o (o_configDir c) d2).1 in
  (forall q, q <> Clean upath -> node_at d2 q = node_at d1 q) ->
  Clean (configPath c role) = configPath c role /\
  node_at (MkdirAll o (PathJoin [o_configDir c; role ++ bs ".d"]) d3).1 (configPath c role) = node_at d (configPath c role).
Proof.
  intros Hslash Hr Hapart upath d1 d3 Hoth.
  assert (Hpc : plain (role ++ bs ".yaml")) by (apply plain_ext; [done|by apply (bool_decide_unpack _)..]).
  assert (Hpd : plain (role ++ bs ".d")) by (apply plain_ext; [done|by apply (bool_decide_unpack _)..]).
  assert (Hne : role ++ bs ".d" <> role ++ bs ".yaml") by (by intros ?%app_inv_head).
  destruct (renderService_name role _ _ _ _ Hslash Hr) as [Hpf Hex].
  assert (Huc : configPath c role <> Clean upath).
  { intros E. apply (f_equal Base) in E. unfold upath, configPath in E.
    rewrite (PathJoin_name (unit_dir goos c) filename Hpf), Clean_render in E by (apply normal_snoc; [done|apply parts_normal]).
    rewrite <- PathJoin_name in E by done.
    rewrite (proj1 (PathJoin_split _ _ Hpf)), (proj1 (PathJoin_split _ _ Hpc)) in E. destruct Hex. by exists role. }
  split.
  - unfold configPath. rewrite PathJoin_name by done. apply Clean_render, normal_snoc; [done|apply parts_normal].
  - unfold d3. rewrite MkdirAll_touch by (by apply name_not_above_name). rewrite MkdirAll_touch by (by apply name_not_above).
    rewrite Hoth by done. unfold d1. by rewrite MkdirAll_touch.
Qed.

(** [C33] Installing is safe and can be repeated: whatever fails half-way, nothing
    that was on the disk is changed or removed, except the service definition
    under [--force]; when it succeeds, a service definition that was not there is
    the rendered template, a configuration that was not there is the example, the
    directory the daemon will look for drop-ins in is there, and installing again
    (without [--force]) succeeds and changes nothing. *)
Theorem install_safe (c : install_opts) (role : gostr) (d : fs) (filename content : gostr)
    (Hr : renderService assets goos role (o_bin c) (configPath c role) = Ok (filename, content))
    (Hapart : ~ above_or_at (unit_dir goos c) (configPath c role)) :
  let unit := Clean (PathJoin [unit_dir goos c; filename]) in
  let config := Clean (configPath c role) in
  let d' := (install assets o goos users c role d).1 in
  (forall p n, node_at d p = Some n -> (o_force c = true -> p <> unit) -> node_at d' p = Some n) /\
  (forall said, (install assets o goos users c role d).2 = Ok said ->
     (node_at d unit = None -> node_at d' unit = Some (File content)) /\
     (node_at d config = None -> exists example, assets (bs "assets/" ++ role ++ bs ".yaml") = Some example /\
        node_at d' config = Some (File example)) /\
     node_at d' (dropInDir (configPath c role)) = Some Dir /\
     exists said', install assets o goos users (set_force false c) role d' = (d', Ok said')).
Proof.
  intros unit config d'. split.
  - intros p n Hn Hp. apply (install_grows c role d filename content Hr); [|done].
    destruct (o_force c); [|apply not_elem_of_nil]. rewrite list_elem_of_singleton. auto.
  - intros said Hok. unfold d'. destruct (install assets o goos users c role d) as [d5 res] eqn:Ei. cbn [fst snd] in *. subst res.
    assert (Erole : negb (beq role (bs "edge")) && negb (beq role (bs "agent")) = false).
    { unfold install in Ei. by destruct (_ && _). }
    destruct (install_stages c role d d5 filename content said Hr Ei)
      as (d1 & d2 & d3 & d4 & said2 & Hslash & Hm1 & Hunit & Hd12 & Hoth & Hagain & Hm3 & Hm4 & Hc).
    pose proof (config_untouched c role filename content d d2 Hslash Hr Hapart) as Hcu. rewrite Hm1, Hm3 in Hcu. cbn [fst] in Hcu.
    rewrite Hm4 in Hcu. cbn [fst] in Hcu. destruct (Hcu Hoth) as [Hcc Hcu'].
    destruct (install_config_ok _ _ _ _ _ _ _ _ _ _ _ Hc) as [Hconf _].
    pose proof (install_config_grows assets o goos users c role (PathJoin [unit_dir goos c; filename]) said2 d4) as Hg5.
    rewrite Hc in Hg5. cbn [fst] in Hg5. pose proof (MkdirAll_grows o (PathJoin [o_configDir c; role ++ bs ".d"]) d3) as Hg4.
    rewrite Hm4 in Hg4. pose proof (MkdirAll_grows o (o_configDir c) d2) as Hg3. rewrite Hm3 in Hg3. cbn [fst] in *.
    split_and!.
    + intros Hno. apply Hg5, Hg4, Hg3; try apply not_elem_of_nil. apply Hunit.
      pose proof (mkdirs_new o (parts (unit_dir goos c)).1 (parts (unit_dir goos c)).2 _ [] d Hno) as Hn. unfold MkdirAll in Hm1. by rewrite Hm1 in Hn.
    + intros Hno. apply Hconf. unfold config in Hno. rewrite Hcc in Hno |- *. by rewrite Hcu'.
    + change (configPath c role) with (PathJoin [o_configDir c; role ++ yaml_ext]).
      rewrite (dropInDir_of (o_configDir c) role Hslash). eapply MkdirAll_name; [|exact Hm4|by apply grows_dirs].
      apply plain_ext; [done|by apply (bool_decide_unpack _)..].
    + by eapply install_again.
Qed.
End properties.

(** ** Witnesses *)

Module InstallWitness.
Definition free : os_env := mkOs (fun _ => true) (fun _ => None).

(** A shortened [assets/coen-agent.service] and example configuration. *)
Definition unit_asset : gostr := bs "ExecStart={{.Bin}} agent --config {{.Config}}" ++ [LF].
Definition assets (n : gostr) : option gostr :=
  if beq n (bs "assets/coen-agent.service") then Some unit_asset
  else if beq n (bs "assets/agent.yaml") then Some (bs "edge:") else None.

Definition opts : install_opts := mkInstall [] (bs "/etc/coen/") (bs "/usr/bin/coen") false.
Definition unit_text : gostr := bs "ExecStart=/usr/bin/coen agent --config /etc/coen/agent.yaml" ++ [LF].

Lemma install_safe_witness :
  node_at (install assets free linux (true, true) opts (bs "agent") ∅).1 (bs "/etc/systemd/system/coen-agent.service") = Some (File unit_text) /\
  exists said', install assets free linux (true, true) (set_force false opts) (bs "agent")
    (install assets free linux (true, true) opts (bs "agent") ∅).1 =
    ((install assets free linux (true, true) opts (bs "agent") ∅).1, Ok said').
Proof.
  split; [vm_compute; reflexivity|].
  assert (Hr : renderService assets linux (bs "agent") (o_bin opts) (configPath opts (bs "agent")) =
    Ok (bs "coen-agent.service", unit_text)) by (vm_compute; reflexivity).
  assert (Ha : ~ above_or_at (unit_dir linux opts) (configPath opts (bs "agent"))).
  { intros [k E]. do 5 (destruct k as [|k]; [vm_compute in E; discriminate E|]). vm_compute in E. discriminate E. }
  eapply (install_safe assets free linux (true, true) opts (bs "agent") ∅ _ _ Hr Ha). vm_compute. reflexivity.
Defined.
End InstallWitness.
