(* ===== verification/Certs.v ===== *)
(** * Certificates on disk ([internal/cli/cert.go], [internal/pki/pki.go],
      [internal/tunnel/material.go])

    [coen cert init], [edge] and [agent] as programs over the file system of
    [Files.v]: the CA, the leaf certificates issued from it, the files they are
    written to, and the loading of those files by the daemons.  Keys, signatures
    and the two encodings are [crypto/x509]'s, with what it documents ([X509]). *)

From S2P Require Import Prelude GoStrings Numeral IO Route Config Obs Metrics Journal Daemon Files DropIn Pki.

Definition CERTIFICATE : gostr := bs "CERTIFICATE".
Definition PRIVATE_KEY : gostr := bs "PRIVATE KEY".

(** Ed25519 keys and what [crypto/x509] and [crypto/tls] do with them.  A
    certificate has a key, the names of its subject and issuer, its key usages
    and extended ones, and the addresses and names it is for; [cert_plain] is
    whether it has no name constraint, path length limit or critical extension
    besides.  A created certificate parses back with what the template says,
    issued by the parent (a CA by itself) and signed by the given key, which has
    to be the parent's; a marshalled key parses back; a pool takes the
    certificates of a file; and a pair loads when the certificate is for the key. *)
Class X509 `{Crypto} := {
  pub_of : gostr -> gostr;
  CreateCertificate : template -> Z -> option certificate -> gostr -> gostr -> option gostr;
  MarshalKey : gostr -> gostr;
  cert_pub : gostr -> option gostr;
  cert_subject : gostr -> gostr;
  cert_issuer : gostr -> gostr;
  cert_usage : gostr -> list key_usage;
  cert_ext : gostr -> list ext_usage;
  cert_ips : gostr -> list IP;
  cert_dns : gostr -> list gostr;
  cert_plain : gostr -> bool;
  signed_by : gostr -> gostr -> bool;
  certs_in : gostr -> list certificate;
  key_pair : gostr -> gostr -> option gostr;
  key_of : gostr -> option gostr;
  created_parses t sn parent pub k der : CreateCertificate t sn parent pub k = Some der ->
    ParseCertificate der = Some (mkCertificate der (t_ca t)) /\ cert_pub der = Some pub /\ signed_by der (pub_of k) = true;
  created_fields t sn parent pub k der : CreateCertificate t sn parent pub k = Some der ->
    cert_subject der = t_name t /\
    cert_issuer der = match parent with Some c => cert_subject (Raw c) | None => t_name t end /\
    cert_usage der = t_usage t /\ cert_ext der = t_ext t /\ cert_ips der = t_ips t /\ cert_dns der = t_dns t /\
    cert_plain der = true;
  created_parent t sn c pub k der : CreateCertificate t sn (Some c) pub k = Some der ->
    cert_pub (Raw c) = Some (pub_of k);
  key_parses k : parse_key (MarshalKey k) = Some true;
  key_round k : key_of (MarshalKey k) = Some k;
  certs_one der c : ParseCertificate der = Some c -> certs_in (pem_encode CERTIFICATE der) = [c];
  pair_loads der c k : ParseCertificate der = Some c -> cert_pub der = Some (pub_of k) ->
    key_pair (pem_encode CERTIFICATE der) (pem_encode PRIVATE_KEY (MarshalKey k)) = Some der;
}.

Section certs.
Context `{X509} `{Net}.

(** ** [pki.go] *)

Record CA := mkCA { ca_Cert : certificate; ca_Key : gostr; ca_certPEM : gostr; ca_keyPEM : gostr }.

(** [encodeKey] *)
Definition encodeKey (k : gostr) : gostr := pem_encode PRIVATE_KEY (MarshalKey k).

(** What the random source gives: a key pair and a serial number, each unless the
    source fails. *)
Record random := mkRandom { r_key : option gostr; r_serial : option Z }.

Inductive cert_error :=
| Exists (p : gostr) | NoHost | NoName | WriteErr (p : gostr) | ReadErr (p : gostr) | RandomErr | CreateErr | CAErr (e : ca_error).

(** [CreateCA]: the CA signs itself. *)
Definition createCA (r : random) : result cert_error CA :=
  match r_key r, r_serial r with
  | Some k, Some sn =>
      match CreateCertificate CreateCA sn None (pub_of k) k with
      | None => Err CreateErr
      | Some der =>
          match ParseCertificate der with
          | None => Err CreateErr
          | Some cert => Ok (mkCA cert k (pem_encode CERTIFICATE der) (encodeKey k))
          end
      end
  | _, _ => Err RandomErr
  end.

(** [LoadCA] with the key it keeps. *)
Definition loadCA (certPEM keyPEM : gostr) : result cert_error CA :=
  match LoadCA certPEM keyPEM with
  | Err e => Err (CAErr e)
  | Ok cert =>
      match pem_decode keyPEM ≫= key_of with
      | Some k => Ok (mkCA cert k certPEM keyPEM)
      | None => Err (CAErr BadKey)
      end
  end.

(** [issue]: a fresh key, a certificate for it signed by the CA. *)
Definition issue (ca : CA) (t : template) (r : random) : result cert_error (gostr * gostr) :=
  match r_key r, r_serial r with
  | Some k, Some sn =>
      match CreateCertificate t sn (Some (ca_Cert ca)) (pub_of k) (ca_Key ca) with
      | None => Err CreateErr
      | Some der => Ok (pem_encode CERTIFICATE der, encodeKey k)
      end
  | _, _ => Err RandomErr
  end.

(** [CertPoolFromPEM] *)
Definition CertPoolFromPEM (caPEM : gostr) : option (list certificate) :=
  match certs_in caPEM with [] => None | pool => Some pool end.

(** [tunnel.LoadMaterial]: the pool and the certificate of the pair. *)
Definition loadMaterial (d : fs) (ca cert key : gostr) : option (list certificate * gostr) :=
  match ReadFile d ca with
  | Err _ => None
  | Ok caPEM =>
      match CertPoolFromPEM caPEM with
      | None => None
      | Some pool =>
          match ReadFile d cert, ReadFile d key with
          | Ok c, Ok k => leaf ← key_pair c k; Some (pool, leaf)
          | _, _ => None
          end
      end
  end.

(** ** [cert.go] *)

Definition in_dir (dir : gostr) (name : string) : gostr := PathJoin [dir; bs name].

(** [WritePEM] and what follows it. *)
Definition write_pem {A : Type} (o : os_env) (p c : gostr) (d : fs) (k : fs -> fs * result cert_error A) : fs * result cert_error A :=
  let x := WriteFile o p c d in if x.2 then k x.1 else (x.1, Err (WriteErr p)).

Definition loadCADir (d : fs) (dir : gostr) : result cert_error CA :=
  match ReadFile d (in_dir dir "ca.crt") with
  | Err _ => Err (ReadErr (in_dir dir "ca.crt"))
  | Ok c =>
      match ReadFile d (in_dir dir "ca.key") with
      | Err _ => Err (ReadErr (in_dir dir "ca.key"))
      | Ok k => loadCA c k
      end
  end.

(** [coen cert init]: the fingerprint it prints. *)
Definition certInit (o : os_env) (dir : gostr) (force : bool) (r : random) (d : fs) : fs * result cert_error gostr :=
  let crt := in_dir dir "ca.crt" in
  if match Stat d crt with Some _ => negb force | None => false end then (d, Err (Exists crt))
  else
    let x := MkdirAll o dir d in
    if negb x.2 then (x.1, Err (WriteErr dir))
    else match createCA r with
         | Err e => (x.1, Err e)
         | Ok ca =>
             write_pem o crt (ca_certPEM ca) x.1 (fun d =>
             write_pem o (in_dir dir "ca.key") (ca_keyPEM ca) d (fun d => (d, Ok (Fingerprint (ca_Cert ca)))))
         end.

(** [writeLeaf]: the fingerprint it prints. *)
Definition writeLeaf (o : os_env) (dir role certPEM keyPEM : gostr) (d : fs) : fs * result cert_error gostr :=
  write_pem o (PathJoin [dir; role ++ bs ".crt"]) certPEM d (fun d =>
  write_pem o (PathJoin [dir; role ++ bs ".key"]) keyPEM d (fun d =>
    match FingerprintPEM certPEM with Ok fp => (d, Ok fp) | Err e => (d, Err (CAErr e)) end)).

Definition issue_leaf (o : os_env) (dir role : gostr) (t : template) (r : random) (d : fs) : fs * result cert_error gostr :=
  match loadCADir d dir with
  | Err e => (d, Err e)
  | Ok ca => match issue ca t r with Err e => (d, Err e) | Ok (c, k) => writeLeaf o dir role c k d end
  end.

(** [coen cert edge] and [coen cert agent]. *)
Definition certEdge (o : os_env) (dir host : gostr) (r : random) (d : fs) : fs * result cert_error gostr :=
  if beq host [] then (d, Err NoHost) else issue_leaf o dir (bs "edge") (IssueServer (ParseIP host) host) r d.
Definition certAgent (o : os_env) (dir name : gostr) (r : random) (d : fs) : fs * result cert_error gostr :=
  if beq name [] then (d, Err NoName) else issue_leaf o dir (bs "agent") (IssueClient name) r d.

(** ** Lemmas *)

Definition no_special (d : fs) : Prop := forall p, node_at d p <> Some Special.

Lemma PathJoin_inj (dir m n : gostr) : plain m -> plain n -> PathJoin [dir; m] = PathJoin [dir; n] -> m = n.
Proof. intros Hm Hn E. by rewrite <- (proj1 (PathJoin_split dir m Hm)), <- (proj1 (PathJoin_split dir n Hn)), E. Qed.

Lemma PathJoin_fixed (dir n : gostr) : plain n -> Clean (PathJoin [dir; n]) = PathJoin [dir; n].
Proof. intros Hn. rewrite PathJoin_name by done. apply Clean_render, normal_snoc; [done|apply parts_normal]. Qed.

Lemma write_special o p c d : no_special d -> no_special (WriteFile o p c d).1.
Proof.
  intros Hd q. unfold WriteFile. repeat case_match; simpl; try apply Hd; rewrite node_at_insert; case_decide; try done; apply Hd.
Qed.

Lemma mkdirs_special o r todo : forall above d, no_special d -> no_special (mkdirs o r above todo d).1.
Proof.
  induction todo as [|e todo IH]; intros above d Hd; cbn [mkdirs]; [done|].
  destruct (node_at d _) as [[]|]; try done; [by apply IH|]. destruct (allow o _); [|done]. apply IH.
  intros q. rewrite node_at_insert. case_decide; [done|apply Hd].
Qed.

(** A file written in a directory reads back; the others there are as before. *)
Lemma write_pem_ok {A : Type} (o : os_env) (dir n c : gostr) (d d' : fs) (k : fs -> fs * result cert_error A) (a : A) :
  plain n -> no_special d -> write_pem o (PathJoin [dir; n]) c d k = (d', Ok a) ->
  exists d1, k d1 = (d', Ok a) /\ no_special d1 /\ ReadFile d1 (PathJoin [dir; n]) = Ok c /\
    forall m, plain m -> m <> n -> ReadFile d1 (PathJoin [dir; m]) = ReadFile d (PathJoin [dir; m]).
Proof.
  intros Hn Hs. unfold write_pem. destruct (WriteFile o (PathJoin [dir; n]) c d) as [d1 [|]] eqn:E; cbn [fst snd]; [|done].
  intros Hk. exists d1. pose proof (write_special o (PathJoin [dir; n]) c d Hs) as Hs1. rewrite E in Hs1. cbn [fst] in Hs1.
  split_and!; [done|done| |].
  - destruct (WriteFile_ok _ _ _ _ _ E) as [[Hf|[Hf _]] _]; [|by apply Hs1 in Hf]. unfold ReadFile. by rewrite Hf.
  - intros m Hm Hne. unfold ReadFile. rewrite (PathJoin_fixed dir m Hm).
    pose proof (WriteFile_other o (PathJoin [dir; n]) c d (PathJoin [dir; m])) as Ho. rewrite E in Ho. cbn [fst] in Ho.
    rewrite Ho; [done|]. rewrite PathJoin_fixed by done. by intros ?%PathJoin_inj.
Qed.

(** A CA as it is on disk. *)
Definition ca_on_disk (d : fs) (dir : gostr) (cert : certificate) (k : gostr) : Prop :=
  ParseCertificate (Raw cert) = Some cert /\ IsCA cert = true /\ cert_pub (Raw cert) = Some (pub_of k) /\
  (cert_usage (Raw cert) = t_usage CreateCA /\ cert_ext (Raw cert) = t_ext CreateCA /\ cert_plain (Raw cert) = true) /\
  ReadFile d (in_dir dir "ca.crt") = Ok (pem_encode CERTIFICATE (Raw cert)) /\
  ReadFile d (in_dir dir "ca.key") = Ok (encodeKey k).

Lemma plain_lit (n : gostr) : bool_decide (slash ∉ n /\ n <> [] /\ n <> dot /\ n <> dotdot) = true -> plain n.
Proof. by intros ?%bool_decide_eq_true. Qed.

Ltac plain_name := apply plain_lit; vm_compute; reflexivity.

Lemma certInit_ok o dir force r d d' fp : no_special d -> certInit o dir force r d = (d', Ok fp) ->
  no_special d' /\ exists cert k, ca_on_disk d' dir cert k /\ fp = Fingerprint cert.
Proof.
  intros Hs. unfold certInit. destruct (match Stat d _ with Some _ => _ | None => _ end); [done|].
  destruct (MkdirAll o dir d) as [d1 [|]] eqn:Em; cbn [fst snd negb]; [|done].
  pose proof (mkdirs_special o (parts dir).1 (parts dir).2 [] d Hs) as Hs1. unfold MkdirAll in Em. rewrite Em in Hs1. cbn [fst] in Hs1.
  unfold createCA. destruct (r_key r) as [k|]; [|done]. destruct (r_serial r) as [sn|]; [|done].
  destruct (CreateCertificate CreateCA sn None (pub_of k) k) as [der|] eqn:Ec; [|done].
  destruct (created_parses _ _ _ _ _ _ Ec) as (Hp & Hpub & _). destruct (created_fields _ _ _ _ _ _ Ec) as (_ & _ & Hus & Hex & _ & _ & Hpl). rewrite Hp. cbn [ca_certPEM ca_keyPEM ca_Cert].
  intros Hw. apply write_pem_ok in Hw as (d2 & Hw & Hs2 & Hr2 & _); [|plain_name|done].
  apply write_pem_ok in Hw as (d3 & Hw & Hs3 & Hr3 & Ho3); [|plain_name|done]. injection Hw as <- <-.
  split; [done|]. exists (mkCertificate der true), k. split; [|done].
  split_and!; [done|done|done|done|done|done| |done]. unfold in_dir in *. rewrite Ho3; [exact Hr2|plain_name|vm_compute; discriminate].
Qed.

Lemma loadCADir_ok d dir cert k : ca_on_disk d dir cert k ->
  exists ca, loadCADir d dir = Ok ca /\ ca_Cert ca = cert /\ ca_Key ca = k.
Proof.
  intros (Hp & Hca & Hpub & _ & Hc & Hk). unfold loadCADir. rewrite Hc, Hk. unfold loadCA, LoadCA, parseCertPEM, encodeKey.
  rewrite pem_round, Hp. cbn [rbind]. rewrite Hca. cbn [negb]. rewrite pem_round, key_parses. cbn. rewrite key_round. eauto.
Qed.

(** A leaf certificate on disk: a pair that loads, issued by the CA on disk from
    a template. *)
Definition leaf_on_disk (d : fs) (dir role : gostr) (ca : certificate) (t : template) (fp : gostr) : Prop :=
  exists der pub, loadMaterial d (in_dir dir "ca.crt") (PathJoin [dir; role ++ bs ".crt"]) (PathJoin [dir; role ++ bs ".key"]) = Some ([ca], der) /\
    ParseCertificate der = Some (mkCertificate der false) /\
    (cert_usage der = t_usage t /\ cert_ext der = t_ext t /\ cert_ips der = t_ips t /\ cert_dns der = t_dns t /\ cert_plain der = true) /\
    cert_issuer der = cert_subject (Raw ca) /\ cert_pub (Raw ca) = Some pub /\ signed_by der pub = true /\
    fp = Fingerprint (mkCertificate der false).

Lemma loadMaterial_same d d' ca c k : ReadFile d' ca = ReadFile d ca -> ReadFile d' c = ReadFile d c -> ReadFile d' k = ReadFile d k ->
  loadMaterial d' ca c k = loadMaterial d ca c k.
Proof. intros E1 E2 E3. unfold loadMaterial. by rewrite E1, E2, E3. Qed.

Lemma issue_leaf_ok o dir role t r d d' fp cert k : role = bs "edge" \/ role = bs "agent" ->
  t_ca t = false -> no_special d -> ca_on_disk d dir cert k ->
  issue_leaf o dir role t r d = (d', Ok fp) ->
  no_special d' /\ leaf_on_disk d' dir role cert t fp /\
  forall m, plain m -> m <> role ++ bs ".crt" -> m <> role ++ bs ".key" -> ReadFile d' (PathJoin [dir; m]) = ReadFile d (PathJoin [dir; m]).
Proof.
  intros Hrole Ht Hs Hca. destruct (loadCADir_ok d dir cert k Hca) as (ca & El & Ecert & Ekey).
  unfold issue_leaf, issue, writeLeaf. rewrite El, Ecert, Ekey. destruct (r_key r) as [lk|]; [|done]. destruct (r_serial r) as [sn|]; [|done].
  destruct (CreateCertificate t sn (Some cert) (pub_of lk) k) as [der|] eqn:Ec; [|done].
  destruct (created_parses _ _ _ _ _ _ Ec) as (Hp & Hpub & Hsig). rewrite Ht in Hp.
  destruct (created_fields _ _ _ _ _ _ Ec) as (_ & Hiss & Hfields).
  assert (Hnc : plain (role ++ bs ".crt") /\ plain (role ++ bs ".key") /\ role ++ bs ".crt" <> role ++ bs ".key" /\
    bs "ca.crt" <> role ++ bs ".crt" /\ bs "ca.crt" <> role ++ bs ".key").
  { destruct Hrole as [-> | ->]; (split_and!; [plain_name|plain_name|vm_compute; discriminate..]). }
  destruct Hnc as (Hn1 & Hn2 & Hne & Ha1 & Ha2).
  intros Hw. apply write_pem_ok in Hw as (d2 & Hw & Hs2 & Hr2 & Ho2); [|done|done].
  apply write_pem_ok in Hw as (d3 & Hw & Hs3 & Hr3 & Ho3); [|done|done].
  unfold FingerprintPEM, parseCertPEM in Hw. rewrite pem_round, Hp in Hw. cbn [rbind] in Hw. injection Hw as <- <-.
  assert (Hoth : forall m, plain m -> m <> role ++ bs ".crt" -> m <> role ++ bs ".key" ->
    ReadFile d3 (PathJoin [dir; m]) = ReadFile d (PathJoin [dir; m])) by (intros m Hm E1 E2; rewrite Ho3, Ho2; done).
  split_and!; [done| |done]. destruct Hca as (Hpc & _ & Hpubc & _ & Hcrt & _).
  exists der, (pub_of k). split_and!; [|done|apply Hfields..|done|done|done|done].
  unfold loadMaterial. unfold in_dir in *. rewrite Hoth by (done || plain_name). rewrite Hcrt. unfold CertPoolFromPEM.
  rewrite (certs_one _ _ Hpc), (Ho3 (role ++ bs ".crt")), Hr2, Hr3 by done. unfold encodeKey. by rewrite (pair_loads _ _ _ Hp Hpub).
Qed.

(** ** Properties *)

(** The three commands in one directory. *)
Lemma bootstrap_leaves o dir host name force r0 r1 r2 d0 d1 d2 d3 fp0 fp1 fp2 : no_special d0 ->
  certInit o dir force r0 d0 = (d1, Ok fp0) -> certEdge o dir host r1 d1 = (d2, Ok fp1) ->
  certAgent o dir name r2 d2 = (d3, Ok fp2) ->
  exists ca k, ca_on_disk d3 dir ca k /\ fp0 = Fingerprint ca /\
    leaf_on_disk d3 dir (bs "edge") ca (IssueServer (ParseIP host) host) fp1 /\ leaf_on_disk d3 dir (bs "agent") ca (IssueClient name) fp2.
Proof.
  intros Hs Hinit Hedge Hagent. destruct (certInit_ok _ _ _ _ _ _ _ Hs Hinit) as (Hs1 & ca & k & Hca & ->).
  unfold certEdge in Hedge. destruct (beq host []); [done|]. unfold certAgent in Hagent. destruct (beq name []); [done|].
  destruct (issue_leaf_ok _ _ _ (IssueServer (ParseIP host) host) _ _ _ _ _ _ (or_introl eq_refl) eq_refl Hs1 Hca Hedge) as (Hs2 & He & Ho2).
  assert (Hca2 : ca_on_disk d2 dir ca k).
  { destruct Hca as (? & ? & ? & ? & ? & ?). unfold in_dir in *.
    split; [done|]. split; [done|]. split; [done|]. split; [done|].
    split; unfold in_dir; (rewrite Ho2; [done|plain_name|vm_compute; discriminate..]). }
  destruct (issue_leaf_ok _ _ _ (IssueClient name) _ _ _ _ _ _ (or_intror eq_refl) eq_refl Hs2 Hca2 Hagent) as (Hs3 & Hag & Ho3).
  exists ca, k. split_and!; [|done| |done].
  - destruct Hca2 as (? & ? & ? & ? & ? & ?). unfold in_dir in *.
    split; [done|]. split; [done|]. split; [done|]. split; [done|].
    split; unfold in_dir; (rewrite Ho3; [done|plain_name|vm_compute; discriminate..]).
  - destruct He as (der & pub & Hl & Hrest). exists der, pub. split; [|exact Hrest]. rewrite <- Hl. unfold in_dir.
    apply loadMaterial_same; (apply Ho3; [plain_name|vm_compute; discriminate..]).
Qed.

(** The certificate commands fit together: after [init], [edge] and [agent]
    have succeeded in one directory, both daemons load their material from it, each
    certificate is signed by the CA the other side trusts, is for its own side of
    the tunnel (the edge's for the host that was asked for) and cannot sign, the
    fingerprint printed for the agent is that of the certificate the edge will see
    and is one a route accepts, and a second [init] without [--force] is refused
    and changes nothing. *)
Theorem cert_bootstrap (o : os_env) (dir host name : gostr) (force : bool) (r0 r1 r2 : random) (d0 d1 d2 d3 : fs)
    (fp0 fp1 fp2 : gostr)
    (Hs : no_special d0)
    (Hinit : certInit o dir force r0 d0 = (d1, Ok fp0))
    (Hedge : certEdge o dir host r1 d1 = (d2, Ok fp1))
    (Hagent : certAgent o dir name r2 d2 = (d3, Ok fp2)) :
  exists ca, IsCA ca = true /\ fp0 = Fingerprint ca /\
    leaf_on_disk d3 dir (bs "edge") ca (IssueServer (ParseIP host) host) fp1 /\
    leaf_on_disk d3 dir (bs "agent") ca (IssueClient name) fp2 /\
    ValidateFingerprint fp2 = Ok () /\
    forall r, certInit o dir false r d3 = (d3, Err (Exists (in_dir dir "ca.crt"))).
Proof.
  destruct (bootstrap_leaves _ _ _ _ _ _ _ _ _ _ _ _ _ _ _ Hs Hinit Hedge Hagent) as (ca & k & Hca & Hfp & He & Ha).
  exists ca. split_and!; [apply Hca|done..| |].
  - destruct Ha as (der & pub & _ & _ & _ & _ & _ & _ & ->). unfold ValidateFingerprint, Fingerprint.
    rewrite HasPrefix_app, drop_app_length, decode_encode. by rewrite sha256_size.
  - destruct Hca as (_ & _ & _ & _ & Hr & _). intros r. unfold certInit. assert (Hst : is_Some (Stat d3 (in_dir dir "ca.crt"))).
    { unfold ReadFile in Hr. unfold Stat. destruct (node_at d3 _); [eauto|done]. }
    by destruct Hst as [n ->].
Qed.
End certs.

(** ** Witnesses *)

(** Certificates for closed examples: nine lines, and keys that are their own
    public keys. *)
Module CertsWitness.
Fixpoint bits (p : positive) : gostr :=
  match p with xH => [] | xO p => "0"%char :: bits p | xI p => "1"%char :: bits p end.
Fixpoint unbits (s : gostr) : positive :=
  match s with [] => xH | c :: s => if ceq c "0"%char then xO (unbits s) else xI (unbits s) end.
Lemma bits_round p : unbits (bits p) = p.
Proof. by induction p as [p IH|p IH|]; simpl; [rewrite IH..|]. Qed.

Definition ext_char (e : ext_usage) : ascii := match e with ServerAuth => "S"%char | ClientAuth => "A"%char end.
Definition char_ext (c : ascii) : ext_usage := if ceq c "S"%char then ServerAuth else ClientAuth.
Definition use_char (u : key_usage) : ascii := match u with DigitalSignature => "D"%char | CertSign => "C"%char | CRLSign => "R"%char end.
Definition char_use (c : ascii) : key_usage :=
  if ceq c "D"%char then DigitalSignature else if ceq c "C"%char then CertSign else CRLSign.
Definition ip_text (l : list IP) : option gostr :=
  match l with [] => Some [] | [a] => Some ("i"%char :: bits (encode a)) | _ => None end.
Definition text_ip (s : gostr) : list IP := match s with _ :: t => from_option (fun a => [a]) [] (decode (unbits t)) | [] => [] end.
Definition dns_text (l : list gostr) : option gostr := match l with [] => Some [] | [h] => Some ("d"%char :: h) | _ => None end.
Definition text_dns (s : gostr) : list gostr := match s with _ :: t => [t] | [] => [] end.

Definition field (n : nat) (der : gostr) : gostr := default [] (Split der [LF] !! n).
Definition toy_parse (der : gostr) : option certificate :=
  match der with [] => None | _ => Some (mkCertificate der (beq (field 0 der) (bs "C"))) end.
Definition toy_pub (der : gostr) : option gostr := Split der [LF] !! 3%nat.

Definition toy_fields (t : template) (issuer pub k ip dns : gostr) : list gostr :=
  [if t_ca t then bs "C" else bs "L"; map ext_char (t_ext t); map use_char (t_usage t); pub; k; t_name t; issuer; ip; dns].

Definition toy_create (t : template) (sn : Z) (parent : option certificate) (pub k : gostr) : option gostr :=
  let ok := match parent with None => true | Some c => bool_decide (toy_pub (Raw c) = Some k) end in
  let issuer := match parent with None => t_name t | Some c => field 5 (Raw c) end in
  match ip_text (t_ips t), dns_text (t_dns t) with
  | Some ip, Some dns =>
      if ok && forallb (fun f => negb (bool_decide (LF ∈ f))) (toy_fields t issuer pub k ip dns)
      then Some (Join (toy_fields t issuer pub k ip dns) [LF]) else None
  | _, _ => None
  end.

Definition toy : Crypto.
Proof.
  refine {| sha256 := fun s => take 32 (s ++ repeat (byte 0) 32); sha1 := fun s => s;
            pem_decode := Some; pem_encode := fun _ b => b; ParseCertificate := toy_parse; parse_key := fun _ => Some true |}; [|done].
  intros s. rewrite length_take, length_app, repeat_length. lia.
Defined.
#[local] Existing Instance toy.

(** What a created certificate reads back as. *)
Lemma toy_created t sn parent pub k der : toy_create t sn parent pub k = Some der ->
  (forall c, parent = Some c -> toy_pub (Raw c) = Some k) /\
  exists ip dns, ip_text (t_ips t) = Some ip /\ dns_text (t_dns t) = Some dns /\
    Split der [LF] = toy_fields t (match parent with None => t_name t | Some c => field 5 (Raw c) end) pub k ip dns /\ der <> [].
Proof.
  unfold toy_create. destruct (ip_text (t_ips t)) as [ip|]; [|done]. destruct (dns_text (t_dns t)) as [dns|]; [|done].
  set (issuer := match parent with None => _ | Some c => _ end).
  destruct (_ && forallb _ _) eqn:E; [|done]. intros Hd. apply (inj Some) in Hd. subst der. apply andb_true_iff in E as [Ep Ef]. split.
  - intros c ->. by apply bool_decide_eq_true in Ep.
  - exists ip, dns. split_and!; [done..| |].
    + unfold toy_fields in *. apply Split_byte. apply Forall_forall. intros f Hf. rewrite forallb_forall in Ef.
      apply list_elem_of_In, Ef, negb_true_iff, bool_decide_eq_false in Hf. done.
    + unfold toy_fields. by destruct (t_ca t).
Qed.

Lemma text_ip_of l s : ip_text l = Some s -> text_ip s = l.
Proof. destruct l as [|a [|]]; simpl; intros [= <-]; [done|]. unfold text_ip. by rewrite bits_round, countable.decode_encode. Qed.
Lemma text_dns_of l s : dns_text l = Some s -> text_dns s = l.
Proof. by destruct l as [|a [|]]; simpl; intros [= <-]. Qed.

Definition toy_x509 : X509.
Proof.
  refine {| pub_of := fun k => k; CreateCertificate := toy_create; MarshalKey := fun k => k; cert_pub := toy_pub;
            cert_subject := field 5; cert_issuer := field 6; cert_usage := fun der => map char_use (field 2 der);
            cert_ext := fun der => map char_ext (field 1 der); cert_ips := fun der => text_ip (field 7 der);
            cert_dns := fun der => text_dns (field 8 der); cert_plain := fun _ => true;
            signed_by := fun der pub => beq (field 4 der) pub;
            certs_in := fun pem => match toy_parse pem with Some c => [c] | None => [] end;
            key_pair := fun c k => if bool_decide (toy_pub c = Some k) then Some c else None; key_of := Some |}.
  - intros t sn parent pub k der (_ & ip & dns & _ & _ & Hs & Hne)%toy_created.
    split_and!; [|by unfold toy_pub; rewrite Hs|unfold field; rewrite Hs; by apply beq_true].
    simpl. unfold toy_parse. destruct der as [|c der]; [done|]. unfold field. rewrite Hs. simpl. by destruct (t_ca t).
  - intros t sn parent pub k der (_ & ip & dns & Hip & Hdns & Hs & _)%toy_created. unfold field at 1 2 4 5 6 7. rewrite Hs. simpl.
    split_and!; [done|by destruct parent| | |by apply text_ip_of|by apply text_dns_of|done].
    + rewrite map_map. erewrite map_ext; [apply map_id|]. by intros [].
    + rewrite map_map. erewrite map_ext; [apply map_id|]. by intros [].
  - intros t sn c pub k der [Hp _]%toy_created. by apply Hp.
  - done.
  - done.
  - intros der c. simpl. by intros ->.
  - intros der c k _ Hp. simpl. by rewrite Hp, bool_decide_eq_true_2.
Defined.
#[local] Existing Instance toy_x509.
#[local] Existing Instance ConfigWitness.no_net.

Definition free : os_env := mkOs (fun _ => true) (fun _ => None).
Definition dir : gostr := bs "/etc/coen/pki".
Definition rnd (k : string) : random := mkRandom (Some (bs k)) (Some 7%Z).
Definition after_init := certInit free dir false (rnd "cakey") ∅.
Definition after_edge := certEdge free dir (bs "edge.example") (rnd "edgekey") after_init.1.
Definition after_agent := certAgent free dir (bs "home") (rnd "agentkey") after_edge.1.

Lemma by_parts {A B} (p : A * B) (b : B) : p.2 = b -> p = (p.1, b).
Proof. destruct p. by intros <-. Qed.

Definition ca_der : gostr := Join [bs "C"; []; bs "CR"; bs "cakey"; bs "cakey"; bs "Coen CA"; bs "Coen CA"; []; []] [LF].
Definition edge_der : gostr :=
  Join [bs "L"; bs "S"; bs "D"; bs "edgekey"; bs "cakey"; bs "edge.example"; bs "Coen CA"; []; bs "dedge.example"] [LF].
Definition agent_der : gostr := Join [bs "L"; bs "A"; bs "D"; bs "agentkey"; bs "cakey"; bs "home"; bs "Coen CA"; []; []] [LF].

Lemma cert_bootstrap_witness :
  exists ca, leaf_on_disk after_agent.1 dir (bs "edge") ca (IssueServer None (bs "edge.example")) (Fingerprint (mkCertificate edge_der false)) /\
    leaf_on_disk after_agent.1 dir (bs "agent") ca (IssueClient (bs "home")) (Fingerprint (mkCertificate agent_der false)).
Proof.
  destruct (cert_bootstrap free dir (bs "edge.example") (bs "home") false (rnd "cakey") (rnd "edgekey") (rnd "agentkey")
    ∅ after_init.1 after_edge.1 after_agent.1 (Fingerprint (mkCertificate ca_der true))
    (Fingerprint (mkCertificate edge_der false))
    (Fingerprint (mkCertificate agent_der false))) as (ca & _ & _ & He & Ha & _).
  - intros p. unfold node_at. rewrite lookup_empty. by destruct (base_dir p).
  - apply (by_parts after_init). vm_compute. reflexivity.
  - apply (by_parts after_edge). vm_compute. reflexivity.
  - apply (by_parts after_agent). vm_compute. reflexivity.
  - exists ca. split; [exact He|exact Ha].
Defined.
End CertsWitness.
