(* ===== verification/Trust.v ===== *)
(** * Who the two ends of a tunnel trust ([internal/tunnel/tls.go],
      [internal/tunnel/session.go])

    The TLS configurations of the edge and of the agent, with their pools and
    certificates, and what a handshake under them accepts.  The handshake is Go's
    [crypto/tls] as far as the configurations decide it: the version, the choice
    of the protocol, and the certificates each side sends, the leaf first; that
    the holder of a certificate proves its key is TLS itself.
    [x509.Certificate.Verify] comes in as a class with what it documents;
    [VerifyHostname] is modelled. *)

From S2P Require Import Prelude GoStrings IO Config Obs Lifecycle Files Pki Certs.

(** ** [x509.Certificate.VerifyHostname] *)

Definition dot_sep : gostr := bs ".".
Definition star : gostr := bs "*".

Definition toLowerCaseASCII (s : gostr) : gostr := map lower_byte s.

Definition label_byte (first : bool) (c : ascii) : bool :=
  let n := code c in
  ((97 <=? n) && (n <=? 122) || (48 <=? n) && (n <=? 57) || (65 <=? n) && (n <=? 90))%N ||
  ceq c "-"%char && negb first || ceq c "_"%char.

Definition valid_label (part : gostr) : bool :=
  match part with [] => false | c :: t => label_byte true c && forallb (label_byte false) t end.

Definition validHostname (host : gostr) (isPattern : bool) : bool :=
  let host := if isPattern then host else TrimSuffix host dot_sep in
  if beq host [] || beq host star then false
  else match Split host dot_sep with
       | p :: ps => (isPattern && beq p star || valid_label p) && forallb valid_label ps
       | [] => false
       end.

Definition matchHostnames (pattern host : gostr) : bool :=
  let pattern := toLowerCaseASCII pattern in
  let host := toLowerCaseASCII (TrimSuffix host dot_sep) in
  if beq pattern [] || beq host [] then false
  else match Split pattern dot_sep, Split host dot_sep with
       | p :: ps, h :: hs => (beq p star || beq p h) && bool_decide (ps = hs)
       | _, _ => false
       end.

Definition matchExactly (a b : gostr) : bool :=
  if beq a [] || beq a dot_sep || beq b [] || beq b dot_sep then false else beq (toLowerCaseASCII a) (toLowerCaseASCII b).

(** An address may be written in brackets. *)
Definition candidateIP (h : gostr) : gostr :=
  if (3 <=? length h)%nat && HasPrefix h (bs "[") && HasSuffix h (bs "]") then removelast (tail h) else h.

Section hostname.
Context `{Net}.

(** Addresses are matched against the certificate's addresses only, names against
    its names. *)
Definition VerifyHostname (ips : list IP) (dns : list gostr) (h : gostr) : bool :=
  match ParseIP (candidateIP h) with
  | Some ip => bool_decide (ip ∈ ips)
  | None =>
      let name := toLowerCaseASCII h in
      existsb (fun m => if validHostname name false && validHostname m true then matchHostnames m name else matchExactly m name) dns
  end.
End hostname.

(** *** A host's own certificate *)

Lemma lower_lower s : toLowerCaseASCII (toLowerCaseASCII s) = toLowerCaseASCII s.
Proof. unfold toLowerCaseASCII. rewrite map_map. apply map_ext. intros c. by destruct c as [[] [] [] [] [] [] [] []]. Qed.

Lemma lower_length s : length (toLowerCaseASCII s) = length s.
Proof. apply length_map. Qed.

Lemma lower_suffix s : HasSuffix (toLowerCaseASCII s) dot_sep = true -> HasSuffix s dot_sep = true.
Proof.
  rewrite !HasSuffix_spec. intros [t Ht]. destruct s as [|c s _] using rev_ind; [by destruct t|].
  unfold toLowerCaseASCII in Ht. rewrite map_app in Ht. apply app_inj_tail in Ht as [_ Hc]. exists s. f_equal.
  unfold dot_sep. simpl in *. f_equal. revert Hc. by destruct c as [[] [] [] [] [] [] [] []]; vm_compute.
Qed.

Lemma valid_no_dot h : validHostname h true = true -> HasSuffix h dot_sep = false.
Proof.
  unfold validHostname. destruct (beq h [] || _) eqn:E0; [done|]. intros Hv.
  destruct (HasSuffix h dot_sep) eqn:E; [|done]. apply HasSuffix_spec in E as [t ->].
  destruct (byte_parts "."%char t) as (l & ls & Hf & ->).
  change dot_sep with ["."%char] in *. replace (Join (l :: ls) ["."%char] ++ ["."%char]) with (Join ((l :: ls) ++ [[]]) ["."%char]) in * by apply Join_snoc.
  assert (Hs : Split (Join ((l :: ls) ++ [[]]) ["."%char]) ["."%char] = (l :: ls) ++ [[]]).
  { apply (Split_byte "."%char l (ls ++ [[]])). change (Forall (fun l => "."%char ∉ l) ((l :: ls) ++ [[]])).
    apply Forall_app. split; [done|]. constructor; [by apply not_elem_of_nil|done]. }
  rewrite Hs in Hv. cbn [app] in Hv. apply andb_true_iff in Hv as [_ Hv]. rewrite forallb_app in Hv.
  by apply andb_true_iff in Hv as [_ Hv].
Qed.

(** A name that is not an address matches a certificate for it, but for the root. *)
Lemma own_name m : m <> [] -> m <> dot_sep ->
  (if validHostname (toLowerCaseASCII m) false && validHostname m true then matchHostnames m (toLowerCaseASCII m) else matchExactly m (toLowerCaseASCII m)) = true.
Proof.
  intros Hne Hdot. assert (Hl : toLowerCaseASCII m <> []) by (by destruct m).
  assert (Hl' : toLowerCaseASCII m <> dot_sep).
  { intros Hl'. assert (Hs : HasSuffix (toLowerCaseASCII m) dot_sep = true) by (by rewrite Hl').
    apply lower_suffix, HasSuffix_spec in Hs as [t ->]. apply (f_equal length) in Hl'. rewrite lower_length, length_app in Hl'.
    destruct t; [done|]. simpl in Hl'. lia. }
  destruct (_ && _) eqn:E.
  - apply andb_true_iff in E as [_ Hv%valid_no_dot]. unfold matchHostnames.
    rewrite TrimSuffix_miss by (apply not_true_is_false; intros ?%lower_suffix; congruence). rewrite lower_lower.
    rewrite (proj2 (beq_false _ _)) by done. cbn [orb]. unfold Split.
    destruct (split_rounds _ (toLowerCaseASCII m) dot_sep) as [|p ps] eqn:Es; [destruct (length (toLowerCaseASCII m)); simpl in Es; by repeat case_match|].
    rewrite (proj2 (beq_true p p)), orb_true_r by done. by rewrite bool_decide_eq_true_2.
  - unfold matchExactly. rewrite !(proj2 (beq_false _ _)) by done. cbn [orb]. rewrite lower_lower. by apply beq_true.
Qed.

(** A host a certificate can be asked for: not an address in brackets, which
    [IssueServer] takes for a name, and not the root. *)
Definition usable_host (h : gostr) : Prop := candidateIP h = h /\ h <> [] /\ h <> dot_sep.

Lemma issued_host `{Net} h : usable_host h ->
  VerifyHostname (t_ips (IssueServer (ParseIP h) h)) (t_dns (IssueServer (ParseIP h) h)) h = true.
Proof.
  intros (Hb & Hne & Hd). unfold VerifyHostname. rewrite Hb. destruct (ParseIP h) as [ip|]; simpl.
  - apply bool_decide_eq_true. set_solver.
  - by rewrite own_name.
Qed.

(** ** [x509.Certificate.Verify] *)

Section chains.
Context `{X509}.

(** A CA may sign when its key usages, if it names any, say so. *)
Definition may_sign (c : certificate) : Prop := IsCA c = true /\ (cert_usage (Raw c) = [] \/ CertSign ∈ cert_usage (Raw c)).

Definition signed_from (der : gostr) (c : certificate) : Prop :=
  may_sign c /\ cert_issuer der = cert_subject (Raw c) /\ exists pub, cert_pub (Raw c) = Some pub /\ signed_by der pub = true.

(** A chain from a certificate to a root, through intermediates. *)
Inductive chain (roots inters : list certificate) : gostr -> Prop :=
| chain_self c : c ∈ roots -> chain roots inters (Raw c)
| chain_root der c : c ∈ roots -> signed_from der c -> chain roots inters der
| chain_inter der c : c ∈ inters -> chain roots inters (Raw c) -> signed_from der c -> chain roots inters der.
End chains.

(** [Verify] of a certificate against roots, with intermediates its holder sent:
    a verified one has a chain to a root, and its extended uses, if it names any,
    include the one asked for.  A certificate signed from a root that may sign,
    both within their validity, for the use asked for, with nothing else to
    observe, verifies.  [system_roots] is what a missing pool stands for. *)
Class Verifier `{X509} := {
  system_roots : list certificate;
  in_validity : gostr -> bool;
  Verify : list certificate -> list certificate -> ext_usage -> gostr -> bool;
  verify_chain roots inters use der : Verify roots inters use der = true -> chain roots inters der;
  verify_use roots inters use der : Verify roots inters use der = true -> cert_ext der = [] \/ use ∈ cert_ext der;
  verify_direct roots use der c : c ∈ roots -> signed_from der c -> use ∈ cert_ext der -> cert_ext (Raw c) = [] ->
    cert_plain (Raw c) = true -> cert_plain der = true -> in_validity (Raw c) = true -> in_validity der = true ->
    Verify roots [] use der = true;
}.

Section trust.
Context `{Verifier} `{Net}.

(** ** Configurations ([tls.Config]) *)

Record config := mkConf {
  Certificate : gostr;
  RootCAs : option (list certificate);
  ClientCAs : option (list certificate);
  RequireAndVerifyClientCert : bool;
  MinTLS13 : bool;
  Protos : list gostr;
  ServerName : gostr;
}.

(** A nil pool becomes an empty one. *)
Definition fail_closed (pool : option (list certificate)) : option (list certificate) :=
  match pool with None => Some [] | Some _ => pool end.

(** [ServerTLSConfig]: [base] and [plain]. *)
Definition server_base (caPool : option (list certificate)) (cert : gostr) : config :=
  mkConf cert None (fail_closed caPool) true true [ALPNv2] [].
Definition server_plain (caPool : option (list certificate)) (cert : gostr) : config :=
  let b := server_base caPool cert in
  mkConf (Certificate b) (RootCAs b) (ClientCAs b) (RequireAndVerifyClientCert b) (MinTLS13 b) [] (ServerName b).

(** [GetConfigForClient] *)
Definition config_for (caPool : option (list certificate)) (cert : gostr) (protos : list gostr) : config :=
  if bool_decide (ALPNv2 ∈ protos) then server_base caPool cert else server_plain caPool cert.

Definition ClientTLSConfig (caPool : option (list certificate)) (cert serverName : gostr) : config :=
  mkConf cert (fail_closed caPool) None false true [ALPNv2] serverName.

(** *** The session's settings ([yamux.Config]) *)

Record yamux_config := mkYamux { EnableKeepAlive : bool; KeepAliveInterval : Z; LogDiscarded : bool; other_settings : gostr }.

(** [default] is [yamux.DefaultConfig()]. *)
Definition yamuxConfig (default : yamux_config) : yamux_config :=
  mkYamux true (15 * 10 ^ 9) true (other_settings default).

(** ** The handshake *)

(** The certificates a configuration verifies against: nil is the system's. *)
Definition roots (pool : option (list certificate)) : list certificate :=
  match pool with Some l => l | None => system_roots end.

(** What a client offers, whoever it is. *)
Record client_offer := mkOffer { o_tls13 : bool; o_protos : list gostr; o_certs : list gostr }.

(** The certificates a peer sends: they have to parse; the first is its own. *)
Definition peer_verifies (roots : list certificate) (use : ext_usage) (certs : list gostr) : bool :=
  match certs with
  | [] => false
  | der :: rest =>
      match ParseCertificate der, mapM ParseCertificate rest with
      | Some _, Some inters => Verify roots inters use der
      | _, _ => false
      end
  end.

(** The server's side: the protocol, if the handshake succeeds. *)
Definition server_accepts (c : config) (o : client_offer) : option gostr :=
  if MinTLS13 c && negb (o_tls13 o) then None
  else
    p ← negotiate (Protos c) (o_protos o);
    if RequireAndVerifyClientCert c then
      if peer_verifies (roots (ClientCAs c)) ClientAuth (o_certs o) then Some p else None
    else Some p.

(** What a server answers, whoever it is. *)
Record server_answer := mkAnswer { a_tls13 : bool; a_certs : list gostr; a_proto : gostr }.

(** Whether the server's own certificate is for the host. *)
Definition for_host (der : option gostr) (h : gostr) : bool :=
  match der with Some der => VerifyHostname (cert_ips der) (cert_dns der) h | None => false end.

(** The client's side; a server may not choose what was not offered. *)
Definition client_accepts (c : config) (a : server_answer) : option gostr :=
  if MinTLS13 c && negb (a_tls13 a) then None
  else if negb (beq (a_proto a) []) && negb (bool_decide (a_proto a ∈ Protos c)) then None
  else if peer_verifies (roots (RootCAs c)) ServerAuth (a_certs a) && for_host (head (a_certs a)) (ServerName c)
  then Some (a_proto a) else None.

(** The edge with its configuration, and the agent with its. *)
Definition edge_accepts (pool : option (list certificate)) (cert : gostr) (o : client_offer) : option gostr :=
  server_accepts (config_for pool cert (o_protos o)) o.
Definition agent_accepts (pool : option (list certificate)) (cert host : gostr) (a : server_answer) : option gostr :=
  client_accepts (ClientTLSConfig pool cert host) a.

(** ** Lemmas *)

(** Certificates the pool vouches for, for one use: the first has a chain to it,
    through the others. *)
Definition vouched (pool : option (list certificate)) (use : ext_usage) (certs : list gostr) : Prop :=
  exists der rest inters, certs = der :: rest /\ mapM ParseCertificate rest = Some inters /\
    chain (default [] pool) inters der /\ (cert_ext der = [] \/ use ∈ cert_ext der).

Lemma roots_closed pool : roots (fail_closed pool) = default [] pool.
Proof. by destruct pool. Qed.

Lemma verified_vouched pool use certs : peer_verifies (default [] pool) use certs = true -> vouched pool use certs.
Proof.
  destruct certs as [|der rest]; [done|]. cbn [peer_verifies]. destruct (ParseCertificate der); [|done].
  destruct (mapM _ rest) as [inters|] eqn:E; [|done]. intros Hv. exists der, rest, inters.
  split_and!; [done|done|by eapply verify_chain|by eapply verify_use].
Qed.

(** Nobody has a chain to an empty pool. *)
Lemma no_chain inters der : ~ chain [] inters der.
Proof.
  intros Hc. remember [] as rs eqn:E. induction Hc as [c Hin|der c Hin Hs|der c Hin Hc IH Hs]; subst; [..|by apply IH];
    by apply elem_of_nil in Hin.
Qed.

(** The edge asks every client the same, whatever protocols it offers. *)
Lemma edge_accepts_eq pool cert o : edge_accepts pool cert o =
  if o_tls13 o && peer_verifies (default [] pool) ClientAuth (o_certs o)
  then Some (if bool_decide (ALPNv2 ∈ o_protos o) then ALPNv2 else []) else None.
Proof.
  unfold edge_accepts, server_accepts, config_for. destruct (o_tls13 o), (bool_decide (ALPNv2 ∈ o_protos o)) eqn:E;
    cbn [MinTLS13 server_base server_plain negb andb Protos RequireAndVerifyClientCert ClientCAs]; try done;
    rewrite roots_closed.
  - destruct (o_protos o) as [|p ps]; [by vm_compute in E|]. cbn [negotiate List.find]. rewrite E. done.
  - by destruct (o_protos o).
Qed.

(** ** Properties *)

(** Neither end ever trusts more than its pool: whoever connects, the edge
    accepts only TLS 1.3 clients that present a certificate the pool vouches for
    as a client's, and settles on version 2 exactly when the client offers it; the
    agent accepts only a server whose certificate the pool vouches for as a
    server's and that is for the edge's host.  Without a pool neither accepts
    anybody, whatever the system trusts. *)
Theorem pool_is_all (pool : option (list certificate)) (cert host : gostr) :
  (forall o p, edge_accepts pool cert o = Some p -> o_tls13 o = true /\
     vouched pool ClientAuth (o_certs o) /\ (p = ALPNv2 <-> ALPNv2 ∈ o_protos o)) /\
  (forall a p, agent_accepts pool cert host a = Some p -> a_tls13 a = true /\
     vouched pool ServerAuth (a_certs a) /\ for_host (head (a_certs a)) host = true /\ (p = [] \/ p = ALPNv2)) /\
  (pool = None -> (forall o, edge_accepts pool cert o = None) /\ (forall a, agent_accepts pool cert host a = None)).
Proof.
  assert (He : forall o p, edge_accepts pool cert o = Some p -> o_tls13 o = true /\
     vouched pool ClientAuth (o_certs o) /\ (p = ALPNv2 <-> ALPNv2 ∈ o_protos o)).
  { intros o p. rewrite edge_accepts_eq. destruct (o_tls13 o); [|done]. cbn [andb].
    destruct (peer_verifies _ _ _) eqn:Ev; [|done]. intros [= <-]. split_and!; [done|by apply verified_vouched|].
    case_bool_decide; [done|]. by split. }
  assert (Ha : forall a p, agent_accepts pool cert host a = Some p -> a_tls13 a = true /\
     vouched pool ServerAuth (a_certs a) /\ for_host (head (a_certs a)) host = true /\ (p = [] \/ p = ALPNv2)).
  { intros a p. unfold agent_accepts, client_accepts. cbn [MinTLS13 ClientTLSConfig Protos RootCAs ServerName].
    destruct (a_tls13 a); [|done]. cbn [andb negb]. destruct (negb _ && negb _) eqn:Ep; [done|].
    destruct (_ && for_host _ _) eqn:Ev; [|done]. apply andb_true_iff in Ev as [Ev Eh]. rewrite roots_closed in Ev. intros [= <-].
    split_and!; [done|by apply verified_vouched|done|]. apply andb_false_iff in Ep as [Ep|Ep]; apply negb_false_iff in Ep.
    - left. by apply beq_true.
    - right. apply bool_decide_eq_true, list_elem_of_singleton in Ep. done. }
  split_and!; [done..|]. intros ->. split.
  - intros o. destruct (edge_accepts None cert o) as [p|] eqn:E; [|done].
    apply He in E as (_ & (der & rest & inters & _ & _ & Hc & _) & _). by apply no_chain in Hc.
  - intros a. destruct (agent_accepts None cert host a) as [p|] eqn:E; [|done].
    apply Ha in E as (_ & (der & rest & inters & _ & _ & Hc & _) & _). by apply no_chain in Hc.
Qed.

(** A certificate for one use does not pass for the other. *)
Lemma wrong_use rs use use' der rest : cert_ext der = [use] -> use <> use' -> peer_verifies rs use' (der :: rest) = false.
Proof.
  intros Hx Hne. cbn [peer_verifies]. destruct (ParseCertificate der); [|done]. destruct (mapM _ rest) as [inters|]; [|done].
  destruct (Verify rs inters use' der) eqn:E; [|done]. apply verify_use in E. rewrite Hx in E.
  destruct E as [[=]|E%list_elem_of_singleton]. by destruct Hne.
Qed.

(** A leaf the CA on disk issued, for its use, verifies. *)
Lemma issued_verifies d dir k ca t use der : ca_on_disk d dir ca k -> ParseCertificate der = Some (mkCertificate der false) ->
  signed_from der ca -> cert_ext der = t_ext t -> use ∈ t_ext t -> cert_plain der = true ->
  in_validity (Raw ca) = true -> in_validity der = true -> peer_verifies [ca] use [der] = true.
Proof.
  intros (_ & _ & _ & (_ & Hx & Hp) & _) Hpd Hs He Hu Hpl Hv Hv'. cbn [peer_verifies]. rewrite Hpd. simpl.
  apply (verify_direct [ca] use der ca); try done; [set_solver|by rewrite He].
Qed.

Lemma issued_signed d dir k ca der pub : ca_on_disk d dir ca k -> cert_issuer der = cert_subject (Raw ca) ->
  cert_pub (Raw ca) = Some pub -> signed_by der pub = true -> signed_from der ca.
Proof.
  intros (_ & Hca & _ & (Hu & _) & _) Hi Hp Hs. split_and!; [|done|eauto]. split; [done|]. right. rewrite Hu. set_solver.
Qed.

(** [C24] The certificates the commands issue make a tunnel, and only that tunnel.
    After [coen cert init], [edge] for a host (a name, or an address without
    brackets) and [agent] in one directory, with what the two daemons load from it:
    while the certificates are valid, the agent, which knows the edge by that host,
    and the edge accept each other and settle on version 2 of the protocol.  The
    edge accepts nobody but TLS 1.3 clients whose certificate has a chain to its CA
    and, if it names uses, is for a client; the agent takes nobody for the edge but
    one whose certificate has a chain to the CA, is for a server if it names uses,
    and is for the host (the CA's own certificate and certificates without uses
    among them, should anybody hold their keys).  In particular nobody can pass for
    the edge with the agent's certificate, nor open the tunnel as an agent with the
    edge's. *)
Theorem issued_tunnel (o : os_env) (dir host name : gostr) (force : bool) (r0 r1 r2 : random) (d0 d1 d2 d3 : fs)
    (fp0 fp1 fp2 : gostr) (pool pool' : list certificate) (edge agent : gostr)
    (Hs : no_special d0) (Hh : usable_host host)
    (Hinit : certInit o dir force r0 d0 = (d1, Ok fp0))
    (Hedge : certEdge o dir host r1 d1 = (d2, Ok fp1))
    (Hagent : certAgent o dir name r2 d2 = (d3, Ok fp2))
    (He : loadMaterial d3 (in_dir dir "ca.crt") (PathJoin [dir; bs "edge.crt"]) (PathJoin [dir; bs "edge.key"]) = Some (pool, edge))
    (Ha : loadMaterial d3 (in_dir dir "ca.crt") (PathJoin [dir; bs "agent.crt"]) (PathJoin [dir; bs "agent.key"]) = Some (pool', agent))
    (Hv : Forall (fun der => in_validity der = true) (edge :: agent :: map Raw pool)) :
  edge_accepts (Some pool) edge (mkOffer true (Protos (ClientTLSConfig (Some pool') agent host)) [agent]) = Some ALPNv2 /\
  agent_accepts (Some pool') agent host (mkAnswer true [edge] ALPNv2) = Some ALPNv2 /\
  (forall f p, edge_accepts (Some pool) edge f = Some p -> o_tls13 f = true /\ vouched (Some pool) ClientAuth (o_certs f)) /\
  (forall a p h, agent_accepts (Some pool') agent h a = Some p ->
     a_tls13 a = true /\ vouched (Some pool) ServerAuth (a_certs a) /\ for_host (head (a_certs a)) h = true) /\
  (forall a h, head (a_certs a) = Some agent -> agent_accepts (Some pool') agent h a = None) /\
  (forall f, head (o_certs f) = Some edge -> edge_accepts (Some pool) edge f = None).
Proof.
  destruct (bootstrap_leaves _ _ _ _ _ _ _ _ _ _ _ _ _ _ _ Hs Hinit Hedge Hagent) as (ca & k & Hca & _ & Hle & Hla).
  destruct Hle as (de & pub & Hl & Hpe & (_ & Hxe & Hie & Hde & Hce) & Hise & Hpub & Hse & _).
  destruct Hla as (da & pub' & Hl' & Hpa & (_ & Hxa & _ & _ & Hcap) & Hisa & Hpub' & Hsa & _).
  change (bs "edge" ++ bs ".crt") with (bs "edge.crt") in Hl. change (bs "edge" ++ bs ".key") with (bs "edge.key") in Hl.
  change (bs "agent" ++ bs ".crt") with (bs "agent.crt") in Hl'. change (bs "agent" ++ bs ".key") with (bs "agent.key") in Hl'.
  rewrite Hl in He. injection He as <- <-. rewrite Hl' in Ha. injection Ha as <- <-.
  apply Forall_cons in Hv as [Hve Hv]. apply Forall_cons in Hv as [Hva Hv]. apply Forall_cons in Hv as [Hvc _].
  assert (Hve' : peer_verifies [ca] ServerAuth [de] = true)
    by (apply (issued_verifies d3 dir k ca (IssueServer (ParseIP host) host)); try done; [exact (issued_signed d3 dir k ca de pub Hca Hise Hpub Hse)|simpl; set_solver]).
  assert (Hva' : peer_verifies [ca] ClientAuth [da] = true)
    by (apply (issued_verifies d3 dir k ca (IssueClient name)); try done; [exact (issued_signed d3 dir k ca da pub' Hca Hisa Hpub' Hsa)|simpl; set_solver]).
  split_and!.
  - rewrite edge_accepts_eq. cbn -[peer_verifies]. by rewrite Hva'.
  - unfold agent_accepts, client_accepts. cbn -[peer_verifies VerifyHostname]. rewrite Hve', Hie, Hde, issued_host by done. done.
  - intros f p E. by apply (pool_is_all (Some [ca]) de host) in E as (? & ? & _).
  - intros a p h E. by apply (pool_is_all (Some [ca]) da h) in E as (? & ? & ? & _).
  - intros a h E. destruct (a_certs a) as [|c rest] eqn:Ec; [done|]. injection E as ->.
    unfold agent_accepts, client_accepts. cbn [RootCAs ClientTLSConfig fail_closed roots]. rewrite Ec.
    rewrite (wrong_use [ca] ClientAuth ServerAuth da) by done. by repeat case_match.
  - intros f E. destruct (o_certs f) as [|c rest] eqn:Ec; [done|]. injection E as ->. rewrite edge_accepts_eq, Ec.
    change (default [] (Some [ca])) with [ca]. rewrite (wrong_use [ca] ServerAuth ClientAuth de) by done. by rewrite andb_false_r.
Qed.

End trust.

(** ** Witness *)

Module TrustWitness.
Import CertsWitness.
#[local] Existing Instance toy.
#[local] Existing Instance toy_x509.

#[local] Existing Instance ConfigWitness.no_net.

Definition signs (der : gostr) (c : certificate) : bool :=
  IsCA c && (bool_decide (cert_usage (Raw c) = []) || existsb (fun u => match u with CertSign => true | _ => false end) (cert_usage (Raw c))) &&
  beq (cert_issuer der) (cert_subject (Raw c)) && match cert_pub (Raw c) with Some pub => signed_by der pub | None => false end.
Definition is_use (use u : ext_usage) : bool := match u, use with ServerAuth, ServerAuth | ClientAuth, ClientAuth => true | _, _ => false end.
Definition toy_verify (roots inters : list certificate) (use : ext_usage) (der : gostr) : bool :=
  existsb (signs der) roots && existsb (is_use use) (cert_ext der).

Lemma signs_spec der c : signs der c = true <-> signed_from der c.
Proof.
  unfold signs, signed_from, may_sign. rewrite !andb_true_iff, orb_true_iff, bool_decide_eq_true, beq_true, existsb_exists.
  setoid_rewrite <- list_elem_of_In. split.
  - intros [[[Hca Hu] Hi] Hp]. split_and!; [done| |done|destruct (cert_pub (Raw c)) as [pub|]; [eauto|done]].
    destruct Hu as [?|(u & Hu & Hc)]; [by left|]. right. by destruct u.
  - intros [[Hca Hu] [Hi (pub & Hp & Hs)]]. rewrite Hp. split_and!; try done. destruct Hu as [?|Hu]; [by left|]. right. by exists CertSign.
Qed.

Definition toy_verifier : Verifier.
Proof.
  refine {| system_roots := []; in_validity := fun _ => true; Verify := toy_verify |}.
  - intros roots inters use der [Hs _]%andb_true_iff. apply existsb_exists in Hs as (c & Hc & Hs).
    apply (chain_root _ _ der c); [by apply list_elem_of_In|by apply signs_spec].
  - intros roots inters use der [_ Hu]%andb_true_iff. apply existsb_exists in Hu as (u & Hu & He). right.
    apply list_elem_of_In. by destruct u, use.
  - intros roots use der c Hc Hs Hu _ _ _ _ _. apply andb_true_iff. split; apply existsb_exists.
    + exists c. split; [by apply list_elem_of_In|by apply signs_spec].
    + exists use. split; [by apply list_elem_of_In|by destruct use].
Defined.
#[local] Existing Instance toy_verifier.

Lemma issued_tunnel_witness :
  edge_accepts (Some [mkCertificate ca_der true]) edge_der (mkOffer true [ALPNv2] [agent_der]) = Some ALPNv2 /\
  agent_accepts (Some [mkCertificate ca_der true]) agent_der (bs "edge.example") (mkAnswer true [edge_der] ALPNv2) = Some ALPNv2 /\
  agent_accepts (Some [mkCertificate ca_der true]) agent_der (bs "edge.example") (mkAnswer true [agent_der] ALPNv2) = None.
Proof.
  destruct (issued_tunnel free dir (bs "edge.example") (bs "home") false (rnd "cakey") (rnd "edgekey") (rnd "agentkey")
    ∅ after_init.1 after_edge.1 after_agent.1 (Fingerprint (mkCertificate ca_der true)) (Fingerprint (mkCertificate edge_der false))
    (Fingerprint (mkCertificate agent_der false)) [mkCertificate ca_der true] [mkCertificate ca_der true] edge_der agent_der)
    as (He & Ha & _ & _ & Hno & _).
  - intros p. unfold node_at. rewrite lookup_empty. by destruct (base_dir p).
  - split_and!; [vm_compute; reflexivity|discriminate|discriminate].
  - apply (by_parts after_init). vm_compute. reflexivity.
  - apply (by_parts after_edge). vm_compute. reflexivity.
  - apply (by_parts after_agent). vm_compute. reflexivity.
  - vm_compute. reflexivity.
  - vm_compute. reflexivity.
  - repeat constructor.
  - split_and!; [exact He|exact Ha|]. apply Hno. reflexivity.
Defined.
End TrustWitness.
