(* ===== verification/Pipes.v ===== *)
(** * The pipes of a handoff ([Start], [Go], [Prepared], [WaitPrepared] and [WaitGo]
    of [internal/handoff/handoff.go], [internal/sdnotify/sdnotify.go])

    [Handoff] takes from the operating system that a process sees the other's
    messages, and its end, on the pipes between them.  That depends on who holds
    which end: a pipe's reader meets the end of file only when nobody holds its
    write end, and a writer fails only when nobody holds its read end.  Here the
    two processes run on a kernel with descriptor tables, every system call one
    step, with files opened and closed and either process ending at any
    moment. *)

From S2P Require Import Prelude GoStrings Numeral IO Agent Handoff.

(** ** The kernel *)

(** What a descriptor stands for: an end of the pipe of the go-ahead, of the pipe
    of the report, or something else. *)
Inductive pipe_end := GoR | GoW | PrepR | PrepW | Other.
#[export] Instance pipe_end_eq_dec : EqDecision pipe_end.
Proof. solve_decision. Defined.

Abbreviation table := (gmap nat pipe_end).

Definition holds_end (e : pipe_end) (t : option table) : bool :=
  match t with Some t => bool_decide (map_Exists (fun _ x => x = e) t) | None => false end.

(** ** The two processes *)

(** Where [Start] is: at the first pipe, the second, [cmd.Start], or closing the
    files in the list, after which it returns the successor's process id or an
    error. *)
Inductive start_pc := Make1 | Make2 | Fork | Closing (l : list pipe_end) (res : option nat).

(** [Go]: not called; written, with its result, before the deferred [Close]; done. *)
Inductive go_pc := GoNot | GoWrote (ok : bool) | GoDone (ok : bool).

(** The successor: starting; at [Prepared]; its report written, before the
    deferred [Close]; at [WaitGo]; with its result, before the deferred [Close];
    going on; or returning an error.  A [WaitGo] that timed out leaves its
    goroutine in the read, and the file it closes keeps its descriptor until that
    read is over: [late] is the file of a read that goes on. *)
Inductive child_pc := CStart | CBoot (p : Predecessor) | CWrote (p : Predecessor) (ok : bool) | CWait (p : Predecessor)
| CGot (p : Predecessor) (w : waited) | CRuns (w : option waited) (late : option Predecessor) | CFails.

(** [vars] are the predecessor's four [*os.File]s, [seen] what the read of
    [WaitPrepared] gave; the tables are [None] once the process has ended (the
    successor's also before it starts). *)
Record world := mkWorld {
  p_tab : option table;
  spc : start_pc;
  vars : pipe_end -> nat;
  seen : option waited;
  goes : go_pc;
  s_tab : option table;
  cpc : child_pc;
  go_buf : gostr;
  prep_buf : gostr;
}.

Definition set_p_tab (t : table) (w : world) : world :=
  mkWorld (Some t) (spc w) (vars w) (seen w) (goes w) (s_tab w) (cpc w) (go_buf w) (prep_buf w).
Definition set_spc (c : start_pc) (w : world) : world :=
  mkWorld (p_tab w) c (vars w) (seen w) (goes w) (s_tab w) (cpc w) (go_buf w) (prep_buf w).
Definition set_vars (v : pipe_end -> nat) (w : world) : world :=
  mkWorld (p_tab w) (spc w) v (seen w) (goes w) (s_tab w) (cpc w) (go_buf w) (prep_buf w).
Definition set_seen (r : waited) (w : world) : world :=
  mkWorld (p_tab w) (spc w) (vars w) (Some r) (goes w) (s_tab w) (cpc w) (go_buf w) (prep_buf w).
Definition set_goes (g : go_pc) (w : world) : world :=
  mkWorld (p_tab w) (spc w) (vars w) (seen w) g (s_tab w) (cpc w) (go_buf w) (prep_buf w).
Definition set_s_tab (t : option table) (w : world) : world :=
  mkWorld (p_tab w) (spc w) (vars w) (seen w) (goes w) t (cpc w) (go_buf w) (prep_buf w).
Definition set_cpc (c : child_pc) (w : world) : world :=
  mkWorld (p_tab w) (spc w) (vars w) (seen w) (goes w) (s_tab w) c (go_buf w) (prep_buf w).
Definition set_go_buf (b : gostr) (w : world) : world :=
  mkWorld (p_tab w) (spc w) (vars w) (seen w) (goes w) (s_tab w) (cpc w) b (prep_buf w).
Definition set_prep_buf (b : gostr) (w : world) : world :=
  mkWorld (p_tab w) (spc w) (vars w) (seen w) (goes w) (s_tab w) (cpc w) (go_buf w) b.
Definition end_p (w : world) : world :=
  mkWorld None (spc w) (vars w) (seen w) (goes w) (s_tab w) (cpc w) (go_buf w) (prep_buf w).

(** *** System calls *)

(** Whether some process holds an end. *)
Definition is_open (e : pipe_end) (w : world) : bool := holds_end e (p_tab w) || holds_end e (s_tab w).

(** A one-byte read of a pipe: [None] while it blocks. *)
Definition read_buf (writers : bool) (buf : gostr) : option (waited * gostr) :=
  match buf with
  | b :: rest => Some (Message b, rest)
  | [] => if writers then None else Some (ReadFails [EOF], [])
  end.

(** A read of descriptor [fd]; a descriptor that is not open, or not for reading,
    fails. *)
Definition sys_read (t : table) (fd : nat) (w : world) : option (waited * world) :=
  match t !! fd with
  | Some GoR => '(r, b) ← read_buf (is_open GoW w) (go_buf w); Some (r, set_go_buf b w)
  | Some PrepR => '(r, b) ← read_buf (is_open PrepW w) (prep_buf w); Some (r, set_prep_buf b w)
  | _ => Some (ReadFails [], w)
  end.

(** A write: it fails where nobody reads. *)
Definition sys_write (t : table) (fd : nat) (b : ascii) (w : world) : bool * world :=
  match t !! fd with
  | Some GoW => if is_open GoR w then (true, set_go_buf (go_buf w ++ [b]) w) else (false, w)
  | Some PrepW => if is_open PrepR w then (true, set_prep_buf (prep_buf w ++ [b]) w) else (false, w)
  | _ => (false, w)
  end.

(** *** Steps *)

Inductive pevent :=
| PPipe (r : option (nat * nat))   (* pipe: the descriptors of its read and its write end *)
| PSpawn (r : option nat)          (* cmd.Start: the successor's process id *)
| PClosed                          (* the next Close of Start *)
| PWait (timeout : bool)           (* WaitPrepared's select *)
| PGo                              (* Go's Write *)
| PGoClose                         (* and its deferred Close *)
| POpen (fd : nat) | PShut (fd : nat)
| PEnd
| CEnv                             (* FromEnv *)
| CReport                          (* Prepared's Write *)
| CReportClose
| CWaitGo (timeout : bool)         (* WaitGo's select *)
| CGoClose
| CLate (stopped : bool)           (* the end of a read left behind: by itself, or because of the Close *)
| COpen (fd : nat) | CShut (fd : nat)
| CEnd.

(** The files of [Start] as variables, set by the two calls of [pipe]. *)
Definition bind2 (r w : pipe_end) (fr fw : nat) (v : pipe_end -> nat) : pipe_end -> nat :=
  fun e => if decide (e = r) then fr else if decide (e = w) then fw else v e.

(** [pipe] with the variables it is assigned to: the descriptors are free and
    different. *)
Definition do_pipe (r w : pipe_end) (fr fw : nat) (next : start_pc) (s : world) : option world :=
  t ← p_tab s;
  if bool_decide (t !! fr = None /\ t !! fw = None /\ fr <> fw)
  then Some (set_spc next (set_vars (bind2 r w fr fw (vars s)) (set_p_tab (<[fr := r]> (<[fw := w]> t)) s)))
  else None.

(** What a started process has: the standard files and [ExtraFiles], from 3 on;
    every other descriptor of its parent is closed on exec. *)
Definition child_table (extra : list pipe_end) : table :=
  list_to_map (zip (seq 0 (3 + length extra)) ([Other; Other; Other] ++ extra)).

(** The next statement of [Start]. *)
Definition start_step (e : pevent) (s : world) : option world :=
  match spc s, e with
  | Make1, PPipe None => Some (set_spc (Closing [] None) s)
  | Make1, PPipe (Some (fr, fw)) => do_pipe GoR GoW fr fw Make2 s
  | Make2, PPipe None => Some (set_spc (Closing [GoR; GoW] None) s)
  | Make2, PPipe (Some (fr, fw)) => do_pipe PrepR PrepW fr fw Fork s
  | Fork, PSpawn None => Some (set_spc (Closing [GoR; PrepW; GoW; PrepR] None) s)
  | Fork, PSpawn (Some p) =>
      Some (set_spc (Closing [GoR; PrepW] (Some p)) (set_s_tab (Some (child_table [GoR; PrepW])) s))
  | Closing (x :: l) r, PClosed => t ← p_tab s; Some (set_spc (Closing l r) (set_p_tab (delete (vars s x) t) s))
  | _, _ => None
  end.

(** Once [Start] has returned a successor: [WaitPrepared] and [Go]. *)
Definition successor_step (e : pevent) (s : world) : option world :=
  t ← p_tab s;
  match spc s, e with
  | Closing [] (Some _), PWait timeout =>
      match seen s with
      | Some _ => None
      | None =>
          if timeout : bool then Some (set_seen TimedOut s)
          else '(r, s) ← sys_read t (vars s PrepR) s; Some (set_seen r s)
      end
  | Closing [] (Some _), PGo =>
      match goes s with
      | GoNot => let '(ok, s) := sys_write t (vars s GoW) msgGo s in Some (set_goes (GoWrote ok) s)
      | _ => None
      end
  | Closing [] (Some _), PGoClose =>
      match goes s with
      | GoWrote ok => Some (set_goes (GoDone ok) (set_p_tab (delete (vars s GoW) t) s))
      | _ => None
      end
  | _, _ => None
  end.

Definition open_other (fd : nat) (t : table) : option table :=
  match t !! fd with None => Some (<[fd := Other]> t) | Some _ => None end.
Definition shut_other (fd : nat) (t : table) : option table :=
  match t !! fd with Some Other => Some (delete fd t) | _ => None end.

(** The successor's [awaitTurn], given the environment its predecessor had. *)
Definition child_step (env : gmap gostr gostr) (e : pevent) (s : world) : option world :=
  t ← s_tab s;
  match cpc s, e with
  | CStart, CEnv =>
      Some (set_cpc (match (FromEnv (start_env env)).2 with Ok (Some p) => CBoot p | Ok None => CRuns None None | Err _ => CFails end) s)
  | CBoot p, CReport =>
      let '(ok, s) := sys_write t (Z.to_nat (prepared p)) msgPrepared s in Some (set_cpc (CWrote p ok) s)
  | CWrote p ok, CReportClose =>
      Some (set_cpc (if ok : bool then CWait p else CFails) (set_s_tab (Some (delete (Z.to_nat (prepared p)) t)) s))
  | CWait p, CWaitGo timeout =>
      if timeout : bool then Some (set_cpc (CGot p TimedOut) s)
      else '(r, s) ← sys_read t (Z.to_nat (goAhead p)) s; Some (set_cpc (CGot p r) s)
  | CGot p TimedOut, CGoClose => Some (set_cpc (CRuns (Some TimedOut) (Some p)) s)
  | CGot p r, CGoClose => Some (set_cpc (CRuns (Some r) None) (set_s_tab (Some (delete (Z.to_nat (goAhead p)) t)) s))
  | CRuns w (Some p), CLate stopped =>
      s ← (if stopped : bool then Some s else snd <$> sys_read t (Z.to_nat (goAhead p)) s);
      Some (set_cpc (CRuns w None) (set_s_tab (Some (delete (Z.to_nat (goAhead p)) t)) s))
  | _, COpen fd => t ← open_other fd t; Some (set_s_tab (Some t) s)
  | _, CShut fd => t ← shut_other fd t; Some (set_s_tab (Some t) s)
  | _, CEnd => Some (set_s_tab None s)
  | _, _ => None
  end.

Definition is_child (e : pevent) : bool :=
  match e with CEnv | CReport | CReportClose | CWaitGo _ | CGoClose | CLate _ | COpen _ | CShut _ | CEnd => true | _ => false end.

Definition pipe_step (env : gmap gostr gostr) (e : pevent) (s : world) : option world :=
  if is_child e then child_step env e s else
  match p_tab s, e with
  | None, _ => None
  | Some t, POpen fd => t ← open_other fd t; Some (set_p_tab t s)
  | Some t, PShut fd => t ← shut_other fd t; Some (set_p_tab t s)
  | Some _, PEnd => Some (end_p s)
  | Some _, (PPipe _ | PSpawn _ | PClosed) => start_step e s
  | Some _, _ => successor_step e s
  end.

Definition p_enabled (env : gmap gostr gostr) (e : pevent) (s : world) : Prop := is_Some (pipe_step env e s).
Definition p_exec (env : gmap gostr gostr) (e : pevent) (s : world) : world := default s (pipe_step env e s).
Definition pipes_step (env : gmap gostr gostr) : world -> world -> Prop := steps (p_enabled env) (p_exec env).

(** A process with files of its own that calls [Start]. *)
Definition calling (files : list nat) : world :=
  mkWorld (Some (list_to_map (map (fun fd => (fd, Other)) files))) Make1 (fun _ => 0%nat) None GoNot None CStart [] [].

(** ** Telling systemd ([sdnotify]) *)

Definition NUL : ascii := byte 0.
Definition notify_socket (env : gmap gostr gostr) : gostr := default [] (env !! bs "NOTIFY_SOCKET").

Definition Available (env : gmap gostr gostr) : bool := negb (beq (notify_socket env) []).

(** The address it sends to; an abstract socket starts with a zero byte. *)
Definition notify_name (path : gostr) : gostr := if HasPrefix path (bs "@") then NUL :: drop 1 path else path.

(** [Notify]: whether there was a socket, whether it failed, and what was sent
    where; [dial] and [write] are whether those succeed. *)
Definition Notify (env : gmap gostr gostr) (dial write : gostr -> bool) (state : gostr) : bool * bool * list (gostr * gostr) :=
  let path := notify_socket env in
  if beq path [] then (false, false, [])
  else
    let name := notify_name path in
    if negb (dial name) then (true, true, [])
    else if write state then (true, false, [(name, state)]) else (true, true, []).

(** ** Who holds which end *)

(** The ends a table has are those in [live], each at the descriptor [f] says. *)
Definition owns (t : table) (f : pipe_end -> nat) (live : list pipe_end) : Prop :=
  forall e fd, e <> Other -> (t !! fd = Some e <-> e ∈ live /\ fd = f e).

Lemma owns_holds t f live e : owns t f live -> e <> Other -> holds_end e (Some t) = bool_decide (e ∈ live).
Proof.
  intros Ho He. cbn [holds_end]. apply bool_decide_ext. split.
  - intros (fd & x & Hx & ->). by apply (Ho e fd He) in Hx as [? _].
  - intros Hin. exists (f e), e. split; [|done]. by apply (Ho e (f e) He).
Qed.

Lemma owns_delete t f live x : owns t f (x :: live) -> x <> Other -> NoDup (x :: live) -> owns (delete (f x) t) f live.
Proof.
  intros Ho Hx [Hnd _]%NoDup_cons e fd He. destruct (decide (fd = f x)) as [->|Hne].
  - rewrite lookup_delete_eq. split; [done|]. intros [Hin Hf]. exfalso.
    assert (H1 : t !! f x = Some x) by (apply (Ho x (f x) Hx); set_solver).
    assert (H2 : t !! f x = Some e) by (rewrite Hf; apply (Ho e (f e) He); set_solver). congruence.
  - rewrite lookup_delete_ne by done. rewrite (Ho e fd He). set_solver.
Qed.

Lemma owns_open t t' f live fd : owns t f live -> open_other fd t = Some t' -> owns t' f live.
Proof.
  unfold open_other. intros Ho Hop e fd' He. destruct (t !! fd) eqn:E; [done|]. injection Hop as <-.
  destruct (decide (fd = fd')) as [<-|]; [|by rewrite lookup_insert_ne by done; apply Ho].
  rewrite lookup_insert_eq, <- (Ho e fd He), E. naive_solver.
Qed.

Lemma owns_shut t t' f live fd : owns t f live -> shut_other fd t = Some t' -> owns t' f live.
Proof.
  unfold shut_other. intros Ho Hop e fd' He. destruct (t !! fd) as [[]|] eqn:E; try done. injection Hop as <-.
  destruct (decide (fd = fd')) as [<-|]; [|by rewrite lookup_delete_ne by done; apply Ho].
  rewrite lookup_delete_eq, <- (Ho e fd He), E. naive_solver.
Qed.

(** A new pipe: its two ends, beside those there were. *)
Lemma owns_pipe t f live r w fr fw : owns t f live -> r <> Other -> w <> Other -> r <> w -> r ∉ live -> w ∉ live ->
  t !! fr = None -> t !! fw = None -> fr <> fw ->
  owns (<[fr := r]> (<[fw := w]> t)) (bind2 r w fr fw f) (r :: w :: live).
Proof.
  intros Ho Hr Hw Hrw Hrl Hwl Hfr Hfw Hd e fd He. unfold bind2.
  assert (Hfree : forall x, x <> Other -> x ∈ live -> f x <> fr /\ f x <> fw).
  { intros x Hx Hin. assert (Ht : t !! f x = Some x) by (by apply (Ho x (f x) Hx)). split; congruence. }
  rewrite !elem_of_cons. destruct (decide (fr = fd)) as [<-|H1].
  { rewrite lookup_insert_eq. repeat case_decide; naive_solver. }
  rewrite lookup_insert_ne by done. destruct (decide (fw = fd)) as [<-|H2].
  { rewrite lookup_insert_eq. repeat case_decide; naive_solver. }
  rewrite lookup_insert_ne by done. rewrite (Ho e fd He). repeat case_decide; naive_solver.
Qed.

(** The ends the predecessor has, and the successor. *)
Definition live_p (c : start_pc) (g : go_pc) : list pipe_end :=
  match c with
  | Make1 => []
  | Make2 => [GoR; GoW]
  | Fork => [PrepR; PrepW; GoR; GoW]
  | Closing l None => l
  | Closing l (Some _) => l ++ match g with GoDone _ => [PrepR] | _ => [GoW; PrepR] end
  end.

Definition live_c (c : child_pc) : list pipe_end :=
  match c with
  | CStart | CBoot _ | CWrote _ _ => [GoR; PrepW]
  | CWait _ | CGot _ _ | CRuns _ (Some _) | CFails => [GoR]
  | CRuns _ None => []
  end.

(** The descriptors [Start] passes on. *)
Definition fd_c (e : pipe_end) : nat := match e with GoR => 3 | PrepW => 4 | _ => 0 end.

Definition is_message (w : option waited) : bool := match w with Some (Message _) => true | _ => false end.
(** The successor's report was written. *)
Definition wrote (c : child_pc) : bool := match c with CWrote _ ok => ok | CWait _ | CGot _ _ | CRuns _ _ => true | _ => false end.
(** The go-ahead was written. *)
Definition told_go (g : go_pc) : bool := match g with GoWrote ok | GoDone ok => ok | GoNot => false end.
(** What [WaitGo] met. *)
Definition got (c : child_pc) : option waited := match c with CGot _ w => Some w | CRuns w _ => w | _ => None end.
(** It has let go of the read end of the go-ahead. *)
Definition let_go (c : child_pc) : bool := match c with CRuns _ None => true | _ => false end.

Definition returned (c : start_pc) : bool := match c with Closing [] (Some _) => true | _ => false end.
Definition spawned (c : start_pc) : bool := match c with Closing _ (Some _) => true | _ => false end.
Definition closes (c : start_pc) : list (list pipe_end) :=
  match c with
  | Closing _ None => [[]; [PrepR]; [GoW; PrepR]; [GoW]; [GoR; GoW]; [PrepW; GoW; PrepR]; [GoR; PrepW; GoW; PrepR]]
  | _ => [[]; [PrepW]; [GoR; PrepW]]
  end.

Definition pair_of (c : child_pc) : option Predecessor :=
  match c with CBoot p | CWrote p _ | CWait p | CGot p _ | CRuns _ (Some p) => Some p | _ => None end.

(** The successor could not report. *)
Definition lost (c : child_pc) : bool := match c with CWrote _ ok => negb ok | CFails => true | _ => false end.

(** [i_lost]: a report failed only where the predecessor had ended; [i_failed]: a write
    of the go-ahead failed only where nobody can read it any more. *)
Record pipes_ok (s : world) : Prop := {
  i_p : forall t, p_tab s = Some t -> owns t (vars s) (live_p (spc s) (goes s));
  i_c : forall t, s_tab s = Some t -> owns t fd_c (live_c (cpc s));
  i_list : forall l r, spc s = Closing l r -> l ∈ closes (spc s);
  i_fds : forall p, pair_of (cpc s) = Some p -> p = mkPredecessor 3 4;
  i_runs : forall q, cpc s <> CRuns None q;
  i_late : forall w p, cpc s = CRuns w (Some p) -> w = Some TimedOut;
  i_lost : lost (cpc s) = true -> p_tab s = None;
  i_spawn : spawned (spc s) = false -> s_tab s = None /\ cpc s = CStart;
  i_return : returned (spc s) = false -> seen s = None /\ goes s = GoNot;
  i_prep : prep_buf s = (if wrote (cpc s) && negb (is_message (seen s)) then [msgPrepared] else []);
  i_seen : forall w, seen s = Some w ->
    match w with Message b => b = msgPrepared /\ wrote (cpc s) = true | ReadFails e => e = [EOF] /\ s_tab s = None | TimedOut => True end;
  i_go : let_go (cpc s) = false -> go_buf s = (if told_go (goes s) && negb (is_message (got (cpc s))) then [msgGo] else []);
  i_got : forall w, got (cpc s) = Some w ->
    match w with Message b => b = msgGo /\ told_go (goes s) = true | ReadFails e => e = [EOF] /\ p_tab s = None | TimedOut => True end;
  i_failed : goes s <> GoNot -> told_go (goes s) = false -> s_tab s = None \/ let_go (cpc s) = true;
}.

Definition alive_tab (t : option table) : bool := match t with Some _ => true | None => false end.

Lemma holds_p s e : pipes_ok s -> e <> Other ->
  holds_end e (p_tab s) = alive_tab (p_tab s) && bool_decide (e ∈ live_p (spc s) (goes s)).
Proof. intros Hok He. destruct (p_tab s) as [t|] eqn:E; [|done]. by rewrite (owns_holds _ _ _ _ (i_p s Hok t E) He). Qed.

Lemma holds_c s e : pipes_ok s -> e <> Other ->
  holds_end e (s_tab s) = alive_tab (s_tab s) && bool_decide (e ∈ live_c (cpc s)).
Proof. intros Hok He. destruct (s_tab s) as [t|] eqn:E; [|done]. by rewrite (owns_holds _ _ _ _ (i_c s Hok t E) He). Qed.

Lemma open_end s e : pipes_ok s -> e <> Other ->
  is_open e s = (alive_tab (p_tab s) && bool_decide (e ∈ live_p (spc s) (goes s))) ||
                (alive_tab (s_tab s) && bool_decide (e ∈ live_c (cpc s))).
Proof. intros Hok He. unfold is_open. by rewrite holds_p, holds_c. Qed.

Ltac ok_intro H := destruct H as [Hp Hc Hl Hf Hr Hla Hlo Hsp Hre Hpb Hse Hgb Hgo Hfa]; cbn in *.
(** Splits the invariant of the next state, and settles what a step leaves alone. *)
Ltac ok_split :=
  constructor; cbn in *; try done;
  try (let v := fresh "v" in let Hv := fresh "Hv" in intros v Hv;
       match goal with
       | H : forall w : waited, _ = Some w -> _ |- _ => specialize (H v Hv); destruct v; naive_solver
       end);
  try (intros Hw; match goal with H : lost _ = true -> _ |- _ => specialize (H Hw); congruence end).

Lemma child_owns : owns (child_table [GoR; PrepW]) fd_c [GoR; PrepW].
Proof.
  change (child_table [GoR; PrepW]) with
    (<[0%nat := Other]> (<[1%nat := Other]> (<[2%nat := Other]> (<[3%nat := GoR]> (<[4%nat := PrepW]> (∅ : table)))))).
  intros e fd He. rewrite !lookup_insert_Some, lookup_empty, !elem_of_cons, elem_of_nil.
  destruct e; cbn [fd_c]; naive_solver lia.
Qed.

Lemma closing_next x l r : x :: l ∈ closes (Closing (x :: l) r) ->
  x <> Other /\ l ∈ closes (Closing l r) /\ NoDup (live_p (Closing (x :: l) r) GoNot).
Proof.
  destruct r as [p|]; cbn [closes live_p]; rewrite !elem_of_cons, elem_of_nil; intros H;
    repeat destruct H as [H|H]; try done; injection H as -> ->;
    (split; [done|split; [rewrite ?elem_of_cons; naive_solver|by apply (bool_decide_unpack _)]]).
Qed.

Lemma start_step_ok e s s' : pipes_ok s -> start_step e s = Some s' -> pipes_ok s'.
Proof.
  intros Hok. unfold start_step. destruct (spc s) as [| | |[|x l] r] eqn:Es; destruct e as [[[fr fw]|]|[p|]| | | | | | | | | | | | | | | |]; try done.
  - unfold do_pipe. destruct (p_tab s) as [t|] eqn:Ep; [|done]. cbn [mbind option_bind]. case_bool_decide as Hd; [|done]. intros [= <-].
    ok_intro Hok. rewrite Es in *. destruct (Hsp eq_refl), (Hre eq_refl), Hd as (? & ? & ?). ok_split.
    intros ? [= <-]. apply (owns_pipe t (vars s) []); try done; try (by apply not_elem_of_nil). by apply Hp.
  - intros [= <-]. ok_intro Hok. rewrite Es in *. ok_split; intros l r [= <- <-]; set_solver.
  - unfold do_pipe. destruct (p_tab s) as [t|] eqn:Ep; [|done]. cbn [mbind option_bind]. case_bool_decide as Hd; [|done]. intros [= <-].
    ok_intro Hok. rewrite Es in *. destruct (Hsp eq_refl), (Hre eq_refl), Hd as (? & ? & ?). ok_split.
    intros ? [= <-]. apply (owns_pipe t (vars s) [GoR; GoW]); try done; try set_solver; by apply Hp.
  - intros [= <-]. ok_intro Hok. rewrite Es in *. ok_split; intros l r [= <- <-]; set_solver.
  - intros [= <-]. ok_intro Hok. rewrite Es in *. destruct (Hsp eq_refl) as [? Ec], (Hre eq_refl) as [? Eg].
    rewrite ?Ec, ?Eg in *. ok_split; rewrite ?Ec, ?Eg; try done.
    + intros t Ht e fd He. rewrite (Hp t Ht e fd He). set_solver.
    + intros t [= <-]. apply child_owns.
    + intros l r [= <- <-]. set_solver.
  - intros [= <-]. ok_intro Hok. rewrite Es in *. destruct (Hsp eq_refl), (Hre eq_refl). ok_split.
    + intros t Ht e fd He. rewrite (Hp t Ht e fd He). set_solver.
    + intros l r [= <- <-]. set_solver.
  - destruct (p_tab s) as [t|] eqn:Ep; [|done]. intros [= <-].
    ok_intro Hok. rewrite Es in *. destruct (Hre eq_refl) as [Hs0 Hg0]. rewrite Hg0 in *.
    destruct (closing_next x l r (Hl _ _ eq_refl)) as (Hx & Hl' & Hnd). ok_split; rewrite ?Hg0; try done.
    + intros ? [= <-]. specialize (Hp t Ep). destruct r; cbn [live_p app] in *; by apply owns_delete.
    + by intros ? ? [= <- <-].
Qed.

(** What the read of [WaitPrepared] meets, once [Start] has returned. *)
Lemma read_prepared s t p : pipes_ok s -> p_tab s = Some t -> spc s = Closing [] (Some p) -> seen s = None ->
  t !! vars s PrepR = Some PrepR /\
  read_buf (is_open PrepW s) (prep_buf s) =
    (if wrote (cpc s) then Some (Message msgPrepared, []) else if alive_tab (s_tab s) then None else Some (ReadFails [EOF], [])).
Proof.
  intros Hok Ht Es Hs. split.
  - apply (i_p s Hok t Ht PrepR); [done|]. rewrite Es. split; [|done]. cbn [live_p app]. destruct (goes s); set_solver.
  - rewrite (i_prep s Hok), open_end, Hs, Es by done. cbn [is_message negb live_p app].
    rewrite andb_true_r. destruct (wrote (cpc s)) eqn:Hw; [done|]. cbn [read_buf].
    rewrite (bool_decide_eq_false_2 (PrepW ∈ match goes s with GoDone _ => _ | _ => _ end)) by (destruct (goes s); set_solver).
    rewrite andb_false_r. cbn [orb]. pose proof (i_lost s Hok) as Hlo. rewrite Ht in Hlo.
    destruct (alive_tab (s_tab s)); [|done]. destruct (cpc s) as [| |q []| | | |]; cbn in *; try done; by specialize (Hlo eq_refl).
Qed.

(** What [Go]'s write meets. *)
Lemma write_go s t p : pipes_ok s -> p_tab s = Some t -> spc s = Closing [] (Some p) -> goes s = GoNot ->
  t !! vars s GoW = Some GoW /\ is_open GoR s = alive_tab (s_tab s) && negb (let_go (cpc s)).
Proof.
  intros Hok Ht Es Hg. split.
  - apply (i_p s Hok t Ht GoW); [done|]. rewrite Es, Hg. split; [|done]. cbn [live_p app]. set_solver.
  - rewrite open_end, Es, Hg by done. cbn [live_p app]. rewrite (bool_decide_eq_false_2 (GoR ∈ _)) by set_solver.
    rewrite andb_false_r. cbn [orb]. destruct (cpc s) as [| | | | |w []|]; done.
Qed.

Lemma successor_ok e s s' : pipes_ok s -> successor_step e s = Some s' -> pipes_ok s'.
Proof.
  intros Hok. unfold successor_step. destruct (p_tab s) as [t|] eqn:Ep; [|done]. cbn [mbind option_bind].
  destruct (spc s) as [| | |[|x l] [p|]] eqn:Es; try done; destruct e; try done.
  - destruct (seen s) eqn:Hs; [done|]. destruct timeout.
    { intros [= <-]. ok_intro Hok. rewrite Hs in *. ok_split; [by rewrite Es|]. by intros ? [= <-]. }
    destruct (read_prepared s t p Hok Ep Es Hs) as [Hfd Hrd]. unfold sys_read. rewrite Hfd, Hrd.
    destruct (wrote (cpc s)) eqn:Hw; [|destruct (s_tab s) as [t'|] eqn:Et; [done|]]; intros [= <-]; ok_intro Hok; rewrite Hs, ?Hw in *; ok_split; rewrite ?Es, ?Hw; try done; try (by intros ? [= <-]).
  - destruct (goes s) eqn:Hg; try done. destruct (write_go s t p Hok Ep Es Hg) as [Hfd Hop]. unfold sys_write.
    rewrite Hfd, Hop. destruct (alive_tab (s_tab s) && negb (let_go (cpc s))) eqn:Ha; intros [= <-]; ok_intro Hok;
      rewrite Hg in *; ok_split; try (by rewrite Es in * ).
    + intros Hlg. rewrite (Hgb Hlg). destruct (got (cpc s)) as [w|] eqn:Ew; [|done]. specialize (Hgo _ eq_refl). destruct w; naive_solver.
    + intros _ _. destruct (s_tab s); [|by left]. right. cbn in Ha. by destruct (let_go (cpc s)).
  - destruct (goes s) as [|ok|] eqn:Hg; try done. intros [= <-]. ok_intro Hok. rewrite Hg in *. ok_split; try (by rewrite Es in * ).
    + intros ? [= <-]. rewrite Es in *. apply owns_delete; [by apply Hp|done|]. by apply (bool_decide_unpack _).
    + intros _ Ho. by apply Hfa.
Qed.

Lemma FromEnv_started env : (FromEnv (start_env env)).2 = Ok (Some (mkPredecessor 3 4)).
Proof. unfold FromEnv, start_env. rewrite lookup_insert_eq. by vm_compute. Qed.

(** A successor that runs was started by a [Start] past [cmd.Start]. *)
Lemma child_started s t : pipes_ok s -> s_tab s = Some t -> exists l p, spc s = Closing l (Some p).
Proof.
  intros Hok Ht. destruct (spc s) as [| | |l [p|]] eqn:E; [..|by exists l, p|]; exfalso;
    (destruct (i_spawn s Hok) as [? _]; [by rewrite E|congruence]).
Qed.

Lemma child_fd s t e : pipes_ok s -> s_tab s = Some t -> e <> Other -> e ∈ live_c (cpc s) -> t !! fd_c e = Some e.
Proof. intros Hok Ht He Hin. by apply (i_c s Hok t Ht e). Qed.

(** What the successor's report meets. *)
Lemma write_prepared s t : pipes_ok s -> s_tab s = Some t -> is_open PrepR s = alive_tab (p_tab s).
Proof.
  intros Hok Ht. destruct (child_started s t Hok Ht) as (l & p & Es). rewrite open_end, Es by done. cbn [live_p].
  rewrite (bool_decide_eq_true_2 (PrepR ∈ _)) by (destruct (goes s); set_solver).
  rewrite (bool_decide_eq_false_2 (PrepR ∈ live_c _)) by (destruct (cpc s) as [| | | | |w []|]; set_solver).
  by destruct (alive_tab (p_tab s)), (alive_tab (s_tab s)).
Qed.

(** What the read of [WaitGo] meets. *)
Lemma read_go s t q : pipes_ok s -> s_tab s = Some t -> cpc s = CWait q ->
  read_buf (is_open GoW s) (go_buf s) =
    (if told_go (goes s) then Some (Message msgGo, []) else if alive_tab (p_tab s) then None else Some (ReadFails [EOF], [])).
Proof.
  intros Hok Ht Ec. rewrite (i_go s Hok), Ec by by rewrite Ec. cbn [got is_message negb]. rewrite andb_true_r.
  destruct (told_go (goes s)) eqn:Hg; [done|]. cbn [read_buf]. destruct (child_started s t Hok Ht) as (l & p & Es).
  rewrite open_end, Es, Ec by done. cbn [live_p live_c]. rewrite (bool_decide_eq_false_2 (GoW ∈ [GoR])) by set_solver.
  rewrite andb_false_r, orb_false_r. assert (Hn : goes s = GoNot).
  { destruct (goes s) eqn:E; [done|..]; exfalso; (destruct (i_failed s Hok) as [?|Hx]; [by rewrite E|by rewrite E|congruence|by rewrite Ec in Hx]). }
  rewrite Hn, bool_decide_eq_true_2 by set_solver. rewrite andb_true_r. done.
Qed.

(** The successor closes the read end of the go-ahead, the last it has, whatever a
    read has left in the pipe. *)
Lemma closed_ok s t w b : pipes_ok s -> s_tab s = Some t -> live_c (cpc s) = [GoR] -> wrote (cpc s) = true -> got (cpc s) = Some w ->
  pipes_ok (set_cpc (CRuns (Some w) None) (set_s_tab (Some (delete (fd_c GoR) t)) (set_go_buf b s))).
Proof.
  intros Hok Et Hlive Hw Hg. destruct (child_started s t Hok Et) as (l & p & Es). pose proof (i_c s Hok t Et) as Ho. rewrite Hlive in Ho.
  ok_intro Hok. rewrite Hw, Hg in *. ok_split; try (by rewrite Es in * ).
  - intros ? [= <-]. apply (owns_delete t fd_c [] GoR); [done|done|by apply (bool_decide_unpack _)].
  - intros _ _. by right.
Qed.

Lemma child_ok env e s s' : pipes_ok s -> child_step env e s = Some s' -> pipes_ok s'.
Proof.
  intros Hok. unfold child_step. destruct (s_tab s) as [t|] eqn:Et; [|done]. cbn [mbind option_bind].
  destruct (child_started s t Hok Et) as (l & p & Es).
  assert (Hother : forall t', owns t' fd_c (live_c (cpc s)) -> pipes_ok (set_s_tab (Some t') s)).
  { intros t' Ho. ok_intro Hok. ok_split; try (by rewrite Es in * ).
    - by intros ? [= <-].
    - intros Hg1 Hg2. destruct (Hfa Hg1 Hg2); [congruence|by right]. }
  assert (Hopen : forall fd, (t' ← open_other fd t; Some (set_s_tab (Some t') s)) = Some s' -> pipes_ok s').
  { intros fd (t' & Ht' & [= <-])%bind_Some. apply Hother. eapply owns_open; [|done]. by apply (i_c s Hok). }
  assert (Hshut : forall fd, (t' ← shut_other fd t; Some (set_s_tab (Some t') s)) = Some s' -> pipes_ok s').
  { intros fd (t' & Ht' & [= <-])%bind_Some. apply Hother. eapply owns_shut; [|done]. by apply (i_c s Hok). }
  assert (Hend : Some (set_s_tab None s) = Some s' -> pipes_ok s').
  { intros [= <-]. ok_intro Hok. ok_split; try (by rewrite Es in * ). by left. }
  destruct (cpc s) as [|q|q ok|q|q w|w [q|]|] eqn:Ec; destruct e; try done; try apply Hopen; try apply Hshut; try apply Hend;
    try (by destruct w; (apply Hopen || apply Hshut || apply Hend || done)).
  - rewrite FromEnv_started. intros [= <-]. ok_intro Hok. rewrite Ec in *. ok_split; try (by rewrite Es in * ). by intros ? [= <-].
  - assert (q = mkPredecessor 3 4) as -> by (apply (i_fds s Hok); by rewrite Ec).
    unfold sys_write. change (Z.to_nat _) with (fd_c PrepW). rewrite (child_fd s t PrepW Hok Et), (write_prepared s t Hok Et); [|done|rewrite Ec; set_solver].
    destruct (p_tab s) as [tp|] eqn:Ep; intros [= <-]; ok_intro Hok; rewrite Ec in *; ok_split; try (by rewrite Es in * ); try (by intros ? [= <-]).
    rewrite Hpb. destruct (seen s) as [w|] eqn:Ew; [|done]. specialize (Hse _ eq_refl). destruct w; naive_solver.
  - assert (q = mkPredecessor 3 4) as -> by (apply (i_fds s Hok); by rewrite Ec). intros [= <-]. change (Z.to_nat _) with (fd_c PrepW).
    pose proof (i_c s Hok t Et) as Ho. rewrite Ec in Ho.
    ok_intro Hok. rewrite Ec in *. destruct ok; ok_split; try (by rewrite Es in * ); try (by intros ? [= <-]).
    1,3: intros ? [= <-]; apply (owns_delete t fd_c [GoR] PrepW); [|done|by apply (bool_decide_unpack _)];
      intros e fd He; rewrite (Ho e fd He); set_solver.
    all: intros Hg1 Hg2; destruct (Hfa Hg1 Hg2); [congruence|done].
  - assert (q = mkPredecessor 3 4) as -> by (apply (i_fds s Hok); by rewrite Ec). destruct timeout.
    { intros [= <-]. ok_intro Hok. rewrite Ec in *. ok_split; try (by rewrite Es in * ). by intros ? [= <-]. }
    unfold sys_read. change (Z.to_nat _) with (fd_c GoR). rewrite (child_fd s t GoR Hok Et); [|done|rewrite Ec; set_solver].
    rewrite (read_go s t _ Hok Et Ec). destruct (told_go (goes s)) eqn:Hg.
    { intros [= <-]. ok_intro Hok. rewrite Ec in *. ok_split; try (by rewrite Es in * ); rewrite ?Hg; try done. by intros ? [= <-]. }
    destruct (p_tab s) eqn:Ep; [done|]. intros [= <-]. ok_intro Hok. rewrite Ec in *. ok_split; try (by rewrite Es in * ); rewrite ?Hg; try done. by intros ? [= <-].
  - assert (q = mkPredecessor 3 4) as -> by (apply (i_fds s Hok); by rewrite Ec). change (Z.to_nat _) with (fd_c GoR).
    destruct w; intros [= <-].
    1,2: apply (closed_ok s t _ (go_buf s) Hok Et); by rewrite Ec.
    ok_intro Hok. rewrite Ec in *. ok_split; try (by rewrite Es in * ). by intros ? ? [= <- <-].
  - assert (q = mkPredecessor 3 4) as -> by (apply (i_fds s Hok); by rewrite Ec). change (Z.to_nat _) with (fd_c GoR).
    assert (w = Some TimedOut) as -> by by eapply (i_late s Hok).
    unfold sys_read. rewrite (child_fd s t GoR Hok Et) by (rewrite ?Ec; done || set_solver).
    destruct stopped; [intros [= <-]; apply (closed_ok s t _ (go_buf s) Hok Et); by rewrite Ec|].
    destruct (read_buf _ _) as [[x b]|]; [|done]. intros [= <-]. apply (closed_ok s t _ b Hok Et); by rewrite Ec.
Qed.

Lemma pipe_step_ok env e s : p_enabled env e s -> pipes_ok s -> pipes_ok (p_exec env e s).
Proof.
  unfold p_enabled, p_exec. intros [s' Hs] Hok. rewrite Hs. cbn [default]. revert Hs. unfold pipe_step.
  destruct (is_child e); [by apply child_ok|]. destruct (p_tab s) as [t|] eqn:Ep; [|done].
  assert (Hother : forall t', owns t' (vars s) (live_p (spc s) (goes s)) -> pipes_ok (set_p_tab t' s)).
  { intros t' Ho. ok_intro Hok. ok_split. by intros ? [= <-]. }
  destruct e; try done; try (by apply start_step_ok); try (by apply successor_ok).
  - intros (t' & Ht' & [= <-])%bind_Some. apply Hother. eapply owns_open; [|done]. by apply (i_p s Hok).
  - intros (t' & Ht' & [= <-])%bind_Some. apply Hother. eapply owns_shut; [|done]. by apply (i_p s Hok).
  - intros [= <-]. ok_intro Hok. ok_split.
Qed.

Lemma calling_ok files : pipes_ok (calling files).
Proof.
  constructor; try done. intros t [= <-] e fd He. rewrite elem_of_nil. split; [|tauto].
  intros Ht%elem_of_list_to_map_2. apply list_elem_of_In, in_map_iff in Ht as (x & [= _ ?] & _). done.
Qed.

Lemma pipes_reachable env files s : rtc (pipes_step env) (calling files) s -> pipes_ok s.
Proof. intros Hr. eapply steps_invariant; [|exact Hr|apply calling_ok]. intros. by apply pipe_step_ok. Qed.

(** ** What the processes learn of each other *)

(** No end of either pipe is in a table. *)
Definition no_ends (t : option table) : Prop := forall t' fd e, t = Some t' -> t' !! fd = Some e -> e = Other.

Lemma owns_none t f : owns t f [] -> no_ends (Some t).
Proof.
  intros Ho t' fd e [= <-] Ht. destruct (decide (e = Other)) as [|He]; [done|].
  by apply (Ho e fd He) in Ht as [?%elem_of_nil _].
Qed.

(** [C35] Each process learns what became of the other: whatever files either
    opens and closes meanwhile, in whatever order the two take their steps and
    whichever ends first, a [Start] that fails leaves no descriptor behind, and
    after one that succeeds [WaitPrepared] reads the report once it was written,
    the end of file once the successor has ended without it, and blocks
    otherwise; [Go] fails just when the successor has ended or has let go of the
    pipe, which it has when its wait was over before the timeout and, after a
    timeout, not before the read that was left behind is over; the successor's
    report fails just when the predecessor has ended, and its [WaitGo] reads the
    go-ahead once it was given, the end of file once the predecessor has ended
    without giving it, and blocks otherwise; a successor that goes on holds no end
    of either pipe, but for the read end of the go-ahead while such a read is
    left; and neither takes the other's message for given when it was not. *)
Theorem pipes_tell (env : gmap gostr gostr) (files : list nat) (s : world) (Hs : rtc (pipes_step env) (calling files) s) :
  (spc s = Closing [] None -> no_ends (p_tab s)) /\
  (forall t p, p_tab s = Some t -> spc s = Closing [] (Some p) ->
     (seen s = None -> fst <$> sys_read t (vars s PrepR) s =
        if wrote (cpc s) then Some (Message msgPrepared) else if alive_tab (s_tab s) then None else Some (ReadFails [EOF])) /\
     (goes s = GoNot -> (sys_write t (vars s GoW) msgGo s).1 = alive_tab (s_tab s) && negb (let_go (cpc s)))) /\
  (forall t, s_tab s = Some t ->
     (forall q, cpc s = CBoot q -> (sys_write t (Z.to_nat (prepared q)) msgPrepared s).1 = alive_tab (p_tab s)) /\
     (forall q, cpc s = CWait q -> fst <$> sys_read t (Z.to_nat (goAhead q)) s =
        if told_go (goes s) then Some (Message msgGo) else if alive_tab (p_tab s) then None else Some (ReadFails [EOF])) /\
     (forall w late fd e, cpc s = CRuns w late -> t !! fd = Some e -> e <> Other -> e = GoR /\ w = Some TimedOut /\ late <> None)) /\
  (forall w, seen s = Some w -> WaitPrepared w = None -> wrote (cpc s) = true) /\
  (forall w late, cpc s = CRuns (Some w) late -> WaitGo w = true -> told_go (goes s) = true).
Proof.
  apply pipes_reachable in Hs as Hok. split_and!.
  - intros Es t fd e Ht. apply (owns_none t (vars s)); [|done]. pose proof (i_p s Hok t Ht) as Ho. by rewrite Es in Ho.
  - intros t p Ht Es. split.
    + intros Hs0. destruct (read_prepared s t p Hok Ht Es Hs0) as [Hfd Hrd]. unfold sys_read. rewrite Hfd, Hrd.
      by destruct (wrote (cpc s)), (alive_tab (s_tab s)).
    + intros Hg. destruct (write_go s t p Hok Ht Es Hg) as [Hfd Hop]. unfold sys_write. rewrite Hfd, Hop.
      by destruct (alive_tab (s_tab s) && negb (let_go (cpc s))).
  - intros t Ht. split_and!.
    + intros q Ec. assert (q = mkPredecessor 3 4) as -> by (apply (i_fds s Hok); by rewrite Ec).
      unfold sys_write. change (Z.to_nat _) with (fd_c PrepW).
      rewrite (child_fd s t PrepW Hok Ht), (write_prepared s t Hok Ht); [|done|rewrite Ec; set_solver].
      by destruct (alive_tab (p_tab s)).
    + intros q Ec. assert (q = mkPredecessor 3 4) as -> by (apply (i_fds s Hok); by rewrite Ec).
      unfold sys_read. change (Z.to_nat _) with (fd_c GoR). rewrite (child_fd s t GoR Hok Ht); [|done|rewrite Ec; set_solver].
      rewrite (read_go s t _ Hok Ht Ec). by destruct (told_go (goes s)), (alive_tab (p_tab s)).
    + intros w late fd e Ec He Hne. pose proof (i_c s Hok t Ht) as Ho. rewrite Ec in Ho. apply (Ho e fd Hne) in He as [He _].
      destruct late as [q|]; [|by apply elem_of_nil in He]. apply list_elem_of_singleton in He. split_and!; [done| |done].
      by eapply (i_late s Hok).
  - intros w Hw Hp. pose proof (i_seen s Hok w Hw) as Hi. destruct w; naive_solver.
  - intros w late Hw Hp. pose proof (i_got s Hok w) as Hi. rewrite Hw in Hi. destruct w; naive_solver.
Qed.

(** ** Witnesses *)

Module PipesWitness.
Definition start_ : list pevent :=
  [PPipe (Some (5, 6)%nat); POpen 7; PPipe (Some (8, 9)%nat); PSpawn (Some 42%nat); CEnv; PClosed; PShut 7; PClosed].
Definition run_ (l : list pevent) : world := foldl (fun s e => p_exec ∅ e s) (calling [0; 1; 2]%nat) l.

Lemma run_reach l : plays (p_enabled ∅) (p_exec ∅) l (calling [0; 1; 2]%nat) -> rtc (pipes_step ∅) (calling [0; 1; 2]%nat) (run_ l).
Proof. apply plays_reach. Qed.

Definition ended : world := run_ (start_ ++ [CEnd]).
Definition left_alone : world := run_ (start_ ++ [CReport; CReportClose; PWait false; PEnd]).

(** The successor's wait times out and it goes on; a go-ahead after that is
    written, and read by nobody who waits for it. *)
Definition late : world := run_ (start_ ++ [CReport; CReportClose; PWait false; CWaitGo true; CGoClose; COpen 5]).
Lemma late_reach : rtc (pipes_step ∅) (calling [0; 1; 2]%nat) late.
Proof. apply run_reach. repeat (split; [eexists; vm_compute; reflexivity|]); exact I. Qed.

Lemma ended_reach : rtc (pipes_step ∅) (calling [0; 1; 2]%nat) ended.
Proof. apply run_reach. repeat (split; [eexists; vm_compute; reflexivity|]); exact I. Qed.
Lemma left_reach : rtc (pipes_step ∅) (calling [0; 1; 2]%nat) left_alone.
Proof. apply run_reach. repeat (split; [eexists; vm_compute; reflexivity|]); exact I. Qed.

(** The successor ends before it reports: its predecessor sees the end of file.
    It reports, and the predecessor ends: it sees the end of file. *)
Lemma pipes_tell_witness :
  (forall t, p_tab ended = Some t -> fst <$> sys_read t (vars ended PrepR) ended = Some (ReadFails [EOF])) /\
  (forall t q, s_tab left_alone = Some t -> cpc left_alone = CWait q ->
     fst <$> sys_read t (Z.to_nat (goAhead q)) left_alone = Some (ReadFails [EOF])) /\
  (cpc late = CRuns (Some TimedOut) (Some (mkPredecessor 3 4)) /\
   forall t, p_tab late = Some t -> (sys_write t (vars late GoW) msgGo late).1 = true).
Proof.
  split; [|split; [|split; [vm_compute; reflexivity|]]].
  - intros t Ht. assert (Es : spc ended = Closing [] (Some 42%nat)) by (vm_compute; reflexivity).
    assert (Hn : seen ended = None) by (vm_compute; reflexivity).
    rewrite (proj1 (proj1 (proj2 (pipes_tell ∅ [0; 1; 2]%nat ended ended_reach)) t 42%nat Ht Es) Hn).
    vm_compute. reflexivity.
  - intros t q Ht Ec.
    rewrite (proj1 (proj2 (proj1 (proj2 (proj2 (pipes_tell ∅ [0; 1; 2]%nat left_alone left_reach))) t Ht)) q Ec).
    vm_compute. reflexivity.
  - intros t Ht. assert (Es : spc late = Closing [] (Some 42%nat)) by (vm_compute; reflexivity).
    assert (Hn : goes late = GoNot) by (vm_compute; reflexivity).
    rewrite (proj2 (proj1 (proj2 (pipes_tell ∅ [0; 1; 2]%nat late late_reach)) t 42%nat Ht Es) Hn).
    vm_compute. reflexivity.
Defined.
End PipesWitness.
