(* ===== verification/Cli.v ===== *)
(** * The commands ([internal/cli]: [root.go], [version.go], [color.go], [doctor.go],
    [status.go], and [newEdgeCmd] and [newAgentCmd] of [run.go])

    What [coen doctor], [coen status], [coen edge] and [coen agent] do with a
    configuration file and a host, up to the point where a daemon serves, and
    what they print. *)

From S2P Require Import Prelude GoStrings Numeral IO Route Registry AgentConn H3Pool Config Obs Edge Metrics Pki Lifecycle Journal Tunnel Agent Handoff Daemon Proxy Doctor Files DropIn.
#[local] Open Scope Z_scope.

(** ** [root.go] and [version.go] *)

(** [run]: what is written to the error output, and the exit code; [err] is the
    text of the error the command returned. *)
Definition run (err : option gostr) : gostr * Z :=
  match err with
  | Some e => (bs "error: " ++ e ++ [LF], 1)
  | None => ([], 0)
  end.

Definition version_cmd (version : gostr) : gostr := bs "coen " ++ version ++ [LF].

(** ** [color.go] *)

Definition ESC : ascii := byte 27.
Definition ansiGreen : gostr := ESC :: bs "[32m".
Definition ansiRed : gostr := ESC :: bs "[31m".
Definition ansiReset : gostr := ESC :: bs "[0m".

(** [colorEnabled]; [file] is the mode of the writer's file, when it is a file:
    whether it is a character device, [None] inside when [Stat] fails. *)
Definition colorEnabled (env : gmap gostr gostr) (file : option (option bool)) : bool :=
  if negb (beq (default [] (env !! bs "NO_COLOR")) []) then false
  else if beq (default [] (env !! bs "TERM")) (bs "dumb") then false
  else match file with
       | Some (Some device) => device
       | _ => false
       end.

Definition paint (s color : gostr) (on : bool) : gostr := if negb on then s else color ++ s ++ ansiReset.

(** ** [doctor.go] *)

(** Why a command ends with an error. *)
Inductive cmd_error :=
| NoDaemonFound | TwoRoles | WrongRole
| LoadError (e : load_error)
| Problems (n : nat)
| LogError (e : log_error)
| MaterialError | AgentError (e : new_error) | TurnError (e : turn_error)
| MetricsListen | RunError (e : run_error).

(** The role and the configuration it looks at; [ds] are the running daemons. *)
Definition doctor_target (ds : list daemon) (role cfgPath : gostr) : result cmd_error (gostr * gostr) :=
  let? (role, cfgPath) :=
    if beq role [] then
      match detectRole ds with
      | Err errNoDaemon => Err NoDaemonFound
      | Err BothRoles => Err TwoRoles
      | Ok (r, c) => Ok (r, if beq cfgPath [] then c else cfgPath)
      end
    else Ok (role, cfgPath) in
  Ok (role, if beq cfgPath [] && (beq role (bs "edge") || beq role (bs "agent")) then default_config role else cfgPath).

(** The lines of the plain output. *)
Definition check_mark : gostr := [byte 226; byte 156; byte 147].
Definition cross_mark : gostr := [byte 226; byte 156; byte 151].

Definition result_text (color : bool) (r : Result) : gostr :=
  (if OK r then paint check_mark ansiGreen color else paint cross_mark ansiRed color) ++
  bs " " ++ Name r ++ bs " - " ++ Detail r ++ [LF] ++
  (if negb (OK r) && negb (beq (Hint r) []) then bs "    hint: " ++ Hint r ++ [LF] else []).

Definition doctor_text (color : bool) (role cfgPath : gostr) (rs : list Result) : gostr :=
  bs "coen doctor: " ++ role ++ bs " checks (config: " ++ cfgPath ++ bs ")" ++ [LF; LF] ++ concat (map (result_text color) rs).

Section commands.
Context `{Unicode} `{Net} `{JSON} (h : host) (d : fs).
Context (edge_of : gostr -> option EdgeConfig) (edge_routes : gostr -> option (list EdgeRoute)).
Context (agent_of : gostr -> option AgentConfig) (agent_routes : gostr -> option (list AgentRoute)).

Definition loading {A} (r : result load_error A) : result cmd_error A :=
  match r with Ok a => Ok a | Err e => Err (LoadError e) end.

(** The checks of a role. *)
Definition doctor_results (role cfgPath : gostr) : result cmd_error (list Result) :=
  if beq role (bs "edge") then
    let? c := loading (LoadEdgeFile edge_of edge_routes d cfgPath) in Ok (CheckEdge h c)
  else if beq role (bs "agent") then
    let? c := loading (LoadAgentFile agent_of agent_routes d cfgPath) in Ok (CheckAgent h c).1
  else Err WrongRole.

(** [coen doctor]: what it prints and the error it ends with.  [json] is the text
    of [--json], when it is asked for. *)
Definition doctor_cmd (ds : list daemon) (json : option (list Result -> gostr)) (color : bool) (role cfgPath : gostr)
    : gostr * option cmd_error :=
  match doctor_target ds role cfgPath with
  | Err e => ([], Some e)
  | Ok (role, cfgPath) =>
      match doctor_results role cfgPath with
      | Err e => ([], Some e)
      | Ok rs =>
          (match json with Some f => f rs ++ [LF] | None => doctor_text color role cfgPath rs end,
           let n := countFailures rs in if (0 <? n)%nat then Some (Problems n) else None)
      end
  end.

(** ** [newEdgeCmd] and [newAgentCmd] *)

Definition with_version (v : gostr) (c : EdgeConfig) : EdgeConfig :=
  mkEdgeConfig (Ingress c) (Tunnel c) (Routes c) (Drain c) (e_AgentWait c) (e_Log c) (e_Admin c) (Metrics c) v.
Definition with_agent_version (v : gostr) (c : AgentConfig) : AgentConfig :=
  mkAgentConfig (Config.Edge c) (a_Routes c) (Config.Reconnect c) (a_Drain c) (a_Log c) (a_Admin c) (a_Metrics c) v.

Definition logging (r : result log_error (Z * gostr)) : result cmd_error Z :=
  match r with Ok (lv, _) => Ok lv | Err e => Err (LogError e) end.

(** What the certificates of a role load to, with the fingerprint of its own. *)
Definition material (ca cert key : gostr) (leaf : option gostr) : option (option gostr) :=
  if LoadMaterial h ca cert key then Some leaf else None.

(** The start of [runDaemon]: the metrics listener. *)
Definition metrics_start (addr role : gostr) : result cmd_error binding :=
  match bindMetrics addr (listen_of h addr) (h_probe h addr) role with
  | BindFails => Err MetricsListen
  | b => Ok b
  end.

(** What the process listens on when its [Run] starts. *)
Definition held_by (b : binding) (addr : gostr) : list gostr := match b with BoundNow => given addr | _ => [] end.

(** [coen edge], until its [Run] returns: the log level it starts with, its
    state and its metrics listener, and what [Run] did.  [starts], [dies] and
    [port] are what HTTP/3 meets; [journal] is whether the log goes to journald. *)
Definition edge_cmd (version : gostr) (journal : bool) (leaf : option gostr) (now : Z) (starts dies : bool) (port : Z) (cfgPath : gostr)
    : result cmd_error (Z * (Lifecycle.edge * State) * binding * list life) :=
  let? c := loading (LoadEdgeFile edge_of edge_routes d cfgPath) in
  let c := with_version version c in
  let? lv := logging (NewLogger (Level (e_Log c)) (Format (e_Log c)) journal) in
  let t := Tunnel c in
  match Lifecycle.New c (material (tn_CA t) (tn_Cert t) (tn_Key t) leaf) (NewState (bs "edge") now) with
  | None => Err MaterialError
  | Some e =>
      let? b := metrics_start (m_Listen (Metrics c)) (bs "edge") in
      match Lifecycle.Run c (env_of h c (held_by b (m_Listen (Metrics c))) starts dies port) with
      | (l, None) => Ok (lv, e, b, l)
      | (_, Some err) => Err (RunError err)
      end
  end.

(** [coen agent], until its [Run] starts; [env] is its environment, [reported]
    and [w] what the pipes of a handoff give. *)
Definition agent_cmd (version : gostr) (journal : bool) (leaf : option gostr) (now : Z)
    (env : gmap gostr gostr) (reported : bool) (w : waited) (cfgPath : gostr)
    : result cmd_error (Z * (Agent * State) * turn * binding) :=
  let? c := loading (LoadAgentFile agent_of agent_routes d cfgPath) in
  let c := with_agent_version version c in
  let? lv := logging (NewLogger (Level (a_Log c)) (Format (a_Log c)) journal) in
  let e := Config.Edge c in
  match Agent.New c (material (er_CA e) (er_Cert e) (er_Key e) leaf) (NewState (bs "agent") now) with
  | Err err => Err (AgentError err)
  | Ok a =>
      match awaitTurn env reported w with
      | Err err => Err (TurnError err)
      | Ok t => let? b := metrics_start (m_Listen (a_Metrics c)) (bs "agent") in Ok (lv, a, t, b)
      end
  end.
End commands.

(** ** The preflight *)

Lemma loading_ok {A} (r : result load_error A) a : loading r = Ok a -> r = Ok a.
Proof. destruct r; naive_solver. Qed.

Section preflight.
Context `{Unicode} `{Net} `{JSON} (h : host) (d : fs).
Context (edge_of : gostr -> option EdgeConfig) (edge_routes : gostr -> option (list EdgeRoute)).
Context (agent_of : gostr -> option AgentConfig) (agent_routes : gostr -> option (list AgentRoute)).

Lemma LoadEdgeFile_valid path c : LoadEdgeFile edge_of edge_routes d path = Ok c -> Validate c = Ok tt.
Proof.
  unfold LoadEdgeFile. intros (c0 & _ & (files & _ & Hl)%rbind_ok)%rbind_ok. unfold invalid in Hl.
  destruct (LoadEdge _ c0 files) as [c1|] eqn:E; [|done]. injection Hl as ->. revert E. unfold LoadEdge.
  destruct (loadRoutes _ _ _) as [routes origins]. intros ([] & Hv & (? & _ & [= <-])%rbind_ok)%rbind_ok. done.
Qed.

(** An exit without an error: every check of the role's configuration passed. *)
Lemma doctor_passed ds json color role path :
  role <> [] -> path <> [] -> (doctor_cmd h d edge_of edge_routes agent_of agent_routes ds json color role path).2 = None ->
  exists rs, doctor_results h d edge_of edge_routes agent_of agent_routes role path = Ok rs /\ countFailures rs = 0%nat.
Proof.
  intros Hr Hp. unfold doctor_cmd, doctor_target. apply beq_false in Hr as ->. cbn [rbind]. apply beq_false in Hp as ->. cbn [andb].
  destruct (doctor_results _ _ _ _ _ _ role path) as [rs|]; [|done]. cbn [snd]. intros Hn. exists rs. split; [done|].
  destruct (0 <? countFailures rs)%nat eqn:E; [done|]. apply Nat.ltb_ge in E. lia.
Qed.

(** The metrics check of an agent is one of its results. *)
Lemma CheckAgent_metrics c : m_Listen (a_Metrics c) <> [] ->
  checkMetricsBind h (m_Listen (a_Metrics c)) (bs "agent") ∈ (CheckAgent h c).1.
Proof.
  intros Hm. apply beq_false in Hm. unfold CheckAgent. rewrite Hm. cbn [negb].
  destruct (OK (ca_parse h _ _)); cbn [negb fst]; [|set_solver].
  destruct (SplitHostPort _) as [[host_ port]|]; cbn [fst]; [|set_solver].
  destruct (reach_edge h c host_ port _) as [[rs cs] []]; cbn [negb fst]; set_solver.
Qed.

Lemma metrics_starts addr role : (addr = [] \/ OK (checkMetricsBind h addr role) = true) -> (forall a, h_probe h a = None) ->
  exists b, metrics_start h addr role = Ok b.
Proof.
  intros Hok Hnone. unfold metrics_start, bindMetrics. destruct (beq addr []) eqn:E; [by eexists|].
  destruct Hok as [->|Hok]; [done|]. apply bindCheck_ok in Hok; [|cbn [snd]; by rewrite Hnone].
  unfold listen_of. rewrite Hok. by eexists.
Qed.

(** [C30] The preflight holds what it promises: on a host where no daemon is
    running, a configuration file that [coen doctor] passes for a role (it exits
    without an error) is one that [coen edge], or [coen agent] started normally,
    starts with: the file and its drop-ins load and are valid, the certificates
    load, the edge or agent is built, the metrics port is bound, and every
    listener of the edge is opened.  Only three things can still stop the start,
    and the doctor looks at none of them: the log settings; HTTP/3 itself; and,
    since the edge keeps each listener while it opens the next but the doctor
    tries them one after the other, two of the edge's own TCP addresses that
    cannot be listened on together. *)
Theorem preflight (ds : list daemon) (json : option (list Result -> gostr)) (color : bool) (path : gostr)
    (version : gostr) (journal : bool) (leaf : option gostr) (now : Z) (starts dies : bool) (port : Z)
    (env : gmap gostr gostr) (reported : bool) (w : waited)
    (Hp : path <> []) (Henv : env !! envFDs = None)
    (Hidle : forall s, h_status h s = None) (Hnone : forall a, h_probe h a = None) :
  ((doctor_cmd h d edge_of edge_routes agent_of agent_routes ds json color (bs "edge") path).2 = None ->
   match edge_cmd h d edge_of edge_routes version journal leaf now starts dies port path with
   | Ok _ => True
   | Err (LogError _) => True
   | Err (RunError HTTP3Start) => starts = false
   | Err (RunError (TunnelListen | IngressListen)) =>
       exists c, LoadEdgeFile edge_of edge_routes d path = Ok c /\ clashing h c = true
   | Err _ => False
   end) /\
  ((doctor_cmd h d edge_of edge_routes agent_of agent_routes ds json color (bs "agent") path).2 = None ->
   match agent_cmd h d agent_of agent_routes version journal leaf now env reported w path with
   | Ok (_, _, t, _) => t = NormalStart
   | Err (LogError _) => True
   | Err _ => False
   end).
Proof.
  split; intros (rs & Hrs & Hok)%doctor_passed; try done; revert Hrs; unfold doctor_results; cbn [beq];
    [change (beq _ (bs "edge")) with true|change (beq _ (bs "edge")) with false; change (beq _ (bs "agent")) with true]; cbn iota;
    intros (c & Hl%loading_ok & [= <-])%rbind_ok.
  - unfold edge_cmd. rewrite Hl. cbn [loading rbind]. destruct (logging _) as [lv|[]] eqn:Elog; try (by unfold logging in Elog; destruct (NewLogger _ _ _) as [[]|]).
    cbn [rbind]. pose proof (LoadEdgeFile_valid _ _ Hl) as Hv.
    pose proof (fun held Hh => doctor_edge_starts h c leaf (NewState (bs "edge") now) held starts dies port Hv Hok Hh Hidle Hnone) as Hd.
    destruct (Hd [] (or_intror eq_refl)) as (Hnew & _ & Hmet & _).
    change (Tunnel (with_version version c)) with (Tunnel c). unfold material.
    destruct (LoadMaterial h _ _ _); [|by destruct Hnew]. cbn [Lifecycle.New].
    destruct (metrics_start h _ _) as [b|e] eqn:Em; [|exfalso].
    + cbn [rbind]. change (Lifecycle.Run (with_version version c)) with (Lifecycle.Run c).
      change (env_of h (with_version version c)) with (env_of h c). change (Metrics (with_version version c)) with (Metrics c).
      destruct (Hd (held_by b (m_Listen (Metrics c)))) as (_ & Hrun & _); [destruct b; auto|].
      destruct (Lifecycle.Run c _) as [l [err|]]; [|done]. destruct (Hrun err eq_refl) as [[-> ?]|[[-> | ->] ?]]; eauto.
    + revert Em. unfold metrics_start. change (Metrics (with_version version c)) with (Metrics c). by destruct (bindMetrics _ _ _ _).
  - unfold agent_cmd. rewrite Hl. cbn [loading rbind]. destruct (logging _) as [lv|[]] eqn:Elog; try (by unfold logging in Elog; destruct (NewLogger _ _ _) as [[]|]).
    cbn [rbind]. destruct (CheckAgent h c) as [rs cs] eqn:Ec.
    destruct (doctor_agent_sound h c rs cs Ec) as (_ & _ & Hsound). destruct (Hsound Hok) as (Hmat & (host_ & port_ & Hsp & _) & _).
    change (Config.Edge (with_agent_version version c)) with (Config.Edge c). unfold material. rewrite Hmat. unfold Agent.New.
    change (Config.Edge (with_agent_version version c)) with (Config.Edge c). rewrite Hsp.
    unfold awaitTurn, FromEnv. rewrite Henv. cbn [snd].
    destruct (metrics_starts (m_Listen (a_Metrics c)) (bs "agent")) as [b Hb]; [|done|].
    { destruct (decide (m_Listen (a_Metrics c) = [])) as [|Hm]; [by left|right]. apply no_failures in Hok. rewrite Forall_forall in Hok.
      apply Hok. pose proof (CheckAgent_metrics c Hm) as Hin. by rewrite Ec in Hin. }
    change (a_Metrics (with_agent_version version c)) with (a_Metrics c). by rewrite Hb.
Qed.
End preflight.

(** ** Witnesses *)

Module CliWitness.
#[local] Existing Instance ascii_only.
#[local] Existing Instance ConfigWitness.no_net.
#[local] Existing Instance TunnelWitness.no_json.

Definition path : gostr := bs "/etc/coen/edge.yaml".
Definition disk : fs := (WriteFile DropInWitness.free path (bs "edge") (MkdirAll DropInWitness.free (bs "/etc/coen") ∅).1).1.

(** [DoctorWitness.edge1] with a log level. *)
Definition leveled (level : gostr) : EdgeConfig :=
  let c := DoctorWitness.edge1 in
  mkEdgeConfig (Ingress c) (Tunnel c) (Routes c) (Drain c) (e_AgentWait c) (mkLog level []) (e_Admin c) (Metrics c) (e_Version c).
Definition file (level : string) (b : gostr) : option EdgeConfig := if beq b (bs "edge") then Some (leveled (bs level)) else None.

Definition doctor_on (level : string) : gostr * option cmd_error :=
  doctor_cmd DoctorWitness.fresh disk (file level) (fun _ => None) (fun _ => None) (fun _ => None) [] None false (bs "edge") path.
Definition edge_on (level : string) : result cmd_error (Z * (Lifecycle.edge * State) * binding * list life) :=
  edge_cmd DoctorWitness.fresh disk (file level) (fun _ => None) (bs "dev") false None 0 true false 443 path.

Lemma preflight_witness : (doctor_on "debug").2 = None /\
  match edge_on "debug" with
  | Ok _ => True
  | Err (LogError _) => True
  | Err (RunError HTTP3Start) => true = false
  | Err (RunError (TunnelListen | IngressListen)) =>
      exists c, LoadEdgeFile (file "debug") (fun _ => None) disk path = Ok c /\ clashing DoctorWitness.fresh c = true
  | Err _ => False
  end.
Proof.
  split; [vm_compute; reflexivity|]. unfold edge_on.
  pose proof (preflight DoctorWitness.fresh disk (file "debug") (fun _ => None) (fun _ => None) (fun _ => None) [] None false path
    (bs "dev") false None 0 true false 443 ∅ false TimedOut) as Hpre.
  assert (H1 : path <> []) by discriminate.
  assert (H2 : (∅ : gmap gostr gostr) !! envFDs = None) by reflexivity.
  assert (H3 : forall s, h_status DoctorWitness.fresh s = None) by reflexivity.
  assert (H4 : forall s, h_probe DoctorWitness.fresh s = None) by reflexivity.
  specialize (Hpre H1 H2 H3 H4).
  destruct Hpre as [Hpre _].
  apply Hpre.
  vm_compute. reflexivity.
Defined.

(** An edge whose tunnel and ingress have the same address passes too, and its
    [Run] cannot open the ingress. *)
Definition twice : EdgeConfig :=
  let c := DoctorWitness.edge1 in
  mkEdgeConfig (Ingress c) (mkTunnelServer (i_Listen (Ingress c)) (tn_CA (Tunnel c)) (tn_Cert (Tunnel c)) (tn_Key (Tunnel c)) false)
    (Routes c) (Drain c) (e_AgentWait c) (mkLog (bs "debug") []) (e_Admin c) (Metrics c) (e_Version c).
Definition twice_file (b : gostr) : option EdgeConfig := if beq b (bs "edge") then Some twice else None.

Lemma doctor_passes_clash :
  (doctor_cmd DoctorWitness.fresh disk twice_file (fun _ => None) (fun _ => None) (fun _ => None) [] None false (bs "edge") path).2 = None /\
  edge_cmd DoctorWitness.fresh disk twice_file (fun _ => None) (bs "dev") false None 0 true false 443 path = Err (RunError IngressListen).
Proof. split; vm_compute; reflexivity. Qed.

(** The log settings are not among the checks: a level that no logger has passes,
    and keeps the edge from starting. *)
Lemma doctor_passes_bad_level : (doctor_on "verbose").2 = None /\ edge_on "verbose" = Err (LogError (UnknownLevel (bs "verbose"))).
Proof. split; vm_compute; reflexivity. Qed.

Example doctor_prints : (doctor_on "debug").1 <> [] /\ run None = ([], 0) /\ (run (Some (bs "x"))).2 = 1.
Proof. split; [vm_compute; discriminate|done]. Qed.
End CliWitness.
