(* ===== verification/Status.v ===== *)
(** * What [coen status] shows ([internal/cli/status.go])

    The rendering of a snapshot, with the part of [time.Format] it uses; how the
    snapshot is fetched is [Admin] and which socket is asked is [Daemon]. *)

From S2P Require Import Prelude GoStrings Numeral IO Obs Metrics Daemon Cli.
#[local] Open Scope Z_scope.

(** ** [time.Format] with 2006-01-02 15:04:05 *)

(** The civil date of a day counted from 1970-01-01. *)
Definition civil (z : Z) : Z * Z * Z :=
  let z := z + 719468 in
  let era := z / 146097 in
  let doe := z mod 146097 in
  let yoe := (doe - doe / 1460 + doe / 36524 - doe / 146096) / 365 in
  let doy := doe - (365 * yoe + yoe / 4 - yoe / 100) in
  let mp := (5 * doy + 2) / 153 in
  let day := doy - (153 * mp + 2) / 5 + 1 in
  let month := if mp <? 10 then mp + 3 else mp - 9 in
  (yoe + era * 400 + (if month <=? 2 then 1 else 0), month, day).

(** A number of at least [w] digits. *)
Definition pad (w : nat) (n : Z) : gostr := let t := Itoa n in replicate (w - length t) "0"%char ++ t.

(** An instant in nanoseconds since 1970; [zone] is the offset of the instant's
    zone from UTC in seconds. *)
Definition Format (zone : Z -> Z) (ns : Z) : gostr :=
  let secs := ns / 10 ^ 9 in
  let secs := secs + zone secs in
  let '(y, m, d) := civil (secs / 86400) in
  let t := secs mod 86400 in
  pad 4 y ++ bs "-" ++ pad 2 m ++ bs "-" ++ pad 2 d ++ bs " " ++
  pad 2 (t / 3600) ++ bs ":" ++ pad 2 (t / 60 mod 60) ++ bs ":" ++ pad 2 (t mod 60).

Example Format_leap : Format (fun _ => 0) (1709210096 * 10 ^ 9) = bs "2024-02-29 12:34:56".
Proof. vm_compute. reflexivity. Qed.
Example Format_zone : Format (fun _ => 7200) (1735682400 * 10 ^ 9) = bs "2025-01-01 00:00:00".
Proof. vm_compute. reflexivity. Qed.
Example Format_zero : Format (fun _ => 0) zero_time = bs "0001-01-01 00:00:00".
Proof. vm_compute. reflexivity. Qed.

(** ** Rendering *)

Definition plural (n : Z) (word : gostr) : gostr :=
  if n =? 1 then bs "1 " ++ word else Itoa n ++ bs " " ++ word ++ bs "s".

Definition agentIP (remoteAddr : gostr) : gostr :=
  if beq remoteAddr [] then bs "unknown"
  else match SplitHostPort remoteAddr with
       | Ok (host, _) => host
       | Err _ => remoteAddr
       end.

(** The first loop of [renderEdgeStatus]: the fingerprints, and the sessions that
    drain. *)
Definition tally_agents (agents : list AgentInfo) : gset gostr * Z :=
  foldl (fun '(fps, n) a => ({[Fingerprint a]} ∪ fps, if ai_Draining a then n + 1 else n)) (∅, 0) agents.

Definition agents_line (agents : list AgentInfo) : gostr :=
  let '(fps, draining) := tally_agents agents in
  let n := Z.of_nat (length agents) in
  let c := Z.of_nat (size fps) in
  bs "agents:     " ++
  (if (n =? c) && (draining =? 0) then Itoa c ++ bs " connected"
   else if draining =? 0 then plural n (bs "session") ++ bs ", " ++ plural c (bs "certificate")
   else plural n (bs "session") ++ bs " (" ++ Itoa draining ++ bs " draining), " ++ plural c (bs "certificate")).

Definition session_line (zone : Z -> Z) (a : AgentInfo) : gostr :=
  bs "  - " ++ agentIP (RemoteAddr a) ++ bs " (" ++ Format zone (ai_ConnectedSince a) ++ bs ", " ++ Fingerprint a ++
  (if ai_Draining a then bs ", draining" else []) ++ bs ")".

Definition self_line (s : Snapshot) : list gostr :=
  if negb (beq (SelfFingerprint s) []) then [bs "self_fp:    " ++ SelfFingerprint s] else [].

Definition stream_lines (s : Snapshot) : list gostr :=
  [bs "streams:    " ++ Itoa (s_cnt s activeStreams) ++ bs " active / " ++ Itoa (s_cnt s maxStreams) ++ bs " max";
   bs "bytes:      " ++ Itoa (s_BytesIn s) ++ bs " in / " ++ Itoa (s_BytesOut s) ++ bs " out"].

Definition renderEdgeStatus (zone : Z -> Z) (s : Snapshot) : list gostr :=
  self_line s ++ [agents_line (Agents s)] ++ map (session_line zone) (Agents s) ++ stream_lines s ++
  [bs "handshakes: " ++ Itoa (s_cnt s handshakeOK) ++ bs " ok / " ++ Itoa (s_cnt s handshakeFail) ++ bs " fail / " ++
   Itoa (s_cnt s handshakeRejected) ++ bs " rejected" ++
   (if (0 <? s_cnt s handshakeDup) || (0 <? s_cnt s handshakeCapped)
    then bs " / " ++ Itoa (s_cnt s handshakeDup) ++ bs " duplicate / " ++ Itoa (s_cnt s handshakeCapped) ++ bs " capped" else [])].

Definition renderAgentStatus (zone : Z -> Z) (s : Snapshot) : list gostr :=
  self_line s ++
  (if TunnelConnected s
   then [bs "tunnel:     connected"; bs "since:      " ++ Format zone (default zero_time (ConnectedSince s));
         bs "peer_fp:    " ++ PeerFingerprint s]
   else [bs "tunnel:     disconnected"]) ++
  [bs "reconnects: " ++ Itoa (s_cnt s reconnects)] ++ stream_lines s ++
  [bs "handshakes: " ++ Itoa (s_cnt s handshakeOK) ++ bs " ok / " ++ Itoa (s_cnt s handshakeFail) ++ bs " fail"].

(** [renderStatus] as the lines it writes; [json] is the text of [--json]. *)
Definition renderStatus (zone : Z -> Z) (json : option (Snapshot -> gostr)) (s : Snapshot) : list gostr :=
  match json with
  | Some f => [f s]
  | None =>
      (if negb (beq (s_Role s) []) then [bs "role:       " ++ s_Role s] else []) ++
      (if beq (s_Role s) (bs "edge") then renderEdgeStatus zone s
       else if beq (s_Role s) (bs "agent") then renderAgentStatus zone s
       else renderAgentStatus zone s ++ renderEdgeStatus zone s) ++
      (if negb (beq (LastError s) []) then [bs "last_error: " ++ LastError s] else [])
  end.

(** [coen status]: the lines, or why there are none; [ask] is what a socket
    answers. *)
Inductive status_fails := NoSocketFound (e : status_error) | NoAnswer (socket : gostr).

Definition status_cmd (socketOf : gostr -> gostr -> option gostr) (ask : gostr -> option Snapshot) (zone : Z -> Z)
    (json : option (Snapshot -> gostr)) (ds : list daemon) (socket role cfgPath : gostr) : result status_fails (list gostr) :=
  let? socket :=
    if beq socket [] then
      match resolveStatusSocket socketOf role cfgPath ds with Ok s => Ok s | Err e => Err (NoSocketFound e) end
    else Ok socket in
  match ask socket with
  | Some snap => Ok (renderStatus zone json snap)
  | None => Err (NoAnswer socket)
  end.

(** ** Reading it *)

Definition space : ascii := " "%char.

(** The numbers of sessions, certificates and draining sessions an [agents:] line
    tells. *)
Definition read_agents (line : gostr) : option (N * N * N) :=
  t ← CutPrefix line (bs "agents:     ");
  match Split t [space] with
  | [n; _] => n ← parse_number 10 n; Some (n, n, 0%N)
  | [n; _; c; _] => n ← parse_number 10 n; c ← parse_number 10 c; Some (n, c, 0%N)
  | [n; _; k; _; c; _] =>
      n ← parse_number 10 n; k ← CutPrefix k (bs "("); k ← parse_number 10 k; c ← parse_number 10 c; Some (n, c, k)
  | _ => None
  end.

Definition certificates (l : list AgentInfo) : gset gostr := list_to_set (map Fingerprint l).
Definition leaving (l : list AgentInfo) : list AgentInfo := List.filter ai_Draining l.

Lemma tally_spec l : tally_agents l = (certificates l, Z.of_nat (length (leaving l))).
Proof.
  unfold tally_agents. assert (Hg : forall fps n, foldl (fun '(fps, n) a => ({[Fingerprint a]} ∪ fps, if ai_Draining a then n + 1 else n)) (fps, n) l =
    (certificates l ∪ fps, n + Z.of_nat (length (leaving l)))).
  { induction l as [|a l IH]; intros fps n; cbn [foldl]; [f_equal; [set_solver|cbn; lia]|]. rewrite IH. unfold certificates, leaving. cbn [map list_to_set List.filter].
    destruct (ai_Draining a); cbn [length]; (apply pair_eq; split; [set_solver|lia]). }
  rewrite Hg. apply pair_eq; split; [set_solver|lia].
Qed.

(** A number and its word, as two words. *)
Lemma plural_words n word : exists w, plural n word = Join [Itoa n; w] [space] /\ (space ∉ word -> space ∉ w).
Proof.
  unfold plural. destruct (Z.eqb_spec n 1) as [->|].
  - exists word. by split.
  - exists (word ++ bs "s"). split; [done|]. intros Hw. apply not_elem_of_app. split; [done|]. by apply (bool_decide_unpack _).
Qed.

(** The line says how many sessions there are, with how many certificates, and
    how many of them drain. *)
Lemma agents_line_reads l :
  read_agents (agents_line l) =
  Some (N.of_nat (length l), N.of_nat (size (certificates l)), N.of_nat (length (leaving l))).
Proof.
  unfold read_agents, agents_line. rewrite tally_spec.
  set (n := length l). set (c := size (certificates l)). set (k := length (leaving l)).
  assert (Hp : forall x, parse_number 10 (Itoa (Z.of_nat x)) = Some (N.of_nat x)) by (intros x; rewrite parse_Itoa by lia; f_equal; lia).
  assert (Hs : forall x, space ∉ Itoa (Z.of_nat x)) by (intros x; apply Itoa_avoid; [lia|done]).
  destruct (plural_words (Z.of_nat n) (bs "session")) as (w1 & -> & H1).
  destruct (plural_words (Z.of_nat c) (bs "certificate")) as (w2 & -> & H2).
  specialize (H1 ltac:(by apply (bool_decide_unpack _))). specialize (H2 ltac:(by apply (bool_decide_unpack _))).
  rewrite (proj2 (CutPrefix_Some _ _ _) eq_refl). cbn [mbind option_bind].
  destruct ((Z.of_nat n =? Z.of_nat c) && (Z.of_nat k =? 0)) eqn:E1; [|destruct (Z.of_nat k =? 0) eqn:E2].
  - apply andb_true_iff in E1 as [->%Z.eqb_eq%Nat2Z.inj E2%Z.eqb_eq]. replace k with 0%nat by lia.
    change (Itoa (Z.of_nat c) ++ bs " connected") with (Join [Itoa (Z.of_nat c); bs "connected"] [space]).
    rewrite Split_byte. { by rewrite Hp. }
    rewrite !Forall_cons, Forall_nil. split_and!; [apply Hs|by apply (bool_decide_unpack _)|done].
  - replace k with 0%nat by lia.
    replace (Join [Itoa (Z.of_nat n); w1] [space] ++ bs ", " ++ Join [Itoa (Z.of_nat c); w2] [space])
      with (Join [Itoa (Z.of_nat n); w1 ++ bs ","; Itoa (Z.of_nat c); w2] [space]) by (cbn [Join]; by rewrite <- !app_assoc).
    rewrite Split_byte. { by rewrite !Hp. }
    rewrite !Forall_cons, Forall_nil. split_and!; try done; try apply Hs. apply not_elem_of_app. split; [done|by apply (bool_decide_unpack _)].
  - replace (Join [Itoa (Z.of_nat n); w1] [space] ++ bs " (" ++ Itoa (Z.of_nat k) ++ bs " draining), " ++ Join [Itoa (Z.of_nat c); w2] [space])
      with (Join [Itoa (Z.of_nat n); w1; bs "(" ++ Itoa (Z.of_nat k); bs "draining),"; Itoa (Z.of_nat c); w2] [space])
      by (cbn [Join]; by rewrite <- !app_assoc).
    rewrite Split_byte. { rewrite (proj2 (CutPrefix_Some _ _ _) eq_refl). cbn [mbind option_bind]. by rewrite !Hp. }
    rewrite !Forall_cons, Forall_nil. split_and!; try done; try apply Hs; [|by apply (bool_decide_unpack _)].
    apply not_elem_of_app. split; [by apply (bool_decide_unpack _)|apply Hs].
Qed.

(** The sessions listed in a state, in the order of their addresses. *)
Definition listed (s : State) : list AgentSession := omap (fun a => sessions s !! a) (elements (agents s)).

Lemma listed_length s : (forall a, a ∈ agents s -> is_Some (sessions s !! a)) -> length (listed s) = size (agents s).
Proof.
  intros Hh. unfold listed, size, set_size. cbn. assert (Hl : forall l, (forall a, a ∈ l -> is_Some (sessions s !! a)) ->
    length (omap (fun a => sessions s !! a) l) = length l).
  { induction l as [|a l IH]; intros Hl; [done|]. destruct (Hl a) as [x Hx]; [by left|].
    cbn [omap list_omap]. rewrite Hx. cbn [length]. f_equal. apply IH. intros b Hb. apply Hl. by right. }
  apply Hl. intros a Ha. by apply Hh, elem_of_elements.
Qed.

Lemma shown_perm s aorder rs : aorder ≡ₚ elements (agents s) -> Agents (snapshot aorder rs s) ≡ₚ map agent_info (listed s).
Proof.
  intros Ho. unfold snapshot. destruct (foldl _ _ rs) as [i o]. cbn [Agents]. rewrite stable_sort_perm. rewrite Ho. unfold listed. clear Ho.
  induction (elements (agents s)) as [|a l IH]; [done|]. cbn. destruct (sessions s !! a); cbn; [by rewrite IH|done].
Qed.

Lemma leaving_perm l l' : l ≡ₚ l' -> length (leaving l) = length (leaving l').
Proof. intros Hp. by apply Permutation_length, filter_perm. Qed.

Lemma leaving_info l : length (leaving (map agent_info l)) = length (List.filter as_draining l).
Proof.
  unfold leaving. induction l as [|x l IH]; [done|]. cbn [map List.filter]. change (ai_Draining (agent_info x)) with (as_draining x).
  destruct (as_draining x); cbn [length]; congruence.
Qed.

(** [coen status] tells the truth about an edge's agents: whatever order the
    counters' maps are visited in, the output has one line per session of the
    state's list and no other, after a line from which the number of sessions, of
    different certificates among them, and of draining sessions can be read,
    however it is worded. *)
Theorem status_tells (zone : Z -> Z) (s : State) (aorder : list nat) (rs : list RouteSnapshot)
    (Hrole : role s = bs "edge") (Horder : aorder ≡ₚ elements (agents s))
    (Hheap : forall a, a ∈ agents s -> is_Some (sessions s !! a)) :
  exists before line l after,
    renderStatus zone None (snapshot aorder rs s) = before ++ line :: map (session_line zone) l ++ after /\
    l ≡ₚ map agent_info (listed s) /\
    read_agents line = Some (N.of_nat (size (agents s)),
      N.of_nat (size (list_to_set (map as_fp (listed s)) : gset gostr)),
      N.of_nat (length (List.filter as_draining (listed s)))).
Proof.
  pose proof (shown_perm s aorder rs Horder) as Hp. set (snap := snapshot aorder rs s) in *.
  assert (Hr : s_Role snap = bs "edge"). { unfold snap, snapshot. by destruct (foldl _ _ rs). }
  exists ((bs "role:       " ++ bs "edge") :: self_line snap), (agents_line (Agents snap)), (Agents snap).
  eexists. split_and!; [|exact Hp|].
  - unfold renderStatus, renderEdgeStatus. rewrite Hr. change (beq (bs "edge") []) with false. change (beq (bs "edge") (bs "edge")) with true. cbn [negb app].
    rewrite <- !app_assoc. cbn [app]. rewrite <- !app_assoc. reflexivity.
  - rewrite agents_line_reads. rewrite <- listed_length by done.
    assert (Hc : certificates (Agents snap) = list_to_set (map as_fp (listed s))).
    { unfold certificates. apply set_eq. intros x. rewrite Hp, map_map. done. }
    rewrite Hc, (leaving_perm _ _ Hp), leaving_info, (Permutation_length Hp), length_map. done.
Qed.

(** ** Witnesses *)

Module StatusWitness.
(** Two sessions with one certificate, one of them draining. *)
Definition two : State :=
  set_agents {[1%nat := mkAgentSession (bs "SHA256:a") (bs "192.0.2.1:4711") 0 0 true;
               2%nat := mkAgentSession (bs "SHA256:a") (bs "192.0.2.2:4712") (10 ^ 9) 0 false]} {[1%nat; 2%nat]} ∅
    (NewState (bs "edge") 0).

Lemma status_tells_witness :
  renderStatus (fun _ => 0) None (snapshot [2; 1]%nat [] two) =
    [bs "role:       edge"; bs "agents:     2 sessions (1 draining), 1 certificate";
     bs "  - 192.0.2.1 (1970-01-01 00:00:00, SHA256:a, draining)"; bs "  - 192.0.2.2 (1970-01-01 00:00:01, SHA256:a)";
     bs "streams:    0 active / 0 max"; bs "bytes:      0 in / 0 out"; bs "handshakes: 0 ok / 0 fail / 0 rejected"] /\
  exists before line l after,
    renderStatus (fun _ => 0) None (snapshot [2; 1]%nat [] two) = before ++ line :: map (session_line (fun _ => 0)) l ++ after /\
    l ≡ₚ map agent_info (listed two) /\
    read_agents line = Some (N.of_nat (size (agents two)),
      N.of_nat (size (list_to_set (map as_fp (listed two)) : gset gostr)),
      N.of_nat (length (List.filter as_draining (listed two)))).
Proof.
  split; [vm_compute; reflexivity|]. apply (status_tells (fun _ => 0) two [2; 1]%nat []).
  - reflexivity.
  - refine (bool_decide_unpack _ _). vm_compute. exact I.
  - intros a [->%elem_of_singleton| ->%elem_of_singleton]%elem_of_union; by eexists.
Defined.
End StatusWitness.
