(* ===== verification/SlotWait.v ===== *)
(** * Waiting for a slot of a route ([routeSlot] and [slotFromKept] of
    [internal/edge/http3.go], [tcpRouteSlot] of [internal/edge/edge.go], [put] of
    [internal/edge/h3pool.go])

    A stream kept for some connection's next request holds a slot of its route's
    connection cap, while another request may wait for one.  A request that finds
    the route full counts itself in [slotWaiters], sweeps the kept streams, and
    then waits; a stream that finishes meanwhile is kept only if [put], under the
    pool's mutex, finds nobody counted.  Here these requests run on [H3Pool]'s
    world, with the mutex and the load inside it as steps of their own. *)

From S2P Require Import Prelude GoStrings H3Pool.
#[local] Open Scope Z_scope.

(** Where a request's [routeSlot], or a TCP connection's [tcpRouteSlot], is: at
    the first [tryAcquire]; at [slotWaiters.Add(1)]; at [evictRoute]; at the
    [tryAcquire] after it; in [acquire]; at the deferred [Add(-1)]; returned. *)
Inductive slot_pc := QStart | QFull | QSweep | QTry | QWait | QLeave (ok : bool) | QHas (ok : bool).

Record slot_req := mkReq { q_rs : nat; q_tcp : bool; q_at : slot_pc }.

(** It is counted in [slotWaiters]. *)
Definition counted (r : slot_req) : bool := match q_at r with QSweep | QTry | QWait | QLeave _ => true | _ => false end.

(** A [put] that holds the pool's mutex and has loaded [slotWaiters]. *)
Record putting := mkPutting { u_cs : nat; u_id : nat; u_ts : tunnelStream; u_waiters : Z; u_retired : bool }.

Record slots_sys := mkSys {
  base : world;
  slotWaiters : gmap nat Z;
  reqs : gmap nat slot_req;
  mutex : option putting;
}.

Definition set_base (w : world) (s : slots_sys) : slots_sys := mkSys w (slotWaiters s) (reqs s) (mutex s).
Definition set_waiters (m : gmap nat Z) (s : slots_sys) : slots_sys := mkSys (base s) m (reqs s) (mutex s).
Definition set_req (q : nat) (r : slot_req) (s : slots_sys) : slots_sys :=
  mkSys (base s) (slotWaiters s) (<[q := r]> (reqs s)) (mutex s).
Definition set_mutex (m : option putting) (s : slots_sys) : slots_sys := mkSys (base s) (slotWaiters s) (reqs s) m.

Definition goes_to (r : slot_req) (c : slot_pc) : slot_req := mkReq (q_rs r) (q_tcp r) c.

(** The next statement of a request; [order] is the order [evictRoute] visits the
    pool in, [ended] whether the request's context has ended, [prefer] what a
    [select] with both cases ready picks. *)
Definition slot_step (order : list nat) (ended prefer : bool) (q : nat) (r : slot_req) (s : slots_sys) : option slots_sys :=
  let rs := q_rs r in
  match q_at r with
  | QStart =>
      let '(w, ok) := take_slot rs (base s) in
      Some (set_req q (goes_to r (if ok then QHas true else QFull)) (set_base w s))
  | QFull => Some (set_req q (goes_to r QSweep) (set_waiters (madd rs 1 (slotWaiters s)) s))
  | QSweep =>
      match mutex s with
      | Some _ => None
      | None =>
          let '(w, evicted) := evict_stream order rs (base s) in
          Some (set_req q (goes_to r (if evicted then QTry else if q_tcp r then QLeave false else QWait)) (set_base w s))
      end
  | QTry =>
      let '(w, ok) := take_slot rs (base s) in
      Some (set_req q (goes_to r (if ok then QLeave true else QSweep)) (set_base w s))
  | QWait =>
      '(_, ok) ← acquire (sems (base s) !! rs) ended prefer;
      Some (set_req q (goes_to r (QLeave ok)) (if ok : bool then set_base (take_slot rs (base s)).1 s else s))
  | QLeave ok => Some (set_req q (goes_to r (QHas ok)) (set_waiters (madd rs (-1) (slotWaiters s)) s))
  | QHas _ => None
  end.

Inductive slot_event :=
| QNew (q rs : nat) (tcp : bool)
| QStep (q : nat) (order : list nat) (ended prefer : bool)
| PutLoad (cs id : nat) (ts : tunnelStream) (retired : bool)   (* put: Lock and the condition *)
| PutRest                                                      (* the rest of put *)
| Pool (e : event).                                            (* anything else of the pool *)

(** The other operations that take the pool's mutex; [EPut] is the two steps
    above. *)
Definition locks (e : event) : bool :=
  match e with EWatch _ _ | ETake _ _ _ | ECloseConn _ | ECloseAgent _ | ECloseAll | EEvict _ _ => true | _ => false end.
Definition is_put (e : event) : bool := match e with EPut _ _ _ _ _ => true | _ => false end.

(** A machine holds fewer than 2^31 requests.  A [put] in progress still has its
    stream. *)
Definition slot_enabled (e : slot_event) (s : slots_sys) : Prop :=
  match e with
  | QNew q _ _ => reqs s !! q = None
  | QStep q order ended prefer => exists r, reqs s !! q = Some r /\ is_Some (slot_step order ended prefer q r s) /\
      (q_at r = QSweep -> order ≡ₚ elements (all (pool (base s)))) /\
      (q_at r = QFull -> mget (slotWaiters s) (q_rs r) < 2 ^ 31 - 1)
  | PutLoad cs id ts retired => mutex s = None /\ enabled (EPut cs id ts 0 retired) (base s)
  | PutRest => exists u, mutex s = Some u /\ enabled (EPut (u_cs u) (u_id u) (u_ts u) (u_waiters u) (u_retired u)) (base s)
  | Pool e => enabled e (base s) /\ is_put e = false /\ (locks e = true -> mutex s = None)
  end.

Definition slot_exec (e : slot_event) (s : slots_sys) : slots_sys :=
  match e with
  | QNew q rs tcp => set_req q (mkReq rs tcp QStart) s
  | QStep q order ended prefer =>
      match reqs s !! q with Some r => default s (slot_step order ended prefer q r s) | None => s end
  | PutLoad cs id ts retired => set_mutex (Some (mkPutting cs id ts (mget (slotWaiters s) (ts_rs ts)) retired)) s
  | PutRest =>
      match mutex s with
      | Some u => set_mutex None (set_base (exec (EPut (u_cs u) (u_id u) (u_ts u) (u_waiters u) (u_retired u)) (base s)) s)
      | None => s
      end
  | Pool e => set_base (exec e (base s)) s
  end.

Definition slots_step : slots_sys -> slots_sys -> Prop := steps slot_enabled slot_exec.

Definition slots_initial (caps : gmap nat Z) : slots_sys := mkSys (initial caps) ∅ ∅ None.

(** ** Nothing but [put] keeps a stream *)

Lemma remove_less id p id' i : waiting (removeLocked id p) id' i -> waiting p id' i.
Proof. by intros [? _]%removeLocked_waiting. Qed.

Lemma removeWhere_less m p id i : waiting (removeWhereLocked m p).1 id i -> waiting p id i.
Proof. unfold removeWhereLocked. cbn [fst]. by intros [? _]%(proj2 (proj2 (remove_fold _ p))). Qed.

Lemma watch_less id quiet p id' i : waiting (watch id quiet p).1 id' i -> waiting p id' i.
Proof.
  unfold watch. destruct (idles p !! id) as [x|] eqn:E; [|done]. cbn [fst].
  intros [Hi Ht]. cbn [idles] in Hi. destruct (decide (id = id')) as [<-|Hne]; [rewrite lookup_insert_eq in Hi; by injection Hi as <-|].
  rewrite lookup_insert_ne in Hi by done. destruct (taken x); [by split|]. apply (remove_less id). by split.
Qed.

Lemma after_remove_less r w id i : waiting (pool (after_remove r w)) id i -> waiting r.1 id i.
Proof. unfold after_remove. by rewrite closeIdle_pool. Qed.

Lemma exec_less e w id i : is_put e = false -> waiting (pool (exec e w)) id i -> waiting (pool w) id i.
Proof.
  destruct e; cbn [is_put exec]; try done; intros _.
  - unfold take_slot. by destruct (tryAcquire _).
  - unfold watch_stream. destruct (watch id0 quiet (pool w)) as [p []] eqn:E; rewrite ?close_pool; cbn [pool set_pool];
      intros Hw; apply (watch_less id0 quiet); by rewrite E.
  - unfold take_stream, take_locked. destruct (conns (pool w) !! cs) as [c|]; [|done]. destruct (last _); [|done].
    rewrite move_pool. apply remove_less.
  - unfold take_done. destruct (idles (pool w) !! id0); [|done]. destruct (take_check _ _ _); by rewrite ?move_pool, ?close_pool.
  - by rewrite close_pool.
  - intros Hw%after_remove_less. revert Hw. unfold closeConn. destruct (conns (pool w) !! cs); [|done]. by intros Hw%removeWhere_less.
  - intros Hw%after_remove_less. by apply removeWhere_less in Hw.
  - intros Hw%after_remove_less. by apply removeWhere_less in Hw.
  - unfold evict_stream, evictRoute. destruct (List.find _ order); [|done]. cbn [fst]. rewrite close_pool. apply remove_less.
Qed.

Lemma keeps_less e w rs : is_put e = false -> keeps_slot rs (exec e w) -> keeps_slot rs w.
Proof. intros He (id & i & Hi & Hr). exists id, i. split; [by eapply exec_less|done]. Qed.

(** A [put] that found a waiter keeps nothing; another keeps its own stream. *)
Lemma put_keeps cs id ts wt ret w rs : keeps_slot rs (put_stream cs id ts wt ret w) -> keeps_slot rs w \/ (ts_rs ts = rs /\ wt <= 0).
Proof.
  unfold put_stream, put. destruct (conns (pool w) !! cs) as [c|]; cbn [mbind option_bind].
  2: { unfold keeps_slot. rewrite close_pool. by left. }
  destruct (_ || _ || _ || _ || _) eqn:E.
  { unfold keeps_slot. rewrite close_pool. by left. }
  assert (Hwt : wt <= 0). { apply orb_false_iff in E as [E _]. apply orb_false_iff in E as [_ E]. lia. }
  intros (id' & i & [Hi Ht] & Hr). rewrite move_pool in Hi. cbn in Hi.
  destruct (decide (id = id')) as [<-|Hne].
  - rewrite lookup_insert_eq in Hi. injection Hi as <-. by right.
  - rewrite lookup_insert_ne in Hi by done. left. by exists id', i.
Qed.

(** Closing an open stream frees a slot of its route. *)
Lemma close_frees t st w rs ended prefer : world_inv w -> streams w !! t = Some st -> is_open st = true -> ts_rs (s_ts st) = rs ->
  (ended && prefer = false) ->
  exists x, acquire (sems (close t w) !! rs) ended prefer = Some (x, true).
Proof.
  intros [_ Hr _] Hs Ho <- Hp. unfold close. rewrite Hs, Ho. cbn [sems]. unfold acquire.
  destruct (sems w !! ts_rs (s_ts st)) as [x|] eqn:Ex; cbn [release set_sem].
  - rewrite lookup_insert_eq. cbn [tryAcquire used cap]. destruct (ri_sem _ Hr _ _ Ex) as [_ Hle].
    rewrite (proj2 (Z.ltb_lt _ _)) by lia. rewrite Hp. by eexists.
  - rewrite Ex. cbn [tryAcquire]. rewrite Hp. by eexists.
Qed.

(** ** The invariant *)

Definition counts_for (rs : nat) (r : slot_req) : bool := counted r && (q_rs r =? rs)%nat.

Record slots_inv (s : slots_sys) : Prop := {
  v_base : world_inv (base s);
  v_count : forall rs, mget (slotWaiters s) rs = Z.of_nat (count_if (counts_for rs) (reqs s));
  v_wait : forall q r, reqs s !! q = Some r -> q_at r = QWait -> ~ keeps_slot (q_rs r) (base s);
  v_put : forall q r u, reqs s !! q = Some r -> q_at r = QWait -> mutex s = Some u -> ts_rs (u_ts u) = q_rs r -> 0 < u_waiters u;
}.

(** A request moves on, and the pool with it, keeping no stream. *)
Lemma move_req q r c w m s : slots_inv s -> reqs s !! q = Some r -> world_inv w ->
  (forall rs, keeps_slot rs w -> keeps_slot rs (base s)) ->
  (c = QWait -> mutex s = None /\ ~ keeps_slot (q_rs r) w) ->
  (forall rs, mget m rs + (if counts_for rs r then 1 else 0) = mget (slotWaiters s) rs + (if counts_for rs (goes_to r c) then 1 else 0)) ->
  slots_inv (set_req q (goes_to r c) (set_waiters m (set_base w s))).
Proof.
  intros [Hb Hc Hw Hp] Hq Hwi Hk Hn Hm. constructor; cbn.
  - done.
  - intros rs. pose proof (count_if_update (counts_for rs) _ _ _ (goes_to r c) Hq) as Hu. specialize (Hm rs). specialize (Hc rs).
    destruct (counts_for rs r), (counts_for rs (goes_to r c)); lia.
  - intros q' r' Hq' Hat. apply lookup_insert_Some in Hq' as [[<- <-]|[_ Hq']].
    + by apply Hn.
    + intros Hks. apply (Hw q' r' Hq' Hat). by apply Hk.
  - intros q' r' u Hq' Hat Hu. apply lookup_insert_Some in Hq' as [[<- <-]|[_ Hq']]; [|by eapply Hp].
    cbn in Hat. destruct (Hn Hat) as [Hnone _]. congruence.
Qed.

Lemma slot_step_inv order ended prefer q r s s' :
  slots_inv s -> reqs s !! q = Some r -> (q_at r = QSweep -> order ≡ₚ elements (all (pool (base s)))) ->
  slot_step order ended prefer q r s = Some s' -> slots_inv s'.
Proof.
  intros Hi Hq Ho. pose proof (v_base s Hi) as Hb. unfold slot_step.
  assert (Htake : forall c, c <> QWait -> (forall rs, counts_for rs (goes_to r c) = counts_for rs r) ->
    slots_inv (set_req q (goes_to r c) (set_base (take_slot (q_rs r) (base s)).1 s))).
  { intros c Hc Hsame. apply (move_req q r c _ (slotWaiters s)); try done.
    - by apply (h3_exec_inv (ETakeSlot (q_rs r))).
    - intros rs. by apply (keeps_less (ETakeSlot (q_rs r))).
    - intros rs. by rewrite Hsame. }
  destruct (q_at r) as [| | | | |ok|ok] eqn:Eat; [| | | | | |done].
  - destruct (take_slot (q_rs r) (base s)) as [w ok] eqn:Et. cbn [fst] in Htake. intros [= <-].
    destruct ok; apply Htake; try done; intros rs; unfold counts_for, counted; by rewrite Eat.
  - intros [= <-]. apply (move_req q r QSweep (base s) (madd (q_rs r) 1 (slotWaiters s))); try done.
    intros rs. rewrite mget_madd. unfold counts_for, counted. rewrite Eat. cbn [goes_to q_at q_rs andb].
    destruct (Nat.eqb_spec (q_rs r) rs); case_decide; lia.
  - destruct (mutex s) eqn:Em; [done|]. destruct (evict_stream order (q_rs r) (base s)) as [w ev] eqn:Ee. intros [= <-].
    assert (Hev : w = exec (EEvict order (q_rs r)) (base s)) by (cbn [exec]; by rewrite Ee).
    apply (move_req q r _ w (slotWaiters s)); try done.
    + rewrite Hev. apply h3_exec_inv; [by apply Ho|done].
    + rewrite Hev. intros rs. by apply keeps_less.
    + intros Hc. split; [done|]. rewrite Hev. intros Hk%keeps_less; [|done].
      destruct (evict_finds order (q_rs r) (base s) (Ho eq_refl) Hb Hk) as (? & ? & Ht & _). rewrite Ee in Ht. injection Ht as ->. done.
    + intros rs. unfold counts_for, counted. rewrite Eat. destruct ev, (q_tcp r); done.
  - destruct (take_slot (q_rs r) (base s)) as [w ok] eqn:Et. cbn [fst] in Htake. intros [= <-].
    destruct ok; apply Htake; try done; intros rs; unfold counts_for, counted; by rewrite Eat.
  - destruct (acquire _ _ _) as [[x ok]|]; [|done]. intros [= <-]. destruct ok.
    + apply Htake; [done|]. intros rs. unfold counts_for, counted. by rewrite Eat.
    + apply (move_req q r (QLeave false) (base s) (slotWaiters s)); try done. intros rs. unfold counts_for, counted. by rewrite Eat.
  - intros [= <-]. apply (move_req q r (QHas ok) (base s) (madd (q_rs r) (-1) (slotWaiters s))); try done.
    intros rs. rewrite mget_madd. unfold counts_for, counted. rewrite Eat. cbn [goes_to q_at q_rs andb].
    destruct (Nat.eqb_spec (q_rs r) rs); case_decide; lia.
Qed.

Lemma slot_exec_inv e s : slot_enabled e s -> slots_inv s -> slots_inv (slot_exec e s).
Proof.
  intros He Hi. destruct e as [q rs tcp|q order ended prefer|cs id ts ret| |e]; cbn [slot_enabled slot_exec] in *.
  - destruct Hi as [Hb Hc Hw Hp]. constructor; cbn; try done.
    + intros rs'. rewrite count_if_new by done. by rewrite Hc.
    + intros q' r Hq'. apply lookup_insert_Some in Hq' as [[<- <-]|[_ Hq']]; [done|by apply (Hw q')].
    + intros q' r u Hq'. apply lookup_insert_Some in Hq' as [[<- <-]|[_ Hq']]; [done|by apply (Hp q')].
  - destruct He as (r & Hq & [s' Hs] & Ho & _). rewrite Hq, Hs. by eapply slot_step_inv.
  - destruct Hi as [Hb Hc Hw Hp]. constructor; cbn; try done. intros q r u Hq Hat [= <-] Hr. cbn [u_waiters u_ts] in *.
    rewrite Hr, Hc. assert (0 < count_if (counts_for (q_rs r)) (reqs s))%nat; [|lia].
    eapply count_if_pos; [exact Hq|]. unfold counts_for, counted. rewrite Hat. cbn [andb]. by apply Nat.eqb_refl.
  - destruct He as (u & Hu & He). rewrite Hu. destruct Hi as [Hb Hc Hw Hp]. constructor; cbn; try done.
    + by apply h3_exec_inv in He.
    + intros q r Hq Hat Hk. apply put_keeps in Hk as [Hk|[Hr Hz]]; [by apply (Hw q r)|]. specialize (Hp q r u Hq Hat Hu Hr). lia.
  - destruct He as (He & Hn & _). destruct Hi as [Hb Hc Hw Hp]. constructor; cbn; try done.
    + by apply h3_exec_inv.
    + intros q r Hq Hat Hk%keeps_less; [|done]. by apply (Hw q r).
Qed.

Lemma slots_reachable caps s : rtc slots_step (slots_initial caps) s -> slots_inv s.
Proof.
  intros Hs. eapply steps_invariant; [|exact Hs|]; [intros; by apply slot_exec_inv|].
  constructor; cbn; try done. apply h3_initial_inv.
Qed.

(** [C14] No slot is withheld from a request that waits for one: in every
    interleaving of requests, TCP connections, streams that finish and are kept,
    taken or closed, and with [slotWaiters] loaded only under the pool's mutex,
    while a request is in [acquire] no stream of its route is kept for another
    request, so that every slot is held by work in progress; a stream of the route
    that finishes then, by [put] or otherwise, is closed and its slot is there to
    be taken; and [slotWaiters] is exactly the number of requests between their
    two [Add]s. *)
Theorem no_slot_withheld (caps : gmap nat Z) (s : slots_sys) (q : nat) (r : slot_req)
    (Hs : rtc slots_step (slots_initial caps) s) (Hq : reqs s !! q = Some r) (Hw : q_at r = QWait) :
  ~ keeps_slot (q_rs r) (base s) /\
  (forall u, mutex s = Some u -> slot_enabled PutRest s -> ts_rs (u_ts u) = q_rs r ->
     exists x, acquire (sems (base (slot_exec PutRest s)) !! q_rs r) false false = Some (x, true)) /\
  (forall t st, streams (base s) !! t = Some st -> is_open st = true -> ts_rs (s_ts st) = q_rs r ->
     exists x, acquire (sems (base (slot_exec (Pool (EDone t)) s)) !! q_rs r) false false = Some (x, true)) /\
  (forall rs, mget (slotWaiters s) rs = Z.of_nat (count_if (counts_for rs) (reqs s))).
Proof.
  apply slots_reachable in Hs as Hi. split_and!.
  - by apply (v_wait s Hi q).
  - intros u Hu (u' & Hu' & [[opener Hst] _]) Hr. rewrite Hu in Hu'. injection Hu' as <-. cbn [slot_exec]. rewrite Hu. cbn [base set_mutex set_base exec].
    pose proof (v_put s Hi q r u Hq Hw Hu Hr) as Hpos. unfold put_stream.
    assert (Hput : put (u_cs u) (u_id u) (u_ts u) (u_waiters u) (u_retired u) (pool (base s)) = None).
    { unfold put. destruct (conns _ !! u_cs u); [|done]. cbn [mbind option_bind]. rewrite (proj2 (Z.ltb_lt _ _) Hpos), orb_true_r. done. }
    rewrite Hput. eapply close_frees; [apply (v_base s Hi)|exact Hst|done|done|done].
  - intros t st Hst Ho Hr. cbn [slot_exec base set_base exec]. eapply close_frees; [apply (v_base s Hi)|exact Hst|done|done|done].
  - apply (v_count s Hi).
Qed.

(** ** Witnesses *)

Module SlotWaitWitness.
Definition ts1 : tunnelStream := mkTS 1 7 0 (bs "a.example").
Definition caps1 : gmap nat Z := {[0%nat := 1]}.

(** A route with one slot: its stream is in [put], past the load, when a request
    finds the route full; the stream is kept, swept by the request, and the slot
    taken by another; the request waits. *)
Definition before_put : list slot_event :=
  [Pool (EConn 3); QNew 1 0 false; QStep 1 [] false false; Pool (EOpen 3 ts1);
   QNew 2 0 false; QStep 2 [] false false; PutLoad 3 5 ts1 false; QStep 2 [] false false; PutRest; QStep 2 [5%nat] false false;
   QNew 4 0 false; QStep 4 [] false false; QStep 2 [] false false; QStep 2 [] false false].
Definition play (l : list slot_event) : slots_sys := foldl (fun s e => slot_exec e s) (slots_initial caps1) l.

Ltac fact := first [vm_compute; reflexivity | eexists; vm_compute; reflexivity].
(** The guard of a concrete event in a concrete state. *)
Ltac may_step :=
  lazymatch goal with
  | |- slot_enabled (QNew _ _ _) _ => fact
  | |- slot_enabled (QStep _ _ _ _) _ =>
      eexists; split; [vm_compute; reflexivity|split; [fact|split; intros Hx; vm_compute in Hx; first
        [discriminate | vm_compute; reflexivity | refine (bool_decide_unpack _ _); vm_compute; exact I]]]
  | |- slot_enabled PutRest _ => eexists; split; [vm_compute; reflexivity|split; fact]
  | |- slot_enabled (PutLoad _ _ _ _) _ => split; [fact|split; fact]
  | |- slot_enabled (Pool (EOpen _ _)) _ => split; [split; [fact|split; fact]|split; [reflexivity|intros Hx; discriminate]]
  | |- slot_enabled (Pool _) _ => split; [fact|split; [reflexivity|intros Hx; discriminate]]
  end.

Lemma play_reach : rtc slots_step (slots_initial caps1) (play before_put).
Proof. apply plays_reach. repeat (split; [may_step|]). exact I. Qed.

Lemma no_slot_withheld_witness :
  q_at (default (mkReq 0 true QStart) (reqs (play before_put) !! 2%nat)) = QWait /\ ~ keeps_slot 0 (base (play before_put)).
Proof.
  split; [vm_compute; reflexivity|].
  refine (proj1 (no_slot_withheld caps1 (play before_put) 2 (mkReq 0 false QWait) play_reach _ _)); vm_compute; reflexivity.
Defined.
End SlotWaitWitness.
